(* ===== verification/_CoqProject ===== *)
-Q . S2P
Prelude.v
DecimalString.v
Double.v
Random.v
Sha256.v
MerkleTree.v
Base64.v
LruCache.v
Locks.v
ThreadPool.v
Msp.v
Encrypt.v
MpmcQueue.v
Semaphore.v
BlockingQueue.v
BlockStorage.v
HashMap.v
MVCCHashMap.v
Transaction.v
TransactionCodec.v
BlockGenerator.v
ReserveTable.v
MVCCReserveTable.v
Storage.v
Orm.v
SqlStorage.v
Database.v
Chaincode.v
SmallBank.v
Ycsb.v
OrmTest.v
ChaincodeManager.v
Executor.v
Aria.v
Aggregation.v
AggregatedEpoch.v
WorkloadSize.v
Coordinator.v
AggregationCoordinator.v
Protocol.v
AggregationProtocol.v
AggregationSystem.v
Shutdown.v
EpochQueues.v
CommController.v
EpochBuffer.v
TransactionManager.v
ConsensusControl.v
ClientProxy.v
UserCollector.v
EpochServer.v
QueryController.v
UserPayload.v
MockComm.v
YcsbWorkload.v
Monitor.v
ServerListener.v
BlockExchange.v
RaftGlue.v
MultiRaft.v
Leadership.v
EpochInput.v
System.v
AriaRuns.v
AggregationRuns.v
MonitorRuns.v
Server.v
ServerRuns.v
