(* ===== verification/Prelude.v ===== *)
(** * NeuChain: a verification library

    NeuChain is a permissioned blockchain that orders first and executes
    deterministically: epoch servers stamp batches of transactions with an
    epoch, block servers exchange the stamped batches, and every block server
    executes the transactions of an epoch in parallel with the Aria protocol,
    commits those without conflicting dependencies and puts the epoch in a
    block.  This library models the code of the block server, the epoch
    server and the benchmark clients under [src/src] and [src/include] (paths
    below leave out these two prefixes and [block_server/]) and proves the properties that make its parts,
    and the path of a transaction through them, correct.

    ** The path of a transaction and the files that model it

    - [UserPayload], [YcsbWorkload]: [common/payload/ycsb_payload.cpp] and
      [user/block_bench/*]: the clients that choose operations and keys
      ([common/random_generator.h]), sign requests and send them to the servers.
    - [ClientProxy]: [comm/client_proxy/user_collector.cpp] turns user requests
      into transactions and asks for the epoch of a batch ([UserCollector]: its
      threads, and the batches that wait for an epoch); [client_proxy.cpp]
      numbers the transactions, pushes them to the epoch buffer of the local
      proxy and broadcasts them; the remote proxies check what they receive and
      push the same.
    - [EpochServer]: [epoch_server/ev_consensus_manager.cpp], the epoch servers
      that stamp a batch and move through the epochs by a raft log; [RaftGlue]:
      [epoch_server/raft/*], the sender, chain and client that put the messages
      of a server into that log and take them out again.
    - [ConsensusControl]: [comm/client_proxy/consensus_control_block.h], the
      votes on finished epochs and malicious servers; [MultiRaft]: the raft group
      of each block server, and the delivery of the entries of all groups;
      [Leadership]: [epoch_server/raft/chain.h], the leaders of the groups.
    - [EpochBuffer] (with [EpochQueues]): [epoch_transaction_buffer.h],
      [epoch_txn_queue_manager.h] and [common/cyclic_barrier.cpp], the producers
      and workers that hand the transactions over epoch by epoch; [EpochInput]
      composes the proxies with the buffers.
    - [CommController]: [comm/client_proxy/comm_controller.cpp], batches for the
      transaction manager and the recycler of transactions.
    - [TransactionManager]: [transaction/impl/transaction_manager_impl.cpp], the
      receiving thread and the sealing of an epoch.
    - [Coordinator], [Protocol]: [coordinator/aria_coordinator.cpp],
      [worker/aria_worker.cpp], [worker/worker_instance.h]: workloads, and the
      signals between the coordinator and its workers as a step relation;
      [WorkloadSize]: [coordinator/workload_size_adapter.h], the sizes of
      workloads, computed in the floating point of [Double]; [Shutdown]: the destructor of the coordinator, for both kinds of workers.
    - [Executor]: [worker/transaction_executor.cpp] and [worker/impl/*]: the read
      phase and the commit phase on the shared heap of transactions.
    - [ReserveTable], [MVCCReserveTable]: [reserve_table/mock/*], reservation of
      cells by transaction id and dependency analysis.
    - [Aria]: one epoch, the two phases over any distribution of the transactions
      on workers; [System]: the logs of [Protocol] run on the state of
      [Executor]; [AriaRuns]: a concrete epoch.
    - [Server]: [server.h], the server as [initServer] connects it: manager,
      coordinator, workers, database and block generator on one heap;
      [ServerRuns]: a concrete run.
    - [Aggregation], [AggregationCoordinator], [AggregatedEpoch],
      [AggregationProtocol]: [coordinator/aggregation_broadcaster.cpp],
      [coordinator/aggregation_coordinator.cpp] and
      [worker/aggregation_worker.cpp], the servers of a cluster that share the
      execution of an epoch, and the signals of their coordinators and workers;
      [AggregationSystem]: the logs of the protocol run on the state of the
      executors; [AggregationRuns]: a concrete epoch.
    - [Chaincode], [SmallBank], [Ycsb], [OrmTest], [ChaincodeManager]:
      [worker/chaincode/*] and [worker/chaincode_manager.cpp].
    - [Orm], [Database], [Storage]: [database/orm/*],
      [database/impl/database_impl.cpp], [hash_map_storage.cpp],
      [level_db_storage.cpp]; [SqlStorage]: [database/db_connection.cpp],
      [db_storage_impl.cpp], [results_iterator_impl.cpp], the SQL back end.
    - [BlockGenerator], [BlockStorage]: [database/block_generator.cpp],
      [database/impl/block_generator_impl.cpp], [block_storage_to_file.cpp],
      [block_storage_to_db.cpp]; [BlockExchange]:
      [database/block_broadcaster.cpp], the servers that check each other's
      signatures of a block, and [ServerListener]:
      [common/zmq/zmq_server_listener.h], its connections to them.
    - [QueryController], [Monitor]: [comm/query/query_controller.cpp], and
      [user/block_bench/db_user_base.cpp], the monitor that reads the blocks and
      counts the transactions its clients sent; [MonitorRuns]: a concrete run.
    - [MockComm]: [comm/mock/*] and [common/payload/mock_utils.cpp], the doubles
      of the communication controller.
    - [Msp]: [common/msp/crypto_sign.cpp], [common/msp/crypto_helper.cpp] and
      [common/yaml_config.cpp], configuration, key files and signers; [Encrypt]:
      [common/msp/crypto_encrypt.cpp], encryption.
    - [Transaction], [TransactionCodec]: [transaction/transaction.h] and
      [transaction/mock/mock_transaction.cpp].
    - Shared parts under [common/]: [HashMap], [MVCCHashMap], [LruCache],
      [MpmcQueue], [Semaphore], [BlockingQueue], [ThreadPool], [Locks],
      [MerkleTree], [Sha256], [Base64], [Random], and, for the C++ language and
      library, [DecimalString] (conversions) and [Double] (floating point).

    ** How the code is modelled

    A function that can stop the process returns an [outcome]: [Fatal] is a
    failed CHECK, a null dereference, an access out of range or a signed
    overflow.  DCHECK depends on a parameter [debug], and the theorems hold for
    both builds.  Machine integers are [Z] or [N] with the wrap-around written
    out ([u64], [u32]), doubles the binary64 numbers of the standard library with
    their rounding.  Transactions are objects shared by the manager, the
    coordinator, the database and the executors; they live in a heap
    ([txn_heap]) and are named by pointers, so a change through one pointer is
    seen by all.  A call that can block is an [option]: [None] means that it
    waits.  Threads are step relations whose steps are the accesses to shared
    state (under a lock, the whole critical section); properties are proved for
    every interleaving.  std::map and std::unordered_map are finite maps;
    where the order of enumeration matters it is written out or is a parameter.
    Interfaces are classes with their laws: [DBStorage] and [TableStorage]
    (storage back ends), [BlockStorageLaws] (block storage), [Protobuf] and
    [ProtobufLaws] (serialisation), [BlockProto] and [QueryProto] (blocks and
    queries), [Yaml], [OpenSSL] and [EVP], [Engines] (random engines), [Local] (what the
    executor needs of a chaincode: it depends only on the cells it reads).

    Code outside the repository is a parameter with its documented behaviour as
    a hypothesis: protobuf, yaml-cpp, OpenSSL, LevelDB,
    raft (one log that all servers receive in order), the random engines and
    distributions, std::hash.  Each has a concrete instance that
    satisfies the hypotheses, used by the witnesses and examples.

    ** What the theorems show

    - Execution: an epoch is serializable, deterministic over schedules and
      distributions, commits exactly the transactions the rule allows and always
      one of them ([aria_serializable], [aria_deterministic],
      [aria_commit_rule], [aria_progress]); the signals between the coordinator
      and its workers separate the phases ([protocol_phases]) and never block for
      good while what they wait for comes (the votes of the other servers, the
      transactions of the next epoch, the callback; [protocol_live]); both together give
      [system_epoch_serializable].
    - The server, started on an empty chain, with non-empty epochs, without
      aggregation and reuse: whatever the order of its threads, every transaction
      received is executed in one epoch or waits, the epochs are serial one after
      the other on one database, the blocks are their results, and nothing but a
      chaincode that does not return or a signature of another server that does
      not verify stops the process ([server_correct]).
    - Aggregation: workloads cover the epoch ([agg_assign_complete]), a shared
      epoch has the results of an epoch executed alone
      ([aggregation_equivalent], if no request creates a table and the read-write
      sets survive the wire), the signals separate its phases and never block
      while the messages and votes of the other servers come
      ([agg_protocol_correct]), and both together give
      [aggregation_system].  Both coordinators stop ([coordinator_stops],
      [agg_coordinator_stops]).
    - Clients: a call arrives at the chaincode as what was meant
      ([smallbank_call_served], for amounts below 2^31 and the operations other
      than [amalgamate]; [ycsb_update_served]), requests are numbered and
      spread over the servers ([session_requests]), the keys of the YCSB
      workload exist ([transaction_keys_exist]), queries change nothing
      ([key_query_reads_only]), and the monitor's numbers are exact while blocks
      are published in order ([monitor_counts_exact]).
    - Input: the collector loses no request and hands batches over in the order of
      epochs ([collector_exact]), the proxies of all servers make the same calls
      ([proxies_agree]), accuse a server exactly when a batch does not verify and
      let nothing else through ([remote_calls_clean]), epochs are stamped in
      order ([epoch_servers_agree], [epoch_response_accepted]) by a log that the
      raft glue implements ([raft_glue_refines]), signatures verify where they
      are checked ([msp_signatures_verify]), the buffers hand
      over in order ([hand_over_ordered]), so all replicas execute the same
      input when early execution is off ([replicas_same_input]); votes refine their specification
      ([ccb_refines]) and do not depend on the order of the raft groups while
      nobody is excluded ([multi_raft_agree]), and the servers come to lead their
      groups ([leaders_settle], [leader_term_exact]); batches, manager and recycler lose and duplicate nothing
      ([comm_epoch_complete], [manager_conserves], [recycler_exact],
      [add_transactions_exact], which also bounds the sizes of workloads).
    - Blocks: the stored blocks form a valid chain ([block_chain_valid]), survive
      a restart ([file_restart]); Merkle roots are those of a tree of RFC 6962's
      shape (without its prefixes) and proofs are sound ([merkle_root_correct], [merkle_verify_sound]); the servers accept
      each other's signatures of a block ([signatures_accepted]); SHA-256 is that
      of FIPS 180-2 ([sha256_stream_correct]); transactions whose
      tables and keys are UTF-8 survive serialisation ([transaction_round_trip]).
    - Data structures refine their specifications ([hash_map_refines],
      [lru_refines], [mpmc_fifo], [mpmc_progress], [semaphore_exact],
      [semaphore_wakes], [spin_lock_exclusive], [cv_no_lost_wakeup],
      [blocking_queue_sound], [pool_runs_all], [cas_linearizable],
      [dependency_analysis_exact], [connections_exclusive],
      [array_list_safe], [base64_round_trip], [aes_round_trip],
      [seal_round_trip],
      [a_string_total]); chaincodes theirs ([sb_invoke_refines],
      [sb_money_conserved], [sb_no_overdraft], [ycsb_write_merges],
      [quicksort_correct]).
    - Theorems about what the code gets wrong say so in their comment
      ([eager_buffer_loses], [restart_cannot_extend], [verify_rejects_own_blocks],
      [late_confirmation_blocks], [mv_blind_write_crashes],
      [late_return_counts_nothing], [stale_leader_kept], [verify_error_accepted],
      [remote_cannot_open], [write_key_overreads], [amalgamate_moves_savings],
      [large_amount_negative], [not_utf8_stops], [one_request_moves]).

    ** Fuel and bounds

    Recursion that is not structural carries fuel, and the theorems state how
    much is enough: the entries queued for a workload loop plus one, the length
    of the array for the quicksort, the number of steps left ([measure]) for the
    protocol.  Theorems are about epochs below [MAX_EPOCH] where the code indexes
    vectors of that size, Merkle trees of at most 2^18 leaves, and inputs below
    the widths of the length fields; the bounds appear as hypotheses.

    ** Not modelled

    Sockets (calls of ZeroMQ), braft, brpc and PostgreSQL themselves, the main
    programs, the pacing and printing of the benchmark, clocks, logging, and the unbounded
    queues of moodycamel (vendored and only called; they are used as
    FIFO queues, or queues that keep the order of each producer, with blocking
    reads).  The floating-point draws of the Zipfian generator, which need the
    power function of the C library, are a parameter.  Atomics are sequentially
    consistent.  Of partly modelled components: the debug trace of a block, the
    registration of services and the shutdown of the raft glue, the start-up of
    the proxies, the end of the server ([stopServer]) beyond that of its
    coordinator. *)
From Stdlib Require Import ZArith NArith Lia.
From stdpp Require Import base list gmap strings numbers sorting.

(** ** Outcomes

    A C++ function of NeuChain either returns, or stops the process: glog's
    [CHECK] aborts when its condition is false, a null dereference or an
    out-of-range access is undefined behaviour, and so is signed overflow.
    Every fallible operation of the model returns an [outcome]. *)
Inductive fault :=
  | CheckFailed
  | NullDeref
  | OutOfRange
  | SignedOverflow.

Inductive outcome (A : Type) :=
  | Ok (a : A)
  | Fatal (f : fault).
Arguments Ok {A} _.
Arguments Fatal {A} _.

#[global] Instance fault_eq_dec : EqDecision fault.
Proof. solve_decision. Defined.

#[global] Instance outcome_eq_dec `{EqDecision A} : EqDecision (outcome A).
Proof. solve_decision. Defined.

#[global] Instance outcome_ret : MRet outcome := λ A a, Ok a.
#[global] Instance outcome_bind : MBind outcome := λ A B f m,
  match m with Ok a => f a | Fatal e => Fatal e end.
#[global] Instance outcome_fmap : FMap outcome := λ A B f m,
  match m with Ok a => Ok (f a) | Fatal e => Fatal e end.

(** glog's [CHECK]: abort unless the condition holds. *)
Definition CHECK (b : bool) : outcome unit :=
  if b then Ok tt else Fatal CheckFailed.

(** glog's [DCHECK]: a [CHECK] in debug builds, nothing under [NDEBUG]. *)
Definition DCHECK (debug : bool) (b : bool) : outcome unit :=
  if debug then CHECK b else Ok tt.

(** Reading through a pointer that may be null. *)
Definition deref {A} (p : option A) : outcome A :=
  match p with Some a => Ok a | None => Fatal NullDeref end.

(** Reading an element of a container without a bounds check. *)
Definition at_index {A} (l : list A) (i : nat) : outcome A :=
  match l !! i with Some a => Ok a | None => Fatal OutOfRange end.

Lemma outcome_bind_Ok {A B} (m : outcome A) (k : A → outcome B) (b : B) :
  (m ≫= k) = Ok b → ∃ a, m = Ok a ∧ k a = Ok b.
Proof. destruct m as [a|e]; simpl; intros H; [eauto | discriminate]. Qed.

Lemma outcome_bind_assoc {A B C} (m : outcome A) (f : A → outcome B) (g : B → outcome C) :
  ((m ≫= f) ≫= g) = (m ≫= λ a, f a ≫= g).
Proof. by destruct m. Qed.

(** [inv_outcome] splits every hypothesis that says a sequence of fallible
    steps returned into what each step returned. *)
Ltac inv_outcome :=
  repeat match goal with
  | H : (_ ≫= _) = Ok _ |- _ =>
      let a := fresh "a" in let Ha := fresh "Ha" in
      apply outcome_bind_Ok in H as (a & Ha & H); simpl in H
  | H : Ok _ = Ok _ |- _ => injection H as H; subst
  | H : Fatal _ = Ok _ |- _ => discriminate H
  | p : (_ * _)%type |- _ => destruct p; simpl in *
  end.

(** A fallible left fold: the shape of a C++ range-for with early exit on
    failure. *)
Fixpoint foldM {A S} (f : A → S → outcome S) (l : list A) (s : S) : outcome S :=
  match l with
  | [] => Ok s
  | a :: l' => s' ← f a s; foldM f l' s'
  end.

Lemma foldM_app {A S} (f : A → S → outcome S) l1 l2 s :
  foldM f (l1 ++ l2) s = (foldM f l1 s ≫= foldM f l2).
Proof.
  revert s. induction l1 as [|a l1 IH]; intros s; simpl; [done|].
  destruct (f a s); simpl; [apply IH | done].
Qed.

(** An invariant of the body is an invariant of the loop. *)
Lemma foldM_inv {A S} (I : S → Prop) (f : A → S → outcome S) l s s' :
  (∀ a s1 s2, a ∈ l → I s1 → f a s1 = Ok s2 → I s2) →
  I s → foldM f l s = Ok s' → I s'.
Proof.
  revert s. induction l as [|a l IH]; simpl; intros s Hf Hs H.
  - by injection H as <-.
  - apply outcome_bind_Ok in H as (s1 & H1 & H2).
    apply (IH s1); [ | | done].
    + intros a' t1 t2 Ha'. apply Hf. by right.
    + apply (Hf a s); [by left | done | done].
Qed.

(** ** Value initialisation: what [T()] is in C++ *)
Class ValueInit (T : Type) := value_init : T.
#[global] Instance N_value_init : ValueInit N := 0%N.
#[global] Instance string_value_init : ValueInit string := "".
#[global] Instance list_value_init {A} : ValueInit (list A) := [].
#[global] Instance option_value_init {A} : ValueInit (option A) := None.
#[global] Instance gmap_value_init `{Countable K} {V} : ValueInit (gmap K V) := (∅ : gmap K V).

(** ** Byte strings

    A [std::string] of the code is a [string]; where its bytes matter (hashing,
    encoding, serialisation) it is the list of their values. *)
Definition bytes_of (s : string) : list N := Ascii.N_of_ascii <$> String.list_ascii_of_string s.
Definition of_bytes (l : list N) : string :=
  String.string_of_list_ascii (Ascii.ascii_of_N <$> l).

Lemma of_bytes_of s : of_bytes (bytes_of s) = s.
Proof.
  unfold of_bytes, bytes_of. rewrite <-list_fmap_compose.
  rewrite <-(String.string_of_list_ascii_of_string s) at 2. f_equal.
  rewrite <-(list_fmap_id (String.list_ascii_of_string s)) at 2.
  apply list_fmap_ext. intros _ a _. apply Ascii.ascii_N_embedding.
Qed.

Lemma bytes_of_small s : Forall (λ b, (b < 256)%N) (bytes_of s).
Proof. apply Forall_fmap, Forall_true. intros a. apply Ascii.N_ascii_bounded. Qed.

(** ** Step relations *)

(** An invariant of every step is an invariant of every reachable state. *)
Lemma rtc_invariant {S} (R : relation S) (I : S → Prop) s s' :
  (∀ s1 s2, I s1 → R s1 s2 → I s2) → I s → rtc R s s' → I s'.
Proof. intros HR Hs. induction 1 as [|s1 s2 s3 H12 _ IH]; eauto. Qed.

Lemma NoDup_snoc {A} (l : list A) x : NoDup l → x ∉ l → NoDup (l ++ [x]).
Proof.
  intros Hl Hx. apply NoDup_app. split_and!; [done| |apply NoDup_singleton].
  by intros y Hy ->%list_elem_of_singleton.
Qed.

(** Members of an updated list. *)
Lemma list_insert_elem {A} (l : list A) i x y : x ∈ <[i := y]> l → x = y ∨ x ∈ l.
Proof.
  intros [j Hj]%list_elem_of_lookup. destruct (decide (j = i)) as [->|Hne].
  - pose proof (lookup_lt_Some _ _ _ Hj) as Hlt. rewrite length_insert in Hlt.
    rewrite list_lookup_insert_eq in Hj by done. left. congruence.
  - rewrite list_lookup_insert_ne in Hj by done. right. by eapply list_elem_of_lookup_2.
Qed.

Lemma list_delete_elem {A} (l : list A) i j x : l !! j = Some x → j ≠ i → x ∈ delete i l.
Proof.
  intros Hj Hne. apply list_elem_of_lookup. destruct (decide (j < i)).
  - exists j. by rewrite list_lookup_delete_lt.
  - exists (j - 1). rewrite list_lookup_delete_ge by lia. by replace (S (j - 1)) with j by lia.
Qed.

(** A run either advances [h] or uses up the measure [m]. *)
Lemma nsteps_progress {A} (R : A → A → Prop) (I : A → Prop) (h m : A → nat) :
  (∀ x y, I x → R x y → I y) →
  (∀ x y, I x → R x y → h x ≤ h y ∧ (h y = h x → m y < m x)) →
  ∀ n x y, I x → nsteps R n x y → h x < h y ∨ (h y = h x ∧ m y + n ≤ m x).
Proof.
  intros HI HR n x y Hx Hn. revert Hx. induction Hn as [x|n x y z Hxy _ IH]; intros Hx; [right; lia|].
  destruct (HR x y Hx Hxy) as [Hle Hm]. destruct (IH (HI x y Hx Hxy)) as [Hlt|[E Hs]]; [left; lia|].
  destruct (decide (h y = h x)) as [E'|?]; [|left; lia]. specialize (Hm E'). right. lia.
Qed.

(** ** Machine integers *)

(** [uint64_t]: [tid_size_t], [epoch_size_t] and [size_t]. *)
Definition u64 (n : N) : N := (n mod 2 ^ 64)%N.

Lemma u64_small n : (n < 2 ^ 64)%N → u64 n = n.
Proof. apply N.mod_small. Qed.

(** [int]: a result outside the range is undefined behaviour. *)
Definition INT_MIN : Z := (- 2 ^ 31)%Z.
Definition INT_MAX : Z := (2 ^ 31 - 1)%Z.
Definition fits_int (z : Z) : bool := ((INT_MIN <=? z) && (z <=? INT_MAX))%Z.

Definition int_check (z : Z) : outcome Z :=
  if fits_int z then Ok z else Fatal SignedOverflow.
Definition int_add (a b : Z) : outcome Z := int_check (a + b)%Z.
Definition int_sub (a b : Z) : outcome Z := int_check (a - b)%Z.
Definition int_neg (a : Z) : outcome Z := int_check (- a)%Z.

(** [static_cast<int>] of a [long]: modular, as every supported compiler does. *)
Definition to_int (z : Z) : Z := ((z + 2 ^ 31) mod 2 ^ 32 - 2 ^ 31)%Z.

Lemma fits_int_spec z : fits_int z = true ↔ (INT_MIN ≤ z ≤ INT_MAX)%Z.
Proof. unfold fits_int. rewrite andb_true_iff, !Z.leb_le. done. Qed.

Lemma to_int_range z : fits_int (to_int z) = true.
Proof.
  apply fits_int_spec. unfold to_int, INT_MIN, INT_MAX.
  pose proof (Z.mod_pos_bound (z + 2 ^ 31) (2 ^ 32)). lia.
Qed.

Lemma to_int_id z : fits_int z = true → to_int z = z.
Proof.
  rewrite fits_int_spec. unfold to_int, INT_MIN, INT_MAX. intros H.
  rewrite Z.mod_small; lia.
Qed.

Lemma int_check_Ok z r : int_check z = Ok r → r = z ∧ fits_int z = true.
Proof. unfold int_check. destruct (fits_int z); intros H; [by injection H as <- | done]. Qed.

(** ** The hint database of the development *)
Create HintDb neuchain discriminated.
#[export] Hint Resolve to_int_range : neuchain.
#[export] Hint Rewrite @outcome_bind_assoc : neuchain.
