(* ===== verification/DecimalString.v ===== *)
(** * Decimal strings

    The two conversions of the C++ library that chaincodes apply to balances:
    [std::to_string] and [strtol] with base 10, and their round trip. *)
From S2P Require Import Prelude.
From Stdlib Require Import Ascii String.
From stdpp Require Import base list strings numbers.

Local Open Scope Z_scope.

Definition digit (n : N) : ascii := ascii_of_N (48 + n).

(** [std::to_string] on a non-negative number: the digits of [n] in front of
    [acc]. *)
Fixpoint digits_onto (fuel : nat) (n : N) (acc : string) : string :=
  match fuel with
  | O => acc
  | S fuel' =>
      if (n <? 10)%N then String (digit n) acc
      else digits_onto fuel' (n / 10) (String (digit (n mod 10)) acc)
  end.

Definition N_to_string (n : N) : string := digits_onto (S (N.size_nat n)) n "".

Definition to_string (z : Z) : string :=
  if z <? 0 then String "-" (N_to_string (Z.to_N (- z))) else N_to_string (Z.to_N z).

(** ** strtol *)
Definition is_space (c : ascii) : bool :=
  let n := N_of_ascii c in ((n =? 32) || ((9 <=? n) && (n <=? 13)))%N.

Definition digit_value (c : ascii) : option Z :=
  let n := N_of_ascii c in
  if ((48 <=? n) && (n <=? 57))%N then Some (Z.of_N n - 48) else None.

Fixpoint skip_spaces (s : string) : string :=
  match s with
  | EmptyString => s
  | String c s' => if is_space c then skip_spaces s' else s
  end.

Fixpoint parse_digits (s : string) (acc : Z) : Z :=
  match s with
  | EmptyString => acc
  | String c s' =>
      match digit_value c with
      | Some d => parse_digits s' (acc * 10 + d)
      | None => acc
      end
  end.

Definition clamp_long (z : Z) : Z := Z.max (- 2 ^ 63) (Z.min (2 ^ 63 - 1) z).

Definition strtol (s : string) : Z :=
  match skip_spaces s with
  | EmptyString => 0
  | String c s' =>
      if Ascii.eqb c "-" then clamp_long (- parse_digits s' 0)
      else if Ascii.eqb c "+" then clamp_long (parse_digits s' 0)
      else clamp_long (parse_digits (String c s') 0)
  end.

(** [static_cast<int>(strtol(s.data(), nullptr, 10))]. *)
Definition parse_int (s : string) : Z := to_int (strtol s).

(** ** Round trip *)
Lemma N_of_digit n : (n < 10)%N → N_of_ascii (digit n) = (48 + n)%N.
Proof. intros H. unfold digit. apply N_ascii_embedding. lia. Qed.

Lemma digit_value_digit n : (n < 10)%N → digit_value (digit n) = Some (Z.of_N n).
Proof.
  intros H. unfold digit_value. rewrite N_of_digit by done.
  destruct (N.leb_spec 48 (48 + n)), (N.leb_spec (48 + n) 57); simpl; try lia.
  f_equal. lia.
Qed.

Lemma parse_digits_onto fuel n acc :
  (n < 10 ^ N.of_nat fuel)%N →
  ∃ k : Z, ∀ a, parse_digits (digits_onto fuel n acc) a = parse_digits acc (a * k + Z.of_N n).
Proof.
  revert n acc. induction fuel as [|fuel IH]; intros n acc Hn; simpl digits_onto.
  { exists 1. intros a. simpl in Hn. f_equal. lia. }
  destruct (N.ltb_spec n 10) as [Hlt|Hge].
  - exists 10. intros a. simpl. by rewrite digit_value_digit.
  - destruct (IH (n / 10)%N (String (digit (n mod 10)) acc)) as [k Hk].
    { apply N.Div0.div_lt_upper_bound. rewrite Nnat.Nat2N.inj_succ, N.pow_succ_r' in Hn. lia. }
    exists (k * 10). intros a. rewrite Hk. simpl.
    assert (n mod 10 < 10)%N as Hm by (apply N.mod_lt; lia).
    rewrite digit_value_digit by done. f_equal.
    pose proof (N.div_mod n 10 ltac:(lia)). nia.
Qed.

Lemma size_nat_bound n : (n < 10 ^ N.of_nat (S (N.size_nat n)))%N.
Proof.
  assert (n < 2 ^ N.of_nat (S (N.size_nat n)))%N as H2.
  { destruct n as [|p]; [done|]. simpl N.size_nat.
    rewrite Nnat.Nat2N.inj_succ, N.pow_succ_r'.
    assert (N.pos p < 2 ^ N.of_nat (Pos.size_nat p))%N; [|lia].
    clear. induction p as [p IH|p IH|]; simpl Pos.size_nat;
      rewrite ?Nnat.Nat2N.inj_succ, ?N.pow_succ_r'; lia. }
  eapply N.lt_le_trans; [done|]. apply N.pow_le_mono_l. lia.
Qed.

Lemma parse_N_to_string n : parse_digits (N_to_string n) 0 = Z.of_N n.
Proof.
  destruct (parse_digits_onto _ n "" (size_nat_bound n)) as [k Hk].
  unfold N_to_string. rewrite Hk. simpl. lia.
Qed.

(** The first character is a digit: neither a space nor a sign. *)
Lemma digits_onto_head fuel n acc :
  fuel ≠ O → ∃ d s, (d < 10)%N ∧ digits_onto fuel n acc = String (digit d) s.
Proof.
  revert n acc. induction fuel as [|fuel IH]; intros n acc Hf; [done|]. simpl.
  destruct (N.ltb_spec n 10) as [Hlt|Hge]; [by exists n, acc|].
  destruct fuel as [|fuel].
  - exists (n mod 10)%N, acc. split; [|done]. apply N.mod_lt. lia.
  - by apply IH.
Qed.

Lemma digit_not_special d :
  (d < 10)%N →
  is_space (digit d) = false ∧ Ascii.eqb (digit d) "-" = false ∧ Ascii.eqb (digit d) "+" = false.
Proof.
  intros H. assert (d = 0 ∨ d = 1 ∨ d = 2 ∨ d = 3 ∨ d = 4 ∨ d = 5 ∨ d = 6 ∨ d = 7 ∨ d = 8 ∨ d = 9)%N
    as Hd by lia.
  by repeat destruct Hd as [->|Hd]; [..|subst d].
Qed.

Lemma strtol_N_to_string n : strtol (N_to_string n) = clamp_long (Z.of_N n).
Proof.
  pose proof (parse_N_to_string n) as Hp. unfold strtol.
  destruct (digits_onto_head (S (N.size_nat n)) n "") as (d & s & Hd & E); [done|].
  unfold N_to_string in *. rewrite E in *.
  destruct (digit_not_special d Hd) as (H1 & H2 & H3).
  cbn [skip_spaces]. rewrite H1, H2, H3. by rewrite Hp.
Qed.

(** Reading back what [to_string] printed gives the number, for every value
    of type [long]. *)
Lemma strtol_to_string z : - 2 ^ 63 ≤ z < 2 ^ 63 → strtol (to_string z) = z.
Proof.
  intros Hz. unfold to_string. destruct (Z.ltb_spec z 0) as [Hlt|Hge].
  - change (strtol (String "-" ?s)) with (clamp_long (- parse_digits s 0)).
    rewrite parse_N_to_string. unfold clamp_long. lia.
  - rewrite strtol_N_to_string. unfold clamp_long. lia.
Qed.

Lemma parse_int_to_string z : fits_int z = true → parse_int (to_string z) = z.
Proof.
  intros Hz. unfold parse_int. rewrite strtol_to_string, to_int_id; [done|done|].
  apply fits_int_spec in Hz. unfold INT_MIN, INT_MAX in Hz. lia.
Qed.

Lemma parse_int_range s : fits_int (parse_int s) = true.
Proof. apply to_int_range. Qed.

Lemma to_string_nonempty z : to_string z ≠ "".
Proof.
  unfold to_string. destruct (z <? 0); [done|]. unfold N_to_string.
  destruct (digits_onto_head (S (N.size_nat (Z.to_N z))) (Z.to_N z) "") as (d & s & _ & ->); done.
Qed.
#[export] Hint Resolve parse_int_range to_string_nonempty : neuchain.

(** [static_cast<int>(strtol(std::to_string(z).data(), nullptr, 10))] is [z]
    for every [int], and a number no [int] holds still comes back as one. *)
Theorem decimal_round_trip z :
  (fits_int z = true → parse_int (to_string z) = z) ∧
  fits_int (parse_int (to_string z)) = true.
Proof. split; [apply parse_int_to_string | apply parse_int_range]. Qed.

Lemma decimal_round_trip_witness : parse_int (to_string (-2147483648)) = -2147483648.
Proof. apply (proj1 (decimal_round_trip (-2147483648))). reflexivity. Defined.
