(* ===== verification/Double.v ===== *)
(** * Doubles

    The C++ type [double] is IEEE 754 binary64 with rounding to nearest even.
    The Standard Library specifies its operations in [SpecFloat]; here they get
    their C++ names, and the bounds that the clients need: an operation on
    positive numbers that stays far from the ends of the range returns the exact
    result with a relative error of at most 2^-52, a comparison is that of the
    values, and a conversion to an unsigned integer cuts off the fraction. *)
From S2P Require Import Prelude.
From Stdlib Require Import ZArith NArith Lia QArith Qpower Lqa SpecFloat Setoid.
From stdpp Require Import base tactics list.

Local Open Scope Z_scope.

Definition double := spec_float.

(** ** Operations *)
Definition double_of_Z (n : Z) : double := binary_normalize 53 1024 n 0 false.
(** Of an unsigned integer. *)
Definition double_of_N (n : N) : double := double_of_Z (Z.of_N n).
Definition dadd : double → double → double := SFadd 53 1024.
Definition dmul : double → double → double := SFmul 53 1024.
Definition ddiv : double → double → double := SFdiv 53 1024.
Definition dlt : double → double → bool := SFltb.

(** Conversion to [size_t]; it is undefined if the integral part does not fit. *)
Definition size_of_double (x : double) : outcome N :=
  match x with
  | S754_zero _ => Ok 0%N
  | S754_finite false m e =>
      let n := if 0 <=? e then Z.pos m * 2 ^ e else Z.pos m / 2 ^ (- e) in
      if n <? 2 ^ 64 then Ok (Z.to_N n) else Fatal OutOfRange
  | _ => Fatal OutOfRange
  end.

(** ** Rounding *)
Lemma iter_pos_iter {A} (f : A → A) p x : SpecFloat.iter_pos f p x = Pos.iter f x p.
Proof.
  revert x. induction p as [p IH|p IH|]; intros x; simpl; try done; rewrite !IH; [|done].
  by rewrite <-!Pos.iter_swap.
Qed.

Lemma digits_log2 p : Z.pos (digits2_pos p) = Z.log2 (Z.pos p) + 1.
Proof.
  assert (∀ p, digits2_pos p = Pos.size p) as -> by (intros q; induction q; simpl; congruence).
  destruct p; simpl; lia.
Qed.

Lemma shr_1_m x : 0 ≤ shr_m x → shr_m (shr_1 x) = shr_m x / 2.
Proof.
  destruct x as [[|[p|p|]|p] r s]; simpl; intros H; try lia; rewrite <-Z.div2_div; reflexivity.
Qed.

Lemma iter_shr p x : 0 ≤ shr_m x → shr_m (Pos.iter shr_1 x p) = shr_m x / 2 ^ Z.pos p.
Proof.
  intros Hx. induction p as [|p IH] using Pos.peano_ind; [by apply shr_1_m|].
  rewrite Pos.iter_succ, shr_1_m by (rewrite IH; apply Z.div_pos; lia).
  rewrite IH, Pos2Z.inj_succ, Z.pow_succ_r, Z.mul_comm, Z.div_div by lia. done.
Qed.

(** A shift that loses nothing. *)
Lemma shr_1_double z : 0 ≤ z → shr_1 (Build_shr_record (2 * z) false false) = Build_shr_record z false false.
Proof. destruct z; try done; lia. Qed.

Lemma iter_shr_exact p k :
  0 ≤ k → Pos.iter shr_1 (Build_shr_record (k * 2 ^ Z.pos p) false false) p = Build_shr_record k false false.
Proof.
  intros Hk. revert k Hk. induction p as [|p IH] using Pos.peano_ind; intros k Hk.
  - rewrite Z.mul_comm. by apply shr_1_double.
  - rewrite Pos.iter_succ_r, Pos2Z.inj_succ, Z.pow_succ_r by lia.
    replace (k * (2 * 2 ^ Z.pos p)) with (2 * (k * 2 ^ Z.pos p)) by lia.
    rewrite shr_1_double by lia. by apply IH.
Qed.

(** The shift that cuts a mantissa of at least 53 bits to 53 bits. *)
Lemma shr_fexp_spec mx ex lx :
  let n := Z.log2 mx - 52 in
  2 ^ 52 ≤ mx → -1074 ≤ ex + n →
  ∃ mrs, shr_fexp 53 1024 mx ex lx = (mrs, ex + n) ∧ shr_m mrs = mx / 2 ^ n ∧
    (lx = loc_Exact → mx = mx / 2 ^ n * 2 ^ n → loc_of_shr_record mrs = loc_Exact).
Proof.
  intros n Hm He. assert (52 ≤ Z.log2 mx) as Hl by (apply Z.log2_le_pow2; lia).
  unfold shr_fexp. destruct mx as [|p|]; try lia. cbn [Zdigits2]. rewrite digits_log2.
  unfold fexp, emin. replace (Z.max _ _ - ex) with n by (unfold n in *; lia).
  assert (shr_m (shr_record_of_loc (Z.pos p) lx) = Z.pos p) as Hr by (by destruct lx as [|[]]).
  destruct n as [|pn|] eqn:En; simpl shr.
  - exists (shr_record_of_loc (Z.pos p) lx). rewrite Z.add_0_r, Z.pow_0_r, Z.div_1_r.
    split_and!; [done..|]. by intros -> _.
  - eexists. split; [done|]. rewrite iter_pos_iter. split; [by rewrite iter_shr, Hr; [|lia]|].
    intros -> Hx. simpl shr_record_of_loc. rewrite Hx at 1. rewrite iter_shr_exact; [done|lia].
  - unfold n in En. lia.
Qed.

Lemma shr_fexp_53 p e :
  2 ^ 52 ≤ Z.pos p < 2 ^ 53 → -1074 ≤ e → shr_fexp 53 1024 (Z.pos p) e loc_Exact = (Build_shr_record (Z.pos p) false false, e).
Proof.
  intros Hp He. unfold shr_fexp, fexp, emin. cbn [Zdigits2]. rewrite digits_log2, (Z.log2_unique (Z.pos p) 52) by lia.
  by replace (Z.max _ _ - e) with 0 by lia.
Qed.

(** What rounding does to such a mantissa: cut it to 53 bits, and add one or
    not. *)
Lemma round_spec s mx ex lx :
  let n := Z.log2 mx - 52 in
  2 ^ 52 ≤ mx → -1074 ≤ ex + n ≤ 970 →
  ∃ m e k, binary_round_aux 53 1024 s mx ex lx = S754_finite s m e ∧
    2 ^ 52 ≤ Z.pos m < 2 ^ 53 ∧
    (k = Z.pos m ∧ e = ex + n ∨ k = 2 * Z.pos m ∧ e = ex + n + 1) ∧
    (k = mx / 2 ^ n ∨ k = mx / 2 ^ n + 1) ∧
    (lx = loc_Exact → mx = mx / 2 ^ n * 2 ^ n → k = mx / 2 ^ n).
Proof.
  intros n Hm He. assert (52 ≤ Z.log2 mx) as Hl by (apply Z.log2_le_pow2; lia).
  pose proof (Z.log2_spec mx ltac:(lia)) as Hlog.
  assert (2 ^ 52 ≤ mx / 2 ^ n < 2 ^ 53) as Hq.
  { split; [apply Z.div_le_lower_bound|apply Z.div_lt_upper_bound]; try lia; rewrite <-Z.pow_add_r by lia.
    - replace (n + 52) with (Z.log2 mx) by (unfold n; lia). apply Hlog.
    - replace (n + 53) with (Z.succ (Z.log2 mx)) by (unfold n; lia). apply Hlog. }
  destruct (shr_fexp_spec mx ex lx Hm) as (mrs & E & Hmrs & Hloc); [lia|]. fold n in E, Hmrs, Hloc.
  unfold binary_round_aux. rewrite E, Hmrs.
  set (k := round_nearest_even (mx / 2 ^ n) (loc_of_shr_record mrs)).
  assert (k = mx / 2 ^ n ∨ k = mx / 2 ^ n + 1) as Hk.
  { unfold k. destruct (loc_of_shr_record mrs) as [|[]]; simpl; [auto| |auto..]. destruct (Z.even _); auto. }
  assert (lx = loc_Exact → mx = mx / 2 ^ n * 2 ^ n → k = mx / 2 ^ n) as Hex.
  { intros H1 H2. unfold k. by rewrite Hloc. }
  clearbody k. assert (2 ^ 52 ≤ k ≤ 2 ^ 53) as Hkb by (destruct Hk; lia).
  destruct (Z.eq_dec k (2 ^ 53)) as [->|Hne].
  - exists (2 ^ 52)%positive, (ex + n + 1), (2 ^ 53).
    assert (shr_fexp 53 1024 (2 ^ 53) (ex + n) loc_Exact = (Build_shr_record (2 ^ 52) false false, ex + n + 1)) as ->.
    { unfold shr_fexp, fexp, emin. change (Zdigits2 (2 ^ 53)) with 54. by replace (Z.max _ _ - (ex + n)) with 1 by lia. }
    cbn [shr_m]. change (2 ^ 52) with (Z.pos (2 ^ 52)). cbn iota.
    destruct (Z.leb_spec (ex + n + 1) (1024 - 53)); [|lia]. split_and!; try done. by right.
  - destruct k as [|p|]; try lia. exists p, (ex + n), (Z.pos p). rewrite shr_fexp_53 by lia.
    cbn [shr_m]. destruct (Z.leb_spec (ex + n) (1024 - 53)); [|lia]. split_and!; try done; lia.
Qed.

(** A number with at most 53 significant bits is not changed. *)
Lemma round_exact s p k e :
  2 ^ 52 ≤ Z.pos p < 2 ^ 53 → 0 ≤ k → -1074 ≤ e + k ≤ 970 →
  binary_round_aux 53 1024 s (Z.pos p * 2 ^ k) e loc_Exact = S754_finite s p (e + k).
Proof.
  intros Hp Hk He. assert (Z.log2 (Z.pos p * 2 ^ k) - 52 = k) as Hl.
  { rewrite Z.log2_mul_pow2, (Z.log2_unique (Z.pos p) 52) by lia. lia. }
  destruct (round_spec s (Z.pos p * 2 ^ k) e loc_Exact) as (m & e' & j & -> & Hm & Hj & _ & Hex); rewrite ?Hl; [nia|lia|].
  rewrite Hl in Hj, Hex. rewrite Z.div_mul in Hex by lia. specialize (Hex eq_refl eq_refl).
  destruct Hj as [[-> ->]|[-> _]]; [|lia]. by injection Hex as ->.
Qed.

(** ** Values *)
Section Values.
Local Open Scope Q_scope.

#[export] Instance Qle_preorder : PreOrder Qle.
Proof. split; [exact Qle_refl|exact Qle_trans]. Qed.

Definition pow2 (e : Z) : Q := 2 ^ e.
Definition val (m e : Z) : Q := inject_Z m * pow2 e.

(** The largest relative error of an operation. *)
Definition ulp : Q := pow2 (-52).

Lemma pow2_ulp : pow2 52 * ulp == 1.
Proof. done. Qed.
Lemma pow2_pos e : 0 < pow2 e.
Proof. by apply Qpower_0_lt. Qed.
Lemma pow2_add a b : pow2 (a + b) == pow2 a * pow2 b.
Proof. by apply Qpower_plus. Qed.
Lemma pow2_Z n : (0 ≤ n)%Z → pow2 n == inject_Z (2 ^ n).
Proof. intros Hn. unfold pow2. by rewrite Zpower_Qpower. Qed.
Lemma pow2_le_inv a b : pow2 a <= pow2 b → (a ≤ b)%Z.
Proof. intros H. by apply (Qpower_le_compat_l_inv 2). Qed.
Lemma pow2_lt_inv a b : pow2 a < pow2 b → (a < b)%Z.
Proof. intros H. by apply (Qpower_lt_compat_l_inv 2). Qed.
Lemma pow2_le a b : (a ≤ b)%Z → pow2 a <= pow2 b.
Proof. intros H. by apply Qpower_le_compat_l. Qed.

Lemma val_pos m e : (0 < m)%Z → 0 < val m e.
Proof. intros Hm. apply Qmult_lt_0_compat; [unfold Qlt; simpl; lia|apply pow2_pos]. Qed.
Lemma val_le m m' e : (m ≤ m')%Z → val m e <= val m' e.
Proof. intros H. apply Qmult_le_compat_r; [by rewrite <-Zle_Qle|apply Qlt_le_weak, pow2_pos]. Qed.
Lemma val_lt m m' e : (m < m')%Z → val m e < val m' e.
Proof. intros H. apply Qmult_lt_compat_r; [apply pow2_pos|by rewrite <-Zlt_Qlt]. Qed.
(** Digits moved into the exponent. *)
Lemma val_shift m n e : (0 ≤ n)%Z → val (m * 2 ^ n) e == val m (e + n).
Proof. intros Hn. unfold val. rewrite inject_Z_mult, <-pow2_Z, pow2_add by done. ring. Qed.
Lemma val_pow2 n e : (0 ≤ n)%Z → val (2 ^ n) e == pow2 (e + n).
Proof. intros Hn. rewrite <-(Z.mul_1_l (2 ^ n)), val_shift by done. unfold val. simpl. ring. Qed.

Lemma val_scale a b e e' : val a e * val b e' == val (a * b) e * pow2 e'.
Proof. unfold val. rewrite inject_Z_mult. ring. Qed.

(** [f] is a positive normal number with the value [v]. *)
Definition is_val (f : double) (v : Q) : Prop :=
  ∃ m e, f = S754_finite false m e ∧ (2 ^ 52 ≤ Z.pos m < 2 ^ 53)%Z ∧ v == val (Z.pos m) e.
Definition near (f : double) (x : Q) : Prop :=
  ∃ v, is_val f v ∧ x * (1 - ulp) <= v <= x * (1 + ulp).
Definition in_range (x : Q) : Prop := pow2 (-1000) <= x <= pow2 1000.

#[global] Instance near_proper f : Proper (Qeq ==> iff) (near f).
Proof. intros x y E. unfold near. by setoid_rewrite E. Qed.
#[global] Instance in_range_proper : Proper (Qeq ==> iff) in_range.
Proof. intros x y E. unfold in_range. by rewrite E. Qed.

Lemma round_near mx ex lx x :
  (2 ^ 52 ≤ mx)%Z → val mx ex <= x → x < val (mx + 1) ex → in_range x →
  near (binary_round_aux 53 1024 false mx ex lx) x.
Proof.
  intros Hm Hlo Hhi [Hr1 Hr2]. set (n := (Z.log2 mx - 52)%Z).
  assert (52 ≤ Z.log2 mx)%Z as Hl by (apply Z.log2_le_pow2; lia).
  pose proof (Z.log2_spec mx ltac:(lia)) as [Hl1 Hl2].
  assert (-1000 < ex + (Z.log2 mx + 1))%Z as He1.
  { apply pow2_lt_inv. rewrite <-val_pow2 by lia. eapply Qle_lt_trans; [exact Hr1|].
    eapply Qlt_le_trans; [exact Hhi|]. apply val_le. lia. }
  assert (ex + Z.log2 mx ≤ 1000)%Z as He2.
  { apply pow2_le_inv. rewrite <-val_pow2 by lia. eapply Qle_trans; [|exact Hr2].
    eapply Qle_trans; [|exact Hlo]. by apply val_le. }
  destruct (round_spec false mx ex lx Hm) as (m & e & k & E & Hb & Hke & Hk & _); [lia|]. fold n in Hke, Hk.
  exists (val (Z.pos m) e). split; [by exists m, e|].
  assert (val (Z.pos m) e == val k (ex + n)) as ->.
  { destruct Hke as [[-> ->]|[-> ->]]; [done|]. rewrite Z.mul_comm. symmetry. by apply (val_shift _ 1). }
  set (q := (mx / 2 ^ n)%Z) in *. set (P := pow2 (ex + n)).
  pose proof (Z.div_mod mx (2 ^ n) ltac:(lia)) as Hdm. pose proof (Z.mod_pos_bound mx (2 ^ n) ltac:(lia)) as Hmod. fold q in Hdm.
  assert (2 ^ 52 ≤ q)%Z as Hq.
  { apply Z.div_le_lower_bound; [lia|]. rewrite <-Z.pow_add_r by lia. by replace (n + 52)%Z with (Z.log2 mx) by (unfold n; lia). }
  assert (val q (ex + n) <= x) as H1.
  { eapply Qle_trans; [|exact Hlo]. rewrite <-val_shift by lia. apply val_le. lia. }
  assert (x < val (q + 1) (ex + n)) as H2.
  { eapply Qlt_le_trans; [exact Hhi|]. rewrite <-val_shift by lia. apply val_le. lia. }
  assert (P <= x * ulp) as H3.
  { assert (pow2 52 * P <= x) as H by (eapply Qle_trans; [|exact H1]; unfold val; apply Qmult_le_compat_r;
      [rewrite pow2_Z by done; by rewrite <-Zle_Qle|apply Qlt_le_weak, pow2_pos]).
    assert (P == pow2 52 * P * ulp) as HP by (transitivity (P * (pow2 52 * ulp)); [rewrite pow2_ulp|]; ring).
    rewrite HP.
    apply Qmult_le_compat_r; [done|by vm_compute]. }
  unfold val in *. rewrite inject_Z_plus in H2. fold P in H1, H2 |- *. change (inject_Z 1) with 1 in H2.
  destruct Hk as [->| ->]; [|rewrite inject_Z_plus; change (inject_Z 1) with 1]; split; lra.
Qed.

(** ** The operations *)

Lemma iter_xO p d : Z.pos (Pos.iter xO p d) = (Z.pos p * 2 ^ Z.pos d)%Z.
Proof.
  induction d as [|d IH] using Pos.peano_ind; [simpl; lia|].
  rewrite Pos.iter_succ, Pos2Z.inj_xO, IH, Pos2Z.inj_succ, Z.pow_succ_r by lia. lia.
Qed.

Lemma shl_align_le m e e' : (e' ≤ e)%Z → Z.pos (shl_align m e e').1 = (Z.pos m * 2 ^ (e - e'))%Z.
Proof.
  intros He. unfold shl_align. destruct (e' - e)%Z as [|d|d] eqn:E; [|lia|].
  - replace (e - e')%Z with 0%Z by lia. simpl. lia.
  - simpl. rewrite iter_xO. by replace (e - e')%Z with (Z.pos d) by lia.
Qed.

Lemma binary_round_near p e : in_range (val (Z.pos p) e) → near (binary_round 53 1024 false p e) (val (Z.pos p) e).
Proof.
  intros Hr. pose proof (Z.log2_spec (Z.pos p) ltac:(lia)) as [Hl1 Hl2].
  pose proof (Z.log2_nonneg (Z.pos p)).
  assert (-1000 < e + (Z.log2 (Z.pos p) + 1))%Z as He1.
  { apply pow2_lt_inv. rewrite <-val_pow2 by lia. eapply Qle_lt_trans; [apply Hr|]. by apply val_lt. }
  unfold binary_round, fexp, emin. rewrite digits_log2. set (d := Z.log2 (Z.pos p)) in *.
  replace (Z.max _ _) with (e + d - 52)%Z by lia.
  assert (∃ mz ez, shl_align p e (e + d - 52) = (mz, ez) ∧ (2 ^ 52 ≤ Z.pos mz)%Z ∧
    val (Z.pos mz) ez == val (Z.pos p) e) as (mz & ez & -> & Hm & E).
  { unfold shl_align. destruct (e + d - 52 - e)%Z as [|k|k] eqn:Ek.
    - exists p, e. split_and!; [done| |done]. by replace 52%Z with d by lia.
    - exists p, e. split_and!; [done| |done]. trans (2 ^ d)%Z; [apply Z.pow_le_mono_r; lia|done].
    - eexists _, _. split_and!; [done|rewrite iter_xO|rewrite iter_xO, val_shift by lia].
      + replace 52%Z with (d + Z.pos k)%Z by lia. rewrite Z.pow_add_r by lia. nia.
      + by replace (e + d - 52 + Z.pos k)%Z with e by lia. }
  rewrite <-E in *. apply round_near; [done|apply Qle_refl|apply val_lt; lia|done].
Qed.

Lemma double_of_Z_near n : (0 < n < 2 ^ 64)%Z → near (double_of_Z n) (inject_Z n).
Proof.
  intros Hn. destruct n as [|p|]; try lia. unfold double_of_Z. simpl.
  assert (inject_Z (Z.pos p) == val (Z.pos p) 0) as -> by (unfold val; simpl; ring).
  apply binary_round_near. split.
  - trans 1; [by vm_compute|]. unfold val, Qle. simpl. lia.
  - trans (inject_Z (2 ^ 64)); [|by vm_compute]. unfold val, Qle. simpl. lia.
Qed.

Lemma dadd_near f g x y :
  is_val f x → is_val g y → in_range (x + y) → near (dadd f g) (x + y).
Proof.
  intros (m1 & e1 & -> & _ & E1) (m2 & e2 & -> & _ & E2) Hr. rewrite E1, E2 in *. unfold dadd, SFadd.
  set (e := Z.min e1 e2). cbn [cond_Zopp].
  rewrite !shl_align_le by lia.
  assert (val (Z.pos m1 * 2 ^ (e1 - e) + Z.pos m2 * 2 ^ (e2 - e)) e == val (Z.pos m1) e1 + val (Z.pos m2) e2) as E.
  { transitivity (val (Z.pos m1 * 2 ^ (e1 - e)) e + val (Z.pos m2 * 2 ^ (e2 - e)) e);
      [unfold val; rewrite inject_Z_plus; ring|].
    rewrite !val_shift by lia. by rewrite !Zplus_minus. }
  rewrite <-E in *. assert (0 < Z.pos m1 * 2 ^ (e1 - e) + Z.pos m2 * 2 ^ (e2 - e))%Z as Hp by lia.
  destruct (_ + _)%Z as [|p|]; try lia. by apply binary_round_near.
Qed.

Lemma dmul_near f g x y :
  is_val f x → is_val g y → in_range (x * y) → near (dmul f g) (x * y).
Proof.
  intros (m1 & e1 & -> & H1 & E1) (m2 & e2 & -> & H2 & E2) Hr. rewrite E1, E2 in *. unfold dmul, SFmul. cbn [xorb].
  assert (val (Z.pos (m1 * m2)) (e1 + e2) == val (Z.pos m1) e1 * val (Z.pos m2) e2) as E.
  { unfold val. rewrite Pos2Z.inj_mul, inject_Z_mult, pow2_add. ring. }
  rewrite <-E in *. apply round_near; [nia|apply Qle_refl|apply val_lt; lia|done].
Qed.

Lemma ddiv_near f g x y :
  is_val f x → is_val g y → in_range (x / y) → near (ddiv f g) (x / y).
Proof.
  intros (m1 & e1 & -> & H1 & E1) (m2 & e2 & -> & H2 & E2) Hr. rewrite E1, E2 in *. unfold ddiv, SFdiv. cbn [xorb].
  pose proof (val_pos (Z.pos m2) e2 ltac:(lia)) as Hy.
  assert (-1001 < e1 - e2)%Z as He.
  { assert (-1000 < 53 + e1 - (52 + e2))%Z; [|lia]. apply pow2_lt_inv.
    eapply Qle_lt_trans; [apply Hr|]. apply Qlt_shift_div_r; [done|].
    eapply Qlt_le_trans; [apply (val_lt _ (2 ^ 53)); lia|]. rewrite val_pow2 by done.
    assert (pow2 (e2 + 52) <= val (Z.pos m2) e2) as Hm by (rewrite <-val_pow2 by done; apply val_le; lia).
    assert (pow2 (e1 + 53) == pow2 (53 + e1 - (52 + e2)) * pow2 (e2 + 52)) as ->
      by (rewrite <-pow2_add; f_equiv; lia).
    apply Qmult_le_l; [apply pow2_pos|done]. }
  unfold SFdiv_core_binary, fexp, emin. cbn [Zdigits2]. rewrite !digits_log2.
  rewrite !(Z.log2_unique (Z.pos _) 52) by lia.
  replace (Z.min _ _) with (e1 - e2 - 53)%Z by lia. replace (e1 - e2 - (e1 - e2 - 53))%Z with 53%Z by lia.
  rewrite Z.shiftl_mul_pow2 by done.
  pose proof (Z.div_mod (Z.pos m1 * 2 ^ 53) (Z.pos m2) ltac:(lia)) as Hdm.
  pose proof (Z.mod_pos_bound (Z.pos m1 * 2 ^ 53) (Z.pos m2) ltac:(lia)) as Hmod.
  unfold Z.div, Z.modulo in *. destruct (Z.div_eucl _ _) as [q r].
  assert (val (Z.pos m1) e1 == val (Z.pos m1 * 2 ^ 53) (e1 - e2 - 53) * pow2 e2) as Ex.
  { unfold val. rewrite inject_Z_mult, <-(pow2_Z 53), <-!Qmult_assoc, <-!pow2_add by done. f_equiv. f_equiv. lia. }
  apply round_near; [nia| | |done].
  - apply Qle_shift_div_l; [done|]. rewrite Ex, val_scale.
    apply Qmult_le_compat_r, Qlt_le_weak, pow2_pos. apply val_le. lia.
  - apply Qlt_shift_div_r; [done|]. rewrite Ex, val_scale.
    apply Qmult_lt_compat_r; [apply pow2_pos|]. apply val_lt. lia.
Qed.

(** ** Intervals

    Between two powers of two; an operation on such numbers is in range if the
    result of the interval is, and rounding widens an interval by a bit. *)
Definition binades (i j : Z) (x : Q) : Prop := pow2 i <= x ∧ x <= pow2 j.
Definition rounded (f : double) (x : Q) (i j : Z) : Prop :=
  ∃ v, is_val f v ∧ x * (1 - ulp) <= v ∧ v <= x * (1 + ulp) ∧ binades (i - 1) (j + 1) v.

Lemma binades_pos i j x : binades i j x → 0 < x.
Proof. intros [H _]. pose proof (pow2_pos i). lra. Qed.
Lemma binades_mul i j k l x y : binades i j x → binades k l y → binades (i + k) (j + l) (x * y).
Proof.
  intros [H1 H2] [H3 H4]. unfold binades. rewrite !pow2_add.
  pose proof (pow2_pos i). pose proof (pow2_pos k). split; apply Qmult_le_compat_nonneg; split; try done; lra.
Qed.

Lemma binades_div i j k l x y : binades i j x → binades k l y → binades (i - l) (j - k) (x / y).
Proof.
  intros Hx [H1 H2]. pose proof (pow2_pos k). apply (binades_mul i j (- l) (- k)); [done|]. split.
  - apply Qle_shift_inv_l; [lra|]. trans (pow2 (- l) * pow2 l); [apply Qmult_le_l; [apply pow2_pos|done]|].
    rewrite <-pow2_add. by replace (- l + l)%Z with 0%Z by lia.
  - apply Qle_shift_inv_r; [lra|]. trans (pow2 (- k) * pow2 k); [|apply Qmult_le_l; [apply pow2_pos|done]].
    rewrite <-pow2_add. by replace (- k + k)%Z with 0%Z by lia.
Qed.

Lemma near_rounded f x i j : binades i j x → near f x → rounded f x i j.
Proof.
  intros [H1 H2] (v & Hv & H3 & H4). exists v. split_and!; try done. pose proof (pow2_pos i).
  assert (0 <= ulp <= 1 # 2) as Hu by (split; by vm_compute).
  unfold binades, Z.sub. rewrite !pow2_add. change (pow2 (- (1))) with (1 # 2). change (pow2 1) with 2.
  generalize dependent ulp. intros. split; nra.
Qed.

Lemma binades_in_range i j x : (-1000 ≤ i)%Z → (j ≤ 1000)%Z → binades i j x → in_range x.
Proof. intros Hi Hj [H1 H2]. split; [etransitivity; [|exact H1]|etransitivity; [exact H2|]]; by apply pow2_le. Qed.

Lemma ddiv_rounded f g x y i j k l :
  is_val f x → is_val g y → binades i j x → binades k l y → (-1000 ≤ i - l)%Z → (j - k ≤ 1000)%Z →
  rounded (ddiv f g) (x / y) (i - l) (j - k).
Proof.
  intros Hf Hg Hx Hy Hi Hj. pose proof (binades_div _ _ _ _ _ _ Hx Hy) as Hd.
  apply near_rounded; [done|]. apply ddiv_near; [done..|]. by eapply binades_in_range.
Qed.
Lemma dmul_rounded f g x y i j k l :
  is_val f x → is_val g y → binades i j x → binades k l y → (-1000 ≤ i + k)%Z → (j + l ≤ 1000)%Z →
  rounded (dmul f g) (x * y) (i + k) (j + l).
Proof.
  intros Hf Hg Hx Hy Hi Hj. pose proof (binades_mul _ _ _ _ _ _ Hx Hy) as Hd.
  apply near_rounded; [done|]. apply dmul_near; [done..|]. by eapply binades_in_range.
Qed.
Lemma dadd_rounded f g x y i j :
  is_val f x → is_val g y → binades i j (x + y) → (-1000 ≤ i)%Z → (j ≤ 1000)%Z →
  rounded (dadd f g) (x + y) i j.
Proof.
  intros Hf Hg Hx Hi Hj. apply near_rounded; [done|]. apply dadd_near; [done..|]. by eapply binades_in_range.
Qed.

(** Numbers with a larger exponent are larger. *)
Lemma val_exp_lt m1 m2 e1 e2 :
  (e1 < e2)%Z → (2 ^ 52 ≤ m1 < 2 ^ 53)%Z →
  (2 ^ 52 ≤ m2 < 2 ^ 53)%Z → val m1 e1 < val m2 e2.
Proof.
  intros He H1 H2. eapply Qlt_le_trans; [apply (val_lt _ (2 ^ 53)); lia|].
  etransitivity; [|apply (val_le (2 ^ 52)); lia]. rewrite !val_pow2 by done. apply pow2_le. lia.
Qed.

Lemma dlt_spec f g x y : is_val f x → is_val g y → dlt f g = true ↔ x < y.
Proof.
  intros (m1 & e1 & -> & H1 & E1) (m2 & e2 & -> & H2 & E2). rewrite E1, E2. unfold dlt, SFltb, SFcompare.
  destruct (Z.compare_spec e1 e2) as [->|He|He].
  - change (Pos.compare_cont Eq m1 m2) with (Pos.compare m1 m2).
    destruct (Pos.compare_spec m1 m2) as [->|Hm|Hm]; split; intros H; try done.
    + by apply Qlt_irrefl in H.
    + by apply val_lt.
    + assert (val (Z.pos m2) e2 < val (Z.pos m1) e2) by (by apply val_lt). lra.
  - split; [intros _|done]. by apply val_exp_lt.
  - split; [done|]. assert (val (Z.pos m2) e2 < val (Z.pos m1) e1) by (by apply val_exp_lt). intros. lra.
Qed.

Lemma size_of_double_spec f x :
  is_val f x → x < inject_Z (2 ^ 64) →
  ∃ n, size_of_double f = Ok n ∧ inject_Z (Z.of_N n) <= x < inject_Z (Z.of_N n + 1).
Proof.
  intros (m & e & -> & Hm & E) Hx. rewrite E in Hx. setoid_rewrite E. unfold size_of_double.
  set (n := if (0 <=? e)%Z then (Z.pos m * 2 ^ e)%Z else (Z.pos m / 2 ^ (- e))%Z).
  assert (inject_Z n <= val (Z.pos m) e < inject_Z (n + 1) ∧ (0 ≤ n)%Z) as [Hn Hpos].
  { unfold n. destruct (Z.leb_spec 0 e) as [He|He].
    - unfold val. rewrite pow2_Z, <-inject_Z_mult by done. split; [split|lia].
      + apply Qle_refl.
      + rewrite <-Zlt_Qlt. lia.
    - assert (∀ k, inject_Z k == val (k * 2 ^ (- e)) e) as Hk.
      { intros k. rewrite val_shift by lia. replace (e + - e)%Z with 0%Z by lia. unfold val. simpl. ring. }
      rewrite !Hk. pose proof (Z.div_mod (Z.pos m) (2 ^ (- e)) ltac:(lia)) as Hdm.
      pose proof (Z.mod_pos_bound (Z.pos m) (2 ^ (- e)) ltac:(lia)).
      split; [split; [apply val_le|apply val_lt]; lia|apply Z.div_pos; lia]. }
  clearbody n. exists (Z.to_N n). rewrite Z2N.id by done. split; [|done].
  destruct (Z.ltb_spec n (2 ^ 64)) as [|Hge]; [done|]. rewrite Zle_Qle in Hge. lra.
Qed.
End Values.

(** ** Fractions

    An integer below 2^53 is converted exactly, and dividing by 2^53 only
    changes the exponent. *)
Lemma double_of_Z_exact n :
  0 < n < 2 ^ 53 →
  ∃ m e, double_of_Z n = S754_finite false m e ∧ 2 ^ 52 ≤ Z.pos m < 2 ^ 53 ∧ -52 ≤ e ≤ 0 ∧ Z.pos m = n * 2 ^ (- e).
Proof.
  intros Hn. destruct n as [|p|]; try lia. unfold double_of_Z, binary_normalize, binary_round, fexp, emin.
  rewrite digits_log2. assert (Z.log2 (Z.pos p) < 53) as Hl by (apply Z.log2_lt_pow2; lia).
  pose proof (Z.log2_nonneg (Z.pos p)). pose proof (Z.log2_spec (Z.pos p) ltac:(lia)) as [Hl1 Hl2].
  set (d := Z.log2 (Z.pos p)) in *. replace (Z.max _ _) with (d - 52) by lia.
  assert (∃ mz, shl_align p 0 (d - 52) = (mz, d - 52) ∧ Z.pos mz = Z.pos p * 2 ^ (52 - d)) as (mz & -> & Hmz).
  { unfold shl_align. destruct (d - 52 - 0) as [|k|k] eqn:Ek; [|lia|].
    - exists p. replace (52 - d) with 0 by lia. split; [by replace (d - 52) with 0 by lia|lia].
    - eexists. split; [done|]. rewrite iter_xO. by replace (52 - d) with (Z.pos k) by lia. }
  assert (2 ^ 52 ≤ Z.pos mz < 2 ^ 53) as Hb.
  { rewrite Hmz. change 52 with (0 + 52) at 1. replace (2 ^ (0 + 52)) with (2 ^ d * 2 ^ (52 - d)) by (rewrite <-Z.pow_add_r by lia; f_equal; lia).
    replace (2 ^ 53) with (2 ^ Z.succ d * 2 ^ (52 - d)) by (rewrite <-Z.pow_add_r by lia; f_equal; lia).
    assert (0 < 2 ^ (52 - d)) by lia. nia. }
  exists mz, (d - 52). split_and!; try lia.
  - rewrite <-(Z.mul_1_r (Z.pos mz)). change 1 with (2 ^ 0). rewrite round_exact by lia. by rewrite Z.add_0_r.
  - rewrite Hmz. f_equal. f_equal. lia.
Qed.

Lemma ddiv_2_53 m e :
  2 ^ 52 ≤ Z.pos m < 2 ^ 53 → -900 ≤ e ≤ 900 →
  ddiv (S754_finite false m e) (double_of_Z (2 ^ 53)) = S754_finite false m (e - 53).
Proof.
  intros Hm He. change (double_of_Z (2 ^ 53)) with (S754_finite false (2 ^ 52) 1).
  unfold ddiv, SFdiv, SFdiv_core_binary, fexp, emin. cbn [Zdigits2 xorb]. rewrite !digits_log2.
  rewrite (Z.log2_unique (Z.pos m) 52) by lia. change (Z.log2 (Z.pos (2 ^ 52))) with 52.
  replace (Z.min _ _) with (e - 54) by lia. replace (e - 1 - (e - 54)) with 53 by lia.
  rewrite Z.shiftl_mul_pow2 by done.
  change (Z.pos (2 ^ 52)) with (2 ^ 52). replace (Z.pos m * 2 ^ 53) with (Z.pos m * 2 * 2 ^ 52) by lia.
  pose proof (Z.div_mul (Z.pos m * 2) (2 ^ 52) ltac:(done)) as Hq. pose proof (Z.mod_mul (Z.pos m * 2) (2 ^ 52) ltac:(done)) as Hr.
  unfold Z.div, Z.modulo in Hq, Hr. destruct (Z.div_eucl _ _) as [q r]. subst q r.
  change (new_location (2 ^ 52) 0) with loc_Exact. change (Z.pos m * 2) with (Z.pos m * 2 ^ 1).
  rewrite round_exact by lia. f_equal. lia.
Qed.

(** A draw of 53 bits as a fraction. *)
Definition fraction (n : N) : double := ddiv (double_of_N n) (double_of_N (2 ^ 53)).

Lemma fraction_exact n :
  (n < 2 ^ 53)%N →
  match fraction n with
  | S754_zero false => n = 0%N
  | S754_finite false m e => e ≤ -53 ∧ Z.pos m = Z.of_N n * 2 ^ (-53 - e)
  | _ => False
  end.
Proof.
  intros Hn. unfold fraction, double_of_N. destruct (N.eq_dec n 0%N) as [->|Hne]; [done|].
  destruct (double_of_Z_exact (Z.of_N n)) as (m & e & -> & Hm & He & E); [lia|].
  change (Z.of_N (2 ^ 53)) with (2 ^ 53). rewrite ddiv_2_53 by lia. split; [lia|]. rewrite E. f_equal. f_equal. lia.
Qed.
