(* ===== verification/Random.v ===== *)
(** * Pseudo-random numbers and the FNV hash

    [include/common/random.h] (a 48-bit linear congruential generator in
    [uint64_t] arithmetic) and [include/common/fnv_hash.h].  The expression
    [(next(32) << 32) + next(32)] calls [next] twice in an order that C++
    leaves open; [lhs_first] says which operand the compiler evaluates first. *)
From S2P Require Import Prelude Double.
From Stdlib Require Import ZArith SpecFloat.
From stdpp Require Import base list strings numbers.

Local Open Scope N_scope.

Definition LCG_MUL : N := 0x5DEECE66D.
Definition LCG_MASK : N := N.ones 48.

Definition init_seed (seed : N) : N := N.land (N.lxor seed LCG_MUL) LCG_MASK.

(** [next(bits)], for [bits <= 48]: the value and the new seed. *)
Definition next_bits (bits seed : N) : N * N :=
  let seed' := N.land (u64 (u64 (seed * LCG_MUL) + 0xB)) LCG_MASK in
  (N.shiftr seed' (48 - bits), seed').

Definition rnd_next (lhs_first : bool) (seed : N) : N * N :=
  let '(x, s1) := next_bits 32 seed in
  let '(y, s2) := next_bits 32 s1 in
  let '(hi, lo) := if lhs_first then (x, y) else (y, x) in
  (u64 (u64 (N.shiftl hi 32) + lo), s2).

Definition next_double (lhs_first : bool) (seed : N) : double * N :=
  let '(hi, lo, s2) :=
    if lhs_first then let '(x, s1) := next_bits 26 seed in let '(y, s2) := next_bits 27 s1 in (x, y, s2)
    else let '(y, s1) := next_bits 27 seed in let '(x, s2) := next_bits 26 s1 in (x, y, s2) in
  (ddiv (double_of_N (u64 (u64 (N.shiftl hi 27) + lo))) (double_of_N (2 ^ 53)), s2).

(** [%] by zero is undefined; [b - a + 1] wraps to zero on the full range. *)
Definition uniform_dist (lhs_first : bool) (a b seed : N) : outcome (N * N) :=
  if a =? b then Ok (a, seed)
  else
    let '(x, s') := rnd_next lhs_first seed in
    let w := u64 (b + (2 ^ 64 - a) + 1) in
    if w =? 0 then Fatal OutOfRange else Ok (u64 (x mod w + a), s').

(** [rand_str]: [length] draws from the characters of [str]. *)
Fixpoint rand_str (lhs_first : bool) (length : nat) (str : list Ascii.ascii)
    (result : list Ascii.ascii) (seed : N) : outcome (list Ascii.ascii * N) :=
  match length with
  | O => Ok (result, seed)
  | S length' =>
      '(k, s') ← uniform_dist lhs_first 0 (N.of_nat (List.length str) - 1) seed;
      c ← at_index str (N.to_nat k);
      rand_str lhs_first length' str (result ++ [c]) s'
  end.

Definition alpha : list Ascii.ascii :=
  String.list_ascii_of_string "0123456789abcdefghijklmnopqrstuvwxyzABCDEFGHIJKLMNOPQRSTUVWXYZ".

Definition a_string (lhs_first : bool) (min_len max_len seed : N)
    : outcome (list Ascii.ascii * N) :=
  '(len, s') ← uniform_dist lhs_first min_len max_len seed;
  rand_str lhs_first (N.to_nat len) alpha [] s'.

Definition non_uniform_distribution (lhs_first : bool) (A x y seed : N) : outcome (N * N) :=
  '(u, s1) ← uniform_dist lhs_first 0 A seed;
  '(v, s2) ← uniform_dist lhs_first x y s1;
  let w := u64 (y + (2 ^ 64 - x) + 1) in
  if w =? 0 then Fatal OutOfRange else Ok (u64 (N.lor u v mod w + x), s2).

(** ** FNV-1a over the eight octets of a 64-bit value *)
Definition kFNVOffsetBasis64 : N := 0xCBF29CE484222325.
Definition kFNVPrime64 : N := 1099511628211.

Fixpoint fnv_loop (i : nat) (val hash : N) : N :=
  match i with
  | O => hash
  | S i' =>
      let octet := N.land val 0x00ff in
      fnv_loop i' (N.shiftr val 8) (u64 (N.lxor hash octet * kFNVPrime64))
  end.

Definition FNVHash64 (val : N) : N := fnv_loop 8 val kFNVOffsetBasis64.

(** ** Bounds *)
Lemma u64_lt n : u64 n < 2 ^ 64.
Proof. unfold u64. apply N.mod_lt. lia. Qed.

Lemma land_mask_lt n : N.land n LCG_MASK < 2 ^ 48.
Proof. unfold LCG_MASK. rewrite N.land_ones. apply N.mod_lt. lia. Qed.

Lemma init_seed_lt seed : init_seed seed < 2 ^ 48.
Proof. apply land_mask_lt. Qed.

Lemma next_bits_bound bits seed :
  bits ≤ 48 → (next_bits bits seed).1 < 2 ^ bits ∧ (next_bits bits seed).2 < 2 ^ 48.
Proof.
  intros Hb. unfold next_bits. cbn [fst snd].
  pose proof (land_mask_lt (u64 (u64 (seed * LCG_MUL) + 11))) as Hl. split; [|done].
  rewrite N.shiftr_div_pow2. apply N.Div0.div_lt_upper_bound.
  rewrite <-N.pow_add_r. replace (48 - bits + bits) with 48 by lia. done.
Qed.

Lemma rnd_next_bound lhs seed : (rnd_next lhs seed).1 < 2 ^ 64 ∧ (rnd_next lhs seed).2 < 2 ^ 48.
Proof.
  unfold rnd_next.
  destruct (next_bits 32 seed) as [x s1].
  pose proof (next_bits_bound 32 s1 ltac:(lia)) as [_ Hb].
  destruct (next_bits 32 s1) as [y s2]. destruct lhs; cbn [fst snd] in *; split;
    first [apply u64_lt | exact Hb].
Qed.

(** A random double is a multiple of 2^-53 in [0, 1), computed without a rounding
    error. *)
Lemma next_double_unit lhs seed :
  ∃ n, n < 2 ^ 53 ∧ (next_double lhs seed).2 < 2 ^ 48 ∧
  match (next_double lhs seed).1 with
  | S754_zero false => n = 0
  | S754_finite false m e => (e < 0 ∧ Z.pos m = Z.of_N n * 2 ^ (-53 - e) ∧ Z.pos m < 2 ^ (- e))%Z
  | _ => False
  end.
Proof.
  assert (∃ hi lo s2, next_double lhs seed = (fraction (u64 (u64 (N.shiftl hi 27) + lo)), s2) ∧
    hi < 2 ^ 26 ∧ lo < 2 ^ 27 ∧ s2 < 2 ^ 48) as (hi & lo & s2 & -> & Hhi & Hlo & Hs).
  { unfold next_double. destruct lhs.
    - destruct (next_bits 26 seed) as [x s1] eqn:E1. destruct (next_bits 27 s1) as [y s2] eqn:E2.
      pose proof (next_bits_bound 26 seed ltac:(lia)) as [H1 _]. pose proof (next_bits_bound 27 s1 ltac:(lia)) as [H2 H3].
      rewrite E1 in H1. rewrite E2 in H2, H3. by exists x, y, s2.
    - destruct (next_bits 27 seed) as [y s1] eqn:E1. destruct (next_bits 26 s1) as [x s2] eqn:E2.
      pose proof (next_bits_bound 27 seed ltac:(lia)) as [H1 _]. pose proof (next_bits_bound 26 s1 ltac:(lia)) as [H2 H3].
      rewrite E1 in H1. rewrite E2 in H2, H3. by exists x, y, s2. }
  rewrite N.shiftl_mul_pow2. rewrite (u64_small (hi * 2 ^ 27)), u64_small by lia.
  exists (hi * 2 ^ 27 + lo). split_and!; [lia|done|]. simpl fst.
  pose proof (fraction_exact (hi * 2 ^ 27 + lo) ltac:(lia)) as H.
  destruct (fraction _) as [[]| | |[] m e]; try done. destruct H as [He ->]. split_and!; [lia|done|].
  replace (- e)%Z with (53 + (-53 - e))%Z by lia. rewrite Z.pow_add_r by lia. apply Z.mul_lt_mono_pos_r; lia.
Qed.

(** A draw is inside its interval, whatever the seed and the order of
    evaluation. *)
Lemma uniform_dist_bounds lhs a b seed :
  a ≤ b → b < 2 ^ 64 → b - a + 1 < 2 ^ 64 →
  ∃ x s', uniform_dist lhs a b seed = Ok (x, s') ∧ a ≤ x ≤ b.
Proof.
  intros Hab Hb Hw. unfold uniform_dist. destruct (N.eqb_spec a b) as [->|Hne].
  { exists b, seed. split; [done|lia]. }
  destruct (rnd_next lhs seed) as [x s'].
  assert (u64 (b + (2 ^ 64 - a) + 1) = b - a + 1) as Hu.
  { unfold u64. replace (b + (2 ^ 64 - a) + 1) with ((b - a + 1) + 1 * 2 ^ 64) by lia.
    rewrite N.Div0.mod_add. by apply N.mod_small. }
  rewrite Hu. destruct (N.eqb_spec (b - a + 1) 0); [lia|].
  assert (x mod (b - a + 1) < b - a + 1) as Hm by (apply N.mod_lt; lia).
  set (m := x mod (b - a + 1)) in *. clearbody m.
  exists (m + a), s'. split; [|lia]. rewrite u64_small; [done|lia].
Qed.

Lemma rand_str_total lhs n str result seed :
  str ≠ [] → N.of_nat (length str) < 2 ^ 64 →
  ∃ r s', rand_str lhs n str result seed = Ok (r, s') ∧
    (length r = length result + n)%nat ∧ (Forall (λ c, c ∈ str) result → Forall (λ c, c ∈ str) r).
Proof.
  intros Hs Hl. revert result seed. induction n as [|n IH]; intros result seed; simpl.
  { exists result, seed. split_and!; [done | lia | done]. }
  assert (0 < N.of_nat (length str)) as Hpos by (destruct str; simpl; [done|lia]).
  destruct (uniform_dist_bounds lhs 0 (N.of_nat (length str) - 1) seed)
    as (k & s' & E & Hk); [lia..|].
  rewrite E. simpl. unfold at_index.
  destruct (lookup_lt_is_Some_2 str (N.to_nat k)) as [c Hc]; [lia|]. rewrite Hc. simpl.
  destruct (IH (result ++ [c]) s') as (r & s'' & E' & Hr & Hf). exists r, s''.
  split_and!; [done | rewrite Hr, length_app; simpl; lia|].
  intros Hres. apply Hf, Forall_app. split; [done|]. constructor; [|done].
  by eapply list_elem_of_lookup_2.
Qed.

(** [a_string] always returns a string of alphanumeric characters whose
    length is in the requested interval, without an access outside its
    alphabet or a division by zero, whatever the seed and the order in which
    the two halves of a draw are evaluated. *)
Theorem a_string_total lhs min_len max_len seed :
  min_len ≤ max_len → max_len < 2 ^ 64 - 1 →
  ∃ r s', a_string lhs min_len max_len seed = Ok (r, s') ∧
    min_len ≤ N.of_nat (length r) ≤ max_len ∧ Forall (λ c, c ∈ alpha) r.
Proof.
  intros H1 H2. unfold a_string.
  destruct (uniform_dist_bounds lhs min_len max_len seed) as (len & s1 & E & Hlen); [lia..|].
  rewrite E. simpl.
  destruct (rand_str_total lhs (N.to_nat len) alpha [] s1) as (r & s' & E' & Hr & Hf);
    [done | done |].
  exists r, s'. split_and!; [done | simpl in Hr; lia.. |]. by apply Hf.
Qed.

(** The little-endian octets of a 64-bit value. *)
Fixpoint octets (i : nat) (val : N) : list N :=
  match i with O => [] | S i' => (val mod 2 ^ 8) :: octets i' (val / 2 ^ 8) end.

Definition fnv1a (bytes : list N) : N :=
  foldl (λ h b, u64 (N.lxor h b * kFNVPrime64)) kFNVOffsetBasis64 bytes.

(** The loop is FNV-1a on the octets, least significant first. *)
Lemma fnv_loop_octets i val hash :
  fnv_loop i val hash = foldl (λ h b, u64 (N.lxor h b * kFNVPrime64)) hash (octets i val).
Proof.
  revert val hash. induction i as [|i IH]; intros val hash; [done|]. cbn [fnv_loop octets foldl].
  rewrite IH. change 0xff with (N.ones 8). by rewrite N.land_ones, N.shiftr_div_pow2.
Qed.

Lemma FNVHash64_fnv1a val : FNVHash64 val = fnv1a (octets 8 val).
Proof. apply fnv_loop_octets. Qed.

Lemma a_string_total_witness :
  ∃ r s', a_string true 10 10 (init_seed 0) = Ok (r, s') ∧
    10 ≤ N.of_nat (length r) ≤ 10 ∧ Forall (λ c, c ∈ alpha) r.
Proof. apply (a_string_total true 10 10 (init_seed 0)); lia. Defined.
