(* ===== verification/Sha256.v ===== *)
(** * SHA-256

    [src/common/sha224_256.c] (the RFC 4634 code: a context with a 64-byte
    message block that is filled byte by byte) and the streaming wrapper
    [include/common/sha256_hepler.h].  Bytes and 32-bit words are [N] kept in
    range by explicit reduction; the pointers the code null-checks are never
    null.

    The theorem: whatever the pieces in which a message arrives, the digest is
    that of FIPS 180-2, the compression function folded over the padded
    message. *)
From S2P Require Import Prelude.
From Stdlib Require Import NArith Lia.
From stdpp Require Import base list.

Local Open Scope N_scope.

Definition w32 (n : N) : N := n mod 2 ^ 32.
Definition byte_of (n : N) : N := n mod 2 ^ 8.

(** ** The compression function *)
Definition SHR (bits word : N) : N := N.shiftr word bits.
Definition ROTR (bits word : N) : N :=
  N.lor (N.shiftr word bits) (w32 (N.shiftl word (32 - bits))).
Definition SIGMA0 (x : N) : N := N.lxor (N.lxor (ROTR 2 x) (ROTR 13 x)) (ROTR 22 x).
Definition SIGMA1 (x : N) : N := N.lxor (N.lxor (ROTR 6 x) (ROTR 11 x)) (ROTR 25 x).
Definition sigma0 (x : N) : N := N.lxor (N.lxor (ROTR 7 x) (ROTR 18 x)) (SHR 3 x).
Definition sigma1 (x : N) : N := N.lxor (N.lxor (ROTR 17 x) (ROTR 19 x)) (SHR 10 x).
Definition SHA_Ch (x y z : N) : N :=
  N.lxor (N.land x y) (N.land (2 ^ 32 - 1 - x) z).
Definition SHA_Maj (x y z : N) : N :=
  N.lxor (N.lxor (N.land x y) (N.land x z)) (N.land y z).

Definition SHA256_H0 : list N :=
  [0x6A09E667; 0xBB67AE85; 0x3C6EF372; 0xA54FF53A;
   0x510E527F; 0x9B05688C; 0x1F83D9AB; 0x5BE0CD19].
Definition SHA224_H0 : list N :=
  [0xC1059ED8; 0x367CD507; 0x3070DD17; 0xF70E5939;
   0xFFC00B31; 0x68581511; 0x64F98FA7; 0xBEFA4FA4].

(** The thirteen rows of the table. *)
Definition K : list N := concat
  [[0x428a2f98; 0x71374491; 0xb5c0fbcf; 0xe9b5dba5; 0x3956c25b];
   [0x59f111f1; 0x923f82a4; 0xab1c5ed5; 0xd807aa98; 0x12835b01];
   [0x243185be; 0x550c7dc3; 0x72be5d74; 0x80deb1fe; 0x9bdc06a7];
   [0xc19bf174; 0xe49b69c1; 0xefbe4786; 0x0fc19dc6; 0x240ca1cc];
   [0x2de92c6f; 0x4a7484aa; 0x5cb0a9dc; 0x76f988da; 0x983e5152];
   [0xa831c66d; 0xb00327c8; 0xbf597fc7; 0xc6e00bf3; 0xd5a79147];
   [0x06ca6351; 0x14292967; 0x27b70a85; 0x2e1b2138; 0x4d2c6dfc];
   [0x53380d13; 0x650a7354; 0x766a0abb; 0x81c2c92e; 0x92722c85];
   [0xa2bfe8a1; 0xa81a664b; 0xc24b8b70; 0xc76c51a3; 0xd192e819];
   [0xd6990624; 0xf40e3585; 0x106aa070; 0x19a4c116; 0x1e376c08];
   [0x2748774c; 0x34b0bcb5; 0x391c0cb3; 0x4ed8aa4a; 0x5b9cca4f];
   [0x682e6ff3; 0x748f82ee; 0x78a5636f; 0x84c87814; 0x8cc70208];
   [0x90befffa; 0xa4506ceb; 0xbef9a3f7; 0xc67178f2]].

Definition at0 (l : list N) (i : nat) : N := default 0 (l !! i).

(** [W[0..15]] from the block, then the word sequence up to [W[63]]. *)
Definition first_words (block : list N) : list N :=
  (λ t, N.lor (N.lor (N.lor (N.shiftl (at0 block (4 * t)) 24) (N.shiftl (at0 block (4 * t + 1)) 16))
                 (N.shiftl (at0 block (4 * t + 2)) 8)) (at0 block (4 * t + 3)))
  <$> seq 0 16.

Fixpoint extend_words (n : nat) (w : list N) : list N :=
  match n with
  | O => w
  | S n' =>
      let t := length w in
      extend_words n' (w ++ [w32 (sigma1 (at0 w (t - 2)) + at0 w (t - 7) +
                                  sigma0 (at0 w (t - 15)) + at0 w (t - 16))])
  end.

Record words8 := mkW8 { rA : N; rB : N; rC : N; rD : N; rE : N; rF : N; rG : N; rH : N }.

(** One iteration of the round loop, on [K[t]] and [W[t]]. *)
Definition round (r : words8) (kw : N * N) : words8 :=
  let temp1 := w32 (rH r + SIGMA1 (rE r) + SHA_Ch (rE r) (rF r) (rG r) + kw.1 + kw.2) in
  let temp2 := w32 (SIGMA0 (rA r) + SHA_Maj (rA r) (rB r) (rC r)) in
  mkW8 (w32 (temp1 + temp2)) (rA r) (rB r) (rC r) (w32 (rD r + temp1)) (rE r) (rF r) (rG r).

Definition compress (h block : list N) : list N :=
  let w := extend_words 48 (first_words block) in
  let r := foldl round (mkW8 (at0 h 0) (at0 h 1) (at0 h 2) (at0 h 3)
                             (at0 h 4) (at0 h 5) (at0 h 6) (at0 h 7)) (zip K w) in
  [w32 (at0 h 0 + rA r); w32 (at0 h 1 + rB r); w32 (at0 h 2 + rC r); w32 (at0 h 3 + rD r);
   w32 (at0 h 4 + rE r); w32 (at0 h 5 + rF r); w32 (at0 h 6 + rG r); w32 (at0 h 7 + rH r)].

(** ** The context *)
Inductive sha_error := shaSuccess | shaNull | shaInputTooLong | shaStateError | shaBadParam.

Record SHA256Context := mkCtx {
  Intermediate_Hash : list N;
  Length_Low : N;
  Length_High : N;
  Message_Block : list N;
  Message_Block_Index : nat;
  Computed : bool;
  Corrupted : sha_error }.

Definition SHA224_256Reset (h0 : list N) : SHA256Context :=
  mkCtx h0 0 0 (replicate 64 0) 0 false shaSuccess.
Definition SHA256Reset : SHA256Context := SHA224_256Reset SHA256_H0.

Definition SHA224_256ProcessMessageBlock (c : SHA256Context) : SHA256Context :=
  mkCtx (compress (Intermediate_Hash c) (Message_Block c)) (Length_Low c) (Length_High c)
    (Message_Block c) 0 (Computed c) (Corrupted c).

(** [Message_Block[Message_Block_Index++] = b]. *)
Definition put_byte (b : N) (c : SHA256Context) : SHA256Context :=
  mkCtx (Intermediate_Hash c) (Length_Low c) (Length_High c)
    (<[Message_Block_Index c := b]> (Message_Block c)) (S (Message_Block_Index c))
    (Computed c) (Corrupted c).

(** [SHA224_256AddLength]: [Corrupted] becomes 1 when the 64-bit length wraps. *)
Definition SHA224_256AddLength (n : N) (c : SHA256Context) : SHA256Context :=
  let low := w32 (Length_Low c + n) in
  let carry := low <? Length_Low c in
  let high := if carry then w32 (Length_High c + 1) else Length_High c in
  mkCtx (Intermediate_Hash c) low high (Message_Block c) (Message_Block_Index c) (Computed c)
    (if carry && (high =? 0) then shaNull else shaSuccess).

Definition is_success (e : sha_error) : bool := match e with shaSuccess => true | _ => false end.

Definition input_byte (b : N) (c : SHA256Context) : SHA256Context :=
  let c := SHA224_256AddLength 8 (put_byte (N.land b 0xFF) c) in
  if is_success (Corrupted c) && (Message_Block_Index c =? 64)%nat
  then SHA224_256ProcessMessageBlock c else c.

(** The loop [while (length-- && !Corrupted)]. *)
Fixpoint input_loop (length : nat) (message : list N) (c : SHA256Context) : SHA256Context :=
  match length, message with
  | S n, b :: message' =>
      if is_success (Corrupted c) then input_loop n message' (input_byte b c) else c
  | _, _ => c
  end.

Definition set_corrupted (e : sha_error) (c : SHA256Context) : SHA256Context :=
  mkCtx (Intermediate_Hash c) (Length_Low c) (Length_High c) (Message_Block c)
    (Message_Block_Index c) (Computed c) e.

(** [length] is an [unsigned int]. *)
Definition SHA256Input (message : list N) (length : N) (c : SHA256Context)
    : sha_error * SHA256Context :=
  if length =? 0 then (shaSuccess, c)
  else if Computed c then (shaStateError, set_corrupted shaStateError c)
  else if negb (is_success (Corrupted c)) then (Corrupted c, c)
  else (shaSuccess, input_loop (N.to_nat length) message c).

Fixpoint put_zeros (n : nat) (c : SHA256Context) : SHA256Context :=
  match n with O => c | S n' => put_zeros n' (put_byte 0 c) end.

(** The eight octets of the length. *)
Definition length_bytes (high low : N) : list N :=
  [byte_of (N.shiftr high 24); byte_of (N.shiftr high 16); byte_of (N.shiftr high 8); byte_of high;
   byte_of (N.shiftr low 24); byte_of (N.shiftr low 16); byte_of (N.shiftr low 8); byte_of low].

Definition store_length (c : SHA256Context) : SHA256Context :=
  mkCtx (Intermediate_Hash c) (Length_Low c) (Length_High c)
    (list_inserts 56 (length_bytes (Length_High c) (Length_Low c)) (Message_Block c))
    (Message_Block_Index c) (Computed c) (Corrupted c).

Definition SHA224_256PadMessage (pad : N) (c : SHA256Context) : SHA256Context :=
  let c :=
    if (56 <=? Message_Block_Index c)%nat then
      let c := put_byte pad c in
      SHA224_256ProcessMessageBlock (put_zeros (64 - Message_Block_Index c) c)
    else put_byte pad c in
  SHA224_256ProcessMessageBlock (store_length (put_zeros (56 - Message_Block_Index c) c)).

Definition SHA224_256Finalize (pad : N) (c : SHA256Context) : SHA256Context :=
  let c := SHA224_256PadMessage pad c in
  mkCtx (Intermediate_Hash c) 0 0 (replicate 64 0) (Message_Block_Index c) true (Corrupted c).

(** [Message_Digest[i] = Intermediate_Hash[i>>2] >> 8 * (3 - (i & 3))]. *)
Definition digest_bytes (n : nat) (h : list N) : list N :=
  (λ i, byte_of (N.shiftr (at0 h (i / 4)) (8 * (3 - N.of_nat (i mod 4))))) <$> seq 0 n.

Definition SHA224_256ResultN (size : nat) (c : SHA256Context)
    : (sha_error * list N) * SHA256Context :=
  if negb (is_success (Corrupted c)) then ((Corrupted c, []), c)
  else
    let c := if Computed c then c else SHA224_256Finalize 0x80 c in
    ((shaSuccess, digest_bytes size (Intermediate_Hash c)), c).

Definition SHA256Result : SHA256Context → (sha_error * list N) * SHA256Context :=
  SHA224_256ResultN 32.

(** [SHA256FinalBits]: the last one to seven bits of a message. *)
Definition masks : list N := [0x00; 0x80; 0xC0; 0xE0; 0xF0; 0xF8; 0xFC; 0xFE].
Definition markbit : list N := [0x80; 0x40; 0x20; 0x10; 0x08; 0x04; 0x02; 0x01].

Definition SHA256FinalBits (bits length : N) (c : SHA256Context) : sha_error * SHA256Context :=
  if length =? 0 then (shaSuccess, c)
  else if Computed c || (8 <=? length) then (shaStateError, set_corrupted shaStateError c)
  else if negb (is_success (Corrupted c)) then (Corrupted c, c)
  else
    (shaSuccess, SHA224_256Finalize
       (N.lor (N.land bits (at0 masks (N.to_nat length))) (at0 markbit (N.to_nat length)))
       (SHA224_256AddLength length c)).

(** The SHA-224 entry points share the code. *)
Definition SHA224Reset : SHA256Context := SHA224_256Reset SHA224_H0.
Definition SHA224Input := SHA256Input.
Definition SHA224FinalBits := SHA256FinalBits.
Definition SHA224Result : SHA256Context → (sha_error * list N) * SHA256Context :=
  SHA224_256ResultN 28.

(** ** SHA256Helper *)
Definition sha_helper_append (data : list N) (c : SHA256Context) : bool * SHA256Context :=
  let '(e, c') := SHA256Input data (w32 (N.of_nat (length data))) c in (is_success e, c').

(** The digest is resized to 32 zero bytes first; on success the context is
    reset. *)
Definition sha_helper_execute (c : SHA256Context) : bool * list N * SHA256Context :=
  let '((e, digest), c') := SHA256Result c in
  if is_success e then (true, digest, SHA256Reset) else (false, replicate 32 0, c').

(** The two overloads of [hash]; the first leaves [digest] alone when the
    append fails. *)
Definition sha_helper_hash (data digest : list N) (c : SHA256Context)
    : bool * list N * SHA256Context :=
  let '(ok, c) := sha_helper_append data SHA256Reset in
  if ok : bool then sha_helper_execute c else (false, digest, c).

Definition sha_helper_start (data : list N) (c : SHA256Context) : bool * SHA256Context :=
  sha_helper_append data SHA256Reset.

(** Test vectors of FIPS 180-2. *)
Definition hex_digest (m : list N) : list N := (sha_helper_hash m [] SHA256Reset).1.2.

Example sha256_abc :
  hex_digest [0x61; 0x62; 0x63] =
  [0xba; 0x78; 0x16; 0xbf; 0x8f; 0x01; 0xcf; 0xea; 0x41; 0x41; 0x40; 0xde; 0x5d; 0xae; 0x22; 0x23;
   0xb0; 0x03; 0x61; 0xa3; 0x96; 0x17; 0x7a; 0x9c; 0xb4; 0x10; 0xff; 0x61; 0xf2; 0x00; 0x15; 0xad].
Proof. vm_compute. reflexivity. Qed.

Example sha256_empty :
  take 4 (hex_digest []) = [0xe3; 0xb0; 0xc4; 0x42].
Proof. vm_compute. reflexivity. Qed.

#[local] Arguments compress : simpl never.
#[local] Arguments N.mul : simpl never.
#[local] Arguments N.add : simpl never.
#[local] Arguments N.pow : simpl never.

(** ** The specification *)
Definition zero_count (n : nat) : nat := ((119 - n mod 64) mod 64)%nat.

Definition pad (m : list N) : list N :=
  let bits := 8 * N.of_nat (length m) in
  m ++ 0x80 :: replicate (zero_count (length m)) 0 ++ length_bytes (bits / 2 ^ 32) (bits mod 2 ^ 32).

Fixpoint blocks (fuel : nat) (l : list N) : list (list N) :=
  match fuel, l with
  | S fuel', _ :: _ => take 64 l :: blocks fuel' (drop 64 l)
  | _, _ => []
  end.

Definition sha256_state (m : list N) : list N :=
  foldl compress SHA256_H0 (blocks (length (pad m)) (pad m)).
Definition sha256 (m : list N) : list N := digest_bytes 32 (sha256_state m).

(** Absorbing bytes one at a time into a chaining value and a partial block. *)
Definition absorb (s : list N * list N) (b : N) : list N * list N :=
  let buf := s.2 ++ [b] in
  if (length buf =? 64)%nat then (compress s.1 buf, []) else (s.1, buf).

Lemma absorb_short l s : (length s.2 + length l < 64)%nat → foldl absorb s l = (s.1, s.2 ++ l).
Proof.
  revert s. induction l as [|b l IH]; intros s Hl; simpl.
  { rewrite app_nil_r. by destruct s. }
  rewrite IH; unfold absorb; rewrite length_app; simpl in *;
    destruct (Nat.eqb_spec (length s.2 + 1) 64); simpl; try rewrite length_app; simpl; try lia.
  by rewrite <-app_assoc.
Qed.

Lemma absorb_block l h : (length l = 64)%nat → foldl absorb (h, []) l = (compress h l, []).
Proof.
  intros Hl. destruct (exists_last (l := l)) as (l' & b & ->); [by destruct l|].
  rewrite length_app in Hl. simpl in Hl. rewrite foldl_app, (absorb_short l') by (simpl; lia).
  simpl. unfold absorb. simpl. rewrite length_app. simpl.
  by destruct (Nat.eqb_spec (length l' + 1) 64); [|lia].
Qed.

Lemma absorb_blocks n fuel l h :
  (length l = 64 * n)%nat → (length l ≤ fuel)%nat →
  foldl absorb (h, []) l = (foldl compress h (blocks fuel l), []).
Proof.
  revert fuel l h. induction n as [|n IH]; intros fuel l h Hl Hf.
  { destruct l; [|simpl in Hl; lia]. by destruct fuel. }
  destruct fuel as [|fuel]; [lia|]. destruct l as [|b l]; [simpl in Hl; lia|].
  cbn [blocks]. rewrite <-(take_drop 64 (b :: l)) at 1. rewrite foldl_app.
  rewrite absorb_block by (rewrite length_take; lia).
  rewrite (IH fuel); [done| |]; rewrite length_drop; lia.
Qed.

Lemma absorb_buffer l s : (length s.2 < 64)%nat → (length (foldl absorb s l).2 < 64)%nat.
Proof.
  revert s. induction l as [|b l IH]; intros s Hs; simpl; [done|]. apply IH.
  unfold absorb. rewrite length_app. simpl.
  destruct (Nat.eqb_spec (length s.2 + 1) 64); simpl; [lia|]. rewrite length_app. simpl. lia.
Qed.

Lemma absorb_length l s :
  (length s.2 < 64)%nat →
  (length (foldl absorb s l).2 = (length s.2 + length l) mod 64)%nat.
Proof.
  revert s. induction l as [|b l IH]; intros s Hs; cbn [foldl length].
  { rewrite Nat.add_0_r, Nat.mod_small; lia. }
  assert (length (absorb s b).2 = (length s.2 + 1) mod 64)%nat as Hb.
  { unfold absorb. rewrite length_app. cbn [length].
    destruct (Nat.eqb_spec (length s.2 + 1) 64) as [->|]; [done|]. cbn [snd].
    rewrite length_app, Nat.mod_small; cbn [length]; lia. }
  rewrite IH.
  - rewrite Hb, Nat.Div0.add_mod_idemp_l. f_equal. lia.
  - rewrite Hb. apply Nat.mod_upper_bound. lia.
Qed.

(** ** The context after some input *)
Record ctx_absorbed (m : list N) (c : SHA256Context) : Prop := {
  ca_hash : Intermediate_Hash c = (foldl absorb (SHA256_H0, []) m).1;
  ca_index : Message_Block_Index c = length (foldl absorb (SHA256_H0, []) m).2;
  ca_buffer : take (Message_Block_Index c) (Message_Block c) =
              (foldl absorb (SHA256_H0, []) m).2;
  ca_block : length (Message_Block c) = 64%nat;
  ca_low : Length_Low c < 2 ^ 32;
  ca_length : Length_Low c + 2 ^ 32 * Length_High c = 8 * N.of_nat (length m);
  ca_computed : Computed c = false;
  ca_corrupted : Corrupted c = shaSuccess }.

Lemma reset_absorbed : ctx_absorbed [] SHA256Reset.
Proof. by split. Qed.

(** Writing a byte at the index extends the buffered prefix. *)
Lemma take_insert_snoc (l : list N) i b :
  (i < length l)%nat → take (S i) (<[i := b]> l) = take i l ++ [b].
Proof.
  intros Hi. rewrite (take_S_r _ i b) by (by apply list_lookup_insert_eq).
  by rewrite take_insert_ge.
Qed.

Lemma add_length_small c m :
  Length_Low c < 2 ^ 32 → Length_Low c + 2 ^ 32 * Length_High c = 8 * N.of_nat m →
  8 * N.of_nat (S m) < 2 ^ 64 →
  let c' := SHA224_256AddLength 8 c in
  Length_Low c' < 2 ^ 32 ∧ Length_Low c' + 2 ^ 32 * Length_High c' = 8 * N.of_nat (S m) ∧
  Corrupted c' = shaSuccess.
Proof.
  intros Hl Hs Hb. unfold SHA224_256AddLength, w32. simpl.
  destruct (N.lt_ge_cases (Length_Low c + 8) (2 ^ 32)) as [Hlt|Hge].
  - rewrite (N.mod_small (Length_Low c + 8)) by done.
    destruct (N.ltb_spec (Length_Low c + 8) (Length_Low c)); [lia|]. split_and!; [done|lia|done].
  - assert ((Length_Low c + 8) mod 2 ^ 32 = Length_Low c + 8 - 2 ^ 32) as ->.
    { symmetry. apply (N.mod_unique _ _ 1); lia. }
    destruct (N.ltb_spec (Length_Low c + 8 - 2 ^ 32) (Length_Low c)); [|lia].
    rewrite (N.mod_small (Length_High c + 1)) by lia. split_and!; [lia|lia|].
    destruct (N.eqb_spec (Length_High c + 1) 0); [lia|done].
Qed.

Lemma input_byte_absorbed m c b :
  ctx_absorbed m c → b < 256 → 8 * N.of_nat (S (length m)) < 2 ^ 64 →
  ctx_absorbed (m ++ [b]) (input_byte b c).
Proof.
  intros [Hh Hi Hbuf Hblk Hlow Hlen Hcomp Hcor] Hb Hm.
  pose proof (absorb_buffer m (SHA256_H0, []) ltac:(simpl; lia)) as Hlt.
  assert (N.land b 255 = b) as Hmask.
  { change 255 with (N.ones 8). rewrite N.land_ones. by apply N.mod_small. }
  set (c1 := put_byte b c). destruct (add_length_small c1 (length m)) as (L1 & L2 & L3);
    [done|done|done|].
  assert (take (S (Message_Block_Index c)) (Message_Block c1) =
          (foldl absorb (SHA256_H0, []) m).2 ++ [b]) as Hb1.
  { unfold c1; simpl. rewrite take_insert_snoc by lia. by rewrite Hbuf. }
  unfold input_byte. rewrite Hmask. fold c1. rewrite L3. simpl.
  destruct (foldl absorb (SHA256_H0, []) m) as [h buf] eqn:E. simpl in *.
  assert (foldl absorb (SHA256_H0, []) (m ++ [b]) =
    if (length buf + 1 =? 64)%nat then (compress h (buf ++ [b]), []) else (h, buf ++ [b])) as E'.
  { rewrite foldl_app, E. simpl. unfold absorb. simpl. by rewrite length_app. }
  rewrite Hi in Hb1 |- *.
  destruct (Nat.eqb_spec (length buf) 63) as [H64|H64].
  - rewrite (proj2 (Nat.eqb_eq (length buf + 1) 64)) in E' by lia.
    split; rewrite ?E'; simpl; rewrite ?length_app, ?length_insert; simpl; try done.
    + rewrite Hh, Hi. f_equal. rewrite <-Hb1. unfold c1; simpl. rewrite take_ge; [done|].
      rewrite length_insert. lia.
    + rewrite Nat.add_1_r. exact L2.
  - rewrite (proj2 (Nat.eqb_neq (length buf + 1) 64)) in E' by lia.
    split; rewrite ?E'; simpl; rewrite ?length_app, ?length_insert; simpl; try done.
    + rewrite Hi. lia.
    + rewrite Hi. exact Hb1.
    + rewrite Nat.add_1_r. exact L2.
Qed.

Lemma input_loop_absorbed data m c :
  ctx_absorbed m c → Forall (λ b, b < 256) data →
  8 * N.of_nat (length m + length data) < 2 ^ 64 →
  ctx_absorbed (m ++ data) (input_loop (length data) data c).
Proof.
  revert m c. induction data as [|b data IH]; intros m c Hc Hd Hl; simpl.
  { by rewrite app_nil_r. }
  apply Forall_cons in Hd as [Hb Hd]. rewrite (ca_corrupted _ _ Hc). simpl. simpl in Hl.
  rewrite (cons_middle b m data), (assoc_L (++)). apply IH; [|done|].
  - apply input_byte_absorbed; [done|done|lia].
  - rewrite length_app. simpl. lia.
Qed.

Lemma SHA256Input_absorbed data m c :
  ctx_absorbed m c → Forall (λ b, b < 256) data → N.of_nat (length data) < 2 ^ 32 →
  8 * N.of_nat (length m + length data) < 2 ^ 64 →
  ∃ c', SHA256Input data (w32 (N.of_nat (length data))) c = (shaSuccess, c') ∧
    ctx_absorbed (m ++ data) c'.
Proof.
  intros Hc Hd H32 Hl. unfold SHA256Input, w32. rewrite N.mod_small by done.
  destruct (N.eqb_spec (N.of_nat (length data)) 0) as [H0|H0].
  { exists c. destruct data; [|simpl in H0; lia]. by rewrite app_nil_r. }
  rewrite (ca_computed _ _ Hc), (ca_corrupted _ _ Hc). simpl. rewrite Nat2N.id.
  eexists. split; [done|]. by apply input_loop_absorbed.
Qed.

(** ** Padding *)
Definition holds (c : SHA256Context) (h buf : list N) : Prop :=
  Intermediate_Hash c = h ∧ Message_Block_Index c = length buf ∧
  take (length buf) (Message_Block c) = buf ∧ length (Message_Block c) = 64%nat.

Lemma put_byte_holds b c h buf :
  holds c h buf → (length buf < 64)%nat → holds (put_byte b c) h (buf ++ [b]).
Proof.
  intros (Hh & Hi & Hb & Hl) Hlt. unfold holds. simpl. rewrite length_app, length_insert, Hi. simpl.
  rewrite Nat.add_1_r. split_and!; [done|done| |done].
  rewrite take_insert_snoc by lia. by rewrite Hb.
Qed.

Lemma put_zeros_holds n c h buf :
  holds c h buf → (length buf + n ≤ 64)%nat → holds (put_zeros n c) h (buf ++ replicate n 0).
Proof.
  revert c buf. induction n as [|n IH]; intros c buf Hc Hn; simpl.
  { by rewrite app_nil_r. }
  rewrite (cons_middle 0 buf (replicate n 0)), (assoc_L (++)).
  apply IH; [apply put_byte_holds; [done|lia]|]. rewrite length_app. simpl. lia.
Qed.

Lemma process_holds c h buf :
  holds c h buf → length buf = 64%nat →
  holds (SHA224_256ProcessMessageBlock c) (compress h buf) [].
Proof.
  intros (Hh & Hi & Hb & Hl) H64. unfold holds. simpl. rewrite Hh.
  rewrite <-Hb, take_ge by lia. done.
Qed.

Lemma store_length_holds c h buf :
  holds c h buf → length buf = 56%nat →
  Intermediate_Hash (SHA224_256ProcessMessageBlock (store_length c)) =
    compress h (buf ++ length_bytes (Length_High c) (Length_Low c)).
Proof.
  intros (Hh & Hi & Hb & Hl) H56.
  cbn [Intermediate_Hash Message_Block SHA224_256ProcessMessageBlock store_length].
  rewrite Hh. f_equal.
  set (lb := length_bytes (Length_High c) (Length_Low c)).
  assert (length lb = 8%nat) as Hlb by done. clearbody lb.
  rewrite H56 in Hb. clear h Hh Hi. revert Hb Hl. generalize (Message_Block c). intros mb Hb Hl.
  apply list_eq. intros i. destruct (decide (i < 56)%nat) as [Hi1|Hi1].
  - rewrite list_lookup_inserts_lt by done. rewrite lookup_app_l by lia.
    by rewrite <-Hb, lookup_take_lt.
  - rewrite lookup_app_r by lia. rewrite H56. destruct (decide (i < 64)%nat) as [Hi2|Hi2].
    + by rewrite list_lookup_inserts by lia.
    + rewrite !lookup_ge_None_2; [done|lia|]. rewrite length_inserts. lia.
Qed.

Lemma put_zeros_length n c :
  Length_High (put_zeros n c) = Length_High c ∧ Length_Low (put_zeros n c) = Length_Low c.
Proof. revert c. induction n as [|n IH]; intros c; simpl; [done|]. by destruct (IH (put_byte 0 c)). Qed.

(** Filling a partial block. *)
Lemma absorb_fill h buf l :
  (length buf + length l = 64)%nat → l ≠ [] → foldl absorb (h, buf) l = (compress h (buf ++ l), []).
Proof.
  intros Hl Hne. destruct (exists_last Hne) as (l' & b & ->).
  rewrite length_app in Hl. simpl in Hl. rewrite foldl_app, (absorb_short l') by (simpl; lia).
  simpl. unfold absorb. simpl. rewrite !length_app. simpl.
  rewrite (proj2 (Nat.eqb_eq _ 64)) by lia. by rewrite <-app_assoc.
Qed.

Lemma zero_count_cases n :
  let b := (n mod 64)%nat in
  (b < 56 ∧ zero_count n = 55 - b)%nat ∨ (56 ≤ b < 64 ∧ zero_count n = 119 - b)%nat.
Proof.
  intros b. assert (b < 64)%nat as Hb by (apply Nat.mod_upper_bound; lia).
  unfold zero_count. fold b. destruct (decide (b < 56)%nat) as [H|H]; [left|right].
  - split; [done|]. symmetry. apply (Nat.mod_unique _ _ 1); lia.
  - split; [lia|]. apply Nat.mod_small. lia.
Qed.

Lemma pad_length m : ∃ n, length (pad m) = (64 * n)%nat.
Proof.
  unfold pad. rewrite length_app. simpl. rewrite length_app, length_replicate. simpl.
  pose proof (Nat.div_mod_eq (length m) 64) as Hdm.
  destruct (zero_count_cases (length m)) as [[Hb ->]|[Hb ->]].
  - exists (S (length m / 64)). lia.
  - exists (S (S (length m / 64))). lia.
Qed.

Lemma sha256_state_absorb m : sha256_state m = (foldl absorb (SHA256_H0, []) (pad m)).1.
Proof.
  unfold sha256_state. destruct (pad_length m) as [n Hn].
  by rewrite (absorb_blocks n (length (pad m))).
Qed.

(** Zeros up to byte 56, the length, and the last block. *)
Lemma pad_tail_holds c h buf :
  holds c h buf → (length buf ≤ 56)%nat →
  Intermediate_Hash (SHA224_256ProcessMessageBlock
    (store_length (put_zeros (56 - Message_Block_Index c) c))) =
  (foldl absorb (h, buf) (replicate (56 - length buf) 0 ++
     length_bytes (Length_High c) (Length_Low c))).1.
Proof.
  intros Hc Hle. pose proof (put_zeros_holds (56 - length buf) c h buf Hc ltac:(lia)) as Hz.
  destruct Hc as (_ & -> & _).
  rewrite (store_length_holds _ h _ Hz) by (rewrite length_app, length_replicate; lia).
  destruct (put_zeros_length (56 - length buf) c) as [-> ->].
  rewrite absorb_fill; [by rewrite app_assoc| |].
  - rewrite length_app, length_replicate. simpl. lia.
  - by destruct (56 - length buf)%nat.
Qed.

Lemma pad_state m c :
  ctx_absorbed m c → Intermediate_Hash (SHA224_256PadMessage 0x80 c) = sha256_state m.
Proof.
  intros [Hh Hi Hbuf Hblk Hlow Hlen _ _]. rewrite sha256_state_absorb. unfold pad.
  set (bits := 8 * N.of_nat (length m)) in *.
  assert (bits / 2 ^ 32 = Length_High c ∧ bits mod 2 ^ 32 = Length_Low c) as [-> ->].
  { split; symmetry; [apply (N.div_unique _ _ _ (Length_Low c))|
      apply (N.mod_unique _ _ (Length_High c))]; lia. }
  rewrite foldl_app.
  pose proof (absorb_length m (SHA256_H0, []) ltac:(simpl; lia)) as Hbl. cbn [snd length] in Hbl.
  destruct (foldl absorb (SHA256_H0, []) m) as [h buf] eqn:E. cbn [fst snd] in *.
  assert (holds c h buf) as Hc by (rewrite Hi in Hbuf; by split_and!).
  rewrite Nat.add_0_l in Hbl. unfold SHA224_256PadMessage. rewrite Hi.
  destruct (zero_count_cases (length m)) as [[Hb Hz]|[Hb Hz]]; rewrite <-Hbl in Hb, Hz; rewrite Hz;
    pose proof (put_byte_holds 128 c h buf Hc ltac:(lia)) as H1.
  - rewrite (proj2 (Nat.leb_gt 56 (length buf))) by lia.
    rewrite (pad_tail_holds _ h _ H1) by (rewrite length_app; simpl; lia). rewrite length_app.
    cbn [length foldl Length_High Length_Low put_byte]. unfold absorb at 3. cbn [snd fst].
    rewrite length_app. cbn [length]. rewrite (proj2 (Nat.eqb_neq _ 64)) by lia.
    by replace (56 - (length buf + 1))%nat with (55 - length buf)%nat by lia.
  - rewrite (proj2 (Nat.leb_le 56 (length buf))) by lia.
    pose proof (put_zeros_holds (63 - length buf) _ _ _ H1) as H2.
    rewrite length_app in H2. specialize (H2 ltac:(simpl; lia)).
    apply process_holds in H2; [|rewrite !length_app, length_replicate; simpl; lia].
    cbn [Message_Block_Index put_byte] in H2 |- *. rewrite Hi.
    replace (64 - S (length buf))%nat with (63 - length buf)%nat by lia.
    rewrite (pad_tail_holds _ _ _ H2) by (simpl; lia). cbn [length Nat.sub Length_High Length_Low].
    destruct (put_zeros_length (63 - length buf) (put_byte 128 c)) as [HH HL].
    unfold SHA224_256ProcessMessageBlock at 1 2. cbn [Length_High Length_Low]. rewrite HH, HL.
    replace (119 - length buf)%nat with (63 - length buf + 56)%nat by lia.
    rewrite replicate_add, <-(app_assoc (replicate (63 - length buf) 0)), app_comm_cons, 
      (foldl_app _ (128 :: replicate (63 - length buf) 0)).
    rewrite (absorb_fill h buf); [|cbn [length]; rewrite length_replicate; lia|done].
    by rewrite <-app_assoc.
Qed.

(** ** The streaming helper *)
Lemma result_absorbed m c : ctx_absorbed m c → (SHA256Result c).1 = (shaSuccess, sha256 m).
Proof.
  intros Hc. unfold SHA256Result, SHA224_256ResultN.
  rewrite (ca_corrupted _ _ Hc), (ca_computed _ _ Hc). cbn [is_success negb fst].
  unfold SHA224_256Finalize. cbn [Intermediate_Hash]. by rewrite (pad_state m c Hc).
Qed.

Lemma execute_hash_absorbed m c :
  ctx_absorbed m c → sha_helper_execute c = (true, sha256 m, SHA256Reset).
Proof.
  intros Hc. unfold sha_helper_execute. pose proof (result_absorbed m c Hc) as Hr.
  destruct (SHA256Result c) as [[e d] c']. simpl in Hr. by simplify_eq.
Qed.

(** A run of [append] calls, all of which must report success. *)
Fixpoint append_all (pieces : list (list N)) (c : SHA256Context) : bool * SHA256Context :=
  match pieces with
  | [] => (true, c)
  | d :: pieces' =>
      let '(ok, c) := sha_helper_append d c in
      if ok : bool then append_all pieces' c else (false, c)
  end.

Definition piece_ok (d : list N) : Prop :=
  Forall (λ b, b < 256) d ∧ N.of_nat (length d) < 2 ^ 32.

Lemma append_all_absorbed pieces m c :
  ctx_absorbed m c → Forall piece_ok pieces →
  8 * N.of_nat (length m + length (concat pieces)) < 2 ^ 64 →
  ∃ c', append_all pieces c = (true, c') ∧ ctx_absorbed (m ++ concat pieces) c'.
Proof.
  revert m c. induction pieces as [|d ps IH]; intros m c Hc Hp Hl.
  { exists c. simpl. by rewrite app_nil_r. }
  apply Forall_cons in Hp as [[Hd H32] Hp]. cbn [concat] in Hl |- *.
  rewrite length_app in Hl. cbn [append_all]. unfold sha_helper_append.
  destruct (SHA256Input_absorbed d m c Hc Hd H32) as (c1 & -> & Hc1); [lia|]. cbn [is_success].
  rewrite app_assoc. apply IH; [done|done|]. rewrite length_app. lia.
Qed.

(** C40: however a message is cut into [SHA256Helper::append] calls, every call
    succeeds, [execute] returns the FIPS 180-2 digest of the whole
    message - the compression function folded over the padded message - and
    leaves the helper reset for the next one.  The pieces are shorter than
    4 GiB ([append] hands its [size_t] to an [unsigned int]) and the message
    shorter than 2^64 bits. *)
Theorem sha256_stream_correct pieces :
  Forall piece_ok pieces → 8 * N.of_nat (length (concat pieces)) < 2 ^ 64 →
  ∃ c, append_all pieces SHA256Reset = (true, c) ∧
    sha_helper_execute c = (true, sha256 (concat pieces), SHA256Reset).
Proof.
  intros Hp Hl. destruct (append_all_absorbed pieces [] SHA256Reset reset_absorbed Hp Hl)
    as (c & Hc & Ha).
  exists c. split; [done|]. by apply execute_hash_absorbed.
Qed.

Lemma sha256_stream_correct_witness :
  ∃ c, append_all [[0x61]; []; [0x62; 0x63]] SHA256Reset = (true, c) ∧
    sha_helper_execute c = (true, sha256 [0x61; 0x62; 0x63], SHA256Reset).
Proof.
  apply (sha256_stream_correct [[0x61]; []; [0x62; 0x63]]); [|done].
  repeat (constructor; [split; [repeat constructor|done]|]). constructor.
Defined.
