(* ===== verification/MerkleTree.v ===== *)
(** * The Merkle tree

    [src/common/merkle_tree]: one resizeable array of hashes per level
    ([mt_arr_list.c]), the tree on top of them ([merkle_tree.c]) and the hash
    of two nodes ([mt_crypto.c]).  An array is the list of its elements with
    the number of slots allocated for it, so that a write outside the
    allocation is visible; memory is never exhausted.  [assert] is a check in
    debug builds only.  Offsets and sizes are far below 2^32 (an array holds
    fewer than 2^19 elements), so they are natural numbers.

    The theorems: adding leaves one by one and asking for the root gives the
    root of the tree of RFC 6962's shape over them (without the RFC's prefixes),
    up to the 2^18 leaves the tree can represent; verification succeeds exactly
    when replacing the leaf leaves the root alone, and from a wrong leaf that
    verifies a SHA-256 collision is computed; and an update gives the tree of the updated leaves. *)
From S2P Require Import Prelude Sha256.
From Stdlib Require Import NArith Lia.
From stdpp Require Import base list gmap.

Local Open Scope N_scope.
#[local] Arguments sha256 : simpl never.

Definition HASH_LENGTH : nat := 32.
Definition TREE_LEVELS : nat := 20.
Definition MT_AL_MAX_ELEMS : N := 524288.

Inductive mt_error :=
  | MT_SUCCESS | MT_ERR_OUT_Of_MEMORY | MT_ERR_ILLEGAL_PARAM | MT_ERR_ILLEGAL_STATE
  | MT_ERR_ROOT_MISMATCH | MT_ERR_UNSPECIFIED.

Definition mt_hash_t : Type := list N.

(** ** The array list *)
Record mt_al := mkAl { al_store : list mt_hash_t; al_alloc : N }.

Definition al_elems (a : mt_al) : N := N.of_nat (length (al_store a)).

Definition mt_al_create : mt_al := mkAl [] 0.

Definition is_power_of_two (v : N) : bool := negb (v =? 0) && (N.land v (v - 1) =? 0).

(** [v--], the five or-shifts, [v++] and the case that wrapped to zero. *)
Definition smear (k v : N) : N := N.lor v (N.shiftr v k).
Definition round_next_power_two (v : N) : N :=
  let v := w32 (v + (2 ^ 32 - 1)) in
  let v := smear 16 (smear 8 (smear 4 (smear 2 (smear 1 v)))) in
  let v := w32 (v + 1) in
  if v =? 0 then 1 else v.

Section Debug.
Context (debug : bool).

Definition al_assert (a : mt_al) : outcome unit := DCHECK debug (al_elems a <? MT_AL_MAX_ELEMS).

(** [memcpy] into slot [elems] of the allocation, and [elems += 1]. *)
Definition al_push (h : mt_hash_t) (a : mt_al) : outcome (mt_error * mt_al) :=
  if al_elems a <? al_alloc a
  then Ok (MT_SUCCESS, mkAl (al_store a ++ [h]) (al_alloc a)) else Fatal OutOfRange.

Definition mt_al_add (h : mt_hash_t) (a : mt_al) : outcome (mt_error * mt_al) :=
  al_assert a;;
  if al_elems a =? 0 then al_push h (mkAl (al_store a) 1)
  else if is_power_of_two (al_elems a) then
    let twice := w32 (N.shiftl (al_elems a) 1) in
    if (twice <? al_elems a) || (MT_AL_MAX_ELEMS <? twice) then Ok (MT_ERR_ILLEGAL_STATE, a)
    else al_push h (mkAl (al_store a) (al_elems a * 2))
  else al_push h a.

(** [memcpy] over an existing element. *)
Definition al_set (i : nat) (h : mt_hash_t) (a : mt_al) : mt_al :=
  mkAl (<[i := h]> (al_store a)) (al_alloc a).

Definition mt_al_update (h : mt_hash_t) (offset : nat) (a : mt_al) : outcome (mt_error * mt_al) :=
  al_assert a;;
  if (offset <? length (al_store a))%nat then Ok (MT_SUCCESS, al_set offset h a)
  else Ok (MT_ERR_ILLEGAL_PARAM, a).

Definition mt_al_update_if_exists (h : mt_hash_t) (offset : nat) (a : mt_al)
    : outcome (mt_error * mt_al) :=
  al_assert a;;
  if (length (al_store a) <=? offset)%nat then Ok (MT_SUCCESS, a)
  else Ok (MT_SUCCESS, al_set offset h a).

Definition mt_al_add_or_update (h : mt_hash_t) (offset : nat) (a : mt_al)
    : outcome (mt_error * mt_al) :=
  al_assert a;;
  if (length (al_store a) <? offset)%nat then Ok (MT_ERR_ILLEGAL_PARAM, a)
  else if (offset =? length (al_store a))%nat then mt_al_add h a
  else mt_al_update h offset a.

Definition mt_al_truncate (elems : nat) (a : mt_al) : outcome (mt_error * mt_al) :=
  al_assert a;;
  if (length (al_store a) <=? elems)%nat then Ok (MT_ERR_ILLEGAL_PARAM, a)
  else if (elems =? 0)%nat then Ok (MT_SUCCESS, mkAl [] 0)
  else Ok (MT_SUCCESS, mkAl (take elems (al_store a)) (round_next_power_two (N.of_nat elems))).

(** A null pointer past the end. *)
Definition mt_al_get (offset : nat) (a : mt_al) : outcome (option mt_hash_t) :=
  al_assert a;; Ok (al_store a !! offset).

(** ** The hash of two nodes *)
Definition mt_hash (left right : mt_hash_t) : mt_error * mt_hash_t :=
  let '(e1, c) := SHA256Input left 32 SHA256Reset in
  if negb (is_success e1) then (MT_ERR_ILLEGAL_STATE, [])
  else
    let '(e2, c) := SHA256Input right 32 c in
    if negb (is_success e2) then (MT_ERR_ILLEGAL_STATE, [])
    else
      let '((e3, digest), _) := SHA256Result c in
      if negb (is_success e3) then (MT_ERR_ILLEGAL_STATE, []) else (MT_SUCCESS, digest).

(** A null node is refused. *)
Definition mt_hash_ptr (left right : option mt_hash_t) : mt_error * mt_hash_t :=
  match left, right with
  | Some l, Some r => mt_hash l r
  | _, _ => (MT_ERR_ILLEGAL_PARAM, [])
  end.

(** ** The tree *)
Record mt_t := mkMt { mt_elems : nat; mt_level : list mt_al }.

Definition mt_create : mt_t := mkMt 0 (replicate TREE_LEVELS mt_al_create).

Definition mt_right (offset : nat) : bool := Nat.odd offset.
Definition mt_left (offset : nat) : bool := negb (Nat.odd offset).

(** The tag, filled up with zeros. *)
Definition mt_init_hash (tag : list N) : mt_hash_t := tag ++ replicate (HASH_LENGTH - length tag) 0.

(** Access to an array of the tree, and to one that is then replaced. *)
Definition get_level (l : nat) (mt : mt_t) : outcome mt_al := at_index (mt_level mt) l.
Definition on_level (l : nat) (f : mt_al → outcome (mt_error * mt_al)) (mt : mt_t)
    : outcome (mt_error * mt_t) :=
  a ← get_level l mt;
  r ← f a;
  Ok (r.1, mkMt (mt_elems mt) (<[l := r.2]> (mt_level mt))).

Definition ok (e : mt_error) : bool := match e with MT_SUCCESS => true | _ => false end.

(** The loop of [mt_add]: at most [TREE_LEVELS] rounds. *)
Fixpoint mt_add_loop (fuel q l : nat) (digest : mt_hash_t) (mt : mt_t)
    : outcome (mt_error * mt_hash_t * nat * nat * mt_t) :=
  match fuel with
  | O => Ok (MT_SUCCESS, digest, q, l, mt)
  | S fuel' =>
      if (q =? 0)%nat then Ok (MT_SUCCESS, digest, q, l, mt)
      else if mt_right q then
        a ← get_level l mt;
        left ← mt_al_get (q - 1) a;
        let '(e, digest') := mt_hash_ptr left (Some digest) in
        if negb (ok e) then Ok (e, digest, q, l, mt)
        else
          r ← on_level (S l) (mt_al_add_or_update digest' (q / 2)) mt;
          if negb (ok r.1) then Ok (r.1, digest', q, l, r.2)
          else mt_add_loop fuel' (q / 2)%nat (S l) digest' r.2
      else mt_add_loop fuel' (q / 2)%nat (S l) digest mt
  end.

(** The final [assert] compares the digest with the stored root. *)
Definition assert_stored (digest : mt_hash_t) (q l : nat) (mt : mt_t) : outcome unit :=
  if debug then
    a ← get_level l mt; p ← mt_al_get q a; h ← deref p; CHECK (bool_decide (digest = h))
  else Ok tt.

Definition mt_add (tag : list N) (mt : mt_t) : outcome (mt_error * mt_t) :=
  if (HASH_LENGTH <? length tag)%nat then Ok (MT_ERR_ILLEGAL_PARAM, mt)
  else
    let digest := mt_init_hash tag in
    r ← on_level 0 (mt_al_add digest) mt;
    if negb (ok r.1) then Ok (r.1, r.2)
    else
      let mt := mkMt (S (mt_elems mt)) (mt_level r.2) in
      if (mt_elems mt =? 1)%nat then Ok (MT_SUCCESS, mt)
      else
        t ← mt_add_loop TREE_LEVELS (mt_elems mt - 1) 0 digest mt;
        let '(e, digest, q, l, mt) := t in
        if negb (ok e) then Ok (e, mt)
        else assert_stored digest q l mt;; Ok (MT_SUCCESS, mt).

Definition mt_get_size (mt : mt_t) : outcome nat :=
  a ← get_level 0 mt; Ok (length (al_store a)).

Definition mt_exists (offset : nat) (mt : mt_t) : outcome Z :=
  if (MT_AL_MAX_ELEMS <? N.of_nat offset) then Ok (-2)%Z
  else a ← get_level 0 mt; p ← mt_al_get offset a; Ok (match p with Some _ => 1 | None => 0 end)%Z.

(** [&] evaluates both sides: the array of the next level is read although the
    level may be the last. *)
Definition hasNextLevelExceptRoot (mt : mt_t) (cur_lvl : nat) : outcome bool :=
  a ← get_level (S cur_lvl) mt;
  Ok ((S cur_lvl <? TREE_LEVELS - 1)%nat && (0 <? length (al_store a))%nat).

(** Down the levels, doubling the offset, until an array is long enough. *)
Fixpoint findRightNeighbor (mt : mt_t) (offset l : nat) : outcome (option mt_hash_t) :=
  a ← get_level l mt;
  if (offset <? length (al_store a))%nat then mt_al_get offset a
  else match l with O => Ok None | S l' => findRightNeighbor mt (2 * offset) l' end.

(** The digest one level up. *)
Definition mt_climb (mt : mt_t) (q l : nat) (digest : mt_hash_t) : outcome (mt_error * mt_hash_t) :=
  if mt_left q then
    right ← findRightNeighbor mt (q + 1) l;
    match right with
    | Some r => Ok (mt_hash digest r)
    | None => Ok (MT_SUCCESS, digest)
    end
  else
    a ← get_level l mt;
    left ← mt_al_get (q - 1) a;
    Ok (mt_hash_ptr left (Some digest)).

(** The loop of [mt_verify]; [hasNextLevelExceptRoot] stops it before level
    [TREE_LEVELS - 1]. *)
Fixpoint mt_verify_loop (fuel q l : nat) (digest : mt_hash_t) (mt : mt_t)
    : outcome (mt_error * mt_hash_t * nat * nat) :=
  match fuel with
  | O => Ok (MT_ERR_UNSPECIFIED, digest, q, l)
  | S fuel' =>
      b ← hasNextLevelExceptRoot mt l;
      if negb b then Ok (MT_SUCCESS, digest, q, l)
      else
        r ← mt_climb mt q l digest;
        if negb (ok r.1) then Ok (r.1, digest, q, l)
        else mt_verify_loop fuel' (q / 2)%nat (S l) r.2 mt
  end.

Definition mt_verify (tag : list N) (offset : nat) (mt : mt_t) : outcome mt_error :=
  if (HASH_LENGTH <? length tag)%nat || (mt_elems mt <=? offset)%nat then Ok MT_ERR_ILLEGAL_PARAM
  else
    r ← mt_verify_loop TREE_LEVELS offset 0 (mt_init_hash tag) mt;
    let '(e, digest, q, l) := r in
    if negb (ok e) then Ok e
    else
      a ← get_level l mt; p ← mt_al_get q a; h ← deref p;
      Ok (if bool_decide (digest = h) then MT_SUCCESS else MT_ERR_ROOT_MISMATCH).

Fixpoint mt_update_loop (fuel q l : nat) (digest : mt_hash_t) (mt : mt_t)
    : outcome (mt_error * mt_hash_t * nat * nat * mt_t) :=
  match fuel with
  | O => Ok (MT_ERR_UNSPECIFIED, digest, q, l, mt)
  | S fuel' =>
      b ← hasNextLevelExceptRoot mt l;
      if negb b then Ok (MT_SUCCESS, digest, q, l, mt)
      else
        r ← mt_climb mt q l digest;
        if negb (ok r.1) then Ok (r.1, digest, q, l, mt)
        else
          u ← on_level (S l) (mt_al_update_if_exists r.2 (q / 2)) mt;
          if negb (ok u.1) then Ok (u.1, r.2, (q / 2)%nat, S l, u.2)
          else mt_update_loop fuel' (q / 2)%nat (S l) r.2 u.2
  end.

Definition mt_update (tag : list N) (offset : nat) (mt : mt_t) : outcome (mt_error * mt_t) :=
  if (HASH_LENGTH <? length tag)%nat || (mt_elems mt <=? offset)%nat
  then Ok (MT_ERR_ILLEGAL_PARAM, mt)
  else
    let digest := mt_init_hash tag in
    r ← on_level 0 (mt_al_update digest offset) mt;
    if negb (ok r.1) then Ok r
    else
      t ← mt_update_loop TREE_LEVELS offset 0 digest r.2;
      let '(e, digest, q, l, mt) := t in
      if negb (ok e) then Ok (e, mt)
      else assert_stored digest q l mt;; Ok (MT_SUCCESS, mt).

Fixpoint top_level (fuel l : nat) (mt : mt_t) : outcome nat :=
  match fuel with
  | O => Ok l
  | S fuel' =>
      b ← hasNextLevelExceptRoot mt l;
      if b : bool then top_level fuel' (S l) mt else Ok l
  end.

(** The copy reads through the pointer even when it is null. *)
Definition mt_get_root (mt : mt_t) : outcome (mt_error * mt_hash_t) :=
  l ← top_level TREE_LEVELS 0 mt;
  a ← get_level l mt; p ← mt_al_get 0 a; h ← deref p; Ok (MT_SUCCESS, h).

End Debug.

(** ** Powers of two *)
Lemma is_power_of_two_spec v : is_power_of_two v = true ↔ ∃ k, v = 2 ^ k.
Proof.
  unfold is_power_of_two. rewrite andb_true_iff, negb_true_iff, N.eqb_neq, N.eqb_eq. split.
  - intros [H0 Hl]. exists (N.log2 v). destruct (N.log2_spec v) as [Hlo Hhi]; [lia|].
    destruct (N.eq_dec v (2 ^ N.log2 v)) as [|Hne]; [done|]. exfalso.
    assert (N.log2 (v - 1) = N.log2 v) as Hlog by (apply N.log2_unique; lia).
    assert (N.testbit (N.land v (v - 1)) (N.log2 v) = true) as Hb.
    { rewrite N.land_spec, N.bit_log2 by done. rewrite <-Hlog. rewrite N.bit_log2; [done|].
      pose proof (N.pow_nonzero 2 (N.log2 v)). lia. }
    by rewrite Hl in Hb.
  - intros [k ->]. pose proof (N.pow_nonzero 2 k). split; [by apply N.pow_nonzero|].
    rewrite N.sub_1_r, <-N.ones_equiv, N.land_ones. by apply N.Div0.mod_same.
Qed.

(** [covers m s v]: a bit of [v] sets the [m] bits of [s] from it downwards. *)
Definition covers (m s v : N) : Prop :=
  (∀ i j, j < m → N.testbit v (i + j) = true → N.testbit s i = true) ∧
  (∀ i, N.testbit s i = true → ∃ j, N.testbit v (i + j) = true).

Lemma smear_covers m s v : covers m s v → covers (m + m) (smear m s) v.
Proof.
  intros [H1 H2]. unfold smear. split.
  - intros i j Hj Hv. rewrite N.lor_spec, N.shiftr_spec by lia. apply orb_true_iff.
    destruct (N.lt_ge_cases j m); [left; eauto|right]. apply (H1 (i + m) (j - m)); [lia|].
    by replace (i + m + (j - m)) with (i + j) by lia.
  - intros i. rewrite N.lor_spec, N.shiftr_spec by lia. intros [Hs|Hs]%orb_true_iff; [by apply H2|].
    destruct (H2 _ Hs) as [j Hj]. exists (m + j). by rewrite N.add_assoc.
Qed.

Lemma smear_ones u :
  u ≠ 0 → u < 2 ^ 32 → smear 16 (smear 8 (smear 4 (smear 2 (smear 1 u)))) = N.ones (N.succ (N.log2 u)).
Proof.
  intros Hu Hlt. assert (covers 1 u u) as Hc.
  { split; [|intros i Hi; exists 0; by rewrite N.add_0_r].
    intros i j Hj. by replace j with 0 by lia; rewrite N.add_0_r. }
  do 5 apply smear_covers in Hc. simpl in Hc. destruct Hc as [H1 H2].
  assert (N.log2 u < 32) as Hlog by (apply N.log2_lt_pow2; lia).
  apply N.bits_inj. intros i. destruct (N.lt_ge_cases i (N.succ (N.log2 u))) as [Hi|Hi].
  - rewrite N.ones_spec_low by done. apply (H1 i (N.log2 u - i)); [lia|].
    replace (i + (N.log2 u - i)) with (N.log2 u) by lia. by apply N.bit_log2.
  - rewrite N.ones_spec_high by lia. apply not_true_is_false. intros Hb.
    destruct (H2 _ Hb) as [j Hj]. rewrite N.bits_above_log2 in Hj; [done|lia].
Qed.

(** The least power of two that is not smaller. *)
Lemma round_next_power_two_spec v :
  0 < v → v ≤ 2 ^ 31 →
  ∃ k, round_next_power_two v = 2 ^ k ∧ v ≤ 2 ^ k ∧ 2 ^ k < 2 * v.
Proof.
  intros H0 H31. unfold round_next_power_two, w32.
  replace (v + (2 ^ 32 - 1)) with ((v - 1) + 1 * 2 ^ 32) by lia.
  rewrite N.Div0.mod_add, (N.mod_small (v - 1)) by lia.
  destruct (N.eq_dec v 1) as [->|Hne]; [by exists 0|].
  rewrite smear_ones, N.ones_equiv by lia.
  destruct (N.log2_spec (v - 1)) as [Hlo Hhi]; [lia|].
  assert (N.succ (N.log2 (v - 1)) ≤ 31) as Hk.
  { apply N.le_succ_l, N.log2_lt_pow2; lia. }
  exists (N.succ (N.log2 (v - 1))). rewrite N.pow_succ_r' in *.
  assert (2 * 2 ^ N.log2 (v - 1) ≤ 2 ^ 31) as Hp by (rewrite <-N.pow_succ_r'; by apply N.pow_le_mono_r).
  set (p := 2 ^ N.log2 (v - 1)) in *. clearbody p.
  replace (N.pred (2 * p) + 1) with (2 * p) by lia. rewrite N.mod_small by lia.
  rewrite (proj2 (N.eqb_neq (2 * p) 0)) by lia. lia.
Qed.

(** ** The arrays stay inside their allocation

    The allocation is the least power of two that holds the elements. *)
Definition al_ok (a : mt_al) : Prop :=
  al_elems a = 0 ∨ ∃ k, al_alloc a = 2 ^ k ∧ al_elems a ≤ 2 ^ k ∧ 2 ^ k < 2 * al_elems a.

Lemma al_elems_push st h x : al_elems (mkAl (st ++ [h]) x) = N.of_nat (length st) + 1.
Proof. unfold al_elems. simpl. rewrite length_app. simpl. lia. Qed.

Lemma al_assert_ok debug a : al_elems a < MT_AL_MAX_ELEMS → al_assert debug a = Ok tt.
Proof.
  intros H. unfold al_assert. rewrite (proj2 (N.ltb_lt _ _) H). by destruct debug.
Qed.

Lemma al_push_ok h a :
  al_elems a < al_alloc a →
  al_push h a = Ok (MT_SUCCESS, mkAl (al_store a ++ [h]) (al_alloc a)).
Proof. intros H. unfold al_push. by rewrite (proj2 (N.ltb_lt _ _) H). Qed.

Lemma mt_al_add_ok debug h a :
  al_ok a → al_elems a < MT_AL_MAX_ELEMS →
  ∃ x, mt_al_add debug h a = Ok (MT_SUCCESS, mkAl (al_store a ++ [h]) x) ∧
    al_ok (mkAl (al_store a ++ [h]) x).
Proof.
  intros Hok Hmax. unfold mt_al_add. rewrite al_assert_ok by done. cbn [mbind outcome_bind].
  unfold al_ok. destruct (N.eqb_spec (al_elems a) 0) as [H0|H0].
  { exists 1. rewrite al_push_ok by (unfold al_elems in *; simpl; lia). split; [done|]. right.
    exists 0. rewrite al_elems_push. cbn [al_alloc]. unfold al_elems in H0. lia. }
  destruct Hok as [Hz|(k & Ha & Hle & Hlt)]; [done|].
  destruct (is_power_of_two (al_elems a)) eqn:E.
  - apply is_power_of_two_spec in E as [j Hj].
    assert (j < 19) as Hj19.
    { apply (N.pow_lt_mono_r_iff 2); [lia|]. rewrite <-Hj. exact Hmax. }
    assert (2 * 2 ^ j ≤ 2 ^ 19) as Htw.
    { rewrite <-N.pow_succ_r'. apply N.pow_le_mono_r; lia. }
    assert (w32 (N.shiftl (al_elems a) 1) = 2 * 2 ^ j) as ->.
    { unfold w32. rewrite N.shiftl_mul_pow2, Hj, N.mod_small; lia. }
    rewrite (proj2 (N.ltb_ge (2 * 2 ^ j) (al_elems a))) by lia.
    rewrite (proj2 (N.ltb_ge MT_AL_MAX_ELEMS (2 * 2 ^ j))) by exact Htw. cbn [orb].
    exists (al_elems a * 2). rewrite al_push_ok; [|unfold al_elems in *; simpl; lia].
    split; [done|]. right. exists (N.succ j). rewrite al_elems_push, N.pow_succ_r'. cbn [al_alloc].
    unfold al_elems in *. lia.
  - assert (al_elems a ≠ 2 ^ k) as Hne.
    { intros Hk. by rewrite (proj2 (is_power_of_two_spec _) (ex_intro _ k Hk)) in E. }
    exists (al_alloc a). rewrite al_push_ok by lia. split; [done|]. right. exists k.
    rewrite al_elems_push. cbn [al_alloc]. unfold al_elems in *. lia.
Qed.

Lemma al_elems_set i h a : al_elems (al_set i h a) = al_elems a.
Proof. unfold al_elems. simpl. by rewrite length_insert. Qed.

Lemma al_set_ok i h a : al_ok a → al_ok (al_set i h a).
Proof. unfold al_ok. by rewrite al_elems_set. Qed.

(** C39: the array list never writes outside its allocation.  In an array of fewer
    than 2^19 elements whose allocation is the least power of two that holds
    them, appending, overwriting and truncating at any offset return without
    a memory error and leave such an array, with the elements one expects. *)
Theorem array_list_safe debug h offset a :
  al_ok a → al_elems a < MT_AL_MAX_ELEMS →
  (∃ a', mt_al_add debug h a = Ok (MT_SUCCESS, a') ∧ al_ok a' ∧ al_store a' = al_store a ++ [h]) ∧
  (∃ e a', mt_al_update debug h offset a = Ok (e, a') ∧ al_ok a' ∧
     (e = MT_SUCCESS ↔ (offset < length (al_store a))%nat) ∧ al_store a' = <[offset := h]> (al_store a)) ∧
  (∃ e a', mt_al_truncate debug offset a = Ok (e, a') ∧ al_ok a' ∧
     al_store a' = take offset (al_store a)).
Proof.
  intros Hok Hmax. split_and!.
  - destruct (mt_al_add_ok debug h a Hok Hmax) as (x & -> & Hx). by eexists.
  - unfold mt_al_update. rewrite al_assert_ok by done. cbn [mbind outcome_bind].
    destruct (Nat.ltb_spec offset (length (al_store a))).
    + eexists _, _. split; [done|]. split; [by apply al_set_ok|]. done.
    + eexists _, _. split; [done|]. split; [done|]. split; [split; [done|lia]|].
      by rewrite list_insert_ge.
  - unfold mt_al_truncate. rewrite al_assert_ok by done. cbn [mbind outcome_bind].
    destruct (Nat.leb_spec (length (al_store a)) offset).
    { eexists _, _. split; [done|]. split; [done|]. by rewrite take_ge. }
    destruct (Nat.eqb_spec offset 0) as [->|Hne].
    { eexists _, _. split; [done|]. split; [by left|]. done. }
    eexists _, _. split; [done|]. split; [|done]. right. unfold al_elems in *. cbn [al_store al_alloc].
    rewrite length_take, Nat.min_l by lia.
    assert (2 ^ 31 = 4096 * MT_AL_MAX_ELEMS) as H31 by reflexivity.
    destruct (round_next_power_two_spec (N.of_nat offset)) as (k & H1 & H2 & H3); [lia|lia|].
    by exists k.
Qed.

Lemma array_list_safe_witness :
  ∃ a', mt_al_add true [9] (mkAl [[1]; [2]] 2) = Ok (MT_SUCCESS, a') ∧ al_ok a' ∧
    al_store a' = [[1]; [2]; [9]].
Proof.
  apply (array_list_safe true [9] 0 (mkAl [[1]; [2]] 2)); [|done].
  right. exists 1. done.
Defined.

(** ** The hash of two nodes *)
Definition hash_ok (h : mt_hash_t) : Prop := length h = HASH_LENGTH ∧ Forall (λ b, b < 256) h.
Definition node_hash (l r : mt_hash_t) : mt_hash_t := sha256 (l ++ r).
#[local] Arguments node_hash : simpl never.

Lemma mt_hash_node l r : hash_ok l → hash_ok r → mt_hash l r = (MT_SUCCESS, node_hash l r).
Proof.
  intros [Hl Hlb] [Hr Hrb]. unfold mt_hash.
  destruct (SHA256Input_absorbed l [] SHA256Reset reset_absorbed Hlb) as (c1 & E1 & H1);
    [by rewrite Hl|by rewrite Hl|].
  rewrite Hl in E1. change (w32 (N.of_nat HASH_LENGTH)) with 32 in E1. rewrite E1. cbn [is_success negb].
  destruct (SHA256Input_absorbed r l c1 H1 Hrb) as (c2 & E2 & H2);
    [by rewrite Hr|by rewrite Hl, Hr|].
  rewrite Hr in E2. change (w32 (N.of_nat HASH_LENGTH)) with 32 in E2. rewrite E2. cbn [is_success negb].
  pose proof (result_absorbed _ _ H2) as Hres. destruct (SHA256Result c2) as [[e d] c3].
  simpl in Hres. by simplify_eq.
Qed.

Lemma sha256_ok m : hash_ok (sha256 m).
Proof.
  unfold sha256, digest_bytes. split; [by rewrite length_fmap, length_seq|].
  apply Forall_fmap, Forall_true. intros i. apply N.mod_lt. done.
Qed.

Lemma node_hash_ok l r : hash_ok (node_hash l r).
Proof. apply sha256_ok. Qed.

Lemma mt_init_hash_ok tag :
  (length tag ≤ HASH_LENGTH)%nat → Forall (λ b, b < 256) tag → hash_ok (mt_init_hash tag).
Proof.
  intros Hl Hb. unfold mt_init_hash. split.
  - rewrite length_app, length_replicate. lia.
  - apply Forall_app. split; [done|]. by apply Forall_replicate.
Qed.

(** ** The reference tree

    [node l xs]: the hash of up to 2^l leaves.  The left subtree is full
    before the right one gets a leaf; a tree whose right half is empty is its
    left half. *)
Local Open Scope nat_scope.

Fixpoint node (l : nat) (xs : list mt_hash_t) : mt_hash_t :=
  match l with
  | O => default [] (head xs)
  | S l' =>
      if length xs <=? 2 ^ l' then node l' xs
      else node_hash (node l' (take (2 ^ l') xs)) (node l' (drop (2 ^ l') xs))
  end.

Definition mroot (xs : list mt_hash_t) : mt_hash_t := node (Nat.log2_up (length xs)) xs.

Lemma node_more l xs : length xs ≤ 2 ^ l → node (S l) xs = node l xs.
Proof. intros H. cbn [node]. by rewrite (proj2 (Nat.leb_le _ _) H). Qed.

Lemma node_mroot l xs : length xs ≤ 2 ^ l → node l xs = mroot xs.
Proof.
  unfold mroot. intros H. assert (Nat.log2_up (length xs) ≤ l) as Hle.
  { destruct (decide (length xs ≤ 1)).
    - rewrite Nat.log2_up_eqn0; lia.
    - apply Nat.log2_up_le_pow2; lia. }
  induction Hle as [|m Hle IH]; [done|]. rewrite node_more; [apply IH|].
  - destruct (decide (length xs ≤ 1)) as [|Hn]; [pose proof (Nat.pow_nonzero 2 m); lia|].
    destruct (Nat.log2_up_spec (length xs)) as [_ Hs]; [lia|].
    etrans; [exact Hs|]. by apply Nat.pow_le_mono_r.
  - destruct (decide (length xs ≤ 1)) as [|Hn]; [pose proof (Nat.pow_nonzero 2 m); lia|].
    destruct (Nat.log2_up_spec (length xs)) as [_ Hs]; [lia|].
    etrans; [exact Hs|]. by apply Nat.pow_le_mono_r.
Qed.

(** The recursion of RFC 6962, without its prefixes: split at the largest power of two below the
    number of leaves. *)
Lemma mroot_single x : mroot [x] = x.
Proof. done. Qed.

Lemma mroot_split k xs :
  2 ^ k < length xs ≤ 2 ^ S k →
  mroot xs = node_hash (mroot (take (2 ^ k) xs)) (mroot (drop (2 ^ k) xs)).
Proof.
  intros [H1 H2]. rewrite <-(node_mroot (S k)) by done. cbn [node].
  rewrite (proj2 (Nat.leb_gt _ _) H1). rewrite Nat.pow_succ_r' in H2.
  by rewrite !(node_mroot k) by (rewrite ?length_take, ?length_drop; lia).
Qed.

(** The leaves under node [i] of level [l], and the node. *)
Definition segment (l i : nat) (xs : list mt_hash_t) : list mt_hash_t :=
  take (2 ^ l) (drop (i * 2 ^ l) xs).
Definition val (l i : nat) (xs : list mt_hash_t) : mt_hash_t := node l (segment l i xs).

Lemma segment_length l i xs : length (segment l i xs) = Nat.min (2 ^ l) (length xs - i * 2 ^ l).
Proof. unfold segment. by rewrite length_take, length_drop. Qed.

Lemma segment_left l i xs : take (2 ^ l) (segment (S l) i xs) = segment l (2 * i) xs.
Proof.
  unfold segment. rewrite take_take, Nat.pow_succ_r'. f_equal; [lia|]. f_equal. lia.
Qed.

Lemma segment_right l i xs : drop (2 ^ l) (segment (S l) i xs) = segment l (2 * i + 1) xs.
Proof.
  unfold segment. rewrite skipn_firstn_comm, drop_drop, Nat.pow_succ_r'. f_equal; [lia|]. f_equal. lia.
Qed.

Lemma val_pair l i xs :
  (2 * i + 1) * 2 ^ l < length xs →
  val (S l) i xs = node_hash (val l (2 * i) xs) (val l (2 * i + 1) xs).
Proof.
  intros H. unfold val. cbn [node]. rewrite segment_left, segment_right.
  pose proof (Nat.pow_nonzero 2 l). rewrite (proj2 (Nat.leb_gt _ _)); [done|].
  rewrite segment_length, Nat.pow_succ_r'. nia.
Qed.

Lemma val_lone l i xs :
  length xs ≤ (2 * i + 1) * 2 ^ l → val (S l) i xs = val l (2 * i) xs.
Proof.
  intros H. unfold val. assert (length (segment (S l) i xs) ≤ 2 ^ l) as Hl.
  { rewrite segment_length, Nat.pow_succ_r'. nia. }
  rewrite node_more by done. f_equal. rewrite <-segment_left. by rewrite take_ge.
Qed.

Lemma val_top l xs : length xs ≤ 2 ^ l → val l 0 xs = mroot xs.
Proof.
  intros H. unfold val, segment. rewrite Nat.mul_0_l, drop_0, take_ge by done. by apply node_mroot.
Qed.

Lemma node_ok l xs : xs ≠ [] → Forall hash_ok xs → hash_ok (node l xs).
Proof.
  revert xs. induction l as [|l IH]; intros xs Hne Hok; cbn [node].
  { destruct xs; [done|]. by apply Forall_cons in Hok as [? _]. }
  destruct (_ <=? _); [by apply IH|]. apply node_hash_ok.
Qed.

Lemma val_ok l i xs : i * 2 ^ l < length xs → Forall hash_ok xs → hash_ok (val l i xs).
Proof.
  intros Hi Hok. apply node_ok.
  - intros Hn. apply (f_equal length) in Hn. rewrite segment_length in Hn. simpl in Hn.
    pose proof (Nat.pow_nonzero 2 l). lia.
  - by apply Forall_take, Forall_drop.
Qed.

(** The number of stored nodes of a level: above the leaves a node is stored
    when its right child has a leaf. *)
Definition level_count (l n : nat) : nat :=
  match l with O => n | S l' => (n + 2 ^ l' - 1) / 2 ^ S l' end.

Lemma level_count_lt l n i : i < level_count (S l) n ↔ (2 * i + 1) * 2 ^ l < n.
Proof.
  unfold level_count. pose proof (Nat.pow_nonzero 2 l) as Hp. rewrite Nat.pow_succ_r'.
  pose proof (Nat.div_mod_eq (n + 2 ^ l - 1) (2 * 2 ^ l)) as Hd.
  pose proof (Nat.mod_upper_bound (n + 2 ^ l - 1) (2 * 2 ^ l)) as Hm.
  set (d := (n + 2 ^ l - 1) / (2 * 2 ^ l)) in *. set (r := (n + 2 ^ l - 1) mod (2 * 2 ^ l)) in *.
  clearbody d r. set (p := 2 ^ l) in *. clearbody p. specialize (Hm ltac:(lia)).
  split; intros H; nia.
Qed.

Lemma level_count_pos l n i : i < level_count l n → i * 2 ^ l < n.
Proof.
  destruct l as [|l]; [simpl; lia|]. rewrite level_count_lt, Nat.pow_succ_r'.
  pose proof (Nat.pow_nonzero 2 l). nia.
Qed.

Definition level_vals (l : nat) (xs : list mt_hash_t) : list mt_hash_t :=
  (λ i, val l i xs) <$> seq 0 (level_count l (length xs)).

Lemma level_vals_length l xs : length (level_vals l xs) = level_count l (length xs).
Proof. unfold level_vals. by rewrite length_fmap, length_seq. Qed.

Lemma level_vals_lookup l xs i :
  i < level_count l (length xs) → level_vals l xs !! i = Some (val l i xs).
Proof.
  intros Hi. unfold level_vals. rewrite list_lookup_fmap, lookup_seq_lt by done. done.
Qed.

Lemma level_vals_leaves xs : level_vals 0 xs = xs.
Proof.
  apply list_eq. intros i. destruct (decide (i < length xs)) as [Hi|Hi].
  - rewrite level_vals_lookup by done. unfold val, segment. cbn [node]. simpl (2 ^ 0).
    rewrite Nat.mul_1_r. destruct (lookup_lt_is_Some_2 xs i Hi) as [x Hx].
    by rewrite (drop_S _ _ _ Hx), Hx.
  - rewrite !lookup_ge_None_2; [done|lia|]. rewrite level_vals_length. simpl. lia.
Qed.

(** A node whose leaves do not change keeps its hash. *)
Lemma val_prefix l i xs ys :
  take ((i + 1) * 2 ^ l) xs = take ((i + 1) * 2 ^ l) ys → val l i xs = val l i ys.
Proof.
  intros H. unfold val, segment. f_equal.
  rewrite !take_drop_commute. replace (i * 2 ^ l + 2 ^ l) with ((i + 1) * 2 ^ l) by lia.
  by rewrite H.
Qed.

(** ** Adding a leaf *)

(** A leaf more leaves level [S l] alone when the last node of level [l] is a
    left one, and else sets the parent of that node. *)
Section AddLeaf.
Context (xs : list mt_hash_t) (x : mt_hash_t).
Local Notation ys := (xs ++ [x]).
Local Notation n := (length xs).

Lemma old_node l i : (i + 1) * 2 ^ l ≤ n → val l i ys = val l i xs.
Proof. intros H. apply val_prefix. by rewrite take_app_le. Qed.

Lemma ys_length : length ys = S n.
Proof. rewrite length_app. simpl. lia. Qed.

Lemma add_leaf_count l :
  level_count (S l) (S n) = if Nat.odd (n / 2 ^ l) then n / 2 ^ l / 2 + 1 else level_count (S l) n.
Proof.
  pose proof (Nat.pow_nonzero 2 l ltac:(lia)) as Hp.
  pose proof (Nat.div_mod_eq n (2 ^ l)) as Hd.
  pose proof (Nat.mod_upper_bound n (2 ^ l) ltac:(lia)) as Hm.
  set (q := n / 2 ^ l) in *. set (r := n mod 2 ^ l) in *.
  pose proof (level_count_lt l (S n)) as L1. pose proof (level_count_lt l n) as L2.
  clearbody q r. set (p := 2 ^ l) in *. clearbody p.
  set (c1 := level_count (S l) (S n)) in *. set (c2 := level_count (S l) n) in *. clearbody c1 c2.
  destruct (Nat.odd q) eqn:E.
  - apply Nat.odd_spec in E as [j Hj]. replace (q / 2) with j.
    2:{ apply (Nat.div_unique _ _ _ 1); lia. }
    subst q. rewrite Nat.mul_comm in Hd.
    assert ((2 * (j + 1) + 1) * p = (2 * j + 1) * p + 2 * p) as Hx by lia.
    pose proof (L1 (j + 1)) as L3. pose proof (L1 j) as L4. rewrite Hx in L3.
    set (y := (2 * j + 1) * p) in *. clearbody y. lia.
  - assert (Nat.even q = true) as Ev by (by rewrite <-Nat.negb_odd, E).
    apply Nat.even_spec in Ev as [j Hj].
    assert (∀ i, i < c1 ↔ i < c2) as Heq.
    { intros i. rewrite L1, L2. split; [|lia]. intros Hi.
      destruct (Nat.eq_dec ((2 * i + 1) * p) n) as [He|]; [exfalso|lia].
      assert (2 * i + 1 = q); [|lia]. apply (Nat.mul_cancel_r _ _ p); [lia|].
      destruct (Nat.lt_trichotomy (2 * i + 1) q) as [Hlt|[->|Hgt]]; [|done|].
      - assert ((2 * i + 2) * p ≤ q * p) by (apply Nat.mul_le_mono_r; lia). lia.
      - assert ((q + 1) * p ≤ (2 * i + 1) * p) by (apply Nat.mul_le_mono_r; lia). lia. }
    pose proof (proj1 (Heq c2)). pose proof (proj2 (Heq c1)). lia.
Qed.

Lemma add_leaf_level l :
  level_vals (S l) ys =
  if Nat.odd (n / 2 ^ l)
  then take (n / 2 ^ l / 2) (level_vals (S l) xs) ++ [val (S l) (n / 2 ^ l / 2) ys]
  else level_vals (S l) xs.
Proof.
  pose proof (add_leaf_count l) as Hc. pose proof (Nat.pow_nonzero 2 l ltac:(lia)) as Hp.
  pose proof (Nat.div_mod_eq n (2 ^ l)) as Hd.
  pose proof (Nat.mod_upper_bound n (2 ^ l) ltac:(lia)) as Hm.
  assert (∀ i, i < n / 2 ^ l / 2 → i < level_count (S l) n ∧ val (S l) i ys = val (S l) i xs) as Hold.
  { intros i Hi. pose proof (Nat.div_mod_eq (n / 2 ^ l) 2). split.
    - rewrite level_count_lt. nia.
    - apply old_node. rewrite Nat.pow_succ_r'. nia. }
  unfold level_vals at 1. rewrite ys_length, Hc. destruct (Nat.odd (n / 2 ^ l)) eqn:E.
  - rewrite seq_app, fmap_app. f_equal. apply list_eq. intros i.
    destruct (decide (i < n / 2 ^ l / 2)) as [Hi|Hi].
    + destruct (Hold i Hi) as [H1 H2].
      rewrite list_lookup_fmap, lookup_seq_lt by done. simpl.
      rewrite lookup_take_lt, level_vals_lookup by done. by rewrite H2.
    + rewrite !lookup_ge_None_2; [done| |].
      * rewrite length_take. lia.
      * rewrite length_fmap, length_seq. lia.
  - unfold level_vals. apply list_fmap_ext. intros k i Hk.
    apply lookup_seq in Hk as [-> Hk]. apply Hold.
    apply level_count_lt in Hk. assert (Nat.even (n / 2 ^ l) = true) as Ev by (by rewrite <-Nat.negb_odd, E).
    apply Nat.even_spec in Ev as [j Hj]. rewrite Hj.
    rewrite (Nat.mul_comm 2 j), Nat.div_mul by lia. nia.
Qed.

End AddLeaf.

(** ** The tree represents its leaves *)
Definition levels_are (f : nat → list mt_hash_t) (mt : mt_t) : Prop :=
  length (mt_level mt) = TREE_LEVELS ∧
  ∀ j, j < TREE_LEVELS → ∃ a, mt_level mt !! j = Some a ∧ al_store a = f j ∧ al_ok a.

Definition tree_ok (xs : list mt_hash_t) (mt : mt_t) : Prop :=
  mt_elems mt = length xs ∧ levels_are (λ j, level_vals j xs) mt.

Lemma levels_are_ext f g mt :
  (∀ j, j < TREE_LEVELS → f j = g j) → levels_are f mt → levels_are g mt.
Proof.
  intros Hfg [Hl H]. split; [done|]. intros j Hj. rewrite <-Hfg by done. by apply H.
Qed.

Lemma on_level_ok f mt j g v :
  levels_are f mt → j < TREE_LEVELS →
  (∀ a, al_store a = f j → al_ok a →
     ∃ a', g a = Ok (MT_SUCCESS, a') ∧ al_store a' = v ∧ al_ok a') →
  ∃ mt', on_level j g mt = Ok (MT_SUCCESS, mt') ∧ mt_elems mt' = mt_elems mt ∧
    levels_are (λ k, if k =? j then v else f k) mt'.
Proof.
  intros [Hl H] Hj Hg. destruct (H j Hj) as (a & Ha & Hs & Hok).
  destruct (Hg a Hs Hok) as (a' & Ea & Hs' & Hok').
  unfold on_level, get_level, at_index. rewrite Ha. cbn [mbind outcome_bind]. rewrite Ea.
  eexists. split; [done|]. split; [done|]. cbn [mt_level fst snd].
  split; cbn [mt_level]; [by rewrite length_insert|]. intros k Hk. destruct (Nat.eqb_spec k j) as [->|Hne].
  - exists a'. rewrite list_lookup_insert_eq by lia. done.
  - rewrite list_lookup_insert_ne by done. by apply H.
Qed.

Lemma get_level_ok f mt j :
  levels_are f mt → j < TREE_LEVELS → ∃ a, get_level j mt = Ok a ∧ al_store a = f j ∧ al_ok a.
Proof.
  intros [_ H] Hj. destruct (H j Hj) as (a & Ha & Hs & Hok). exists a.
  unfold get_level, at_index. by rewrite Ha.
Qed.

Lemma max_elems_nat : MT_AL_MAX_ELEMS = N.of_nat (2 ^ 19).
Proof. rewrite Nat2N.inj_pow. reflexivity. Qed.

Lemma elems_small a : length (al_store a) < 2 ^ 19 → (al_elems a < MT_AL_MAX_ELEMS)%N.
Proof. intros H. rewrite max_elems_nat. unfold al_elems. lia. Qed.

Lemma mt_al_get_ok debug i a :
  length (al_store a) < 2 ^ 19 → mt_al_get debug i a = Ok (al_store a !! i).
Proof.
  intros H. unfold mt_al_get. by rewrite al_assert_ok by (by apply elems_small).
Qed.

Lemma level_count_le l n : level_count l n ≤ n.
Proof.
  destruct (level_count l n) as [|i] eqn:E; [lia|].
  assert (i * 2 ^ l < n) as H by (apply level_count_pos; lia).
  pose proof (Nat.pow_nonzero 2 l). nia.
Qed.

Lemma add_or_update_ok debug h k a :
  al_ok a → length (al_store a) = k ∨ length (al_store a) = k + 1 → k + 1 < 2 ^ 19 →
  ∃ a', mt_al_add_or_update debug h k a = Ok (MT_SUCCESS, a') ∧
    al_store a' = take k (al_store a) ++ [h] ∧ al_ok a'.
Proof.
  intros Hok Hl Hk.
  assert (al_elems a < MT_AL_MAX_ELEMS)%N as Hmax by (apply elems_small; lia).
  unfold mt_al_add_or_update. rewrite al_assert_ok by done. cbn [mbind outcome_bind].
  rewrite (proj2 (Nat.ltb_ge (length (al_store a)) k)) by lia.
  destruct (Nat.eqb_spec k (length (al_store a))) as [->|Hne].
  - destruct (mt_al_add_ok debug h a Hok Hmax) as (x & -> & Hx). eexists. split; [done|].
    split; [|done]. cbn [al_store]. by rewrite take_ge.
  - unfold mt_al_update. rewrite al_assert_ok by done. cbn [mbind outcome_bind].
    rewrite (proj2 (Nat.ltb_lt k (length (al_store a)))) by lia. eexists. split; [done|].
    split; [|by apply al_set_ok]. cbn [al_set al_store].
    rewrite insert_take_drop by lia. by rewrite (drop_ge _ (S k)) by lia.
Qed.

Lemma odd_div q : Nat.odd q = true → q = 2 * (q / 2) + 1.
Proof.
  intros H. pose proof (Nat.div_mod_eq q 2). apply Nat.odd_spec in H as [j ->].
  replace ((2 * j + 1) / 2) with j; [lia|]. apply (Nat.div_unique _ _ _ 1); lia.
Qed.

Lemma even_div q : Nat.odd q = false → q = 2 * (q / 2).
Proof.
  intros H. assert (Nat.even q = true) as Ev by (by rewrite <-Nat.negb_odd, H).
  apply Nat.even_spec in Ev as [j ->].
  rewrite (Nat.mul_comm 2 j), Nat.div_mul by lia. lia.
Qed.

Lemma div_pow_succ a l : a / 2 ^ l / 2 = a / 2 ^ S l.
Proof. rewrite Nat.Div0.div_div. f_equal. rewrite Nat.pow_succ_r'. lia. Qed.

Lemma div_pow_le a l : a / 2 ^ l * 2 ^ l ≤ a.
Proof. rewrite Nat.mul_comm. apply Nat.Div0.mul_div_le. Qed.

Lemma left_sibling l q m : 0 < q → q * 2 ^ l < m → q - 1 < level_count l m.
Proof.
  destruct l as [|l]; intros Hq H; [simpl in *; lia|]. rewrite level_count_lt.
  rewrite Nat.pow_succ_r' in H. pose proof (Nat.pow_nonzero 2 l ltac:(lia)).
  assert ((2 * (q - 1) + 1) * 2 ^ l ≤ (2 * q) * 2 ^ l) by (apply Nat.mul_le_mono_r; lia). nia.
Qed.

Section AddLoop.
Context (debug : bool) (xs : list mt_hash_t) (x : mt_hash_t).
Local Notation ys := (xs ++ [x]).
Local Notation n := (length xs).
Context (Hok : Forall hash_ok ys) (Hn : n + 1 < 2 ^ 19).

Definition mix (l j : nat) : list mt_hash_t := if j <=? l then level_vals j ys else level_vals j xs.

Lemma mix_length l j : length (mix l j) ≤ n + 1.
Proof.
  unfold mix. destruct (_ <=? _); rewrite level_vals_length, ?ys_length;
    etrans; try apply level_count_le; lia.
Qed.

(** Level [S l] after the round at level [l]. *)
Lemma mix_step l v :
  v = level_vals (S l) ys → ∀ j, (if j =? S l then v else mix l j) = mix (S l) j.
Proof.
  intros -> j. unfold mix. destruct (Nat.eqb_spec j (S l)) as [->|Hne].
  - by rewrite (proj2 (Nat.leb_le (S l) (S l))) by lia.
  - destruct (Nat.leb_spec j l), (Nat.leb_spec j (S l)); done || lia.
Qed.

Lemma mix_skip l j : Nat.odd (n / 2 ^ l) = false → mix l j = mix (S l) j.
Proof.
  intros E. unfold mix. destruct (Nat.leb_spec j l), (Nat.leb_spec j (S l)); [done|lia| |done].
  replace j with (S l) by lia. by rewrite add_leaf_level, E.
Qed.

Lemma parent_count l :
  Nat.odd (n / 2 ^ l) = true →
  level_count (S l) n = n / 2 ^ l / 2 ∨ level_count (S l) n = n / 2 ^ l / 2 + 1.
Proof.
  intros E. pose proof (add_leaf_count xs l) as Hc. rewrite E in Hc.
  pose proof (level_count_lt l n (n / 2 ^ l / 2 + 1)) as L1.
  pose proof (level_count_lt l (S n) (n / 2 ^ l / 2 + 1)) as L2.
  assert (n / 2 ^ l / 2 ≤ level_count (S l) n); [|lia].
  destruct (n / 2 ^ l / 2) as [|k] eqn:Ek; [lia|].
  apply Nat.le_succ_l, level_count_lt.
  pose proof (Nat.div_mod_eq (n / 2 ^ l) 2). pose proof (Nat.div_mod_eq n (2 ^ l)).
  pose proof (Nat.pow_nonzero 2 l ltac:(lia)).
  assert ((2 * k + 2) * 2 ^ l ≤ (n / 2 ^ l) * 2 ^ l) by (apply Nat.mul_le_mono_r; lia). nia.
Qed.

Lemma mt_add_loop_ok fuel l mt :
  fuel + l = TREE_LEVELS → l < TREE_LEVELS → levels_are (mix l) mt →
  ∃ l' mt', mt_add_loop debug fuel (n / 2 ^ l) l (val l (n / 2 ^ l) ys) mt =
      Ok (MT_SUCCESS, val l' 0 ys, 0, l', mt') ∧
    mt_elems mt' = mt_elems mt ∧ levels_are (mix l') mt' ∧ l' < TREE_LEVELS ∧ n < 2 ^ l' ∧
    (l' = l ∨ 2 ^ (l' - 1) ≤ n).
Proof.
  revert l mt. induction fuel as [|fuel IH]; intros l mt Hfl Hl20 Hmt; [lia|].
  cbn [mt_add_loop]. destruct (Nat.eqb_spec (n / 2 ^ l) 0) as [H0|H0].
  { exists l, mt. rewrite H0. split_and!; try done; [|by left].
    apply Nat.div_small_iff in H0; [done|]. by apply Nat.pow_nonzero. }
  assert (2 ^ l ≤ n) as Hle.
  { destruct (Nat.le_gt_cases (2 ^ l) n) as [|Hg]; [done|]. by rewrite Nat.div_small in H0. }
  assert (S l < TREE_LEVELS) as Hl19.
  { unfold TREE_LEVELS. apply -> Nat.succ_lt_mono. apply (Nat.pow_lt_mono_r_iff 2); lia. }
  pose proof (div_pow_le n l) as Hq. pose proof (Nat.pow_nonzero 2 l ltac:(lia)) as Hp.
  assert (length ys = n + 1) as Hly by (rewrite ys_length; lia).
  assert (∀ mt1 d, levels_are (mix (S l)) mt1 → mt_elems mt1 = mt_elems mt →
    d = val (S l) (n / 2 ^ l / 2) ys →
    ∃ l' mt', mt_add_loop debug fuel (n / 2 ^ l / 2) (S l) d mt1 =
      Ok (MT_SUCCESS, val l' 0 ys, 0, l', mt') ∧
    mt_elems mt' = mt_elems mt ∧ levels_are (mix l') mt' ∧ l' < TREE_LEVELS ∧ n < 2 ^ l' ∧
    (l' = l ∨ 2 ^ (l' - 1) ≤ n)) as Hnext.
  { intros mt1 d H1 H2 ->. rewrite div_pow_succ.
    destruct (IH (S l) mt1) as (l' & mt' & E & ? & ? & ? & ? & Hd); [lia|done|done|].
    exists l', mt'. rewrite E. split_and!; try done; [congruence|]. right.
    destruct Hd as [->|]; [|done]. by replace (S l - 1) with l by lia. }
  unfold mt_right. destruct (Nat.odd (n / 2 ^ l)) eqn:Eo.
  - destruct (get_level_ok _ _ _ Hmt Hl20) as (a & -> & Ha & _). cbn [mbind outcome_bind].
    rewrite mt_al_get_ok by (rewrite Ha; pose proof (mix_length l l); lia). cbn [mbind outcome_bind].
    rewrite Ha. unfold mix at 1. rewrite Nat.leb_refl.
    rewrite level_vals_lookup by (apply left_sibling; lia). cbn [mt_hash_ptr].
    pose proof (odd_div _ Eo) as Hodd. set (q := n / 2 ^ l) in *.
    rewrite mt_hash_node; [|apply val_ok; [nia|done]|apply val_ok; [lia|done]]. cbn [ok negb].
    assert (node_hash (val l (q - 1) ys) (val l q ys) = val (S l) (q / 2) ys) as ->.
    { rewrite (val_pair l (q / 2)); [|rewrite <-Hodd; lia]. rewrite <-Hodd.
      by replace (2 * (q / 2)) with (q - 1) by lia. }
    destruct (on_level_ok _ mt (S l)
      (mt_al_add_or_update debug (val (S l) (q / 2) ys) (q / 2)) (level_vals (S l) ys) Hmt Hl19)
      as (mt1 & -> & He & H1).
    { intros b Hb Hbok. unfold mix in Hb. rewrite (proj2 (Nat.leb_gt (S l) l)) in Hb by lia.
      destruct (add_or_update_ok debug (val (S l) (q / 2) ys) (q / 2) b Hbok)
        as (b' & -> & Hb' & ?).
      - rewrite Hb, level_vals_length. by apply parent_count.
      - assert (q ≤ n) by (apply Nat.Div0.div_le_upper_bound; nia). lia.
      - exists b'. rewrite Hb', Hb, add_leaf_level. fold q. by rewrite Eo. }
    cbn [mbind outcome_bind fst snd ok negb]. apply Hnext; [|done|done].
    eapply levels_are_ext; [|exact H1]. intros j _. by apply mix_step.
  - apply Hnext; [|done|].
    + eapply levels_are_ext; [|exact Hmt]. intros j _. by apply mix_skip.
    + pose proof (even_div _ Eo) as Hev. rewrite val_lone; [by rewrite <-Hev|]. rewrite <-Hev.
      pose proof (Nat.mod_upper_bound n (2 ^ l) Hp). pose proof (Nat.div_mod_eq n (2 ^ l)). nia.
Qed.

End AddLoop.

Lemma level_count_pos_iff l n : 0 < level_count (S l) n ↔ 2 ^ l < n.
Proof. rewrite level_count_lt. by rewrite Nat.mul_0_r, Nat.add_0_l, Nat.mul_1_l. Qed.

(** Above the root nothing is stored. *)
Lemma level_vals_above l xs : length xs ≤ 2 ^ l → level_vals (S l) xs = [].
Proof.
  intros H. apply nil_length_inv. rewrite level_vals_length.
  pose proof (level_count_pos_iff l (length xs)). lia.
Qed.

(** The root of a tree of at least two leaves is stored at its level. *)
Lemma assert_stored_ok debug xs mt l :
  levels_are (λ j, level_vals j xs) mt → l < TREE_LEVELS → length xs < 2 ^ 19 →
  0 < level_count l (length xs) →
  assert_stored debug (val l 0 xs) 0 l mt = Ok tt.
Proof.
  intros Hmt Hl Hn Hc. unfold assert_stored. destruct debug; [|done].
  destruct (get_level_ok _ _ _ Hmt Hl) as (a & -> & Ha & _). cbn [mbind outcome_bind].
  pose proof (level_count_le l (length xs)) as Hle.
  rewrite mt_al_get_ok by (rewrite Ha, level_vals_length; lia). cbn [mbind outcome_bind].
  rewrite Ha, level_vals_lookup by done. cbn. by rewrite bool_decide_true.
Qed.

Lemma mt_add_ok debug tag xs mt :
  tree_ok xs mt → Forall hash_ok (xs ++ [mt_init_hash tag]) → length tag ≤ HASH_LENGTH →
  length xs + 1 < 2 ^ 19 →
  ∃ mt', mt_add debug tag mt = Ok (MT_SUCCESS, mt') ∧ tree_ok (xs ++ [mt_init_hash tag]) mt'.
Proof.
  intros [Hel Hmt] Hok Htag Hn. set (x := mt_init_hash tag) in *. unfold mt_add.
  rewrite (proj2 (Nat.ltb_ge HASH_LENGTH (length tag))) by done. fold x.
  destruct (on_level_ok _ mt 0 (mt_al_add debug x) (xs ++ [x]) Hmt ltac:(unfold TREE_LEVELS; lia))
    as (mt1 & -> & He & H1).
  { intros a Ha Haok. rewrite level_vals_leaves in Ha.
    destruct (mt_al_add_ok debug x a Haok) as (y & -> & Hy); [apply elems_small; rewrite Ha; lia|].
    eexists. split; [done|]. cbn [al_store]. split; [by rewrite Ha|done]. }
  cbn [mbind outcome_bind fst snd ok negb mt_elems].
  assert (levels_are (mix xs x 0) (mkMt (S (mt_elems mt)) (mt_level mt1))) as H2.
  { apply (levels_are_ext (λ k, if k =? 0 then xs ++ [x] else level_vals k xs)); [|exact H1].
    intros [|j] _; unfold mix; cbn [Nat.eqb Nat.leb]; [by rewrite level_vals_leaves|done]. }
  rewrite Hel in H2 |- *. destruct (Nat.eqb_spec (S (length xs)) 1) as [H0|H0].
  { eexists. split; [done|]. split; [rewrite ys_length; simpl; lia|]. eapply levels_are_ext; [|exact H2].
    intros [|j] _; unfold mix; [done|]. cbn [Nat.leb]. pose proof (Nat.pow_nonzero 2 j ltac:(lia)).
    rewrite !level_vals_above by (rewrite ?ys_length; lia). done. }
  destruct (mt_add_loop_ok debug xs x Hok Hn TREE_LEVELS 0 _ ltac:(done)
    ltac:(unfold TREE_LEVELS; lia) H2) as (l' & mt' & E & He' & H3 & Hl' & Hnl & Hd).
  rewrite Nat.pow_0_r, Nat.div_1_r in E.
  assert (val 0 (length xs) (xs ++ [x]) = x) as Hv.
  { pose proof (level_vals_lookup 0 (xs ++ [x]) (length xs)) as Hv. rewrite level_vals_leaves in Hv.
    rewrite list_lookup_middle in Hv by done. rewrite ys_length in Hv. simpl in Hv.
    specialize (Hv ltac:(lia)). by injection Hv as <-. }
  rewrite Hv in E. replace (S (length xs) - 1) with (length xs) by lia. rewrite E.
  cbn [mbind outcome_bind ok negb].
  assert (levels_are (λ j, level_vals j (xs ++ [x])) mt') as H4.
  { eapply levels_are_ext; [|exact H3]. intros j _. unfold mix. destruct (Nat.leb_spec j l'); [done|].
    destruct j as [|j]; [lia|]. assert (2 ^ l' ≤ 2 ^ j) by (apply Nat.pow_le_mono_r; lia).
    by rewrite !level_vals_above by (rewrite ?ys_length; lia). }
  rewrite assert_stored_ok; [|done|done|rewrite ys_length; lia|].
  - eexists. split; [done|]. split; [|done]. rewrite He', ys_length. reflexivity.
  - destruct l' as [|l']; [rewrite ys_length; simpl; lia|]. apply level_count_pos_iff.
    rewrite ys_length. destruct Hd as [|Hd]; [lia|].
    replace (S l' - 1) with l' in Hd by lia. lia.
Qed.

(** ** The root *)
Lemma hasNext_ok n f mt l :
  levels_are f mt → S l < TREE_LEVELS → length (f (S l)) = level_count (S l) n →
  hasNextLevelExceptRoot mt l = Ok ((S l <? TREE_LEVELS - 1) && (2 ^ l <? n)).
Proof.
  intros Hmt Hl Hf. unfold hasNextLevelExceptRoot.
  destruct (get_level_ok _ _ _ Hmt Hl) as (a & -> & Ha & _). cbn [mbind outcome_bind]. rewrite Ha.
  do 2 f_equal. rewrite Hf. apply eq_bool_prop_intro.
  rewrite !Is_true_true, !Nat.ltb_lt. apply level_count_pos_iff.
Qed.

(** [height xs l]: level [l] is the lowest whose first node covers the leaves. *)
Definition height (n l : nat) : Prop := n ≤ 2 ^ l ∧ (l = 0 ∨ 2 ^ (l - 1) < n).

Lemma height_stored n l : 0 < n → height n l → 0 < level_count l n.
Proof.
  intros Hn [H1 H2]. destruct l as [|l]; [done|]. apply level_count_pos_iff.
  destruct H2 as [|H2]; [done|]. by replace (S l - 1) with l in H2 by lia.
Qed.

Lemma top_level_ok xs mt fuel l :
  levels_are (λ j, level_vals j xs) mt → length xs ≤ 2 ^ 18 →
  fuel + l = TREE_LEVELS → l ≤ 18 → (l = 0 ∨ 2 ^ (l - 1) < length xs) →
  ∃ l', top_level fuel l mt = Ok l' ∧ l' ≤ 18 ∧ height (length xs) l'.
Proof.
  intros Hmt Hn. revert l. induction fuel as [|fuel IH]; intros l Hf Hl Hlow.
  { unfold TREE_LEVELS in Hf. lia. }
  cbn [top_level].
  rewrite (hasNext_ok (length xs) _ _ _ Hmt) by (apply level_vals_length || unfold TREE_LEVELS; lia).
  cbn [mbind outcome_bind]. destruct (Nat.ltb_spec (2 ^ l) (length xs)) as [Hlt|Hge].
  - assert (l < 18) as H18 by (apply (Nat.pow_lt_mono_r_iff 2); lia).
    rewrite (proj2 (Nat.ltb_lt (S l) (TREE_LEVELS - 1))) by (unfold TREE_LEVELS; lia). cbn [andb].
    apply IH; [lia|lia|]. right. by replace (S l - 1) with l by lia.
  - rewrite andb_false_r. exists l. split; [done|]. split; [done|]. by split.
Qed.

(** Adding leaves one after the other. *)
Definition mt_add_all (debug : bool) (tags : list (list N)) (mt : mt_t) : outcome mt_t :=
  foldM (λ tag mt, r ← mt_add debug tag mt; CHECK (ok r.1);; Ok r.2) tags mt.

Definition tag_ok (tag : list N) : Prop :=
  length tag ≤ HASH_LENGTH ∧ Forall (λ b, b < 256)%N tag.

Lemma tags_hash_ok tags : Forall tag_ok tags → Forall hash_ok (mt_init_hash <$> tags).
Proof.
  intros H. apply Forall_fmap. eapply Forall_impl; [exact H|]. intros tag [H1 H2].
  by apply mt_init_hash_ok.
Qed.

Lemma mt_create_ok : tree_ok [] mt_create.
Proof.
  split; [done|]. split; [done|]. intros j Hj. exists mt_al_create. split.
  { unfold mt_create. cbn [mt_level]. by apply lookup_replicate_2. }
  split; [|by left]. destruct j as [|j]; [done|]. rewrite level_vals_above; [done|]. simpl. lia.
Qed.

Lemma mt_add_all_ok debug tags xs mt :
  tree_ok xs mt → Forall hash_ok xs → Forall tag_ok tags → length xs + length tags < 2 ^ 19 →
  ∃ mt', mt_add_all debug tags mt = Ok mt' ∧ tree_ok (xs ++ (mt_init_hash <$> tags)) mt'.
Proof.
  revert xs mt. induction tags as [|tag tags IH]; intros xs mt Hmt Hok Htags Hn.
  { exists mt. split; [done|]. by rewrite app_nil_r. }
  apply Forall_cons in Htags as [[Htl Htb] Htags]. cbn [length] in Hn. unfold mt_add_all.
  assert (Forall hash_ok (xs ++ [mt_init_hash tag])) as Hok'.
  { apply Forall_app. split; [done|]. repeat constructor; by apply mt_init_hash_ok. }
  destruct (mt_add_ok debug tag xs mt Hmt Hok' Htl) as (mt1 & E & H1); [lia|].
  cbn [foldM]. rewrite E. cbn [mbind outcome_bind fst snd ok CHECK].
  rewrite fmap_cons, (cons_middle (mt_init_hash tag) xs), app_assoc.
  apply IH; [done|done|done|]. rewrite ys_length. lia.
Qed.

Lemma mt_get_root_ok debug xs mt :
  tree_ok xs mt → xs ≠ [] → length xs ≤ 2 ^ 18 → mt_get_root debug mt = Ok (MT_SUCCESS, mroot xs).
Proof.
  intros [_ Hmt] Hne Hn. assert (0 < length xs) as H0 by (destruct xs; simpl; [done|lia]).
  destruct (top_level_ok xs mt TREE_LEVELS 0) as (l & El & Hl & Hh);
    [done|done|done|lia|by left|].
  unfold mt_get_root. rewrite El. cbn [mbind outcome_bind].
  destruct (get_level_ok _ mt l Hmt ltac:(unfold TREE_LEVELS; lia)) as (a & -> & Ha & _).
  cbn [mbind outcome_bind]. pose proof (level_count_le l (length xs)).
  assert (2 ^ 18 < 2 ^ 19) by (apply Nat.pow_lt_mono_r; lia).
  rewrite mt_al_get_ok by (rewrite Ha, level_vals_length; lia). cbn [mbind outcome_bind].
  rewrite Ha, level_vals_lookup by (by apply height_stored). cbn.
  by rewrite val_top by (by destruct Hh).
Qed.

(** C30: the root of the tree.  Up to 2^18 leaves, every [mt_add] succeeds, no
    assertion fails and no write leaves its array, and [mt_get_root] returns
    the root of the tree of RFC 6962's shape over the leaves, without the
    RFC's prefixes of leaves and nodes: a single leaf is its own root, and more
    leaves are split at the largest power of two below their number and the roots
    of the two parts hashed together with SHA-256. *)
Theorem merkle_root_correct debug tags :
  Forall tag_ok tags → tags ≠ [] → length tags ≤ 2 ^ 18 →
  let xs := mt_init_hash <$> tags in
  (∃ mt, mt_add_all debug tags mt_create = Ok mt ∧ mt_get_root debug mt = Ok (MT_SUCCESS, mroot xs)) ∧
  (∀ x, xs = [x] → mroot xs = x) ∧
  (∀ k, 2 ^ k < length xs ≤ 2 ^ S k →
     mroot xs = sha256 (mroot (take (2 ^ k) xs) ++ mroot (drop (2 ^ k) xs))).
Proof.
  intros Htags Hne Hn xs. split_and!.
  - assert (2 ^ 18 < 2 ^ 19) by (apply Nat.pow_lt_mono_r; lia).
    destruct (mt_add_all_ok debug tags [] mt_create mt_create_ok) as (mt & E & Hmt);
      [by constructor|done|rewrite Nat.add_0_l; lia|].
    exists mt. split; [done|]. apply (mt_get_root_ok debug xs); [exact Hmt| |unfold xs; rewrite length_fmap; exact Hn].
    by destruct tags.
  - by intros x ->.
  - intros k Hk. rewrite (mroot_split k xs Hk) at 1. unfold node_hash. exact eq_refl.
Qed.

Lemma merkle_root_correct_witness :
  ∃ mt, mt_add_all true [[1]; [2]; [3]]%N mt_create = Ok mt ∧
    mt_get_root true mt = Ok (MT_SUCCESS, mroot (mt_init_hash <$> [[1]; [2]; [3]]%N)).
Proof.
  apply (merkle_root_correct true [[1]; [2]; [3]]%N).
  - repeat (constructor; [split; [unfold HASH_LENGTH; simpl; lia|by repeat constructor]|]). constructor.
  - discriminate.
  - apply (Nat.le_trans _ (2 ^ 2)); [simpl; lia|]. apply Nat.pow_le_mono_r; lia.
Defined.

(** ** The path of a leaf *)
Section Path.
Context (debug : bool) (ys : list mt_hash_t) (o : nat).
Local Notation n := (length ys).
Context (Hok : Forall hash_ok ys) (Ho : o < n) (Hn : n ≤ 2 ^ 18).

(** Below level [l] the tree holds the nodes of [ys], save perhaps those above
    leaf [o]. *)
Definition siblings (l : nat) (mt : mt_t) : Prop :=
  ∀ j, j ≤ l → ∃ a, get_level j mt = Ok a ∧ length (al_store a) = level_count j n ∧
    ∀ i, i < level_count j n → i ≠ o / 2 ^ j → al_store a !! i = Some (val j i ys).

Lemma stored_small j : level_count j n < 2 ^ 19.
Proof.
  pose proof (level_count_le j n). assert (2 ^ 18 < 2 ^ 19) by (apply Nat.pow_lt_mono_r; lia). lia.
Qed.

Lemma findRightNeighbor_ok mt l p :
  siblings l mt → l < TREE_LEVELS → o < p * 2 ^ l →
  findRightNeighbor debug mt p l = Ok (if p * 2 ^ l <? n then Some (val l p ys) else None).
Proof.
  revert p. induction l as [|l IH]; intros p Hs Hl Hp.
  - destruct (Hs 0) as (a & Ea & Hla & Ha); [lia|]. cbn [findRightNeighbor]. rewrite Ea.
    cbn [mbind outcome_bind]. rewrite Hla. cbn [level_count]. rewrite Nat.pow_0_r, Nat.mul_1_r in Hp |- *.
    destruct (Nat.ltb_spec p n) as [Hlt|Hge]; [|done].
    rewrite mt_al_get_ok by (rewrite Hla; apply stored_small).
    rewrite Ha; [done|done|]. rewrite Nat.pow_0_r, Nat.div_1_r. lia.
  - destruct (Hs (S l)) as (a & Ea & Hla & Ha); [lia|]. cbn [findRightNeighbor]. rewrite Ea.
    cbn [mbind outcome_bind]. rewrite Hla.
    assert (2 * p * 2 ^ l = p * 2 ^ S l) as Hmul by (rewrite Nat.pow_succ_r'; lia).
    pose proof (Nat.pow_nonzero 2 l ltac:(lia)) as Hnz.
    destruct (Nat.ltb_spec p (level_count (S l) n)) as [Hlt|Hge].
    + rewrite mt_al_get_ok by (rewrite Hla; apply stored_small).
      rewrite (proj2 (Nat.ltb_lt (p * 2 ^ S l) n)) by (by apply level_count_pos).
      rewrite Ha; [done|done|]. intros ->. pose proof (div_pow_le o (S l)). lia.
    + rewrite (IH (2 * p)); [|intros j Hj; apply Hs; lia|lia|lia]. rewrite Hmul.
      destruct (Nat.ltb_spec (p * 2 ^ S l) n) as [Hlt|]; [|done].
      rewrite (val_lone l p); [done|]. apply Nat.nlt_ge. intros Hc. apply level_count_lt in Hc. lia.
Qed.

Lemma mt_climb_ok mt l :
  siblings l mt → l < TREE_LEVELS →
  mt_climb debug mt (o / 2 ^ l) l (val l (o / 2 ^ l) ys) =
    Ok (MT_SUCCESS, val (S l) (o / 2 ^ S l) ys).
Proof.
  intros Hs Hl. rewrite <-div_pow_succ. pose proof (div_pow_le o l) as Hq.
  pose proof (Nat.pow_nonzero 2 l ltac:(lia)) as Hp.
  pose proof (Nat.mod_upper_bound o (2 ^ l) Hp). pose proof (Nat.div_mod_eq o (2 ^ l)).
  set (q := o / 2 ^ l) in *. unfold mt_climb, mt_left. destruct (Nat.odd q) eqn:E; cbn [negb].
  - pose proof (odd_div _ E) as Hodd. destruct (Hs l) as (a & -> & Hla & Ha); [lia|].
    cbn [mbind outcome_bind]. rewrite mt_al_get_ok by (rewrite Hla; apply stored_small).
    cbn [mbind outcome_bind]. rewrite Ha; [|apply left_sibling; lia|unfold q in *; lia].
    cbn [mt_hash_ptr]. rewrite mt_hash_node; [|apply val_ok; [nia|done]|apply val_ok; [lia|done]].
    rewrite (val_pair l (q / 2)); [|rewrite <-Hodd; lia]. rewrite <-Hodd.
    by replace (2 * (q / 2)) with (q - 1) by lia.
  - pose proof (even_div _ E) as Hev.
    rewrite (findRightNeighbor_ok mt l (q + 1) Hs Hl) by nia. cbn [mbind outcome_bind].
    destruct (Nat.ltb_spec ((q + 1) * 2 ^ l) n) as [Hlt|Hge].
    + rewrite mt_hash_node; [|apply val_ok; [lia|done]|apply val_ok; [lia|done]].
      rewrite (val_pair l (q / 2)); rewrite <-Hev; done.
    + rewrite (val_lone l (q / 2)); rewrite <-Hev; done.
Qed.

End Path.

(** Nodes beside the path do not depend on the leaf. *)
Lemma val_insert xs o x l i :
  i ≠ o / 2 ^ l → val l i (<[o := x]> xs) = val l i xs.
Proof.
  intros Hne. unfold val. f_equal. unfold segment. pose proof (Nat.pow_nonzero 2 l ltac:(lia)) as Hp.
  pose proof (Nat.div_mod_eq o (2 ^ l)). pose proof (Nat.mod_upper_bound o (2 ^ l) Hp).
  destruct (Nat.lt_ge_cases o (i * 2 ^ l)) as [Hlt|Hge]; [by rewrite drop_insert_lt|].
  rewrite drop_insert_ge by done. apply take_insert_ge.
  assert ((i + 1) * 2 ^ l ≤ (o / 2 ^ l) * 2 ^ l); [|nia]. apply Nat.mul_le_mono_r.
  assert (i ≤ o / 2 ^ l) by (apply Nat.div_le_lower_bound; lia). lia.
Qed.

Lemma level_vals_insert xs o x l :
  level_vals l (<[o := x]> xs) = <[o / 2 ^ l := val l (o / 2 ^ l) (<[o := x]> xs)]> (level_vals l xs).
Proof.
  apply list_eq. intros i. destruct (Nat.lt_ge_cases i (level_count l (length xs))) as [Hi|Hi].
  - rewrite level_vals_lookup by (by rewrite length_insert).
    destruct (decide (i = o / 2 ^ l)) as [->|Hne].
    + by rewrite list_lookup_insert_eq by (by rewrite level_vals_length).
    + rewrite list_lookup_insert_ne, level_vals_lookup by done. by rewrite val_insert.
  - rewrite !lookup_ge_None_2; [done| |].
    + by rewrite length_insert, level_vals_length.
    + by rewrite level_vals_length, length_insert.
Qed.

Section Verify.
Context (debug : bool) (xs : list mt_hash_t) (o : nat) (x : mt_hash_t).
Local Notation ys := (<[o := x]> xs).
Local Notation n := (length xs).
Context (Hok : Forall hash_ok xs) (Hx : hash_ok x) (Ho : o < n) (Hn : n ≤ 2 ^ 18).

Lemma updated_ok : Forall hash_ok ys.
Proof. by apply Forall_insert. Qed.

Lemma path_start : val 0 (o / 2 ^ 0) ys = x.
Proof.
  rewrite Nat.pow_0_r, Nat.div_1_r.
  pose proof (level_vals_lookup 0 ys o) as Hv. rewrite level_vals_leaves, length_insert in Hv.
  rewrite list_lookup_insert_eq in Hv by done. specialize (Hv Ho). by injection Hv as <-.
Qed.

(** The levels up to [l] updated, the others not yet. *)
Definition umix (l j : nat) : list mt_hash_t := if j <=? l then level_vals j ys else level_vals j xs.

Lemma umix_length l j : length (umix l j) = level_count j n.
Proof. unfold umix. destruct (_ <=? _); by rewrite level_vals_length, ?length_insert. Qed.

Lemma siblings_old f mt l :
  levels_are f mt → l < TREE_LEVELS → (∀ j, length (f j) = level_count j n) →
  (∀ j i, j ≤ l → i < level_count j n → i ≠ o / 2 ^ j → f j !! i = Some (val j i ys)) →
  siblings ys o l mt.
Proof.
  intros Hmt Hl Hlen Hf j Hj. rewrite length_insert.
  destruct (get_level_ok _ _ j Hmt) as (a & Ea & Ha & _); [lia|]. exists a. rewrite Ha.
  split; [done|]. split; [apply Hlen|]. intros i Hi Hne. by apply Hf.
Qed.

Lemma mt_verify_loop_ok mt fuel l :
  levels_are (λ j, level_vals j xs) mt → fuel + l = TREE_LEVELS → l ≤ 18 →
  (l = 0 ∨ 2 ^ (l - 1) < n) →
  ∃ l', mt_verify_loop debug fuel (o / 2 ^ l) l (val l (o / 2 ^ l) ys) mt =
      Ok (MT_SUCCESS, val l' 0 ys, 0, l') ∧ l' ≤ 18 ∧ height n l'.
Proof.
  intros Hmt. revert l. induction fuel as [|fuel IH]; intros l Hf Hl Hlow.
  { unfold TREE_LEVELS in Hf. lia. }
  cbn [mt_verify_loop].
  rewrite (hasNext_ok n _ _ _ Hmt) by (apply level_vals_length || unfold TREE_LEVELS; lia).
  cbn [mbind outcome_bind]. destruct (Nat.ltb_spec (2 ^ l) n) as [Hlt|Hge].
  - assert (l < 18) as H18 by (apply (Nat.pow_lt_mono_r_iff 2); lia).
    rewrite (proj2 (Nat.ltb_lt (S l) (TREE_LEVELS - 1))) by (unfold TREE_LEVELS; lia). cbn [andb negb].
    rewrite (mt_climb_ok debug ys o updated_ok); rewrite ?length_insert; [|done|exact Hn| |lia].
    + cbn [mbind outcome_bind fst snd ok negb]. rewrite div_pow_succ. apply IH; [lia|lia|].
      right. by replace (S l - 1) with l by lia.
    + apply (siblings_old _ _ _ Hmt); [lia|intros j; apply level_vals_length|].
      intros j i _ Hi Hne. by rewrite level_vals_lookup, val_insert.
  - rewrite andb_false_r. cbn [negb]. exists l. rewrite Nat.div_small by lia. by split_and!.
Qed.

Lemma mt_update_loop_ok mt fuel l :
  levels_are (umix l) mt → fuel + l = TREE_LEVELS → l ≤ 18 → (l = 0 ∨ 2 ^ (l - 1) < n) →
  ∃ l' mt', mt_update_loop debug fuel (o / 2 ^ l) l (val l (o / 2 ^ l) ys) mt =
      Ok (MT_SUCCESS, val l' 0 ys, 0, l', mt') ∧ l' ≤ 18 ∧ height n l' ∧
    mt_elems mt' = mt_elems mt ∧ levels_are (umix l') mt'.
Proof.
  revert l mt. induction fuel as [|fuel IH]; intros l mt Hmt Hf Hl Hlow.
  { unfold TREE_LEVELS in Hf. lia. }
  cbn [mt_update_loop].
  rewrite (hasNext_ok n _ _ _ Hmt) by (apply umix_length || unfold TREE_LEVELS; lia).
  cbn [mbind outcome_bind]. destruct (Nat.ltb_spec (2 ^ l) n) as [Hlt|Hge].
  - assert (l < 18) as H18 by (apply (Nat.pow_lt_mono_r_iff 2); lia).
    rewrite (proj2 (Nat.ltb_lt (S l) (TREE_LEVELS - 1))) by (unfold TREE_LEVELS; lia). cbn [andb negb].
    rewrite (mt_climb_ok debug ys o updated_ok); rewrite ?length_insert; [|done|exact Hn| |lia].
    + cbn [mbind outcome_bind fst snd ok negb]. rewrite div_pow_succ.
      destruct (on_level_ok _ mt (S l) (mt_al_update_if_exists debug (val (S l) (o / 2 ^ S l) ys)
        (o / 2 ^ S l)) (level_vals (S l) ys) Hmt)
        as (mt1 & -> & He & H1); [unfold TREE_LEVELS; lia| |].
      { intros a Ha Haok. unfold umix in Ha. rewrite (proj2 (Nat.leb_gt (S l) l)) in Ha by lia.
        unfold mt_al_update_if_exists. rewrite al_assert_ok.
        2:{ apply elems_small. rewrite Ha, level_vals_length. apply (stored_small xs o Ho Hn). }
        cbn [mbind outcome_bind]. rewrite level_vals_insert.
        destruct (Nat.leb_spec (length (al_store a)) (o / 2 ^ S l)) as [Hc|Hc]; eexists; split; try done.
        - rewrite list_insert_ge by (by rewrite <-Ha). done.
        - split; [by cbn [al_set al_store]; rewrite Ha | by apply al_set_ok]. }
      cbn [mbind outcome_bind fst snd ok negb].
      destruct (IH (S l) mt1) as (l' & mt' & -> & ? & ? & ? & ?).
      * eapply levels_are_ext; [|exact H1]. intros j _. unfold umix.
        destruct (Nat.eqb_spec j (S l)) as [->|Hne]; [by rewrite Nat.leb_refl|].
        destruct (Nat.leb_spec j l), (Nat.leb_spec j (S l)); done || lia.
      * lia.
      * lia.
      * right. by replace (S l - 1) with l by lia.
      * exists l', mt'. split_and!; try done. congruence.
    + apply (siblings_old _ _ _ Hmt); [lia|intros j; apply umix_length|].
      intros j i Hj Hi Hne. unfold umix. rewrite (proj2 (Nat.leb_le j l) Hj).
      by rewrite level_vals_lookup by (by rewrite length_insert).
  - rewrite andb_false_r. cbn [negb]. exists l, mt. rewrite Nat.div_small by lia. by split_and!.
Qed.

End Verify.

(** Two different lists of leaves with the same root contain a collision: go down
    to the highest node that the two trees hash from different children, and take
    the two inputs of the hash there. *)
Definition node_input (l : nat) (xs : list mt_hash_t) : list N :=
  node l (take (2 ^ l) xs) ++ node l (drop (2 ^ l) xs).

Fixpoint collision (l : nat) (xs ys : list mt_hash_t) : list N * list N :=
  match l with
  | O => ([], [])
  | S l' =>
      if length xs <=? 2 ^ l' then collision l' xs ys
      else if decide (node_input l' xs = node_input l' ys) then
        if decide (take (2 ^ l') xs = take (2 ^ l') ys) then collision l' (drop (2 ^ l') xs) (drop (2 ^ l') ys)
        else collision l' (take (2 ^ l') xs) (take (2 ^ l') ys)
      else (node_input l' xs, node_input l' ys)
  end.

(** Different strings of 64 bytes with the same digest. *)
Definition colliding (ab : list N * list N) : Prop :=
  ab.1 ≠ ab.2 ∧ sha256 ab.1 = sha256 ab.2 ∧
  (length ab.1 = 64 ∧ Forall (λ b, b < 256)%N ab.1) ∧ (length ab.2 = 64 ∧ Forall (λ b, b < 256)%N ab.2).

Lemma node_input_ok l xs :
  Forall hash_ok xs → 2 ^ l < length xs →
  length (node_input l xs) = 64 ∧ Forall (λ b, b < 256)%N (node_input l xs) ∧
  length (node l (take (2 ^ l) xs)) = 32.
Proof.
  intros Hx Hl. pose proof (Nat.pow_nonzero 2 l ltac:(lia)) as Hp.
  destruct (node_ok l (take (2 ^ l) xs)) as [L1 F1]; [|by apply Forall_take|].
  { intros Hz. apply (f_equal length) in Hz. rewrite length_take in Hz. simpl in Hz. lia. }
  destruct (node_ok l (drop (2 ^ l) xs)) as [L2 F2]; [|by apply Forall_drop|].
  { intros Hz. apply (f_equal length) in Hz. rewrite length_drop in Hz. simpl in Hz. lia. }
  unfold node_input. rewrite length_app, L1, L2. split_and!; [done|by apply Forall_app|done].
Qed.

Lemma node_collision l xs ys :
  Forall hash_ok xs → Forall hash_ok ys → length xs = length ys → length xs ≤ 2 ^ l →
  xs ≠ ys → node l xs = node l ys → colliding (collision l xs ys).
Proof.
  revert xs ys. induction l as [|l IH]; intros xs ys Hx Hy Hlen Hle Hne Heq.
  { destruct xs as [|x [|]], ys as [|y [|]]; simpl in *; try lia; congruence. }
  cbn [node collision] in Heq |- *. rewrite <-Hlen in Heq. rewrite Nat.pow_succ_r' in Hle.
  destruct (Nat.leb_spec (length xs) (2 ^ l)) as [Hs|Hs]; [by apply (IH xs ys)|].
  destruct (node_input_ok l xs Hx Hs) as (A1 & A2 & A3).
  destruct (node_input_ok l ys Hy ltac:(lia)) as (B1 & B2 & B3).
  destruct (decide (node_input l xs = node_input l ys)) as [E|E]; [|by split_and!].
  apply app_inj_1 in E as [El Er]; [|congruence].
  destruct (decide (take (2 ^ l) xs = take (2 ^ l) ys)) as [Et|Et].
  - apply IH; rewrite ?length_drop; [by apply Forall_drop|by apply Forall_drop|lia|lia| |done].
    intros Ed. apply Hne. rewrite <-(take_drop (2 ^ l) xs), <-(take_drop (2 ^ l) ys). congruence.
  - apply IH; rewrite ?length_take; [by apply Forall_take|by apply Forall_take|lia|lia|done|done].
Qed.

Lemma mt_verify_ok debug xs mt tag o :
  tree_ok xs mt → Forall hash_ok xs → tag_ok tag → o < length xs → length xs ≤ 2 ^ 18 →
  mt_verify debug tag o mt =
    Ok (if bool_decide (mroot (<[o := mt_init_hash tag]> xs) = mroot xs)
        then MT_SUCCESS else MT_ERR_ROOT_MISMATCH).
Proof.
  intros [He Hmt] Hok [Htl Htb] Ho Hn. unfold mt_verify. rewrite He.
  rewrite (proj2 (Nat.ltb_ge HASH_LENGTH (length tag)) Htl), (proj2 (Nat.leb_gt _ _) Ho). cbn [orb].
  destruct (mt_verify_loop_ok debug xs o (mt_init_hash tag) Hok (mt_init_hash_ok _ Htl Htb) Ho Hn mt
    TREE_LEVELS 0 Hmt) as (l & E & Hl & Hh); [done|lia|by left|].
  rewrite path_start, Nat.pow_0_r, Nat.div_1_r in E by done. rewrite E.
  cbn [mbind outcome_bind ok negb].
  destruct (get_level_ok _ mt l Hmt ltac:(unfold TREE_LEVELS; lia)) as (a & -> & Ha & _).
  cbn [mbind outcome_bind].
  rewrite mt_al_get_ok by (rewrite Ha, level_vals_length; apply (stored_small xs o Ho Hn)).
  cbn [mbind outcome_bind]. rewrite Ha, level_vals_lookup by (apply height_stored; [lia|done]).
  cbn [deref mbind outcome_bind]. destruct Hh as [Hh _].
  by rewrite !val_top by (rewrite ?length_insert; done).
Qed.

(** C31: verification is sound and complete.  In a tree built from at most 2^18
    leaves, [mt_verify] of a tag at the position of a leaf returns without a
    fault; it accepts exactly when the tree with the tag in place of the leaf has
    the same root, in particular it accepts the leaf itself.  If it accepts
    anything else, [collision] computes from the leaves and the tag two
    different strings of 64 bytes, inputs of the two trees at the same node, with
    the same SHA-256 digest. *)
Theorem merkle_verify_sound debug tags mt tag o :
  Forall tag_ok tags → length tags ≤ 2 ^ 18 → mt_add_all debug tags mt_create = Ok mt →
  tag_ok tag → o < length tags →
  let xs := mt_init_hash <$> tags in
  let claimed := <[o := mt_init_hash tag]> xs in
  mt_verify debug tag o mt =
    Ok (if bool_decide (mroot claimed = mroot xs) then MT_SUCCESS else MT_ERR_ROOT_MISMATCH) ∧
  (xs !! o = Some (mt_init_hash tag) → mt_verify debug tag o mt = Ok MT_SUCCESS) ∧
  (mt_verify debug tag o mt = Ok MT_SUCCESS → xs !! o ≠ Some (mt_init_hash tag) →
     colliding (collision (Nat.log2_up (length xs)) claimed xs)).
Proof.
  intros Htags Hn Hmt Htag Ho xs claimed.
  assert (2 ^ 18 < 2 ^ 19) as H19 by (apply Nat.pow_lt_mono_r; lia).
  destruct (mt_add_all_ok debug tags [] mt_create mt_create_ok) as (mt1 & E & Htree);
    [by constructor|done|rewrite Nat.add_0_l; lia|].
  rewrite Hmt in E. injection E as <-. rewrite app_nil_l in Htree. fold xs in Htree.
  assert (length xs = length tags) as Hlen by apply length_fmap. rewrite <-Hlen in Hn, Ho.
  pose proof (tags_hash_ok tags Htags) as Hok. fold xs in Hok.
  rewrite (mt_verify_ok debug xs mt tag o Htree Hok Htag Ho Hn). fold claimed. split_and!; [done| |].
  - intros Hx. unfold claimed. rewrite list_insert_id by done. by rewrite bool_decide_true.
  - case_bool_decide as Hr; [intros _ Hne|done].
    assert (length claimed = length xs) as Hc by apply length_insert.
    assert (length xs ≤ 2 ^ Nat.log2_up (length xs)) as Hl.
    { destruct (decide (length xs = 1)) as [->|]; [done|]. apply Nat.log2_up_spec. lia. }
    apply node_collision; [|done|done|by rewrite Hc| |].
    + apply Forall_insert; [done|]. destruct Htag. by apply mt_init_hash_ok.
    + intros Heq. apply Hne. rewrite <-Heq. by apply list_lookup_insert_eq.
    + by rewrite !node_mroot by (rewrite ?Hc; exact Hl).
Qed.

Definition demo_tree : mt_t :=
  match mt_add_all true [[1]; [2]; [3]]%N mt_create with Ok mt => mt | Fatal _ => mt_create end.

Lemma merkle_verify_sound_witness : mt_verify true [3]%N 2 demo_tree = Ok MT_SUCCESS.
Proof.
  apply (merkle_verify_sound true [[1]; [2]; [3]]%N demo_tree [3]%N 2).
  - repeat (constructor; [split; [unfold HASH_LENGTH; simpl; lia|by repeat constructor]|]). constructor.
  - apply (Nat.le_trans _ (2 ^ 2)); [simpl; lia|]. apply Nat.pow_le_mono_r; lia.
  - vm_compute. reflexivity.
  - split; [unfold HASH_LENGTH; simpl; lia|by repeat constructor].
  - simpl. lia.
  - reflexivity.
Defined.

(** an update replaces the leaf: [mt_update] succeeds and leaves the tree of
    the updated leaves, so the root, later verifications and later additions
    are those of a tree built with the new leaf in the first place. *)
Theorem merkle_update_correct debug xs mt tag o :
  tree_ok xs mt → Forall hash_ok xs → tag_ok tag → o < length xs → length xs ≤ 2 ^ 18 →
  ∃ mt', mt_update debug tag o mt = Ok (MT_SUCCESS, mt') ∧
    tree_ok (<[o := mt_init_hash tag]> xs) mt' ∧
    mt_get_root debug mt' = Ok (MT_SUCCESS, mroot (<[o := mt_init_hash tag]> xs)).
Proof.
  intros [He Hmt] Hok [Htl Htb] Ho Hn. unfold mt_update. rewrite He.
  rewrite (proj2 (Nat.ltb_ge HASH_LENGTH (length tag)) Htl), (proj2 (Nat.leb_gt _ _) Ho). cbn [orb].
  set (x := mt_init_hash tag). assert (2 ^ 18 < 2 ^ 19) as H19 by (apply Nat.pow_lt_mono_r; lia).
  destruct (on_level_ok _ mt 0 (mt_al_update debug x o) (<[o := x]> xs) Hmt
    ltac:(unfold TREE_LEVELS; lia)) as (mt1 & -> & He1 & H1).
  { intros a Ha Haok. rewrite level_vals_leaves in Ha. unfold mt_al_update.
    rewrite al_assert_ok by (apply elems_small; rewrite Ha; lia). cbn [mbind outcome_bind].
    rewrite (proj2 (Nat.ltb_lt o (length (al_store a)))) by (by rewrite Ha). eexists. split; [done|].
    split; [by cbn [al_set al_store]; rewrite Ha|by apply al_set_ok]. }
  cbn [mbind outcome_bind fst snd ok negb].
  destruct (mt_update_loop_ok debug xs o x Hok (mt_init_hash_ok _ Htl Htb) Ho Hn mt1 TREE_LEVELS 0)
    as (l & mt2 & E & Hl & Hh & He2 & H2); [|done|lia|by left|].
  { eapply levels_are_ext; [|exact H1]. intros [|j] _; unfold umix; cbn [Nat.eqb Nat.leb];
      [by rewrite level_vals_leaves|done]. }
  rewrite path_start, Nat.pow_0_r, Nat.div_1_r in E by done. rewrite E.
  cbn [mbind outcome_bind ok negb].
  assert (levels_are (λ j, level_vals j (<[o := x]> xs)) mt2) as H3.
  { eapply levels_are_ext; [|exact H2]. intros j _. unfold umix.
    destruct (Nat.leb_spec j l) as [|Hj]; [done|]. destruct j as [|j]; [lia|]. destruct Hh as [Hh _].
    assert (2 ^ l ≤ 2 ^ j) by (apply Nat.pow_le_mono_r; lia).
    by rewrite !level_vals_above by (rewrite ?length_insert; lia). }
  assert (tree_ok (<[o := x]> xs) mt2) as H4.
  { split; [|done]. rewrite He2, He1, length_insert. exact He. }
  rewrite assert_stored_ok; rewrite ?length_insert; [|done|unfold TREE_LEVELS; lia|lia|].
  - eexists. split; [done|]. split; [done|]. apply mt_get_root_ok; [done| |rewrite length_insert; exact Hn].
    intros Hz. apply (f_equal length) in Hz. rewrite length_insert in Hz. simpl in Hz. lia.
  - apply height_stored; [lia|done].
Qed.

Lemma demo_tree_ok : tree_ok (mt_init_hash <$> [[1]; [2]; [3]]%N) demo_tree.
Proof.
  assert (Forall tag_ok [[1]; [2]; [3]]%N) as Htags.
  { repeat (constructor; [split; [unfold HASH_LENGTH; simpl; lia|by repeat constructor]|]). constructor. }
  destruct (mt_add_all_ok true [[1]; [2]; [3]]%N [] mt_create mt_create_ok (Forall_nil_2 _) Htags)
    as (mt & E & Hmt).
  { apply (Nat.lt_le_trans _ (2 ^ 2)); [simpl; lia|]. apply Nat.pow_le_mono_r; lia. }
  unfold demo_tree. rewrite E. exact Hmt.
Qed.

Lemma merkle_update_correct_witness :
  ∃ mt', mt_update true [9]%N 1 demo_tree = Ok (MT_SUCCESS, mt') ∧
    tree_ok (<[1 := mt_init_hash [9]%N]> (mt_init_hash <$> [[1]; [2]; [3]]%N)) mt' ∧
    mt_get_root true mt' =
      Ok (MT_SUCCESS, mroot (<[1 := mt_init_hash [9]%N]> (mt_init_hash <$> [[1]; [2]; [3]]%N))).
Proof.
  apply (merkle_update_correct true (mt_init_hash <$> [[1]; [2]; [3]]%N) demo_tree [9]%N 1).
  - exact demo_tree_ok.
  - apply tags_hash_ok.
    repeat (constructor; [split; [unfold HASH_LENGTH; simpl; lia|by repeat constructor]|]). constructor.
  - split; [unfold HASH_LENGTH; simpl; lia|by repeat constructor].
  - simpl. lia.
  - apply (Nat.le_trans _ (2 ^ 2)); [simpl; lia|]. apply Nat.pow_le_mono_r; lia.
Defined.

(** The root of an empty tree is read through a null pointer. *)
Example empty_root_faults : mt_get_root true mt_create = Fatal NullDeref.
Proof. vm_compute. reflexivity. Qed.

Lemma top_level_capped xs mt fuel l :
  levels_are (λ j, level_vals j xs) mt → 2 ^ 18 < length xs → fuel + l = TREE_LEVELS → l ≤ 18 →
  top_level fuel l mt = Ok 18.
Proof.
  intros Hmt Hn. revert l. induction fuel as [|fuel IH]; intros l Hf Hl.
  { unfold TREE_LEVELS in Hf. lia. }
  cbn [top_level].
  rewrite (hasNext_ok (length xs) _ _ _ Hmt) by (apply level_vals_length || unfold TREE_LEVELS; lia).
  cbn [mbind outcome_bind].
  assert (2 ^ l ≤ 2 ^ 18) as Hp by (apply Nat.pow_le_mono_r; lia).
  rewrite (proj2 (Nat.ltb_lt (2 ^ l) (length xs))) by lia. rewrite andb_true_r.
  destruct (Nat.ltb_spec (S l) (TREE_LEVELS - 1)) as [Hlt|Hge]; unfold TREE_LEVELS in *.
  - apply IH; lia.
  - f_equal. lia.
Qed.

(** beyond 2^18 leaves [mt_get_root] succeeds with the root of the first 2^18
    leaves only: it never looks at the topmost level, so two blocks that agree
    on their first 2^18 transactions have the same root. *)
Theorem merkle_root_capped debug xs mt :
  tree_ok xs mt → 2 ^ 18 < length xs < 2 ^ 19 →
  mt_get_root debug mt = Ok (MT_SUCCESS, mroot (take (2 ^ 18) xs)).
Proof.
  intros [_ Hmt] [H1 H2]. unfold mt_get_root.
  rewrite (top_level_capped xs mt TREE_LEVELS 0 Hmt H1) by lia. cbn [mbind outcome_bind].
  destruct (get_level_ok _ mt 18 Hmt ltac:(unfold TREE_LEVELS; lia)) as (a & -> & Ha & _).
  cbn [mbind outcome_bind]. pose proof (level_count_le 18 (length xs)).
  rewrite mt_al_get_ok by (rewrite Ha, level_vals_length; lia). cbn [mbind outcome_bind].
  assert (2 ^ 17 < 2 ^ 18) by (apply Nat.pow_lt_mono_r; lia).
  rewrite Ha, level_vals_lookup by (apply level_count_pos_iff; lia). cbn [deref mbind outcome_bind].
  unfold val, segment. rewrite Nat.mul_0_l, drop_0, node_mroot by (rewrite length_take; lia). done.
Qed.

Lemma merkle_root_capped_witness :
  ∃ mt, mt_add_all false (replicate (2 ^ 18 + 1) [7]%N) mt_create = Ok mt ∧
    mt_get_root false mt =
      Ok (MT_SUCCESS, mroot (take (2 ^ 18) (mt_init_hash <$> replicate (2 ^ 18 + 1) [7]%N))).
Proof.
  assert (2 ^ 18 + 1 < 2 ^ 19) as Hlt.
  { rewrite (Nat.pow_succ_r' 2 18). assert (2 ^ 1 ≤ 2 ^ 18) by (apply Nat.pow_le_mono_r; lia).
    rewrite Nat.pow_1_r in *. lia. }
  destruct (mt_add_all_ok false (replicate (2 ^ 18 + 1) [7]%N) [] mt_create mt_create_ok)
    as (mt & E & Hmt).
  - constructor.
  - apply Forall_replicate. split; [unfold HASH_LENGTH; simpl; lia|by repeat constructor].
  - rewrite length_replicate, Nat.add_0_l. exact Hlt.
  - exists mt. split; [exact E|]. apply merkle_root_capped; [exact Hmt|].
    rewrite length_fmap, length_replicate. lia.
Defined.
