(* ===== verification/Base64.v ===== *)
(** * Base 64

    [src/common/base64.cpp].  Characters and bytes are [N]; [throw] is [None].
    The encoder's [unsigned int pos] is compared with a [size_t] length, so
    inputs are shorter than 4 GiB.

    The theorem: what the encoder writes, in either alphabet and with or
    without line breaks, the decoder reads back. *)
From S2P Require Import Prelude.
From Stdlib Require Import NArith Lia Ascii String.
From stdpp Require Import base list strings.

Local Open Scope N_scope.

(** The alphabets differ in the last two characters. *)
Definition base64_chars (url : bool) : list N :=
  bytes_of ("ABCDEFGHIJKLMNOPQRSTUVWXYZ" +:+ "abcdefghijklmnopqrstuvwxyz" +:+ "0123456789" +:+
            if url then "-_" else "+/").

Definition char_at (url : bool) (i : N) : N := default 0 (base64_chars url !! N.to_nat i).

Definition between (a c b : N) : bool := (a <=? c) && (c <=? b).

Definition pos_of_char (chr : N) : option N :=
  if between 65 chr 90 then Some (chr - 65)
  else if between 97 chr 122 then Some (chr - 97 + (90 - 65) + 1)
  else if between 48 chr 57 then Some (chr - 48 + (90 - 65) + (122 - 97) + 2)
  else if (chr =? 43) || (chr =? 45) then Some 62
  else if (chr =? 47) || (chr =? 95) then Some 63
  else None.

Definition trailing_char (url : bool) : N := if url then 46 else 61.

(** Three bytes to four characters; the last group is padded. *)
Fixpoint base64_encode (url : bool) (bytes : list N) : list N :=
  let at_ := char_at url in
  match bytes with
  | [] => []
  | [b0] =>
      [at_ (N.shiftr (N.land b0 0xfc) 2); at_ (N.shiftl (N.land b0 0x03) 4);
       trailing_char url; trailing_char url]
  | [b0; b1] =>
      [at_ (N.shiftr (N.land b0 0xfc) 2);
       at_ (N.shiftl (N.land b0 0x03) 4 + N.shiftr (N.land b1 0xf0) 4);
       at_ (N.shiftl (N.land b1 0x0f) 2); trailing_char url]
  | b0 :: b1 :: b2 :: rest =>
      at_ (N.shiftr (N.land b0 0xfc) 2) ::
      at_ (N.shiftl (N.land b0 0x03) 4 + N.shiftr (N.land b1 0xf0) 4) ::
      at_ (N.shiftl (N.land b1 0x0f) 2 + N.shiftr (N.land b2 0xc0) 6) ::
      at_ (N.land b2 0x3f) :: base64_encode url rest
  end.

Definition to_char (n : N) : N := n mod 2 ^ 8.
Definition is_pad (c : N) : bool := (c =? 61) || (c =? 46).

(** One chunk of the decoder.  [encoded_string[pos + 1]] is the terminating
    zero when the string ends there; the third and fourth characters may be
    missing. *)
Definition decode_chunk (c0 c1 : N) (c2 c3 : option N) : option (list N) :=
  p1 ← pos_of_char c1;
  p0 ← pos_of_char c0;
  let first := to_char (N.shiftl p0 2 + N.shiftr (N.land p1 0x30) 4) in
  match c2 with
  | Some c2 =>
      if is_pad c2 then Some [first]
      else
        p2 ← pos_of_char c2;
        let second := to_char (N.shiftl (N.land p1 0x0f) 4 + N.shiftr (N.land p2 0x3c) 2) in
        match c3 with
        | Some c3 =>
            if is_pad c3 then Some [first; second]
            else p3 ← pos_of_char c3; Some [first; second; to_char (N.shiftl (N.land p2 0x03) 6 + p3)]
        | None => Some [first; second]
        end
  | None => Some [first]
  end.

Fixpoint decode_loop (s : list N) : option (list N) :=
  match s with
  | [] => Some []
  | [c0] => decode_chunk c0 0 None None
  | [c0; c1] => decode_chunk c0 c1 None None
  | [c0; c1; c2] => decode_chunk c0 c1 (Some c2) None
  | c0 :: c1 :: c2 :: c3 :: rest =>
      chunk ← decode_chunk c0 c1 (Some c2) (Some c3);
      ret ← decode_loop rest;
      Some (chunk ++ ret)
  end.

Definition base64_decode (remove_linebreaks : bool) (s : list N) : option (list N) :=
  if remove_linebreaks then decode_loop (filter (λ c, c ≠ 10) s) else decode_loop s.

(** [None] when the fuel does not suffice. *)
Fixpoint linebreak_loop (fuel : nat) (pos distance : nat) (str : list N) : option (list N) :=
  if (pos <? length str)%nat then
    match fuel with
    | O => None
    | S fuel' =>
        linebreak_loop fuel' (pos + distance + 1) distance (take pos str ++ 10 :: drop pos str)
    end
  else Some str.

Definition insert_linebreaks (str : list N) (distance : nat) : option (list N) :=
  match str with [] => Some [] | _ => linebreak_loop (length str) distance distance str end.

Definition encode_with_line_breaks (line_length : nat) (s : list N) : option (list N) :=
  insert_linebreaks (base64_encode false s) line_length.
Definition base64_encode_pem (s : list N) : option (list N) := encode_with_line_breaks 64 s.
Definition base64_encode_mime (s : list N) : option (list N) := encode_with_line_breaks 76 s.

(** ** Bit fields of a byte *)

(** A fact about every number below a bound, by enumeration. *)
Lemma below_forall (n : nat) (f : N → bool) :
  forallb f (N.of_nat <$> seq 0 n) = true → ∀ b, b < N.of_nat n → f b = true.
Proof.
  intros H b Hb. rewrite forallb_forall in H. apply H. apply list_elem_of_In.
  apply list_elem_of_fmap. exists (N.to_nat b). split; [lia|]. apply elem_of_seq. lia.
Qed.

Ltac enum n f := apply N.eqb_eq; apply (below_forall n f); [vm_compute; reflexivity|assumption].

Lemma high6 b : b < 256 → N.shiftr (N.land b 0xfc) 2 = b / 4.
Proof. intros Hb. enum 256%nat (λ b, N.shiftr (N.land b 0xfc) 2 =? b / 4). Qed.
Lemma low2 b : b < 256 → N.shiftl (N.land b 0x03) 4 = b mod 4 * 16.
Proof. intros Hb. enum 256%nat (λ b, N.shiftl (N.land b 0x03) 4 =? b mod 4 * 16). Qed.
Lemma high4 b : b < 256 → N.shiftr (N.land b 0xf0) 4 = b / 16.
Proof. intros Hb. enum 256%nat (λ b, N.shiftr (N.land b 0xf0) 4 =? b / 16). Qed.
Lemma low4 b : b < 256 → N.shiftl (N.land b 0x0f) 2 = b mod 16 * 4.
Proof. intros Hb. enum 256%nat (λ b, N.shiftl (N.land b 0x0f) 2 =? b mod 16 * 4). Qed.
Lemma high2 b : b < 256 → N.shiftr (N.land b 0xc0) 6 = b / 64.
Proof. intros Hb. enum 256%nat (λ b, N.shiftr (N.land b 0xc0) 6 =? b / 64). Qed.
Lemma low6 b : b < 256 → N.land b 0x3f = b mod 64.
Proof. intros Hb. enum 256%nat (λ b, N.land b 0x3f =? b mod 64). Qed.

Lemma sext_high2 p : p < 64 → N.shiftr (N.land p 0x30) 4 = p / 16.
Proof. intros Hb. enum 64%nat (λ p, N.shiftr (N.land p 0x30) 4 =? p / 16). Qed.
Lemma sext_low4 p : p < 64 → N.shiftl (N.land p 0x0f) 4 = p mod 16 * 16.
Proof. intros Hb. enum 64%nat (λ p, N.shiftl (N.land p 0x0f) 4 =? p mod 16 * 16). Qed.
Lemma sext_high4 p : p < 64 → N.shiftr (N.land p 0x3c) 2 = p / 4.
Proof. intros Hb. enum 64%nat (λ p, N.shiftr (N.land p 0x3c) 2 =? p / 4). Qed.
Lemma sext_low2 p : p < 64 → N.shiftl (N.land p 0x03) 6 = p mod 4 * 64.
Proof. intros Hb. enum 64%nat (λ p, N.shiftl (N.land p 0x03) 6 =? p mod 4 * 64). Qed.
Lemma sext_shift p : p < 64 → N.shiftl p 2 = p * 4.
Proof. intros Hb. enum 64%nat (λ p, N.shiftl p 2 =? p * 4). Qed.

(** Every character of an alphabet decodes to its position, and is neither
    padding nor a line break. *)
Lemma char_at_spec url p :
  p < 64 → pos_of_char (char_at url p) = Some p ∧ is_pad (char_at url p) = false ∧ char_at url p ≠ 10.
Proof.
  intros Hp. assert (bool_decide (pos_of_char (char_at url p) = Some p) &&
    negb (is_pad (char_at url p)) && negb (char_at url p =? 10) = true) as H.
  { revert p Hp. apply (below_forall 64 (λ p, bool_decide (pos_of_char (char_at url p) = Some p) &&
      negb (is_pad (char_at url p)) && negb (char_at url p =? 10))).
    destruct url; vm_compute; reflexivity. }
  rewrite !andb_true_iff, !negb_true_iff, bool_decide_eq_true, N.eqb_neq in H. tauto.
Qed.

Ltac Zify.zify_post_hook ::= Z.to_euclidean_division_equations.

Lemma first_byte b0 b1 :
  b0 < 256 → b1 < 256 → to_char (b0 / 4 * 4 + (b0 mod 4 * 16 + b1 / 16) / 16) = b0.
Proof. intros H0 H1. unfold to_char. rewrite N.mod_small; lia. Qed.
Lemma second_byte b0 b1 b2 :
  b0 < 256 → b1 < 256 → b2 < 256 →
  to_char ((b0 mod 4 * 16 + b1 / 16) mod 16 * 16 + (b1 mod 16 * 4 + b2 / 64) / 4) = b1.
Proof. intros H0 H1 H2. unfold to_char. rewrite N.mod_small; lia. Qed.
Lemma third_byte b1 b2 :
  b1 < 256 → b2 < 256 → to_char ((b1 mod 16 * 4 + b2 / 64) mod 4 * 64 + b2 mod 64) = b2.
Proof. intros H1 H2. unfold to_char. rewrite N.mod_small; lia. Qed.

Lemma sextets b0 b1 b2 :
  b0 < 256 → b1 < 256 → b2 < 256 →
  b0 / 4 < 64 ∧ b0 mod 4 * 16 + b1 / 16 < 64 ∧ b1 mod 16 * 4 + b2 / 64 < 64 ∧ b2 mod 64 < 64.
Proof. intros. lia. Qed.

Ltac Zify.zify_post_hook ::= idtac.

(** ** Round trip *)
Lemma decode_chunk_pad url : is_pad (trailing_char url) = true.
Proof. by destruct url. Qed.

(** The chunk of three bytes. *)
Lemma decode_chunk_full url b0 b1 b2 :
  b0 < 256 → b1 < 256 → b2 < 256 →
  decode_chunk (char_at url (b0 / 4)) (char_at url (b0 mod 4 * 16 + b1 / 16))
    (Some (char_at url (b1 mod 16 * 4 + b2 / 64))) (Some (char_at url (b2 mod 64))) =
  Some [b0; b1; b2].
Proof.
  intros H0 H1 H2. destruct (sextets b0 b1 b2 H0 H1 H2) as (S0 & S1 & S2 & S3). unfold decode_chunk.
  destruct (char_at_spec url _ S0) as (-> & _), (char_at_spec url _ S1) as (-> & _),
    (char_at_spec url _ S2) as (-> & -> & _), (char_at_spec url _ S3) as (-> & -> & _).
  cbn [mbind option_bind].
  rewrite sext_shift, sext_high2, sext_low4, sext_high4, sext_low2 by done.
  by rewrite first_byte, second_byte, third_byte.
Qed.

(** A chunk with padding at the end; its last bits are zero. *)
Lemma decode_chunk_two url b0 b1 :
  b0 < 256 → b1 < 256 →
  decode_chunk (char_at url (b0 / 4)) (char_at url (b0 mod 4 * 16 + b1 / 16))
    (Some (char_at url (b1 mod 16 * 4))) (Some (trailing_char url)) = Some [b0; b1].
Proof.
  intros H0 H1. destruct (sextets b0 b1 0 H0 H1 ltac:(done)) as (S0 & S1 & S2 & _).
  pose proof (second_byte b0 b1 0 H0 H1 ltac:(done)) as Hs.
  change (0 / 64) with 0 in *. rewrite N.add_0_r in S2, Hs. unfold decode_chunk.
  destruct (char_at_spec url _ S0) as (-> & _), (char_at_spec url _ S1) as (-> & _),
    (char_at_spec url _ S2) as (-> & -> & _).
  cbn [mbind option_bind]. rewrite decode_chunk_pad.
  rewrite sext_shift, sext_high2, sext_low4, sext_high4 by done.
  by rewrite first_byte, Hs.
Qed.

Lemma decode_chunk_one url b0 :
  b0 < 256 →
  decode_chunk (char_at url (b0 / 4)) (char_at url (b0 mod 4 * 16))
    (Some (trailing_char url)) (Some (trailing_char url)) = Some [b0].
Proof.
  intros H0. destruct (sextets b0 0 0 H0 ltac:(done) ltac:(done)) as (S0 & S1 & _).
  pose proof (first_byte b0 0 H0 ltac:(done)) as Hf. change (0 / 16) with 0 in *.
  rewrite N.add_0_r in S1, Hf. unfold decode_chunk.
  destruct (char_at_spec url _ S0) as (-> & _), (char_at_spec url _ S1) as (-> & _).
  cbn [mbind option_bind]. rewrite decode_chunk_pad. rewrite sext_shift, sext_high2 by done. by rewrite Hf.
Qed.

(** Induction by groups of three. *)
Lemma list_ind3 {A} (P : list A → Prop) :
  P [] → (∀ a, P [a]) → (∀ a b, P [a; b]) → (∀ a b c l, P l → P (a :: b :: c :: l)) → ∀ l, P l.
Proof.
  intros H0 H1 H2 H3 l. assert (P l ∧ (∀ a, P (a :: l)) ∧ ∀ a b, P (a :: b :: l)) as [? _]; [|done].
  induction l as [|x l (IH1 & IH2 & IH3)]; [auto|]. split_and!; [apply IH2|intros a; apply IH3|].
  intros a b. by apply H3.
Qed.

Lemma decode_encode url bytes :
  Forall (λ b, b < 256) bytes → decode_loop (base64_encode url bytes) = Some bytes.
Proof.
  induction bytes as [|b0|b0 b1|b0 b1 b2 l IH] using list_ind3; intros Hb; [done|..];
    rewrite ?Forall_cons in Hb; cbn [base64_encode decode_loop].
  - destruct Hb as [H0 _]. rewrite high6, low2, decode_chunk_one by done. done.
  - destruct Hb as (H0 & H1 & _). rewrite high6, low2, high4, low4, decode_chunk_two by done. done.
  - destruct Hb as (H0 & H1 & H2 & Hl).
    rewrite high6, low2, high4, low4, high2, low6, decode_chunk_full by done.
    cbn [mbind option_bind]. by rewrite IH.
Qed.

Lemma encode_no_newline url bytes :
  Forall (λ b, b < 256) bytes → Forall (λ c, c ≠ 10) (base64_encode url bytes).
Proof.
  assert (trailing_char url ≠ 10) as Ht by (by destruct url).
  induction bytes as [|b0|b0 b1|b0 b1 b2 l IH] using list_ind3; intros Hb; [constructor|..];
    rewrite ?Forall_cons in Hb; cbn [base64_encode].
  - destruct Hb as [H0 _]. destruct (sextets b0 0 0 H0 ltac:(done) ltac:(done)) as (S0 & S1 & _).
    change (0 / 16) with 0 in S1. rewrite N.add_0_r in S1. rewrite high6, low2 by done.
    repeat constructor; try done; by apply char_at_spec.
  - destruct Hb as (H0 & H1 & _). destruct (sextets b0 b1 0 H0 H1 ltac:(done)) as (S0 & S1 & S2 & _).
    change (0 / 64) with 0 in S2. rewrite N.add_0_r in S2. rewrite high6, low2, high4, low4 by done.
    repeat constructor; try done; by apply char_at_spec.
  - destruct Hb as (H0 & H1 & H2 & Hl). destruct (sextets b0 b1 b2 H0 H1 H2) as (S0 & S1 & S2 & S3).
    rewrite high6, low2, high4, low4, high2, low6 by done.
    repeat constructor; try (by apply char_at_spec). by apply IH.
Qed.

Lemma filter_no_newline (l : list N) : Forall (λ c, c ≠ 10) l → filter (λ c, c ≠ 10) l = l.
Proof.
  induction 1 as [|c l Hc _ IH]; [done|]. rewrite filter_cons_True by done. by rewrite IH.
Qed.

Lemma linebreak_loop_ok fuel pos distance str :
  (0 < distance)%nat → (length str ≤ fuel + pos)%nat →
  ∃ s, linebreak_loop fuel pos distance str = Some s ∧
    filter (λ c, c ≠ 10) s = filter (λ c, c ≠ 10) str.
Proof.
  intros Hd. revert pos str. induction fuel as [|fuel IH]; intros pos str Hl; cbn [linebreak_loop];
    destruct (Nat.ltb_spec pos (length str)); [lia|by eexists| |by eexists].
  destruct (IH (pos + distance + 1)%nat (take pos str ++ 10 :: drop pos str)) as (s & E & Hs).
  { rewrite length_app. cbn [length]. rewrite length_take, length_drop. lia. }
  exists s. split; [done|]. rewrite Hs, filter_app, filter_cons_False by naive_solver.
  by rewrite <-filter_app, take_drop.
Qed.

(** every byte string survives encoding and decoding: with either alphabet,
    and with the line breaks of PEM and MIME when the decoder is told to
    remove them; none of the calls throws or loops. *)
Theorem base64_round_trip url bytes :
  Forall (λ b, b < 256) bytes →
  base64_decode false (base64_encode url bytes) = Some bytes ∧
  (∃ s, base64_encode_pem bytes = Some s ∧ base64_decode true s = Some bytes) ∧
  (∃ s, base64_encode_mime bytes = Some s ∧ base64_decode true s = Some bytes).
Proof.
  intros Hb. assert (∀ d, (0 < d)%nat → ∃ s, encode_with_line_breaks d bytes = Some s ∧
    base64_decode true s = Some bytes) as Hlines.
  { intros d Hd. unfold encode_with_line_breaks, insert_linebreaks.
    destruct (linebreak_loop_ok (length (base64_encode false bytes)) d d (base64_encode false bytes))
      as (s & E & Hs); [done|lia|].
    exists (match base64_encode false bytes with [] => [] | _ => s end).
    destruct (base64_encode false bytes) as [|c l] eqn:Ec.
    - split; [done|]. rewrite <-(decode_encode false bytes Hb). by rewrite Ec.
    - split; [done|]. unfold base64_decode. rewrite Hs, <-Ec.
      rewrite filter_no_newline by (by apply encode_no_newline). by apply decode_encode. }
  split_and!; [by apply decode_encode|apply Hlines; lia|apply Hlines; lia].
Qed.

Lemma base64_round_trip_witness :
  base64_decode false (base64_encode true [0; 255; 62; 63]) = Some [0; 255; 62; 63].
Proof. apply (base64_round_trip true [0; 255; 62; 63]). by repeat constructor. Defined.

Example base64_rfc4648 : base64_encode false (bytes_of "fooba") = bytes_of "Zm9vYmE=".
Proof. vm_compute. reflexivity. Qed.
