(* ===== verification/LruCache.v ===== *)
(** * The LRU cache

    [include/common/lru_cache.hpp].  The cache is a [std::list] of nodes, most
    recently used first, and a map from a key to a list iterator.  An iterator
    is the identity of its node: [splice] moves a node and keeps it valid.  The
    lock makes every operation atomic.  The contract is a list of pairs in
    order of recency, cut back to [maxSize_] when it reaches
    [maxSize_ + elasticity_]. *)
From S2P Require Import Prelude.
From Stdlib Require Import Lia.
From stdpp Require Import base list gmap.

Section Lru.
Context {K V : Type} `{Countable K}.

Record node := mkNode { nd_id : nat; nd_key : K; nd_value : V }.

Record Cache := mkCache {
  cache_ : gmap K nat;
  keys_ : list node;
  maxSize_ : nat;
  elasticity_ : nat;
  (** The identity of the next node. *)
  next_id : nat }.

Definition new_Cache (maxSize elasticity : nat) : Cache := mkCache ∅ [] maxSize elasticity 0.

Definition lru_size (c : Cache) : nat := size (cache_ c).
Definition lru_empty (c : Cache) : bool := bool_decide (cache_ c = ∅).
Definition lru_clear (c : Cache) : Cache := mkCache ∅ [] (maxSize_ c) (elasticity_ c) (next_id c).
Definition lru_contains (k : K) (c : Cache) : bool := bool_decide (is_Some (cache_ c !! k)).
Definition getMaxAllowedSize (c : Cache) : nat := maxSize_ c + elasticity_ c.

(** The node an iterator points at; using an iterator of an erased node is
    undefined. *)
Definition at_iter (i : nat) (l : list node) : outcome node :=
  deref (List.find (λ n, bool_decide (nd_id n = i)) l).

Definition list_erase (i : nat) (l : list node) : list node :=
  filter (λ n, nd_id n ≠ i) l.

(** [keys_.splice(keys_.begin(), keys_, iter)]. *)
Definition splice_front (i : nat) (l : list node) : outcome (list node) :=
  n ← at_iter i l; Ok (n :: list_erase i l).

(** [iter->second->value = v]. *)
Definition set_value (i : nat) (v : V) (l : list node) : list node :=
  (λ n, if bool_decide (nd_id n = i) then mkNode i (nd_key n) v else n) <$> l.

Definition with_keys (l : list node) (c : Cache) : Cache :=
  mkCache (cache_ c) l (maxSize_ c) (elasticity_ c) (next_id c).

(** The loop of [prune]; the fuel is the number of entries. *)
Fixpoint prune_loop (fuel : nat) (c : Cache) (count : nat) : outcome (nat * Cache) :=
  match fuel with
  | O => Ok (count, c)
  | S fuel =>
      if maxSize_ c <? size (cache_ c) then
        b ← deref (last (keys_ c));
        prune_loop fuel
          (mkCache (delete (nd_key b) (cache_ c)) (removelast (keys_ c)) (maxSize_ c) (elasticity_ c)
             (next_id c)) (count + 1)
      else Ok (count, c)
  end.

Definition prune (c : Cache) : outcome (nat * Cache) :=
  let maxAllowed := maxSize_ c + elasticity_ c in
  if (maxSize_ c =? 0) || (size (cache_ c) <? maxAllowed) then Ok (0, c)
  else prune_loop (size (cache_ c)) c 0.

Definition lru_insert (k : K) (v : V) (c : Cache) : outcome Cache :=
  match cache_ c !! k with
  | Some i => l ← splice_front i (set_value i v (keys_ c)); Ok (with_keys l c)
  | None =>
      let i := next_id c in
      r ← prune (mkCache (<[k := i]> (cache_ c)) (mkNode i k v :: keys_ c) (maxSize_ c)
                   (elasticity_ c) (S i));
      Ok r.2
  end.

Definition tryGet (k : K) (c : Cache) : outcome (option V * Cache) :=
  match cache_ c !! k with
  | None => Ok (None, c)
  | Some i =>
      l ← splice_front i (keys_ c);
      n ← at_iter i l;
      Ok (Some (nd_value n), with_keys l c)
  end.

(** [get] throws [KeyNotFound]; [getCopy] is the same call. *)
Definition lru_get (k : K) (c : Cache) : outcome (option V * Cache) := tryGet k c.

Definition lru_remove (k : K) (c : Cache) : outcome (bool * Cache) :=
  match cache_ c !! k with
  | None => Ok (false, c)
  | Some i =>
      _ ← at_iter i (keys_ c);
      Ok (true, mkCache (delete k (cache_ c)) (list_erase i (keys_ c)) (maxSize_ c) (elasticity_ c)
                  (next_id c))
  end.

(** [cwalk]: the entries in order of recency. *)
Definition cwalk {S} (f : K * V → S → S) (c : Cache) (s : S) : S :=
  foldl (λ s n, f (nd_key n, nd_value n) s) s (keys_ c).

(** ** The contract *)
Definition entries (c : Cache) : list (K * V) := (λ n, (nd_key n, nd_value n)) <$> keys_ c.
Definition without (k : K) (l : list (K * V)) : list (K * V) := filter (λ p, p.1 ≠ k) l.
Definition value_of (k : K) (l : list (K * V)) : option V :=
  snd <$> List.find (λ p, bool_decide (p.1 = k)) l.

Definition spec_cut (maxSize elasticity : nat) (l : list (K * V)) : list (K * V) :=
  if (maxSize =? 0) || (length l <? maxSize + elasticity) then l else take maxSize l.

Definition spec_insert (maxSize elasticity : nat) (k : K) (v : V) (l : list (K * V))
    : list (K * V) :=
  if value_of k l then (k, v) :: without k l else spec_cut maxSize elasticity ((k, v) :: l).

Definition spec_touch (k : K) (l : list (K * V)) : list (K * V) :=
  match value_of k l with Some v => (k, v) :: without k l | None => l end.

Inductive lru_op := OpInsert (k : K) (v : V) | OpGet (k : K) | OpRemove (k : K) | OpClear.

Definition run_op (o : lru_op) (c : Cache) : outcome (option V * Cache) :=
  match o with
  | OpInsert k v => c ← lru_insert k v c; Ok (None, c)
  | OpGet k => tryGet k c
  | OpRemove k => r ← lru_remove k c; Ok (None, r.2)
  | OpClear => Ok (None, lru_clear c)
  end.

Definition spec_op (maxSize elasticity : nat) (o : lru_op) (l : list (K * V))
    : option V * list (K * V) :=
  match o with
  | OpInsert k v => (None, spec_insert maxSize elasticity k v l)
  | OpGet k => (value_of k l, spec_touch k l)
  | OpRemove k => (None, without k l)
  | OpClear => (None, [])
  end.

Fixpoint run_ops (os : list lru_op) (c : Cache) : outcome (list (option V) * Cache) :=
  match os with
  | [] => Ok ([], c)
  | o :: os =>
      r ← run_op o c; rs ← run_ops os r.2; Ok (r.1 :: rs.1, rs.2)
  end.

Fixpoint spec_ops (maxSize elasticity : nat) (os : list lru_op) (l : list (K * V))
    : list (option V) * list (K * V) :=
  match os with
  | [] => ([], l)
  | o :: os =>
      let '(r, l) := spec_op maxSize elasticity o l in
      let '(rs, l) := spec_ops maxSize elasticity os l in (r :: rs, l)
  end.

End Lru.
Arguments node : clear implicits. Arguments Cache _ _ {_ _}.

(** ** Lists with distinct keys *)
Section Distinct.
Context {A B : Type} `{EqDecision B} (f : A → B).

Lemma filter_absent (b : B) (l : list A) : b ∉ f <$> l → filter (λ x, f x ≠ b) l = l.
Proof.
  induction l as [|x l IH]; [done|]. rewrite fmap_cons, not_elem_of_cons. intros [Hx Hl].
  rewrite filter_cons_True by congruence. by rewrite IH.
Qed.

Lemma find_absent (b : B) (l : list A) : b ∉ f <$> l → List.find (λ x, bool_decide (f x = b)) l = None.
Proof.
  induction l as [|x l IH]; [done|]. rewrite fmap_cons, not_elem_of_cons. intros [Hx Hl]. simpl.
  rewrite bool_decide_eq_false_2 by congruence. by apply IH.
Qed.

Lemma distinct_middle (l1 : list A) a l2 :
  NoDup (f <$> l1 ++ a :: l2) → f a ∉ f <$> l1 ∧ f a ∉ f <$> l2 ∧ NoDup (f <$> l1 ++ l2).
Proof.
  rewrite !fmap_app, fmap_cons, <-Permutation_middle, NoDup_cons, not_elem_of_app. tauto.
Qed.

Lemma filter_middle (l1 : list A) a l2 :
  NoDup (f <$> l1 ++ a :: l2) → filter (λ x, f x ≠ f a) (l1 ++ a :: l2) = l1 ++ l2.
Proof.
  intros (H1 & H2 & _)%distinct_middle. rewrite filter_app, filter_cons_False by tauto.
  by rewrite !filter_absent.
Qed.

Lemma find_middle (l1 : list A) a l2 :
  f a ∉ f <$> l1 → List.find (λ x, bool_decide (f x = f a)) (l1 ++ a :: l2) = Some a.
Proof.
  induction l1 as [|x l1 IH]; simpl.
  - by rewrite bool_decide_eq_true_2.
  - rewrite not_elem_of_cons. intros [Hx Hl]. rewrite bool_decide_eq_false_2 by congruence. by apply IH.
Qed.

End Distinct.

(** ** The invariant: the map indexes the list *)
Section Refinement.
Context {K V : Type} `{Countable K}.
Implicit Types (c : Cache K V) (l : list (node K V)).

Definition index l : gmap K nat := list_to_map ((λ n, (nd_key n, nd_id n)) <$> l).

Record lru_ok c : Prop := {
  lru_index : cache_ c = index (keys_ c);
  lru_keys : NoDup (nd_key <$> keys_ c);
  lru_ids : NoDup (nd_id <$> keys_ c);
  lru_fresh : Forall (λ n, nd_id n < next_id c) (keys_ c) }.

Lemma index_keys l : ((λ n, (nd_key n, nd_id n)) <$> l).*1 = nd_key <$> l.
Proof. by rewrite <-list_fmap_compose. Qed.

Lemma index_size l : NoDup (nd_key <$> l) → size (index l) = length l.
Proof.
  intros Hl. unfold index. rewrite map_size_list_to_map by (by rewrite index_keys).
  apply length_fmap.
Qed.

Lemma index_perm l l' : NoDup (nd_key <$> l) → l ≡ₚ l' → index l = index l'.
Proof.
  intros Hl Hp. apply list_to_map_proper; [by rewrite index_keys|]. by rewrite Hp.
Qed.

Lemma index_some l k i :
  index l !! k = Some i → ∃ l1 v l2, l = l1 ++ mkNode i k v :: l2.
Proof.
  intros (n & Hn & Hin)%elem_of_list_to_map_2%list_elem_of_fmap.
  apply list_elem_of_split in Hin as (l1 & l2 & ->). destruct n. simplify_eq/=. eauto.
Qed.

Lemma index_none l k : index l !! k = None → k ∉ nd_key <$> l.
Proof. rewrite <-index_keys. apply not_elem_of_list_to_map_2. Qed.

Lemma index_delete l1 n l2 :
  NoDup (nd_key <$> l1 ++ n :: l2) →
  delete (nd_key n) (index (l1 ++ n :: l2)) = index (l1 ++ l2).
Proof.
  intros Hnd. rewrite (index_perm _ (n :: l1 ++ l2)) by (done || by rewrite <-Permutation_middle).
  apply distinct_middle in Hnd as (H1 & H2 & _). unfold index. rewrite fmap_cons. simpl.
  rewrite delete_insert_id; [done|]. apply not_elem_of_list_to_map_1.
  rewrite index_keys, fmap_app, not_elem_of_app. tauto.
Qed.

Lemma entries_keys l : fst <$> ((λ n, (nd_key n, nd_value n)) <$> l) = nd_key <$> l.
Proof. by rewrite <-list_fmap_compose. Qed.

(** A cached key: its node, and what every primitive does with it. *)
Lemma lookup_split c k i :
  lru_ok c → cache_ c !! k = Some i →
  ∃ l1 v l2, keys_ c = l1 ++ mkNode i k v :: l2 ∧
    value_of k (entries c) = Some v ∧
    without k (entries c) = (λ n, (nd_key n, nd_value n)) <$> l1 ++ l2.
Proof.
  intros Hc Hk. rewrite (lru_index c Hc) in Hk. apply index_some in Hk as (l1 & v & l2 & E).
  exists l1, v, l2. split; [done|]. pose proof (lru_keys c Hc) as Hnd. rewrite E in Hnd.
  rewrite <-entries_keys in Hnd. unfold value_of, without, entries. rewrite E. rewrite !fmap_app, !fmap_cons in *.
  simpl in *. split.
  - rewrite <-(fmap_cons fst (k, v)), <-fmap_app in Hnd.
    by rewrite (find_middle fst _ (k, v)) by (by apply distinct_middle in Hnd as (? & _)).
  - rewrite <-(fmap_cons fst (k, v)), <-fmap_app in Hnd. by rewrite (filter_middle fst _ (k, v)).
Qed.

Lemma lookup_absent c k :
  lru_ok c → cache_ c !! k = None → value_of k (entries c) = None ∧ without k (entries c) = entries c.
Proof.
  intros Hc Hk. rewrite (lru_index c Hc) in Hk. apply index_none in Hk.
  rewrite <-entries_keys in Hk. unfold value_of, without, entries.
  by rewrite find_absent, filter_absent.
Qed.

(** Moving a node to the front, with any value, keeps the invariant. *)
Lemma front_ok c l1 i k v v' l2 :
  lru_ok c → keys_ c = l1 ++ mkNode i k v :: l2 →
  lru_ok (with_keys (mkNode i k v' :: l1 ++ l2) c).
Proof.
  intros [Hi Hk Hid Hf] E. rewrite E in *.
  assert (index (l1 ++ mkNode i k v :: l2) = index (mkNode i k v' :: l1 ++ l2)) as Hx.
  { rewrite (index_perm _ (mkNode i k v :: l1 ++ l2)); [done|done|]. by rewrite <-Permutation_middle. }
  rewrite fmap_app, fmap_cons, <-Permutation_middle in Hk.
  rewrite fmap_app, fmap_cons, <-Permutation_middle in Hid.
  rewrite <-Permutation_middle in Hf.
  split; simpl; [by rewrite Hi| | |].
  - by rewrite fmap_app.
  - by rewrite fmap_app.
  - apply Forall_cons in Hf as [Hf1 Hf2]. by constructor.
Qed.

(** Erasing a node and its key keeps the invariant. *)
Lemma erase_ok c l1 n l2 :
  lru_ok c → keys_ c = l1 ++ n :: l2 →
  lru_ok (mkCache (delete (nd_key n) (cache_ c)) (l1 ++ l2) (maxSize_ c) (elasticity_ c) (next_id c)).
Proof.
  intros [Hi Hk Hid Hf] E. rewrite E in *. split; simpl.
  - by rewrite Hi, index_delete.
  - by apply distinct_middle in Hk as (_ & _ & ?).
  - by apply distinct_middle in Hid as (_ & _ & ?).
  - rewrite <-Permutation_middle in Hf. by apply Forall_cons in Hf as [_ ?].
Qed.

Lemma lru_size_entries c : lru_ok c → size (cache_ c) = length (entries c).
Proof.
  intros Hc. rewrite (lru_index c Hc), index_size by apply (lru_keys c Hc).
  unfold entries. by rewrite length_fmap.
Qed.

Lemma prune_loop_ok fuel c count :
  lru_ok c → length (keys_ c) ≤ maxSize_ c + fuel →
  ∃ count' c', prune_loop fuel c count = Ok (count', c') ∧ lru_ok c' ∧
    keys_ c' = take (maxSize_ c) (keys_ c) ∧
    maxSize_ c' = maxSize_ c ∧ elasticity_ c' = elasticity_ c.
Proof.
  revert c count. induction fuel as [|fuel IH]; intros c count Hc Hn; simpl.
  { exists count, c. rewrite take_ge by lia. done. }
  pose proof (lru_size_entries c Hc) as Hs. unfold entries in Hs. rewrite length_fmap in Hs.
  rewrite Hs. destruct (Nat.ltb_spec (maxSize_ c) (length (keys_ c))) as [Hlt|Hge].
  - destruct (keys_ c) as [|b l _] eqn:E using rev_ind; [simpl in Hlt; lia|].
    rewrite last_snoc. simpl. rewrite removelast_last.
    rewrite length_app in Hn, Hlt. simpl in Hn, Hlt.
    pose proof (erase_ok c l b [] Hc E) as Hc'. rewrite app_nil_r in Hc'.
    destruct (IH _ (count + 1) Hc') as (count' & c' & E' & Hok & Hk & Hm & He); [simpl; lia|].
    exists count', c'. simpl in *. rewrite take_app_le by lia. done.
  - exists count, c. by rewrite take_ge by lia.
Qed.

Lemma prune_ok c :
  lru_ok c →
  ∃ count c', prune c = Ok (count, c') ∧ lru_ok c' ∧
    entries c' = spec_cut (maxSize_ c) (elasticity_ c) (entries c) ∧
    maxSize_ c' = maxSize_ c ∧ elasticity_ c' = elasticity_ c.
Proof.
  intros Hc. unfold prune, spec_cut. rewrite (lru_size_entries c Hc).
  destruct (_ || _); [by exists 0, c|].
  destruct (prune_loop_ok (length (entries c)) c 0 Hc) as (n & c' & E & Hok & Hk & Hm).
  { unfold entries. rewrite length_fmap. lia. }
  exists n, c'. split_and!; [done|done| |apply Hm|apply Hm].
  unfold entries. by rewrite Hk, fmap_take.
Qed.

(** A new key in front. *)
Lemma push_ok c k v :
  lru_ok c → cache_ c !! k = None →
  lru_ok (mkCache (<[k := next_id c]> (cache_ c)) (mkNode (next_id c) k v :: keys_ c) (maxSize_ c)
            (elasticity_ c) (S (next_id c))).
Proof.
  intros [Hi Hk Hid Hf] Hn. rewrite Hi in Hn. apply index_none in Hn. split; simpl.
  - by rewrite Hi.
  - by constructor.
  - constructor; [|done]. rewrite list_elem_of_fmap. intros (n & Hn' & Hin).
    rewrite Forall_forall in Hf. specialize (Hf n Hin). lia.
  - constructor; [simpl; lia|]. eapply Forall_impl; [exact Hf|]. simpl. lia.
Qed.

Lemma at_iter_middle l1 i k v l2 :
  NoDup (nd_id <$> l1 ++ mkNode i k v :: l2) →
  at_iter i (l1 ++ mkNode i k v :: l2) = Ok (mkNode i k v).
Proof.
  intros Hid. unfold at_iter. pose proof (find_middle nd_id l1 (mkNode i k v) l2) as E.
  simpl in E. by rewrite E by (by apply distinct_middle in Hid as (? & _)).
Qed.

Lemma splice_middle l1 i k v l2 :
  NoDup (nd_id <$> l1 ++ mkNode i k v :: l2) →
  splice_front i (l1 ++ mkNode i k v :: l2) = Ok (mkNode i k v :: l1 ++ l2).
Proof.
  intros Hid. unfold splice_front. rewrite at_iter_middle by done. simpl. f_equal. f_equal.
  exact (filter_middle nd_id l1 (mkNode i k v) l2 Hid).
Qed.

Lemma set_value_absent l i v : i ∉ nd_id <$> l → set_value i v l = l.
Proof.
  unfold set_value. induction l as [|n l IH]; [done|]. rewrite !fmap_cons, not_elem_of_cons.
  intros [Hn Hl]. rewrite bool_decide_eq_false_2 by congruence. by rewrite IH.
Qed.

Lemma set_value_middle l1 i k v v' l2 :
  NoDup (nd_id <$> l1 ++ mkNode i k v :: l2) →
  set_value i v' (l1 ++ mkNode i k v :: l2) = l1 ++ mkNode i k v' :: l2.
Proof.
  intros (H1 & H2 & _)%distinct_middle. simpl in *. unfold set_value. rewrite fmap_app, fmap_cons. simpl.
  rewrite bool_decide_eq_true_2 by done. fold (set_value i v' l1) (set_value i v' l2).
  by rewrite !set_value_absent.
Qed.

(** ** Every operation *)
Lemma insert_ok c k v :
  lru_ok c →
  ∃ c', lru_insert k v c = Ok c' ∧ lru_ok c' ∧
    entries c' = spec_insert (maxSize_ c) (elasticity_ c) k v (entries c) ∧
    maxSize_ c' = maxSize_ c ∧ elasticity_ c' = elasticity_ c.
Proof.
  intros Hc. unfold lru_insert, spec_insert. destruct (cache_ c !! k) as [i|] eqn:Hk.
  - destruct (lookup_split c k i Hc Hk) as (l1 & v0 & l2 & E & -> & ->).
    pose proof (lru_ids c Hc) as Hid. rewrite E in Hid |- *.
    rewrite (set_value_middle _ _ _ _ v) by done.
    rewrite splice_middle by (by rewrite fmap_app, fmap_cons in Hid |- *). simpl.
    eexists. split; [done|]. split; [by apply (front_ok c l1 i k v0 v l2)|]. done.
  - destruct (lookup_absent c k Hc Hk) as [-> _].
    destruct (prune_ok _ (push_ok c k v Hc Hk)) as (n & c' & -> & Hok & He & Hm).
    simpl. by exists c'.
Qed.

Lemma tryGet_ok c k :
  lru_ok c →
  ∃ c', tryGet k c = Ok (value_of k (entries c), c') ∧ lru_ok c' ∧
    entries c' = spec_touch k (entries c) ∧
    maxSize_ c' = maxSize_ c ∧ elasticity_ c' = elasticity_ c.
Proof.
  intros Hc. unfold tryGet, spec_touch. destruct (cache_ c !! k) as [i|] eqn:Hk.
  - destruct (lookup_split c k i Hc Hk) as (l1 & v0 & l2 & E & -> & ->).
    pose proof (lru_ids c Hc) as Hid. rewrite E in Hid |- *. rewrite splice_middle by done. simpl.
    unfold at_iter. simpl. rewrite bool_decide_eq_true_2 by done. simpl.
    eexists. split; [done|]. by split; [apply (front_ok c l1 i k v0 v0 l2)|].
  - destruct (lookup_absent c k Hc Hk) as [-> _]. by exists c.
Qed.

Lemma remove_ok c k :
  lru_ok c →
  ∃ c', lru_remove k c = Ok (bool_decide (is_Some (value_of k (entries c))), c') ∧ lru_ok c' ∧
    entries c' = without k (entries c) ∧
    maxSize_ c' = maxSize_ c ∧ elasticity_ c' = elasticity_ c.
Proof.
  intros Hc. unfold lru_remove. destruct (cache_ c !! k) as [i|] eqn:Hk.
  - destruct (lookup_split c k i Hc Hk) as (l1 & v0 & l2 & E & -> & ->).
    pose proof (lru_ids c Hc) as Hid. rewrite E in Hid |- *. rewrite at_iter_middle by done. simpl.
    eexists. split; [done|].
    pose proof (filter_middle nd_id l1 (mkNode i k v0) l2 Hid) as Hf. simpl in Hf.
    unfold list_erase, entries. simpl. rewrite Hf.
    by split; [apply (erase_ok c l1 (mkNode i k v0) l2)|].
  - destruct (lookup_absent c k Hc Hk) as [-> ->]. by exists c.
Qed.

Lemma run_op_ok o c :
  lru_ok c →
  ∃ r c', run_op o c = Ok (r, c') ∧ lru_ok c' ∧
    spec_op (maxSize_ c) (elasticity_ c) o (entries c) = (r, entries c') ∧
    maxSize_ c' = maxSize_ c ∧ elasticity_ c' = elasticity_ c.
Proof.
  intros Hc. destruct o as [k v|k|k|]; simpl.
  - destruct (insert_ok c k v Hc) as (c' & -> & ? & <- & ?). simpl. eauto 7.
  - destruct (tryGet_ok c k Hc) as (c' & -> & ? & <- & ?). simpl. eauto 7.
  - destruct (remove_ok c k Hc) as (c' & -> & ? & <- & ?). simpl. eauto 7.
  - do 2 eexists. split; [done|]. by repeat split; try constructor.
Qed.

Lemma run_ops_ok os c :
  lru_ok c →
  ∃ rs c', run_ops os c = Ok (rs, c') ∧ lru_ok c' ∧
    spec_ops (maxSize_ c) (elasticity_ c) os (entries c) = (rs, entries c').
Proof.
  revert c. induction os as [|o os IH]; intros c Hc; simpl; [eauto|].
  destruct (run_op_ok o c Hc) as (r & c1 & -> & Hc1 & -> & <- & <-). simpl.
  destruct (IH c1 Hc1) as (rs & c2 & -> & Hc2 & ->). simpl. eauto.
Qed.

(** ** The size *)
Lemma without_length k (l : list (K * V)) : length (without k l) ≤ length l.
Proof. apply length_filter. Qed.

Lemma without_shorter k v (l : list (K * V)) :
  value_of k l = Some v → S (length (without k l)) ≤ length l.
Proof.
  unfold value_of, without. induction l as [|[k' v'] l IH]; [done|]. simpl.
  destruct (decide (k' = k)) as [->|Hne].
  - intros _. rewrite filter_cons_False by (simpl; tauto).
    pose proof (without_length k l) as Hl. unfold without in Hl. lia.
  - rewrite bool_decide_eq_false_2, filter_cons_True by done. simpl. intros Hv.
    specialize (IH Hv). lia.
Qed.

Lemma spec_op_size m e o (l : list (K * V)) :
  0 < m → length l ≤ m + e → length (spec_op m e o l).2 ≤ m + e.
Proof.
  intros Hm Hl. destruct o as [k v|k|k|]; simpl; [| | |lia].
  - unfold spec_insert, spec_cut. destruct (value_of k l) as [v'|] eqn:E.
    + apply without_shorter in E. simpl. lia.
    + destruct (Nat.eqb_spec m 0), (Nat.ltb_spec (length ((k, v) :: l)) (m + e)); cbn [orb];
        rewrite ?length_take; lia.
  - unfold spec_touch. destruct (value_of k l) as [v|] eqn:E; [|done].
    apply without_shorter in E. simpl. lia.
  - pose proof (without_length k l). lia.
Qed.

Lemma spec_ops_size m e os (l : list (K * V)) :
  0 < m → length l ≤ m + e → length (spec_ops m e os l).2 ≤ m + e.
Proof.
  intros Hm. revert l. induction os as [|o os IH]; intros l Hl; simpl; [done|].
  pose proof (spec_op_size m e o l Hm Hl) as H1.
  destruct (spec_op m e o l) as [r l1]. specialize (IH l1 H1).
  by destruct (spec_ops m e os l1).
Qed.

(** ** What the cache can return *)
Lemma value_of_elem k v (l : list (K * V)) : value_of k l = Some v → (k, v) ∈ l.
Proof.
  unfold value_of. induction l as [|[k' v'] l IH]; [done|]. simpl.
  destruct (decide (k' = k)) as [->|Hne].
  - rewrite bool_decide_eq_true_2 by done. intros [= ->]. by left.
  - rewrite bool_decide_eq_false_2 by done. intros Hv. right. by apply IH.
Qed.

Lemma spec_touch_elem k p (l : list (K * V)) : p ∈ spec_touch k l → p ∈ l.
Proof.
  unfold spec_touch. destruct (value_of k l) as [v|] eqn:E; [|done].
  rewrite elem_of_cons. intros [->|Hp]; [by apply value_of_elem|].
  unfold without in Hp. by apply list_elem_of_filter in Hp as [_ Hp].
Qed.

Lemma spec_insert_elem m e k v p (l : list (K * V)) :
  p ∈ spec_insert m e k v l → p = (k, v) ∨ p ∈ l.
Proof.
  unfold spec_insert, spec_cut. destruct (value_of k l).
  - rewrite elem_of_cons. intros [->|Hp]; [by left|]. right. unfold without in Hp.
    by apply list_elem_of_filter in Hp as [_ Hp].
  - intros Hp. apply elem_of_cons. destruct (_ || _); [done|].
    apply list_elem_of_lookup in Hp as [i Hi].
    apply lookup_take_Some in Hi as [Hi _]. by apply list_elem_of_lookup_2 in Hi.
Qed.

Lemma new_Cache_ok m e : lru_ok (new_Cache (K := K) (V := V) m e).
Proof. by split; try constructor. Qed.

(** any sequence of insertions, lookups, removals and clears on an empty
    cache runs without using an invalid iterator or the back of an empty list,
    returns what the recency list returns and leaves its entries, most recent
    first; with a limit the cache never holds more than
    [maxSize_ + elasticity_] entries. *)
Theorem lru_refines os maxSize elasticity :
  ∃ rs c', run_ops os (new_Cache (V := V) maxSize elasticity) = Ok (rs, c') ∧
    spec_ops maxSize elasticity os [] = (rs, entries c') ∧
    (maxSize ≠ 0 → lru_size c' ≤ maxSize + elasticity).
Proof.
  destruct (run_ops_ok os (new_Cache maxSize elasticity)) as (rs & c' & E & Hc & Hs).
  { apply new_Cache_ok. }
  exists rs, c'. split_and!; [done|done|]. intros Hm. unfold lru_size.
  rewrite (lru_size_entries c' Hc). pose proof (spec_ops_size maxSize elasticity os []) as Hsz.
  change (entries _) with (@nil (K * V)) in Hs at 1. cbn [maxSize_ elasticity_ new_Cache] in Hs.
  rewrite Hs in Hsz. simpl in Hsz. lia.
Qed.

End Refinement.
