(* ===== verification/Locks.v ===== *)
(** * Locks and condition variables

    [common/spin_lock.h] and [common/cv_wrapper.h], the primitives below the
    other components, which wait for a condition and take a critical section as
    one step.  Here is why they may: a spin lock has one owner, and a waiter of
    [CVWrapper] whose condition holds is never left asleep.

    std::mutex and std::condition_variable are taken from the C++ standard:
    waiting releases the mutex and falls asleep in one step, a woken-up may come
    without a notification, and the mutex is taken again before the condition
    is looked at. *)
From S2P Require Import Prelude.
From Stdlib Require Import Lia.
From stdpp Require Import base list relations.

(** ** SpinLock *)
Module SpinLock.

Inductive spin_pc := SIdle | SSpin | SCritical.
(** The flag, and the threads. *)
Record slock := mkLock { lock_ : bool; s_threads : list spin_pc }.

Definition new_lock (n : nat) : slock := mkLock false (replicate n SIdle).

(** A step of thread [i]: the call of [lock], a [test_and_set], and [unlock]. *)
Definition s_exec (i : nat) (s : slock) : option slock :=
  match s_threads s !! i with
  | Some SIdle => Some (mkLock (lock_ s) (<[i := SSpin]> (s_threads s)))
  | Some SSpin => Some (mkLock true (if lock_ s then s_threads s else <[i := SCritical]> (s_threads s)))
  | Some SCritical => Some (mkLock false (<[i := SIdle]> (s_threads s)))
  | None => None
  end.

Definition spin_step (s s' : slock) : Prop := ∃ i, s_exec i s = Some s'.

Definition slock_ok (s : slock) : Prop :=
  (∀ i, s_threads s !! i = Some SCritical → lock_ s = true) ∧
  (∀ i j, s_threads s !! i = Some SCritical → s_threads s !! j = Some SCritical → i = j) ∧
  (lock_ s = true → ∃ i, s_threads s !! i = Some SCritical).

Lemma insert_cases {A} (l : list A) i j x y :
  <[i := x]> l !! j = Some y → (j = i ∧ y = x ∧ (i < length l)%nat) ∨ (j ≠ i ∧ l !! j = Some y).
Proof. intros [(-> & -> & ?)|[? ?]]%list_lookup_insert_Some; [left|right]; done. Qed.

Lemma s_exec_ok i s s' : slock_ok s → s_exec i s = Some s' → slock_ok s'.
Proof.
  intros (H1 & H2 & H3) E. unfold s_exec in E. destruct (s_threads s !! i) as [[]|] eqn:Ei; [| | |done].
  - injection E as <-. split_and!; simpl.
    + intros j [(_ & ? & _)|[_ Hj]]%insert_cases; [done|eauto].
    + intros j k [(_ & ? & _)|[_ Hj]]%insert_cases [(_ & ? & _)|[_ Hk]]%insert_cases; try done. eauto.
    + intros Hl. destruct (H3 Hl) as [j Hj]. exists j. rewrite list_lookup_insert_ne; [done|]. intros ->. congruence.
  - injection E as <-. destruct (lock_ s) eqn:El; [by split_and!|]. split_and!; simpl; [done| |].
    + intros j k [(-> & _)|[_ Hj]]%insert_cases; [|by apply H1 in Hj].
      intros [(-> & _)|[_ Hk]]%insert_cases; [done|by apply H1 in Hk].
    + intros _. exists i. apply list_lookup_insert_eq. by eapply lookup_lt_Some.
  - injection E as <-. split_and!; simpl; [| |done].
    + intros j [(_ & ? & _)|[Hne Hj]]%insert_cases; [done|]. by destruct Hne, (H2 j i Hj Ei).
    + intros j k [(_ & ? & _)|[Hne Hj]]%insert_cases; [done|]. by destruct Hne, (H2 j i Hj Ei).
Qed.

(** Mutual exclusion, and a thread that spins enters as soon as nobody is
    inside. *)
Theorem spin_lock_exclusive n s :
  rtc spin_step (new_lock n) s →
  (∀ i j, s_threads s !! i = Some SCritical → s_threads s !! j = Some SCritical → i = j) ∧
  (∀ i, s_threads s !! i = Some SSpin → (∀ j, s_threads s !! j ≠ Some SCritical) →
     ∃ s', s_exec i s = Some s' ∧ s_threads s' !! i = Some SCritical).
Proof.
  intros Hr. assert (slock_ok s) as (H1 & H2 & H3).
  { eapply (rtc_invariant spin_step); [| |exact Hr].
    - intros s1 s2 Hok [i E]. by eapply s_exec_ok.
    - unfold new_lock. split_and!; simpl; [| |done].
      + by intros i [? _]%lookup_replicate.
      + by intros i j [? _]%lookup_replicate. }
  split; [done|]. intros i Hi Hno. unfold s_exec. rewrite Hi. eexists. split; [done|]. simpl.
  destruct (lock_ s) eqn:El; [by destruct (H3 eq_refl) as [j Hj%Hno]|]. apply list_lookup_insert_eq. by eapply lookup_lt_Some.
Qed.

End SpinLock.

(** ** CVWrapper *)
Module CVWrapper.
Section CV.
Context {Σ : Type}.

(** What a thread does: [wait] for a condition, or change the state and notify:
    with [notify_one(func)] or [notify_all(func)], which call [func] under the
    mutex, or by changing the state first and then calling [notify_one()] or
    [notify_all()].  A thread may call again ([cv_again]). *)
Inductive cv_role :=
  | Waiter (cond : Σ → bool)
  | Notifier (inside all : bool) (func : Σ → Σ).

Inductive cv_pc :=
  | CStart        (* before the call *)
  | CTest         (* holds the mutex and looks at the condition *)
  | CFalse        (* holds the mutex and has found the condition false *)
  | CSleep
  | CWoken        (* has to take the mutex again *)
  | CWritten      (* has changed the state, before [notify_one()] or [notify_all()] *)
  | CHold         (* holds the mutex, before [func] *)
  | CNotify       (* holds the mutex, before the notification *)
  | CDone.

Record cv_state := mkCV { cv_mutex : option nat; cv_data : Σ; cv_threads : list (cv_role * cv_pc) }.

Definition is_waiter (r : cv_role) : bool := match r with Waiter _ => true | _ => false end.
Definition set_cv_pc (i : nat) (r : cv_role) (pc : cv_pc) (s : cv_state) : list (cv_role * cv_pc) := <[i := (r, pc)]> (cv_threads s).
Definition woken (t : cv_role * cv_pc) : cv_role * cv_pc := match t.2 with CSleep => (t.1, CWoken) | _ => t end.
Definition asleep (t : cv_role * cv_pc) : Prop := t.2 = CSleep.

Inductive cv_step (s : cv_state) : cv_state → Prop :=
  | cv_lock_wait i cond pc :
      cv_threads s !! i = Some (Waiter cond, pc) → (pc = CStart ∨ pc = CWoken) → cv_mutex s = None →
      cv_step s (mkCV (Some i) (cv_data s) (set_cv_pc i (Waiter cond) CTest s))
  | cv_test i cond :
      cv_threads s !! i = Some (Waiter cond, CTest) →
      cv_step s (if cond (cv_data s) then mkCV None (cv_data s) (set_cv_pc i (Waiter cond) CDone s)
                 else mkCV (cv_mutex s) (cv_data s) (set_cv_pc i (Waiter cond) CFalse s))
  | cv_sleep i cond :
      cv_threads s !! i = Some (Waiter cond, CFalse) →
      cv_step s (mkCV None (cv_data s) (set_cv_pc i (Waiter cond) CSleep s))
  | cv_spurious i cond :
      cv_threads s !! i = Some (Waiter cond, CSleep) → cv_step s (mkCV (cv_mutex s) (cv_data s) (set_cv_pc i (Waiter cond) CWoken s))
  | cv_lock_func i all func :
      cv_threads s !! i = Some (Notifier true all func, CStart) → cv_mutex s = None →
      cv_step s (mkCV (Some i) (cv_data s) (set_cv_pc i (Notifier true all func) CHold s))
  | cv_func i all func :
      cv_threads s !! i = Some (Notifier true all func, CHold) →
      cv_step s (mkCV (cv_mutex s) (func (cv_data s)) (set_cv_pc i (Notifier true all func) CNotify s))
  | cv_write i all func :
      cv_threads s !! i = Some (Notifier false all func, CStart) →
      cv_step s (mkCV (cv_mutex s) (func (cv_data s)) (set_cv_pc i (Notifier false all func) CWritten s))
  | cv_lock_notify i all func :
      cv_threads s !! i = Some (Notifier false all func, CWritten) → cv_mutex s = None →
      cv_step s (mkCV (Some i) (cv_data s) (set_cv_pc i (Notifier false all func) CNotify s))
  | cv_notify_all i inside func :
      cv_threads s !! i = Some (Notifier inside true func, CNotify) →
      cv_step s (mkCV None (cv_data s) (woken <$> set_cv_pc i (Notifier inside true func) CDone s))
  | cv_notify_one i k t inside func :
      cv_threads s !! i = Some (Notifier inside false func, CNotify) → cv_threads s !! k = Some t → asleep t →
      cv_step s (mkCV None (cv_data s) (<[k := woken t]> (set_cv_pc i (Notifier inside false func) CDone s)))
  | cv_notify_none i inside func :
      cv_threads s !! i = Some (Notifier inside false func, CNotify) → Forall (λ t, ¬ asleep t) (cv_threads s) →
      cv_step s (mkCV None (cv_data s) (set_cv_pc i (Notifier inside false func) CDone s))
  | cv_again i r :
      cv_threads s !! i = Some (r, CDone) → cv_step s (mkCV (cv_mutex s) (cv_data s) (set_cv_pc i r CStart s)).

Definition cv_init (d : Σ) (roles : list cv_role) : cv_state := mkCV None d ((λ r, (r, CStart)) <$> roles).

(** Every notifier notifies all, or there is one waiter. *)
Definition proper (roles : list cv_role) : Prop :=
  Forall (λ r, match r with Notifier _ all _ => all = true | _ => True end) roles ∨
  ∀ i j r r', roles !! i = Some r → roles !! j = Some r' → is_waiter r = true → is_waiter r' = true → i = j.

(** A notification is on its way. *)
Definition on_its_way (t : cv_role * cv_pc) : Prop := t.2 = CWritten ∨ t.2 = CNotify.
Definition holds_mutex (t : cv_role * cv_pc) : Prop := t.2 = CTest ∨ t.2 = CFalse ∨ t.2 = CHold ∨ t.2 = CNotify.
(** Asleep, or about to be. *)
Definition dormant (pc : cv_pc) : Prop := pc = CFalse ∨ pc = CSleep.

Record cv_ok (s : cv_state) : Prop := {
  co_proper : proper (cv_threads s).*1;
  co_mutex i t : cv_threads s !! i = Some t → holds_mutex t ↔ cv_mutex s = Some i;
  co_sleep i t : cv_threads s !! i = Some t → asleep t → is_waiter t.1 = true;
  co_wake i cond pc : cv_threads s !! i = Some (Waiter cond, pc) → dormant pc → cond (cv_data s) = true →
    ∃ j t, cv_threads s !! j = Some t ∧ on_its_way t }.

Lemma set_roles i r pc pc' (ts : list (cv_role * cv_pc)) : ts !! i = Some (r, pc) → (<[i := (r, pc')]> ts).*1 = ts.*1.
Proof. intros Hi. rewrite list_fmap_insert. apply list_insert_id. by rewrite list_lookup_fmap, Hi. Qed.

Ltac mutex_tac := unfold holds_mutex, on_its_way, dormant; simpl; naive_solver.

(** A thread moves, and takes, keeps or releases the mutex. *)
Lemma cv_move_ok s i r pc pc' m d :
  cv_ok s → cv_threads s !! i = Some (r, pc) →
  (holds_mutex (r, pc') ↔ m = Some i) →
  (∀ j t, j ≠ i → cv_threads s !! j = Some t → holds_mutex t ↔ m = Some j) →
  (dormant pc' → ∃ cond, r = Waiter cond ∧ (cond d = false ∨ dormant pc ∧ d = cv_data s)) →
  on_its_way (r, pc') ∨ (d = cv_data s ∧ ¬ on_its_way (r, pc)) →
  cv_ok (mkCV m d (set_cv_pc i r pc' s)).
Proof.
  intros [Hp Hmu Hsl Hwk] Hi Hm Hother Hsleep Hway. unfold set_cv_pc. split; simpl.
  - by rewrite (set_roles i r pc).
  - intros j t [(-> & -> & _)|[Hne Hj]]%SpinLock.insert_cases; [done|by apply Hother].
  - intros j t [(-> & -> & _)|[Hne Hj]]%SpinLock.insert_cases; [|eauto].
    intros Ha. destruct (Hsleep (or_intror Ha)) as (cond & -> & _). done.
  - intros j cond pc1 Hj Hd Hc. destruct Hway as [Hway|[-> Hno]].
    { exists i, (r, pc'). split; [|done]. apply list_lookup_insert_eq. by eapply lookup_lt_Some. }
    assert (∃ k t, cv_threads s !! k = Some t ∧ on_its_way t) as (k & t & Hk & Ht).
    { apply SpinLock.insert_cases in Hj as [(-> & E & _)|[Hne Hj]]; [|eauto]. injection E as <- <-.
      destruct (Hsleep Hd) as (cond' & [= <-] & [Hc'|[Hd' _]]); [congruence|eauto]. }
    exists k, t. split; [|done]. rewrite list_lookup_insert_ne; [done|]. intros <-. congruence.
Qed.

(** Nobody is asleep after a notification. *)
Lemma notified_ok d ts :
  proper ts.*1 → (∀ i t, ts !! i = Some t → holds_mutex t ↔ None = Some i) → (∀ i t, ts !! i = Some t → ¬ asleep t) →
  cv_ok (mkCV None d ts).
Proof.
  intros Hp Hm Hn. split; simpl; [done|done| |].
  - intros i t Hi Ha. by destruct (Hn i t Hi).
  - intros i cond pc Hi [->| ->]; [|by destruct (Hn i _ Hi)]. assert (None = Some i) by (apply (Hm i _ Hi); mutex_tac). done.
Qed.

(** The mutex is taken by, or is with, thread [i]. *)
Lemma taken s i : cv_ok s → cv_mutex s = None → ∀ j t, j ≠ i → cv_threads s !! j = Some t → holds_mutex t ↔ Some i = Some j.
Proof. intros Hok Hn j t Hne Hj. rewrite (co_mutex s Hok j t Hj), Hn. split; [done|]. by intros [= ->]. Qed.
Lemma released s i u :
  cv_ok s → cv_threads s !! i = Some u → holds_mutex u →
  ∀ j t, j ≠ i → cv_threads s !! j = Some t → holds_mutex t ↔ None = Some j.
Proof.
  intros Hok Hi Hu j t Hne Hj. apply (co_mutex s Hok i u Hi) in Hu. rewrite (co_mutex s Hok j t Hj), Hu.
  split; [by intros [= ->]|done].
Qed.
Lemma kept s i : cv_ok s → ∀ j t, j ≠ i → cv_threads s !! j = Some t → holds_mutex t ↔ cv_mutex s = Some j.
Proof. intros Hok j t _ Hj. by apply co_mutex. Qed.

Lemma wake_mutex t : holds_mutex (woken t) ↔ holds_mutex t.
Proof. destruct t as [r []]; unfold holds_mutex; simpl; naive_solver. Qed.

(** [notify_one] wakes the one waiter there is. *)
Lemma notify_one_ok s i k t inside func :
  cv_ok s → cv_threads s !! i = Some (Notifier inside false func, CNotify) → cv_threads s !! k = Some t → asleep t →
  cv_ok (mkCV None (cv_data s) (<[k := woken t]> (set_cv_pc i (Notifier inside false func) CDone s))).
Proof.
  intros Hok Hi Hk Ht.
  assert (∀ j u, <[k := woken t]> (set_cv_pc i (Notifier inside false func) CDone s) !! j = Some u →
    (j = k ∧ u = woken t) ∨ (j ≠ k ∧ j = i ∧ u = (Notifier inside false func, CDone)) ∨
    (j ≠ k ∧ j ≠ i ∧ cv_threads s !! j = Some u)) as Hcases.
  { intros j u [(-> & -> & _)|[Hne Hj]]%SpinLock.insert_cases; [auto|].
    apply SpinLock.insert_cases in Hj as [(-> & -> & _)|[Hne' Hj]]; auto. }
  assert (k ≠ i) as Hki by (intros ->; rewrite Hi in Hk; injection Hk as <-; discriminate Ht).
  destruct t as [r pc]. unfold asleep in Ht. simpl in Ht. subst pc.
  apply notified_ok.
  - change (woken (r, CSleep)) with (r, CWoken). rewrite (set_roles k r CSleep); [|by unfold set_cv_pc; rewrite list_lookup_insert_ne].
    unfold set_cv_pc. rewrite (set_roles i _ CNotify) by done. apply (co_proper s Hok).
  - intros j u [(-> & ->)|[(_ & -> & ->)|(_ & Hne & Hj)]]%Hcases; [|mutex_tac|exact (released s i _ Hok Hi ltac:(by right; right; right) j u Hne Hj)].
    rewrite wake_mutex. mutex_tac.
  - intros j u [(-> & ->)|[(_ & -> & ->)|(Hne & _ & Hj)]]%Hcases Ha; try done.
    destruct (co_proper s Hok) as [Hp|Hp].
    + rewrite Forall_lookup in Hp. specialize (Hp i (Notifier inside false func)). rewrite list_lookup_fmap, Hi in Hp. by specialize (Hp eq_refl).
    + apply Hne. apply (Hp j k u.1 r); [by rewrite list_lookup_fmap, Hj|by rewrite list_lookup_fmap, Hk| |].
      * by apply (co_sleep s Hok j u).
      * by apply (co_sleep s Hok k (r, CSleep)).
Qed.

Lemma cv_step_ok s s' : cv_ok s → cv_step s s' → cv_ok s'.
Proof.
  intros Hok Hst. destruct Hst as [i cond pc Hi Hpc Hm|i cond Hi|i cond Hi|i cond Hi|i all func Hi Hm|i all func Hi|i all func Hi
    |i all func Hi Hm|i inside func Hi|i k t inside func Hi Hk Ht|i inside func Hi Hall|i r Hi].
  - eapply cv_move_ok; [done|exact Hi|mutex_tac|by apply taken|mutex_tac|right]. split; [done|]. destruct Hpc as [->| ->]; mutex_tac.
  - destruct (cond (cv_data s)) eqn:Ec.
    + eapply cv_move_ok; [done|exact Hi|mutex_tac|exact (released s i _ Hok Hi ltac:(by left))|mutex_tac|right; mutex_tac].
    + eapply cv_move_ok; [done|exact Hi| |by apply kept| |right; mutex_tac].
      * rewrite <-(co_mutex s Hok i _ Hi). mutex_tac.
      * intros _. exists cond. by split; [|left].
  - eapply cv_move_ok; [done|exact Hi|mutex_tac|exact (released s i _ Hok Hi ltac:(by right; left))| |right; mutex_tac].
    intros _. exists cond. split; [done|right]. by split; [left|].
  - eapply cv_move_ok; [done|exact Hi| |by apply kept|mutex_tac|right; mutex_tac].
    rewrite <-(co_mutex s Hok i _ Hi). mutex_tac.
  - eapply cv_move_ok; [done|exact Hi|mutex_tac|by apply taken|mutex_tac|right; mutex_tac].
  - eapply cv_move_ok; [done|exact Hi| |by apply kept|mutex_tac|left; mutex_tac].
    rewrite <-(co_mutex s Hok i _ Hi). mutex_tac.
  - eapply cv_move_ok; [done|exact Hi| |by apply kept|mutex_tac|left; mutex_tac].
    rewrite <-(co_mutex s Hok i _ Hi). mutex_tac.
  - eapply cv_move_ok; [done|exact Hi|mutex_tac|by apply taken|mutex_tac|left; mutex_tac].
  - apply notified_ok.
    + rewrite <-list_fmap_compose. erewrite (list_fmap_ext (fst ∘ woken) fst) by (by intros ? [? []]).
      unfold set_cv_pc. rewrite (set_roles i _ CNotify) by done. apply (co_proper s Hok).
    + intros j u. rewrite list_lookup_fmap. unfold set_cv_pc. destruct (<[i := _]> _ !! j) as [u'|] eqn:Eu; [|done].
      intros [= <-]. rewrite wake_mutex. apply SpinLock.insert_cases in Eu as [(-> & -> & _)|[Hne Hj]]; [mutex_tac|].
      exact (released s i _ Hok Hi ltac:(by right; right; right) j u' Hne Hj).
    + intros j u. rewrite list_lookup_fmap. destruct (_ !! j) as [[r []]|]; intros [= <-]; by intros [=].
  - by apply notify_one_ok.
  - eapply notified_ok.
    + unfold set_cv_pc. rewrite (set_roles i _ CNotify) by done. apply (co_proper s Hok).
    + intros j u [(-> & -> & _)|[Hne Hj]]%SpinLock.insert_cases; [mutex_tac|]. exact (released s i _ Hok Hi ltac:(by right; right; right) j u Hne Hj).
    + intros j u [(-> & -> & _)|[Hne Hj]]%SpinLock.insert_cases; [by intros [=]|]. rewrite Forall_lookup in Hall. eauto.
  - eapply cv_move_ok; [done|exact Hi| |by apply kept|mutex_tac|right; mutex_tac].
    rewrite <-(co_mutex s Hok i _ Hi). mutex_tac.
Qed.

Lemma cv_init_ok d roles : proper roles → cv_ok (cv_init d roles).
Proof.
  intros Hp. assert (∀ i t, cv_threads (cv_init d roles) !! i = Some t → t.2 = CStart) as Hs.
  { intros i t. simpl. rewrite list_lookup_fmap. by destruct (roles !! i); intros [= <-]. }
  split.
  - simpl. by rewrite <-list_fmap_compose, list_fmap_id.
  - intros i t Hi%Hs. destruct t. simpl in *. subst. mutex_tac.
  - intros i t Hi%Hs. unfold asleep. congruence.
  - intros i cond pc Hi%Hs. simpl in Hi. subst. mutex_tac.
Qed.

(** The mutex has one holder, and no wake-up is lost: once every notifier that
    has changed the state has notified, no waiter sleeps, or is about to, while
    its condition holds.  This wants the notifiers to use [notify_all], or one
    waiter per wrapper, and then it does not matter whether the state is changed
    under the mutex or before the mutex is taken. *)
Theorem cv_no_lost_wakeup d roles s :
  proper roles → rtc cv_step (cv_init d roles) s →
  (∀ i j t u, cv_threads s !! i = Some t → cv_threads s !! j = Some u → holds_mutex t → holds_mutex u → i = j) ∧
  (Forall (λ t, ¬ on_its_way t) (cv_threads s) →
   ∀ i cond pc, cv_threads s !! i = Some (Waiter cond, pc) → dormant pc → cond (cv_data s) = false).
Proof.
  intros Hp Hr. assert (cv_ok s) as Hok.
  { eapply (rtc_invariant cv_step); [exact cv_step_ok|by apply cv_init_ok|exact Hr]. }
  split.
  - intros i j t u Hi Hj Ht%(co_mutex s Hok i t Hi) Hu%(co_mutex s Hok j u Hj). congruence.
  - rewrite Forall_lookup. intros Hq i cond pc Hi Hd. destruct (cond (cv_data s)) eqn:Ec; [|done].
    destruct (co_wake s Hok i cond pc Hi Hd Ec) as (j & t & Hj & Ht). by destruct (Hq j t Hj).
Qed.

End CV.

(** Two waiters and a [notify_one]: one of them is left asleep though its
    condition holds. *)
Example notify_one_two_waiters : ∃ s,
  rtc cv_step (cv_init false [Waiter (λ b, b); Waiter (λ b, b); Notifier true false (λ _, true)]) s ∧
  Forall (λ t, ¬ on_its_way t) (cv_threads s) ∧
  cv_threads s !! 1%nat = Some (Waiter (λ b, b), CSleep) ∧ cv_data s = true.
Proof.
  eexists. split.
  { eapply rtc_l; [apply (cv_lock_wait _ 0 (λ b, b) CStart); [done|by left|done]|].
    eapply rtc_l; [apply (cv_test _ 0 (λ b, b)); done|].
    eapply rtc_l; [apply (cv_sleep _ 0 (λ b, b)); done|].
    eapply rtc_l; [apply (cv_lock_wait _ 1 (λ b, b) CStart); [done|by left|done]|].
    eapply rtc_l; [apply (cv_test _ 1 (λ b, b)); done|].
    eapply rtc_l; [apply (cv_sleep _ 1 (λ b, b)); done|].
    eapply rtc_l; [apply (cv_lock_func _ 2 false (λ _, true)); done|].
    eapply rtc_l; [apply (cv_func _ 2 false (λ _, true)); done|].
    eapply rtc_l; [apply (cv_notify_one _ 2 0 (Waiter (λ b, b), CSleep) true (λ _, true)); done|]. apply rtc_refl. }
  split; [|done]. simpl. repeat constructor; intros [[=]|[=]].
Qed.
End CVWrapper.
