(* ===== verification/ThreadPool.v ===== *)
(** * The thread pool

    [include/common/thread_pool.h]: workers take functions from a queue; the
    destructor queues one empty function per worker and joins them.  The queue
    is moodycamel's [BlockingConcurrentQueue], whose documentation promises the
    order of one producer's elements only: a consumer gets an element that is
    the oldest of its producer.

    Callers, workers and the destructor are a step relation.  A task is a value
    that is logged when it has run; producer 0 is the thread that destroys the
    pool. *)
From S2P Require Import Prelude.
From Stdlib Require Import Lia.
From stdpp Require Import base list relations strings.

Section ThreadPool.
Context {T : Type}.
(** The threads that call [execute]. *)
Context (caller : nat → Prop).

Inductive worker_state := WIdle | WRunning (t : T) | WExited.
Inductive pool_pc :=
  | Alive
  | Stopping (left : nat)  (** empty functions still to queue *)
  | Joining
  | Destroyed.

Record ThreadPool := mkPool {
  workload : list (nat * option T);
  threads : list worker_state;
  tp_pc : pool_pc;
  submitted : list T;
  ran : list T }.

Definition new_ThreadPool (size : nat) : ThreadPool :=
  mkPool [] (replicate size WIdle) Alive [] [].

(** Entry [j] is the oldest of its producer. *)
Definition oldest (q : list (nat * option T)) (j p : nat) : Prop :=
  ∀ i x, i < j → q !! i = Some (p, x) → False.

Inductive tp_step (s : ThreadPool) : ThreadPool → Prop :=
  | tp_execute p t :
      tp_pc s = Alive → caller p →
      tp_step s (mkPool (workload s ++ [(p, Some t)]) (threads s) Alive (submitted s ++ [t]) (ran s))
  | tp_destroy :
      tp_pc s = Alive →
      tp_step s (mkPool (workload s) (threads s) (Stopping (length (threads s))) (submitted s) (ran s))
  | tp_stop n :
      tp_pc s = Stopping (S n) →
      tp_step s (mkPool (workload s ++ [(0, None)]) (threads s) (Stopping n) (submitted s) (ran s))
  | tp_stopped :
      tp_pc s = Stopping 0 →
      tp_step s (mkPool (workload s) (threads s) Joining (submitted s) (ran s))
  | tp_join :
      tp_pc s = Joining → Forall (eq WExited) (threads s) →
      tp_step s (mkPool (workload s) (threads s) Destroyed (submitted s) (ran s))
  | tp_dequeue i j p x :
      threads s !! i = Some WIdle → workload s !! j = Some (p, x) → oldest (workload s) j p →
      tp_step s (mkPool (delete j (workload s))
                   (<[i := match x with Some t => WRunning t | None => WExited end]> (threads s))
                   (tp_pc s) (submitted s) (ran s))
  | tp_run i t :
      threads s !! i = Some (WRunning t) →
      tp_step s (mkPool (workload s) (<[i := WIdle]> (threads s)) (tp_pc s) (submitted s) (ran s ++ [t])).

(** ** Where the tasks are *)
Definition task_of (w : worker_state) : option T := match w with WRunning t => Some t | _ => None end.
Definition exit_of (w : worker_state) : option unit := match w with WExited => Some tt | _ => None end.
Definition queued (s : ThreadPool) : list T := omap snd (workload s).
Definition running (s : ThreadPool) : list T := omap task_of (threads s).
Definition exited (s : ThreadPool) : nat := length (omap exit_of (threads s)).

Lemma threads_set {B} (f : worker_state → option B) l i w w' :
  l !! i = Some w →
  ∃ l', l ≡ₚ w :: l' ∧ <[i := w']> l ≡ₚ w' :: l' ∧
    omap f l ≡ₚ omap f [w] ++ omap f l' ∧ omap f (<[i := w']> l) ≡ₚ omap f [w'] ++ omap f l'.
Proof.
  intros (l1 & l2 & -> & ->)%list_elem_of_split_length. exists (l1 ++ l2).
  rewrite insert_app_r_alt, Nat.sub_diag by done. cbn [insert list_insert].
  assert (∀ v, l1 ++ v :: l2 ≡ₚ v :: l1 ++ l2) as Hp by (intros v; by rewrite Permutation_middle).
  split_and!; [apply Hp..| |]; rewrite Hp; by rewrite <-omap_app.
Qed.

(** No task is lost or run twice, whoever submits: each is queued, running or
    has run. *)
Definition conserved (s : ThreadPool) : Prop := submitted s ≡ₚ ran s ++ running s ++ queued s.

Lemma step_conserves s s' : conserved s → tp_step s s' → conserved s'.
Proof.
  unfold conserved. intros Hc Hs.
  destruct Hs as [p t _ _|_|n _|_|_ _|i j p x Hi Hj _|i t Hi];
    unfold running, queued in *; cbn [submitted ran threads workload]; try done.
  - rewrite omap_app. cbn. rewrite Hc. solve_Permutation.
  - rewrite omap_app. cbn. by rewrite app_nil_r.
  - rewrite Hc. rewrite (delete_Permutation _ _ _ Hj) at 1.
    destruct (threads_set task_of _ _ _ (match x with Some t => WRunning t | None => WExited end) Hi)
      as (l' & _ & _ & E1 & E2). rewrite E1, E2. destruct x; cbn; solve_Permutation.
  - rewrite Hc. destruct (threads_set task_of _ _ _ WIdle Hi) as (l' & _ & _ & E1 & E2).
    rewrite E1, E2. cbn. solve_Permutation.
Qed.

End ThreadPool.

Arguments ThreadPool : clear implicits.
Arguments worker_state : clear implicits.

(** ** The owner submits

    All tasks come from the thread that destroys the pool: the queue is then
    the tasks in order, followed by the empty functions. *)
Section Owner.
Context {T : Type}.
Local Notation step := (tp_step (T := T) (eq 0)).

Definition stops_left (s : ThreadPool T) : nat :=
  match tp_pc s with Alive => length (threads s) | Stopping n => n | _ => 0 end.

Record pool_inv (size : nat) (s : ThreadPool T) : Prop := {
  pi_conserved : conserved s;
  pi_size : length (threads s) = size;
  pi_queue : ∃ ts k, workload s = ((λ t, (0, Some t)) <$> ts) ++ replicate k (0, None) ∧
    k + exited s + stops_left s = size ∧ (0 < exited s → ts = []) ∧ (tp_pc s = Alive → k = 0);
  pi_destroyed : tp_pc s = Destroyed → Forall (eq WExited) (threads s) }.

Lemma oldest_first (q : list (nat * option T)) j x :
  Forall (λ e, e.1 = 0) q → q !! j = Some (0, x) → oldest q j 0 → j = 0.
Proof.
  intros Hq Hj Ho. destruct j as [|j]; [done|]. exfalso.
  destruct q as [|[p y] q]; [done|]. apply Forall_cons in Hq as [Hp _]. cbn in Hp. subst p.
  apply (Ho 0 y); [lia|done].
Qed.

Lemma exited_set (l : list (worker_state T)) i w w' :
  l !! i = Some w → length (omap exit_of (<[i := w']> l)) + length (omap exit_of [w]) =
    length (omap exit_of l) + length (omap exit_of [w']).
Proof.
  intros Hi. destruct (threads_set exit_of l i w w' Hi) as (l' & _ & _ & -> & ->).
  rewrite !length_app. lia.
Qed.

Lemma exited_bound (l : list (worker_state T)) : length (omap exit_of l) ≤ length l.
Proof. induction l as [|[] l IH]; cbn; lia. Qed.

Lemma all_exited (l : list (worker_state T)) : length (omap exit_of l) = length l → Forall (eq WExited) l.
Proof.
  induction l as [|w l IH]; intros E; [constructor|]. pose proof (exited_bound l).
  destruct w; cbn in E; try lia. constructor; [done|]. apply IH. lia.
Qed.

Lemma queue_owned (ts : list T) k :
  Forall (λ e : nat * option T, e.1 = 0) (((λ t, (0, Some t)) <$> ts) ++ replicate k (0, None)).
Proof.
  apply Forall_app. split; [apply Forall_fmap, Forall_true; done|]. by apply Forall_replicate.
Qed.

Lemma step_pool size s s' : pool_inv size s → step s s' → pool_inv size s'.
Proof.
  intros [Hc Hsz (ts & k & Hq & Hk & Hts & Hal) Hd] Hs.
  pose proof (step_conserves _ _ _ Hc Hs) as Hc'. unfold exited, stops_left in *.
  destruct Hs as [p t Ha <-|Ha|n Ha|Ha|Ha Hex|i j p x Hi Hj Ho|i t Hi];
    (split; [exact Hc'|cbn [threads]; rewrite ?length_insert; done| |]); unfold exited, stops_left; cbn [workload threads tp_pc] in *; try done;
    rewrite ?Ha in *.
  - rewrite (Hal eq_refl) in *. exists (ts ++ [t]), 0. rewrite Hq, fmap_app.
    split_and!; [by rewrite !app_nil_r|done| |done]. intros. lia.
  - exists ts, k. split_and!; [done|lia|done|done].
  - exists ts, (S k). rewrite Hq, replicate_S_end, app_assoc. split_and!; [done|lia|done|done].
  - exists ts, k. split_and!; [done|lia|done|done].
  - exists ts, k. split_and!; [done|lia|done|done].
  - assert (p = 0) as ->.
    { pose proof (queue_owned ts k) as Hw. rewrite <-Hq in Hw. exact (Forall_lookup_1 _ _ _ _ Hw Hj). }
    assert (j = 0) as ->. { apply (oldest_first (workload s) j x); [|done|done]. rewrite Hq. apply queue_owned. }
    rewrite Hq in Hj |- *. destruct ts as [|t ts]; cbn in Hj |- *.
    + destruct k as [|k]; [done|]. cbn in Hj. injection Hj as <-.
      pose proof (exited_set _ _ _ WExited Hi) as He. cbn in He. rewrite length_insert.
      exists [], k. split_and!; [done| |done|intros E; specialize (Hal E); lia].
      destruct (tp_pc s); [specialize (Hal eq_refl)|..]; lia.
    + injection Hj as <-. pose proof (exited_set _ _ _ (WRunning t) Hi) as He. cbn in He.
      rewrite length_insert. exists ts, k. split_and!; [done| | |done].
      * destruct (tp_pc s); lia.
      * intros Hpos. discriminate Hts. lia.
  - intros E. pose proof (Hd E) as Hall. rewrite Forall_lookup in Hall. by specialize (Hall i WIdle Hi).
  - pose proof (exited_set _ _ _ WIdle Hi) as He. cbn in He. rewrite length_insert.
    exists ts, k. split_and!; [done|destruct (tp_pc s); lia| |done]. intros ?. apply Hts. lia.
  - intros E. pose proof (Hd E) as Hall. rewrite Forall_lookup in Hall. by specialize (Hall i _ Hi).
Qed.

Lemma start_pool size : pool_inv size (new_ThreadPool size).
Proof.
  assert (∀ n, omap (exit_of (T := T)) (replicate n WIdle) = []) as He by (induction n; done).
  assert (∀ n, omap (task_of (T := T)) (replicate n WIdle) = []) as Ht by (induction n; done).
  split; unfold conserved, running, queued, exited, stops_left; cbn; try done.
  - by rewrite Ht.
  - apply length_replicate.
  - exists [], 0. rewrite He, length_replicate. split_and!; [done|cbn; lia|done|done].
Qed.

Lemma reach_pool size s : rtc step (new_ThreadPool size) s → pool_inv size s.
Proof. apply (rtc_invariant step (pool_inv size)); [apply step_pool|apply start_pool]. Qed.

(** *** The destructor returns *)
Definition pool_work (s : ThreadPool T) : nat :=
  match tp_pc s with Stopping n => 3 * n + 2 | Joining => 1 | _ => 0 end +
  2 * length (workload s) + length (running s).

Lemma step_work s s' : tp_pc s ≠ Alive → step s s' → tp_pc s' ≠ Alive ∧ pool_work s' < pool_work s.
Proof.
  unfold pool_work, running. intros Hna Hs.
  destruct Hs as [p t Ha _|Ha|n Ha|Ha|Ha _|i j p x Hi Hj _|i t Hi]; try done;
    cbn [tp_pc workload threads]; rewrite ?Ha, ?length_app; cbn [length];
    (split; [done|]); try lia.
  - pose proof (lookup_lt_Some _ _ _ Hj). rewrite length_delete by done.
    destruct (threads_set task_of _ _ _ (match x with Some t => WRunning t | None => WExited end) Hi)
      as (l' & _ & _ & -> & ->). rewrite !length_app. destruct x; cbn; lia.
  - destruct (threads_set task_of _ _ _ WIdle Hi) as (l' & _ & _ & -> & ->). rewrite !length_app. cbn. lia.
Qed.

Lemma worker_left (l : list (worker_state T)) :
  Forall (eq WExited) l ∨ ∃ i, l !! i = Some WIdle ∨ ∃ t, l !! i = Some (WRunning t).
Proof.
  induction l as [|w l IH]; [by left|]. destruct w as [|t|].
  - right. exists 0. by left.
  - right. exists 0. right. by exists t.
  - destruct IH as [?|(i & Hi)]; [left; by constructor|right; by exists (S i)].
Qed.

Lemma stop_progress size s :
  pool_inv size s → tp_pc s ≠ Alive → tp_pc s = Destroyed ∨ ∃ s', step s s'.
Proof.
  intros [_ Hsz (ts & k & Hq & Hk & _ & _) _] Hna. unfold stops_left in Hk.
  destruct (tp_pc s) as [|[|n]| |] eqn:E; [done| | | |by left]; right.
  - eexists. by apply tp_stopped.
  - eexists. by eapply tp_stop.
  - destruct (worker_left (threads s)) as [Hall|(i & [Hi|[t Hi]])];
      [eexists; by apply tp_join| |eexists; by eapply tp_run].
    destruct (workload s) as [|[p x] q] eqn:Ew.
    + exfalso. symmetry in Hq. apply app_nil in Hq as [_ Hr]. destruct k; [|done].
      assert (Forall (eq WExited) (threads s)) as Hall by (apply all_exited; unfold exited in Hk; lia).
      rewrite Forall_lookup in Hall. by specialize (Hall i _ Hi).
    + eexists. apply (tp_dequeue _ s i 0 p x); [done|by rewrite Ew|]. intros i' y Hi'. lia.
Qed.

(** The pool loses nothing.  When the thread that destroys a pool of at least
    one worker is the one that submitted the tasks, then in every interleaving
    each task is queued, running or has run, once; the destructor cannot
    deadlock and returns after a bounded number of steps; and when it has
    returned every task has run. *)
Theorem pool_runs_all size s :
  0 < size → rtc step (new_ThreadPool size) s →
  submitted s ≡ₚ ran s ++ running s ++ queued s ∧
  (tp_pc s ≠ Alive → (tp_pc s = Destroyed ∨ ∃ s', step s s') ∧
     ∀ n s', nsteps step n s s' → n ≤ pool_work s) ∧
  (tp_pc s = Destroyed → ran s ≡ₚ submitted s).
Proof.
  intros Hpos Hrun. pose proof (reach_pool size s Hrun) as Hi. split_and!.
  - apply Hi.
  - intros Hna. split; [by eapply stop_progress|]. intros n s' Hn. revert Hna.
    induction Hn as [s1|n s1 s2 s3 H12 _ IH]; intros Hna; [lia|].
    destruct (step_work s1 s2 Hna H12) as [Hna2 Hlt].
    pose proof (IH (rtc_r _ _ _ Hrun H12) (step_pool size _ _ Hi H12) Hna2). lia.
  - intros E. destruct Hi as [Hc Hsz (ts & k & Hq & Hk & Hts & _) Hd]. rewrite Hc.
    pose proof (Hd E) as Hall.
    assert (running s = [] ∧ exited s = length (threads s)) as [Hr He].
    { unfold running, exited. clear -Hall. induction Hall as [|w l <- _ [IH1 IH2]]; [done|]. cbn.
      rewrite IH1, IH2. done. }
    rewrite Hr. unfold queued. rewrite Hq, Hts by lia. cbn.
    assert (omap snd (replicate k (0, None : option T)) = []) as -> by (clear; induction k; done).
    by rewrite !app_nil_r.
Qed.

End Owner.

(** ** Concrete pools *)
Module PoolRuns.

(** One worker, one task of the owner, then the destructor. *)
Definition done1 : ThreadPool string := mkPool [] [WExited] Destroyed ["a"] ["a"].

Lemma run1 : rtc (tp_step (eq 0)) (new_ThreadPool 1) done1.
Proof.
  eapply rtc_l; [by apply (tp_execute _ _ 0 "a")|]. cbn.
  eapply rtc_l; [by apply tp_destroy|]. cbn.
  eapply rtc_l; [by apply (tp_stop _ _ 0)|]. cbn.
  eapply rtc_l; [by apply tp_stopped|]. cbn.
  eapply rtc_l; [apply (tp_dequeue _ _ 0 0 0 (Some "a")); [done|done|intros ???; lia]|]. cbn.
  eapply rtc_l; [by apply (tp_run _ _ 0 "a")|]. cbn.
  eapply rtc_l; [apply (tp_dequeue _ _ 0 0 0 None); [done|done|intros ???; lia]|]. cbn.
  apply rtc_once. apply tp_join; [done|by constructor].
Qed.

Lemma pool_runs_all_witness :
  submitted done1 ≡ₚ ran done1 ++ running done1 ++ queued done1 ∧
  (tp_pc done1 ≠ Alive → (tp_pc done1 = Destroyed ∨ ∃ s', tp_step (eq 0) done1 s') ∧
     ∀ n s', nsteps (tp_step (eq 0)) n done1 s' → n ≤ pool_work done1) ∧
  (tp_pc done1 = Destroyed → ran done1 ≡ₚ submitted done1).
Proof. apply (pool_runs_all 1 done1); [lia|exact run1]. Defined.

(** When another thread submits, its task can be overtaken by the empty
    functions: the pool is destroyed with the task in the queue. *)
Example foreign_task_lost :
  ∃ s : ThreadPool string, rtc (tp_step (λ _, True)) (new_ThreadPool 1) s ∧
    tp_pc s = Destroyed ∧ submitted s = ["a"] ∧ ran s = [] ∧ queued s = ["a"].
Proof.
  exists (mkPool [(1, Some "a")] [WExited] Destroyed ["a"] []). split_and!; [|done..].
  eapply rtc_l; [by apply (tp_execute _ _ 1 "a")|]. cbn.
  eapply rtc_l; [by apply tp_destroy|]. cbn.
  eapply rtc_l; [by apply (tp_stop _ _ 0)|]. cbn.
  eapply rtc_l; [by apply tp_stopped|]. cbn.
  eapply rtc_l; [apply (tp_dequeue _ _ 0 1 0 None); [done|done|]|].
  { intros [|i] x Hi; [done|lia]. }
  cbn. apply rtc_once. apply tp_join; [done|by constructor].
Qed.

End PoolRuns.
