(* ===== verification/Msp.v ===== *)
(** * Keys, signers and configuration

    [common/yaml_config.cpp], [common/msp/crypto_sign.cpp] and
    [common/msp/crypto_helper.cpp]: the configuration names the servers and the
    files of their keys; a process opens, by its role, a signer for every key
    that it signs with or verifies against.

    yaml-cpp and OpenSSL are parameters.  A node that cannot be converted
    throws, which ends the process; the key files are a map from paths to the
    key pairs that [generateKeyFiles] wrote. *)
From S2P Require Import Prelude.
From Stdlib Require Import ZArith NArith Lia.
From stdpp Require Import base list gmap strings.

(** ** The configuration *)

(** What the code uses of [YAML::Node]. *)
Class Yaml := {
  Node : Type;
  node_get : Node → string → Node;
  node_defined : Node → bool;
  node_items : Node → list Node;
  as_string : Node → outcome string;
  as_bool : Node → outcome bool }.

Record ServerConfigStruct := mkServerConfig {
  sc_ip : string; priFilePath : string; pubFilePath : string; usrPriFilePath : string; usrPubFilePath : string }.
Record EpochConfigStruct := mkEpochConfig { ec_priFilePath : string; ec_pubFilePath : string }.

Section Config.
Context `{Yaml}.

Fixpoint strings_of (l : list Node) : outcome (list string) :=
  match l with [] => Ok [] | n :: l' => s ← as_string n; r ← strings_of l'; Ok (s :: r) end.

(** A sequence that may be missing. *)
Definition string_list (n : Node) : outcome (list string) := if node_defined n then strings_of (node_items n) else Ok [].
Definition item_count (n : Node) : nat := if node_defined n then length (node_items n) else 0.

Definition getBlockServerIPs (data : Node) : outcome (list string) := string_list (node_get data "server_ips").
Definition getBlockServerCount (data : Node) : nat := item_count (node_get data "server_ips").
Definition getEpochServerIPs (data : Node) : outcome (list string) := string_list (node_get data "epoch_ips").
Definition getAggregationClusterIPs (data : Node) : outcome (list string) :=
  string_list (node_get (node_get data "aggregation") "cluster_ips").
Definition getLocalAggregationBlockServerCount (data : Node) : nat :=
  item_count (node_get (node_get data "aggregation") "cluster_ips").
Definition getLocalBlockServerIP (data : Node) : outcome string := as_string (node_get data "local_server_ip").

Definition getBlockServerConfig (ip : string) (data : Node) : outcome (option ServerConfigStruct) :=
  let serverData := node_get (node_get data "server_data") ip in
  if node_defined serverData then
    pub ← as_string (node_get serverData "public_crt");
    pri ← as_string (node_get serverData "private_crt");
    usrPub ← as_string (node_get serverData "user_public_crt");
    usrPri ← as_string (node_get serverData "user_private_crt");
    Ok (Some (mkServerConfig ip pri pub usrPri usrPub))
  else Ok None.

Definition getEpochServerConfig (data : Node) : outcome (option EpochConfigStruct) :=
  let serverData := node_get data "epoch_data" in
  if node_defined serverData then
    pub ← as_string (node_get serverData "public_crt");
    pri ← as_string (node_get serverData "private_crt");
    Ok (Some (mkEpochConfig pri pub))
  else Ok None.

Definition initCrypto (data : Node) : outcome bool := as_bool (node_get data "init_crypto").
Definition resetEpoch (data : Node) : outcome bool := as_bool (node_get data "reset_epoch").
Definition sendToAllClientProxy (data : Node) : outcome bool := as_bool (node_get data "send_to_all_client_proxy").
Definition useAggregation (data : Node) : outcome bool := as_bool (node_get (node_get data "aggregation") "enable").
Definition trManagerShowDetail (data : Node) : outcome bool := as_bool (node_get data "tr_manager_show_categorize_detail").
Definition trManagerReuseAbortTransaction (data : Node) : outcome bool := as_bool (node_get data "tr_manager_reuse_abort_transaction").
Definition enableEarlyExecution (data : Node) : outcome bool := as_bool (node_get data "early_execution").
Definition enableAsyncBlockGen (data : Node) : outcome bool := as_bool (node_get data "async_block_gen").
Definition enableEarlyReturn (data : Node) : outcome bool := as_bool (node_get data "early_return").
Definition getCCType (data : Node) : outcome string := as_string (node_get data "cc_type").
Definition getCustomCCName (data : Node) : outcome string := as_string (node_get data "cc_test_func_name").
Definition getCCConfig (data : Node) : Node := node_get data "cc_config".
Definition getHeartBeatConfig (data : Node) : Node := node_get data "heart_beat_config".

(** [getInstance]: [load] reads a file; the result is kept. *)
Definition getInstance (load : string → option Node) (config : option Node) : outcome (Node * option Node) :=
  match config with
  | Some c => Ok (c, config)
  | None =>
      match load "config.yaml" with
      | Some c => Ok (c, Some c)
      | None =>
          match load "/tmp/config.yaml" with
          | Some c => Ok (c, Some c)
          | None => Fatal CheckFailed
          end
      end
  end.

End Config.

(** ** Signers *)

(** What the code uses of OpenSSL on a key (a null key is [None]):
    [EVP_VerifyFinal] returns 1 for a signature of the message, 0 for a wrong
    one and a negative number for an error. *)
Class OpenSSL := {
  Key : Type;
  sign_init : bool;
  sign_update : list N → bool;
  sign_final : option Key → list N → option (list N);
  verify_init : bool;
  verify_update : list N → bool;
  verify_final : option Key → list N → list N → Z }.

(** Documented: initialising and hashing succeed; a private key signs, and its
    public key verifies the signature. *)
Class OpenSSLLaws `{OpenSSL} : Prop := {
  sign_init_ok : sign_init = true;
  sign_update_ok m : sign_update m = true;
  verify_init_ok : verify_init = true;
  verify_update_ok m : verify_update m = true;
  sign_ok k m : is_Some (sign_final (Some k) m);
  verify_signed k m s : sign_final (Some k) m = Some s → verify_final (Some k) m s = 1%Z }.

Record CryptoSign `{OpenSSL} := mkSign { pubKey : option Key; pivKey : option Key }.

(** The two files of a key pair. *)
Inductive key_file `{OpenSSL} := PublicFile (k : Key) | PrivateFile (k : Key).

Section Signers.
Context `{OpenSSL}.
Local Notation files := (gmap string key_file).

Definition openPublicKey (path : string) (fs : files) : option Key :=
  match fs !! path with Some (PublicFile k) => Some k | _ => None end.
Definition openPrivateKey (path : string) (fs : files) : option Key :=
  match fs !! path with Some (PrivateFile k) => Some k | _ => None end.
Definition new_CryptoSign (pub pri : string) (fs : files) : CryptoSign :=
  mkSign _ (openPublicKey pub fs) (openPrivateKey pri fs).

(** The result and the signature; after an error the signature is the buffer. *)
Definition rsaEncrypt (message : list N) (c : CryptoSign) : bool * list N :=
  let buffer := replicate 1024 0%N in
  if negb sign_init then (false, buffer)
  else if negb (sign_update message) then (false, buffer)
  else match sign_final (pivKey c) message with
       | None => (false, buffer)
       | Some s => (true, s)
       end.

(** [!EVP_VerifyFinal(...)] is false for every result but 0. *)
Definition rsaDecrypt (message signature : list N) (c : CryptoSign) : bool :=
  if negb verify_init then false
  else if negb (verify_update message) then false
  else negb (verify_final (pubKey c) message signature =? 0)%Z.

(** The key is fresh. *)
Definition generateKeyFiles (k : Key) (pub pri : string) (fs : files) : files :=
  <[pri := PrivateFile k]> (<[pub := PublicFile k]> fs).

(** ** The signers of a process *)
Inductive ServerType := epochServer | blockServer | user.

Record Msp := mkMsp {
  mp_type : ServerType;
  localCryptoSigner : option CryptoSign;
  localUserCryptoSigner : option CryptoSign;
  epochCryptoSigner : option CryptoSign;
  cryptoSignerMap : gmap string CryptoSign;
  cryptoUserSignerMap : gmap string CryptoSign }.

Context `{Yaml}.

(** The loop over the block servers that opens a signer for each. *)
Fixpoint open_signers (data : Node) (pub pri : ServerConfigStruct → string) (ips : list string) (fs : files)
    (m : gmap string CryptoSign) : outcome (gmap string CryptoSign) :=
  match ips with
  | [] => Ok m
  | ip :: ips' =>
      c ← getBlockServerConfig ip data; remote ← deref c;
      open_signers data pub pri ips' fs (<[ip := new_CryptoSign (pub remote) (pri remote) fs]> m)
  end.

(** The keys of the block servers and of their users, then those of the epoch
    servers. *)
Fixpoint generate_servers (data : Node) (keys : nat → Key) (i : nat) (ips : list string) (fs : files)
    : outcome (nat * files) :=
  match ips with
  | [] => Ok (i, fs)
  | ip :: ips' =>
      c ← getBlockServerConfig ip data; c ← deref c;
      generate_servers data keys (S (S i)) ips'
        (generateKeyFiles (keys (S i)) (usrPubFilePath c) (usrPriFilePath c)
           (generateKeyFiles (keys i) (pubFilePath c) (priFilePath c) fs))
  end.

Definition generateCrypto (data : Node) (keys : nat → Key) (fs : files) : outcome files :=
  ips ← getBlockServerIPs data;
  '(i, fs) ← generate_servers data keys 0 ips fs;
  c ← getEpochServerConfig data; c ← deref c;
  Ok (generateKeyFiles (keys i) (ec_pubFilePath c) (ec_priFilePath c) fs).

Definition initCryptoSign (type : ServerType) (data : Node) (keys : nat → Key) (fs : files) : outcome (files * Msp) :=
  init ← initCrypto data;
  fs ← (if init : bool then generateCrypto data keys fs else Ok fs);
  local ← getLocalBlockServerIP data;
  lc ← getBlockServerConfig local data;
  ec ← getEpochServerConfig data;
  match type with
  | blockServer =>
      ec ← deref ec; lc ← deref lc;
      ips ← getBlockServerIPs data;
      servers ← open_signers data pubFilePath (λ _, priFilePath lc) ips fs ∅;
      users ← open_signers data usrPubFilePath (λ _, priFilePath lc) ips fs ∅;
      Ok (fs, mkMsp type (servers !! local) (users !! local)
                (Some (new_CryptoSign (ec_pubFilePath ec) (priFilePath lc) fs)) servers users)
  | user =>
      ips ← getBlockServerIPs data;
      servers ← (match ips with
                 | [] => Ok ∅
                 | _ => lc ← deref lc; open_signers data pubFilePath (λ _, usrPriFilePath lc) ips fs ∅
                 end);
      all ← sendToAllClientProxy data;
      users ← (if all : bool then open_signers data usrPubFilePath usrPriFilePath ips fs ∅
               else lc ← deref lc; Ok {[local := new_CryptoSign (usrPubFilePath lc) (usrPriFilePath lc) fs]});
      Ok (fs, mkMsp type (servers !! local) (users !! local) None servers users)
  | epochServer =>
      ec ← deref ec;
      ips ← getBlockServerIPs data;
      servers ← open_signers data pubFilePath (λ _, ec_priFilePath ec) ips fs ∅;
      Ok (fs, mkMsp type None None (Some (new_CryptoSign (ec_pubFilePath ec) (ec_priFilePath ec) fs)) servers ∅)
  end.

(** The getters; a signer that does not exist is null. *)
Definition getLocalBlockServerSigner (debug : bool) (m : Msp) : outcome (option CryptoSign) :=
  DCHECK debug (match mp_type m with epochServer => false | _ => true end);; Ok (localCryptoSigner m).
Definition getLocalUserSigner (debug : bool) (m : Msp) : outcome (option CryptoSign) :=
  DCHECK debug (match mp_type m with epochServer => false | _ => true end);; Ok (localUserCryptoSigner m).
Definition getEpochServerSigner (debug : bool) (m : Msp) : outcome (option CryptoSign) :=
  DCHECK debug (match mp_type m with user => false | _ => true end);; Ok (epochCryptoSigner m).
Definition getBlockServerSigner (ip : string) (m : Msp) : option CryptoSign := cryptoSignerMap m !! ip.
Definition getUserSigner (debug : bool) (ip : string) (m : Msp) : outcome (option CryptoSign) :=
  DCHECK debug (match mp_type m with epochServer => false | _ => true end);; Ok (cryptoUserSignerMap m !! ip).

End Signers.

(** ** Signatures between processes *)
Section Exchange.
Context `{OpenSSLLaws} `{Yaml}.
Context (ips : list string) (cfg : string → ServerConfigStruct) (ec : EpochConfigStruct).

(** The configuration of a process on server [local]. *)
Record config_ok (local : string) (all init : bool) (data : Node) : Prop := {
  co_init : initCrypto data = Ok init;
  co_all : sendToAllClientProxy data = Ok all;
  co_ips : getBlockServerIPs data = Ok ips;
  co_local : getLocalBlockServerIP data = Ok local;
  co_listed : local ∈ ips;
  co_server ip : ip ∈ ips → getBlockServerConfig ip data = Ok (Some (cfg ip));
  co_epoch : getEpochServerConfig data = Ok (Some ec) }.

(** The files hold a key pair for every server, every user and the epoch
    servers. *)
Record keys_ok (server users : string → Key) (epoch : Key) (fs : gmap string key_file) : Prop := {
  ko_server ip : ip ∈ ips →
    fs !! pubFilePath (cfg ip) = Some (PublicFile (server ip)) ∧ fs !! priFilePath (cfg ip) = Some (PrivateFile (server ip));
  ko_user ip : ip ∈ ips →
    fs !! usrPubFilePath (cfg ip) = Some (PublicFile (users ip)) ∧ fs !! usrPriFilePath (cfg ip) = Some (PrivateFile (users ip));
  ko_epoch : fs !! ec_pubFilePath ec = Some (PublicFile epoch) ∧ fs !! ec_priFilePath ec = Some (PrivateFile epoch) }.

Lemma open_signers_ok data local all init pub pri fs : config_ok local all init data →
  ∀ l m, l ⊆ ips → ∃ m', open_signers data pub pri l fs m = Ok m' ∧
    ∀ ip, m' !! ip = if decide (ip ∈ l) then Some (new_CryptoSign (pub (cfg ip)) (pri (cfg ip)) fs) else m !! ip.
Proof.
  intros Hc l. induction l as [|ip l IH]; intros m Hl; simpl; [by exists m|].
  rewrite (co_server _ _ _ _ Hc ip) by set_solver. simpl.
  destruct (IH (<[ip := new_CryptoSign (pub (cfg ip)) (pri (cfg ip)) fs]> m)) as (m' & -> & Hm); [set_solver|].
  exists m'. split; [done|]. intros ip'. rewrite Hm.
  destruct (decide (ip' ∈ l)) as [Hin|Hin]; [by rewrite decide_True by set_solver|].
  destruct (decide (ip' = ip)) as [->|Hne].
  - by rewrite lookup_insert_eq, decide_True by set_solver.
  - by rewrite lookup_insert_ne, decide_False by set_solver.
Qed.

(** A signature by one signer is accepted by the other. *)
Definition accepted (by_ : outcome (option CryptoSign)) (at_ : outcome (option CryptoSign)) (message : list N) : Prop :=
  ∃ c c' signature, by_ = Ok (Some c) ∧ at_ = Ok (Some c') ∧
    rsaEncrypt message c = (true, signature) ∧ rsaDecrypt message signature c' = true.

Lemma key_accepted k c c' message :
  pivKey c = Some k → pubKey c' = Some k → accepted (Ok (Some c)) (Ok (Some c')) message.
Proof.
  intros Hc Hc'. destruct (sign_ok k message) as [s Hs]. exists c, c', s. split_and!; [done|done| |].
  - unfold rsaEncrypt. by rewrite sign_init_ok, sign_update_ok, Hc, Hs.
  - unfold rsaDecrypt. by rewrite verify_init_ok, verify_update_ok, Hc', (verify_signed _ _ _ Hs).
Qed.

Section Processes.
Context (server users : string → Key) (epoch : Key) (fs : gmap string key_file).
Context (Hfs : keys_ok server users epoch fs) (debug : bool) (keys : nat → Key).

Lemma dcheck_ok : DCHECK debug true = Ok tt.
Proof. by destruct debug. Qed.

(** The keys behind a signer. *)
Lemma signer_keys pub pri k k' :
  fs !! pub = Some (PublicFile k) → fs !! pri = Some (PrivateFile k') → new_CryptoSign pub pri fs = mkSign _ (Some k) (Some k').
Proof. intros E1 E2. unfold new_CryptoSign, openPublicKey, openPrivateKey. by rewrite E1, E2. Qed.

Lemma block_server_signers local all data : config_ok local all false data →
  ∃ m, initCryptoSign blockServer data keys fs = Ok (fs, m) ∧
    getLocalBlockServerSigner debug m = Ok (Some (mkSign _ (Some (server local)) (Some (server local)))) ∧
    getEpochServerSigner debug m = Ok (Some (mkSign _ (Some epoch) (Some (server local)))) ∧
    (∀ ip, ip ∈ ips → getBlockServerSigner ip m = Some (mkSign _ (Some (server ip)) (Some (server local)))) ∧
    (∀ ip, ip ∈ ips → getUserSigner debug ip m = Ok (Some (mkSign _ (Some (users ip)) (Some (server local))))).
Proof.
  intros Hc. pose proof Hc as []. pose proof (ko_server _ _ _ _ Hfs) as Ks. pose proof (ko_user _ _ _ _ Hfs) as Ku.
  pose proof (ko_epoch _ _ _ _ Hfs) as [Ke _].
  unfold initCryptoSign. rewrite co_init0. simpl. rewrite co_local0. simpl. rewrite co_server0 by done. simpl.
  rewrite co_epoch0. simpl. rewrite co_ips0. simpl.
  destruct (open_signers_ok data local all false pubFilePath (λ _, priFilePath (cfg local)) fs Hc ips ∅) as (m1 & -> & Hm1); [done|].
  destruct (open_signers_ok data local all false usrPubFilePath (λ _, priFilePath (cfg local)) fs Hc ips ∅) as (m2 & -> & Hm2); [done|].
  simpl. eexists. split; [done|].
  unfold getLocalBlockServerSigner, getEpochServerSigner, getBlockServerSigner, getUserSigner. simpl. rewrite dcheck_ok. simpl.
  split_and!.
  - rewrite Hm1, decide_True by done. by rewrite (signer_keys _ _ _ _ (proj1 (Ks local co_listed0)) (proj2 (Ks local co_listed0))).
  - by rewrite (signer_keys _ _ _ _ Ke (proj2 (Ks local co_listed0))).
  - intros ip Hip. rewrite Hm1, decide_True by done. by rewrite (signer_keys _ _ _ _ (proj1 (Ks ip Hip)) (proj2 (Ks local co_listed0))).
  - intros ip Hip. rewrite Hm2, decide_True by done. by rewrite (signer_keys _ _ _ _ (proj1 (Ku ip Hip)) (proj2 (Ks local co_listed0))).
Qed.

Lemma user_signers local all data : config_ok local all false data →
  ∃ m, initCryptoSign user data keys fs = Ok (fs, m) ∧
    getLocalUserSigner debug m = Ok (Some (mkSign _ (Some (users local)) (Some (users local)))) ∧
    (∀ ip, ip ∈ ips → getBlockServerSigner ip m = Some (mkSign _ (Some (server ip)) (Some (users local)))) ∧
    (∀ ip, ip ∈ ips → all = true ∨ ip = local → getUserSigner debug ip m = Ok (Some (mkSign _ (Some (users ip)) (Some (users ip))))).
Proof.
  intros Hc. pose proof Hc as []. pose proof (ko_server _ _ _ _ Hfs) as Ks. pose proof (ko_user _ _ _ _ Hfs) as Ku.
  assert (∀ ip, ip ∈ ips → new_CryptoSign (usrPubFilePath (cfg ip)) (usrPriFilePath (cfg ip)) fs = mkSign _ (Some (users ip)) (Some (users ip))) as Kp
    by (intros ip Hip; by rewrite (signer_keys _ _ _ _ (proj1 (Ku ip Hip)) (proj2 (Ku ip Hip)))).
  unfold initCryptoSign. rewrite co_init0. simpl. rewrite co_local0. simpl. rewrite co_server0 by done. simpl.
  rewrite co_epoch0. simpl. rewrite co_ips0. simpl.
  destruct (open_signers_ok data local all false pubFilePath (λ _, usrPriFilePath (cfg local)) fs Hc ips ∅) as (m1 & E1 & Hm1); [done|].
  assert ((match ips with [] => Ok ∅ | _ => open_signers data pubFilePath (λ _, usrPriFilePath (cfg local)) ips fs ∅ end) = Ok m1) as ->.
  { clear -E1 co_listed0. destruct ips; [by apply not_elem_of_nil in co_listed0|done]. }
  simpl. rewrite co_all0. simpl.
  assert (∃ m2, (if all then open_signers data usrPubFilePath usrPriFilePath ips fs ∅
     else Ok {[local := new_CryptoSign (usrPubFilePath (cfg local)) (usrPriFilePath (cfg local)) fs]}) = Ok m2 ∧
     ∀ ip, ip ∈ ips → all = true ∨ ip = local → m2 !! ip = Some (mkSign _ (Some (users ip)) (Some (users ip)))) as (m2 & -> & Hm2).
  { destruct all.
    - destruct (open_signers_ok data local true false usrPubFilePath usrPriFilePath fs Hc ips ∅) as (m2 & -> & Hm2); [done|].
      exists m2. split; [done|]. intros ip Hip _. by rewrite Hm2, decide_True, Kp.
    - eexists. split; [done|]. intros ip Hip [?| ->]; [done|]. by rewrite lookup_singleton_eq, Kp. }
  simpl. eexists. split; [done|].
  unfold getLocalUserSigner, getBlockServerSigner, getUserSigner. simpl. rewrite dcheck_ok. simpl. split_and!.
  - by rewrite Hm2 by auto.
  - intros ip Hip. rewrite Hm1, decide_True by done. by rewrite (signer_keys _ _ _ _ (proj1 (Ks ip Hip)) (proj2 (Ku local co_listed0))).
  - intros ip Hip Ha. by rewrite Hm2.
Qed.

Lemma epoch_server_signers local all data : config_ok local all false data →
  ∃ m, initCryptoSign epochServer data keys fs = Ok (fs, m) ∧
    getEpochServerSigner debug m = Ok (Some (mkSign _ (Some epoch) (Some epoch))).
Proof.
  intros Hc. pose proof Hc as []. pose proof (ko_epoch _ _ _ _ Hfs) as [Ke Ke'].
  unfold initCryptoSign. rewrite co_init0. simpl. rewrite co_local0. simpl. rewrite co_server0 by done. simpl.
  rewrite co_epoch0. simpl. rewrite co_ips0. simpl.
  destruct (open_signers_ok data local all false pubFilePath (λ _, ec_priFilePath ec) fs Hc ips ∅) as (m1 & -> & _); [done|].
  simpl. eexists. split; [done|]. unfold getEpochServerSigner. simpl. rewrite dcheck_ok. simpl.
  by rewrite (signer_keys _ _ _ _ Ke Ke').
Qed.

(** C22: The keys are distributed so that the signatures of the protocol
    verify.  With one configuration and one set of key files, processes of every
    role start, and: what a user signs for a server (any server if it sends to
    all of them, its own otherwise) is accepted by every block server under that
    server's user key; what the epoch servers sign is accepted by every block
    server; and what a block server signs is accepted by every other one under
    its address. *)
Theorem msp_signatures_verify lu lb lb' le allu allb allb' alle du db db' de :
  config_ok lu allu false du → config_ok lb allb false db → config_ok lb' allb' false db' → config_ok le alle false de →
  ∃ mu mb mb' me,
    initCryptoSign user du keys fs = Ok (fs, mu) ∧ initCryptoSign blockServer db keys fs = Ok (fs, mb) ∧
    initCryptoSign blockServer db' keys fs = Ok (fs, mb') ∧ initCryptoSign epochServer de keys fs = Ok (fs, me) ∧
    ∀ message,
      (∀ ip, ip ∈ ips → allu = true ∨ ip = lu →
         accepted (getUserSigner debug ip mu) (getUserSigner debug ip mb) message) ∧
      accepted (getLocalUserSigner debug mu) (getUserSigner debug lu mb) message ∧
      accepted (getEpochServerSigner debug me) (getEpochServerSigner debug mb) message ∧
      accepted (getLocalBlockServerSigner debug mb) (Ok (getBlockServerSigner lb mb')) message.
Proof.
  intros Hu Hb Hb' He.
  destruct (user_signers lu allu du Hu) as (mu & Eu & U1 & _ & U3).
  destruct (block_server_signers lb allb db Hb) as (mb & Eb & B1 & B2 & _ & B4).
  destruct (block_server_signers lb' allb' db' Hb') as (mb' & Eb' & _ & _ & B3' & _).
  destruct (epoch_server_signers le alle de He) as (me & Ee & E1).
  exists mu, mb, mb', me. split_and!; [done..|]. intros message. split_and!.
  - intros ip Hip Ha. rewrite U3, B4 by done. by eapply key_accepted.
  - rewrite U1, B4 by apply (co_listed _ _ _ _ Hu). by eapply key_accepted.
  - rewrite E1, B2. by eapply key_accepted.
  - rewrite B1, B3' by apply (co_listed _ _ _ _ Hb). by eapply key_accepted.
Qed.

End Processes.

(** *** Generating the keys *)
Definition server_paths (ip : string) : list string :=
  [pubFilePath (cfg ip); priFilePath (cfg ip); usrPubFilePath (cfg ip); usrPriFilePath (cfg ip)].
Definition all_paths : list string := concat (server_paths <$> ips) ++ [ec_pubFilePath ec; ec_priFilePath ec].

Definition server_pair (k k' : Key) (ip : string) (fs : gmap string key_file) : Prop :=
  fs !! pubFilePath (cfg ip) = Some (PublicFile k) ∧ fs !! priFilePath (cfg ip) = Some (PrivateFile k) ∧
  fs !! usrPubFilePath (cfg ip) = Some (PublicFile k') ∧ fs !! usrPriFilePath (cfg ip) = Some (PrivateFile k').

Lemma generate_servers_ok data local all init keys : config_ok local all init data →
  ∀ l i fs, l ⊆ ips → NoDup (concat (server_paths <$> l)) →
  ∃ n fs', generate_servers data keys i l fs = Ok (n, fs') ∧
    (∀ ip, ip ∈ l → ∃ k k', server_pair k k' ip fs') ∧
    ∀ path, path ∉ concat (server_paths <$> l) → fs' !! path = fs !! path.
Proof.
  intros Hc l. induction l as [|ip l IH]; intros i fs Hl Hnd; simpl.
  { exists i, fs. split_and!; [done|by intros ip ?%not_elem_of_nil|done]. }
  rewrite (co_server _ _ _ _ Hc ip) by set_solver. simpl. rewrite fmap_cons in Hnd. simpl in Hnd.
  pose proof (NoDup_app (server_paths ip) (concat (server_paths <$> l))) as [Happ _].
  destruct (Happ Hnd) as (Hnd1 & Hdis & Hnd2). clear Happ Hnd.
  destruct (IH (S (S i)) (generateKeyFiles (keys (S i)) (usrPubFilePath (cfg ip)) (usrPriFilePath (cfg ip))
    (generateKeyFiles (keys i) (pubFilePath (cfg ip)) (priFilePath (cfg ip)) fs))) as (n & fs' & E & Hin & Hkeep);
    [set_solver|done|].
  exists n, fs'. split_and!; [exact E| |].
  - intros ip' [->|Hip]%elem_of_cons; [|by apply Hin]. exists (keys i), (keys (S i)).
    unfold server_paths in Hnd1, Hdis. rewrite !NoDup_cons, !not_elem_of_cons in Hnd1. destruct_and? Hnd1.
    unfold server_pair, generateKeyFiles in *.
    rewrite !Hkeep by (apply Hdis; set_solver). repeat first [rewrite lookup_insert_eq | rewrite lookup_insert_ne by congruence]. done.
  - intros path Hp. simpl in Hp. rewrite Hkeep by set_solver. unfold generateKeyFiles.
    rewrite !lookup_insert_ne by set_solver. done.
Qed.

(** With distinct paths, [generateCrypto] writes the files that the theorem
    above needs. *)
Lemma generateCrypto_ok data local all init keys fs :
  config_ok local all init data → NoDup all_paths →
  ∃ fs' server users epoch, generateCrypto data keys fs = Ok fs' ∧ keys_ok server users epoch fs'.
Proof.
  intros Hc Hnd. unfold all_paths in Hnd. apply NoDup_app in Hnd as (Hnd1 & Hdis & Hnd2).
  destruct (generate_servers_ok data local all init keys Hc ips 0 fs ltac:(done) Hnd1) as (n & fs1 & E & Hin & _).
  unfold generateCrypto. rewrite (co_ips _ _ _ _ Hc). simpl. rewrite E. simpl. rewrite (co_epoch _ _ _ _ Hc). simpl.
  set (kk := λ ip, match fs1 !! pubFilePath (cfg ip), fs1 !! usrPubFilePath (cfg ip) with
                   | Some (PublicFile k), Some (PublicFile k') => (k, k') | _, _ => (keys 0, keys 0) end).
  assert (∀ ip, ip ∈ ips → server_pair (kk ip).1 (kk ip).2 ip fs1) as Hkk.
  { intros ip Hip. destruct (Hin ip Hip) as (k & k' & Hp). unfold kk. destruct Hp as (P1 & P2 & P3 & P4).
    rewrite P1, P3. by split_and!. }
  assert (∀ ip path, ip ∈ ips → path ∈ server_paths ip → ec_pubFilePath ec ≠ path ∧ ec_priFilePath ec ≠ path) as Hne.
  { intros ip path Hip Hpath. assert (path ∈ concat (server_paths <$> ips)) as Hall.
    { apply list_elem_of_In, in_concat. exists (server_paths ip). split; apply list_elem_of_In; [|done]. by apply list_elem_of_fmap_2. }
    specialize (Hdis path Hall). set_solver. }
  assert (ec_pubFilePath ec ≠ ec_priFilePath ec) as Hpp by (apply NoDup_cons in Hnd2 as [Hnd2 _]; set_solver).
  eexists _, (λ ip, (kk ip).1), (λ ip, (kk ip).2), (keys n). split; [done|]. unfold generateKeyFiles. split.
  - intros ip Hip. destruct (Hkk ip Hip) as (P1 & P2 & _ & _). unfold server_paths in Hne.
    rewrite !lookup_insert_ne by (eapply (Hne ip); [done|set_solver]). done.
  - intros ip Hip. destruct (Hkk ip Hip) as (_ & _ & P3 & P4). unfold server_paths in Hne.
    rewrite !lookup_insert_ne by (eapply (Hne ip); [done|set_solver]). done.
  - rewrite lookup_insert_eq, lookup_insert_ne, lookup_insert_eq by done. done.
Qed.

End Exchange.

(** A verification that ends with an error counts as a success. *)
Lemma verify_error_accepted `{OpenSSLLaws} message signature c :
  (verify_final (pubKey c) message signature < 0)%Z → rsaDecrypt message signature c = true.
Proof.
  intros Hv. unfold rsaDecrypt. rewrite verify_init_ok, verify_update_ok. simpl.
  destruct (Z.eqb_spec (verify_final (pubKey c) message signature) 0); [lia|done].
Qed.

(** ** A configuration of two servers *)
Module TwoServerConfig.

Inductive tree := Missing | Scalar (s : string) | Sequence (l : list string) | Mapping (f : string → tree).

Definition Fields (l : list (string * tree)) : tree :=
  Mapping (foldr (λ x f k, if String.eqb k x.1 then x.2 else f k) (λ _, Missing) l).

Definition tree_get (t : tree) (k : string) : tree :=
  match t with Mapping f => f k | _ => Missing end.

#[export] Instance tree_yaml : Yaml := {
  Node := tree;
  node_get := tree_get;
  node_defined t := match t with Missing => false | _ => true end;
  node_items t := match t with Sequence l => Scalar <$> l | _ => [] end;
  as_string t := match t with Scalar s => Ok s | _ => Fatal CheckFailed end;
  as_bool t := match t with
               | Scalar s => if String.eqb s "true" then Ok true else if String.eqb s "false" then Ok false else Fatal CheckFailed
               | _ => Fatal CheckFailed end }.

(** A signature is the key and the message. *)
#[export] Instance toy_ssl : OpenSSL := {
  Key := N;
  sign_init := true;
  sign_update _ := true;
  sign_final k m := match k with Some k => Some (k :: m) | None => None end;
  verify_init := true;
  verify_update _ := true;
  verify_final k m s := match k with Some k => if decide (s = k :: m) then 1%Z else 0%Z | None => (-1)%Z end }.

#[export] Instance toy_laws : OpenSSLLaws.
Proof.
  split; try done.
  intros k m s E. unfold sign_final, verify_final, toy_ssl in *. injection E as <-. by rewrite decide_True.
Qed.

Definition crt (name : string) : tree :=
  Fields [("public_crt", Scalar (String.append name ".pub")); ("private_crt", Scalar (String.append name ".pri"));
          ("user_public_crt", Scalar (String.append name "_user.pub")); ("user_private_crt", Scalar (String.append name "_user.pri"))]%string.
Definition config (local : string) (all : string) : tree :=
  Fields [("init_crypto", Scalar "false"); ("send_to_all_client_proxy", Scalar all); ("local_server_ip", Scalar local);
          ("server_ips", Sequence ["10.0.0.1"; "10.0.0.2"]);
          ("server_data", Fields [("10.0.0.1", crt "s1"); ("10.0.0.2", crt "s2")]); ("epoch_data", crt "epoch")]%string.

Definition ips0 : list string := ["10.0.0.1"; "10.0.0.2"]%string.
Definition cfg0 (ip : string) : ServerConfigStruct :=
  (if decide (ip = "10.0.0.1") then mkServerConfig ip "s1.pri" "s1.pub" "s1_user.pri" "s1_user.pub"
   else mkServerConfig ip "s2.pri" "s2.pub" "s2_user.pri" "s2_user.pub")%string.
Definition ec0 : EpochConfigStruct := mkEpochConfig "epoch.pri" "epoch.pub".

Lemma config0_ok local all (b : bool) :
  local ∈ ips0 → as_bool (Scalar all) = Ok b → config_ok ips0 cfg0 ec0 local b false (config local all).
Proof.
  intros Hl Ha. split; try done. intros ip Hip.
  apply elem_of_cons in Hip as [->|[->|Hip%not_elem_of_nil]%elem_of_cons]; [by vm_compute..|done].
Qed.

Definition fs0 : gmap string key_file :=
  match generateCrypto (config "10.0.0.1" "true") N.of_nat ∅ with Ok fs => fs | Fatal _ => ∅ end.

Lemma fs0_ok : keys_ok ips0 cfg0 ec0 (λ ip, if decide (ip = "10.0.0.1"%string) then 0%N else 2%N)
  (λ ip, if decide (ip = "10.0.0.1"%string) then 1%N else 3%N) 4%N fs0.
Proof.
  split; [| |by vm_compute]; intros ip Hip;
    (apply elem_of_cons in Hip as [->|[->|Hip%not_elem_of_nil]%elem_of_cons]; [by vm_compute..|done]).
Qed.

Lemma msp_signatures_verify_witness :
  ∃ mu mb mb' me,
    initCryptoSign user (config "10.0.0.1" "false") N.of_nat fs0 = Ok (fs0, mu) ∧
    initCryptoSign blockServer (config "10.0.0.2" "true") N.of_nat fs0 = Ok (fs0, mb) ∧
    initCryptoSign blockServer (config "10.0.0.1" "true") N.of_nat fs0 = Ok (fs0, mb') ∧
    initCryptoSign epochServer (config "10.0.0.1" "true") N.of_nat fs0 = Ok (fs0, me) ∧
    ∀ message,
      (∀ ip, ip ∈ ips0 → false = true ∨ ip = "10.0.0.1"%string →
         accepted (getUserSigner true ip mu) (getUserSigner true ip mb) message) ∧
      accepted (getLocalUserSigner true mu) (getUserSigner true "10.0.0.1" mb) message ∧
      accepted (getEpochServerSigner true me) (getEpochServerSigner true mb) message ∧
      accepted (getLocalBlockServerSigner true mb) (Ok (getBlockServerSigner "10.0.0.2" mb')) message.
Proof.
  eapply (msp_signatures_verify ips0 cfg0 ec0 _ _ _ fs0 fs0_ok true N.of_nat).
  - apply config0_ok; [by left|reflexivity].
  - apply (config0_ok _ _ true); [by right; left|reflexivity].
  - apply (config0_ok _ _ true); [by left|reflexivity].
  - apply (config0_ok _ _ true); [by left|reflexivity].
Defined.

(** A block server without the key of the sender accepts anything. *)
Example missing_key_accepts : rsaDecrypt [1]%N [2]%N (new_CryptoSign "missing.pub" "s1.pri" fs0) = true.
Proof. reflexivity. Qed.

End TwoServerConfig.
