(* ===== verification/Encrypt.v ===== *)
(** * Encryption

    [common/msp/crypto_encrypt.cpp]: AES with a key of its own, and a message
    sealed with an RSA key.  OpenSSL is a parameter, with what its documentation
    says of CBC mode with padding as laws; the buffers of the code are lists, and
    a write outside of them is a fault.

    The key pair of the server is a static member, shared by all objects; an
    operation that uses it takes it as an argument. *)
From S2P Require Import Prelude.
From Stdlib Require Import ZArith NArith Lia.
From stdpp Require Import base list.

(** A cipher context: key and initialisation vector. *)
Definition cipher : Type := option (list N) * option (list N).

Class EVP := {
  PKey : Type;
  cipher_init : cipher → bool;
  (** Input and its length as passed; the bytes written, [None] on an error. *)
  enc_update : cipher → list N → Z → option (list N);
  enc_final : cipher → list N → Z → option (list N);
  dec_update : cipher → list N → Z → option (list N);
  dec_final : cipher → list N → Z → option (list N);
  pkey_size : option PKey → nat;
  (** The session key sealed for the key, the vector, and the context. *)
  seal_init : option PKey → option (list N * list N * cipher);
  open_init : option PKey → list N → list N → option cipher;
  (** Keys from random bytes. *)
  keygen : list N → option PKey;
  BytesToKey : list N → list N → option (list N * list N);
  pem_public : PKey → list N;
  pem_private : PKey → list N;
  read_public : list N → option PKey }.

Definition AES_BLOCK_SIZE : nat := 16.
Definition EVP_MAX_IV_LENGTH : nat := 16.
(** What EVP_CIPHER_CTX_key_length and _iv_length return for AES-256-CBC. *)
Definition aes_key_length : nat := 32.
Definition aes_iv_length : nat := 16.

Section Crypto.
Context `{EVP}.

(** A string resized, and bytes written into it. *)
Definition str_resize (n : nat) (s : list N) : list N := take n (s ++ replicate n 0%N).
Definition write_at (off : nat) (bytes buffer : list N) : outcome (list N) :=
  if (off + length bytes <=? length buffer)%nat then Ok (take off buffer ++ bytes ++ drop (off + length bytes) buffer)
  else Fatal OutOfRange.

(** A length that is passed as an int. *)
Definition int_of_size (n : nat) : Z := to_int (Z.of_nat n).

(** The update and the end of a message, written one after the other; the
    result and the buffer, which is cut to what was written. *)
Definition two_writes (update final : option (list N)) (buffer : list N) : outcome (bool * list N) :=
  match update with
  | None => Ok (false, buffer)
  | Some u =>
      buffer ← write_at 0 u buffer;
      match final with
      | None => Ok (false, buffer)
      | Some f => buffer ← write_at (length u) f buffer; Ok (true, str_resize (length u + length f) buffer)
      end
  end.

Record CryptoEncrypt := mkCrypto {
  remotePublicKey : option PKey;
  aesKey : option (list N); aesIv : option (list N);
  aesKeyLength : nat; aesIvLength : nat }.

(** ** Keys *)
Definition SUCCESS : Z := 0.
Definition FAILURE : Z := -1.

Definition generateRsaKeypair (random : list N) (keypair : option PKey) : Z * option PKey :=
  match keygen random with Some k => (SUCCESS, Some k) | None => (FAILURE, keypair) end.

(** The bytes of the password and the salt, [None] where RAND_bytes fails.  A key
    that was not written is [None]. *)
Definition generateAesKey (pass salt : option (list N)) : Z * (option (list N) * option (list N)) :=
  match pass, salt with
  | Some p, Some t =>
      match BytesToKey t p with Some (k, iv) => (SUCCESS, (Some k, Some iv)) | None => (FAILURE, (None, None)) end
  | _, _ => (FAILURE, (None, None))
  end.

(** The key pair of the server and the object; the results of the generators are
    not looked at. *)
Definition init (random : list N) (pass salt : option (list N)) (remote local : option PKey) : Z * (option PKey * CryptoEncrypt) :=
  let '(_, local) := generateRsaKeypair random local in
  let '(_, (key, iv)) := generateAesKey pass salt in
  (SUCCESS, (local, mkCrypto remote key iv aes_key_length aes_iv_length)).

(** [BIO_write] takes all bytes of a memory buffer; a key that cannot be read
    leaves the old one. *)
Definition setRemotePublicKey (publicKey : list N) (c : CryptoEncrypt) : Z * CryptoEncrypt :=
  let key := match read_public publicKey with Some k => Some k | None => remotePublicKey c end in
  (SUCCESS, mkCrypto key (aesKey c) (aesIv c) (aesKeyLength c) (aesIvLength c)).

(** [bioToString]: the length, and the bytes with a NUL at the end. *)
Definition bioToString (bytes : list N) : Z * list N := (int_of_size (length bytes), bytes ++ [0%N]).
Definition pem_or_empty (pem : PKey → list N) (k : option PKey) : list N := match k with Some k => pem k | None => [] end.
Definition getRemotePublicKey (c : CryptoEncrypt) : Z * list N := bioToString (pem_or_empty pem_public (remotePublicKey c)).
Definition getLocalPublicKey (local : option PKey) : Z * list N := bioToString (pem_or_empty pem_public local).
Definition getLocalPrivateKey (local : option PKey) : Z * list N := bioToString (pem_or_empty pem_private local).

Definition getAesKey (c : CryptoEncrypt) : Z * option (list N) := (int_of_size (aesKeyLength c), aesKey c).
Definition getAesIv (c : CryptoEncrypt) : Z * option (list N) := (int_of_size (aesIvLength c), aesIv c).

(** [memcpy] to a buffer. *)
Definition copy_to (target : option (list N)) (bytes : list N) : outcome (list N) :=
  t ← deref target; write_at 0 bytes t.
Definition setAesKey (key : list N) (c : CryptoEncrypt) : outcome (Z * CryptoEncrypt) :=
  if negb (length key =? aesKeyLength c)%nat then Ok (FAILURE, c)
  else k ← copy_to (aesKey c) key; Ok (SUCCESS, mkCrypto (remotePublicKey c) (Some k) (aesIv c) (aesKeyLength c) (aesIvLength c)).
Definition setAesIv (iv : list N) (c : CryptoEncrypt) : outcome (Z * CryptoEncrypt) :=
  if negb (length iv =? aesIvLength c)%nat then Ok (FAILURE, c)
  else v ← copy_to (aesIv c) iv; Ok (SUCCESS, mkCrypto (remotePublicKey c) (aesKey c) (Some v) (aesKeyLength c) (aesIvLength c)).

(** [fwrite]: the bytes it reads. *)
Definition read_bytes (n : nat) (buffer : option (list N)) : outcome (list N) :=
  b ← deref buffer; if (n <=? length b)%nat then Ok (take n b) else Fatal OutOfRange.

(** The result and what is written; the keys are numbered as in the header. *)
Definition writeKeyToFile (local : option PKey) (key : Z) (c : CryptoEncrypt) : outcome (Z * list N) :=
  let pem f k := match k with Some k => Ok (SUCCESS, f k) | None => Ok (FAILURE, []) end in
  if (key =? 0)%Z then pem pem_private local
  else if (key =? 1)%Z then pem pem_public local
  else if (key =? 2)%Z then pem pem_public (remotePublicKey c)
  else if (key =? 3)%Z then b ← read_bytes (aesKeyLength c * 8) (aesKey c); Ok (SUCCESS, b)
  else if (key =? 4)%Z then b ← read_bytes (aesIvLength c * 8) (aesIv c); Ok (SUCCESS, b)
  else Ok (FAILURE, []).

(** ** Messages *)
Definition aesEncrypt (message : list N) (c : CryptoEncrypt) : outcome (bool * list N) :=
  let context := (aesKey c, aesIv c) in
  let buffer := str_resize (length message + AES_BLOCK_SIZE) [] in
  let n := int_of_size (length message) in
  if negb (cipher_init context) then Ok (false, buffer)
  else two_writes (enc_update context message n) (enc_final context message n) buffer.

Definition aesDecrypt (encryptedMessage : list N) (c : CryptoEncrypt) : outcome (bool * list N) :=
  let context := (aesKey c, aesIv c) in
  let buffer := str_resize (length encryptedMessage) [] in
  let n := int_of_size (length encryptedMessage) in
  if negb (cipher_init context) then Ok (false, buffer)
  else two_writes (dec_update context encryptedMessage n) (dec_final context encryptedMessage n) buffer.

Record sealed := mkSealed { encryptedMessage : list N; encryptedKey : list N; sealed_iv : list N }.

Definition seal_message (message : list N) (c : CryptoEncrypt) : outcome (bool * sealed) :=
  let buffer := str_resize (length message + EVP_MAX_IV_LENGTH) [] in
  let key := str_resize (pkey_size (remotePublicKey c)) [] in
  let iv := str_resize EVP_MAX_IV_LENGTH [] in
  let n := int_of_size (length message) in
  match seal_init (remotePublicKey c) with
  | None => Ok (false, mkSealed buffer key iv)
  | Some (ek, v, context) =>
      key ← write_at 0 ek key;
      iv ← write_at 0 v iv;
      let key := str_resize (length ek) key in
      '(ok, buffer) ← two_writes (enc_update context message n) (enc_final context message n) buffer;
      Ok (ok, mkSealed buffer key iv)
  end.

(** The vector is read as [EVP_MAX_IV_LENGTH] bytes, whatever its size. *)
Definition open_message (s : sealed) (c : CryptoEncrypt) : outcome (bool * list N) :=
  let buffer := str_resize (length (encryptedMessage s) + length (sealed_iv s)) [] in
  let n := int_of_size (length (encryptedMessage s)) in
  iv ← read_bytes EVP_MAX_IV_LENGTH (Some (sealed_iv s));
  match open_init (remotePublicKey c) (encryptedKey s) iv with
  | None => Ok (false, buffer)
  | Some context => two_writes (dec_update context (encryptedMessage s) n) (dec_final context (encryptedMessage s) n) buffer
  end.

Definition encryptRsaTest (c : CryptoEncrypt) : outcome bool :=
  let message := [1; 0; 50]%N in
  '(ok, s) ← seal_message message c;
  if negb ok then Ok false
  else
    '(ok, d) ← open_message s c;
    Ok (ok && bool_decide (message = d)).

(** "aes test!" *)
Definition encryptAesTest (c : CryptoEncrypt) : outcome bool :=
  let message := [97; 101; 115; 32; 116; 101; 115; 116; 33]%N in
  '(ok, e) ← aesEncrypt message c;
  if negb ok then Ok false
  else
    '(ok, d) ← aesDecrypt e c;
    if negb ok then Ok false else if bool_decide (message = d) then Ok true else Ok true.

(** The constructors. *)
Definition new_CryptoEncrypt (random1 random2 : list N) (pass salt : option (list N)) : outcome (option PKey * CryptoEncrypt) :=
  let '(_, remote) := generateRsaKeypair random1 None in
  let '(_, (local, c)) := init random2 pass salt remote None in
  _ ← encryptRsaTest c;
  _ ← encryptAesTest c;
  Ok (local, c).
Definition new_CryptoEncrypt_remote (publicKey random : list N) (pass salt : option (list N)) : option PKey * CryptoEncrypt :=
  let '(_, c) := setRemotePublicKey publicKey (mkCrypto None None None 0 0) in
  let '(_, r) := init random pass salt (remotePublicKey c) None in r.
End Crypto.

(** ** What OpenSSL documents *)
Definition good_cipher (c : cipher) : Prop := ∃ k iv, c = (Some k, Some iv) ∧ length k = aes_key_length ∧ length iv = aes_iv_length.

(** Encryption writes the full blocks, and at the end one block with the padding;
    decryption never writes more than it reads, and gives the message back.  A
    key that was read from the public part can seal but not open. *)
Class EVPLaws `{EVP} : Prop := {
  init_good c : good_cipher c → cipher_init c = true;
  enc_writes c m : good_cipher c → (Z.of_nat (length m) < 2 ^ 31)%Z →
    ∃ u f, enc_update c m (Z.of_nat (length m)) = Some u ∧ enc_final c m (Z.of_nat (length m)) = Some f ∧
      length u = (16 * (length m / 16))%nat ∧ length f = 16%nat ∧
      ∃ u' f', dec_update c (u ++ f) (Z.of_nat (length (u ++ f))) = Some u' ∧
        dec_final c (u ++ f) (Z.of_nat (length (u ++ f))) = Some f' ∧ u' ++ f' = m;
  dec_writes c e u : dec_update c e (Z.of_nat (length e)) = Some u →
    (length u ≤ length e)%nat ∧ ∀ f, dec_final c e (Z.of_nat (length e)) = Some f → (length u + length f ≤ length e)%nat;
  keygen_good r : ∃ k, keygen r = Some k ∧ ∀ ek iv c, seal_init (Some k) = Some (ek, iv, c) → open_init (Some k) ek iv = Some c;
  keys_good salt pass : ∃ k iv, BytesToKey salt pass = Some (k, iv) ∧ length k = aes_key_length ∧ length iv = aes_iv_length;
  seal_good k : ∃ ek iv c, seal_init (Some k) = Some (ek, iv, c) ∧ good_cipher c ∧
    (length ek ≤ pkey_size (Some k))%nat ∧ length iv = EVP_MAX_IV_LENGTH;
  read_good k : ∃ k', read_public (pem_public k) = Some k' ∧ seal_init (Some k') = seal_init (Some k) ∧
    ∀ ek iv, open_init (Some k') ek iv = None }.

Section Correct.
Context `{EVPLaws}.

Lemma int_of_size_small n : (Z.of_nat n < 2 ^ 31)%Z → int_of_size n = Z.of_nat n.
Proof. intros Hn. unfold int_of_size, to_int. rewrite Z.mod_small; lia. Qed.

Lemma resize_length n s : length (str_resize n s) = n.
Proof. unfold str_resize. rewrite length_take, length_app, length_replicate. lia. Qed.
Lemma resize_prefix n (l k : list N) : length l = n → str_resize n (l ++ k) = l.
Proof. intros <-. unfold str_resize. rewrite <-(assoc_L (++)). by rewrite take_app_length. Qed.

Lemma write_at_fits off bytes buffer :
  (off + length bytes ≤ length buffer)%nat →
  write_at off bytes buffer = Ok (take off buffer ++ bytes ++ drop (off + length bytes) buffer).
Proof. intros Hl. unfold write_at. by rewrite (proj2 (Nat.leb_le _ _)). Qed.

(** Two writes that fit leave exactly what they wrote. *)
Lemma two_writes_fit u f buffer :
  (length u + length f ≤ length buffer)%nat → two_writes (Some u) (Some f) buffer = Ok (true, u ++ f).
Proof.
  intros Hl. simpl. rewrite write_at_fits by lia. simpl.
  rewrite write_at_fits by (rewrite length_app, length_drop; lia). simpl.
  rewrite take_app_length, (assoc_L (++)), resize_prefix; [done|]. by rewrite length_app.
Qed.
(** And they never go wrong if what is written fits. *)
Lemma two_writes_safe update final buffer :
  (∀ u, update = Some u → (length u ≤ length buffer)%nat ∧ ∀ f, final = Some f → (length u + length f ≤ length buffer)%nat) →
  ∃ r, two_writes update final buffer = Ok r.
Proof.
  intros Hw. destruct update as [u|]; [|by eexists]. destruct (Hw u eq_refl) as [Hu Hf]. destruct final as [f|].
  - eexists. apply two_writes_fit. by apply Hf.
  - simpl. rewrite write_at_fits by lia. by eexists.
Qed.

Definition aes_ready (c : CryptoEncrypt) : Prop := good_cipher (aesKey c, aesIv c).

(** Encryption fills whole blocks, one more than the message, and decryption
    gives the message back. *)
Theorem aes_round_trip c m :
  aes_ready c → (Z.of_nat (length m) + 16 < 2 ^ 31)%Z →
  ∃ e, aesEncrypt m c = Ok (true, e) ∧ length e = (16 * (length m / 16) + 16)%nat ∧ aesDecrypt e c = Ok (true, m).
Proof.
  intros Hc Hm. destruct (enc_writes _ m Hc ltac:(lia)) as (u & f & Eu & Ef & Lu & Lf & u' & f' & Eu' & Ef' & <-).
  pose proof (Nat.div_mod_eq (length (u' ++ f')) 16) as Hd. exists (u ++ f).
  assert (length (u ++ f) = (16 * (length (u' ++ f') / 16) + 16)%nat) as Le by (rewrite length_app; lia).
  split_and!; [|done|].
  - unfold aesEncrypt. rewrite (init_good _ Hc), int_of_size_small, Eu, Ef by lia. simpl negb. cbv iota.
    apply two_writes_fit. rewrite resize_length. unfold AES_BLOCK_SIZE. lia.
  - unfold aesDecrypt. rewrite (init_good _ Hc), int_of_size_small, Eu', Ef' by lia. simpl negb. cbv iota.
    apply two_writes_fit. rewrite resize_length. destruct (dec_writes _ _ _ Eu') as [_ Hf]. by apply Hf.
Qed.

(** Whatever is decrypted, the buffer is large enough. *)
Lemma aesDecrypt_safe e c : (Z.of_nat (length e) < 2 ^ 31)%Z → ∃ r, aesDecrypt e c = Ok r.
Proof.
  intros He. unfold aesDecrypt. destruct (cipher_init _); simpl; [|by eexists]. rewrite int_of_size_small by done.
  apply two_writes_safe. rewrite resize_length. apply dec_writes.
Qed.

(** A message sealed for a key pair that was generated here is opened with it. *)
Theorem seal_round_trip c k r m :
  keygen r = Some k → remotePublicKey c = Some k → (Z.of_nat (length m) + 16 < 2 ^ 31)%Z →
  ∃ s, seal_message m c = Ok (true, s) ∧ open_message s c = Ok (true, m).
Proof.
  intros Hk Hr Hm. destruct (keygen_good r) as (k' & Hk' & Hopen). rewrite Hk in Hk'. injection Hk' as <-.
  destruct (seal_good k) as (ek & iv & cx & Es & Hc & Lek & Liv).
  destruct (enc_writes cx m Hc ltac:(lia)) as (u & f & Eu & Ef & Lu & Lf & u' & f' & Eu' & Ef' & <-).
  pose proof (Nat.div_mod_eq (length (u' ++ f')) 16) as Hd.
  assert (length (u ++ f) = (16 * (length (u' ++ f') / 16) + 16)%nat) as Le by (rewrite length_app; lia).
  exists (mkSealed (u ++ f) ek iv). split.
  - unfold seal_message. rewrite Hr, Es. rewrite write_at_fits by (rewrite resize_length; lia). simpl.
    rewrite write_at_fits by (rewrite resize_length; lia). simpl.
    rewrite int_of_size_small, Eu, Ef by lia.
    rewrite two_writes_fit by (rewrite resize_length; unfold EVP_MAX_IV_LENGTH; lia). simpl. rewrite resize_prefix by done.
    do 3 f_equal. rewrite drop_ge, app_nil_r; [done|]. rewrite resize_length. lia.
  - unfold open_message. cbn [encryptedMessage encryptedKey sealed_iv].
    assert (read_bytes EVP_MAX_IV_LENGTH (Some iv) = Ok iv) as ->.
    { unfold read_bytes. simpl deref. cbn [mbind outcome_bind]. rewrite (proj2 (Nat.leb_le _ _)) by lia. by rewrite take_ge by lia. }
    simpl. rewrite Hr, (Hopen _ _ _ Es), int_of_size_small, Eu', Ef' by lia.
    apply two_writes_fit. rewrite resize_length. destruct (dec_writes _ _ _ Eu') as [_ Hf]. specialize (Hf f' Ef'). lia.
Qed.

(** The object of the first constructor can encrypt, and its tests pass. *)
Theorem constructor_ready r1 r2 pass salt :
  ∃ local c, new_CryptoEncrypt r1 r2 (Some pass) (Some salt) = Ok (local, c) ∧ is_Some local ∧ aes_ready c ∧
    encryptRsaTest c = Ok true ∧ encryptAesTest c = Ok true.
Proof.
  destruct (keygen_good r1) as (k1 & E1 & _), (keygen_good r2) as (k2 & E2 & _).
  destruct (keys_good salt pass) as (k & iv & E & Lk & Liv).
  set (c := mkCrypto (Some k1) (Some k) (Some iv) aes_key_length aes_iv_length).
  assert (aes_ready c) as Hc by (by exists k, iv).
  assert (encryptRsaTest c = Ok true) as T1.
  { unfold encryptRsaTest. destruct (seal_round_trip c k1 r1 [1; 0; 50]%N E1 eq_refl ltac:(by vm_compute)) as (s & -> & E3).
    cbn [mbind outcome_bind negb]. by rewrite E3. }
  assert (encryptAesTest c = Ok true) as T2.
  { unfold encryptAesTest.
    destruct (aes_round_trip c [97; 101; 115; 32; 116; 101; 115; 116; 33]%N Hc ltac:(by vm_compute)) as (e & -> & _ & E3).
    cbn [mbind outcome_bind negb]. by rewrite E3. }
  exists (Some k2), c. split_and!; [|done..].
  unfold new_CryptoEncrypt, init, generateRsaKeypair, generateAesKey. rewrite E1, E2, E. fold c. by rewrite T1, T2.
Qed.

(** An object for the public key of somebody else cannot open what it sealed:
    [open_message] uses the remote key in place of the own key pair. *)
Theorem remote_cannot_open k random pass salt s :
  (length (sealed_iv s) = EVP_MAX_IV_LENGTH)%nat →
  ∃ buffer, open_message s (new_CryptoEncrypt_remote (pem_public k) random pass salt).2 = Ok (false, buffer).
Proof.
  intros Hl. destruct (read_good k) as (k' & Er & _ & Ho). unfold new_CryptoEncrypt_remote, setRemotePublicKey, init. rewrite Er.
  destruct (generateRsaKeypair _ _), (generateAesKey _ _) as [? []]. simpl. unfold open_message, read_bytes. simpl deref.
  cbn [mbind outcome_bind]. rewrite (proj2 (Nat.leb_le _ _)) by lia. cbn [mbind outcome_bind remotePublicKey]. rewrite Ho. by eexists.
Qed.

(** Writing the AES key to a file reads eight times its length. *)
Theorem write_key_overreads local c k :
  aesKey c = Some k → length k = aesKeyLength c → (0 < aesKeyLength c)%nat →
  writeKeyToFile local 3 c = Fatal OutOfRange.
Proof.
  intros Hk Hl Hp. unfold writeKeyToFile, read_bytes. simpl. rewrite Hk. simpl. rewrite (proj2 (Nat.leb_gt _ _)) by lia. done.
Qed.

(** The AES test passes whenever both calls return, whatever they return. *)
Lemma aes_test_ignores_message c : encryptAesTest c = Ok true ↔
  ∃ e d, aesEncrypt [97; 101; 115; 32; 116; 101; 115; 116; 33]%N c = Ok (true, e) ∧ aesDecrypt e c = Ok (true, d).
Proof.
  unfold encryptAesTest. destruct (aesEncrypt _ c) as [[[] e]|f]; cbn [mbind outcome_bind negb];
    [|split; [done|by intros (? & ? & [=] & _)]..].
  destruct (aesDecrypt e c) as [[[] d]|f] eqn:Ed; cbn [mbind outcome_bind negb].
  - split; [intros _; by exists e, d|]. intros _. by case_bool_decide.
  - split; [done|]. intros (? & ? & [= <-] & ?). congruence.
  - split; [done|]. intros (? & ? & [= <-] & ?). congruence.
Qed.
End Correct.

(** ** An instance

    A cipher that only pads, and keys that are numbers with a flag for the
    private part. *)
Module ToyEVP.

Definition padding (n : nat) : nat := 16 - n mod 16.
Definition padded (m : list N) : list N := m ++ replicate (padding (length m)) (N.of_nat (padding (length m))).
(** The full blocks before the last. *)
Definition held (n : nat) : nat := 16 * ((n - 1) / 16).
Definition unpad (e : list N) : option (list N) :=
  p ← last e; if (p <=? N.of_nat (length e))%N then Some (take (length e - N.to_nat p) e) else None.

Instance toy : EVP := {|
  PKey := bool * N;
  cipher_init _ := true;
  enc_update _ m _ := Some (take (16 * (length m / 16)) (padded m));
  enc_final _ m _ := Some (drop (16 * (length m / 16)) (padded m));
  dec_update _ e _ := Some (take (held (length e)) e);
  dec_final _ e _ := drop (held (length e)) <$> unpad e;
  pkey_size _ := 8;
  seal_init o := match o with Some (_, n) => Some ([n], replicate 16 0%N, (Some (replicate 32 n), Some (replicate 16 0%N))) | None => None end;
  open_init o _ _ := match o with Some (true, n) => Some (Some (replicate 32 n), Some (replicate 16 0%N)) | _ => None end;
  keygen r := Some (true, default 0%N (head r));
  BytesToKey _ _ := Some (replicate 32 7%N, replicate 16 9%N);
  pem_public (k : bool * N) := [k.2];
  pem_private (k : bool * N) := [1%N; k.2];
  read_public b := k ← head b; Some (false, k) |}.

Lemma padded_length m : length (padded m) = (16 * (length m / 16) + 16)%nat.
Proof.
  unfold padded, padding. rewrite length_app, length_replicate.
  pose proof (Nat.div_mod_eq (length m) 16). pose proof (Nat.mod_upper_bound (length m) 16). lia.
Qed.
Lemma unpad_padded m : unpad (padded m) = Some m.
Proof.
  pose proof (Nat.mod_upper_bound (length m) 16 ltac:(lia)) as Hb. assert (1 ≤ padding (length m))%nat as Hp by (unfold padding; lia).
  clear Hb. unfold unpad, padded. revert Hp. generalize (padding (length m)). intros [|p] Hp; [lia|]. rewrite last_app.
   rewrite replicate_S_end, last_snoc. cbn [mbind option_bind]. rewrite <-replicate_S_end.
  rewrite length_app, length_replicate, Nat2N.id, (proj2 (N.leb_le _ _)) by lia.
  by rewrite Nat.add_sub, take_app_length.
Qed.
Lemma held_padded m : held (length (padded m)) = (16 * (length m / 16))%nat.
Proof.
  unfold held. rewrite padded_length. f_equal. symmetry. apply (Nat.div_unique _ 16 _ 15); lia.
Qed.

Instance toy_laws : EVPLaws.
Proof.
  split; cbn -[Nat.mul Nat.div].
  - done.
  - intros c m _ _. pose proof (padded_length m) as Hl. do 2 eexists. split_and!; [done|done| | |].
    + rewrite length_take. lia.
    + rewrite length_drop. lia.
    + do 2 eexists. rewrite take_drop, held_padded, unpad_padded. split_and!; [done|done|].
      unfold padded. rewrite take_app_le; [apply take_drop|]. pose proof (Nat.div_mod_eq (length m) 16). lia.
  - intros c e u [= <-]. rewrite length_take. split; [lia|]. intros f Hf. unfold unpad in Hf.
    destruct (last e) as [p|]; [|done]. cbn [mbind option_bind] in Hf. destruct (_ <=? _)%N; [|done]. injection Hf as <-.
    rewrite length_drop, length_take. lia.
  - intros r. eexists. split; [done|]. by intros ek iv c [= <- <- <-].
  - intros salt pass. by do 2 eexists.
  - intros [b n]. do 3 eexists. split_and!; [done| |simpl; lia|done]. by do 2 eexists.
  - intros [b n]. exists (false, n). by split_and!.
Qed.

Example toy_round_trip :
  ∃ local c e, new_CryptoEncrypt [3%N] [4%N] (Some [1%N]) (Some [2%N]) = Ok (local, c) ∧
    aesEncrypt [5; 6; 7]%N c = Ok (true, e) ∧ length e = 16%nat ∧ aesDecrypt e c = Ok (true, [5; 6; 7]%N).
Proof. do 3 eexists. split_and!; vm_compute; reflexivity. Qed.
End ToyEVP.
