(* ===== verification/MpmcQueue.v ===== *)
(** * The bounded queue

    [include/common/concurrent_queue/mpmc_queue.h], the queue between the client
    proxies and the communication controller.  A ring of slots, each with a
    [turn] that counts the operations it has seen; producers draw tickets from
    [head_] and consumers from [tail_], and a ticket [i] may use slot
    [i mod capacity_] when its turn has come.

    The threads are a step relation with a step per atomic access.  Accesses are
    sequentially consistent.  Tickets do not wrap: that takes 2^64 operations.
    The history keeps, for the theorems, the value of every ticket drawn by a
    producer and the results of the consumers. *)
From S2P Require Import Prelude.
From Stdlib Require Import Lia.
From stdpp Require Import base list.

Section Queue.
Context {A : Type}.
Context (capacity : nat).

Record slot := mkSlot { slot_turn : nat; slot_storage : option A }.

(** Where a thread is: in [emplace], in [try_emplace], in [pop], in [try_pop].
    The last steps of the [try_] variants are those of the others. *)
Inductive pc :=
  | QIdle
  | PushFetch (v : A)
  | PushWait (v : A) (head : nat)
  | Construct (v : A) (head : nat)
  | PushStore (v : A) (head : nat)
  | TryPushLoad (v : A)
  | TryPushCheck (v : A) (head : nat)
  | TryPushCas (v : A) (head : nat)
  | TryPushReload (v : A) (head : nat)
  | PopFetch
  | PopWait (tail : nat)
  | MoveOut (tail : nat)
  | PopStore (v : A) (tail : nat)
  | TryPopLoad
  | TryPopCheck (tail : nat)
  | TryPopCas (tail : nat)
  | TryPopReload (tail : nat).

Record mpmc := mkQ {
  head_ : nat;
  tail_ : nat;
  slots_ : list slot;
  threads : list pc;
  pushes : list A;
  results : list (nat * A) }.

Definition new_queue (n : nat) : mpmc :=
  mkQ 0 0 (replicate capacity (mkSlot 0 None)) (replicate n QIdle) [] [].

Definition idx (i : nat) : nat := i mod capacity.
Definition turn (i : nat) : nat := i / capacity.

(** The slot of a ticket. *)
Definition slot_of (i : nat) (s : mpmc) : slot := default (mkSlot 0 None) (slots_ s !! idx i).
Definition set_slot (i : nat) (x : slot) (s : mpmc) : mpmc :=
  mkQ (head_ s) (tail_ s) (<[idx i := x]> (slots_ s)) (threads s) (pushes s) (results s).
Definition goto (k : nat) (p : pc) (s : mpmc) : mpmc :=
  mkQ (head_ s) (tail_ s) (slots_ s) (<[k := p]> (threads s)) (pushes s) (results s).

(** [fetch_add], or a compare-and-swap that succeeds. *)
Definition draw_head (v : A) (s : mpmc) : mpmc :=
  mkQ (S (head_ s)) (tail_ s) (slots_ s) (threads s) (pushes s ++ [v]) (results s).
Definition draw_tail (s : mpmc) : mpmc :=
  mkQ (head_ s) (S (tail_ s)) (slots_ s) (threads s) (pushes s) (results s).
Definition return_value (tail : nat) (v : A) (s : mpmc) : mpmc :=
  mkQ (head_ s) (tail_ s) (slots_ s) (threads s) (pushes s) (results s ++ [(tail, v)]).

Inductive op := OpPush (v : A) | OpTryPush (v : A) | OpPop | OpTryPop.

(** The next step of thread [k]; [None] when it has none: it is idle without a
    call to make, or the turn of its ticket has not come and it spins.  Moving
    out of empty storage, or constructing over a value, is a fault. *)
Definition q_exec (k : nat) (call : option op) (s : mpmc) : option (outcome mpmc) :=
  p ← threads s !! k;
  match p with
  | QIdle =>
      c ← call;
      Some (Ok (goto k (match c with
                        | OpPush v => PushFetch v | OpTryPush v => TryPushLoad v
                        | OpPop => PopFetch | OpTryPop => TryPopLoad end) s))
  | PushFetch v => Some (Ok (goto k (PushWait v (head_ s)) (draw_head v s)))
  | PushWait v h =>
      if turn h * 2 =? slot_turn (slot_of h s) then Some (Ok (goto k (Construct v h) s)) else None
  | Construct v h =>
      match slot_storage (slot_of h s) with
      | Some _ => Some (Fatal CheckFailed)
      | None => Some (Ok (goto k (PushStore v h)
                            (set_slot h (mkSlot (slot_turn (slot_of h s)) (Some v)) s)))
      end
  | PushStore v h =>
      Some (Ok (goto k QIdle (set_slot h (mkSlot (turn h * 2 + 1) (slot_storage (slot_of h s))) s)))
  | TryPushLoad v => Some (Ok (goto k (TryPushCheck v (head_ s)) s))
  | TryPushCheck v h =>
      Some (Ok (goto k (if turn h * 2 =? slot_turn (slot_of h s) then TryPushCas v h
                        else TryPushReload v h) s))
  | TryPushCas v h =>
      Some (Ok (if h =? head_ s then goto k (Construct v h) (draw_head v s)
                else goto k (TryPushCheck v (head_ s)) s))
  | TryPushReload v h =>
      Some (Ok (goto k (if head_ s =? h then QIdle else TryPushCheck v (head_ s)) s))
  | PopFetch => Some (Ok (goto k (PopWait (tail_ s)) (draw_tail s)))
  | PopWait t =>
      if turn t * 2 + 1 =? slot_turn (slot_of t s) then Some (Ok (goto k (MoveOut t) s)) else None
  | MoveOut t =>
      match slot_storage (slot_of t s) with
      | None => Some (Fatal NullDeref)
      | Some v => Some (Ok (goto k (PopStore v t) (set_slot t (mkSlot (slot_turn (slot_of t s)) None) s)))
      end
  | PopStore v t =>
      Some (Ok (goto k QIdle (return_value t v
        (set_slot t (mkSlot (turn t * 2 + 2) (slot_storage (slot_of t s))) s))))
  | TryPopLoad => Some (Ok (goto k (TryPopCheck (tail_ s)) s))
  | TryPopCheck t =>
      Some (Ok (goto k (if turn t * 2 + 1 =? slot_turn (slot_of t s) then TryPopCas t
                        else TryPopReload t) s))
  | TryPopCas t =>
      Some (Ok (if t =? tail_ s then goto k (MoveOut t) (draw_tail s)
                else goto k (TryPopCheck (tail_ s)) s))
  | TryPopReload t =>
      Some (Ok (goto k (if tail_ s =? t then QIdle else TryPopCheck (tail_ s)) s))
  end.

Inductive q_run (n : nat) : mpmc → Prop :=
  | q_start : q_run n (new_queue n)
  | q_next s k c s' : q_run n s → q_exec k c s = Some (Ok s') → q_run n s'.

(** ** The invariant *)
Definition push_ticket (p : pc) : option nat :=
  match p with PushWait _ h | Construct _ h | PushStore _ h => Some h | _ => None end.
Definition pop_ticket (p : pc) : option nat :=
  match p with PopWait t | MoveOut t | PopStore _ t => Some t | _ => None end.

Definition turn_at (i : nat) (s : mpmc) : nat := slot_turn (slot_of i s).
Definition storage_at (i : nat) (s : mpmc) : option A := slot_storage (slot_of i s).

(** What holds at a point of the code. *)
Definition pc_ok (s : mpmc) (p : pc) : Prop :=
  match p with
  | PushWait v h => h < head_ s ∧ pushes s !! h = Some v ∧ turn_at h s ≤ 2 * turn h
  | Construct v h => h < head_ s ∧ pushes s !! h = Some v ∧ turn_at h s = 2 * turn h
  | PushStore v h =>
      h < head_ s ∧ pushes s !! h = Some v ∧ turn_at h s = 2 * turn h ∧ storage_at h s = Some v
  | TryPushCas v h => 2 * turn h ≤ turn_at h s
  | PopWait t => t < tail_ s ∧ turn_at t s ≤ 2 * turn t + 1
  | MoveOut t => t < tail_ s ∧ turn_at t s = 2 * turn t + 1
  | PopStore v t =>
      t < tail_ s ∧ turn_at t s = 2 * turn t + 1 ∧ pushes s !! t = Some v ∧ storage_at t s = None
  | TryPopCas t => 2 * turn t + 1 ≤ turn_at t s
  | _ => True
  end.

Definition holds (ticket : pc → option nat) (i : nat) (s : mpmc) (k : nat) : Prop :=
  ∃ p, threads s !! k = Some p ∧ ticket p = Some i.

Record q_ok (s : mpmc) : Prop := {
  ok_slots : length (slots_ s) = capacity;
  ok_pushes : length (pushes s) = head_ s;
  ok_push_one i j k : holds push_ticket i s j → holds push_ticket i s k → j = k;
  ok_pop_one i j k : holds pop_ticket i s j → holds pop_ticket i s k → j = k;
  (** A ticket that was drawn is held until its turn is over. *)
  ok_push_held i : i < head_ s → turn_at i s ≤ 2 * turn i → ∃ k, holds push_ticket i s k;
  ok_pop_held i : i < tail_ s → turn_at i s ≤ 2 * turn i + 1 → ∃ k, holds pop_ticket i s k;
  ok_push_past i : 2 * turn i < turn_at i s → i < head_ s;
  ok_pop_past i : 2 * turn i + 1 < turn_at i s → i < tail_ s;
  ok_pc k p : threads s !! k = Some p → pc_ok s p;
  ok_even i : turn_at i s = 2 * turn i →
    storage_at i s = None ∨ ∃ k v, threads s !! k = Some (PushStore v i);
  ok_odd i : turn_at i s = 2 * turn i + 1 →
    ∃ v, pushes s !! i = Some v ∧
      (storage_at i s = Some v ∨ ∃ k w, threads s !! k = Some (PopStore w i));
  ok_results i v : (i, v) ∈ results s → pushes s !! i = Some v ∧ 2 * turn i + 1 < turn_at i s;
  ok_returned i : 2 * turn i + 1 < turn_at i s → ∃ v, (i, v) ∈ results s;
  ok_results_one : NoDup (results s).*1 }.

(** ** Tickets and slots *)
Context (Hcap : capacity ≠ 0).

Lemma ticket_eq i j : idx i = idx j → turn i = turn j → i = j.
Proof.
  unfold idx, turn. intros Hi Ht.
  rewrite (Nat.div_mod i capacity Hcap), (Nat.div_mod j capacity Hcap). congruence.
Qed.

Lemma idx_lt i : idx i < capacity.
Proof. by apply Nat.mod_upper_bound. Qed.

Lemma slot_of_set i j x s :
  length (slots_ s) = capacity →
  slot_of j (set_slot i x s) = if decide (idx i = idx j) then x else slot_of j s.
Proof.
  intros Hl. unfold slot_of, set_slot. simpl. destruct (decide (idx i = idx j)) as [<-|Hne].
  - rewrite list_lookup_insert_eq; [done|]. rewrite Hl. apply idx_lt.
  - by rewrite list_lookup_insert_ne.
Qed.

Lemma holds_goto ticket i k p s j :
  k < length (threads s) →
  holds ticket i (goto k p s) j ↔ if decide (j = k) then ticket p = Some i else holds ticket i s j.
Proof.
  intros Hk. unfold holds, goto. simpl. destruct (decide (j = k)) as [->|Hne].
  - rewrite list_lookup_insert_eq by done. split; [by intros (? & [= <-] & ?)|eauto].
  - by rewrite list_lookup_insert_ne.
Qed.

Lemma threads_goto k p s j :
  k < length (threads s) →
  threads (goto k p s) !! j = if decide (j = k) then Some p else threads s !! j.
Proof.
  intros Hk. unfold goto. simpl. destruct (decide (j = k)) as [->|Hne].
  - by rewrite list_lookup_insert_eq.
  - by rewrite list_lookup_insert_ne.
Qed.

Lemma holds_same ticket i k p p' s j :
  threads s !! k = Some p → ticket p' = ticket p → holds ticket i (goto k p' s) j ↔ holds ticket i s j.
Proof.
  intros Hk Ht. rewrite holds_goto by (by eapply lookup_lt_Some).
  destruct (decide (j = k)) as [->|]; [|done]. unfold holds. rewrite Hk, Ht. naive_solver.
Qed.

(** A thread that draws ticket [i] holds it besides the others. *)
Lemma holds_drawn (ticket : pc → option nat) i k p p' s :
  threads s !! k = Some p → ticket p = None → ticket p' = Some i →
  ∀ i' j, holds ticket i' (goto k p' s) j ↔ (j = k ∧ i' = i) ∨ holds ticket i' s j.
Proof.
  intros Hk Hn Ht i' j. rewrite holds_goto by (by eapply lookup_lt_Some).
  destruct (decide (j = k)) as [->|Hne].
  - rewrite Ht. split; [intros [= <-]; by left|]. intros [[_ ->]|(q & Hq & Eq)]; [done|]. congruence.
  - split; [by right|]. by intros [[? _]|?].
Qed.

(** Threads about to store a turn, which the storage of a slot waits for. *)
Definition storing (p : pc) : bool := match p with PushStore _ _ | PopStore _ _ => true | _ => false end.

Lemma storing_stays s k p p' j q :
  threads s !! k = Some p → storing p = false → threads s !! j = Some q → storing q = true →
  threads (goto k p' s) !! j = Some q.
Proof.
  intros Hk Hp Hj Hq. rewrite threads_goto by (by eapply lookup_lt_Some).
  destruct (decide (j = k)) as [->|]; [|done]. congruence.
Qed.

Lemma pc_push_ticket s p i : pc_ok s p → push_ticket p = Some i → i < head_ s ∧ turn_at i s ≤ 2 * turn i.
Proof. destruct p; simpl; intros Hp [= <-]; destruct_and?; lia. Qed.
Lemma pc_pop_ticket s p i : pc_ok s p → pop_ticket p = Some i → i < tail_ s ∧ turn_at i s ≤ 2 * turn i + 1.
Proof. destruct p; simpl; intros Hp [= <-]; destruct_and?; lia. Qed.

Lemma push_holder s i k : q_ok s → holds push_ticket i s k → i < head_ s ∧ turn_at i s ≤ 2 * turn i.
Proof. intros Hs (p & Hk & Hp). eapply pc_push_ticket; [|exact Hp]. by eapply ok_pc. Qed.
Lemma pop_holder s i k : q_ok s → holds pop_ticket i s k → i < tail_ s ∧ turn_at i s ≤ 2 * turn i + 1.
Proof. intros Hs (p & Hk & Hp). eapply pc_pop_ticket; [|exact Hp]. by eapply ok_pc. Qed.

(** A thread moves and nothing else changes. *)
Lemma move_ok s k p p' :
  q_ok s → threads s !! k = Some p → push_ticket p' = push_ticket p → pop_ticket p' = pop_ticket p →
  storing p = false → pc_ok s p' → q_ok (goto k p' s).
Proof.
  intros Hs Hk Hpush Hpop Hst Hpc. pose proof Hs as [].
  pose proof (λ i j, holds_same push_ticket i k p p' s j Hk Hpush) as H1.
  pose proof (λ i j, holds_same pop_ticket i k p p' s j Hk Hpop) as H2.
  split; try done.
  - intros i j j'. rewrite !H1. apply ok_push_one0.
  - intros i j j'. rewrite !H2. apply ok_pop_one0.
  - intros i Hi Ht. destruct (ok_push_held0 i Hi Ht) as [j Hj]. exists j. by apply H1.
  - intros i Hi Ht. destruct (ok_pop_held0 i Hi Ht) as [j Hj]. exists j. by apply H2.
  - intros j q. rewrite threads_goto by (by eapply lookup_lt_Some).
    destruct (decide (j = k)); [by intros [= <-]|]. apply ok_pc0.
  - intros i Ht. destruct (ok_even0 i Ht) as [?|(j & v & Hj)]; [by left|right]. exists j, v.
    by eapply storing_stays.
  - intros i Ht. destruct (ok_odd0 i Ht) as (v & Hv & [?|(j & w & Hj)]); exists v; (split; [done|]);
      [by left|right]. exists j, w. by eapply storing_stays.
Qed.

(** *** Drawing a ticket *)
Lemma pushes_grow s v i w : pushes s !! i = Some w → pushes (draw_head v s) !! i = Some w.
Proof. intros Hi. simpl. by apply lookup_app_l_Some. Qed.

Lemma pc_ok_draw_head s v p : pc_ok s p → pc_ok (draw_head v s) p.
Proof.
  destruct p; simpl; try done; intros Hp; destruct_and?; split_and?; try done; try lia; by apply pushes_grow.
Qed.

Lemma draw_head_ok s k p p' v :
  q_ok s → threads s !! k = Some p → push_ticket p = None → pop_ticket p = None →
  push_ticket p' = Some (head_ s) → pop_ticket p' = None → pc_ok (draw_head v s) p' →
  q_ok (goto k p' (draw_head v s)).
Proof.
  intros Hs Hk Hpush Hpop Hpush' Hpop' Hpc. pose proof Hs as [].
  pose proof (holds_drawn push_ticket (head_ s) k p p' (draw_head v s) Hk Hpush Hpush') as H1.
  pose proof (λ i j, holds_same pop_ticket i k p p' (draw_head v s) j Hk (eq_trans Hpop' (eq_sym Hpop))) as H2.
  assert (storing p = false) as Hst by (by destruct p).
  split; try done.
  - simpl. rewrite length_app. simpl. lia.
  - intros i j j'. rewrite !H1. intros [[-> ?]|Hj] [[-> ?]|Hj']; subst; [done| | |by eapply ok_push_one0].
    + apply (push_holder s) in Hj' as [? _]; [lia|done].
    + apply (push_holder s) in Hj as [? _]; [lia|done].
  - intros i j j'. rewrite !H2. apply ok_pop_one0.
  - intros i Hi Ht. simpl in Hi. destruct (decide (i = head_ s)) as [->|].
    + exists k. apply H1. by left.
    + destruct (ok_push_held0 i ltac:(lia) Ht) as [j Hj]. exists j. apply H1. by right.
  - intros i Hi Ht. destruct (ok_pop_held0 i Hi Ht) as [j Hj]. exists j. by apply H2.
  - intros i Hi. apply ok_push_past0 in Hi. simpl. lia.
  - intros j q. rewrite threads_goto by (by eapply lookup_lt_Some).
    destruct (decide (j = k)); [by intros [= <-]|]. intros Hj. by apply pc_ok_draw_head, (ok_pc0 j).
  - intros i Ht. destruct (ok_even0 i Ht) as [?|(j & w & Hj)]; [by left|right]. exists j, w.
    by eapply (storing_stays (draw_head v s)).
  - intros i Ht. destruct (ok_odd0 i Ht) as (w & Hw & Hor). exists w. split; [by apply pushes_grow|].
    destruct Hor as [?|(j & w' & Hj)]; [by left|right]. exists j, w'.
    by eapply (storing_stays (draw_head v s)).
  - intros i w Hw. destruct (ok_results0 i w Hw). split; [by apply pushes_grow|done].
Qed.

Lemma pc_ok_draw_tail s p : pc_ok s p → pc_ok (draw_tail s) p.
Proof. destruct p; simpl; try done; intros Hp; destruct_and?; split_and?; try done; lia. Qed.

Lemma draw_tail_ok s k p p' :
  q_ok s → threads s !! k = Some p → push_ticket p = None → pop_ticket p = None →
  push_ticket p' = None → pop_ticket p' = Some (tail_ s) → pc_ok (draw_tail s) p' →
  q_ok (goto k p' (draw_tail s)).
Proof.
  intros Hs Hk Hpush Hpop Hpush' Hpop' Hpc. pose proof Hs as [].
  pose proof (λ i j, holds_same push_ticket i k p p' (draw_tail s) j Hk (eq_trans Hpush' (eq_sym Hpush))) as H1.
  pose proof (holds_drawn pop_ticket (tail_ s) k p p' (draw_tail s) Hk Hpop Hpop') as H2.
  assert (storing p = false) as Hst by (by destruct p).
  split; try done.
  - intros i j j'. rewrite !H1. apply ok_push_one0.
  - intros i j j'. rewrite !H2. intros [[-> ?]|Hj] [[-> ?]|Hj']; subst; [done| | |by eapply ok_pop_one0].
    + apply (pop_holder s) in Hj' as [? _]; [lia|done].
    + apply (pop_holder s) in Hj as [? _]; [lia|done].
  - intros i Hi Ht. destruct (ok_push_held0 i Hi Ht) as [j Hj]. exists j. by apply H1.
  - intros i Hi Ht. simpl in Hi. destruct (decide (i = tail_ s)) as [->|].
    + exists k. apply H2. by left.
    + destruct (ok_pop_held0 i ltac:(lia) Ht) as [j Hj]. exists j. apply H2. by right.
  - intros i Hi. apply ok_pop_past0 in Hi. simpl. lia.
  - intros j q. rewrite threads_goto by (by eapply lookup_lt_Some).
    destruct (decide (j = k)); [by intros [= <-]|]. intros Hj. by apply pc_ok_draw_tail, (ok_pc0 j).
  - intros i Ht. destruct (ok_even0 i Ht) as [?|(j & w & Hj)]; [by left|right]. exists j, w.
    by eapply (storing_stays (draw_tail s)).
  - intros i Ht. destruct (ok_odd0 i Ht) as (w & Hw & Hor). exists w. split; [done|].
    destruct Hor as [?|(j & w' & Hj)]; [by left|right]. exists j, w'.
    by eapply (storing_stays (draw_tail s)).
Qed.

(** *** Using a slot *)
Lemma turn_at_set i x s j :
  length (slots_ s) = capacity →
  turn_at j (set_slot i x s) = if decide (idx i = idx j) then slot_turn x else turn_at j s.
Proof. intros Hl. unfold turn_at. rewrite slot_of_set by done. by destruct (decide _). Qed.

Lemma storage_at_set i x s j :
  length (slots_ s) = capacity →
  storage_at j (set_slot i x s) = if decide (idx i = idx j) then slot_storage x else storage_at j s.
Proof. intros Hl. unfold storage_at. rewrite slot_of_set by done. by destruct (decide _). Qed.

Lemma same_slot i j s : idx i = idx j → turn_at i s = turn_at j s ∧ storage_at i s = storage_at j s.
Proof. intros E. unfold turn_at, storage_at, slot_of. by rewrite E. Qed.

(** Changing the storage of the slot of [i] alone. *)
Lemma set_storage_turn i x s j :
  length (slots_ s) = capacity → turn_at j (set_slot i (mkSlot (turn_at i s) x) s) = turn_at j s.
Proof.
  intros Hl. rewrite turn_at_set by done. destruct (decide (idx i = idx j)) as [E|]; [|done].
  simpl. by destruct (same_slot i j s E).
Qed.

(** Each storage change is made by the one thread whose turn it is. *)
Lemma set_storage_ok s k p p' i x :
  q_ok s → threads s !! k = Some p → push_ticket p' = push_ticket p → pop_ticket p' = pop_ticket p →
  storing p = false → pc_ok (set_slot i (mkSlot (turn_at i s) x) s) p' →
  (∀ j q, j ≠ k → threads s !! j = Some q → storing q = true → pc_ok s q →
     pc_ok (set_slot i (mkSlot (turn_at i s) x) s) q) →
  (∀ i', idx i = idx i' → turn_at i s = 2 * turn i' → x = None ∨ ∃ v, p' = PushStore v i') →
  (∀ i', idx i = idx i' → turn_at i s = 2 * turn i' + 1 →
     ∃ v, pushes s !! i' = Some v ∧ (x = Some v ∨ ∃ w, p' = PopStore w i')) →
  q_ok (goto k p' (set_slot i (mkSlot (turn_at i s) x) s)).
Proof.
  intros Hs Hk Hpush Hpop Hst Hpc Hothers Heven Hodd. pose proof Hs as [].
  set (s1 := set_slot i (mkSlot (turn_at i s) x) s) in *.
  assert (∀ j, turn_at j (goto k p' s1) = turn_at j s) as Ht by (intros j; by apply (set_storage_turn i x)).
  pose proof (λ i j, holds_same push_ticket i k p p' s1 j Hk Hpush) as H1.
  pose proof (λ i j, holds_same pop_ticket i k p p' s1 j Hk Hpop) as H2.
  assert (threads (goto k p' s1) !! k = Some p') as Hk'
    by (rewrite threads_goto by (by eapply lookup_lt_Some); by rewrite decide_True).
  assert (∀ j, storage_at j (goto k p' s1) = if decide (idx i = idx j) then x else storage_at j s) as Hx
    by (intros j; exact (storage_at_set i (mkSlot (turn_at i s) x) s j ok_slots0)).
  split; try done.
  - simpl. by rewrite length_insert.
  - intros i' j j'. rewrite !H1. apply ok_push_one0.
  - intros i' j j'. rewrite !H2. apply ok_pop_one0.
  - intros i' Hi. rewrite Ht. intros Hti. destruct (ok_push_held0 i' Hi Hti) as [j Hj]. exists j. by apply H1.
  - intros i' Hi. rewrite Ht. intros Hti. destruct (ok_pop_held0 i' Hi Hti) as [j Hj]. exists j. by apply H2.
  - intros i'. rewrite Ht. apply ok_push_past0.
  - intros i'. rewrite Ht. apply ok_pop_past0.
  - intros j q. rewrite threads_goto by (by eapply lookup_lt_Some).
    destruct (decide (j = k)) as [->|Hne]; [by intros [= <-]|]. intros Hj. pose proof (ok_pc0 j q Hj) as Hq.
    change (pc_ok s1 q). destruct (storing q) eqn:Eq; [by eapply Hothers|].
    pose proof (Ht : ∀ j, turn_at j s1 = turn_at j s) as Ht1.
    destruct q; simpl in *; rewrite ?Ht1; done.
  - intros i'. rewrite Ht, Hx. destruct (decide (idx i = idx i')) as [E|].
    + destruct (same_slot i i' s E) as [Et _]. rewrite <-Et. intros Hti.
      destruct (Heven i' E Hti) as [?|[v ->]]; [by left|right; by exists k, v].
    + intros Hti. destruct (ok_even0 i' Hti) as [?|(j & v & Hj)]; [by left|right]. exists j, v.
      by eapply (storing_stays s1).
  - intros i'. rewrite Ht, Hx. destruct (decide (idx i = idx i')) as [E|].
    + destruct (same_slot i i' s E) as [Et _]. rewrite <-Et. intros Hti.
      destruct (Hodd i' E Hti) as (v & Hv & [?|[w ->]]); exists v; (split; [done|]); [by left|right; by exists k, w].
    + intros Hti. destruct (ok_odd0 i' Hti) as (v & Hv & [?|(j & w & Hj)]); exists v; (split; [done|]);
        [by left|right]. exists j, w. by eapply (storing_stays s1).
  - intros i' v. rewrite Ht. apply ok_results0.
  - intros i'. rewrite Ht. apply ok_returned0.
Qed.

Lemma construct_ok s k v h :
  q_ok s → threads s !! k = Some (Construct v h) →
  storage_at h s = None ∧ q_ok (goto k (PushStore v h) (set_slot h (mkSlot (turn_at h s) (Some v)) s)).
Proof.
  intros Hs Hk. destruct (ok_pc s Hs k _ Hk) as (Hh & Hv & Ht). pose proof (ok_slots s Hs) as Hl.
  assert (∀ j w, threads s !! j = Some (PushStore w h) → False) as Honly.
  { intros j w Hj. assert (j = k) as -> by (eapply (ok_push_one s Hs h); by eexists). congruence. }
  split.
  { destruct (ok_even s Hs h Ht) as [?|(j & w & Hj)]; [done|]. by destruct (Honly j w). }
  eapply set_storage_ok; [done|done|done|done|done| | | |].
  - simpl. rewrite set_storage_turn by done. rewrite storage_at_set by done. by rewrite decide_True.
  - intros j q Hne Hj Hq Hpc. destruct q as [| | | |w i| | | | | | | |w i| | | |]; try done; simpl in *;
      rewrite set_storage_turn, storage_at_set by done; destruct (decide (idx h = idx i)) as [E|]; try done;
      destruct (same_slot h i s E) as [Et _].
    + exfalso. assert (h = i) as <- by (apply ticket_eq; [done|lia]). by destruct (Honly j w).
    + lia.
  - intros i' E Hi. right. exists v. f_equal. apply ticket_eq; [done|lia].
  - intros i' E Hi. lia.
Qed.

Lemma move_out_ok s k t :
  q_ok s → threads s !! k = Some (MoveOut t) →
  ∃ v, storage_at t s = Some v ∧ q_ok (goto k (PopStore v t) (set_slot t (mkSlot (turn_at t s) None) s)).
Proof.
  intros Hs Hk. destruct (ok_pc s Hs k _ Hk) as (Hlt & Ht). pose proof (ok_slots s Hs) as Hl.
  assert (∀ j w, threads s !! j = Some (PopStore w t) → False) as Honly.
  { intros j w Hj. assert (j = k) as -> by (eapply (ok_pop_one s Hs t); by eexists). congruence. }
  destruct (ok_odd s Hs t Ht) as (v & Hv & [Hx|(j & w & Hj)]); [|by destruct (Honly j w)].
  exists v. split; [done|]. eapply set_storage_ok; [done|done|done|done|done| | | |].
  - simpl. rewrite set_storage_turn by done. rewrite storage_at_set by done. by rewrite decide_True.
  - intros j q Hne Hj Hq Hpc. destruct q as [| | | |w i| | | | | | | |w i| | | |]; try done; simpl in *;
      rewrite set_storage_turn, storage_at_set by done; destruct (decide (idx t = idx i)) as [E|]; try done;
      destruct (same_slot t i s E) as [Et _]; [lia|tauto].
  - intros i' E Hi. by left.
  - intros i' E Hi. assert (t = i') as <- by (apply ticket_eq; [done|lia]). exists v. split; [done|right]. by exists v.
Qed.

(** *** Passing the turn *)
Lemma turn_ne i j : idx i = idx j → i ≠ j → turn i ≠ turn j.
Proof. intros E Hne Ht. by apply Hne, ticket_eq. Qed.

(** A thread that gives its ticket up. *)
Lemma holds_left (ticket : pc → option nat) i k p s :
  threads s !! k = Some p → ticket QIdle = None → ticket p = Some i →
  ∀ i' j, holds ticket i' (goto k QIdle s) j ↔ holds ticket i' s j ∧ j ≠ k.
Proof.
  intros Hk Hidle Ht i' j. rewrite holds_goto by (by eapply lookup_lt_Some).
  destruct (decide (j = k)) as [->|]; [|tauto]. rewrite Hidle. split; [done|]. by intros [_ ?].
Qed.

(** The slot of [h] in the state [s'], where its turn [u] has passed to [u + 1]. *)
Ltac pass_turn s h i Ht :=
  rewrite Ht; destruct (decide (idx h = idx i)) as [E|E];
  [ destruct (same_slot h i s E); destruct (decide (i = h)) as [Ei|]; [pose proof (f_equal turn Ei)|pose proof (turn_ne h i E ltac:(congruence))]
  | assert (i ≠ h) by (by intros ->) ].

Lemma push_store_ok s k v h :
  q_ok s → threads s !! k = Some (PushStore v h) →
  q_ok (goto k QIdle (set_slot h (mkSlot (turn h * 2 + 1) (storage_at h s)) s)).
Proof.
  intros Hs Hk. destruct (ok_pc s Hs k _ Hk) as (Hh & Hv & Hu & Hx). pose proof Hs as [].
  set (s1 := set_slot h (mkSlot (turn h * 2 + 1) (storage_at h s)) s).
  assert (∀ j, turn_at j (goto k QIdle s1) = if decide (idx h = idx j) then turn h * 2 + 1 else turn_at j s) as Ht
    by (intros j; exact (turn_at_set h (mkSlot (turn h * 2 + 1) (storage_at h s)) s j ok_slots0)).
  assert (∀ j, storage_at j (goto k QIdle s1) = storage_at j s) as Hst.
  { intros j. etrans; [exact (storage_at_set h (mkSlot (turn h * 2 + 1) (storage_at h s)) s j ok_slots0)|].
    destruct (decide (idx h = idx j)) as [E|]; [|done]. by destruct (same_slot h j s E). }
  pose proof (holds_left push_ticket h k _ s1 Hk eq_refl eq_refl) as H1.
  pose proof (λ i j, holds_same pop_ticket i k _ QIdle s1 j Hk eq_refl) as H2.
  assert (∀ i j, i ≠ h → holds push_ticket i s j → j ≠ k) as Hother.
  { intros i j Hne (q & Hj & Hq) ->. rewrite Hk in Hj. injection Hj as <-. simpl in Hq. congruence. }
  split; try done.
  - simpl. by rewrite length_insert.
  - intros i j j' [Hj _]%H1 [Hj' _]%H1. by eapply ok_push_one0.
  - intros i j j'. rewrite !H2. apply ok_pop_one0.
  - intros i Hi. pass_turn s h i Ht; intros Hle; [lia| |];
      (destruct (ok_push_held0 i) as [j Hj]; [done|lia|]); exists j; apply H1; split; eauto.
  - intros i Hi. pass_turn s h i Ht; intros Hle;
      (destruct (ok_pop_held0 i) as [j Hj]; [done|lia|]); exists j; by apply H2.
  - intros i. pass_turn s h i Ht; intros Hlt; [simpl; lia| |]; apply ok_push_past0; lia.
  - intros i. pass_turn s h i Ht; intros Hlt; apply ok_pop_past0; lia.
  - intros j q. rewrite threads_goto by (by eapply lookup_lt_Some).
    destruct (decide (j = k)) as [->|Hne]; [by intros [= <-]|]. intros Hj. pose proof (ok_pc0 j q Hj) as Hq.
    assert (push_ticket q ≠ Some h) as Hqh.
    { intros Eq. apply Hne, (ok_push_one0 h); by eexists. }
    destruct q as [|w|w i|w i|w i|w|w i|w i|w i| |i|i|w i| |i|i|i]; simpl in *; try done;
      rewrite ?Hst; pass_turn s h i Ht; destruct_and?; split_and?; try done; try lia; congruence.
  - intros i. rewrite Hst. pass_turn s h i Ht; intros Hti; [lia|lia|].
    destruct (ok_even0 i Hti) as [?|(j & w & Hj)]; [by left|right]. exists j, w.
    rewrite threads_goto by (by eapply lookup_lt_Some). rewrite decide_False; [done|].
    intros ->. rewrite Hk in Hj. congruence.
  - intros i. rewrite Hst. pass_turn s h i Ht; intros Hti; [subst i; by exists v; eauto|lia|].
    destruct (ok_odd0 i Hti) as (w & Hw & Hor). exists w. split; [done|].
    destruct Hor as [?|(j & w' & Hj)]; [by left|right]. exists j, w'.
    rewrite threads_goto by (by eapply lookup_lt_Some). rewrite decide_False; [done|].
    intros ->. rewrite Hk in Hj. congruence.
  - intros i w Hw. destruct (ok_results0 i w Hw). split; [done|]. pass_turn s h i Ht; lia.
  - intros i. pass_turn s h i Ht; intros Hlt; apply ok_returned0; lia.
Qed.

Lemma pop_store_ok s k v t :
  q_ok s → threads s !! k = Some (PopStore v t) →
  q_ok (goto k QIdle (return_value t v (set_slot t (mkSlot (turn t * 2 + 2) (storage_at t s)) s))).
Proof.
  intros Hs Hk. destruct (ok_pc s Hs k _ Hk) as (Hlt & Hu & Hv & Hx). pose proof Hs as [].
  set (s1 := return_value t v (set_slot t (mkSlot (turn t * 2 + 2) (storage_at t s)) s)).
  assert (∀ j, turn_at j (goto k QIdle s1) = if decide (idx t = idx j) then turn t * 2 + 2 else turn_at j s) as Ht
    by (intros j; exact (turn_at_set t (mkSlot (turn t * 2 + 2) (storage_at t s)) s j ok_slots0)).
  assert (∀ j, storage_at j (goto k QIdle s1) = storage_at j s) as Hst.
  { intros j. etrans; [exact (storage_at_set t (mkSlot (turn t * 2 + 2) (storage_at t s)) s j ok_slots0)|].
    destruct (decide (idx t = idx j)) as [E|]; [|done]. by destruct (same_slot t j s E). }
  pose proof (λ i j, holds_same push_ticket i k _ QIdle s1 j Hk eq_refl) as H1.
  pose proof (holds_left pop_ticket t k _ s1 Hk eq_refl eq_refl) as H2.
  assert (∀ i j, i ≠ t → holds pop_ticket i s j → j ≠ k) as Hother.
  { intros i j Hne (q & Hj & Hq) ->. rewrite Hk in Hj. injection Hj as <-. simpl in Hq. congruence. }
  split; try done.
  - simpl. by rewrite length_insert.
  - intros i j j'. rewrite !H1. apply ok_push_one0.
  - intros i j j' [Hj _]%H2 [Hj' _]%H2. by eapply ok_pop_one0.
  - intros i Hi. pass_turn s t i Ht; intros Hle;
      (destruct (ok_push_held0 i) as [j Hj]; [done|lia|]); exists j; by apply H1.
  - intros i Hi. pass_turn s t i Ht; intros Hle; [lia| |];
      (destruct (ok_pop_held0 i) as [j Hj]; [done|lia|]); exists j; apply H2; split; eauto.
  - intros i. pass_turn s t i Ht; intros Hi; apply ok_push_past0; lia.
  - intros i. pass_turn s t i Ht; intros Hi; [simpl; lia| |]; apply ok_pop_past0; lia.
  - intros j q. rewrite threads_goto by (by eapply lookup_lt_Some).
    destruct (decide (j = k)) as [->|Hne]; [by intros [= <-]|]. intros Hj. pose proof (ok_pc0 j q Hj) as Hq.
    assert (pop_ticket q ≠ Some t) as Hqt.
    { intros Eq. apply Hne, (ok_pop_one0 t); by eexists. }
    destruct q as [|w|w i|w i|w i|w|w i|w i|w i| |i|i|w i| |i|i|i]; simpl in *; try done;
      rewrite ?Hst; pass_turn s t i Ht; destruct_and?; split_and?; try done; try lia; congruence.
  - intros i. rewrite Hst. pass_turn s t i Ht; intros Hti; [lia|left; congruence|].
    destruct (ok_even0 i Hti) as [?|(j & w & Hj)]; [by left|right]. exists j, w.
    rewrite threads_goto by (by eapply lookup_lt_Some). rewrite decide_False; [done|].
    intros ->. rewrite Hk in Hj. congruence.
  - intros i. rewrite Hst. pass_turn s t i Ht; intros Hti; [lia|lia|].
    destruct (ok_odd0 i Hti) as (w & Hw & Hor). exists w. split; [done|].
    destruct Hor as [?|(j & w' & Hj)]; [by left|right]. exists j, w'.
    rewrite threads_goto by (by eapply lookup_lt_Some). rewrite decide_False; [done|].
    intros ->. rewrite Hk in Hj. congruence.
  - intros i w [Hw|[= -> ->]%list_elem_of_singleton]%elem_of_app.
    + destruct (ok_results0 i w Hw). split; [done|]. pass_turn s t i Ht; lia.
    + split; [done|]. rewrite Ht, decide_True by done. lia.
  - intros i. simpl. setoid_rewrite elem_of_app. pass_turn s t i Ht; intros Hi; [subst i; by exists v; right; left| |];
      (destruct (ok_returned0 i) as [w Hw]; [lia|]); exists w; by left.
  - simpl. rewrite fmap_app. apply NoDup_app. split_and!; [done| |apply NoDup_singleton].
    intros i ([i' w] & Ei & Hw)%list_elem_of_fmap Et%list_elem_of_singleton. simpl in Ei, Et. subst.
    apply ok_results0 in Hw as [_ Hw]. lia.
Qed.

(** ** Every step *)
Lemma new_queue_ok n : q_ok (new_queue n).
Proof.
  assert (∀ i, slot_of i (new_queue n) = mkSlot 0 None) as Hslot.
  { intros i. unfold slot_of. simpl. by destruct (replicate capacity _ !! idx i) eqn:E;
      [apply lookup_replicate in E as [-> _]|]. }
  assert (∀ i, turn_at i (new_queue n) = 0) as Ht by (intros i; unfold turn_at; by rewrite Hslot).
  assert (∀ k p, threads (new_queue n) !! k = Some p → p = QIdle) as Hidle.
  { intros k p Hk. simpl in Hk. by apply lookup_replicate in Hk as [-> _]. }
  split; simpl; try lia.
  - apply length_replicate.
  - by intros i j k (p & ->%Hidle & Hp).
  - by intros i j k (p & ->%Hidle & Hp).
  - intros i. rewrite Ht. lia.
  - intros i. rewrite Ht. lia.
  - by intros k p ->%Hidle.
  - intros i _. left. unfold storage_at. by rewrite Hslot.
  - intros i. rewrite Ht. lia.
  - by intros i v ?%not_elem_of_nil.
  - intros i. rewrite Ht. lia.
  - constructor.
Qed.

(** No step faults, and each keeps the invariant. *)
Lemma q_exec_ok s k c o : q_ok s → q_exec k c s = Some o → ∃ s', o = Ok s' ∧ q_ok s'.
Proof.
  intros Hs E. unfold q_exec in E. destruct (threads s !! k) as [p|] eqn:Hk; [|done]. simpl in E.
  pose proof (ok_pc s Hs k p Hk) as Hp. pose proof Hs as [].
  destruct p as [|w|w i|w i|w i|w|w i|w i|w i| |i|i|w i| |i|i|i]; simpl in Hp.
  - destruct c as [c|]; [|done]. simpl in E. simplify_eq. eexists. split; [done|].
    apply (move_ok s k QIdle); try done; by destruct c.
  - simplify_eq. eexists. split; [done|]. apply (draw_head_ok s k (PushFetch w)); try done. simpl.
    split_and!; [lia|apply list_lookup_middle; by symmetry|].
    destruct (le_lt_dec (turn_at (head_ s) s) (2 * turn (head_ s))) as [|Hlt]; [done|].
    apply ok_push_past0 in Hlt. lia.
  - destruct (Nat.eqb_spec (turn i * 2) (slot_turn (slot_of i s))) as [Ht|]; [|done]. simplify_eq.
    eexists. split; [done|]. apply (move_ok s k (PushWait w i)); try done. simpl. unfold turn_at in *.
    destruct_and?. split_and!; [done|done|lia].
  - destruct (construct_ok s k w i Hs Hk) as [Hx Hok]. unfold storage_at in Hx. rewrite Hx in E.
    simplify_eq. by eexists.
  - simplify_eq. eexists. split; [done|]. by apply (push_store_ok s k w i).
  - simplify_eq. eexists. split; [done|]. by apply (move_ok s k (TryPushLoad w)).
  - simplify_eq. eexists. split; [done|]. apply (move_ok s k (TryPushCheck w i)); try done;
      destruct (Nat.eqb_spec (turn i * 2) (slot_turn (slot_of i s))); try done. simpl. unfold turn_at. lia.
  - simplify_eq. eexists. split; [done|]. destruct (Nat.eqb_spec i (head_ s)) as [->|].
    + apply (draw_head_ok s k (TryPushCas w (head_ s))); try done. simpl.
      split_and!; [lia|apply list_lookup_middle; by symmetry|].
      destruct (decide (turn_at (head_ s) s = 2 * turn (head_ s))) as [|]; [done|].
      assert (2 * turn (head_ s) < turn_at (head_ s) s) as Hlt%ok_push_past0 by lia. lia.
    + by apply (move_ok s k (TryPushCas w i)).
  - simplify_eq. eexists. split; [done|]. apply (move_ok s k (TryPushReload w i)); try done;
      by destruct (head_ s =? i).
  - simplify_eq. eexists. split; [done|]. apply (draw_tail_ok s k PopFetch); try done. simpl.
    split; [lia|]. destruct (le_lt_dec (turn_at (tail_ s) s) (2 * turn (tail_ s) + 1)) as [|Hlt]; [done|].
    apply ok_pop_past0 in Hlt. lia.
  - destruct (Nat.eqb_spec (turn i * 2 + 1) (slot_turn (slot_of i s))) as [Ht|]; [|done]. simplify_eq.
    eexists. split; [done|]. apply (move_ok s k (PopWait i)); try done. simpl. unfold turn_at in *. lia.
  - destruct (move_out_ok s k i Hs Hk) as (v & Hx & Hok). unfold storage_at in Hx. rewrite Hx in E.
    simplify_eq. by eexists.
  - simplify_eq. eexists. split; [done|]. by apply (pop_store_ok s k w i).
  - simplify_eq. eexists. split; [done|]. by apply (move_ok s k TryPopLoad).
  - simplify_eq. eexists. split; [done|]. apply (move_ok s k (TryPopCheck i)); try done;
      destruct (Nat.eqb_spec (turn i * 2 + 1) (slot_turn (slot_of i s))); try done. simpl. unfold turn_at. lia.
  - simplify_eq. eexists. split; [done|]. destruct (Nat.eqb_spec i (tail_ s)) as [->|].
    + apply (draw_tail_ok s k (TryPopCas (tail_ s))); try done. simpl. split; [lia|].
      destruct (decide (turn_at (tail_ s) s = 2 * turn (tail_ s) + 1)) as [|]; [done|].
      assert (2 * turn (tail_ s) + 1 < turn_at (tail_ s) s) as Hlt%ok_pop_past0 by lia. lia.
    + by apply (move_ok s k (TryPopCas i)).
  - simplify_eq. eexists. split; [done|]. apply (move_ok s k (TryPopReload i)); try done;
      by destruct (tail_ s =? i).
Qed.

Lemma q_run_ok n s : q_run n s → q_ok s.
Proof.
  induction 1 as [|s k c s' _ IH E]; [apply new_queue_ok|].
  destruct (q_exec_ok s k c _ IH E) as (s2 & [= <-] & ?). done.
Qed.

(** *** When no operation is under way *)
Section Idle.
Context (s : mpmc) (Hs : q_ok s) (Hidle : ∀ k p, threads s !! k = Some p → p = QIdle).

Lemma idle_push_past i : i < head_ s → 2 * turn i < turn_at i s.
Proof.
  intros Hi. apply Nat.nle_gt. intros Hle. destruct (ok_push_held s Hs i Hi Hle) as (k & p & Hk & Hp).
  apply Hidle in Hk as ->. done.
Qed.

Lemma idle_pop_past i : i < tail_ s → 2 * turn i + 1 < turn_at i s.
Proof.
  intros Hi. apply Nat.nle_gt. intros Hle. destruct (ok_pop_held s Hs i Hi Hle) as (k & p & Hk & Hp).
  apply Hidle in Hk as ->. done.
Qed.

Lemma idle_bounds : tail_ s ≤ head_ s ≤ tail_ s + capacity.
Proof.
  split.
  - destruct (tail_ s) as [|t] eqn:Et; [lia|]. pose proof (idle_pop_past t ltac:(lia)).
    assert (t < head_ s) by (apply (ok_push_past s Hs); lia). lia.
  - apply Nat.nlt_ge. intros Hlt. pose proof (idle_push_past (tail_ s + capacity) ltac:(lia)) as Hu.
    replace (tail_ s + capacity) with (tail_ s + 1 * capacity) in Hu by lia.
    assert (idx (tail_ s + 1 * capacity) = idx (tail_ s)) as Ei by apply Nat.Div0.mod_add.
    assert (turn (tail_ s + 1 * capacity) = turn (tail_ s) + 1) as Et by (by apply Nat.div_add).
    destruct (same_slot _ _ s Ei) as [Hsame _]. rewrite Et, Hsame in Hu.
    assert (tail_ s < tail_ s) by (apply (ok_pop_past s Hs); lia). lia.
Qed.

Lemma idle_results : results s ≡ₚ zip (seq 0 (tail_ s)) (pushes s).
Proof.
  pose proof idle_bounds as [Hle _]. pose proof (ok_pushes s Hs) as Hlen.
  apply NoDup_Permutation; [eapply NoDup_fmap_1, ok_results_one, Hs| |].
  - eapply (NoDup_fmap_1 fst). rewrite fst_zip by (rewrite length_seq; lia). apply NoDup_seq.
  - intros [i v]. rewrite elem_of_lookup_zip_with. split.
    + intros Hi. destruct (ok_results s Hs i v Hi) as [Hv Ht]. exists i, i, v. split_and!; [done| |done].
      apply lookup_seq. split; [lia|]. by apply (ok_pop_past s Hs).
    + intros (j & a & b & [= -> ->] & [-> Hj]%lookup_seq & Hv). simpl in Hv |- *.
      destruct (ok_returned s Hs j) as [w Hw]; [by apply idle_pop_past|].
      destruct (ok_results s Hs j w Hw) as [Hw' _]. congruence.
Qed.

Lemma idle_storage i v : tail_ s ≤ i → pushes s !! i = Some v → storage_at i s = Some v.
Proof.
  intros Hi Hv. assert (i < head_ s) as Hh by (rewrite <-(ok_pushes s Hs); by eapply lookup_lt_Some).
  pose proof (idle_push_past i Hh) as Hu. assert (turn_at i s = 2 * turn i + 1) as Ht.
  { destruct (decide (turn_at i s = 2 * turn i + 1)) as [|Hne]; [done|].
    assert (i < tail_ s) by (apply (ok_pop_past s Hs); lia). lia. }
  destruct (ok_odd s Hs i Ht) as (w & Hw & [?|(k & w' & Hk)]); [congruence|]. by apply Hidle in Hk.
Qed.

End Idle.

(** C33: the queue is first in, first out.  Whatever the threads do, in every
    interleaving of [push], [try_push], [pop] and [try_pop]: no value is read
    from empty storage and none is overwritten; the consumer with the [i]-th
    ticket returns the value of the producer with the [i]-th ticket, and no
    ticket is served twice.  When no operation is under way, the values returned
    are exactly the first [tail_] ones pushed, the others are still in their
    slots, and there are at most [capacity_] of them. *)
Theorem mpmc_fifo n s :
  q_run n s →
  (∀ k c f, q_exec k c s ≠ Some (Fatal f)) ∧
  NoDup (results s).*1 ∧ (∀ i v, (i, v) ∈ results s → pushes s !! i = Some v) ∧
  ((∀ k p, threads s !! k = Some p → p = QIdle) →
     results s ≡ₚ zip (seq 0 (tail_ s)) (pushes s) ∧
     tail_ s ≤ length (pushes s) ≤ tail_ s + capacity ∧
     ∀ i v, tail_ s ≤ i → pushes s !! i = Some v → storage_at i s = Some v).
Proof.
  intros Hrun. pose proof (q_run_ok n s Hrun) as Hs. split_and!.
  - intros k c f E. by destruct (q_exec_ok s k c _ Hs E) as (s' & ? & _).
  - apply (ok_results_one s Hs).
  - intros i v Hi. by apply (ok_results s Hs).
  - intros Hidle. rewrite (ok_pushes s Hs). pose proof (idle_bounds s Hs Hidle).
    split_and!; [by apply idle_results|lia|lia|]. intros i v. by apply idle_storage.
Qed.

(** *** Progress *)
Lemma holder_steps s k p :
  q_ok s → threads s !! k = Some p →
  (∃ i, push_ticket p = Some i ∧ turn_at i s = 2 * turn i) ∨
    (∃ i, pop_ticket p = Some i ∧ turn_at i s = 2 * turn i + 1) →
  ∃ s', q_exec k None s = Some (Ok s').
Proof.
  intros Hs Hk Hp. assert (is_Some (q_exec k None s)) as [o Ho].
  { unfold q_exec. rewrite Hk. simpl. unfold turn_at in Hp.
    destruct p as [|w|w i|w i|w i|w|w i|w i|w i| |i|i|w i| |i|i|i]; simpl in *; try by eexists.
    - destruct Hp as [(? & ? & _)|(? & ? & _)]; done.
    - destruct Hp as [(i' & [= <-] & Ht)|(? & ? & _)]; [|done]. rewrite (proj2 (Nat.eqb_eq _ _)) by lia. by eexists.
    - destruct (slot_storage _); by eexists.
    - destruct Hp as [(? & ? & _)|(i' & [= <-] & Ht)]; [done|]. rewrite (proj2 (Nat.eqb_eq _ _)) by lia. by eexists.
    - destruct (slot_storage _); by eexists. }
  destruct (q_exec_ok s k None o Hs Ho) as (s' & -> & _). by exists s'.
Qed.

Definition in_flight (s : mpmc) (k : nat) : Prop :=
  ∃ i, holds push_ticket i s k ∨ holds pop_ticket i s k.

(** The ticket whose turn it is at the slot of [i0] is being served. *)
Lemma slot_moves s i0 :
  q_ok s →
  let i := turn_at i0 s / 2 * capacity + idx i0 in
  (if Nat.even (turn_at i0 s) then i < head_ s else i < tail_ s) →
  ∃ k s', in_flight s k ∧ q_exec k None s = Some (Ok s').
Proof.
  intros Hs i Hi. pose proof Hs as [].
  assert (idx i = idx i0 ∧ turn i = turn_at i0 s / 2) as [Ei Et].
  { pose proof (idx_lt i0). unfold i, idx, turn in *. split.
    - rewrite Nat.add_comm, Nat.Div0.mod_add. by apply Nat.mod_small.
    - rewrite Nat.add_comm, Nat.div_add by done. rewrite Nat.div_small by done. lia. }
  destruct (same_slot i i0 s Ei) as [Hsame _].
  pose proof (Nat.div_mod (turn_at i0 s) 2 ltac:(done)) as Hdiv.
  destruct (Nat.even (turn_at i0 s)) eqn:Hev.
  - apply Nat.even_spec in Hev as [m Hm].
    assert (turn_at i s = 2 * turn i) as Hti.
    { rewrite Hsame, Et, Hm. rewrite Nat.mul_comm, Nat.div_mul by done. lia. }
    destruct (ok_push_held0 i Hi ltac:(lia)) as [k (p & Hk & Hp)].
    destruct (holder_steps s k p Hs Hk) as [s' Hs']; [left; by exists i|].
    exists k, s'. split; [|done]. exists i. left. by exists p.
  - assert (Nat.odd (turn_at i0 s) = true) as [m Hm]%Nat.odd_spec by (by rewrite <-Nat.negb_even, Hev).
    assert (turn_at i s = 2 * turn i + 1) as Hti.
    { rewrite Hsame, Et, Hm. replace (2 * m + 1) with (1 + m * 2) by lia. rewrite Nat.div_add by done.
      rewrite (Nat.div_small 1 2) by lia. lia. }
    destruct (ok_pop_held0 i Hi ltac:(lia)) as [k (p & Hk & Hp)].
    destruct (holder_steps s k p Hs Hk) as [s' Hs']; [right; by exists i|].
    exists k, s'. split; [|done]. exists i. right. by exists p.
Qed.

(** nobody waits in vain.  While a consumer waits with a ticket some
    producer has drawn, or a producer waits with a ticket for which there is
    room ([capacity_] beyond the tickets of the consumers), a thread that holds
    a ticket can take a step of its operation. *)
Theorem mpmc_progress n s k p :
  q_run n s → threads s !! k = Some p →
  (∃ t, p = PopWait t ∧ t < head_ s) ∨ (∃ v h, p = PushWait v h ∧ h < tail_ s + capacity) →
  ∃ j s', in_flight s j ∧ q_exec j None s = Some (Ok s').
Proof.
  intros Hrun Hk Hp. pose proof (q_run_ok n s Hrun) as Hs. pose proof (ok_pc s Hs k p Hk) as Hpc.
  assert (∀ i m, m ≤ turn i → m * capacity + idx i ≤ i) as Hle.
  { intros i m Hm. unfold turn, idx in *. rewrite (Nat.div_mod i capacity Hcap) at 2. nia. }
  destruct Hp as [(t & -> & Hlt)|(v & h & -> & Hlt)]; simpl in Hpc.
  - destruct Hpc as [Ht Hu]. apply (slot_moves s t Hs).
    assert (turn_at t s / 2 ≤ turn t) as Hm by (apply Nat.lt_succ_r, Nat.Div0.div_lt_upper_bound; lia).
    pose proof (Hle t _ Hm). destruct (Nat.even _); lia.
  - destruct Hpc as (Hh & _ & Hu). apply (slot_moves s h Hs).
    destruct (Nat.even (turn_at h s)) eqn:Hev.
    + assert (turn_at h s / 2 ≤ turn h) as Hm by (apply Nat.Div0.div_le_upper_bound; lia).
      pose proof (Hle h _ Hm). lia.
    + assert (Nat.odd (turn_at h s) = true) as [m Hm]%Nat.odd_spec by (by rewrite <-Nat.negb_even, Hev).
      assert (turn_at h s / 2 = m) as -> by (rewrite Hm; replace (2 * m + 1) with (1 + m * 2) by lia;
        rewrite Nat.div_add by done; rewrite (Nat.div_small 1 2) by lia; lia).
      pose proof (Hle h (S m) ltac:(lia)). simpl in *. lia.
Qed.

End Queue.

(** ** A run with two slots *)
Module TwoSlots.

Definition step_all (l : list (nat * option (op (A := nat)))) : mpmc :=
  foldl (λ s '(k, c), match q_exec 2 k c s with Some (Ok s') => s' | _ => s end) (new_queue 2 3) l.

(** Thread 0 pushes 7 and 8, thread 1 starts to push 9 and finds the ring full,
    thread 2 pops. *)
Definition filling : list (nat * option (op (A := nat))) :=
  (λ c, (0, c)) <$> [Some (OpPush 7); None; None; None; None; Some (OpPush 8); None; None; None; None].
Definition full : list (nat * option (op (A := nat))) := filling ++ [(1, Some (OpPush 9)); (1, None); (2, Some OpPop); (2, None)].
Definition drained : list (nat * option (op (A := nat))) :=
  full ++ [(2, None); (2, None); (2, None); (1, None); (1, None); (1, None)].

Lemma steps_run l : q_run 2 3 (step_all l).
Proof.
  unfold step_all. assert (q_run 2 3 (new_queue (A := nat) 2 3)) as H0 by apply q_start. revert H0.
  generalize (new_queue (A := nat) 2 3). induction l as [|[k c] l IH]; intros s Hs; [done|]. simpl.
  apply IH. destruct (q_exec 2 k c s) as [[s'|]|] eqn:E; [by eapply q_next|done|done].
Qed.

Lemma mpmc_fifo_witness :
  results (step_all drained) = [(0, 7)] ∧
  results (step_all drained) ≡ₚ zip (seq 0 (tail_ (step_all drained))) (pushes (step_all drained)).
Proof.
  split; [vm_compute; reflexivity|].
  apply (mpmc_fifo 2 ltac:(done) 3 (step_all drained) (steps_run drained)).
  intros k p Hk. destruct k as [|[|[|k]]]; vm_compute in Hk; first [discriminate Hk|by injection Hk as <-].
Defined.

Lemma mpmc_progress_witness :
  threads (step_all full) = [QIdle; PushWait 9 2; PopWait 0] ∧
  ∃ j s', in_flight (step_all full) j ∧ q_exec 2 j None (step_all full) = Some (Ok s').
Proof.
  split; [vm_compute; reflexivity|].
  apply (mpmc_progress 2 ltac:(done) 3 (step_all full) 1 (PushWait 9 2) (steps_run full)); [reflexivity|].
  right. exists 9, 2. split; [reflexivity|]. vm_compute. lia.
Defined.

End TwoSlots.
