(* ===== verification/Semaphore.v ===== *)
(** * The light-weight semaphore

    [include/common/concurrent_queue/light_weight_semaphore.hpp], on which the
    blocking queues and the broadcaster wait.  A counter decides without the
    kernel when permits are there; a thread that finds none makes the counter
    negative and waits on a kernel semaphore, and [signal] posts to the kernel as
    many times as threads wait.  A thread whose time is up takes its decrement
    back, unless a post is already on its way.

    The threads are a step relation with a step per atomic access, sequentially
    consistent; a kernel semaphore is a counter.  Counts stay far below the
    width of [ssize_t] and [int] (the theorem bounds them). *)
From S2P Require Import Prelude.
From Stdlib Require Import ZArith Lia.
From stdpp Require Import base list.

Local Open Scope Z_scope.

(** A call that acquires: [tryWait] and [wait] ([many = false], one permit) or
    their [Many] variants; [sc_positive] is the variant of [waitMany] without a
    time-out, which asserts a positive result. *)
Record scall := mkCall { sc_many : bool; sc_max : Z; sc_timeout : Z; sc_positive : bool }.

(** What follows [tryWaitMany]: return its result, spin if it is 0, or add it
    to the permit acquired before. *)
Inductive kont := KReturn | KSpin | KMore.

Inductive spc :=
  | SIdle
  | TryLoad (c : scall) (k : kont)
  | TryCas (c : scall) (k : kont) (oldCount : Z)
  | SpinLoad (c : scall) (spin : nat)
  | SpinCas (c : scall) (spin : nat) (oldCount : Z)
  | FetchSub (c : scall)
  | KernelWait (c : scall)
  | AdjustLoad (c : scall)
  | AdjustTry (c : scall)
  | AdjustCas (c : scall) (oldCount : Z)
  | SignalAdd (count : Z)
  | SignalPost (count : Z).

(** [given]: permits at the start and by [signal]; [taken]: the results of the
    calls that acquire, with their maxima. *)
Record sema := mkSema {
  m_count : Z;
  m_sema : Z;
  s_threads : list spc;
  given : Z;
  taken : list (Z * Z) }.

Definition new_sema (initialCount : Z) (n : nat) : sema := mkSema initialCount 0 (replicate n SIdle) initialCount [].

Inductive sop :=
  | OpTryWait
  | OpWait (timeout : Z)
  | OpTryWaitMany (max : Z)
  | OpWaitManyTimed (max timeout : Z)
  | OpWaitMany (max : Z)
  | OpSignal (count : Z).

(** A call, or a step; the flag is a spurious failure of a weak
    compare-and-swap or a time-out. *)
Inductive input := Call (o : sop) | Go (flag : bool).

Definition s_goto (k : nat) (p : spc) (s : sema) : sema :=
  mkSema (m_count s) (m_sema s) (<[k := p]> (s_threads s)) (given s) (taken s).
Definition set_count (n : Z) (s : sema) : sema := mkSema n (m_sema s) (s_threads s) (given s) (taken s).
Definition set_sema (n : Z) (s : sema) : sema := mkSema (m_count s) n (s_threads s) (given s) (taken s).

Definition newCount (c : scall) (oldCount : Z) : Z :=
  if sc_many c then (if sc_max c <? oldCount then oldCount - sc_max c else 0) else oldCount - 1.

(** Return [r] from the call [c] of which [max] permits were asked. *)
Definition s_return (k : nat) (c : scall) (max r : Z) (s : sema) : outcome sema :=
  CHECK (negb (sc_positive c) || (0 <? r));;
  Ok (s_goto k SIdle (mkSema (m_count s) (m_sema s) (s_threads s) (given s) (taken s ++ [(max, r)]))).

Section Steps.
Context (maxSpins : nat).

(** After [tryWaitMany] returned [r]. *)
Definition after_try (k : nat) (c : scall) (κ : kont) (r : Z) (s : sema) : outcome sema :=
  match κ with
  | KReturn => s_return k c (sc_max c) r s
  | KSpin => if (r =? 0) && (0 <? sc_max c) then Ok (s_goto k (SpinLoad c maxSpins) s) else s_return k c (sc_max c) r s
  | KMore => s_return k c (sc_max c + 1) (1 + r) s
  end.

(** After the one permit the slow path waited for. *)
Definition after_first (k : nat) (c : scall) (s : sema) : outcome sema :=
  if sc_many c && (1 <? sc_max c)
  then Ok (s_goto k (TryLoad (mkCall true (sc_max c - 1) (sc_timeout c) (sc_positive c)) KMore) s)
  else s_return k c (sc_max c) 1 s.

Definition sem_call (k : nat) (o : sop) (s : sema) : outcome sema :=
  match o with
  | OpTryWait => Ok (s_goto k (TryLoad (mkCall false 1 0 false) KReturn) s)
  | OpWait t => Ok (s_goto k (TryLoad (mkCall false 1 t false) KSpin) s)
  | OpTryWaitMany max => CHECK (0 <=? max);; Ok (s_goto k (TryLoad (mkCall true max 0 false) KReturn) s)
  | OpWaitManyTimed max t => CHECK (0 <=? max);; Ok (s_goto k (TryLoad (mkCall true max t false) KSpin) s)
  | OpWaitMany max => CHECK (0 <=? max);; Ok (s_goto k (TryLoad (mkCall true max (-1) true) KSpin) s)
  | OpSignal count => CHECK (0 <=? count);; Ok (s_goto k (SignalAdd count) s)
  end.

(** One step of thread [k]; [None]: it waits, or the input does not fit. *)
Definition sem_exec (k : nat) (i : input) (s : sema) : option (outcome sema) :=
  match s_threads s !! k, i with
  | Some SIdle, Call o => Some (sem_call k o s)
  | Some (TryLoad c κ), Go _ => Some (Ok (s_goto k (TryCas c κ (m_count s)) s))
  | Some (TryCas c κ old), Go spurious =>
      Some (if 0 <? old then
              if (m_count s =? old) && negb spurious
              then after_try k c κ (old - newCount c old) (set_count (newCount c old) s)
              else Ok (s_goto k (TryCas c κ (m_count s)) s)
            else after_try k c κ 0 s)
  | Some (SpinLoad c O), Go _ => Some (Ok (s_goto k (FetchSub c) s))
  | Some (SpinLoad c (S spin)), Go _ => Some (Ok (s_goto k (SpinCas c spin (m_count s)) s))
  | Some (SpinCas c spin old), Go _ =>
      Some (if (0 <? old) && (m_count s =? old)
            then s_return k c (sc_max c) (old - newCount c old) (set_count (newCount c old) s)
            else Ok (s_goto k (SpinLoad c spin) s))
  | Some (FetchSub c), Go _ =>
      let s' := set_count (m_count s - 1) s in
      Some (if 0 <? m_count s then after_first k c s'
            else Ok (s_goto k (if sc_timeout c =? 0 then AdjustLoad c else KernelWait c) s'))
  | Some (KernelWait c), Go expired =>
      if (0 <? sc_timeout c) && expired then Some (Ok (s_goto k (AdjustLoad c) s))
      else if 0 <? m_sema s then Some (after_first k c (set_sema (m_sema s - 1) s)) else None
  | Some (AdjustLoad c), Go _ =>
      Some (Ok (s_goto k (if 0 <=? m_count s then AdjustTry c else AdjustCas c (m_count s)) s))
  | Some (AdjustTry c), Go _ =>
      Some (if 0 <? m_sema s then after_first k c (set_sema (m_sema s - 1) s) else Ok (s_goto k (AdjustLoad c) s))
  | Some (AdjustCas c old), Go _ =>
      Some (if m_count s =? old then s_return k c (sc_max c) 0 (set_count (old + 1) s)
            else Ok (s_goto k (AdjustLoad c) s))
  | Some (SignalAdd count), Go _ =>
      let old := m_count s in
      let toRelease := if - old <? count then - old else count in
      let s' := mkSema (old + count) (m_sema s) (s_threads s) (given s + count) (taken s) in
      Some (Ok (s_goto k (if 0 <? toRelease then SignalPost toRelease else SIdle) s'))
  | Some (SignalPost count), Go _ =>
      Some (Ok (if 0 <? count then s_goto k (SignalPost (count - 1)) (set_sema (m_sema s + 1) s)
                else s_goto k SIdle s))
  | _, _ => None
  end.

(** The arguments the asserts ask for. *)
Definition sop_ok (o : sop) : Prop :=
  match o with
  | OpTryWait | OpWait _ => True
  | OpTryWaitMany max | OpWaitManyTimed max _ => 0 <= max
  | OpWaitMany max => 0 < max
  | OpSignal count => 0 <= count
  end.
Definition input_ok (i : input) : Prop := match i with Call o => sop_ok o | Go _ => True end.

Inductive s_run (init : Z) (n : nat) : sema → Prop :=
  | s_start : s_run init n (new_sema init n)
  | s_next s k i s' : s_run init n s → input_ok i → sem_exec k i s = Some (Ok s') → s_run init n s'.

(** ** The invariant *)

(** A thread that has taken the counter down and waits for a post; the posts a
    thread still has to make; a permit a call already holds. *)
Definition waits (p : spc) : Z :=
  match p with KernelWait _ | AdjustLoad _ | AdjustTry _ | AdjustCas _ _ => 1 | _ => 0 end.
Definition posts (p : spc) : Z := match p with SignalPost n => n | _ => 0 end.
Definition holds_one (p : spc) : Z := match p with TryLoad _ KMore | TryCas _ KMore _ => 1 | _ => 0 end.

Definition zsum {A} (f : A → Z) (l : list A) : Z := foldr (λ x a, f x + a) 0 l.

Definition call_ok (c : scall) : Prop := (sc_many c = false → sc_max c = 1) ∧ 0 <= sc_max c.
(** A call on the slow path: it wants a permit, and with a positive result it
    waits without a time-out. *)
Definition slow_ok (c : scall) : Prop := call_ok c ∧ 0 < sc_max c ∧ (sc_positive c = true → sc_timeout c < 0).

Definition spc_ok (p : spc) : Prop :=
  match p with
  | SIdle => True
  | TryLoad c κ | TryCas c κ _ =>
      match κ with
      | KReturn => call_ok c ∧ sc_positive c = false
      | KSpin => call_ok c ∧ (sc_positive c = true → slow_ok c)
      | KMore => call_ok c
      end
  | SpinLoad c _ | SpinCas c _ _ | FetchSub c => slow_ok c
  | KernelWait c => slow_ok c ∧ sc_timeout c ≠ 0
  | AdjustLoad c | AdjustTry c => slow_ok c ∧ 0 <= sc_timeout c
  | AdjustCas c old => (slow_ok c ∧ 0 <= sc_timeout c) ∧ old < 0
  | SignalAdd n | SignalPost n => 0 <= n
  end.

Record s_ok (s : sema) : Prop := {
  so_pc : Forall spc_ok (s_threads s);
  so_given : given s = m_count s + zsum waits (s_threads s) + zsum snd (taken s) + zsum holds_one (s_threads s);
  so_waits : zsum waits (s_threads s) = Z.max 0 (- m_count s) + m_sema s + zsum posts (s_threads s);
  so_sema : 0 <= m_sema s;
  so_taken : Forall (λ x, 0 <= x.2 <= x.1) (taken s) }.

Lemma zsum_app {A} (f : A → Z) l1 l2 : zsum f (l1 ++ l2) = zsum f l1 + zsum f l2.
Proof. induction l1 as [|x l1 IH]; simpl; [done|]. rewrite IH. lia. Qed.

Lemma zsum_insert {A} (f : A → Z) l k x y : l !! k = Some x → zsum f (<[k := y]> l) = zsum f l - f x + f y.
Proof.
  revert k. induction l as [|z l IH]; intros [|k] Hk; simplify_eq/=; [lia|]. rewrite (IH k Hk). lia.
Qed.

Lemma zsum_nonneg {A} (f : A → Z) l : (∀ x, x ∈ l → 0 <= f x) → 0 <= zsum f l.
Proof.
  induction l as [|x l IH]; intros Hf; simpl; [done|]. pose proof (Hf x (list_elem_of_here _ _)).
  assert (0 <= zsum f l) by (apply IH; intros y Hy; apply Hf; by right). lia.
Qed.

(** Thread [k] moves from [p] to [p'] and the shared state changes: the balances
    of the invariant are kept if the changes balance. *)
Lemma sem_move_ok s k p p' count' sema' given' new :
  s_ok s → s_threads s !! k = Some p → spc_ok p' →
  given' - given s = (count' - m_count s) + (waits p' - waits p) + zsum snd new + (holds_one p' - holds_one p) →
  waits p' - waits p = (Z.max 0 (- count') - Z.max 0 (- m_count s)) + (sema' - m_sema s) + (posts p' - posts p) →
  0 <= sema' → Forall (λ x, 0 <= x.2 <= x.1) new →
  s_ok (mkSema count' sema' (<[k := p']> (s_threads s)) given' (taken s ++ new)).
Proof.
  intros [Hpc Hg Hw Hs Ht] Hk Hp' Eg Ew Hs' Hnew. split; simpl.
  - by apply Forall_insert.
  - rewrite zsum_app, !(zsum_insert _ _ _ _ _ Hk). lia.
  - rewrite !(zsum_insert _ _ _ _ _ Hk). lia.
  - done.
  - by apply Forall_app.
Qed.

(** A step that takes nothing. *)
Lemma sem_move_ok_nil s k p p' count' sema' given' :
  s_ok s → s_threads s !! k = Some p → spc_ok p' →
  given' - given s = (count' - m_count s) + (waits p' - waits p) + (holds_one p' - holds_one p) →
  waits p' - waits p = (Z.max 0 (- count') - Z.max 0 (- m_count s)) + (sema' - m_sema s) + (posts p' - posts p) →
  0 <= sema' →
  s_ok (mkSema count' sema' (<[k := p']> (s_threads s)) given' (taken s)).
Proof.
  intros Hs Hk Hp Eg Ew Hs'. rewrite <-(app_nil_r (taken s)). apply (sem_move_ok s k p); try done. simpl. lia.
Qed.

Lemma newCount_bounds c old : call_ok c → 0 < old → 0 <= newCount c old <= old ∧ old - newCount c old <= sc_max c.
Proof.
  intros [H1 H2] Ho. unfold newCount. destruct (sc_many c); [|rewrite H1 by done; lia].
  destruct (Z.ltb_spec (sc_max c) old); lia.
Qed.

(** The returns: [d] is what the step takes from the counter or the kernel
    semaphore. *)
Lemma s_return_ok s k p c max r count' sema' :
  s_ok s → s_threads s !! k = Some p → 0 <= r <= max → (sc_positive c = true → 0 < r) →
  0 = (count' - m_count s) - waits p + r - holds_one p →
  - waits p = (Z.max 0 (- count') - Z.max 0 (- m_count s)) + (sema' - m_sema s) - posts p → 0 <= sema' →
  ∃ s', s_return k c max r (mkSema count' sema' (s_threads s) (given s) (taken s)) = Ok s' ∧ s_ok s'.
Proof.
  intros Hs Hk Hr Hpos Eg Ew Hs'. unfold s_return.
  assert (negb (sc_positive c) || (0 <? r) = true) as ->.
  { destruct (sc_positive c); [|done]. simpl. apply Z.ltb_lt. by apply Hpos. }
  eexists. split; [done|]. apply (sem_move_ok s k p); simpl; try done; [lia..|]. by constructor.
Qed.

Lemma after_first_ok s k p c count' sema' :
  s_ok s → s_threads s !! k = Some p → slow_ok c → holds_one p = 0 →
  0 = (count' - m_count s) - waits p + 1 →
  - waits p = (Z.max 0 (- count') - Z.max 0 (- m_count s)) + (sema' - m_sema s) - posts p → 0 <= sema' →
  ∃ s', after_first k c (mkSema count' sema' (s_threads s) (given s) (taken s)) = Ok s' ∧ s_ok s'.
Proof.
  intros Hs Hk [[H1 H2] [H3 H4]] Hh Eg Ew Hs'. unfold after_first.
  destruct (sc_many c && (1 <? sc_max c)) eqn:E.
  - apply andb_true_iff in E as [Em El%Z.ltb_lt]. eexists. split; [done|].
    apply (sem_move_ok_nil s k p); simpl; try done; try lia. split; simpl; [done|lia].
  - apply (s_return_ok s k p); try done; lia.
Qed.

Lemma after_try_ok s k p c κ r count' :
  s_ok s → s_threads s !! k = Some p → (∀ old, spc_ok (TryCas c κ old)) → waits p = 0 → posts p = 0 →
  holds_one p = (match κ with KMore => 1 | _ => 0 end) → 0 <= r <= sc_max c → (count' = m_count s - r) →
  Z.max 0 (- count') = Z.max 0 (- m_count s) →
  ∃ s', after_try k c κ r (mkSema count' (m_sema s) (s_threads s) (given s) (taken s)) = Ok s' ∧ s_ok s'.
Proof.
  intros Hs Hk Hc Hw Hp Hh Hr Ec Em. pose proof (so_sema s Hs) as Hs0. specialize (Hc 0). destruct κ; simpl in *.
  - destruct Hc as [Hc Hpos]. apply (s_return_ok s k p); try done; try lia. by rewrite Hpos.
  - destruct Hc as [Hc Hslow]. destruct ((r =? 0) && (0 <? sc_max c)) eqn:E.
    + apply andb_true_iff in E as [Er%Z.eqb_eq El%Z.ltb_lt]. eexists. split; [done|].
      apply (sem_move_ok_nil s k p); simpl; try done; try lia. split; [done|]. split; [done|]. intros Hpos. by apply Hslow.
    + apply (s_return_ok s k p); try done; try lia. intros Hpos. destruct (Hslow Hpos) as (_ & Hm & _).
      apply andb_false_iff in E as [E%Z.eqb_neq|E%Z.ltb_ge]; lia.
  - apply (s_return_ok s k p); try done; lia.
Qed.

Lemma sem_call_ok s k o :
  s_ok s → s_threads s !! k = Some SIdle → sop_ok o → ∃ s', sem_call k o s = Ok s' ∧ s_ok s'.
Proof.
  intros Hs Hk Ho. pose proof (so_sema s Hs).
  assert (∀ p', spc_ok p' → waits p' = 0 → posts p' = 0 → holds_one p' = 0 → s_ok (s_goto k p' s)) as Hgo.
  { intros p' Hp H1 H2 H3. apply (sem_move_ok_nil s k SIdle); simpl; try done; lia. }
  destruct o; simpl in *; rewrite ?(proj2 (Z.leb_le _ _)) by lia; (eexists; split; [done|]); apply Hgo; try done;
    simpl; unfold slow_ok, call_ok; simpl; split_and?; try done; try lia; intros; split_and?; done || lia.
Qed.

Lemma waits_nonneg l : 0 <= zsum waits l <= Z.of_nat (length l).
Proof. induction l as [|p l IH]; simpl; [done|]. assert (0 <= waits p <= 1) by (by destruct p). lia. Qed.

Lemma posts_nonneg s : s_ok s → 0 <= zsum posts (s_threads s).
Proof.
  intros Hs. apply zsum_nonneg. intros p Hp. pose proof (proj1 (Forall_forall _ _) (so_pc s Hs) p Hp) as Hok.
  by destruct p.
Qed.

(** A waiting thread is counted: as long as it waits, the counter is negative or
    a post is under way. *)
Lemma waits_le s k p : s_threads s !! k = Some p → waits p <= zsum waits (s_threads s).
Proof.
  intros Hk. rewrite <-(list_insert_id _ _ _ Hk) at 1. rewrite (zsum_insert _ _ _ _ _ Hk).
  assert (∀ l j x, l !! j = Some x → waits x <= zsum waits l) as Hle; [|pose proof (Hle _ _ _ Hk); lia].
  induction l as [|y l IH]; intros [|j] x Hj; simplify_eq/=.
  - pose proof (waits_nonneg l). lia.
  - specialize (IH _ _ Hj). assert (0 <= waits y) by (by destruct y). lia.
Qed.

Lemma sem_exec_ok s k i r :
  s_ok s → input_ok i → sem_exec k i s = Some r → ∃ s', r = Ok s' ∧ s_ok s'.
Proof.
  intros Hs Hi E. unfold sem_exec in E. destruct (s_threads s !! k) as [p|] eqn:Hk; [|done].
  pose proof (proj1 (Forall_forall _ _) (so_pc s Hs) p (list_elem_of_lookup_2 _ _ _ Hk)) as Hp.
  pose proof (so_sema s Hs) as Hs0. pose proof (waits_le s k p Hk) as Hwl.
  assert (∀ p', spc_ok p' → waits p' = waits p → posts p' = posts p → holds_one p' = holds_one p → s_ok (s_goto k p' s)) as Hgo.
  { intros p' H1 H2 H3 H4. apply (sem_move_ok_nil s k p); simpl; try done; lia. }
  destruct p as [|c κ|c κ old|c [|spin]|c spin old|c|c|c|c|c old|n|n], i as [o|flag]; try done; simpl in Hp;
    try (injection E as <-).
  - by apply sem_call_ok.
  - eexists. split; [done|]. by apply Hgo.
  - destruct (Z.ltb_spec 0 old) as [Ho|Ho].
    + destruct ((m_count s =? old) && negb flag) eqn:Ec.
      * apply andb_true_iff in Ec as [<-%Z.eqb_eq _].
        assert (call_ok c) as Hc by (destruct κ; [by destruct Hp as [? _]..|exact Hp]). pose proof (newCount_bounds c (m_count s) Hc Ho).
        apply (after_try_ok s k (TryCas c κ (m_count s)) c κ _ _ Hs Hk); simpl; try done; try lia.
      * eexists. split; [done|]. by apply Hgo.
    + assert (call_ok c) as [_ Hc] by (destruct κ; [by destruct Hp as [? _]..|exact Hp]).
      assert (s = mkSema (m_count s) (m_sema s) (s_threads s) (given s) (taken s)) as Es by (by destruct s).
      rewrite Es. clear Es. apply (after_try_ok s k (TryCas c κ old) c κ _ _ Hs Hk); simpl; try done; try lia.
  - eexists. split; [done|]. by apply Hgo.
  - eexists. split; [done|]. by apply Hgo.
  - destruct ((0 <? old) && (m_count s =? old)) eqn:Ec; [|eexists; split; [done|]; by apply Hgo].
    apply andb_true_iff in Ec as [Ho%Z.ltb_lt <-%Z.eqb_eq]. destruct Hp as (Hc & Hm & Hpos).
    pose proof (newCount_bounds c (m_count s) Hc Ho).
    apply (s_return_ok s k _ _ _ _ _ _ Hs Hk); simpl; try lia. intros _. unfold newCount.
    destruct (sc_many c); [destruct (Z.ltb_spec (sc_max c) (m_count s)); lia|lia].
  - destruct (Z.ltb_spec 0 (m_count s)) as [Ho|Ho].
    + apply (after_first_ok s k _ c _ _ Hs Hk Hp); simpl; lia.
    + eexists. split; [done|]. destruct (Z.eqb_spec (sc_timeout c) 0) as [Et|Et];
        apply (sem_move_ok_nil s k _ _ _ _ _ Hs Hk); simpl; try lia; split; try done; lia.
  - destruct Hp as [Hp Ht]. destruct ((0 <? sc_timeout c) && flag) eqn:Ec.
    + injection E as <-. apply andb_true_iff in Ec as [Ht0%Z.ltb_lt _]. eexists. split; [done|].
      apply Hgo; try done. simpl. split; [done|lia].
    + destruct (Z.ltb_spec 0 (m_sema s)) as [Hm|Hm]; [|done]. injection E as <-.
      apply (after_first_ok s k _ c _ _ Hs Hk Hp); simpl; lia.
  - eexists. split; [done|]. destruct (Z.leb_spec 0 (m_count s)); apply Hgo; simpl; try done; by split.
  - destruct Hp as [Hp Ht]. destruct (Z.ltb_spec 0 (m_sema s)) as [Hm|Hm].
    + apply (after_first_ok s k _ c _ _ Hs Hk Hp); simpl; lia.
    + eexists. split; [done|]. by apply Hgo.
  - destruct Hp as [[Hp Ht] Hold]. destruct (Z.eqb_spec (m_count s) old) as [<-|Hne].
    + destruct Hp as (_ & Hm & Hpos). apply (s_return_ok s k _ _ _ _ _ _ Hs Hk); simpl; try lia.
      intros Hc%Hpos. lia.
    + eexists. split; [done|]. by apply Hgo.
  - eexists. split; [done|]. destruct (Z.ltb_spec (- m_count s) n), (Z.ltb_spec 0 (- m_count s)); 
      try (destruct (Z.ltb_spec 0 n)); apply (sem_move_ok_nil s k _ _ _ _ _ Hs Hk); simpl; lia.
  - eexists. split; [done|]. destruct (Z.ltb_spec 0 n);
      apply (sem_move_ok_nil s k _ _ _ _ _ Hs Hk); simpl; lia.
Qed.

Lemma new_sema_ok init n : 0 <= init → s_ok (new_sema init n).
Proof.
  intros Hi. assert (∀ f : spc → Z, f SIdle = 0 → zsum f (replicate n SIdle) = 0) as Hz.
  { intros f Hf. induction n as [|m IH]; simpl; [done|]. rewrite IH. lia. }
  split; simpl; [by apply Forall_replicate| | |done|constructor]; rewrite !Hz by done; lia.
Qed.

(** The threads stay the same in number. *)
Lemma s_return_length k c max r s s' : s_return k c max r s = Ok s' → length (s_threads s') = length (s_threads s).
Proof. unfold s_return. destruct (CHECK _); [|done]. intros [= <-]. simpl. apply length_insert. Qed.

Lemma after_first_length k c s s' : after_first k c s = Ok s' → length (s_threads s') = length (s_threads s).
Proof.
  unfold after_first. destruct (_ && _); [intros [= <-]; simpl; apply length_insert|apply s_return_length].
Qed.

Lemma after_try_length k c κ r s s' : after_try k c κ r s = Ok s' → length (s_threads s') = length (s_threads s).
Proof.
  destruct κ; simpl; [apply s_return_length| |apply s_return_length].
  destruct (_ && _); [intros [= <-]; simpl; apply length_insert|apply s_return_length].
Qed.

Lemma sem_call_length k o s s' : sem_call k o s = Ok s' → length (s_threads s') = length (s_threads s).
Proof.
  destruct o; simpl; try (destruct (CHECK _); [|done]); simpl; intros [= <-]; simpl; apply length_insert.
Qed.

Lemma sem_exec_length k i s s' : sem_exec k i s = Some (Ok s') → length (s_threads s') = length (s_threads s).
Proof.
  assert (∀ p s1 s2, length (s_threads s1) = length (s_threads s) → s_goto k p s1 = s2 →
    length (s_threads s2) = length (s_threads s)) as Hgo by (intros p s1 s2 H1 <-; simpl; by rewrite length_insert).
  unfold sem_exec. intros E. destruct (s_threads s !! k) as [p|]; [|done].
  destruct p as [| |c κ old|c [|spin]|c spin old|c|c|c|c|c old|n|n], i as [o|flag]; try done; try (injection E as E);
    repeat case_match; try (injection E as E); try (by eapply Hgo; [|exact E]); try done.
  - by eapply sem_call_length.
  - by apply after_try_length in E.
  - by apply after_try_length in E.
  - by apply s_return_length in E.
  - by apply after_first_length in E.
  - by apply after_first_length in E.
  - by apply after_first_length in E.
  - by apply s_return_length in E.
Qed.

Lemma s_run_ok init n s : 0 <= init → s_run init n s → s_ok s ∧ length (s_threads s) = n.
Proof.
  intros Hi. induction 1 as [|s k i s' Hr [Hs Hl] Hok E].
  - split; [by apply new_sema_ok|]. simpl. apply length_replicate.
  - destruct (sem_exec_ok s k i _ Hs Hok E) as (s1 & [= <-] & Hs1). split; [done|]. rewrite <-Hl.
    by apply sem_exec_length in E.
Qed.

Lemma idle_sums s : (∀ k p, s_threads s !! k = Some p → p = SIdle) →
  zsum waits (s_threads s) = 0 ∧ zsum posts (s_threads s) = 0 ∧ zsum holds_one (s_threads s) = 0.
Proof.
  destruct s as [c m l g t]. simpl. clear. induction l as [|p l IH]; intros Hidle; [done|]. simpl.
  rewrite (Hidle 0%nat p eq_refl). destruct IH as (-> & -> & ->); [|done]. intros k q Hq. by apply (Hidle (S k)).
Qed.

Lemma holds_nonneg l : 0 <= zsum holds_one l.
Proof. apply zsum_nonneg. intros p _. by destruct p as [|? []|? []| | | | | | | | |]. Qed.

(** C35: the semaphore counts exactly.  In every interleaving of calls whose
    arguments satisfy the asserts, no assert fails; a call gets at most the
    permits it asked for, and all calls together never more than were given; the
    counters stay within the number of permits and of threads, so they do not
    overflow; and when no call is under way, the counter is what was given less
    what was taken and nothing is left in the kernel semaphore. *)
Theorem semaphore_exact init n s :
  0 <= init → s_run init n s →
  (∀ k i f, input_ok i → sem_exec k i s ≠ Some (Fatal f)) ∧
  Forall (λ x, 0 <= x.2 <= x.1) (taken s) ∧ zsum snd (taken s) <= given s ∧
  - Z.of_nat n <= m_count s <= given s ∧ 0 <= m_sema s <= Z.of_nat n ∧
  ((∀ k p, s_threads s !! k = Some p → p = SIdle) → m_count s = given s - zsum snd (taken s) ∧ m_sema s = 0).
Proof.
  intros Hi Hr. destruct (s_run_ok init n s Hi Hr) as [Hs Hl]. pose proof Hs as [_ Hg Hw Hs0 Ht].
  pose proof (waits_nonneg (s_threads s)). pose proof (posts_nonneg s Hs). pose proof (holds_nonneg (s_threads s)).
  assert (0 <= zsum snd (taken s)).
  { apply zsum_nonneg. intros x Hx. by apply (proj1 (Forall_forall _ _) Ht x Hx). }
  split_and!; [|done|lia..|].
  - intros k i f Hok E. by destruct (sem_exec_ok s k i _ Hs Hok E) as (s' & ? & _).
  - intros (E1 & E2 & E3)%idle_sums. lia.
Qed.

(** C36: no wake-up is lost.  As long as not all permits have been taken, a thread
    that waits in the kernel can go on, or a [signal] is under way that still
    posts. *)
Theorem semaphore_wakes init n s k c :
  0 <= init → s_run init n s → s_threads s !! k = Some (KernelWait c) →
  zsum snd (taken s) + zsum holds_one (s_threads s) < given s →
  (∃ s', sem_exec k (Go false) s = Some (Ok s')) ∨
  ∃ j count, s_threads s !! j = Some (SignalPost count) ∧ 0 < count.
Proof.
  intros Hi Hr Hk Hlt. destruct (s_run_ok init n s Hi Hr) as [Hs _]. pose proof Hs as [Hpc Hg Hw Hs0 _].
  pose proof (waits_le s k _ Hk) as Hwk. simpl in Hwk. destruct (decide (0 < m_sema s)) as [Hm|Hm].
  - left. destruct (sem_exec k (Go false) s) as [r|] eqn:E.
    + destruct (sem_exec_ok s k (Go false) r Hs I E) as (s' & -> & _). by exists s'.
    + unfold sem_exec in E. rewrite Hk, andb_false_r, (proj2 (Z.ltb_lt _ _) Hm) in E. done.
  - right. assert (0 < zsum posts (s_threads s)) as Hpos by lia. clear -Hpos Hpc.
    induction (s_threads s) as [|p l IH]; [done|]. simpl in Hpos. apply Forall_cons in Hpc as [Hp Hpc].
    destruct (decide (0 < posts p)) as [Hpp|Hpp].
    + exists 0%nat. destruct p; simpl in Hpp; try lia. by eexists.
    + destruct IH as (j & m & Hj & Hm); [done|lia|]. by exists (S j), m.
Qed.

End Steps.

(** ** A run with three threads *)
Module ThreeThreads.

Definition run_all (l : list (nat * input)) : sema :=
  foldl (λ s '(k, i), match sem_exec 1 k i s with Some (Ok s') => s' | _ => s end) (new_sema 0 3) l.

(** Threads 0 and 1 go to sleep, thread 2 signals three permits and posts one of
    the two it owes. *)
Definition sleeping : list (nat * input) :=
  [(0, Call (OpWaitMany 2)); (1, Call (OpWait (-1)))]%nat ++
  concat (replicate 6 [(0%nat, Go false); (1%nat, Go false)]) ++
  [(2, Call (OpSignal 3)); (2, Go false); (2, Go false)]%nat.

Lemma inputs_run l : Forall (λ x, input_ok x.2) l → s_run 1 0 3 (run_all l).
Proof.
  intros Hl. unfold run_all. assert (s_run 1 0 3 (new_sema 0 3)) as H0 by apply s_start. revert H0.
  generalize (new_sema 0 3). induction l as [|[k i] l IH]; intros s Hs; [done|]. apply Forall_cons in Hl as [Hi Hl]. simpl.
  apply IH; [done|]. destruct (sem_exec 1 k i s) as [[s'|]|] eqn:E; [by eapply s_next|done|done].
Qed.

Lemma sleeping_ok : Forall (λ x, input_ok x.2) sleeping.
Proof. repeat (constructor; [simpl; first [exact I|lia]|]). constructor. Qed.

Lemma semaphore_wakes_witness :
  s_threads (run_all sleeping) = [KernelWait (mkCall true 2 (-1) true); KernelWait (mkCall false 1 (-1) false); SignalPost 1] ∧
  ((∃ s', sem_exec 1 1 (Go false) (run_all sleeping) = Some (Ok s')) ∨
   ∃ j count, s_threads (run_all sleeping) !! j = Some (SignalPost count) ∧ 0 < count).
Proof.
  split; [vm_compute; reflexivity|].
  apply (semaphore_wakes 1 0 3 (run_all sleeping) 1 (mkCall false 1 (-1) false)).
  - lia.
  - exact (inputs_run sleeping sleeping_ok).
  - vm_compute. reflexivity.
  - vm_compute. reflexivity.
Defined.

(** Everybody finishes: thread 0 gets two permits, thread 1 one. *)
Definition finished : list (nat * input) :=
  sleeping ++ concat (replicate 6 [(0%nat, Go false); (1%nat, Go false); (2%nat, Go false)]).

Lemma finished_ok : Forall (λ x, input_ok x.2) finished.
Proof. repeat (constructor; [simpl; first [exact I|lia]|]). constructor. Qed.

Lemma semaphore_exact_witness :
  taken (run_all finished) = [(1, 1); (2, 2)] ∧ m_count (run_all finished) = given (run_all finished) - 3 ∧
  m_sema (run_all finished) = 0.
Proof.
  split; [vm_compute; reflexivity|].
  apply (semaphore_exact 1 0 3 (run_all finished) ltac:(lia) (inputs_run finished finished_ok)).
  intros k p Hk. destruct k as [|[|[|k]]]; vm_compute in Hk; first [discriminate Hk|by injection Hk as <-].
Defined.

End ThreeThreads.
