(* ===== verification/BlockingQueue.v ===== *)
(** * The blocking queue

    [include/common/concurrent_queue/blocking_mpmc_queue.h]: the bounded queue of
    [MpmcQueue] with the semaphore of [Semaphore] in front of it.  A producer
    pushes and then signals; a consumer waits for a permit and then takes an
    element.  Thread [k] of the queue and of the semaphore are the same thread;
    a step of the wrapper is a step of one of them, and the wrapper goes on when
    the operation it called is over. *)
From S2P Require Import Prelude MpmcQueue Semaphore.
From Stdlib Require Import ZArith Lia.
From stdpp Require Import base list.

Local Open Scope Z_scope.

(** Where a thread is: in the queue or in the semaphore, on behalf of [push],
    [pop], [try_pop] or [wait_dequeue_bulk_timed] with [n] elements to take and
    the iterator [pos] elements on. *)
Inductive bpc :=
  | BIdle
  | BPush
  | BSignal
  | BWait
  | BPop
  | BTryWait
  | BTryPop
  | BBulkWait
  | BBulk (n pos : Z).

Section Blocking.
Context {A : Type} (capacity maxSpins : nat).

Record bqueue := mkBQ { bq_queue : mpmc (A := A); bq_sema : sema; bq_pcs : list bpc }.

Definition new_bqueue (n : nat) : bqueue := mkBQ (new_queue capacity n) (new_sema 0 n) (replicate n BIdle).

Inductive bop := BqPush (v : A) | BqPop | BqTryPop | BqBulk (max timeout_usecs : Z).

(** Go on with the state a component returns. *)
Definition andthen {X Y} (m : option (outcome X)) (f : X → option (outcome Y)) : option (outcome Y) :=
  match m with Some (Ok x) => f x | Some (Fatal e) => Some (Fatal e) | None => None end.

Definition set_b (k : nat) (b : bpc) (q : mpmc) (s : sema) (st : bqueue) : option (outcome bqueue) :=
  Some (Ok (mkBQ q s (<[k := b]> (bq_pcs st)))).

(** Thread [k] starts an operation of the queue or of the semaphore. *)
Definition call_q (k : nat) (o : op) (b : bpc) (q : mpmc) (s : sema) (st : bqueue) : option (outcome bqueue) :=
  andthen (q_exec capacity k (Some o) q) (λ q, set_b k b q s st).
Definition call_s (k : nat) (o : sop) (b : bpc) (q : mpmc) (s : sema) (st : bqueue) : option (outcome bqueue) :=
  andthen (sem_exec maxSpins k (Call o) s) (λ s, set_b k b q s st).

(** The result of the call of the semaphore that just returned. *)
Definition sem_result (s : sema) : Z := match last (taken s) with Some x => x.2 | None => 0 end.

(** One step of thread [k], the one [call] starts or the next one; [flag] as in
    [Semaphore]. *)
Definition b_exec (k : nat) (call : option bop) (flag : bool) (st : bqueue) : option (outcome bqueue) :=
  let q := bq_queue st in
  let s := bq_sema st in
  match bq_pcs st !! k, call with
  | Some BIdle, Some (BqPush v) => call_q k (OpPush v) BPush q s st
  | Some BIdle, Some BqPop => call_s k (OpWait (-1)) BWait q s st
  | Some BIdle, Some BqTryPop => call_s k OpTryWait BTryWait q s st
  | Some BIdle, Some (BqBulk max t) => call_s k (OpWaitManyTimed max t) BBulkWait q s st
  | Some BPush, None =>
      andthen (q_exec capacity k None q) (λ q,
        match threads q !! k with
        | Some QIdle => call_s k (OpSignal 1) BSignal q s st
        | _ => set_b k BPush q s st
        end)
  | Some BSignal, None =>
      andthen (sem_exec maxSpins k (Go flag) s) (λ s,
        set_b k (match s_threads s !! k with Some SIdle => BIdle | _ => BSignal end) q s st)
  | Some BWait, None =>
      andthen (sem_exec maxSpins k (Go flag) s) (λ s,
        match s_threads s !! k with
        | Some SIdle => if sem_result s =? 0 then call_s k (OpWait (-1)) BWait q s st else call_q k OpPop BPop q s st
        | _ => set_b k BWait q s st
        end)
  | Some BPop, None =>
      andthen (q_exec capacity k None q) (λ q,
        set_b k (match threads q !! k with Some QIdle => BIdle | _ => BPop end) q s st)
  | Some BTryWait, None =>
      andthen (sem_exec maxSpins k (Go flag) s) (λ s,
        match s_threads s !! k with
        | Some SIdle => if sem_result s =? 0 then set_b k BIdle q s st else call_q k OpTryPop BTryPop q s st
        | _ => set_b k BTryWait q s st
        end)
  | Some BTryPop, None =>
      andthen (q_exec capacity k None q) (λ q',
        match threads q' !! k with
        | Some QIdle =>
            if (length (results q) <? length (results q'))%nat then set_b k BIdle q' s st
            else call_q k OpTryPop BTryPop q' s st
        | _ => set_b k BTryPop q' s st
        end)
  | Some BBulkWait, None =>
      andthen (sem_exec maxSpins k (Go flag) s) (λ s,
        match s_threads s !! k with
        | Some SIdle =>
            if sem_result s =? 0 then set_b k BIdle q s st
            else call_q k OpTryPop (BBulk (sem_result s) 1) q s st
        | _ => set_b k BBulkWait q s st
        end)
  | Some (BBulk n pos), None =>
      andthen (q_exec capacity k None q) (λ q',
        match threads q' !! k with
        | Some QIdle =>
            let n := if (length (results q) <? length (results q'))%nat then n - 1 else n in
            if n =? 0 then set_b k BIdle q' s st else call_q k OpTryPop (BBulk n (pos + 1)) q' s st
        | _ => set_b k (BBulk n pos) q' s st
        end)
  | _, _ => None
  end.

Definition bop_ok (o : option bop) : Prop := match o with Some (BqBulk max _) => 0 <= max | _ => True end.

Inductive b_run (n : nat) : bqueue → Prop :=
  | b_start : b_run n (new_bqueue n)
  | b_next st k o flag st' : b_run n st → bop_ok o → b_exec k o flag st = Some (Ok st') → b_run n st'.

(** ** The invariant *)

(** A permit for which no ticket has been drawn yet; an element pushed for which
    no permit has been given yet. *)
Definition undrawn (p : pc (A := A)) : Z :=
  match p with PopFetch | TryPopLoad | TryPopCheck _ | TryPopCas _ | TryPopReload _ => 1 | _ => 0 end.
Definition owed (b : bpc) (p : pc) : Z :=
  match b with BPop | BTryPop => undrawn p | BBulk n _ => n - 1 + undrawn p | _ => 0 end.
Definition unsignalled (b : bpc) (p : pc (A := A)) (sp : spc) : Z :=
  match b, p, sp with
  | BPush, (PushWait _ _ | Construct _ _ | PushStore _ _), _ => 1
  | BSignal, _, SignalAdd _ => 1
  | _, _, _ => 0
  end.

Definition pushing (p : pc (A := A)) : Prop :=
  match p with PushFetch _ | PushWait _ _ | Construct _ _ | PushStore _ _ => True | _ => False end.
Definition popping (p : pc (A := A)) : Prop :=
  match p with PopFetch | PopWait _ | MoveOut _ | PopStore _ _ => True | _ => False end.
Definition try_popping (p : pc (A := A)) : Prop :=
  match p with TryPopLoad | TryPopCheck _ | TryPopCas _ | TryPopReload _ | MoveOut _ | PopStore _ _ => True | _ => False end.
Definition acquiring (p : spc) : Prop :=
  match p with SIdle | SignalAdd _ | SignalPost _ => False | _ => True end.

(** A call for one permit. *)
Definition one_call (c : scall) : Prop := sc_many c = false ∧ sc_max c = 1.
Definition single (p : spc) : Prop :=
  match p with
  | TryLoad c κ | TryCas c κ _ => one_call c ∧ κ ≠ KMore
  | SpinLoad c _ | SpinCas c _ _ | FetchSub c | KernelWait c | AdjustLoad c | AdjustTry c | AdjustCas c _ => one_call c
  | _ => True
  end.

Definition linked (b : bpc) (p : pc) (sp : spc) : Prop :=
  match b with
  | BIdle => p = QIdle ∧ sp = SIdle
  | BPush => pushing p ∧ sp = SIdle
  | BSignal => p = QIdle ∧ (sp = SignalAdd 1 ∨ ∃ n, sp = SignalPost n)
  | BWait | BTryWait => p = QIdle ∧ acquiring sp ∧ single sp
  | BBulkWait => p = QIdle ∧ acquiring sp
  | BPop => popping p ∧ sp = SIdle
  | BTryPop => try_popping p ∧ sp = SIdle
  | BBulk n _ => try_popping p ∧ sp = SIdle ∧ 0 < n
  end.

(** A sum over the threads. *)
Definition at_thread (f : bpc → pc → spc → Z) (st : bqueue) (k : nat) : Z :=
  match bq_pcs st !! k, threads (bq_queue st) !! k, s_threads (bq_sema st) !! k with
  | Some b, Some p, Some sp => f b p sp
  | _, _, _ => 0
  end.
Definition total (f : bpc → pc → spc → Z) (st : bqueue) : Z :=
  zsum (at_thread f st) (seq 0 (length (bq_pcs st))).

Record b_ok (st : bqueue) : Prop := {
  bo_q : q_ok capacity (bq_queue st);
  bo_s : s_ok (bq_sema st);
  bo_len : length (threads (bq_queue st)) = length (bq_pcs st) ∧ length (s_threads (bq_sema st)) = length (bq_pcs st);
  bo_link k b p sp : bq_pcs st !! k = Some b → threads (bq_queue st) !! k = Some p →
    s_threads (bq_sema st) !! k = Some sp → linked b p sp;
  bo_taken : zsum snd (taken (bq_sema st)) = Z.of_nat (tail_ (bq_queue st)) + total (λ b p _, owed b p) st;
  bo_given : Z.of_nat (head_ (bq_queue st)) = given (bq_sema st) + total unsignalled st }.

Lemma zsum_ext {X} (f g : X → Z) l : (∀ x, x ∈ l → f x = g x) → zsum f l = zsum g l.
Proof.
  induction l as [|x l IH]; intros Hfg; [done|]. simpl. rewrite (Hfg x) by (by left). rewrite IH; [done|].
  intros y Hy. apply Hfg. by right.
Qed.

Lemma zsum_seq_change (f g : nat → Z) n k :
  (k < n)%nat → (∀ j, j ≠ k → g j = f j) → zsum g (seq 0 n) = zsum f (seq 0 n) - f k + g k.
Proof.
  intros Hk Hfg. assert (∀ i m, (i ≤ k)%nat → (k < i + m)%nat →
    zsum g (seq i m) = zsum f (seq i m) - f k + g k) as Hs; [|apply Hs; lia].
  intros i m. revert i. induction m as [|m IH]; intros i Hik Hkm; [lia|]. simpl.
  destruct (decide (i = k)) as [->|Hne].
  - rewrite (zsum_ext g f (seq (S k) m)); [lia|]. intros x Hx%elem_of_seq. apply Hfg. lia.
  - rewrite (Hfg i Hne), (IH (S i)) by lia. lia.
Qed.

(** Thread [k] moves; the others stay. *)
Section Move.
Context (st : bqueue) (Hst : b_ok st) (k : nat) (b : bpc) (p : pc (A := A)) (sp : spc).
Context (Hb : bq_pcs st !! k = Some b) (Hp : threads (bq_queue st) !! k = Some p)
  (Hsp : s_threads (bq_sema st) !! k = Some sp).

Lemma total_move f q' s' b' p' sp' :
  threads q' = <[k := p']> (threads (bq_queue st)) → s_threads s' = <[k := sp']> (s_threads (bq_sema st)) →
  total f (mkBQ q' s' (<[k := b']> (bq_pcs st))) = total f st - f b p sp + f b' p' sp'.
Proof.
  intros Eq Es. pose proof (lookup_lt_Some _ _ _ Hb). pose proof (lookup_lt_Some _ _ _ Hp).
  pose proof (lookup_lt_Some _ _ _ Hsp). unfold total. simpl. rewrite length_insert.
  rewrite (zsum_seq_change (at_thread f st) _ _ k) by
    (done || (intros j Hj; unfold at_thread; simpl; rewrite Eq, Es, !list_lookup_insert_ne by done; done)).
  unfold at_thread. simpl. rewrite Eq, Es, !list_lookup_insert_eq, Hb, Hp, Hsp by done. done.
Qed.

Lemma b_move q' s' b' p' sp' :
  q_ok capacity q' → s_ok s' →
  threads q' = <[k := p']> (threads (bq_queue st)) → s_threads s' = <[k := sp']> (s_threads (bq_sema st)) →
  linked b' p' sp' →
  zsum snd (taken s') - zsum snd (taken (bq_sema st)) =
    Z.of_nat (tail_ q') - Z.of_nat (tail_ (bq_queue st)) + (owed b' p' - owed b p) →
  Z.of_nat (head_ q') - Z.of_nat (head_ (bq_queue st)) =
    given s' - given (bq_sema st) + (unsignalled b' p' sp' - unsignalled b p sp) →
  b_ok (mkBQ q' s' (<[k := b']> (bq_pcs st))).
Proof.
  intros Hq Hs Eq Es Hl Et Eg. destruct Hst as [_ _ [L1 L2] Hlink Ht Hg]. split; simpl; [done|done| | | |].
  - rewrite Eq, Es, !length_insert. done.
  - intros j b1 p1 sp1. rewrite Eq, Es. destruct (decide (j = k)) as [->|Hne].
    + pose proof (lookup_lt_Some _ _ _ Hb). pose proof (lookup_lt_Some _ _ _ Hp).
      pose proof (lookup_lt_Some _ _ _ Hsp). rewrite !list_lookup_insert_eq by done. by intros [= <-] [= <-] [= <-].
    + rewrite !list_lookup_insert_ne by done. apply Hlink.
  - rewrite (total_move _ q' s' b' p' sp' Eq Es). lia.
  - rewrite (total_move _ q' s' b' p' sp' Eq Es). lia.
Qed.

End Move.

(** ** What the steps of the components do *)
Context (Hcap : capacity ≠ 0%nat).

Lemma q_push_effect k p (q q' : mpmc (A := A)) :
  threads q !! k = Some p → pushing p → q_exec capacity k None q = Some (Ok q') →
  ∃ p', threads q' = <[k := p']> (threads q) ∧ tail_ q' = tail_ q ∧
    ((pushing p' ∧ Z.of_nat (head_ q') - Z.of_nat (head_ q) = unsignalled BPush p' SIdle - unsignalled BPush p SIdle) ∨
     (p' = QIdle ∧ head_ q' = head_ q ∧ unsignalled BPush p SIdle = 1)).
Proof.
  intros Hk Hp E. unfold q_exec in E. rewrite Hk in E. simpl in E. destruct p; try done; simpl in *;
    repeat case_match; simplify_eq; simpl; eexists; (split; [done|]); (split; [done|]);
    first [by right|left; split; [done|]; simpl; lia].
Qed.

Lemma q_pop_effect k p (q q' : mpmc (A := A)) :
  threads q !! k = Some p → popping p → q_exec capacity k None q = Some (Ok q') →
  ∃ p', threads q' = <[k := p']> (threads q) ∧ head_ q' = head_ q ∧
    Z.of_nat (tail_ q') - Z.of_nat (tail_ q) = undrawn p - undrawn p' ∧ (popping p' ∨ p' = QIdle).
Proof.
  intros Hk Hp E. unfold q_exec in E. rewrite Hk in E. simpl in E. destruct p; try done; simpl in *;
    repeat case_match; simplify_eq; simpl; eexists; (split; [done|]); (split; [done|]); (split; [simpl; lia|]);
    first [by right|by left].
Qed.

Lemma q_try_effect k p (q q' : mpmc (A := A)) :
  threads q !! k = Some p → try_popping p → q_exec capacity k None q = Some (Ok q') →
  ∃ p', threads q' = <[k := p']> (threads q) ∧ head_ q' = head_ q ∧
    ((try_popping p' ∧ Z.of_nat (tail_ q') - Z.of_nat (tail_ q) = undrawn p - undrawn p') ∨
     (p' = QIdle ∧ tail_ q' = tail_ q ∧
      undrawn p = if (length (results q) <? length (results q'))%nat then 0 else 1)).
Proof.
  intros Hk Hp E. unfold q_exec in E. rewrite Hk in E. simpl in E. destruct p; try done; simpl in *;
    repeat case_match; simplify_eq; simpl in *; eexists; (split; [done|]); (split; [done|]);
    try (left; split; [done|]; simpl; lia); right; (split; [done|]); (split; [done|]); simpl;
    match goal with H : (length _ <? _)%nat = _ |- _ => rewrite ?length_app, ?Nat.ltb_lt, ?Nat.ltb_ge in H; simpl in H end; lia.
Qed.

Lemma q_call_effect k o (q q' : mpmc (A := A)) :
  threads q !! k = Some QIdle → q_exec capacity k (Some o) q = Some (Ok q') →
  tail_ q' = tail_ q ∧ head_ q' = head_ q ∧
  threads q' = <[k := match o with OpPush v => PushFetch v | OpTryPush v => TryPushLoad v
                           | OpPop => PopFetch | OpTryPop => TryPopLoad end]> (threads q).
Proof. intros Hk E. unfold q_exec in E. rewrite Hk in E. simpl in E. by injection E as <-. Qed.

(** A call of the semaphore goes on, or returns a result; with [one], a call for
    one permit. *)
Definition acq_effect (one : bool) (k : nat) (s s' : sema) : Prop :=
  ∃ p', s_threads s' = <[k := p']> (s_threads s) ∧ given s' = given s ∧
    ((acquiring p' ∧ (one = true → single p') ∧ taken s' = taken s) ∨
     (p' = SIdle ∧ ∃ max r, taken s' = taken s ++ [(max, r)] ∧ (one = true → max = 1))).

Lemma return_effect one k c max r s s' :
  (one = true → max = 1) → s_return k c max r s = Ok s' → acq_effect one k s s'.
Proof.
  intros Hone. unfold s_return. destruct (CHECK _); [|done]. intros [= <-]. exists SIdle. split_and!; [done..|].
  right. split; [done|]. by exists max, r.
Qed.

Lemma goto_effect one k p s s' :
  acquiring p → (one = true → single p) → s_goto k p s = s' → acq_effect one k s s'.
Proof. intros Hp Hone <-. exists p. split_and!; [done..|]. by left. Qed.

Lemma after_first_effect one k c s s' :
  (one = true → one_call c) → after_first k c s = Ok s' → acq_effect one k s s'.
Proof.
  intros Hone. unfold after_first. destruct (sc_many c && _) eqn:Em.
  - intros [= E]. apply (goto_effect one) in E; [done..|]. intros H1. destruct (Hone H1) as [Hm _]. by rewrite Hm in Em.
  - apply return_effect. intros H1. by destruct (Hone H1).
Qed.

Lemma after_try_effect one k c κ r s s' :
  (one = true → one_call c ∧ κ ≠ KMore) → after_try maxSpins k c κ r s = Ok s' → acq_effect one k s s'.
Proof.
  intros Hone. destruct κ; simpl.
  - apply return_effect. intros H1. by destruct (Hone H1) as [[_ ?] _].
  - destruct (_ && _).
    + intros [= E]. apply (goto_effect one) in E; [done..|]. intros H1. by destruct (Hone H1).
    + apply return_effect. intros H1. by destruct (Hone H1) as [[_ ?] _].
  - apply return_effect. intros H1. by destruct (Hone H1) as [_ ?].
Qed.

Lemma acquire_effect one k p flag s s' :
  s_threads s !! k = Some p → acquiring p → (one = true → single p) →
  sem_exec maxSpins k (Go flag) s = Some (Ok s') → acq_effect one k s s'.
Proof.
  intros Hk Hp Hone E. unfold sem_exec in E. rewrite Hk in E.
  destruct p as [|c κ|c κ old|c [|spin]|c spin old|c|c|c|c|c old| |]; try done; simpl in Hone;
    repeat case_match; try (injection E as E); try done;
    first [by apply (goto_effect one) in E|by apply (after_try_effect one) in E|by apply (after_first_effect one) in E
          |apply (return_effect one) in E; [done|intros H1; by destruct (Hone H1)]].
Qed.

Lemma signal_effect k p flag s s' :
  s_threads s !! k = Some p → p = SignalAdd 1 ∨ (∃ n, p = SignalPost n) →
  sem_exec maxSpins k (Go flag) s = Some (Ok s') →
  ∃ p', s_threads s' = <[k := p']> (s_threads s) ∧ taken s' = taken s ∧
    given s' - given s = unsignalled BSignal QIdle p ∧ (p' = SIdle ∨ ∃ n, p' = SignalPost n).
Proof.
  intros Hk Hp E. unfold sem_exec in E. rewrite Hk in E. destruct Hp as [->|[n ->]]; injection E as <-.
  - eexists. split; [done|]. split; [done|]. split; [simpl; lia|]. destruct (0 <? _); eauto.
  - destruct (0 <? n); eexists; (split; [done|]); (split; [done|]); (split; [simpl; lia|]); eauto.
Qed.

Lemma call_effect k o s s' :
  s_threads s !! k = Some SIdle → sem_exec maxSpins k (Call o) s = Some (Ok s') →
  ∃ p', s_threads s' = <[k := p']> (s_threads s) ∧ given s' = given s ∧ taken s' = taken s ∧
    match o with
    | OpSignal n => p' = SignalAdd n
    | OpTryWait | OpWait _ => acquiring p' ∧ single p'
    | _ => acquiring p'
    end.
Proof.
  intros Hk E. unfold sem_exec in E. rewrite Hk in E. injection E as E.
  destruct o; simpl in E; try (destruct (CHECK _); [|done]); injection E as <-; by eexists.
Qed.

Lemma andthen_Some {X Y} (m : option (outcome X)) (f : X → option (outcome Y)) r :
  andthen m f = Some r → (∃ x, m = Some (Ok x) ∧ f x = Some r) ∨ (∃ e, m = Some (Fatal e) ∧ r = Fatal e).
Proof. destruct m as [[x|e]|]; simpl; intros E; [left; eauto|right; exists e; by simplify_eq|done]. Qed.

(** ** The steps of the wrapper *)
Section Wrapper.
Context (st : bqueue) (Hst : b_ok st) (k : nat) (b : bpc) (p : pc (A := A)) (sp : spc).
Context (Hb : bq_pcs st !! k = Some b) (Hp : threads (bq_queue st) !! k = Some p)
  (Hsp : s_threads (bq_sema st) !! k = Some sp).

(** The balance after the components did a step. *)
Definition balanced (q1 : mpmc (A := A)) (s1 : sema) (b' : bpc) (p' : pc (A := A)) (sp' : spc) : Prop :=
  zsum snd (taken s1) - zsum snd (taken (bq_sema st)) =
    Z.of_nat (tail_ q1) - Z.of_nat (tail_ (bq_queue st)) + (owed b' p' - owed b p) ∧
  Z.of_nat (head_ q1) - Z.of_nat (head_ (bq_queue st)) =
    given s1 - given (bq_sema st) + (unsignalled b' p' sp' - unsignalled b p sp).

Lemma set_b_ok q1 s1 b' p' sp' r :
  q_ok capacity q1 → s_ok s1 → threads q1 = <[k := p']> (threads (bq_queue st)) →
  s_threads s1 = <[k := sp']> (s_threads (bq_sema st)) → linked b' p' sp' → balanced q1 s1 b' p' sp' →
  set_b k b' q1 s1 st = Some r → ∃ st', r = Ok st' ∧ b_ok st'.
Proof.
  intros Hq Hs Eq Es Hl [B1 B2] [= <-]. eexists. split; [done|]. by apply (b_move st Hst k b p sp Hb Hp Hsp _ _ _ p' sp').
Qed.

Lemma call_q_ok q1 s1 o b' r :
  let p' := match o with OpPush v => PushFetch v | OpTryPush v => TryPushLoad v | OpPop => PopFetch | OpTryPop => TryPopLoad end in
  q_ok capacity q1 → s_ok s1 → threads q1 = <[k := QIdle]> (threads (bq_queue st)) →
  s_threads s1 = <[k := SIdle]> (s_threads (bq_sema st)) → linked b' p' SIdle → balanced q1 s1 b' p' SIdle →
  call_q k o b' q1 s1 st = Some r → ∃ st', r = Ok st' ∧ b_ok st'.
Proof.
  intros p' Hq Hs Eq Es Hl [B1 B2] E. unfold call_q in E.
  assert (threads q1 !! k = Some QIdle) as Hk.
  { rewrite Eq. apply list_lookup_insert_eq. by eapply lookup_lt_Some. }
  apply andthen_Some in E as [(q2 & E & Er)|(e & E & ->)].
  - destruct (q_exec_ok capacity Hcap q1 k (Some o) _ Hq E) as (q3 & [= <-] & Hq2).
    destruct (q_call_effect k o q1 q2 Hk E) as (Et & Eh & Eth). rewrite Eq, list_insert_insert_eq in Eth.
    apply (set_b_ok q2 s1 b' p' SIdle r Hq2 Hs Eth Es Hl); [|done]. unfold balanced. by rewrite Et, Eh.
  - by destruct (q_exec_ok capacity Hcap q1 k (Some o) _ Hq E) as (q3 & ? & _).
Qed.

Lemma call_s_ok q1 s1 o b' r :
  q_ok capacity q1 → s_ok s1 → sop_ok o → threads q1 = <[k := QIdle]> (threads (bq_queue st)) →
  s_threads s1 = <[k := SIdle]> (s_threads (bq_sema st)) →
  (match o with OpSignal n => n = 1 ∧ b' = BSignal | OpTryWait | OpWait _ => b' = BWait ∨ b' = BTryWait | _ => b' = BBulkWait end) →
  balanced q1 s1 b' QIdle (SignalAdd 1) →
  call_s k o b' q1 s1 st = Some r → ∃ st', r = Ok st' ∧ b_ok st'.
Proof.
  intros Hq Hs Ho Eq Es Hb' [B1 B2] E. unfold call_s in E.
  assert (s_threads s1 !! k = Some SIdle) as Hk.
  { rewrite Es. apply list_lookup_insert_eq. by eapply lookup_lt_Some. }
  apply andthen_Some in E as [(s2 & E & Er)|(e & E & ->)].
  - destruct (sem_exec_ok maxSpins s1 k (Call o) _ Hs Ho E) as (s3 & [= <-] & Hs2).
    destruct (call_effect k o s1 s2 Hk E) as (p' & Eth & Eg & Et & Hp'). rewrite Es, list_insert_insert_eq in Eth.
    apply (set_b_ok q1 s2 b' QIdle p' r Hq Hs2 Eq Eth); [| |done].
    + destruct o; simpl in Hb'; destruct_or? Hb'; destruct_and? Hb'; subst; split; try done. by left.
    + unfold balanced. rewrite Et, Eg. split; [done|].
      destruct o; simpl in Hb'; destruct_or? Hb'; destruct_and? Hb'; subst; done.
  - by destruct (sem_exec_ok maxSpins s1 k (Call o) _ Hs Ho E) as (s3 & ? & _).
Qed.

Lemma same_queue : threads (bq_queue st) = <[k := p]> (threads (bq_queue st)).
Proof. symmetry. by apply list_insert_id. Qed.
Lemma same_sema : s_threads (bq_sema st) = <[k := sp]> (s_threads (bq_sema st)).
Proof. symmetry. by apply list_insert_id. Qed.

Lemma lookup_moved_q (q1 : mpmc (A := A)) p' : threads q1 = <[k := p']> (threads (bq_queue st)) → threads q1 !! k = Some p'.
Proof. intros ->. apply list_lookup_insert_eq. by eapply lookup_lt_Some. Qed.
Lemma lookup_moved_s s1 p' : s_threads s1 = <[k := p']> (s_threads (bq_sema st)) → s_threads s1 !! k = Some p'.
Proof. intros ->. apply list_lookup_insert_eq. by eapply lookup_lt_Some. Qed.

(** The result of a call that just returned. *)
Lemma returned_result s1 max r :
  s_ok s1 → taken s1 = taken (bq_sema st) ++ [(max, r)] →
  sem_result s1 = r ∧ 0 <= r <= max ∧ zsum snd (taken s1) = zsum snd (taken (bq_sema st)) + r.
Proof.
  intros Hs E. unfold sem_result. rewrite E, last_snoc. split; [done|]. split.
  - pose proof (so_taken s1 Hs) as Ht. rewrite E in Ht. apply Forall_app in Ht as [_ Ht].
    apply Forall_cons in Ht as [Ht _]. by destruct Ht.
  - rewrite zsum_app. simpl. lia.
Qed.

End Wrapper.

Lemma b_exec_ok st k o flag r :
  b_ok st → bop_ok o → b_exec k o flag st = Some r → ∃ st', r = Ok st' ∧ b_ok st'.
Proof.
  intros Hst Ho E. unfold b_exec in E. destruct (bq_pcs st !! k) as [b|] eqn:Hb; [|done].
  pose proof Hst as [Hq Hs [L1 L2] Hlink _ _]. pose proof (lookup_lt_Some _ _ _ Hb) as Hlt.
  destruct (lookup_lt_is_Some_2 (threads (bq_queue st)) k ltac:(lia)) as [p Hp].
  destruct (lookup_lt_is_Some_2 (s_threads (bq_sema st)) k ltac:(lia)) as [sp Hsp].
  pose proof (Hlink k b p sp Hb Hp Hsp) as Hl.
  pose proof (same_queue st k p Hp) as SQ. pose proof (same_sema st k sp Hsp) as SS.
  assert (∀ f, andthen (q_exec capacity k None (bq_queue st)) f = Some r →
    ∃ q1, q_exec capacity k None (bq_queue st) = Some (Ok q1) ∧ q_ok capacity q1 ∧ f q1 = Some r) as Hqs.
  { intros f [(q1 & E1 & Er)|(e & E1 & _)]%andthen_Some; destruct (q_exec_ok capacity Hcap _ k None _ Hq E1) as (q2 & E2 & Hq2); [|done].
    injection E2 as <-. by exists q1. }
  assert (∀ f, andthen (sem_exec maxSpins k (Go flag) (bq_sema st)) f = Some r →
    ∃ s1, sem_exec maxSpins k (Go flag) (bq_sema st) = Some (Ok s1) ∧ s_ok s1 ∧ f s1 = Some r) as Hss.
  { intros f [(s1 & E1 & Er)|(e & E1 & _)]%andthen_Some; destruct (sem_exec_ok maxSpins _ k (Go flag) _ Hs I E1) as (s2 & E2 & Hs2); [|done].
    injection E2 as <-. by exists s1. }
  destruct b as [| | | | | | | |n pos].
  - destruct Hl as [-> ->]. destruct o as [[v| | |max t]|]; [| | | |done].
    + eapply (call_q_ok st Hst k _ _ _ Hb Hp Hsp); [..|exact E]; try done; split; simpl; lia.
    + eapply (call_s_ok st Hst k _ _ _ Hb Hp Hsp); [..|exact E]; try done; [by left|split; simpl; lia].
    + eapply (call_s_ok st Hst k _ _ _ Hb Hp Hsp); [..|exact E]; try done; [by right|split; simpl; lia].
    + eapply (call_s_ok st Hst k _ _ _ Hb Hp Hsp); [..|exact E]; try done; split; simpl; lia.
  - destruct Hl as [Hpu ->]. destruct o; [done|]. apply Hqs in E as (q1 & E1 & Hq1 & E).
    destruct (q_push_effect k p _ q1 Hp Hpu E1) as (p' & Eth & Et & Hc). rewrite (lookup_moved_q st k p Hp q1 p' Eth) in E.
    destruct Hc as [[Hp' Hh]|(-> & Hh & Hu)].
    + eapply (set_b_ok st Hst k _ _ _ Hb Hp Hsp q1 _ BPush p'); try done; [split; [simpl; lia|by rewrite Hh; lia]|].
      by destruct p'.
    + eapply (call_s_ok st Hst k _ _ _ Hb Hp Hsp); [..|exact E]; try done. split; simpl in *; lia.
  - destruct Hl as [-> Hsg]. destruct o; [done|]. apply Hss in E as (s1 & E1 & Hs1 & E).
    destruct (signal_effect k sp flag _ s1 Hsp Hsg E1) as (p' & Eth & Et & Eg & Hp').
    rewrite (lookup_moved_s st k sp Hsp s1 p' Eth) in E.
    destruct Hp' as [->|[m ->]]; (eapply (set_b_ok st Hst k _ _ _ Hb Hp Hsp); [..|exact E]; try done);
      [split; rewrite ?Et; simpl in *; lia|split; [done|]; by right; eexists|split; rewrite ?Et; simpl in *; lia].
  - destruct Hl as (-> & Ha & H1). destruct o; [done|]. apply Hss in E as (s1 & E1 & Hs1 & E).
    destruct (acquire_effect true k sp flag _ s1 Hsp Ha (λ _, H1) E1) as (p' & Eth & Eg & Hc). rewrite (lookup_moved_s st k sp Hsp s1 p' Eth) in E.
    destruct Hc as [(Hp' & Hone & Et)|(-> & max & r' & Et & Hone)].
    + assert (set_b k BWait (bq_queue st) s1 st = Some r) as E' by (by destruct p').
      eapply (set_b_ok st Hst k _ _ _ Hb Hp Hsp); [..|exact E']; try done;
        [split_and!; [done|done|by apply Hone]|split; rewrite ?Et; simpl; lia].
    + destruct (returned_result st s1 max r' Hs1 Et) as (Er & Hr & Esum). rewrite Er in E. try rewrite (Hone eq_refl) in Hr.
      destruct (Z.eqb_spec r' 0) as [Hz|Hne].
      * eapply (call_s_ok st Hst k _ _ _ Hb Hp Hsp); [..|exact E]; try done; [by left|split; simpl; lia].
      * eapply (call_q_ok st Hst k _ _ _ Hb Hp Hsp); [..|exact E]; try done. split; simpl; lia.
  - destruct Hl as [Hpo ->]. destruct o; [done|]. apply Hqs in E as (q1 & E1 & Hq1 & E).
    destruct (q_pop_effect k p _ q1 Hp Hpo E1) as (p' & Eth & Eh & Et & Hc). rewrite (lookup_moved_q st k p Hp q1 p' Eth) in E.
    destruct Hc as [Hp'| ->].
    + assert (set_b k BPop q1 (bq_sema st) st = Some r) as E' by (by destruct p').
      eapply (set_b_ok st Hst k _ _ _ Hb Hp Hsp); [..|exact E']; try done. split; simpl; lia.
    + eapply (set_b_ok st Hst k _ _ _ Hb Hp Hsp); [..|exact E]; try done. split; simpl in *; lia.
  - destruct Hl as (-> & Ha & H1). destruct o; [done|]. apply Hss in E as (s1 & E1 & Hs1 & E).
    destruct (acquire_effect true k sp flag _ s1 Hsp Ha (λ _, H1) E1) as (p' & Eth & Eg & Hc). rewrite (lookup_moved_s st k sp Hsp s1 p' Eth) in E.
    destruct Hc as [(Hp' & Hone & Et)|(-> & max & r' & Et & Hone)].
    + assert (set_b k BTryWait (bq_queue st) s1 st = Some r) as E' by (by destruct p').
      eapply (set_b_ok st Hst k _ _ _ Hb Hp Hsp); [..|exact E']; try done;
        [split_and!; [done|done|by apply Hone]|split; rewrite ?Et; simpl; lia].
    + destruct (returned_result st s1 max r' Hs1 Et) as (Er & Hr & Esum). rewrite Er in E. try rewrite (Hone eq_refl) in Hr.
      destruct (Z.eqb_spec r' 0) as [Hz|Hne].
      * eapply (set_b_ok st Hst k _ _ _ Hb Hp Hsp); [..|exact E]; try done. split; simpl; lia.
      * eapply (call_q_ok st Hst k _ _ _ Hb Hp Hsp); [..|exact E]; try done. split; simpl; lia.
  - destruct Hl as [Hpo ->]. destruct o; [done|]. apply Hqs in E as (q1 & E1 & Hq1 & E).
    destruct (q_try_effect k p _ q1 Hp Hpo E1) as (p' & Eth & Eh & Hc). rewrite (lookup_moved_q st k p Hp q1 p' Eth) in E.
    destruct Hc as [[Hp' Et]|(-> & Et & Hu)].
    + assert (set_b k BTryPop q1 (bq_sema st) st = Some r) as E' by (by destruct p').
      eapply (set_b_ok st Hst k _ _ _ Hb Hp Hsp); [..|exact E']; try done. split; simpl; lia.
    + destruct (_ <? _)%nat.
      * eapply (set_b_ok st Hst k _ _ _ Hb Hp Hsp); [..|exact E]; try done. split; simpl in *; lia.
      * eapply (call_q_ok st Hst k _ _ _ Hb Hp Hsp); [..|exact E]; try done. split; simpl in *; lia.
  - destruct Hl as [-> Ha]. destruct o; [done|]. apply Hss in E as (s1 & E1 & Hs1 & E).
    destruct (acquire_effect false k sp flag _ s1 Hsp Ha ltac:(done) E1) as (p' & Eth & Eg & Hc). rewrite (lookup_moved_s st k sp Hsp s1 p' Eth) in E.
    destruct Hc as [(Hp' & Hone & Et)|(-> & max & r' & Et & Hone)].
    + assert (set_b k BBulkWait (bq_queue st) s1 st = Some r) as E' by (by destruct p').
      eapply (set_b_ok st Hst k _ _ _ Hb Hp Hsp); [..|exact E']; try done. split; rewrite ?Et; simpl; lia.
    + destruct (returned_result st s1 max r' Hs1 Et) as (Er & Hr & Esum). rewrite Er in E. try rewrite (Hone eq_refl) in Hr.
      destruct (Z.eqb_spec r' 0) as [Hz|Hne].
      * eapply (set_b_ok st Hst k _ _ _ Hb Hp Hsp); [..|exact E]; try done. split; simpl; lia.
      * eapply (call_q_ok st Hst k _ _ _ Hb Hp Hsp); [..|exact E]; try done; [|split; simpl; lia]. split_and!; [done|done|lia].
  - destruct Hl as (Hpo & -> & Hn). destruct o; [done|]. apply Hqs in E as (q1 & E1 & Hq1 & E).
    destruct (q_try_effect k p _ q1 Hp Hpo E1) as (p' & Eth & Eh & Hc). rewrite (lookup_moved_q st k p Hp q1 p' Eth) in E.
    destruct Hc as [[Hp' Et]|(-> & Et & Hu)].
    + assert (set_b k (BBulk n pos) q1 (bq_sema st) st = Some r) as E' by (by destruct p').
      eapply (set_b_ok st Hst k _ _ _ Hb Hp Hsp); [..|exact E']; try done. split; simpl; lia.
    + destruct (_ <? _)%nat; [destruct (Z.eqb_spec (n - 1) 0)|destruct (Z.eqb_spec n 0); [lia|]].
      * eapply (set_b_ok st Hst k _ _ _ Hb Hp Hsp); [..|exact E]; try done. split; simpl in *; lia.
      * eapply (call_q_ok st Hst k _ _ _ Hb Hp Hsp); [..|exact E]; try done; [|split; simpl in *; lia].
        split_and!; [done|done|lia].
      * eapply (call_q_ok st Hst k _ _ _ Hb Hp Hsp); [..|exact E]; try done. split; simpl in *; lia.
Qed.

Lemma new_bqueue_ok n : b_ok (new_bqueue n).
Proof.
  assert (∀ f, f BIdle QIdle SIdle = 0 → total f (new_bqueue n) = 0) as Hz.
  { intros f Hf. unfold total. apply Z.le_antisymm.
    - rewrite (zsum_ext _ (λ _, 0)); [by induction (seq 0 _)|]. intros k _. unfold at_thread, new_bqueue. simpl.
      destruct (decide (k < n)%nat); [by rewrite !lookup_replicate_2|]. by rewrite lookup_ge_None_2 by (rewrite length_replicate; lia).
    - apply zsum_nonneg. intros k _. unfold at_thread, new_bqueue. simpl.
      destruct (decide (k < n)%nat); [rewrite !lookup_replicate_2 by done; lia|].
      by rewrite lookup_ge_None_2 by (rewrite length_replicate; lia). }
  split; simpl.
  - by apply new_queue_ok.
  - by apply new_sema_ok.
  - by rewrite !length_replicate.
  - intros k b p sp [-> _]%lookup_replicate [-> _]%lookup_replicate [-> _]%lookup_replicate. done.
  - by rewrite Hz.
  - by rewrite Hz.
Qed.

Lemma b_run_ok n st : b_run n st → b_ok st.
Proof.
  induction 1 as [|st k o flag st' Hr IH Ho E]; [apply new_bqueue_ok|].
  destruct (b_exec_ok st k o flag _ IH Ho E) as (st1 & [= <-] & Hok). done.
Qed.

Lemma owed_nonneg b p sp : linked b p sp → 0 <= owed b p.
Proof. destruct b; simpl; intros Hl; try done; destruct p; simpl in *; destruct_and? Hl; try done; lia. Qed.
Lemma unsignalled_nonneg b (p : pc (A := A)) sp : 0 <= unsignalled b p sp.
Proof. destruct b, p, sp; done. Qed.

Lemma total_ge f st k b p sp :
  b_ok st → (∀ b p sp, linked b p sp → 0 <= f b p sp) → bq_pcs st !! k = Some b →
  threads (bq_queue st) !! k = Some p → s_threads (bq_sema st) !! k = Some sp → f b p sp <= total f st.
Proof.
  intros Hst Hf Hb Hp Hsp. pose proof (lookup_lt_Some _ _ _ Hb) as Hlt.
  assert (∀ j, 0 <= at_thread f st j) as Hj.
  { intros j. unfold at_thread. repeat case_match; try done. apply Hf. by eapply (bo_link st Hst j). }
  unfold total. rewrite (zsum_seq_change (λ j, if decide (j = k) then 0 else at_thread f st j) _ _ k) by
    (done || (intros j Hne; by rewrite decide_False)).
  rewrite decide_True by done. assert (at_thread f st k = f b p sp) as -> by (unfold at_thread; by rewrite Hb, Hp, Hsp).
  assert (0 <= zsum (λ j, if decide (j = k) then 0 else at_thread f st j) (seq 0 (length (bq_pcs st)))); [|lia].
  apply zsum_nonneg. intros j _. case_decide; [done|apply Hj].
Qed.

(** No more tickets are drawn, or may still be drawn, than elements were
    pushed. *)
Lemma tickets_bounded st : b_ok st →
  Z.of_nat (tail_ (bq_queue st)) + total (λ b p _, owed b p) st <= Z.of_nat (head_ (bq_queue st)) ∧
  0 <= total (λ b p _, owed b p) st.
Proof.
  intros Hst. pose proof Hst as [_ [_ Hg Hw Hs0 _] _ Hlink Ht Hgv].
  assert (∀ f, (∀ b p sp, linked b p sp → 0 <= f b p sp) → 0 <= total f st) as Hpos.
  { intros f Hf. apply zsum_nonneg. intros j _. unfold at_thread. repeat case_match; try done. apply Hf. by eapply (Hlink j). }
  pose proof (Hpos unsignalled (λ b p sp _, unsignalled_nonneg b p sp)).
  pose proof (Hpos (λ b p _, owed b p) owed_nonneg). pose proof (waits_nonneg (s_threads (bq_sema st))).
  pose proof (holds_nonneg (s_threads (bq_sema st))). pose proof (posts_nonneg _ (bo_s st Hst)). lia.
Qed.

Lemma thread_parts st k b : b_ok st → bq_pcs st !! k = Some b →
  ∃ p sp, threads (bq_queue st) !! k = Some p ∧ s_threads (bq_sema st) !! k = Some sp.
Proof.
  intros [_ _ [L1 L2] _ _ _] Hb. pose proof (lookup_lt_Some _ _ _ Hb).
  destruct (lookup_lt_is_Some_2 (threads (bq_queue st)) k ltac:(lia)) as [p Hp].
  destruct (lookup_lt_is_Some_2 (s_threads (bq_sema st)) k ltac:(lia)) as [sp Hsp]. by exists p, sp.
Qed.

Lemma idle_threads st : b_ok st → (∀ k b, bq_pcs st !! k = Some b → b = BIdle) →
  (∀ k p, threads (bq_queue st) !! k = Some p → p = QIdle) ∧ (∀ k p, s_threads (bq_sema st) !! k = Some p → p = SIdle).
Proof.
  intros Hr Hidle. pose proof Hr as [_ _ [L1 L2] Hlink _ _].
  assert (∀ k, (k < length (bq_pcs st))%nat → threads (bq_queue st) !! k = Some QIdle ∧
    s_threads (bq_sema st) !! k = Some SIdle) as Hk.
  { intros k Hlt. destruct (lookup_lt_is_Some_2 _ _ Hlt) as [b Hb]. destruct (thread_parts st k b Hr Hb) as (p & sp & Hp & Hsp).
    pose proof (Hlink k b p sp Hb Hp Hsp) as Hl. rewrite (Hidle k b Hb) in Hl. by destruct Hl as [-> ->]. }
  split; intros k x Hx; pose proof (lookup_lt_Some _ _ _ Hx); destruct (Hk k ltac:(lia)); congruence.
Qed.

(** C34: the blocking queue hands out what is there.  In every interleaving no
    assert fails; a consumer that was given a permit finds an element: its
    ticket, or the next one if it has not drawn it yet, belongs to a producer
    that has drawn its own; and when no operation is under way, the elements
    taken are exactly the first ones pushed, each once, and the semaphore counts
    those that are left. *)
Theorem blocking_queue_sound n st :
  b_run n st →
  (∀ k o flag f, bop_ok o → b_exec k o flag st ≠ Some (Fatal f)) ∧
  (∀ k t, threads (bq_queue st) !! k = Some (PopWait t) → (t < head_ (bq_queue st))%nat) ∧
  (∀ k b p, bq_pcs st !! k = Some b → threads (bq_queue st) !! k = Some p → 0 < owed b p →
     (tail_ (bq_queue st) < head_ (bq_queue st))%nat) ∧
  ((∀ k b, bq_pcs st !! k = Some b → b = BIdle) →
     results (bq_queue st) ≡ₚ zip (seq 0 (tail_ (bq_queue st))) (pushes (bq_queue st)) ∧
     m_count (bq_sema st) = Z.of_nat (head_ (bq_queue st)) - Z.of_nat (tail_ (bq_queue st))).
Proof.
  intros Hr%b_run_ok. pose proof Hr as [Hq Hs [L1 L2] Hlink Ht Hg]. destruct (tickets_bounded st Hr) as [Hle Hpos].
  split_and!.
  - intros k o flag f Ho E. by destruct (b_exec_ok st k o flag _ Hr Ho E) as (st1 & ? & _).
  - intros k t Hk. destruct (ok_pc capacity _ Hq k _ Hk) as [Hlt _]. lia.
  - intros k b p Hb Hp Ho. destruct (thread_parts st k b Hr Hb) as (p' & sp & Hp' & Hsp). simplify_eq.
    pose proof (total_ge (λ b p _, owed b p) st k b p sp Hr owed_nonneg Hb Hp Hsp) as Hge. simpl in Hge. lia.
  - intros Hidle.
    destruct (idle_threads st Hr Hidle) as [Hqi Hsi].
    split; [by apply (idle_results capacity Hcap)|].
    assert (∀ f, f BIdle QIdle SIdle = 0 → total f st = 0) as Hz.
    { intros f Hf. unfold total. rewrite (zsum_ext _ (λ _, 0)); [by induction (seq 0 _)|]. intros k _. unfold at_thread.
      repeat case_match; try done. by rewrite (Hidle k _ H), (Hqi k _ H0), (Hsi k _ H1). }
    pose proof (Hz (λ b p _, owed b p) eq_refl). pose proof (Hz unsignalled eq_refl).
    destruct (idle_sums _ Hsi) as (E1 & E2 & E3). destruct Hs as [_ Hgs _ _ _]. lia.
Qed.

End Blocking.

(** ** Three threads on two slots *)
Module Consumers.

Definition b_all (l : list (nat * option (bop (A := nat)))) : bqueue :=
  foldl (λ st '(k, o), match b_exec 2 0 k o false st with Some (Ok st') => st' | _ => st end) (new_bqueue 2 3) l.

Lemma b_all_run l : Forall (λ x, bop_ok x.2) l → b_run 2 0 3 (b_all l).
Proof.
  intros Hl. unfold b_all. assert (b_run 2 0 3 (new_bqueue (A := nat) 2 3)) as H0 by apply b_start. revert H0.
  generalize (new_bqueue (A := nat) 2 3). induction l as [|[k o] l IH]; intros st Hst; [done|].
  apply Forall_cons in Hl as [Ho Hl]. simpl. apply IH; [done|].
  destruct (b_exec 2 0 k o false st) as [[st'|]|] eqn:E; [by eapply b_next|done|done].
Qed.

(** Thread 0 pushes 7 and 8, thread 1 pops one. *)
Definition one_popped : list (nat * option bop) :=
  (0%nat, Some (BqPush 7%nat)) :: replicate 5 (0%nat, None) ++ (0%nat, Some (BqPush 8%nat)) :: replicate 5 (0%nat, None) ++
  (1%nat, Some BqPop) :: replicate 8 (1%nat, None).

Lemma one_popped_ok : Forall (λ x, bop_ok x.2) one_popped.
Proof. repeat (constructor; [exact I|]). constructor. Qed.

Lemma blocking_queue_sound_witness :
  results (bq_queue (b_all one_popped)) = [(0, 7)]%nat ∧
  m_count (bq_sema (b_all one_popped)) = Z.of_nat (head_ (bq_queue (b_all one_popped))) - 1.
Proof.
  split; [vm_compute; reflexivity|].
  apply (blocking_queue_sound 2 0 ltac:(done) 3 (b_all one_popped) (b_all_run one_popped one_popped_ok)).
  intros k b Hk. destruct k as [|[|[|k]]]; vm_compute in Hk; first [discriminate Hk|by injection Hk as <-].
Defined.

(** [wait_dequeue_bulk_timed] moves its iterator on also when [try_pop] found
    nothing.  Thread 0 has drawn ticket 0 and not stored yet; thread 1 has pushed
    and signalled; thread 2 asks for one element, and its second attempt writes
    to the second element of a buffer of one. *)
Definition overrun : list (nat * option bop) :=
  (0%nat, Some (BqPush 7%nat)) :: (0%nat, None) :: (1%nat, Some (BqPush 8%nat)) :: replicate 5 (1%nat, None) ++
  (2%nat, Some (BqBulk 1 500)) :: replicate 5 (2%nat, None).

Example bulk_overruns : Forall (λ x, bop_ok x.2) overrun ∧ bq_pcs (b_all overrun) !! 2%nat = Some (BBulk 1 2).
Proof. split; [repeat (constructor; [simpl; first [exact I|lia]|]); constructor|vm_compute; reflexivity]. Qed.

End Consumers.
