(* ===== verification/BlockStorage.v ===== *)
(** * Block storage

    The interface [BlockStorage] with its two implementations: files
    ([block_storage_to_file.cpp], one file per block and [block_num.txt] for
    the number of the last one) and memory ([block_storage_to_db.cpp]).  The
    interface is a class of operations; its laws are what the block generator
    relies on, and both implementations satisfy them.

    Protobuf's serialisation of a block is a parameter.  The file system is a
    map from names to contents; [can_write] says which files can be opened for
    writing. *)
From S2P Require Import Prelude DecimalString.
From Stdlib Require Import ZArith NArith Lia.
From stdpp Require Import base list gmap strings.

Local Open Scope N_scope.

Record Block := mkBlock {
  b_number : N;
  b_previous_hash : list N;
  b_data_hash : list N;
  b_data : list (list N);
  b_metadata : list (list N) }.

Definition empty_block : Block := mkBlock 0 [] [] [] [].

(** What the code uses of the generated classes of [block.proto]. *)
Class BlockProto := {
  block_Serialize : Block → list N;
  block_Parse : list N → option Block;
  data_SerializeAsString : list (list N) → list N }.

Class BlockProtoLaws `{BlockProto} : Prop := {
  block_parse b : block_Parse (block_Serialize b) = Some b;
  data_bytes d : Forall (Forall (λ b, b < 256)) d → Forall (λ b, b < 256) (data_SerializeAsString d);
  data_nonempty d : d ≠ [] → data_SerializeAsString d ≠ [] }.

(** ** The interface *)
Class BlockStorage (S : Type) := {
  appendBlock : Block → S → outcome (bool * S);
  (** The block with this number, or [None] when the call returns [false]. *)
  loadBlock : N → S → outcome (option Block);
  getLatestSavedEpoch : S → N }.

Class BlockStorageLaws (S : Type) `{BlockStorage S} := {
  store_ok : S → Prop;
  contents : S → gmap N Block;
  append_next b s :
    store_ok s → b_number b = getLatestSavedEpoch s + 1 → b_number b < 2 ^ 63 →
    ∃ s', appendBlock b s = Ok (true, s') ∧ store_ok s' ∧
      getLatestSavedEpoch s' = b_number b ∧ contents s' = <[b_number b := b]> (contents s);
  load_stored n b s : store_ok s → contents s !! n = Some b → loadBlock n s = Ok (Some b);
  load_contents n b s : store_ok s → loadBlock n s = Ok (Some b) → contents s !! n = Some b;
  load_beyond n s : store_ok s → getLatestSavedEpoch s < n → loadBlock n s = Ok None;
  stored_range n s : store_ok s → is_Some (contents s !! n) → n ≤ getLatestSavedEpoch s }.

(** ** Files *)
Record BlockStorageToFile := mkFile {
  fs : gmap string (list N);
  bufferedEpochFromFile : N }.

Definition block_file (epoch : N) : string := N_to_string epoch +:+ ".bin".
Definition num_file : string := "block_num.txt".

(** [ifs >> epoch] for an unsigned number: white space, then digits. *)
Definition istream_u64 (s : string) : N :=
  Z.to_N (Z.min (2 ^ 64 - 1) (parse_digits (skip_spaces s) 0)).

Section Files.
Context `{BlockProto} (can_write : string → bool).

(** Writing through an [fstream] that could not be opened has no effect. *)
Definition write_file (name : string) (l : list N) (m : gmap string (list N)) : gmap string (list N) :=
  if can_write name then <[name := l]> m else m.

(** The constructor.  Without the file the variable that is read stays
    uninitialised: [garbage]. *)
Definition file_start (resetEpoch : bool) (garbage : N) (m : gmap string (list N)) : BlockStorageToFile :=
  if resetEpoch then mkFile (write_file num_file (bytes_of "0") m) 0
  else
    mkFile m (match m !! num_file with Some l => istream_u64 (of_bytes l) | None => garbage end).

Definition file_insertBlock (b : Block) (s : BlockStorageToFile) : bool * BlockStorageToFile :=
  let epoch := b_number b in
  if can_write (block_file epoch)
  then (true, mkFile (<[block_file epoch := block_Serialize b]> (fs s)) epoch)
  else (false, s).

Definition file_updateLatestSavedEpoch (s : BlockStorageToFile) : bool * BlockStorageToFile :=
  (true, mkFile (write_file num_file (bytes_of (N_to_string (bufferedEpochFromFile s))) (fs s))
           (bufferedEpochFromFile s)).

Definition file_appendBlock (b : Block) (s : BlockStorageToFile)
    : outcome (bool * BlockStorageToFile) :=
  let '(r, s) := file_insertBlock b s in
  if negb r then Ok (false, s)
  else
    let '(r, s) := file_updateLatestSavedEpoch s in
    if negb r then Ok (false, s) else Ok (true, s).

Definition file_loadBlock (epoch : N) (s : BlockStorageToFile) : outcome (option Block) :=
  if bufferedEpochFromFile s <? epoch then Ok None
  else Ok (fs s !! block_file epoch ≫= block_Parse).

Definition file_storage : BlockStorage BlockStorageToFile := {|
  appendBlock := file_appendBlock;
  loadBlock := file_loadBlock;
  getLatestSavedEpoch := bufferedEpochFromFile |}.

End Files.

(** A disk on which every file can be written. *)
Definition writable (_ : string) : bool := true.
#[global] Instance file_storage_all `{BlockProto} : BlockStorage BlockStorageToFile :=
  file_storage writable.

(** ** Memory *)
Record BlockStorageToDB := mkMem {
  mem_bufferedEpoch : N;
  mem_db : gmap N (list N);
  dbEpoch : N }.

Definition mem_start : BlockStorageToDB := mkMem 0 ∅ 0.

Section Memory.
Context `{BlockProto}.

Definition mem_insertBlock (b : Block) (s : BlockStorageToDB) : bool * BlockStorageToDB :=
  (true, mkMem (b_number b) (<[b_number b := block_Serialize b]> (mem_db s)) (dbEpoch s)).

Definition mem_updateLatestSavedEpoch (s : BlockStorageToDB) : bool * BlockStorageToDB :=
  (true, mkMem (mem_bufferedEpoch s) (mem_db s) (mem_bufferedEpoch s)).

Definition mem_appendBlock (b : Block) (s : BlockStorageToDB) : outcome (bool * BlockStorageToDB) :=
  let '(r, s) := mem_insertBlock b s in
  if negb r then Ok (false, s)
  else
    let '(r, s) := mem_updateLatestSavedEpoch s in
    if negb r then Ok (false, s) else Ok (true, s).

(** [db.find(epoch)->second] dereferences the end iterator for a block that is
    not there; the result of the parse is not looked at. *)
Definition mem_loadBlock (epoch : N) (s : BlockStorageToDB) : outcome (option Block) :=
  if mem_bufferedEpoch s <? epoch then Ok None
  else
    raw ← deref (mem_db s !! epoch);
    Ok (Some (default (mkBlock epoch [] [] [] []) (block_Parse raw))).

#[global] Instance mem_storage : BlockStorage BlockStorageToDB := {|
  appendBlock := mem_appendBlock;
  loadBlock := mem_loadBlock;
  getLatestSavedEpoch := mem_bufferedEpoch |}.

End Memory.

(** ** File names *)
Lemma list_ascii_app s1 s2 :
  String.list_ascii_of_string (s1 +:+ s2) =
  String.list_ascii_of_string s1 ++ String.list_ascii_of_string s2.
Proof. induction s1 as [|c s1 IH]; simpl; [done|]. by f_equal. Qed.

Lemma N_to_string_inj n m : N_to_string n = N_to_string m → n = m.
Proof.
  intros E. apply (f_equal (λ s, parse_digits s 0)) in E. rewrite !parse_N_to_string in E. lia.
Qed.

Lemma list_ascii_inj s1 s2 :
  String.list_ascii_of_string s1 = String.list_ascii_of_string s2 → s1 = s2.
Proof.
  intros E. by rewrite <-(String.string_of_list_ascii_of_string s1), E,
    String.string_of_list_ascii_of_string.
Qed.

Lemma block_file_inj n m : block_file n = block_file m → n = m.
Proof.
  intros E. apply (f_equal String.list_ascii_of_string) in E. unfold block_file in E.
  rewrite !list_ascii_app in E. apply app_inv_tail in E. by apply N_to_string_inj, list_ascii_inj.
Qed.

Lemma block_file_num n : block_file n ≠ num_file.
Proof.
  intros E. apply (f_equal String.list_ascii_of_string) in E.
  change num_file with ("block_num" +:+ ".txt") in E. unfold block_file in E.
  rewrite !list_ascii_app in E. apply app_inj_2 in E as [_ E]; [discriminate E|done].
Qed.

Lemma istream_u64_print n : n < 2 ^ 64 → istream_u64 (N_to_string n) = n.
Proof.
  intros Hn. unfold istream_u64. pose proof (parse_N_to_string n) as Hp.
  unfold N_to_string in *.
  destruct (digits_onto_head (S (N.size_nat n)) n "") as (d & s & Hd & E); [done|]. rewrite E in *.
  cbn [skip_spaces]. destruct (digit_not_special d Hd) as (-> & _). rewrite Hp. lia.
Qed.

(** ** The laws *)
Section Laws.
Context `{BlockProtoLaws}.

(** The blocks a store holds, up to the last saved one. *)
Definition file_contents (s : BlockStorageToFile) : gmap N Block :=
  list_to_map (omap (λ i, b ← fs s !! block_file i ≫= block_Parse; Some (i, b))
    (N.of_nat <$> seq 0 (S (N.to_nat (bufferedEpochFromFile s))))).

Lemma numbers_elem n e : n ∈ N.of_nat <$> seq 0 (S (N.to_nat e)) ↔ n ≤ e.
Proof.
  rewrite list_elem_of_fmap. split.
  - intros (i & -> & Hi%elem_of_seq). lia.
  - intros Hn. exists (N.to_nat n). split; [lia|]. apply elem_of_seq. lia.
Qed.

Lemma file_contents_lookup s n :
  file_contents s !! n =
  if bufferedEpochFromFile s <? n then None else fs s !! block_file n ≫= block_Parse.
Proof.
  unfold file_contents. set (l := N.of_nat <$> _).
  assert (∀ i, i ∈ l ↔ i ≤ bufferedEpochFromFile s) as Hl by (intros i; apply numbers_elem).
  assert (NoDup l) as Hnd by (unfold l; apply NoDup_fmap_2; [apply _|apply NoDup_seq]).
  clearbody l. destruct (N.ltb_spec (bufferedEpochFromFile s) n) as [Hlt|Hge].
  - apply not_elem_of_list_to_map_1. rewrite list_elem_of_fmap. intros ([i b] & -> & Hi). simpl in *.
    apply list_elem_of_omap in Hi as (j & Hj & Hb). apply Hl in Hj.
    destruct (fs s !! block_file j ≫= block_Parse); simpl in Hb; [|done]. injection Hb as -> ->. lia.
  - apply Hl in Hge. clear Hl. induction l as [|i l IH]; [by apply not_elem_of_nil in Hge|].
    apply NoDup_cons in Hnd as [Hni Hnd]. cbn [omap list_omap].
    destruct (decide (i = n)) as [->|Hne].
    + destruct (fs s !! block_file n ≫= block_Parse) as [b|] eqn:E; simpl.
      * by rewrite lookup_insert_eq.
      * apply not_elem_of_list_to_map_1. rewrite list_elem_of_fmap. intros ([i b] & -> & Hi). simpl in *.
        apply list_elem_of_omap in Hi as (j & Hj & Hb).
        destruct (fs s !! block_file j ≫= block_Parse) eqn:E'; simpl in Hb; [|done].
        injection Hb as -> ->. congruence.
    + apply elem_of_cons in Hge as [->|Hin]; [done|].
      destruct (fs s !! block_file i ≫= block_Parse) as [b|] eqn:E; simpl; [|by apply IH].
      rewrite lookup_insert_ne by done. by apply IH.
Qed.

Lemma file_load_contents s n : file_loadBlock n s = Ok (file_contents s !! n).
Proof.
  rewrite file_contents_lookup. unfold file_loadBlock. by destruct (_ <? _).
Qed.

#[global] Instance file_laws : BlockStorageLaws BlockStorageToFile.
Proof.
  refine {| store_ok s := fs s !! num_file = Some (bytes_of (N_to_string (bufferedEpochFromFile s)));
            contents := file_contents |}.
  - intros b s Hs Hb Hlt. simpl in Hb. eexists. split; [done|]. split_and!; [|done|].
    + cbn [fs bufferedEpochFromFile]. unfold write_file, writable. by rewrite lookup_insert_eq.
    + apply map_eq. intros n. rewrite file_contents_lookup. cbn [fs bufferedEpochFromFile].
      unfold write_file, writable.
      rewrite lookup_insert_ne by (symmetry; apply block_file_num).
      destruct (decide (n = b_number b)) as [->|Hne].
      * rewrite !lookup_insert_eq. simpl. rewrite block_parse. by rewrite N.ltb_irrefl.
      * rewrite (lookup_insert_ne (fs s)) by (intros E; by apply block_file_inj in E).
        rewrite lookup_insert_ne by done. rewrite file_contents_lookup.
        destruct (N.ltb_spec (b_number b) n), (N.ltb_spec (bufferedEpochFromFile s) n); done || lia.
  - intros n b s _ Hc. simpl. rewrite file_load_contents. by rewrite Hc.
  - intros n b s _. simpl. rewrite file_load_contents. by intros [= ->].
  - intros n s _ Hlt. simpl in *. unfold file_loadBlock. by rewrite (proj2 (N.ltb_lt _ _) Hlt).
  - intros n s _ [b Hb]. simpl. rewrite file_contents_lookup in Hb.
    destruct (N.ltb_spec (bufferedEpochFromFile s) n); [done|lia].
Defined.

#[global] Instance mem_laws : BlockStorageLaws BlockStorageToDB.
Proof.
  refine {| store_ok s := (∀ n raw, mem_db s !! n = Some raw → n ≤ mem_bufferedEpoch s ∧
                              is_Some (block_Parse raw));
            contents s := omap block_Parse (mem_db s) |}.
  - intros b s Hs Hb Hlt. simpl in Hb. eexists. split; [done|]. split_and!; [|done|].
    + intros n raw. cbn [mem_db mem_bufferedEpoch]. destruct (decide (n = b_number b)) as [->|Hne].
      * rewrite lookup_insert_eq. intros [= <-]. rewrite block_parse. by split.
      * rewrite lookup_insert_ne by done. intros Hn. destruct (Hs n raw Hn). split; [lia|done].
    + cbn [mem_db]. apply map_eq. intros n. rewrite lookup_omap.
      destruct (decide (n = b_number b)) as [->|Hne].
      * rewrite !lookup_insert_eq. simpl. by rewrite block_parse.
      * rewrite !lookup_insert_ne by done. by rewrite lookup_omap.
  - intros n b s Hs Hc. rewrite lookup_omap in Hc. simpl. unfold mem_loadBlock.
    destruct (mem_db s !! n) as [raw|] eqn:E; [|done]. simpl in Hc. destruct (Hs n raw E) as [Hn _].
    rewrite (proj2 (N.ltb_ge _ _) Hn). simpl. by rewrite Hc.
  - intros n b s Hs. simpl. unfold mem_loadBlock. destruct (_ <? _); [done|]. rewrite lookup_omap.
    destruct (mem_db s !! n) as [raw|] eqn:E; simpl; [|done].
    destruct (Hs n raw E) as [_ [b' Hb]]. rewrite Hb. by intros [= ->].
  - intros n s _ Hlt. simpl in *. unfold mem_loadBlock. by rewrite (proj2 (N.ltb_lt _ _) Hlt).
  - intros n s Hs [b Hb]. rewrite lookup_omap in Hb. destruct (mem_db s !! n) as [raw|] eqn:E; [|done].
    simpl. by destruct (Hs n raw E).
Defined.

End Laws.

(** ** Appending a run of blocks *)
Section AppendAll.
Context {S : Type} `{BlockStorageLaws S}.

Definition append_one (b : Block) (s : S) : outcome S :=
  r ← appendBlock b s; CHECK r.1;; Ok r.2.

(** Consecutive numbers after [k]. *)
Definition numbered (k : N) (l : list Block) : Prop :=
  ∀ i b, l !! i = Some b → b_number b = k + 1 + N.of_nat i.

Lemma numbered_cons k b l : numbered k (b :: l) → b_number b = k + 1 ∧ numbered (k + 1) l.
Proof.
  intros Hl. split; [specialize (Hl 0%nat b eq_refl); lia|].
  intros i b' Hb. specialize (Hl (Datatypes.S i) b' Hb). lia.
Qed.

Lemma append_all_ok l s :
  store_ok s → numbered (getLatestSavedEpoch s) l →
  getLatestSavedEpoch s + N.of_nat (length l) < 2 ^ 63 →
  ∃ s', foldM append_one l s = Ok s' ∧ store_ok s' ∧
    getLatestSavedEpoch s' = getLatestSavedEpoch s + N.of_nat (length l) ∧
    (∀ n, n ≤ getLatestSavedEpoch s → contents s' !! n = contents s !! n) ∧
    (∀ b, b ∈ l → contents s' !! b_number b = Some b).
Proof.
  revert s. induction l as [|b l IH]; intros s Hs Hl Hlt.
  { exists s. split_and!; [done|done|simpl; lia|done|]. intros b Hb. by apply not_elem_of_nil in Hb. }
  apply numbered_cons in Hl as [Hb Hl]. cbn [length] in Hlt.
  destruct (append_next b s Hs Hb ltac:(lia)) as (s1 & E1 & Hs1 & Hl1 & Hc1).
  destruct (IH s1 Hs1) as (s2 & E2 & Hs2 & Hl2 & Hold & Hnew).
  - by rewrite Hl1, Hb.
  - rewrite Hl1, Hb. lia.
  - assert (append_one b s = Ok s1) as E3 by (unfold append_one; by rewrite E1).
    exists s2. cbn [foldM]. rewrite E3. cbn [mbind outcome_bind].
    split_and!; [done|done|rewrite Hl2, Hl1, Hb; cbn [length]; lia| |].
    + intros n Hn. rewrite Hold by lia. rewrite Hc1. apply lookup_insert_ne. lia.
    + intros b' [->|Hb']%elem_of_cons; [|by apply Hnew].
      rewrite Hold by lia. by rewrite Hc1, lookup_insert_eq.
Qed.

End AppendAll.

Section Restart.
Context `{BlockProtoLaws}.

(** C32: the block files survive a restart.  Blocks appended in order to a store
    that was reset are all written, and a store started later on the same
    files, without a reset, reports the number of the last block and loads
    every block as it was appended; it reports a block beyond as missing. *)
Theorem file_restart l m garbage garbage' :
  numbered 0 l → N.of_nat (length l) < 2 ^ 63 →
  ∃ s, foldM (append_one (S := BlockStorageToFile)) l
         (file_start writable true garbage m) = Ok s ∧
    let s' := file_start writable false garbage' (fs s) in
    bufferedEpochFromFile s' = N.of_nat (length l) ∧
    (∀ b, b ∈ l → file_loadBlock (b_number b) s' = Ok (Some b)) ∧
    ∀ n, N.of_nat (length l) < n → file_loadBlock n s' = Ok None.
Proof.
  intros Hl Hlt. set (s0 := file_start writable true garbage m).
  assert (store_ok s0) as Hs0 by exact (lookup_insert_eq m num_file (bytes_of "0")).
  destruct (append_all_ok l s0 Hs0 Hl) as (s & E & Hs & Hn & _ & Hc); [simpl; lia|].
  exists s. split; [exact E|]. simpl in Hn, Hs.
  assert (file_start writable false garbage' (fs s) = s) as ->.
  { unfold file_start. rewrite Hs, of_bytes_of, istream_u64_print by lia. by destruct s. }
  split; [exact Hn|]. split.
  - intros b Hb. exact (load_stored (S := BlockStorageToFile) _ _ s Hs (Hc b Hb)).
  - intros n Hlt'. unfold file_loadBlock. rewrite Hn, N.add_0_l. by rewrite (proj2 (N.ltb_lt _ _) Hlt').
Qed.

End Restart.

(** ** An instance of the serialisation *)
Module BlockBits.

Fixpoint bits_of (p : positive) : list N :=
  match p with xH => [] | xO p => 0 :: bits_of p | xI p => 1 :: bits_of p end.
Fixpoint of_bits (l : list N) : positive :=
  match l with [] => xH | 0 :: l => xO (of_bits l) | _ :: l => xI (of_bits l) end.

Lemma of_bits_of_id p : of_bits (bits_of p) = p.
Proof. induction p; simpl; congruence. Qed.

#[local] Instance Block_eq_dec : EqDecision Block.
Proof. solve_decision. Defined.
#[local] Instance Block_countable : Countable Block.
Proof.
  refine (inj_countable' (λ b, (b_number b, b_previous_hash b, b_data_hash b, b_data b, b_metadata b))
    (λ '(a, b, c, d, e), mkBlock a b c d e) _). by intros [].
Defined.

#[global] Instance bits_proto : BlockProto := {|
  block_Serialize b := bits_of (encode b);
  block_Parse l := decode (of_bits l);
  data_SerializeAsString d := concat d ++ replicate (length d) 10 |}.

#[global] Instance bits_laws : BlockProtoLaws.
Proof.
  split.
  - intros b. simpl. rewrite of_bits_of_id. apply decode_encode.
  - intros d Hd. simpl. apply Forall_app. split; [|by apply Forall_replicate].
    by apply Forall_concat.
  - intros [|x d] Hd; [done|]. simpl. by intros [_ ?]%app_eq_nil.
Qed.

Definition block1 : Block := mkBlock 1 [] [7] [[1]] [[0]].
Definition block2 : Block := mkBlock 2 [7] [8] [[2]] [[0]].

Lemma file_restart_witness :
  ∃ s, foldM (append_one (S := BlockStorageToFile)) [block1; block2]
         (file_start writable true 0 ∅) = Ok s ∧
    let s' := file_start writable false 5 (fs s) in
    bufferedEpochFromFile s' = 2 ∧
    (∀ b, b ∈ [block1; block2] → file_loadBlock (b_number b) s' = Ok (Some b)) ∧
    ∀ n, 2 < n → file_loadBlock n s' = Ok None.
Proof.
  apply (file_restart [block1; block2] ∅ 0 5); [|reflexivity].
  intros [|[|i]] b Hb; simplify_eq/=; reflexivity.
Defined.

End BlockBits.
