(* ===== verification/HashMap.v ===== *)
(** * The striped concurrent hash map

    [include/common/hash_map.h]: an array of [N] [std::unordered_map]s, each
    under its own mutex; a key lives in the map of index [hash(key) % N].
    Each operation holds the mutex of its stripe, so it is atomic and is one
    function on the state here.  [std::hash] is a parameter of the model: the
    standard only promises that it is a function of the key.

    The refinement theorems show that a striped map behaves as one finite map
    ([gmap]); the components that own a [HashMap] are modelled with a [gmap]
    on the strength of it. *)
From S2P Require Import Prelude.
From stdpp Require Import base list gmap.

Section HashMap.
Context {K : Type} `{Countable K} {V : Type} `{ValueInit V}.
Context (hash : K → N) (NS : nat).

(** The [maps] array. *)
Local Notation maps_t := (list (gmap K V)).

Definition stripe (k : K) : nat := N.to_nat (hash k) `mod` NS.

Definition get_map_ref (k : K) (ms : maps_t) : gmap K V :=
  default ∅ (ms !! stripe k).

Definition hm_remove (k : K) (ms : maps_t) : bool * maps_t :=
  match get_map_ref k ms !! k with
  | None => (false, ms)
  | Some _ => (true, <[stripe k := delete k (get_map_ref k ms)]> ms)
  end.

Definition hm_contains (k : K) (ms : maps_t) : bool :=
  match get_map_ref k ms !! k with Some _ => true | None => false end.

Definition hm_insert (k : K) (v : V) (ms : maps_t) : bool * maps_t :=
  match get_map_ref k ms !! k with
  | Some _ => (false, ms)
  | None => (true, <[stripe k := <[k := v]> (get_map_ref k ms)]> ms)
  end.

(** [operator[]]: value-initialises a missing entry and returns it. *)
Definition hm_index (k : K) (ms : maps_t) : V * maps_t :=
  match get_map_ref k ms !! k with
  | Some v => (v, ms)
  | None => (value_init, <[stripe k := <[k := value_init]> (get_map_ref k ms)]> ms)
  end.

(** [m[k] = v]: [operator[]] followed by an assignment through the reference. *)
Definition hm_assign (k : K) (v : V) (ms : maps_t) : maps_t :=
  <[stripe k := <[k := v]> (get_map_ref k ms)]> ms.

Definition hm_size (ms : maps_t) : nat := foldl (λ n m, n + size m) 0 ms.

Definition hm_clear (ms : maps_t) : maps_t := (λ _, ∅) <$> ms.

Definition hm_empty : maps_t := replicate NS ∅.

(** The map that the stripes implement. *)
Definition abs (ms : maps_t) : gmap K V := foldr (∪) ∅ ms.

(** Every key is in the stripe its hash selects. *)
Definition wf (ms : maps_t) : Prop :=
  length ms = NS ∧ ∀ i m k, ms !! i = Some m → is_Some (m !! k) → stripe k = i.

Context (NS_pos : NS ≠ 0).

Lemma stripe_lt k : stripe k < NS.
Proof. by apply Nat.mod_upper_bound. Qed.

Lemma wf_lookup_stripe ms k : wf ms → ms !! stripe k = Some (get_map_ref k ms).
Proof.
  intros [Hl _]. unfold get_map_ref.
  destruct (lookup_lt_is_Some_2 ms (stripe k)) as [m Hm].
  { rewrite Hl. apply stripe_lt. }
  by rewrite Hm.
Qed.

Lemma foldr_union_lookup (ms : maps_t) (i0 : nat) (k : K) :
  (∀ i m, ms !! i = Some m → i0 + i ≠ stripe k → m !! k = None) →
  foldr (∪) ∅ ms !! k =
    (if decide (i0 ≤ stripe k) then ms !! (stripe k - i0) ≫= λ m, m !! k else None).
Proof.
  revert i0. induction ms as [|m ms IH]; intros i0 Hk; simpl.
  { rewrite lookup_empty. by case_decide. }
  rewrite lookup_union, (IH (S i0)); last first.
  { intros i m' Hm' Hi. apply (Hk (S i)); [done | lia]. }
  destruct (decide (i0 = stripe k)) as [->|Hne].
  - rewrite Nat.sub_diag, decide_False, decide_True by lia. simpl.
    by destruct (m !! k).
  - rewrite (Hk 0 m) by (done || lia).
    case_decide as H1; case_decide as H2; try lia; [|done].
    replace (stripe k - i0) with (S (stripe k - S i0)) by lia. simpl.
    by destruct (ms !! (stripe k - S i0) ≫= λ m', m' !! k).
Qed.

(** The abstract map read through the stripes. *)
Lemma abs_lookup ms k : wf ms → abs ms !! k = get_map_ref k ms !! k.
Proof.
  intros Hwf. unfold abs. rewrite (foldr_union_lookup ms 0).
  - rewrite decide_True, Nat.sub_0_r by lia. by rewrite (wf_lookup_stripe _ _ Hwf).
  - intros i m Hm Hi. destruct (m !! k) eqn:E; [|done].
    destruct Hwf as [_ Hwf]. exfalso. apply Hi. symmetry.
    apply (Hwf i m k); [done | eauto].
Qed.

Lemma get_map_ref_insert k k' m (ms : maps_t) :
  wf ms →
  get_map_ref k' (<[stripe k := m]> ms) =
    if decide (stripe k' = stripe k) then m else get_map_ref k' ms.
Proof.
  intros [Hl _]. unfold get_map_ref. case_decide as E.
  - rewrite E, list_lookup_insert_eq; [done|]. rewrite Hl. apply stripe_lt.
  - by rewrite list_lookup_insert_ne.
Qed.

Lemma wf_insert k m ms :
  wf ms → (∀ k', is_Some (m !! k') → stripe k' = stripe k) →
  wf (<[stripe k := m]> ms).
Proof.
  intros [Hl Hw] Hm. split; [by rewrite length_insert|].
  intros i m' k' Hi Hk'. destruct (decide (i = stripe k)) as [->|Hne].
  - rewrite list_lookup_insert_eq in Hi by (rewrite Hl; apply stripe_lt).
    injection Hi as <-. by apply Hm.
  - rewrite list_lookup_insert_ne in Hi by done. by apply (Hw i m').
Qed.

Lemma get_map_ref_keys k k' ms :
  wf ms → is_Some (get_map_ref k ms !! k') → stripe k' = stripe k.
Proof.
  intros Hwf Hk'. pose proof (wf_lookup_stripe ms k Hwf) as E.
  by apply (proj2 Hwf _ _ _ E).
Qed.

Lemma wf_update k m ms :
  wf ms → (∀ k', k' ≠ k → m !! k' = get_map_ref k ms !! k') →
  wf (<[stripe k := m]> ms).
Proof.
  intros Hwf Hm. apply wf_insert; [done|]. intros k' Hk'.
  destruct (decide (k' = k)) as [->|Hne]; [done|].
  rewrite Hm in Hk' by done. by apply (get_map_ref_keys k k' ms).
Qed.

(** Replacing one stripe by itself with [k] changed changes [abs] at [k] only. *)
Lemma abs_update k m ms :
  wf ms → (∀ k', k' ≠ k → m !! k' = get_map_ref k ms !! k') →
  abs (<[stripe k := m]> ms) = partial_alter (λ _, m !! k) k (abs ms).
Proof.
  intros Hwf Hm. apply map_eq. intros k'.
  rewrite abs_lookup by (by apply wf_update). rewrite get_map_ref_insert by done.
  destruct (decide (k' = k)) as [->|Hne].
  - by rewrite decide_True, lookup_partial_alter_eq.
  - rewrite lookup_partial_alter_ne, abs_lookup by done. case_decide as E; [|done].
    rewrite Hm by done. unfold get_map_ref. by rewrite E.
Qed.

Lemma empty_wf : wf hm_empty.
Proof.
  split; [apply length_replicate|]. intros i m k Hi Hk.
  apply lookup_replicate in Hi as [-> _]. rewrite lookup_empty in Hk.
  by destruct Hk.
Qed.

Lemma abs_empty : abs hm_empty = ∅.
Proof.
  apply map_eq. intros k. rewrite abs_lookup by apply empty_wf.
  unfold get_map_ref, hm_empty. rewrite lookup_replicate_2 by apply stripe_lt. done.
Qed.

Lemma remove_wf k ms : wf ms → wf (hm_remove k ms).2.
Proof.
  intros Hwf. unfold hm_remove. destruct (_ !! k); simpl; [|done].
  apply wf_update; [done|]. intros k' Hne. by rewrite lookup_delete_ne.
Qed.

Lemma insert_wf k v ms : wf ms → wf (hm_insert k v ms).2.
Proof.
  intros Hwf. unfold hm_insert. destruct (_ !! k); simpl; [done|].
  apply wf_update; [done|]. intros k' Hne. by rewrite lookup_insert_ne.
Qed.

Lemma index_wf k ms : wf ms → wf (hm_index k ms).2.
Proof.
  intros Hwf. unfold hm_index. destruct (_ !! k); simpl; [done|].
  apply wf_update; [done|]. intros k' Hne. by rewrite lookup_insert_ne.
Qed.

Lemma assign_wf k v ms : wf ms → wf (hm_assign k v ms).
Proof.
  intros Hwf. unfold hm_assign.
  apply wf_update; [done|]. intros k' Hne. by rewrite lookup_insert_ne.
Qed.

Lemma clear_wf ms : wf ms → wf (hm_clear ms).
Proof.
  intros [Hl _]. split; [by unfold hm_clear; rewrite length_fmap|].
  intros i m k Hi Hk. unfold hm_clear in Hi. rewrite list_lookup_fmap in Hi.
  destruct (ms !! i); simplify_eq/=. rewrite lookup_empty in Hk. by destruct Hk.
Qed.

Lemma remove_abs k ms :
  wf ms →
  hm_remove k ms = (bool_decide (is_Some (abs ms !! k)), (hm_remove k ms).2) ∧
  abs (hm_remove k ms).2 = delete k (abs ms).
Proof.
  intros Hwf. rewrite abs_lookup by done. unfold hm_remove.
  destruct (get_map_ref k ms !! k) eqn:E; simpl.
  - split; [done|]. rewrite abs_update.
    + by rewrite lookup_delete_eq.
    + done.
    + intros k' Hne. by rewrite lookup_delete_ne.
  - split; [done|]. rewrite delete_id; [done|]. by rewrite abs_lookup.
Qed.

Lemma contains_abs k ms :
  wf ms → hm_contains k ms = bool_decide (is_Some (abs ms !! k)).
Proof.
  intros Hwf. rewrite abs_lookup by done. unfold hm_contains.
  by destruct (get_map_ref k ms !! k).
Qed.

Lemma insert_abs k v ms :
  wf ms →
  (hm_insert k v ms).1 = bool_decide (abs ms !! k = None) ∧
  abs (hm_insert k v ms).2 =
    match abs ms !! k with Some _ => abs ms | None => <[k := v]> (abs ms) end.
Proof.
  intros Hwf. rewrite abs_lookup by done. unfold hm_insert.
  destruct (get_map_ref k ms !! k) eqn:E; simpl; [done|].
  split; [done|]. rewrite abs_update.
  - by rewrite lookup_insert_eq.
  - done.
  - intros k' Hne. by rewrite lookup_insert_ne.
Qed.

Lemma index_abs k ms :
  wf ms →
  (hm_index k ms).1 = default value_init (abs ms !! k) ∧
  abs (hm_index k ms).2 = <[k := default value_init (abs ms !! k)]> (abs ms).
Proof.
  intros Hwf. rewrite abs_lookup by done. unfold hm_index.
  destruct (get_map_ref k ms !! k) eqn:E; simpl.
  - split; [done|]. rewrite insert_id; [done|]. by rewrite abs_lookup.
  - split; [done|]. rewrite abs_update.
    + by rewrite lookup_insert_eq.
    + done.
    + intros k' Hne. by rewrite lookup_insert_ne.
Qed.

Lemma assign_abs k v ms : wf ms → abs (hm_assign k v ms) = <[k := v]> (abs ms).
Proof.
  intros Hwf. unfold hm_assign. rewrite abs_update.
  - by rewrite lookup_insert_eq.
  - done.
  - intros k' Hne. by rewrite lookup_insert_ne.
Qed.

Lemma clear_abs ms : wf ms → abs (hm_clear ms) = ∅.
Proof.
  intros Hwf. apply map_eq. intros k. rewrite abs_lookup by (by apply clear_wf).
  unfold get_map_ref, hm_clear. rewrite list_lookup_fmap.
  by destruct (ms !! stripe k).
Qed.

(** The stripes hold disjoint sets of keys, so the sizes add up. *)
Lemma foldl_size_acc (ms : maps_t) n :
  foldl (λ n m, n + size m) n ms = n + foldl (λ n m, n + size m) 0 ms.
Proof.
  revert n. induction ms as [|m ms IH]; intros n; simpl; [lia|].
  rewrite (IH (n + _)), (IH (size m)). lia.
Qed.

Lemma size_foldr_union (ms : maps_t) (i0 : nat) :
  (∀ i m k, ms !! i = Some m → is_Some (m !! k) → stripe k = i0 + i) →
  hm_size ms = size (foldr (∪) ∅ ms).
Proof.
  unfold hm_size. revert i0. induction ms as [|m ms IH]; intros i0 Hm; simpl.
  { by rewrite map_size_empty. }
  rewrite foldl_size_acc, (IH (S i0)); last first.
  { intros i m' k Hi Hk. rewrite (Hm (S i) m' k) by done. lia. }
  rewrite map_size_disj_union; [done|].
  apply map_disjoint_spec. intros k x y Hx Hy.
  assert (stripe k = i0) as E.
  { rewrite (Hm 0 m k); [lia | done | eauto]. }
  rewrite (foldr_union_lookup ms (S i0)) in Hy.
  - by rewrite decide_False in Hy by lia.
  - intros i m' Hi Hne. destruct (m' !! k) eqn:E'; [|done].
    exfalso. apply Hne. rewrite (Hm (S i) m' k); [lia | done | eauto].
Qed.

Lemma size_abs ms : wf ms → hm_size ms = size (abs ms).
Proof. intros Hwf. apply (size_foldr_union ms 0). apply (proj2 Hwf). Qed.

(** ** The interface

    An operation of a client is a sequence of map operations; [exec] runs it
    on the striped map and [spec] on a finite map. *)
Inductive op :=
  | OpRemove (k : K)
  | OpContains (k : K)
  | OpInsert (k : K) (v : V)
  | OpIndex (k : K)
  | OpAssign (k : K) (v : V)
  | OpSize
  | OpClear.

Inductive reply :=
  | RBool (b : bool)
  | RValue (v : V)
  | RSize (n : nat)
  | RUnit.

Definition exec (o : op) (ms : maps_t) : reply * maps_t :=
  match o with
  | OpRemove k => let '(b, ms') := hm_remove k ms in (RBool b, ms')
  | OpContains k => (RBool (hm_contains k ms), ms)
  | OpInsert k v => let '(b, ms') := hm_insert k v ms in (RBool b, ms')
  | OpIndex k => let '(v, ms') := hm_index k ms in (RValue v, ms')
  | OpAssign k v => (RUnit, hm_assign k v ms)
  | OpSize => (RSize (hm_size ms), ms)
  | OpClear => (RUnit, hm_clear ms)
  end.

(** What one finite map does with the same operation. *)
Definition spec (o : op) (m : gmap K V) : reply * gmap K V :=
  match o with
  | OpRemove k => (RBool (bool_decide (is_Some (m !! k))), delete k m)
  | OpContains k => (RBool (bool_decide (is_Some (m !! k))), m)
  | OpInsert k v =>
      match m !! k with
      | Some _ => (RBool false, m)
      | None => (RBool true, <[k := v]> m)
      end
  | OpIndex k =>
      let v := default value_init (m !! k) in (RValue v, <[k := v]> m)
  | OpAssign k v => (RUnit, <[k := v]> m)
  | OpSize => (RSize (size m), m)
  | OpClear => (RUnit, ∅)
  end.

Fixpoint run {S} (step : op → S → reply * S) (os : list op) (s : S) : list reply * S :=
  match os with
  | [] => ([], s)
  | o :: os' =>
      let '(r, s') := step o s in
      let '(rs, s'') := run step os' s' in (r :: rs, s'')
  end.

Lemma exec_refines o ms :
  wf ms →
  (exec o ms).1 = (spec o (abs ms)).1 ∧
  abs (exec o ms).2 = (spec o (abs ms)).2 ∧ wf (exec o ms).2.
Proof.
  intros Hwf. destruct o as [k|k|k v|k|k v| |]; simpl.
  - destruct (remove_abs k ms Hwf) as [E1 E2]. pose proof (remove_wf k ms Hwf) as W.
    destruct (hm_remove k ms) as [b ms']; simpl in *. injection E1 as ->. done.
  - rewrite (contains_abs k ms Hwf). done.
  - destruct (insert_abs k v ms Hwf) as [E1 E2]. pose proof (insert_wf k v ms Hwf) as W.
    destruct (hm_insert k v ms) as [b ms']; simpl in *. rewrite E1, E2.
    by destruct (abs ms !! k).
  - destruct (index_abs k ms Hwf) as [E1 E2]. pose proof (index_wf k ms Hwf) as W.
    destruct (hm_index k ms) as [v ms']; simpl in *. by rewrite E1, E2.
  - rewrite assign_abs by done. split_and!; [done|done|by apply assign_wf].
  - by rewrite size_abs.
  - rewrite clear_abs by done. split_and!; [done|done|by apply clear_wf].
Qed.

Lemma run_refines os ms :
  wf ms →
  (run exec os ms).1 = (run spec os (abs ms)).1 ∧
  abs (run exec os ms).2 = (run spec os (abs ms)).2.
Proof.
  revert ms. induction os as [|o os IH]; intros ms Hwf; simpl; [done|].
  destruct (exec_refines o ms Hwf) as (E1 & E2 & W).
  destruct (exec o ms) as [r ms'], (spec o (abs ms)) as [r' m']; simpl in *; subst.
  destruct (IH ms' W) as [E1' E2'].
  destruct (run exec os ms'), (run spec os (abs ms')); simpl in *; by subst.
Qed.

(** the striped hash map is one finite map.  Started empty, whatever the
    hash function, every sequence of operations gives the replies of the same
    sequence on a finite map, sizes and default-constructed values included,
    and leaves the contents of that map. *)
Theorem hash_map_refines os :
  (run exec os hm_empty).1 = (run spec os ∅).1 ∧
  abs (run exec os hm_empty).2 = (run spec os ∅).2.
Proof. rewrite <-abs_empty. apply run_refines, empty_wf. Qed.

End HashMap.

Arguments op : clear implicits.
Arguments reply : clear implicits.

Lemma hash_map_refines_witness :
  (run (exec (λ k : N, k) 2) [OpInsert 5 7; OpInsert 7 1; OpIndex 9; OpRemove 5; OpSize]%N
     (hm_empty 2)).1 = [RBool true; RBool true; RValue 0; RBool true; RSize 2]%N.
Proof.
  rewrite (proj1 (hash_map_refines (λ k : N, k) 2 (Nat.neq_succ_0 1)
    [OpInsert 5 7; OpInsert 7 1; OpIndex 9; OpRemove 5; OpSize]%N)).
  vm_compute. reflexivity.
Defined.
