(* ===== verification/MVCCHashMap.v ===== *)
(** * The multi-version hash map

    [include/common/mvcc_hash_map.h]: a striped hash map from a key to a list
    of (version, value) tuples, newest first.  A version is a string (the
    reserve table stores the table name there).  Every operation runs a lambda
    on the stripe of its key under that stripe's lock ([apply]/[apply_ref]);
    a lambda looks up one key, so it is a function [g] from the entry of the
    key ([None]: the key is absent) to the result and the new entry. *)
From S2P Require Import Prelude HashMap.
From stdpp Require Import base list gmap strings.

Section MVCCHashMap.
Context {K : Type} `{Countable K} {V : Type} `{ValueInit V}.

(** [MappedValueType]: [std::list<std::tuple<std::string, ValueType>>]. *)
Local Notation versions := (list (string * V)).

(** ** The lambdas, one per operation *)

Definition contains_key (e : option versions) : bool * option versions :=
  match e with
  | None => (false, e)
  | Some l => (negb (bool_decide (l = [])), e)
  end.

(** The scan shared by the operations that search a version. *)
Fixpoint find_version (version : string) (l : versions) : option V :=
  match l with
  | [] => None
  | (v, x) :: l' => if String.eqb v version then Some x else find_version version l'
  end.

Definition contains_key_version (version : string) (e : option versions)
    : bool * option versions :=
  match e with
  | None => (false, e)
  | Some l => (match find_version version l with Some _ => true | None => false end, e)
  end.

Definition remove_key (e : option versions) : bool * option versions :=
  match e with
  | None => (false, None)
  | Some _ => (true, None)
  end.

Fixpoint erase_version (version : string) (l : versions) : bool * versions :=
  match l with
  | [] => (false, [])
  | (v, x) :: l' =>
      if String.eqb v version then (true, l')
      else let '(b, l'') := erase_version version l' in (b, (v, x) :: l'')
  end.

Definition remove_key_version (version : string) (e : option versions)
    : bool * option versions :=
  match e with
  | None => (false, None)
  | Some l => let '(b, l') := erase_version version l in (b, Some l')
  end.

(** Both branches of the source insert at the front. *)
Definition insert_key_version_holder (version : string) (e : option versions)
    : V * option versions :=
  let l := default [] e in
  (value_init, Some ((version, value_init) :: l)).

Definition version_count (e : option versions) : nat * option versions :=
  match e with
  | None => (0, e)
  | Some l => (length l, e)
  end.

(** The pointer is [None] when null. *)
Definition get_key_version (version : string) (e : option versions)
    : option V * option versions :=
  match e with
  | None => (None, e)
  | Some l => (find_version version l, e)
  end.

(** [std::string] comparison is lexicographic on the bytes. *)
Fixpoint find_prev (version : string) (l : versions) : option V :=
  match l with
  | [] => None
  | (v, x) :: l' =>
      match String.compare v version with
      | Lt => Some x
      | _ => find_prev version l'
      end
  end.

Definition get_key_version_prev (version : string) (e : option versions)
    : option V * option versions :=
  match e with
  | None => (None, e)
  | Some l => (find_prev version l, e)
  end.

(** The loop of [vacuum_key_versions], which walks the list from its end: the
    argument is the list reversed. *)
Fixpoint vacuum_back (version : string) (rl : versions) : nat * versions :=
  match rl with
  | [] => (0, [])
  | (v, x) :: rl' =>
      if String.eqb v version then (0, (v, x) :: rl')
      else let '(n, rl'') := vacuum_back version rl' in (S n, rl'')
  end.

Definition vacuum_key_versions (version : string) (e : option versions)
    : nat * option versions :=
  match e with
  | None => (0, None)
  | Some l => let '(n, rl) := vacuum_back version (reverse l) in (n, Some (reverse rl))
  end.

Definition vacuum_key_keep_latest (e : option versions) : nat * option versions :=
  match e with
  | None => (0, None)
  | Some [] => (0, Some [])
  | Some (x :: l) => (length l, Some [x])
  end.

(** Assignment through the pointer returned by [get_key_version]. *)
Fixpoint store_version (version : string) (y : V) (l : versions) : versions :=
  match l with
  | [] => []
  | (v, x) :: l' =>
      if String.eqb v version then (v, y) :: l' else (v, x) :: store_version version y l'
  end.

(** ** Stripes: [apply] runs a lambda on the map of the key's stripe *)
Context (hash : K → N) (NS : nat).
Local Notation maps_t := (list (gmap K versions)).

Definition apply {R} (g : option versions → R * option versions) (k : K) (ms : maps_t)
    : R * maps_t :=
  let m := get_map_ref hash NS k ms in
  let '(r, e) := g (m !! k) in
  (r, <[stripe hash NS k := partial_alter (λ _, e) k m]> ms).

Context (NS_pos : NS ≠ 0).

(** A lambda run on a stripe is the same lambda run on the whole map. *)
Lemma apply_refines {R} (g : option versions → R * option versions) k ms :
  wf hash NS ms →
  (apply g k ms).1 = (g (abs ms !! k)).1 ∧
  abs (apply g k ms).2 = partial_alter (λ _, (g (abs ms !! k)).2) k (abs ms) ∧
  wf hash NS (apply g k ms).2.
Proof.
  intros Hwf. unfold apply. rewrite (abs_lookup hash NS NS_pos ms k Hwf).
  destruct (g _) as [r e]; simpl.
  assert (∀ k', k' ≠ k →
    partial_alter (λ _, e) k (get_map_ref hash NS k ms) !! k' =
    get_map_ref hash NS k ms !! k') as Hk.
  { intros k' Hne. by rewrite lookup_partial_alter_ne. }
  split_and!; [done| |by apply wf_update].
  rewrite abs_update by done. by rewrite lookup_partial_alter_eq.
Qed.

(** ** Laws of the operations *)

Lemma find_store version y l :
  is_Some (find_version version l) → find_version version (store_version version y l) = Some y.
Proof.
  induction l as [|[v x] l IH]; simpl; [intros [? ?]; done|].
  destruct (String.eqb v version) eqn:E; simpl; rewrite E; [done | apply IH].
Qed.

Lemma find_store_ne version version' y l :
  version ≠ version' →
  find_version version' (store_version version y l) = find_version version' l.
Proof.
  intros Hne. induction l as [|[v x] l IH]; simpl; [done|].
  destruct (String.eqb_spec v version) as [->|E]; simpl.
  - destruct (String.eqb_spec version version'); [done | done].
  - by rewrite IH.
Qed.

Lemma insert_get version e :
  (get_key_version version (insert_key_version_holder version e).2).1 = Some value_init.
Proof. simpl. by rewrite String.eqb_refl. Qed.

Lemma insert_get_ne version version' e :
  version ≠ version' →
  (get_key_version version' (insert_key_version_holder version e).2).1 =
  (get_key_version version' e).1.
Proof.
  intros Hne. simpl. rewrite (proj2 (String.eqb_neq _ _) Hne). by destruct e.
Qed.

(** [vacuum_key_versions] keeps everything up to the oldest copy of the given
    version: what it removes is the longest suffix without that version. *)
Lemma vacuum_back_spec version rl n rl' :
  vacuum_back version rl = (n, rl') →
  ∃ gone, rl = gone ++ rl' ∧ length gone = n ∧
    Forall (λ p, p.1 ≠ version) gone ∧
    (rl' = [] ∨ ∃ x tl, rl' = (version, x) :: tl).
Proof.
  revert n rl'. induction rl as [|[v x] rl IH]; simpl; intros n rl' E.
  - simplify_eq. exists []. repeat split; auto.
  - destruct (String.eqb_spec v version) as [->|Hne].
    + simplify_eq. exists []. repeat split; eauto.
    + destruct (vacuum_back version rl) as [m rl''] eqn:E'. simplify_eq.
      destruct (IH _ _ eq_refl) as (gone & -> & <- & Hg & Hr).
      exists ((v, x) :: gone). repeat split; [by constructor | done].
Qed.

(** Removing a version leaves the other versions' first values in place. *)
Lemma erase_find_ne version version' l :
  version ≠ version' →
  find_version version' (erase_version version l).2 = find_version version' l.
Proof.
  intros Hne. induction l as [|[v x] l IH]; simpl; [done|].
  destruct (String.eqb_spec v version) as [->|E]; simpl.
  - by rewrite (proj2 (String.eqb_neq _ _) Hne).
  - destruct (erase_version version l) as [b l']; simpl in *. by rewrite IH.
Qed.

(** vacuuming a key with a version removes, from the oldest end of its list,
    exactly the entries behind the oldest copy of that version, reports their
    number and touches no other key; without such a copy it empties the list. *)
Theorem mvcc_vacuum_suffix version k ms l :
  wf hash NS ms → abs ms !! k = Some l →
  ∃ kept gone, l = kept ++ gone ∧
    (apply (vacuum_key_versions version) k ms).1 = length gone ∧
    abs (apply (vacuum_key_versions version) k ms).2 = <[k := kept]> (abs ms) ∧
    Forall (λ p, p.1 ≠ version) gone ∧
    (kept = [] ∨ ∃ hd x, kept = hd ++ [(version, x)]).
Proof.
  intros Hwf Hk. destruct (apply_refines (vacuum_key_versions version) k ms Hwf) as (-> & -> & _).
  rewrite Hk. simpl. destruct (vacuum_back version (reverse l)) as [n rl] eqn:E.
  destruct (vacuum_back_spec _ _ _ _ E) as (gone & Hl & Hn & Hg & Hr).
  exists (reverse rl), (reverse gone). split_and!.
  - by rewrite <-(reverse_involutive l), Hl, reverse_app.
  - by rewrite length_reverse.
  - done.
  - by apply Forall_reverse.
  - destruct Hr as [->|(x & tl & ->)]; [by left|right]. exists (reverse tl), x. by rewrite reverse_cons.
Qed.

End MVCCHashMap.

Section MVCCRuns.
Local Open Scope N_scope.

Definition mvcc_demo : list (gmap N (list (string * N))) :=
  [{[4 := [("c", 3); ("b", 2); ("a", 1)]]}; ∅].

Lemma mvcc_vacuum_suffix_witness :
  ∃ kept gone, [("c", 3); ("b", 2); ("a", 1)] = kept ++ gone ∧
    (apply (λ k : N, k) 2 (vacuum_key_versions "b") 4 mvcc_demo).1 = length gone ∧
    abs (apply (λ k : N, k) 2 (vacuum_key_versions "b") 4 mvcc_demo).2 =
      <[4 := kept]> (abs mvcc_demo) ∧
    Forall (λ p, p.1 ≠ "b") gone ∧ (kept = [] ∨ ∃ hd x, kept = hd ++ [("b", x)]).
Proof.
  apply (mvcc_vacuum_suffix (λ k : N, k) 2 (Nat.neq_succ_0 1) "b" 4 mvcc_demo).
  - split; [reflexivity|]. intros [|[|i]] m k Hm Hk; simplify_eq/=.
    + apply lookup_singleton_is_Some in Hk as <-. reflexivity.
    + rewrite lookup_empty in Hk. by destruct Hk.
  - vm_compute. reflexivity.
Defined.

End MVCCRuns.
