(* ===== verification/Transaction.v ===== *)
(** * Transactions

    The data of [include/block_server/transaction/transaction.h] and
    [mock/mock_transaction.h], the read-write set that a chaincode run fills
    ([include/proto/kv_rwset.proto], the fields the program uses) and the
    payload of a user request ([include/proto/transaction.proto]). *)
From S2P Require Import Prelude.
From stdpp Require Import base list gmap strings.

(** ** Read-write sets *)
Record KVRead := mkRead { rd_table : string; rd_key : string; rd_value : string }.
Record KVWrite := mkWrite {
  wr_table : string; wr_key : string; wr_value : string; wr_is_delete : bool }.
Record KVRWSet := mkRWSet { reads : list KVRead; writes : list KVWrite }.

Definition empty_rwset : KVRWSet := mkRWSet [] [].

#[global] Instance KVRead_eq_dec : EqDecision KVRead.
Proof. solve_decision. Defined.
#[global] Instance KVWrite_eq_dec : EqDecision KVWrite.
Proof. solve_decision. Defined.
#[global] Instance KVRWSet_eq_dec : EqDecision KVRWSet.
Proof. solve_decision. Defined.

(** The (table, key) pairs a read-write set touches. *)
Definition read_cells (rw : KVRWSet) : list (string * string) :=
  (λ r, (rd_table r, rd_key r)) <$> reads rw.
Definition write_cells (rw : KVRWSet) : list (string * string) :=
  (λ w, (wr_table w, wr_key w)) <$> writes rw.

(** [add_reads] and [add_writes]: append to the repeated field. *)
Definition add_read (r : KVRead) (rw : KVRWSet) : KVRWSet :=
  mkRWSet (reads rw ++ [r]) (writes rw).
Definition add_write (w : KVWrite) (rw : KVRWSet) : KVRWSet :=
  mkRWSet (reads rw) (writes rw ++ [w]).

(** ** Transactions *)
Inductive TransactionResult := COMMIT | PENDING | ABORT | ABORT_NO_RETRY.

#[global] Instance TransactionResult_eq_dec : EqDecision TransactionResult.
Proof. solve_decision. Defined.

(** [static_cast<uint32_t>] of the enumeration. *)
Definition result_code (r : TransactionResult) : N :=
  match r with COMMIT => 0 | PENDING => 1 | ABORT => 2 | ABORT_NO_RETRY => 3 end.

Record TransactionPayload := mkPayload {
  pl_header : string; pl_payload : string; pl_nonce : N; pl_digest : string }.

Definition empty_payload : TransactionPayload := mkPayload "" "" 0 "".

(** [invalidBit] points into the client proxy's [invalidBits] table, which is
    keyed by the sender's address: the pointer is that address. *)
Record Transaction := mkTransaction {
  tr_epoch : N;
  tr_tid : N;
  readOnlyFlag : bool;
  kvRWSet : KVRWSet;
  transactionResult : TransactionResult;
  transactionPayload : TransactionPayload;
  invalidBit : option string }.

Definition MockTransaction : Transaction :=
  mkTransaction 0 0 true empty_rwset PENDING empty_payload None.

Definition setTransactionID (tid : N) (t : Transaction) : Transaction :=
  mkTransaction (tr_epoch t) tid (readOnlyFlag t) (kvRWSet t) (transactionResult t)
    (transactionPayload t) (invalidBit t).
Definition setReadOnly (flag : bool) (t : Transaction) : Transaction :=
  mkTransaction (tr_epoch t) (tr_tid t) flag (kvRWSet t) (transactionResult t)
    (transactionPayload t) (invalidBit t).
Definition setEpoch (e : N) (t : Transaction) : Transaction :=
  mkTransaction e (tr_tid t) (readOnlyFlag t) (kvRWSet t) (transactionResult t)
    (transactionPayload t) (invalidBit t).
Definition setTransactionResult (r : TransactionResult) (t : Transaction) : Transaction :=
  mkTransaction (tr_epoch t) (tr_tid t) (readOnlyFlag t) (kvRWSet t) r
    (transactionPayload t) (invalidBit t).
Definition setRWSet (rw : KVRWSet) (t : Transaction) : Transaction :=
  mkTransaction (tr_epoch t) (tr_tid t) (readOnlyFlag t) rw (transactionResult t)
    (transactionPayload t) (invalidBit t).
Definition setPayload (p : TransactionPayload) (t : Transaction) : Transaction :=
  mkTransaction (tr_epoch t) (tr_tid t) (readOnlyFlag t) (kvRWSet t) (transactionResult t)
    p (invalidBit t).
Definition setInvalidBit (ip : string) (t : Transaction) : Transaction :=
  mkTransaction (tr_epoch t) (tr_tid t) (readOnlyFlag t) (kvRWSet t) (transactionResult t)
    (transactionPayload t) (Some ip).

Definition resetTransaction (t : Transaction) : Transaction :=
  mkTransaction 0 (tr_tid t) (readOnlyFlag t) empty_rwset PENDING
    (transactionPayload t) (invalidBit t).
Definition resetRWSet (t : Transaction) : Transaction := setRWSet empty_rwset t.
Definition resetTransactionPayload (t : Transaction) : Transaction := setPayload empty_payload t.

(** The table of invalid bits: address to (first invalid epoch, invalid flag). *)
Definition isValid (bits : gmap string (N * bool)) (t : Transaction) : outcome bool :=
  match invalidBit t with
  | None => Ok true
  | Some ip =>
      '(first, flag) ← deref (bits !! ip);
      Ok (if negb flag then negb (N.leb first (tr_epoch t)) else true)
  end.
