(* ===== verification/TransactionCodec.v ===== *)
(** * The wire format of a transaction

    [MockTransaction::serializeToString] and its three companions.  The
    protobuf library (coded streams and the generated message classes) is a
    parameter: a class of operations with the laws its documentation gives,
    and an instance with base-128 varints that satisfies them.  A stream is
    the list of the bytes not yet read. *)
From S2P Require Import Prelude Sha256 Transaction.
From Stdlib Require Import NArith ZArith Lia.
From stdpp Require Import base list strings countable.

Local Open Scope N_scope.

(** ** Fields of type [string]

    The tables and keys of a read-write set are [string] fields of
    [kv_rwset.proto] (the values are [bytes]): a message with a [string] that is
    not UTF-8 is written but does not parse. *)
Definition continuation (b : N) : bool := (128 <=? b) && (b <=? 191).

(** The two first bytes of a character of three and of four bytes: no longer
    form than necessary, no surrogate, no code point above 0x10FFFF. *)
Definition starts_three (b c : N) : bool :=
  if b =? 224 then (160 <=? c) && (c <=? 191)
  else if b =? 237 then (128 <=? c) && (c <=? 159)
  else (225 <=? b) && (b <=? 239) && continuation c.
Definition starts_four (b c : N) : bool :=
  if b =? 240 then (144 <=? c) && (c <=? 191)
  else if b =? 244 then (128 <=? c) && (c <=? 143)
  else (241 <=? b) && (b <=? 243) && continuation c.

Fixpoint utf8 (l : list N) : bool :=
  match l with
  | [] => true
  | b :: l1 =>
      if b <? 128 then utf8 l1
      else match l1 with
           | [] => false
           | c :: l2 =>
               if (194 <=? b) && (b <=? 223) then continuation c && utf8 l2
               else match l2 with
                    | [] => false
                    | d :: l3 =>
                        if starts_three b c then continuation d && utf8 l3
                        else match l3 with
                             | [] => false
                             | e :: l4 => starts_four b c && continuation d && continuation e && utf8 l4
                             end
                    end
           end
  end.

Definition read_utf8 (r : KVRead) : bool := utf8 (bytes_of (rd_table r)) && utf8 (bytes_of (rd_key r)).
Definition write_utf8 (w : KVWrite) : bool := utf8 (bytes_of (wr_table w)) && utf8 (bytes_of (wr_key w)).
Definition rwset_utf8 (r : KVRWSet) : bool := forallb read_utf8 (reads r) && forallb write_utf8 (writes r).

Example utf8_accepts : utf8 [104; 195; 188; 226; 130; 172; 240; 159; 152; 128] = true.
Proof. reflexivity. Qed.
Example utf8_refuses :
  Forall (λ l, utf8 l = false) [[128]; [192; 128]; [237; 160; 128]; [244; 144; 128; 128]; [226; 130]; [255]].
Proof. repeat constructor. Qed.

(** What the code uses of [google::protobuf::io] and of the two messages. *)
Class Protobuf := {
  WriteVarint64 : N → list N;
  WriteVarint32 : N → list N;
  ReadVarint64 : list N → option (N * list N);
  ReadVarint32 : list N → option (N * list N);
  (** The size is an [int]. *)
  ReadString : Z → list N → option (list N * list N);
  payload_SerializeAsString : TransactionPayload → list N;
  payload_ParseFromString : list N → option TransactionPayload;
  rwset_SerializeAsString : KVRWSet → list N;
  rwset_ParseFromString : list N → option KVRWSet;
  (** What is in the message after a [ParseFromString] that failed. *)
  rwset_left : list N → KVRWSet }.

(** A message that is no longer than protobuf allows. *)
Definition message_fits (l : list N) : Prop := N.of_nat (length l) < 2 ^ 31.

Class ProtobufLaws `{Protobuf} : Prop := {
  varint64_bytes n : Forall (λ b, b < 256) (WriteVarint64 n);
  varint32_bytes n : Forall (λ b, b < 256) (WriteVarint32 n);
  varint64_read n s : n < 2 ^ 64 → ReadVarint64 (WriteVarint64 n ++ s) = Some (n, s);
  varint32_read n s : n < 2 ^ 32 → ReadVarint32 (WriteVarint32 n ++ s) = Some (n, s);
  (** A varint has one format, whatever the width it is read with. *)
  varint32_read_64 n s : n < 2 ^ 32 → ReadVarint64 (WriteVarint32 n ++ s) = Some (n, s);
  string_read l s :
    N.of_nat (length l) < 2 ^ 31 → ReadString (Z.of_nat (length l)) (l ++ s) = Some (l, s);
  payload_bytes p : Forall (λ b, b < 256) (payload_SerializeAsString p);
  (** The nonce is a [uint64], the other fields are [bytes]. *)
  payload_parse p :
    pl_nonce p < 2 ^ 64 → message_fits (payload_SerializeAsString p) →
    payload_ParseFromString (payload_SerializeAsString p) = Some p;
  rwset_bytes r : Forall (λ b, b < 256) (rwset_SerializeAsString r);
  rwset_parse r :
    rwset_utf8 r = true → message_fits (rwset_SerializeAsString r) →
    rwset_ParseFromString (rwset_SerializeAsString r) = Some r }.

(** [static_cast<TransactionResult>] of a [uint32_t].  A number that is no
    enumerator is outside the model. *)
Definition result_of_code (n : N) : outcome TransactionResult :=
  match n with
  | 0 => Ok COMMIT | 1 => Ok PENDING | 2 => Ok ABORT | 3 => Ok ABORT_NO_RETRY
  | _ => Fatal OutOfRange
  end.

Section Codec.
Context `{Protobuf}.

(** A [uint64_t] passed for the [int] size of [ReadString]. *)
Definition size_arg (n : N) : Z := to_int (Z.of_N n).

(** ** The whole transaction *)
Definition serialize_body (t : Transaction) : list N :=
  let payload := payload_SerializeAsString (transactionPayload t) in
  let rwSet := rwset_SerializeAsString (kvRWSet t) in
  WriteVarint64 (tr_tid t) ++ WriteVarint64 (tr_epoch t) ++
  WriteVarint32 (if readOnlyFlag t then 1 else 0) ++
  WriteVarint64 (N.of_nat (length payload)) ++ payload ++
  WriteVarint64 (N.of_nat (length rwSet)) ++ rwSet ++
  WriteVarint32 (result_code (transactionResult t)).

Definition serializeToString (t : Transaction) : bool * list N :=
  let raw := serialize_body t in
  let '(okay, hashResult, _) := sha_helper_hash raw [] SHA256Reset in
  if negb okay then (false, raw) else (true, raw ++ hashResult).

(** A read that fails returns [false] with the fields set so far. *)
Definition read_then {A} (r : option (A * list N)) (t : Transaction)
    (k : A → list N → outcome (bool * Transaction)) : outcome (bool * Transaction) :=
  match r with None => Ok (false, t) | Some (a, s) => k a s end.

Definition deserializeFromString (raw : list N) (t : Transaction) : outcome (bool * Transaction) :=
  read_then (ReadVarint64 raw) t (λ _tid s,
  let t := setTransactionID _tid t in
  read_then (ReadVarint64 s) t (λ _epoch s,
  let t := setEpoch _epoch t in
  read_then (ReadVarint32 s) t (λ flag s,
  let t := setReadOnly (negb (flag =? 0)) t in
  read_then (ReadVarint64 s) t (λ payloadSize s,
  read_then (ReadString (size_arg payloadSize) s) t (λ payloadString s,
  match payload_ParseFromString payloadString with
  | None => Fatal CheckFailed
  | Some p =>
  let t := setPayload p t in
  read_then (ReadVarint64 s) t (λ rwSetSize s,
  read_then (ReadString (size_arg rwSetSize) s) t (λ rwSetString s,
  match rwset_ParseFromString rwSetString with
  | None => Fatal CheckFailed
  | Some rw =>
  let t := setRWSet rw t in
  read_then (ReadVarint32 s) t (λ result s,
  r ← result_of_code result;
  let t := setTransactionResult r t in
  read_then (ReadString 32 s) t (λ transactionHash _, Ok (true, t)))
  end))
  end))))).

(** ** The result *)
Definition set_digest (d : string) (t : Transaction) : Transaction :=
  let p := transactionPayload t in
  setPayload (mkPayload (pl_header p) (pl_payload p) (pl_nonce p) d) t.

Definition serializeResultToString (t : Transaction) : bool * list N :=
  let digest := bytes_of (pl_digest (transactionPayload t)) in
  (true,
   WriteVarint64 (tr_tid t) ++ WriteVarint64 (tr_epoch t) ++
   WriteVarint64 (N.of_nat (length digest)) ++ digest ++
   WriteVarint32 (result_code (transactionResult t))).

(** The fields that are read, and the number of the result when the whole
    string could be read. *)
Definition read_or {A B} (r : option (A * list N)) (b : B) (k : A → list N → B) : B :=
  match r with None => b | Some (a, s) => k a s end.

Definition result_fields (raw : list N) (t : Transaction) : Transaction * option N :=
  read_or (ReadVarint64 raw) (t, None) (λ _tid s,
  let t := setTransactionID _tid t in
  read_or (ReadVarint64 s) (t, None) (λ _epoch s,
  let t := setEpoch _epoch t in
  read_or (ReadVarint64 s) (t, None) (λ digestSize s,
  read_or (ReadString (size_arg digestSize) s) (t, None) (λ digest s,
  let t := set_digest (of_bytes digest) t in
  read_or (ReadVarint32 s) (t, None) (λ result s, (t, Some result)))))).

Definition deserializeResultFromString (raw : list N) (t : Transaction)
    : outcome (bool * Transaction) :=
  match result_fields raw t with
  | (t, None) => Ok (false, t)
  | (t, Some result) => r ← result_of_code result; Ok (true, setTransactionResult r t)
  end.

End Codec.

(** ** Round trips *)
Section RoundTrip.
Context `{ProtobufLaws}.

Lemma size_arg_small n : n < 2 ^ 31 → size_arg n = Z.of_N n.
Proof.
  intros Hn. apply to_int_id, fits_int_spec. unfold INT_MIN, INT_MAX. lia.
Qed.

Lemma read_string_arg l s :
  N.of_nat (length l) < 2 ^ 31 →
  ReadString (size_arg (N.of_nat (length l))) (l ++ s) = Some (l, s).
Proof. intros Hl. rewrite size_arg_small, nat_N_Z by done. by apply string_read. Qed.

Lemma result_of_result_code r : result_of_code (result_code r) = Ok r.
Proof. by destruct r. Qed.

Lemma result_code_small r : result_code r < 2 ^ 32.
Proof. by destruct r. Qed.

(** The numbers of a transaction fit their types, its messages are shorter than
    2 GiB, the limit of protobuf, and the tables and keys of its read-write set
    are UTF-8. *)
Record wire_ok (t : Transaction) : Prop := {
  wo_tid : tr_tid t < 2 ^ 64;
  wo_epoch : tr_epoch t < 2 ^ 64;
  wo_nonce : pl_nonce (transactionPayload t) < 2 ^ 64;
  wo_payload : message_fits (payload_SerializeAsString (transactionPayload t));
  wo_rwset : message_fits (rwset_SerializeAsString (kvRWSet t));
  wo_utf8 : rwset_utf8 (kvRWSet t) = true;
  wo_digest : N.of_nat (length (bytes_of (pl_digest (transactionPayload t)))) < 2 ^ 31;
  wo_body : N.of_nat (length (serialize_body t)) < 2 ^ 32 }.

Lemma body_bytes t : Forall (λ b, b < 256) (serialize_body t).
Proof.
  unfold serialize_body. rewrite !Forall_app. split_and!;
    first [apply varint64_bytes | apply varint32_bytes | apply payload_bytes | apply rwset_bytes].
Qed.

Lemma serialize_ok t :
  wire_ok t → serializeToString t = (true, serialize_body t ++ sha256 (serialize_body t)).
Proof.
  intros Ht. unfold serializeToString, sha_helper_hash, sha_helper_append.
  destruct (SHA256Input_absorbed (serialize_body t) [] SHA256Reset reset_absorbed (body_bytes t))
    as (c & -> & Hc).
  - apply Ht.
  - pose proof (wo_body t Ht). simpl. lia.
  - cbn [is_success]. by rewrite (execute_hash_absorbed _ _ Hc).
Qed.

Lemma deserialize_body t t0 h :
  wire_ok t → length h = 32%nat →
  deserializeFromString (serialize_body t ++ h) t0 =
    Ok (true, mkTransaction (tr_epoch t) (tr_tid t) (readOnlyFlag t) (kvRWSet t)
                (transactionResult t) (transactionPayload t) (invalidBit t0)).
Proof.
  intros [H1 H2 Hn H3 H4 Hu _ _] Hh. unfold message_fits in *. unfold deserializeFromString, serialize_body. rewrite <-!app_assoc.
  rewrite varint64_read by done. cbn [read_then].
  rewrite varint64_read by done. cbn [read_then].
  rewrite varint32_read by (by destruct (readOnlyFlag t)). cbn [read_then].
  rewrite varint64_read by lia. cbn [read_then].
  rewrite read_string_arg by done. cbn [read_then]. rewrite payload_parse by done.
  rewrite varint64_read by lia. cbn [read_then].
  rewrite read_string_arg by done. cbn [read_then]. rewrite rwset_parse by done.
  rewrite varint32_read by apply result_code_small. cbn [read_then].
  rewrite result_of_result_code. cbn [mbind outcome_bind].
  rewrite <-(app_nil_r h). replace 32%Z with (Z.of_nat (length h)) by (by rewrite Hh).
  rewrite string_read by (by rewrite Hh). cbn [read_then].
  by destruct (readOnlyFlag t), t0.
Qed.

(** C37: a transaction survives serialisation, if its numbers and messages fit
    and the tables and keys of its read-write set are UTF-8 ([wire_ok]; with
    another string the read-write set does not parse and the receiver stops,
    [not_utf8_stops]).  [serializeToString] succeeds and ends with the
    SHA-256 digest of what precedes it; deserialising the string into any
    transaction object gives back id, epoch, read-only flag, payload, read-write
    set and result and keeps the object's validity pointer.  The digest is read
    but not compared: any other 32 bytes in its place give the same
    transaction. *)
Theorem transaction_round_trip t t0 :
  wire_ok t →
  ∃ body, serializeToString t = (true, body ++ sha256 body) ∧
    ∀ h, length h = 32%nat →
      deserializeFromString (body ++ h) t0 =
        Ok (true, mkTransaction (tr_epoch t) (tr_tid t) (readOnlyFlag t) (kvRWSet t)
                    (transactionResult t) (transactionPayload t) (invalidBit t0)).
Proof.
  intros Ht. exists (serialize_body t). split; [by apply serialize_ok|].
  intros h Hh. by apply deserialize_body.
Qed.

(** A read-write set that does not parse stops the receiver. *)
Lemma not_utf8_stops t t0 h :
  tr_tid t < 2 ^ 64 → tr_epoch t < 2 ^ 64 → pl_nonce (transactionPayload t) < 2 ^ 64 →
  message_fits (payload_SerializeAsString (transactionPayload t)) →
  message_fits (rwset_SerializeAsString (kvRWSet t)) →
  rwset_ParseFromString (rwset_SerializeAsString (kvRWSet t)) = None →
  deserializeFromString (serialize_body t ++ h) t0 = Fatal CheckFailed.
Proof.
  intros H1 H2 Hn H3 H4 Hp. unfold message_fits in *. unfold deserializeFromString, serialize_body.
  rewrite <-!app_assoc.
  rewrite varint64_read by done. cbn [read_then].
  rewrite varint64_read by done. cbn [read_then].
  rewrite varint32_read by (by destruct (readOnlyFlag t)). cbn [read_then].
  rewrite varint64_read by lia. cbn [read_then].
  rewrite read_string_arg by done. cbn [read_then]. rewrite payload_parse by done.
  rewrite varint64_read by lia. cbn [read_then].
  rewrite read_string_arg by done. cbn [read_then]. by rewrite Hp.
Qed.

Lemma result_fields_ok t t0 :
  wire_ok t →
  result_fields (serializeResultToString t).2 t0 =
    (set_digest (pl_digest (transactionPayload t)) (setEpoch (tr_epoch t) (setTransactionID (tr_tid t) t0)),
     Some (result_code (transactionResult t))).
Proof.
  intros [H1 H2 _ _ _ _ H5 _]. unfold result_fields, serializeResultToString.
  cbn [snd]. rewrite varint64_read by done. cbn [read_or].
  rewrite varint64_read by done. cbn [read_or].
  rewrite varint64_read by lia. cbn [read_or].
  rewrite read_string_arg by done. cbn [read_or].
  rewrite <-(app_nil_r (WriteVarint32 _)), varint32_read by apply result_code_small. cbn [read_or].
  by rewrite of_bytes_of.
Qed.

(** the result of a transaction survives serialisation: id, epoch, digest and
    result come back, and the rest of the receiving object is untouched. *)
Theorem result_round_trip t t0 :
  wire_ok t →
  (serializeResultToString t).1 = true ∧
  deserializeResultFromString (serializeResultToString t).2 t0 =
    Ok (true, mkTransaction (tr_epoch t) (tr_tid t) (readOnlyFlag t0) (kvRWSet t0)
                (transactionResult t)
                (mkPayload (pl_header (transactionPayload t0)) (pl_payload (transactionPayload t0))
                   (pl_nonce (transactionPayload t0)) (pl_digest (transactionPayload t)))
                (invalidBit t0)).
Proof.
  intros Ht. split; [done|]. unfold deserializeResultFromString. rewrite result_fields_ok by done.
  rewrite result_of_result_code. cbn [mbind outcome_bind]. by destruct t0.
Qed.

End RoundTrip.

(** ** An instance

    Base-128 varints, least significant group first, and messages encoded as
    the bits of a number. *)
Module Varint.

Fixpoint write_var (fuel : nat) (n : N) : list N :=
  match fuel with
  | O => []
  | S fuel' => if n <? 128 then [n] else (n mod 128 + 128) :: write_var fuel' (n / 128)
  end.

Fixpoint read_var (fuel : nat) (s : list N) : option (N * list N) :=
  match fuel, s with
  | S fuel', b :: s' =>
      if b <? 128 then Some (b, s')
      else '(r, s'') ← read_var fuel' s'; Some (b - 128 + 128 * r, s'')
  | _, _ => None
  end.

Lemma read_write_var fuel fuel' n s :
  (0 < fuel ≤ fuel')%nat → n < 128 ^ N.of_nat fuel →
  read_var fuel' (write_var fuel n ++ s) = Some (n, s).
Proof.
  revert fuel' n. induction fuel as [|fuel IH]; intros fuel' n Hf Hn; [lia|].
  destruct fuel' as [|fuel']; [lia|].
  cbn [write_var]. pose proof (N.div_mod n 128 ltac:(done)) as Hd.
  pose proof (N.mod_lt n 128 ltac:(done)) as Hm.
  destruct (N.ltb_spec n 128) as [Hlt|Hge]; cbn [app read_var].
  - by rewrite (proj2 (N.ltb_lt _ _) Hlt).
  - rewrite (proj2 (N.ltb_ge (n mod 128 + 128) 128)) by apply N.le_add_l. rewrite IH.
    + cbn [mbind option_bind]. replace (n mod 128 + 128 - 128 + 128 * (n / 128)) with n; [done|].
      set (q := n / 128) in *. set (r := n mod 128) in *. clear Hn. clearbody q r. lia.
    + destruct fuel; [|lia]. change (128 ^ N.of_nat 1) with 128 in Hn. lia.
    + rewrite Nat2N.inj_succ, N.pow_succ_r' in Hn. by apply N.Div0.div_lt_upper_bound.
Qed.

Lemma write_var_bytes fuel n : Forall (λ b, b < 256) (write_var fuel n).
Proof.
  revert n. induction fuel as [|fuel IH]; intros n; cbn [write_var]; [constructor|].
  pose proof (N.mod_lt n 128 ltac:(done)). destruct (N.ltb_spec n 128); constructor; try lia; [constructor|].
  apply IH.
Qed.

Fixpoint bits_of (p : positive) : list N :=
  match p with xH => [] | xO p => 0 :: bits_of p | xI p => 1 :: bits_of p end.
Fixpoint of_bits (l : list N) : positive :=
  match l with [] => xH | 0 :: l => xO (of_bits l) | _ :: l => xI (of_bits l) end.

Lemma of_bits_of p : of_bits (bits_of p) = p.
Proof. induction p; simpl; congruence. Qed.

Lemma bits_of_bytes p : Forall (λ b, b < 256) (bits_of p).
Proof. induction p; simpl; constructor; done. Qed.

#[local] Instance KVRead_countable : Countable KVRead.
Proof.
  refine (inj_countable' (λ r, (rd_table r, rd_key r, rd_value r))
    (λ '(a, b, c), mkRead a b c) _). by intros [].
Defined.
#[local] Instance KVWrite_countable : Countable KVWrite.
Proof.
  refine (inj_countable' (λ w, (wr_table w, wr_key w, wr_value w, wr_is_delete w))
    (λ '(a, b, c, d), mkWrite a b c d) _). by intros [].
Defined.
#[local] Instance KVRWSet_countable : Countable KVRWSet.
Proof.
  refine (inj_countable' (λ r, (reads r, writes r)) (λ '(a, b), mkRWSet a b) _). by intros [].
Defined.
#[local] Instance TransactionPayload_eq_dec : EqDecision TransactionPayload.
Proof. solve_decision. Defined.
#[local] Instance TransactionPayload_countable : Countable TransactionPayload.
Proof.
  refine (inj_countable' (λ p, (pl_header p, pl_payload p, pl_nonce p, pl_digest p))
    (λ '(a, b, c, d), mkPayload a b c d) _). by intros [].
Defined.

Definition read_string (size : Z) (s : list N) : option (list N * list N) :=
  if (size <? 0)%Z || (Z.of_nat (length s) <? size)%Z then None
  else Some (take (Z.to_nat size) s, drop (Z.to_nat size) s).

#[local] Instance varint_protobuf : Protobuf := {|
  WriteVarint64 := write_var 10;
  WriteVarint32 := write_var 5;
  ReadVarint64 := read_var 10;
  ReadVarint32 := read_var 5;
  ReadString := read_string;
  payload_SerializeAsString p := bits_of (encode p);
  payload_ParseFromString l := decode (of_bits l);
  rwset_SerializeAsString r := bits_of (encode r);
  rwset_ParseFromString l := r ← decode (of_bits l); if rwset_utf8 r then Some r else None;
  rwset_left _ := empty_rwset |}.

#[local] Instance varint_laws : ProtobufLaws.
Proof.
  split.
  - apply write_var_bytes.
  - apply write_var_bytes.
  - intros n s Hn. apply read_write_var; [lia|]. etrans; [exact Hn|done].
  - intros n s Hn. apply read_write_var; [lia|]. etrans; [exact Hn|done].
  - intros n s Hn. apply read_write_var; [lia|]. etrans; [exact Hn|done].
  - intros l s Hl. simpl. unfold read_string.
    rewrite (proj2 (Z.ltb_ge _ _)) by lia. rewrite (proj2 (Z.ltb_ge _ _)) by (rewrite length_app; lia).
    cbn [orb]. rewrite Nat2Z.id, take_app_length, drop_app_length. done.
  - intros p. apply bits_of_bytes.
  - intros p _ _. simpl. rewrite of_bits_of. apply decode_encode.
  - intros r. apply bits_of_bytes.
  - intros r Hr _. simpl. rewrite of_bits_of, decode_encode. simpl. by rewrite Hr.
Qed.

Definition demo_txn : Transaction :=
  mkTransaction 7 300 false (mkRWSet [mkRead "t" "k" "v"] [mkWrite "t" "k" "w" false]) COMMIT
    (mkPayload "hd" "pl" 5 "dg") None.

Lemma demo_wire_ok : wire_ok demo_txn.
Proof. split; vm_compute; reflexivity. Qed.

Lemma transaction_round_trip_witness :
  ∃ body, serializeToString demo_txn = (true, body ++ sha256 body) ∧
    ∀ h, length h = 32%nat → deserializeFromString (body ++ h) MockTransaction = Ok (true, demo_txn).
Proof. apply (transaction_round_trip demo_txn MockTransaction). exact demo_wire_ok. Defined.

(** A write whose key is the byte 0xFF. *)
Example not_utf8_stopped :
  let t := setRWSet (mkRWSet [] [mkWrite "t" (of_bytes [255]) "w" false]) demo_txn in
  deserializeFromString (serializeToString t).2 MockTransaction = Fatal CheckFailed.
Proof. vm_compute. reflexivity. Qed.

Lemma result_round_trip_witness :
  deserializeResultFromString (serializeResultToString demo_txn).2 MockTransaction =
    Ok (true, mkTransaction 7 300 true empty_rwset COMMIT (mkPayload "" "" 0 "dg") None).
Proof. apply (result_round_trip demo_txn MockTransaction). exact demo_wire_ok. Defined.

End Varint.
