(* ===== verification/BlockGenerator.v ===== *)
(** * The block generator

    [block_generator.cpp] and [block_generator_impl.cpp].  The transactions of a
    finished epoch wait in a priority queue; [generateBlock] hands them to a
    thread pool whose workers build block bodies (serialised transactions,
    their results, the Merkle root and its signature), and one thread adds the
    headers in order and appends the blocks to the storage.  A task of the pool
    can finish at any time, so the generator is a step relation.

    A transaction no longer changes when it is queued, so the queue holds
    transactions by value.  The RSA signature is a parameter. *)
From S2P Require Import Prelude Sha256 MerkleTree LruCache Transaction TransactionCodec BlockStorage.
From Stdlib Require Import NArith Lia.
From stdpp Require Import base list gmap sorting strings.

Local Open Scope N_scope.
#[local] Arguments sha256 : simpl never.
#[local] Arguments mt_add : simpl never.
#[local] Arguments mt_get_root : simpl never.

(** ** The pending queue

    [std::priority_queue] with the smaller id ordered first: the top is a
    transaction with the largest id.  The list is in the order of the pops. *)
Fixpoint pq_push (t : Transaction) (q : list Transaction) : list Transaction :=
  match q with
  | [] => [t]
  | t' :: q' => if tr_tid t' <? tr_tid t then t :: t' :: q' else t' :: pq_push t q'
  end.

Record BlockGenerator (S : Type) := mkGen {
  storage : S;
  pendingTransactionQueue : list Transaction;
  (** The static of [generateBlock], set by its first call. *)
  currentBlockEpoch : option N;
  (** Tasks handed to the thread pool and not finished. *)
  tasks : list (N * list Transaction);
  blockBuffer : gmap N Block;
  partialBlockBuffer : gmap N Block;
  partialEpoch : N;
  (** The local variable of [run] and the static of [generateBlockHeader]. *)
  headerEpoch : N;
  previousDataHash : list N;
  blockCache : Cache N Block;
  (** The queue of the broadcaster. *)
  verifyBuffer : list Block }.
Arguments mkGen {_} _ _ _ _ _ _ _ _ _ _ _.
Arguments storage {_} _. Arguments pendingTransactionQueue {_} _.
Arguments currentBlockEpoch {_} _. Arguments tasks {_} _.
Arguments blockBuffer {_} _. Arguments partialBlockBuffer {_} _.
Arguments partialEpoch {_} _. Arguments headerEpoch {_} _. Arguments previousDataHash {_} _.
Arguments blockCache {_} _. Arguments verifyBuffer {_} _.

(** The fields of a generator that was just built. *)
Ltac gen_fields :=
  cbn [mbind outcome_bind CHECK fst snd storage pendingTransactionQueue currentBlockEpoch tasks
       blockBuffer partialBlockBuffer partialEpoch headerEpoch previousDataHash blockCache
       verifyBuffer].

Section Generator.
Context `{Protobuf} `{BlockProto} {S : Type} `{BlockStorage S}.
Context (debug : bool) (rsaEncrypt : list N → option (list N)).
Local Notation gen := (BlockGenerator S).

(** A process that starts on a storage. *)
Definition new_BlockGenerator (s : S) : gen :=
  mkGen s [] None [] ∅ ∅ 0 (getLatestSavedEpoch s) [] (new_Cache 100 10) [].

Definition addCommittedTransaction (t : Transaction) (g : gen) : gen :=
  mkGen (storage g) (pq_push t (pendingTransactionQueue g)) (currentBlockEpoch g) (tasks g)
    (blockBuffer g) (partialBlockBuffer g) (partialEpoch g) (headerEpoch g) (previousDataHash g)
    (blockCache g) (verifyBuffer g).

(** [getPendingTransactionQueue]: the queue, replaced by an empty one. *)
Definition getPendingTransactionQueue (g : gen) : list Transaction * gen :=
  (pendingTransactionQueue g,
   mkGen (storage g) [] (currentBlockEpoch g) (tasks g) (blockBuffer g) (partialBlockBuffer g)
     (partialEpoch g) (headerEpoch g) (previousDataHash g) (blockCache g) (verifyBuffer g)).

Definition generateBlock (g : gen) : gen :=
  let epoch := default (getLatestSavedEpoch (storage g)) (currentBlockEpoch g) + 1 in
  let '(transactions, g) := getPendingTransactionQueue g in
  mkGen (storage g) (pendingTransactionQueue g) (Some epoch) (tasks g ++ [(epoch, transactions)])
    (blockBuffer g) (partialBlockBuffer g) (partialEpoch g) (headerEpoch g) (previousDataHash g)
    (blockCache g) (verifyBuffer g).

(** ** The body *)
Definition serialize_checked (f : Transaction → bool * list N) (t : Transaction)
    : outcome (list N) := CHECK (f t).1;; Ok (f t).2.

Fixpoint mapM_out {A B} (f : A → outcome B) (l : list A) : outcome (list B) :=
  match l with [] => Ok [] | a :: l' => b ← f a; bs ← mapM_out f l'; Ok (b :: bs) end.

(** One leaf: the digest of a serialised transaction; the result of [hash] is
    not looked at. *)
Definition add_leaf (data : list N) (st : list N * mt_t) : outcome (list N * mt_t) :=
  let '(_, digest, _) := sha_helper_hash data st.1 SHA256Reset in
  r ← mt_add debug digest st.2;
  CHECK (ok r.1);; Ok (digest, r.2).

Definition merkle_of (datas : list (list N)) : outcome (list N) :=
  st ← foldM add_leaf datas ([], mt_create);
  r ← mt_get_root debug st.2;
  CHECK (ok r.1);; Ok r.2.

Definition partial_block (epoch : N) (q : list Transaction) : outcome Block :=
  data ← mapM_out (serialize_checked serializeResultToString) q;
  Ok (mkBlock epoch [] [] data []).

(** [metadata[0]] holds the results, [metadata[1]] the Merkle root and
    [metadata[2]] its signature. *)
Definition block_body (q : list Transaction) : outcome Block :=
  data ← mapM_out (serialize_checked serializeToString) q;
  let meta := result_code ∘ transactionResult <$> q in
  root ← merkle_of data;
  signature ← match rsaEncrypt root with Some s => Ok s | None => Fatal CheckFailed end;
  Ok (mkBlock 0 [] [] data [meta; root; signature]).

Definition evict_partial (epoch : N) (m : gmap N Block) : gmap N Block :=
  if 100 <? epoch then delete (epoch - 100) m else m.

Definition generateBlockBody (epoch : N) (q : list Transaction) (g : gen) : outcome (Block * gen) :=
  p ← partial_block epoch q;
  b ← block_body q;
  Ok (b, mkGen (storage g) (pendingTransactionQueue g) (currentBlockEpoch g) (tasks g)
           (blockBuffer g) (evict_partial epoch (<[epoch := p]> (partialBlockBuffer g))) epoch
           (headerEpoch g) (previousDataHash g) (blockCache g) (verifyBuffer g)).

(** A worker of the pool finishes task [i]. *)
Definition finish_task (i : nat) (g : gen) : outcome gen :=
  match tasks g !! i with
  | None => Ok g
  | Some (epoch, q) =>
      r ← generateBlockBody epoch q g;
      let '(b, g) := r in
      Ok (mkGen (storage g) (pendingTransactionQueue g) (currentBlockEpoch g) (delete i (tasks g))
            (<[epoch := b]> (blockBuffer g)) (partialBlockBuffer g) (partialEpoch g) (headerEpoch g)
            (previousDataHash g) (blockCache g) (verifyBuffer g))
  end.

(** ** The header *)

(** [metadata(i)]. *)
Definition metadata (b : Block) (i : nat) : outcome (list N) := at_index (b_metadata b) i.

(** [append] of the results and of the root, then [execute]. *)
Definition header_hash (c : SHA256Context) (meta root : list N) : bool * list N :=
  let '(ok1, c) := sha_helper_append meta c in
  let '(ok2, c) := sha_helper_append root c in
  let '(ok3, digest, _) := sha_helper_execute c in
  (ok1 && ok2 && ok3, digest).

Definition generateBlockHeader (b : Block) (g : gen) : outcome (bool * Block * gen) :=
  meta ← metadata b 0; root ← metadata b 1;
  let '(okay, hashResult) := header_hash SHA256Reset meta root in
  if negb okay then Ok (false, b, g)
  else
    let last_epoch := getLatestSavedEpoch (storage g) in
    let b := mkBlock (last_epoch + 1) (b_previous_hash b) hashResult (b_data b) (b_metadata b) in
    b ← (if 0 <? last_epoch then
           p ← loadBlock last_epoch (storage g);
           match p with
           | None => Fatal CheckFailed
           | Some previous =>
               CHECK (bool_decide (b_data_hash previous = previousDataHash g));;
               Ok (mkBlock (b_number b) (previousDataHash g) (b_data_hash b) (b_data b) (b_metadata b))
           end
         else Ok b);
    Ok (true, b, mkGen (storage g) (pendingTransactionQueue g) (currentBlockEpoch g) (tasks g)
                   (blockBuffer g) (partialBlockBuffer g) (partialEpoch g) (headerEpoch g) hashResult
                   (blockCache g) (verifyBuffer g)).

(** One round of [run]; [None] while the body of the next block is missing. *)
Definition run_round (g : gen) : option (outcome gen) :=
  let epoch := headerEpoch g + 1 in
  match blockBuffer g !! epoch with
  | None => None
  | Some b => Some (
      r ← generateBlockHeader b
            (mkGen (storage g) (pendingTransactionQueue g) (currentBlockEpoch g) (tasks g)
               (delete epoch (blockBuffer g)) (partialBlockBuffer g) (partialEpoch g) epoch
               (previousDataHash g) (blockCache g) (verifyBuffer g));
      let '(okay, b, g) := r in
      CHECK okay;;
      a ← appendBlock b (storage g);
      CHECK a.1;;
      Ok (mkGen a.2 (pendingTransactionQueue g) (currentBlockEpoch g) (tasks g) (blockBuffer g)
            (partialBlockBuffer g) (partialEpoch g) (headerEpoch g) (previousDataHash g)
            (blockCache g) (verifyBuffer g ++ [b])))
  end.

(** ** Reading blocks *)

(** A signature that does not verify ends in a failed [CHECK]. *)
Definition signatureValidate (rsaDecrypt : list N → list N → bool) (b : Block) (signature : list N)
    (skipVerify : bool) : outcome bool :=
  root ← (if skipVerify then metadata b 1
          else root ← merkle_of (b_data b); m ← metadata b 1; CHECK (bool_decide (root = m));; Ok root);
  if rsaDecrypt root signature then Ok true else Fatal CheckFailed.

Definition deserializeBlock (rsaDecrypt : list N → list N → bool) (epoch : N) (verify validate : bool)
    (g : gen) : outcome (option Block) :=
  p ← loadBlock epoch (storage g);
  match p with
  | None => Ok None
  | Some b =>
      okay ← (if verify then
                let '(ok1, c) := sha_helper_start (data_SerializeAsString (b_data b)) SHA256Reset in
                meta ← metadata b 0; root ← metadata b 1;
                let '(ok2, hashResult) := header_hash c meta root in
                Ok (ok1 && ok2 && bool_decide (hashResult = b_data_hash b)
                    && (3 <=? length (b_metadata b))%nat)
              else Ok true);
      if negb okay then Ok None
      else if validate then
        signature ← metadata b 2;
        r ← signatureValidate rsaDecrypt b signature true;
        Ok (if r : bool then Some b else None)
      else Ok (Some b)
  end.

(** The callback of the broadcaster for a signature of another server; it
    waits until the block is stored. *)
Definition signatureVerifyCallback (localDecrypt : list N → list N → bool)
    (rsaDecrypt : string → list N → list N → bool) (epoch : N) (ip : string) (signature : list N)
    (g : gen) : option (outcome (bool * gen)) :=
  if getLatestSavedEpoch (storage g) <? epoch then None
  else Some (
    r ← tryGet epoch (blockCache g);
    bc ← match r with
         | (Some b, c) => Ok (b, c)
         | (None, c) =>
             p ← deserializeBlock localDecrypt epoch false false g;
             match p with
             | None => Fatal CheckFailed
             | Some b => c ← lru_insert epoch b c; Ok (b, c)
             end
         end;
    okay ← signatureValidate (rsaDecrypt ip) bc.1 signature true;
    Ok (okay, mkGen (storage g) (pendingTransactionQueue g) (currentBlockEpoch g) (tasks g)
                (blockBuffer g) (partialBlockBuffer g) (partialEpoch g) (headerEpoch g)
                (previousDataHash g) bc.2 (verifyBuffer g))).

Definition getPartialConstructedBlock (blockNum : N) (g : gen) : option (list N) :=
  block_Serialize <$> partialBlockBuffer g !! blockNum.
Definition getPartialConstructedLatestEpoch (g : gen) : N := partialEpoch g.

(** [BlockGenerator::loadBlock] to a string. *)
Definition loadBlock_string (blockNum : N) (g : gen) : outcome (option (list N)) :=
  p ← loadBlock blockNum (storage g); Ok (option_map block_Serialize p).

End Generator.

(** ** Hashes of a block *)
Section Hashes.
Context (debug : bool).
#[local] Opaque sha256.

Definition bytes (l : list N) : Prop := Forall (λ b, b < 256) l ∧ N.of_nat (length l) < 2 ^ 32.

Lemma header_hash_ok prefix c meta root :
  ctx_absorbed prefix c → N.of_nat (length prefix) < 2 ^ 32 → bytes meta → bytes root →
  header_hash c meta root = (true, sha256 (prefix ++ meta ++ root)).
Proof.
  intros Hc Hp Hm Hr.
  destruct (append_all_absorbed [meta; root] prefix c Hc) as (c' & E & Hc').
  { constructor; [exact Hm|]. constructor; [exact Hr|]. constructor. }
  { destruct Hm as [_ Hm], Hr as [_ Hr]. cbn [concat]. rewrite !length_app. cbn [length]. lia. }
  cbn [append_all] in E. unfold header_hash.
  destruct (sha_helper_append meta c) as [[] c2]; [|done].
  destruct (sha_helper_append root c2) as [[] c3]; [|done]. injection E as ->.
  rewrite (execute_hash_absorbed _ _ Hc'). cbn [andb concat app]. by rewrite app_nil_r.
Qed.

Lemma sha_helper_hash_ok data digest c :
  bytes data → sha_helper_hash data digest c = (true, sha256 data, SHA256Reset).
Proof.
  intros [Hb Hl]. unfold sha_helper_hash, sha_helper_append.
  destruct (SHA256Input_absorbed data [] SHA256Reset reset_absorbed Hb Hl) as (c1 & -> & Hc1);
    [simpl; lia|]. by rewrite (execute_hash_absorbed _ _ Hc1).
Qed.

Lemma hash_bytes (h : list N) : hash_ok h → bytes h.
Proof. intros [Hl Hb]. split; [exact Hb|]. by rewrite Hl. Qed.

Lemma sha256_bytes l : bytes (sha256 l).
Proof. apply hash_bytes, sha256_ok. Qed.

Lemma init_hash_full h : hash_ok h → mt_init_hash h = h.
Proof. intros [Hl _]. unfold mt_init_hash. rewrite Hl, Nat.sub_diag. apply app_nil_r. Qed.

Lemma add_leaf_ok d digest xs mt :
  bytes d → tree_ok xs mt → Forall hash_ok xs → (length xs + 1 < 2 ^ 19)%nat →
  ∃ mt', add_leaf debug d (digest, mt) = Ok (sha256 d, mt') ∧ tree_ok (xs ++ [sha256 d]) mt'.
Proof.
  intros Hd Hmt Hok Hn. unfold add_leaf. cbn [fst snd]. rewrite sha_helper_hash_ok by done.
  pose proof (sha256_ok d) as Hh.
  destruct (mt_add_ok debug (sha256 d) xs mt Hmt) as (mt1 & -> & H1).
  - rewrite init_hash_full by done. apply Forall_app. split; [done|].
    constructor; [done|constructor].
  - destruct Hh as [-> _]. done.
  - exact Hn.
  - rewrite init_hash_full in H1 by done. by exists mt1.
Qed.

Lemma add_leaves datas digest xs mt :
  Forall bytes datas → tree_ok xs mt → Forall hash_ok xs →
  (length xs + length datas < 2 ^ 19)%nat →
  ∃ digest' mt', foldM (add_leaf debug) datas (digest, mt) = Ok (digest', mt') ∧
    tree_ok (xs ++ (sha256 <$> datas)) mt'.
Proof.
  revert digest xs mt. induction datas as [|d ds IH]; intros digest xs mt Hd Hmt Hok Hn.
  { exists digest, mt. split; [done|]. by rewrite app_nil_r. }
  apply Forall_cons in Hd as [Hd Hds]. cbn [foldM length] in *.
  destruct (add_leaf_ok d digest xs mt Hd Hmt Hok) as (mt1 & -> & H1); [lia|].
  rewrite fmap_cons, (cons_middle (sha256 d) xs), app_assoc. cbn [mbind outcome_bind].
  apply IH; [done|done| |].
  - apply Forall_app. split; [done|]. constructor; [apply sha256_ok|constructor].
  - rewrite length_app, <-Nat.add_assoc. exact Hn.
Qed.

Lemma merkle_of_ok datas :
  Forall bytes datas → datas ≠ [] → (length datas ≤ 2 ^ 18)%nat →
  merkle_of debug datas = Ok (mroot (sha256 <$> datas)).
Proof.
  intros Hd Hne Hn. unfold merkle_of.
  assert (2 ^ 18 < 2 ^ 19)%nat as H19 by (apply Nat.pow_lt_mono_r; lia).
  destruct (add_leaves datas [] [] mt_create Hd mt_create_ok) as (d & mt & E & Hmt);
    [constructor|exact (Nat.le_lt_trans _ _ _ Hn H19)|].
  rewrite E. cbn [mbind outcome_bind snd]. rewrite app_nil_l in Hmt.
  rewrite (mt_get_root_ok debug (sha256 <$> datas) mt Hmt); [done| |].
  - by destruct datas.
  - rewrite length_fmap. exact Hn.
Qed.

Lemma mroot_bytes datas : datas ≠ [] → bytes (mroot (sha256 <$> datas)).
Proof.
  intros Hne. apply hash_bytes, node_ok; [by destruct datas|].
  apply Forall_fmap, Forall_true. apply sha256_ok.
Qed.

End Hashes.

(** ** The queue is sorted *)
Definition newest_first (t t' : Transaction) : Prop := tr_tid t' ≤ tr_tid t.

Lemma pq_push_perm t q : pq_push t q ≡ₚ t :: q.
Proof.
  induction q as [|t' q IH]; simpl; [done|]. destruct (_ <? _); [done|].
  rewrite IH. by apply Permutation_swap.
Qed.

Lemma pq_push_sorted t q :
  StronglySorted newest_first q → StronglySorted newest_first (pq_push t q).
Proof.
  induction 1 as [|t' q Hq IH Hall]; simpl; [by repeat constructor|].
  destruct (N.ltb_spec (tr_tid t') (tr_tid t)) as [Hlt|Hge].
  - constructor; [by constructor|]. constructor; [unfold newest_first; lia|].
    eapply Forall_impl; [exact Hall|]. unfold newest_first. intros x Hx. lia.
  - constructor; [done|]. rewrite pq_push_perm. by constructor.
Qed.

(** The queue after a batch of [addCommittedTransaction] calls. *)
Definition pq_of (batch : list Transaction) : list Transaction := foldl (flip pq_push) [] batch.

Lemma pq_of_snoc batch t : pq_of (batch ++ [t]) = pq_push t (pq_of batch).
Proof. unfold pq_of. by rewrite foldl_app. Qed.

Lemma pq_of_perm batch : pq_of batch ≡ₚ batch.
Proof.
  induction batch as [|t batch IH] using rev_ind; [done|].
  rewrite pq_of_snoc, pq_push_perm, IH. apply Permutation_cons_append.
Qed.

Lemma pq_of_sorted batch : StronglySorted newest_first (pq_of batch).
Proof.
  induction batch as [|t batch IH] using rev_ind; [constructor|].
  rewrite pq_of_snoc. by apply pq_push_sorted.
Qed.

(** ** Runs of the generator

    The first argument is the storage the process starts on, the lists are the
    batches handed to [generateBlock] so far and the transactions added since. *)
Section Runs.
Context `{Protobuf} `{BlockProto} {S : Type} `{BlockStorage S}.
Context (debug : bool) (rsaEncrypt : list N → option (list N)).
Context (localDecrypt : list N → list N → bool) (rsaDecrypt : string → list N → list N → bool).

(** What the thread pool, the header thread and the broadcaster do. *)
Inductive gen_internal (g g' : BlockGenerator S) : Prop :=
  | int_body i : (i < length (tasks g))%nat → finish_task debug rsaEncrypt i g = Ok g' → gen_internal g g'
  | int_header : run_round g = Some (Ok g') → gen_internal g g'
  | int_verify epoch ip signature okay :
      signatureVerifyCallback debug localDecrypt rsaDecrypt epoch ip signature g =
        Some (Ok (okay, g')) → gen_internal g g'.

Inductive gen_run (s : S) : list (list Transaction) → list Transaction → BlockGenerator S → Prop :=
  | run_start : gen_run s [] [] (new_BlockGenerator s)
  | run_add t batches cur g :
      gen_run s batches cur g → gen_run s batches (cur ++ [t]) (addCommittedTransaction t g)
  | run_generate batches cur g :
      gen_run s batches cur g → gen_run s (batches ++ [cur]) [] (generateBlock g)
  | run_internal batches cur g g' :
      gen_run s batches cur g → gen_internal g g' → gen_run s batches cur g'.

End Runs.

(** ** The chain *)
Section Chain.
Context `{ProtobufLaws} `{BlockProtoLaws} {S : Type} `{BlockStorageLaws S}.
Context (debug : bool) (rsaEncrypt : list N → option (list N)).
Context (localDecrypt : list N → list N → bool) (rsaDecrypt : string → list N → list N → bool).
#[local] Opaque sha256 mroot.

Definition codes (q : list Transaction) : list N := result_code ∘ transactionResult <$> q.
Definition serialized (q : list Transaction) : list (list N) :=
  (λ t, serialize_body t ++ sha256 (serialize_body t)) <$> q.
Definition root_of (q : list Transaction) : list N := mroot (sha256 <$> serialized q).
Definition hash_of (q : list Transaction) : list N := sha256 (codes q ++ root_of q).
Definition body_of (q : list Transaction) : Block :=
  mkBlock 0 [] [] (serialized q) [codes q; root_of q; default [] (rsaEncrypt (root_of q))].
Definition block_of (n : N) (prev : list N) (q : list Transaction) : Block :=
  mkBlock n prev (hash_of q) (serialized q) (b_metadata (body_of q)).

(** The transactions and their number stay below what the code can count. *)
Definition txn_fits (t : Transaction) : Prop := N.of_nat (length (serialize_body t)) < 2 ^ 32 - 32.
Definition batch_ok (batch : list Transaction) : Prop :=
  batch ≠ [] ∧ (length batch ≤ 2 ^ 18)%nat ∧ Forall txn_fits batch.

Lemma serialize_body_bytes t : Forall (λ b, b < 256) (serialize_body t).
Proof.
  unfold serialize_body.
  repeat (apply Forall_app; split);
    auto using varint64_bytes, varint32_bytes, payload_bytes, rwset_bytes.
Qed.

Lemma serializeToString_ok t :
  txn_fits t → serializeToString t = (true, serialize_body t ++ sha256 (serialize_body t)).
Proof.
  intros Ht. unfold serializeToString. rewrite sha_helper_hash_ok; [done|].
  split; [apply serialize_body_bytes|]. unfold txn_fits in Ht. lia.
Qed.

Lemma mapM_out_pure {A B} (f : A → outcome B) (g : A → B) l :
  Forall (λ a, f a = Ok (g a)) l → mapM_out f l = Ok (g <$> l).
Proof. induction 1 as [|a l Ha _ IH]; simpl; [done|]. rewrite Ha. simpl. by rewrite IH. Qed.

Lemma serialize_all q :
  Forall txn_fits q → mapM_out (serialize_checked serializeToString) q = Ok (serialized q).
Proof.
  intros Hq. apply (mapM_out_pure _ (λ t, serialize_body t ++ sha256 (serialize_body t))).
  eapply Forall_impl; [exact Hq|]. intros t Ht. unfold serialize_checked.
  by rewrite serializeToString_ok.
Qed.

Lemma serialized_bytes q : Forall txn_fits q → Forall bytes (serialized q).
Proof.
  intros Hq. apply Forall_fmap. eapply Forall_impl; [exact Hq|]. intros t Ht. simpl.
  destruct (sha256_ok (serialize_body t)) as [Hl Hb]. split.
  - apply Forall_app. split; [apply serialize_body_bytes|exact Hb].
  - rewrite length_app, Hl. unfold txn_fits, HASH_LENGTH in *. lia.
Qed.

Lemma N_of_nat_le (n m : nat) : (n ≤ m)%nat ↔ N.of_nat n ≤ N.of_nat m.
Proof. lia. Qed.

Lemma codes_bytes q : (length q ≤ 2 ^ 18)%nat → bytes (codes q).
Proof.
  intros Hq. split.
  - apply Forall_fmap, Forall_true. intros t. simpl. by destruct (transactionResult t).
  - unfold codes. rewrite length_fmap. eapply N.le_lt_trans; [exact (proj1 (N_of_nat_le _ _) Hq)|].
    rewrite Nat2N.inj_pow. reflexivity.
Qed.

Lemma batch_queue_ok batch : batch_ok batch → batch_ok (pq_of batch).
Proof.
  intros (Hne & Hn & Hf). pose proof (pq_of_perm batch) as Hp. split_and!.
  - intros E. rewrite E in Hp. by apply Permutation_nil_l in Hp.
  - by rewrite Hp.
  - by rewrite Hp.
Qed.

Lemma block_body_ok q :
  (∀ r, is_Some (rsaEncrypt r)) → batch_ok q → block_body debug rsaEncrypt q = Ok (body_of q).
Proof.
  intros Hrsa (Hne & Hn & Hf). unfold block_body. rewrite serialize_all by done.
  cbn [mbind outcome_bind]. rewrite merkle_of_ok.
  - cbn [mbind outcome_bind]. destruct (Hrsa (mroot (sha256 <$> serialized q))) as [sig Hs].
    unfold body_of, root_of. by rewrite Hs.
  - by apply serialized_bytes.
  - by destruct q.
  - unfold serialized. by rewrite length_fmap.
Qed.

Lemma partial_block_ok epoch q : ∃ p, partial_block epoch q = Ok p.
Proof.
  unfold partial_block.
  rewrite (mapM_out_pure _ (λ t, (serializeResultToString t).2)) by (by apply Forall_true).
  simpl. eauto.
Qed.

Lemma root_bytes q : q ≠ [] → bytes (root_of q).
Proof. intros Hq. apply mroot_bytes. by destruct q. Qed.

(** *** The invariant *)
Definition queue_at (batches : list (list Transaction)) (j : nat) : list Transaction :=
  pq_of (default [] (batches !! j)).
(** The hash stored before block [j + 1]. *)
Definition prev_at (batches : list (list Transaction)) (j : nat) : list N :=
  match j with O => [] | Datatypes.S j => hash_of (queue_at batches j) end.
Definition block_at (batches : list (list Transaction)) (j : nat) : Block :=
  block_of (N.of_nat j + 1) (prev_at batches j) (queue_at batches j).

(** Epochs whose block is not stored yet. *)
Definition pending (batches : list (list Transaction)) (k : nat) (e : N) (j : nat) : Prop :=
  e = N.of_nat j + 1 ∧ (k ≤ j < length batches)%nat.

Record chain_ok (batches : list (list Transaction)) (cur : list Transaction) (k : nat)
    (g : BlockGenerator S) : Prop := {
  ch_store : store_ok (storage g);
  ch_latest : getLatestSavedEpoch (storage g) = N.of_nat k;
  ch_header : headerEpoch g = N.of_nat k;
  ch_le : (k ≤ length batches)%nat;
  ch_blocks j : (j < k)%nat → contents (storage g) !! (N.of_nat j + 1) = Some (block_at batches j);
  ch_prev : previousDataHash g = prev_at batches k;
  ch_queue : pendingTransactionQueue g = pq_of cur;
  ch_epoch : default (N.of_nat k) (currentBlockEpoch g) = N.of_nat (length batches);
  ch_first : currentBlockEpoch g = None → k = O;
  ch_tasks e q : (e, q) ∈ tasks g → ∃ j, pending batches k e j ∧ q = queue_at batches j;
  ch_distinct : NoDup (tasks g).*1;
  ch_buffer e b : blockBuffer g !! e = Some b →
    ∃ j, pending batches k e j ∧ b = body_of (queue_at batches j) ∧ e ∉ (tasks g).*1;
  ch_cover e j : pending batches k e j → e ∈ (tasks g).*1 ∨ is_Some (blockBuffer g !! e);
  ch_lru : lru_ok (blockCache g);
  ch_cache e b : (e, b) ∈ entries (blockCache g) → contents (storage g) !! e = Some b }.

Lemma queue_at_app batches x j :
  (j < length batches)%nat → queue_at (batches ++ x) j = queue_at batches j.
Proof. intros Hj. unfold queue_at. by rewrite lookup_app_l. Qed.

Lemma prev_at_app batches x j :
  (j ≤ length batches)%nat → prev_at (batches ++ x) j = prev_at batches j.
Proof. intros Hj. destruct j; simpl; [done|]. by rewrite queue_at_app by lia. Qed.

Lemma block_at_app batches x j :
  (j < length batches)%nat → block_at (batches ++ x) j = block_at batches j.
Proof. intros Hj. unfold block_at. by rewrite queue_at_app, prev_at_app by lia. Qed.

Lemma chain_start s :
  store_ok s → getLatestSavedEpoch s = 0 → chain_ok [] [] 0 (new_BlockGenerator s).
Proof.
  intros Hs Hz.
  split; simpl; try done; try lia; [by intros ??[]%not_elem_of_nil|constructor| | |].
  - intros e j [_ Hj]. simpl in Hj. lia.
  - apply new_Cache_ok.
  - by intros ??[]%not_elem_of_nil.
Qed.

Lemma chain_add batches cur k g t :
  chain_ok batches cur k g → chain_ok batches (cur ++ [t]) k (addCommittedTransaction t g).
Proof.
  intros []. split; simpl; try done. rewrite pq_of_snoc. by f_equal.
Qed.

Lemma chain_generate batches cur k g :
  chain_ok batches cur k g → chain_ok (batches ++ [cur]) [] k (generateBlock g).
Proof.
  intros Hg. pose proof Hg as []. unfold generateBlock. cbn [getPendingTransactionQueue].
  rewrite ch_latest0, ch_epoch0.
  assert (∀ e j, pending batches k e j → pending (batches ++ [cur]) k e j) as Hmono.
  { intros e j [-> Hj]. split; [done|]. rewrite length_app. simpl. lia. }
  split; simpl; try done.
  - rewrite length_app. lia.
  - intros j Hj. rewrite block_at_app by lia. by apply ch_blocks0.
  - by rewrite prev_at_app.
  - rewrite length_app. simpl. lia.
  - intros e q [Hin|Hin]%elem_of_app.
    + destruct (ch_tasks0 e q Hin) as (j & Hj & ->). exists j. split; [by apply Hmono|].
      destruct Hj as [_ Hj]. by rewrite queue_at_app by lia.
    + apply list_elem_of_singleton in Hin. injection Hin as -> ->. exists (length batches). split.
      * split; [done|]. rewrite length_app. simpl. lia.
      * unfold queue_at. by rewrite list_lookup_middle.
  - rewrite fmap_app, NoDup_app. split_and!; [done| |apply NoDup_singleton].
    intros e ([e' q] & -> & Hin)%list_elem_of_fmap. simpl.
    destruct (ch_tasks0 _ _ Hin) as (j & [-> Hj] & _). rewrite list_elem_of_singleton. lia.
  - intros e b Hb. destruct (ch_buffer0 e b Hb) as (j & Hj & -> & Hni). exists j.
    split; [by apply Hmono|]. destruct Hj as [-> Hj]. rewrite queue_at_app by lia. split; [done|].
    rewrite fmap_app, not_elem_of_app. split; [done|]. simpl. rewrite list_elem_of_singleton. lia.
  - intros e j [-> Hj]. rewrite length_app in Hj. simpl in Hj. rewrite fmap_app, elem_of_app.
    destruct (decide (j = length batches)) as [->|Hne]; [left; right; by left|].
    destruct (ch_cover0 (N.of_nat j + 1) j) as [?|?]; [split; [done|lia]|by left; left|by right].
Qed.

Lemma queue_at_ok batches j :
  Forall batch_ok batches → (j < length batches)%nat → batch_ok (queue_at batches j).
Proof.
  intros Hb Hj. unfold queue_at. destruct (lookup_lt_is_Some_2 batches j Hj) as [batch E].
  rewrite E. apply batch_queue_ok. by eapply Forall_lookup_1.
Qed.

Lemma finish_task_ok batches cur k g i :
  (∀ r, is_Some (rsaEncrypt r)) → Forall batch_ok batches → chain_ok batches cur k g →
  (i < length (tasks g))%nat →
  ∃ g', finish_task debug rsaEncrypt i g = Ok g' ∧ chain_ok batches cur k g'.
Proof.
  intros Hrsa Hb Hg Hi. pose proof Hg as [].
  destruct (lookup_lt_is_Some_2 _ _ Hi) as [[e q] E].
  destruct (ch_tasks0 e q (list_elem_of_lookup_2 _ _ _ E)) as (j & Hj & ->).
  unfold finish_task, generateBlockBody. rewrite E.
  destruct (partial_block_ok e (queue_at batches j)) as [pb ->]. cbn [mbind outcome_bind].
  rewrite block_body_ok by (done || (apply queue_at_ok; [done|apply Hj])). gen_fields.
  eexists. split; [done|]. apply list_elem_of_split_length in E as (l1 & l2 & El & ->).
  rewrite El in *. rewrite delete_middle. pose proof ch_distinct0 as Hd.
  rewrite fmap_app, fmap_cons in Hd. simpl in Hd.
  rewrite <-Permutation_middle, NoDup_cons, <-fmap_app in Hd. destruct Hd as [Hne Hd].
  split; simpl; try done.
  - intros e' q' Hin. apply ch_tasks0. rewrite elem_of_app in Hin |- *. rewrite elem_of_cons. tauto.
  - intros e' b'. rewrite lookup_insert_Some. intros [[<- <-]|[Hne' Hb']]; [by exists j|].
    destruct (ch_buffer0 e' b' Hb') as (j' & ? & ? & Hni). exists j'. split_and!; [done|done|].
    contradict Hni. rewrite !fmap_app, fmap_cons, elem_of_app, elem_of_cons in *. tauto.
  - intros e' j' Hp. destruct (decide (e' = e)) as [->|Hne']; [right; by rewrite lookup_insert_eq|].
    rewrite lookup_insert_ne by done. destruct (ch_cover0 e' j' Hp) as [Hin|?]; [left|by right].
    rewrite !fmap_app, fmap_cons, elem_of_app, elem_of_cons in *. simpl in *. tauto.
Qed.

Lemma header_ok batches cur k g g1 :
  Forall batch_ok batches → chain_ok batches cur k g → (k < length batches)%nat →
  storage g1 = storage g → previousDataHash g1 = previousDataHash g →
  generateBlockHeader (body_of (queue_at batches k)) g1 =
  Ok (true, block_at batches k,
      mkGen (storage g) (pendingTransactionQueue g1) (currentBlockEpoch g1) (tasks g1)
        (blockBuffer g1) (partialBlockBuffer g1) (partialEpoch g1) (headerEpoch g1)
        (hash_of (queue_at batches k)) (blockCache g1) (verifyBuffer g1)).
Proof.
  intros Hb [] Hk Es Ep. set (q := queue_at batches k).
  destruct (queue_at_ok batches k Hb Hk) as (Hne & Hn & Hf). fold q in Hne, Hn, Hf.
  unfold generateBlockHeader, metadata. cbn [body_of b_metadata at_index lookup list_lookup mbind outcome_bind].
  rewrite (header_hash_ok [] SHA256Reset (codes q) (root_of q) reset_absorbed eq_refl
             (codes_bytes q Hn) (root_bytes q Hne)).
  cbn [app negb]. fold (hash_of q). rewrite Es, Ep, ch_latest0, ch_prev0.
  unfold block_at. fold q. destruct k as [|k]; [done|].
  rewrite (proj2 (N.ltb_lt 0 _)) by lia.
  pose proof (ch_blocks0 k ltac:(lia)) as Hp. replace (N.of_nat k + 1) with (N.of_nat (Datatypes.S k)) in Hp by lia.
  rewrite (load_stored _ _ _ ch_store0 Hp). cbn [mbind outcome_bind prev_at].
  rewrite bool_decide_eq_true_2 by done. done.
Qed.

Lemma run_round_ok batches cur k g :
  Forall batch_ok batches → N.of_nat (length batches) < 2 ^ 63 → chain_ok batches cur k g →
  is_Some (blockBuffer g !! (N.of_nat k + 1)) →
  ∃ g', run_round g = Some (Ok g') ∧ chain_ok batches cur (Datatypes.S k) g' ∧
    verifyBuffer g' = verifyBuffer g ++ [block_at batches k].
Proof.
  intros Hb Hlt Hg [b E]. pose proof Hg as [].
  destruct (ch_buffer0 _ _ E) as (j & [Hj Hk] & -> & Hni).
  assert (j = k) as -> by lia. unfold run_round. rewrite ch_header0, E.
  rewrite (header_ok batches cur k g) by (done || lia). cbn [mbind outcome_bind CHECK storage].
  destruct (append_next (block_at batches k) (storage g) ch_store0) as (s' & -> & Hs & Hl & Hc);
    [simpl; by rewrite ch_latest0|simpl; lia|]. simpl in Hl, Hc.
  gen_fields.
  eexists. split; [done|]. split; [|done].
  assert (∀ e j, pending batches (Datatypes.S k) e j → pending batches k e j ∧ e ≠ N.of_nat k + 1) as Hsub.
  { intros e j [-> Hj']. split; [split; [done|lia]|lia]. }
  split; simpl; try done; try lia.
  - intros j' Hj'. rewrite Hc. destruct (decide (j' = k)) as [->|Hne]; [by rewrite lookup_insert_eq|].
    rewrite lookup_insert_ne by lia. apply ch_blocks0. lia.
  - destruct (currentBlockEpoch g) as [e'|]; simpl in *; [done|]. lia.
  - intros Hnone. rewrite Hnone in ch_epoch0. simpl in ch_epoch0. lia.
  - intros e q Hin. destruct (ch_tasks0 e q Hin) as (j' & [-> Hj'] & ->). exists j'.
    split; [split; [done|]|done]. assert (j' ≠ k); [|lia]. intros ->. apply Hni.
    apply list_elem_of_fmap. by eexists (_, _).
  - intros e b. rewrite lookup_delete_Some. intros [Hne He].
    destruct (ch_buffer0 e b He) as (j' & [-> Hj'] & ?). exists j'. split; [split; [done|lia]|done].
  - intros e j' Hp. apply Hsub in Hp as [Hp Hne]. rewrite lookup_delete_ne by done.
    by apply (ch_cover0 e j').
  - intros e b Hin. apply ch_cache0 in Hin. rewrite Hc, lookup_insert_ne; [done|].
    pose proof (stored_range e _ ch_store0 (mk_is_Some _ _ Hin)). lia.
Qed.

Lemma callback_ok batches cur k g j ip signature :
  chain_ok batches cur k g → (j < k)%nat →
  ∃ c, lru_ok c ∧ (∀ e b, (e, b) ∈ entries c → contents (storage g) !! e = Some b) ∧
    signatureVerifyCallback debug localDecrypt rsaDecrypt (N.of_nat j + 1) ip signature g =
    Some (if rsaDecrypt ip (root_of (queue_at batches j)) signature
          then Ok (true, mkGen (storage g) (pendingTransactionQueue g) (currentBlockEpoch g) (tasks g)
                (blockBuffer g) (partialBlockBuffer g) (partialEpoch g) (headerEpoch g)
                (previousDataHash g) c (verifyBuffer g))
          else Fatal CheckFailed).
Proof.
  intros [] Hj. pose proof (ch_blocks0 j Hj) as Hblk. unfold signatureVerifyCallback.
  rewrite ch_latest0, (proj2 (N.ltb_ge _ _)) by lia.
  destruct (tryGet_ok (blockCache g) (N.of_nat j + 1) ch_lru0) as (c & Ec & Hc & Hent & _).
  assert (∀ e b, (e, b) ∈ entries c → contents (storage g) !! e = Some b) as Hsub.
  { intros e b. rewrite Hent. intros Hin%spec_touch_elem. by apply ch_cache0. }
  destruct (value_of (N.of_nat j + 1) (entries (blockCache g))) as [b|] eqn:Ev.
  - apply value_of_elem, ch_cache0 in Ev. rewrite Hblk in Ev. injection Ev as <-.
    exists c. split; [done|]. split; [done|]. rewrite Ec. cbn [mbind outcome_bind fst snd].
    unfold signatureValidate, metadata. simpl. by destruct (rsaDecrypt _ _ _).
  - destruct (insert_ok c (N.of_nat j + 1) (block_at batches j) Hc) as (c' & Ei & Hc' & Hent' & _).
    exists c'. split; [done|]. split.
    { intros e b. rewrite Hent'. intros [[= -> ->]|Hin]%spec_insert_elem; [done|by apply Hsub]. }
    rewrite Ec. cbn [mbind outcome_bind]. unfold deserializeBlock.
    rewrite (load_stored _ _ _ ch_store0 Hblk). cbn [mbind outcome_bind negb]. rewrite Ei.
    cbn [mbind outcome_bind fst snd]. unfold signatureValidate, metadata. simpl.
    by destruct (rsaDecrypt _ _ _).
Qed.

Lemma callback_keeps batches cur k g epoch ip signature okay g' :
  chain_ok batches cur k g →
  signatureVerifyCallback debug localDecrypt rsaDecrypt epoch ip signature g = Some (Ok (okay, g')) →
  chain_ok batches cur k g'.
Proof.
  intros [] E. unfold signatureVerifyCallback in E. destruct (_ <? epoch); [done|]. injection E as E.
  destruct (tryGet_ok (blockCache g) epoch ch_lru0) as (c & Ec & Hc & Hent & _).
  assert (∀ e b, (e, b) ∈ entries c → contents (storage g) !! e = Some b) as Hsub.
  { intros e b. rewrite Hent. intros Hin%spec_touch_elem. by apply ch_cache0. }
  rewrite Ec in E. cbn [mbind outcome_bind] in E.
  apply outcome_bind_Ok in E as ([b c'] & E1 & E2). cbn [fst snd] in E2.
  apply outcome_bind_Ok in E2 as (r & _ & E2). injection E2 as <- <-.
  assert (lru_ok c' ∧ ∀ e b, (e, b) ∈ entries c' → contents (storage g) !! e = Some b) as [Hc' Hsub'].
  { destruct (value_of epoch (entries (blockCache g))); [by injection E1 as <- <-|].
    unfold deserializeBlock in E1. destruct (loadBlock epoch (storage g)) as [[b1|]|] eqn:El; [|done..].
    cbn [mbind outcome_bind negb] in E1.
    destruct (insert_ok c epoch b1 Hc) as (c1 & Ei & Hc1 & Hent1 & _).
    rewrite Ei in E1. injection E1 as <- <-. split; [done|]. intros e b0. rewrite Hent1.
    intros [[= -> ->]|Hin]%spec_insert_elem; [by apply load_contents|by apply Hsub]. }
  by split.
Qed.

(** Every run on an empty chain satisfies the invariant. *)
Lemma chain_run s batches cur g :
  store_ok s → getLatestSavedEpoch s = 0 → (∀ r, is_Some (rsaEncrypt r)) →
  gen_run debug rsaEncrypt localDecrypt rsaDecrypt s batches cur g →
  Forall batch_ok batches → N.of_nat (length batches) < 2 ^ 63 →
  ∃ k, chain_ok batches cur k g.
Proof.
  intros Hs Hz Hrsa Hrun. induction Hrun as
    [|t batches cur g _ IH|batches cur g _ IH|batches cur g g' _ IH E]; intros Hb Hlt.
  - exists O. by apply chain_start.
  - destruct (IH Hb Hlt) as [k Hk]. exists k. by apply chain_add.
  - apply Forall_app in Hb as [Hb _]. rewrite length_app in Hlt.
    destruct IH as [k Hk]; [done|lia|]. exists k. by apply chain_generate.
  - destruct (IH Hb Hlt) as [k Hk]. destruct E as [i Hi E|E|epoch ip signature okay E].
    + exists k. destruct (finish_task_ok batches cur k g i Hrsa Hb Hk Hi) as (g1 & E1 & Hg1). congruence.
    + exists (Datatypes.S k).
      destruct (run_round_ok batches cur k g Hb Hlt Hk) as (g1 & E1 & Hg1 & _); [|congruence].
      unfold run_round in E. rewrite (ch_header _ _ _ _ Hk) in E. by destruct (blockBuffer g !! _).
    + exists k. by eapply callback_keeps.
Qed.

(** What a stored block [n] says about the [n]-th batch: its transactions,
    newest id first, with their digests, results, Merkle root, signature and
    the link to the block before. *)
Definition seals (batches : list (list Transaction)) (s : S) (n : nat) : Prop :=
  ∃ batch q b,
    batches !! (n - 1)%nat = Some batch ∧ q ≡ₚ batch ∧ StronglySorted newest_first q ∧
    loadBlock (N.of_nat n) s = Ok (Some b) ∧
    b_number b = N.of_nat n ∧ b_data b = serialized q ∧
    b_metadata b = [codes q; root_of q; default [] (rsaEncrypt (root_of q))] ∧
    b_data_hash b = hash_of q ∧
    (n = 1%nat → b_previous_hash b = []) ∧
    (n ≠ 1%nat → ∃ p, loadBlock (N.of_nat (n - 1)) s = Ok (Some p) ∧ b_previous_hash b = b_data_hash p).

Lemma chain_seals batches cur k g n :
  chain_ok batches cur k g → (1 ≤ n ≤ k)%nat → seals batches (storage g) n.
Proof.
  intros [] Hn. set (j := (n - 1)%nat).
  assert (j < length batches)%nat as Hj by (unfold j; lia).
  destruct (lookup_lt_is_Some_2 batches j Hj) as [batch Eb].
  assert (queue_at batches j = pq_of batch) as Eq by (unfold queue_at; by rewrite Eb).
  assert (∀ i, (i < k)%nat → loadBlock (N.of_nat i + 1) (storage g) = Ok (Some (block_at batches i)))
    as Hload by (intros i Hi; apply load_stored; [done|by apply ch_blocks0]).
  exists batch, (pq_of batch), (block_at batches j).
  split_and!; [done|apply pq_of_perm|apply pq_of_sorted| | | | | | |].
  - rewrite <-Hload by (unfold j; lia). f_equal. unfold j. lia.
  - simpl. unfold j. lia.
  - simpl. by rewrite Eq.
  - simpl. by rewrite Eq.
  - simpl. by rewrite Eq.
  - intros ->. done.
  - intros Hne. exists (block_at batches (j - 1)). split.
    + rewrite <-Hload by (unfold j; lia). f_equal. unfold j. lia.
    + simpl. destruct j as [|j'] eqn:Ej; [unfold j in Ej; lia|]. simpl. by rewrite Nat.sub_0_r.
Qed.

(** C15: the chain.  Whatever the order in which the thread pool finishes bodies,
    the header thread runs and signatures of other servers are checked, a
    server that started on an empty chain has, after [k] headers, stored
    blocks [1] to [k]: block [n] holds the [n]-th batch of transactions with
    ids descending, their results, the Merkle root of their digests and its
    signature, carries the SHA-256 digest of results and root, and links to the
    digest of block [n - 1].  No step faults, and while a batch has no block a
    body can be finished or a header written.  The hypotheses are the limits of
    the code: at least one and at most 2^18 transactions in a batch (the Merkle
    tree), each below 4 GiB serialised (the hash). *)
Theorem block_chain_valid s batches cur g :
  store_ok s → getLatestSavedEpoch s = 0 → (∀ r, is_Some (rsaEncrypt r)) →
  gen_run debug rsaEncrypt localDecrypt rsaDecrypt s batches cur g →
  Forall batch_ok batches → N.of_nat (length batches) < 2 ^ 63 →
  ∃ k, (k ≤ length batches)%nat ∧ getLatestSavedEpoch (storage g) = N.of_nat k ∧
    (∀ n, (1 ≤ n ≤ k)%nat → seals batches (storage g) n) ∧
    (∀ i, (i < length (tasks g))%nat → ∃ g', finish_task debug rsaEncrypt i g = Ok g') ∧
    (∀ o, run_round g = Some o → ∃ g', o = Ok g') ∧
    ((k < length batches)%nat → tasks g ≠ [] ∨ is_Some (run_round g)).
Proof.
  intros Hs Hz Hrsa Hrun Hb Hlt. destruct (chain_run s batches cur g Hs Hz Hrsa Hrun Hb Hlt) as [k Hk].
  pose proof Hk as []. exists k. split_and!; [done|done| | | |].
  - intros n Hn. by apply (chain_seals batches cur k g).
  - intros i Hi. destruct (finish_task_ok batches cur k g i Hrsa Hb Hk Hi) as (g' & ? & _). eauto.
  - intros o Ho. destruct (run_round_ok batches cur k g Hb Hlt Hk) as (g' & E & _);
      [|rewrite E in Ho; injection Ho as <-; eauto].
    unfold run_round in Ho. rewrite ch_header0 in Ho. by destruct (blockBuffer g !! _).
  - intros Hlt'. destruct (ch_cover0 (N.of_nat k + 1) k) as [Hin|His]; [split; [done|lia]| |].
    + left. intros E. rewrite E in Hin. by apply not_elem_of_nil in Hin.
    + right. destruct (run_round_ok batches cur k g Hb Hlt Hk His) as (g' & E & _). by rewrite E.
Qed.

(** a signature another server sent for a stored block is checked against
    the Merkle root of the transactions of that block, whether the block comes
    from the cache or the storage: the callback accepts it when it verifies and
    stops the server when it does not. *)
Theorem signature_exchange_exact s batches cur g n ip signature :
  store_ok s → getLatestSavedEpoch s = 0 → (∀ r, is_Some (rsaEncrypt r)) →
  gen_run debug rsaEncrypt localDecrypt rsaDecrypt s batches cur g →
  Forall batch_ok batches → N.of_nat (length batches) < 2 ^ 63 →
  1 ≤ n ≤ getLatestSavedEpoch (storage g) →
  ∃ batch q, batches !! N.to_nat (n - 1) = Some batch ∧ q ≡ₚ batch ∧
    StronglySorted newest_first q ∧
    if rsaDecrypt ip (root_of q) signature
    then ∃ g', signatureVerifyCallback debug localDecrypt rsaDecrypt n ip signature g =
                 Some (Ok (true, g')) ∧ storage g' = storage g
    else signatureVerifyCallback debug localDecrypt rsaDecrypt n ip signature g =
           Some (Fatal CheckFailed).
Proof.
  intros Hs Hz Hrsa Hrun Hb Hlt Hn. destruct (chain_run s batches cur g Hs Hz Hrsa Hrun Hb Hlt) as [k Hk].
  pose proof Hk as []. rewrite ch_latest0 in Hn. set (j := N.to_nat (n - 1)).
  destruct (lookup_lt_is_Some_2 batches j) as [batch Eb]; [unfold j; lia|].
  assert (queue_at batches j = pq_of batch) as Eq by (unfold queue_at; by rewrite Eb).
  exists batch, (pq_of batch). split_and!; [done|apply pq_of_perm|apply pq_of_sorted|].
  destruct (callback_ok batches cur k g j ip signature Hk) as (c & _ & _ & E); [unfold j; lia|].
  rewrite Eq in E. replace (N.of_nat j + 1) with n in E by (unfold j; lia). rewrite E.
  destruct (rsaDecrypt _ _ _); [|done]. by eexists.
Qed.

(** [deserializeBlock] with [verify] set rejects the blocks this server
    wrote: it hashes the data, the results and the root, while the header
    carries the hash of the results and the root only.  (The one exception
    would be a block on which the two SHA-256 digests collide.) *)
Theorem verify_rejects_own_blocks s batches cur g n decrypt validate :
  store_ok s → getLatestSavedEpoch s = 0 → (∀ r, is_Some (rsaEncrypt r)) →
  gen_run debug rsaEncrypt localDecrypt rsaDecrypt s batches cur g →
  Forall batch_ok batches → N.of_nat (length batches) < 2 ^ 63 →
  1 ≤ n ≤ getLatestSavedEpoch (storage g) →
  let q := queue_at batches (N.to_nat (n - 1)) in
  let data := data_SerializeAsString (serialized q) in
  N.of_nat (length data) < 2 ^ 32 →
  sha256 (data ++ codes q ++ root_of q) ≠ sha256 (codes q ++ root_of q) →
  deserializeBlock debug decrypt n true validate g = Ok None.
Proof.
  intros Hs Hz Hrsa Hrun Hb Hlt Hn q data Hd Hne.
  destruct (chain_run s batches cur g Hs Hz Hrsa Hrun Hb Hlt) as [k Hk].
  pose proof Hk as []. rewrite ch_latest0 in Hn. set (j := N.to_nat (n - 1)) in q.
  assert (j < k)%nat as Hjk by (unfold j; lia).
  pose proof (ch_blocks0 j Hjk) as Hblk. replace (N.of_nat j + 1) with n in Hblk by (unfold j; lia).
  destruct (queue_at_ok batches j Hb) as (Hqn & Hql & Hqf); [lia|].
  unfold deserializeBlock. rewrite (load_stored _ _ _ ch_store0 Hblk). cbn [mbind outcome_bind].
  change (b_data (block_at batches j)) with (serialized q). fold data.
  assert (Forall (λ b, b < 256) data) as Hbytes.
  { apply data_bytes. eapply Forall_impl; [by apply serialized_bytes|]. by intros x [? _]. }
  unfold sha_helper_start, sha_helper_append.
  destruct (SHA256Input_absorbed data [] SHA256Reset reset_absorbed Hbytes Hd) as (c & -> & Hc);
    [simpl; lia|]. cbn [is_success].
  unfold metadata. cbn [block_at block_of body_of b_metadata at_index lookup list_lookup mbind outcome_bind].
  fold q. rewrite (header_hash_ok data c (codes q) (root_of q) Hc Hd (codes_bytes q Hql) (root_bytes q Hqn)).
  cbn [andb b_data_hash mbind outcome_bind]. by rewrite bool_decide_eq_false_2.
Qed.

End Chain.

(** ** Restart *)
Section Restarted.
Context `{Protobuf} `{BlockProto} {S : Type} `{BlockStorageLaws S}.
Context (debug : bool) (rsaEncrypt : list N → option (list N)).
Context (localDecrypt : list N → list N → bool) (rsaDecrypt : string → list N → list N → bool).

(** With the static hash empty the header of a block after the first fails. *)
Lemma header_fails (b p : Block) (g : BlockGenerator S) :
  store_ok (storage g) → 0 < getLatestSavedEpoch (storage g) →
  contents (storage g) !! getLatestSavedEpoch (storage g) = Some p → b_data_hash p ≠ [] →
  previousDataHash g = [] →
  (∃ f, generateBlockHeader b g = Fatal f) ∨ ∃ b' g', generateBlockHeader b g = Ok (false, b', g').
Proof.
  intros Hs Hpos Hp Hd Hprev. unfold generateBlockHeader.
  destruct (metadata b 0) as [meta|f]; [|left; by exists f].
  destruct (metadata b 1) as [root|f]; [|left; by exists f]. cbn [mbind outcome_bind].
  destruct (header_hash SHA256Reset meta root) as [[] h]; cbn [negb]; [|right; eauto].
  left. rewrite (proj2 (N.ltb_lt 0 _) Hpos), (load_stored _ _ _ Hs Hp). cbn [mbind outcome_bind].
  rewrite Hprev, bool_decide_eq_false_2 by done. cbn [CHECK mbind outcome_bind]. eauto.
Qed.

Lemma run_round_fails (p : Block) (g : BlockGenerator S) o :
  store_ok (storage g) → 0 < getLatestSavedEpoch (storage g) →
  contents (storage g) !! getLatestSavedEpoch (storage g) = Some p → b_data_hash p ≠ [] →
  previousDataHash g = [] → run_round g = Some o → ∃ f, o = Fatal f.
Proof.
  intros Hs Hpos Hp Hd Hprev. unfold run_round. destruct (blockBuffer g !! _) as [b|]; [|done].
  intros [= <-]. set (g1 := mkGen _ _ _ _ _ _ _ _ _ _ _).
  destruct (header_fails b p g1 Hs Hpos Hp Hd Hprev) as [[f ->]|(b' & g' & ->)]; by eexists.
Qed.

(** a server restarted on a chain that is not empty never adds a block.  The
    hash of the last block is a static variable that starts empty, so the first
    header it computes fails its [CHECK] against the stored block; until then
    the storage is as it was. *)
Theorem restart_cannot_extend s p batches cur g :
  store_ok s → 0 < getLatestSavedEpoch s →
  contents s !! getLatestSavedEpoch s = Some p → b_data_hash p ≠ [] →
  gen_run debug rsaEncrypt localDecrypt rsaDecrypt s batches cur g →
  storage g = s ∧ ∀ o, run_round g = Some o → ∃ f, o = Fatal f.
Proof.
  intros Hs Hpos Hp Hd Hrun.
  assert (storage g = s ∧ previousDataHash g = []) as [Es Ep].
  { induction Hrun as
      [|t batches cur g _ IH|batches cur g _ IH|batches cur g g' _ IH E]; [done..|].
    destruct E as [i Hi E|E|epoch ip signature okay E].
    - unfold finish_task, generateBlockBody in E. destruct (tasks g !! i) as [[e q]|]; [|by injection E as <-].
      apply outcome_bind_Ok in E as ([b g1] & E1 & E). injection E as <-.
      apply outcome_bind_Ok in E1 as (? & _ & E1). apply outcome_bind_Ok in E1 as (? & _ & E1).
      by injection E1 as _ <-.
    - destruct IH as [Es Ep]. rewrite <-Es in Hs, Hpos, Hp.
      by destruct (run_round_fails p g _ Hs Hpos Hp Hd Ep E).
    - unfold signatureVerifyCallback in E. destruct (_ <? epoch); [done|]. injection E as E.
      apply outcome_bind_Ok in E as (? & _ & E). apply outcome_bind_Ok in E as (? & _ & E).
      apply outcome_bind_Ok in E as (? & _ & E). by injection E as _ <-. }
  split; [done|]. intros o Ho. rewrite <-Es in Hs, Hpos, Hp. by eapply run_round_fails.
Qed.

End Restarted.

(** ** A run *)
Module GeneratorRuns.

#[local] Existing Instance Varint.varint_protobuf.
#[local] Existing Instance Varint.varint_laws.
#[local] Existing Instance BlockBits.bits_proto.
#[local] Existing Instance BlockBits.bits_laws.

Definition sign (root : list N) : option (list N) := Some (take 4 root).
Definition check (root signature : list N) : bool := bool_decide (take 4 root = signature).
Definition check_ip (_ : string) := check.
Definition get {A} (d : A) (o : outcome A) : A := match o with Ok a => a | Fatal _ => d end.

Definition txn (tid : N) : Transaction := setTransactionResult COMMIT (setTransactionID tid MockTransaction).
Definition batch : list Transaction := [txn 3; txn 5].

Definition g0 : BlockGenerator BlockStorageToDB := new_BlockGenerator mem_start.
Definition g1 := generateBlock (addCommittedTransaction (txn 5) (addCommittedTransaction (txn 3) g0)).
Definition g2 := get g1 (finish_task false sign 0 g1).
Definition g3 := get g2 (default (Ok g2) (run_round g2)).

Lemma start_ok : store_ok mem_start.
Proof.
  intros n raw. change (mem_db mem_start) with (∅ : gmap N (list N)). by rewrite lookup_empty.
Qed.

Lemma sign_total r : is_Some (sign r).
Proof. by eexists. Qed.

Lemma batches_ok : Forall batch_ok [batch].
Proof.
  constructor; [|constructor]. split_and!; [done| |repeat constructor; vm_compute; reflexivity].
  apply Nat.le_trans with (2 ^ 1)%nat; [reflexivity|]. apply Nat.pow_le_mono_r; lia.
Qed.

Lemma run3 : gen_run false sign check check_ip mem_start [batch] [] g3.
Proof.
  apply (run_internal false sign check check_ip mem_start [batch] [] g2 g3);
    [|apply int_header; vm_compute; reflexivity].
  apply (run_internal false sign check check_ip mem_start [batch] [] g1 g2);
    [|apply (int_body _ _ _ _ _ _ 0); [vm_compute; lia|vm_compute; reflexivity]].
  change [batch] with ([] ++ [([] ++ [txn 3]) ++ [txn 5]]). apply run_generate. do 2 apply run_add.
  apply run_start.
Qed.

Lemma block_chain_valid_witness :
  ∃ k, (k ≤ 1)%nat ∧ getLatestSavedEpoch (storage g3) = N.of_nat k ∧
    (∀ n, (1 ≤ n ≤ k)%nat → seals sign [batch] (storage g3) n) ∧
    (∀ i, (i < length (tasks g3))%nat → ∃ g', finish_task false sign i g3 = Ok g') ∧
    (∀ o, run_round g3 = Some o → ∃ g', o = Ok g') ∧
    ((k < 1)%nat → tasks g3 ≠ [] ∨ is_Some (run_round g3)).
Proof.
  exact (block_chain_valid false sign check check_ip mem_start [batch] [] g3 start_ok eq_refl sign_total
    run3 batches_ok eq_refl).
Defined.

Lemma one_stored : 1 ≤ 1 ≤ getLatestSavedEpoch (storage g3).
Proof. split; vm_compute; discriminate. Qed.

Lemma signature_exchange_exact_witness :
  ∃ b q, [batch] !! 0%nat = Some b ∧ q ≡ₚ b ∧ StronglySorted newest_first q ∧
    if check (root_of q) [1]
    then ∃ g', signatureVerifyCallback false check check_ip 1 "ip" [1] g3 = Some (Ok (true, g')) ∧
           storage g' = storage g3
    else signatureVerifyCallback false check check_ip 1 "ip" [1] g3 = Some (Fatal CheckFailed).
Proof.
  exact (signature_exchange_exact false sign check check_ip mem_start [batch] [] g3 1 "ip" [1]
    start_ok eq_refl sign_total run3 batches_ok eq_refl one_stored).
Defined.

Lemma verify_rejects_own_blocks_witness : deserializeBlock false check 1 true true g3 = Ok None.
Proof.
  apply (verify_rejects_own_blocks false sign check check_ip mem_start [batch] [] g3 1 check true
    start_ok eq_refl sign_total run3 batches_ok eq_refl one_stored).
  - vm_compute. reflexivity.
  - intros E. vm_compute in E. discriminate E.
Defined.

(** The same server, restarted on the chain it wrote. *)
Definition g4 := generateBlock (addCommittedTransaction (txn 9) (new_BlockGenerator (storage g3))).

Lemma stored_ok : store_ok (storage g3).
Proof.
  destruct (chain_run false sign check check_ip mem_start [batch] [] g3 start_ok eq_refl sign_total
    run3 batches_ok eq_refl) as [k []]. done.
Qed.

Lemma restart_cannot_extend_witness :
  storage g4 = storage g3 ∧ ∀ o, run_round g4 = Some o → ∃ f, o = Fatal f.
Proof.
  apply (restart_cannot_extend false sign check check_ip (storage g3)
    (block_at sign [batch] 0) [[txn 9]] [] g4 stored_ok).
  - vm_compute. reflexivity.
  - vm_compute. reflexivity.
  - vm_compute. discriminate.
  - change [[txn 9]] with ([] ++ [[] ++ [txn 9]]). apply run_generate, run_add, run_start.
Defined.

End GeneratorRuns.
