(* ===== verification/ReserveTable.v ===== *)
(** * Reserve tables

    [src/block_server/reserve_table]: during the read phase of an epoch every
    transaction reserves the cells it reads and writes; a register holds the
    smallest transaction id that reserved its cell, 0 meaning none.  During
    the commit phase [dependencyAnalysis] compares a transaction's id with the
    registers.

    [MockReserveTable] is a hash map (table name) of hash maps (key) of
    atomics; the striped [HashMap] is used through its refinement to finite
    maps ([HashMap.hash_map_refines]). *)
From S2P Require Import Prelude Transaction HashMap MVCCHashMap.
From stdpp Require Import base list gmap strings sorting.

Local Open Scope N_scope.

(** [TransactionDependency]. *)
Record TransactionDependency := mkDep { waw : bool; war : bool; raw : bool }.

(** ** Registers *)
Local Notation regs := (gmap string (gmap string N)).

(** [list[table][key].load()]: the value read, an absent register being a
    value-initialised (zero) atomic. *)
Definition reg_load (c : string * string) (m : regs) : N :=
  default 0 (default ∅ (m !! c.1) !! c.2).

(** [list[table][key]] creates the table and the register when absent. *)
Definition reg_store (c : string * string) (v : N) (m : regs) : regs :=
  <[c.1 := <[c.2 := v]> (default ∅ (m !! c.1))]> m.
Definition reg_touch (c : string * string) (m : regs) : regs :=
  reg_store c (reg_load c m) m.

(** One pass of the compare-and-swap loop with no other thread in between:
    keep a non-zero register that is at most [tid], else store [tid]. *)
Definition reserve_reg (tid old : N) : N :=
  if (old <=? tid) && negb (old =? 0) then old else tid.

Definition reserve_cell (tid : N) (m : regs) (c : string * string) : regs :=
  reg_store c (reserve_reg tid (reg_load c m)) m.

Record MockReserveTable := mkMRT {
  mrt_epoch : N; readTableList : regs; writeTableList : regs }.

Definition new_MockReserveTable (e : N) : MockReserveTable := mkMRT e ∅ ∅.

Definition reserveRWSet (rw : KVRWSet) (tid : N) (t : MockReserveTable) : MockReserveTable :=
  mkMRT (mrt_epoch t)
    (foldl (reserve_cell tid) (readTableList t) (read_cells rw))
    (foldl (reserve_cell tid) (writeTableList t) (write_cells rw)).

(** One of the three loops of [dependencyAnalysis]: it touches the registers
    up to the first one that holds a smaller non-zero id. *)
Fixpoint scan (tid : N) (cells : list (string * string)) (m : regs) : bool * regs :=
  match cells with
  | [] => (false, m)
  | c :: cells' =>
      let old := reg_load c m in
      let m' := reg_touch c m in
      if (old <? tid) && negb (old =? 0) then (true, m') else scan tid cells' m'
  end.

Definition dependencyAnalysis (rw : KVRWSet) (tid : N) (t : MockReserveTable)
    : TransactionDependency * MockReserveTable :=
  let '(waw, w1) := scan tid (write_cells rw) (writeTableList t) in
  let '(war, r1) := scan tid (write_cells rw) (readTableList t) in
  let '(raw, w2) := scan tid (read_cells rw) w1 in
  (mkDep waw war raw, mkMRT (mrt_epoch t) r1 w2).

(** ** The provider: one table per epoch, replaced when the epoch changes *)
Definition getHashMapReserveTable (e : N) (p : option MockReserveTable)
    : MockReserveTable * option MockReserveTable :=
  match p with
  | None => (new_MockReserveTable e, Some (new_MockReserveTable e))
  | Some t =>
      if e =? mrt_epoch t then (t, p)
      else (new_MockReserveTable e, Some (new_MockReserveTable e))
  end.

(** ** Laws of the registers *)
Lemma reg_load_store c c' v m :
  reg_load c' (reg_store c v m) = if decide (c' = c) then v else reg_load c' m.
Proof.
  unfold reg_load, reg_store. destruct c as [t k], c' as [t' k']; simpl.
  destruct (decide (t' = t)) as [->|Ht].
  - rewrite lookup_insert_eq. simpl. destruct (decide (k' = k)) as [->|Hk].
    + by rewrite lookup_insert_eq, decide_True.
    + rewrite lookup_insert_ne by done. rewrite decide_False; [done|congruence].
  - rewrite lookup_insert_ne by done. rewrite decide_False; [done|congruence].
Qed.

Lemma reg_load_touch c c' m : reg_load c' (reg_touch c m) = reg_load c' m.
Proof. unfold reg_touch. rewrite reg_load_store. case_decide; by subst. Qed.

#[export] Hint Rewrite reg_load_store reg_load_touch : neuchain.

(** Two register files are equivalent when every cell reads the same: an
    analysis creates zero registers, which nothing can observe. *)
Definition regs_equiv (m1 m2 : regs) : Prop := ∀ c, reg_load c m1 = reg_load c m2.

#[global] Instance regs_equiv_equivalence : Equivalence regs_equiv.
Proof.
  split; [by intros m c | by intros m1 m2 E c; rewrite E |].
  intros m1 m2 m3 E1 E2 c. by rewrite E1, E2.
Qed.

#[global] Instance table_equiv : Equiv MockReserveTable := λ t1 t2,
  mrt_epoch t1 = mrt_epoch t2 ∧
  regs_equiv (readTableList t1) (readTableList t2) ∧
  regs_equiv (writeTableList t1) (writeTableList t2).

#[global] Instance table_equivalence : Equivalence (≡@{MockReserveTable}).
Proof.
  split.
  - by intros t.
  - intros t1 t2 (? & ? & ?). by split_and!.
  - intros t1 t2 t3 (E1 & R1 & W1) (E2 & R2 & W2).
    split_and!; [congruence | by etrans | by etrans].
Qed.

#[global] Instance reg_load_proper : Proper ((=) ==> regs_equiv ==> (=)) reg_load.
Proof. intros c c' -> m1 m2 E. apply E. Qed.

#[global] Instance reserve_cell_proper tid :
  Proper (regs_equiv ==> (=) ==> regs_equiv) (reserve_cell tid).
Proof.
  intros m1 m2 E c c' <- c2. unfold reserve_cell. rewrite !reg_load_store.
  case_decide; [by rewrite E | apply E].
Qed.

#[global] Instance foldl_reserve_proper tid :
  Proper (regs_equiv ==> (=) ==> regs_equiv) (foldl (reserve_cell tid)).
Proof.
  intros m1 m2 E l l' <-. revert m1 m2 E. induction l as [|c l IH]; intros m1 m2 E; [done|].
  simpl. apply IH. by rewrite E.
Qed.

#[global] Instance reserveRWSet_proper :
  Proper ((=) ==> (=) ==> (≡) ==> (≡)) reserveRWSet.
Proof.
  intros rw rw' <- tid tid' <- t1 t2 (E & R & W).
  split_and!; simpl; [done| |]; by apply foldl_reserve_proper.
Qed.

Lemma scan_regs_equiv tid cells m : regs_equiv (scan tid cells m).2 m.
Proof.
  revert m. induction cells as [|c cells IH]; intros m; simpl; [done|].
  destruct (_ && _); simpl.
  - intros c'. apply reg_load_touch.
  - etrans; [apply IH|]. intros c'. apply reg_load_touch.
Qed.

(** What a scan finds, with no reference to the order of the loop. *)
Lemma scan_true tid cells m :
  (scan tid cells m).1 = true ↔
  ∃ c, c ∈ cells ∧ reg_load c m < tid ∧ reg_load c m ≠ 0.
Proof.
  revert m. induction cells as [|c cells IH]; intros m; simpl.
  { split; [done|]. intros (c & Hc & _). by apply not_elem_of_nil in Hc. }
  destruct ((reg_load c m <? tid) && negb (reg_load c m =? 0)) eqn:E; simpl.
  - split; [|done]. intros _. exists c.
    apply andb_true_iff in E as [E1 E2]. split; [by left|].
    apply N.ltb_lt in E1. apply negb_true_iff, N.eqb_neq in E2. done.
  - rewrite IH. split.
    + intros (c' & Hc & Hlt & H0). exists c'. rewrite reg_load_touch in *.
      split; [by right | done].
    + intros (c' & Hc & Hlt & H0). apply elem_of_cons in Hc as [->|Hc].
      * apply N.ltb_lt in Hlt. apply N.eqb_neq in H0. by rewrite Hlt, H0 in E.
      * exists c'. by rewrite reg_load_touch.
Qed.

Lemma scan_proper tid cells m1 m2 :
  regs_equiv m1 m2 → (scan tid cells m1).1 = (scan tid cells m2).1.
Proof.
  intros E. apply eq_bool_prop_intro. rewrite !Is_true_true, !scan_true.
  by setoid_rewrite E.
Qed.

Lemma dependencyAnalysis_table rw tid t : (dependencyAnalysis rw tid t).2 ≡ t.
Proof.
  unfold dependencyAnalysis.
  destruct (scan tid (write_cells rw) (writeTableList t)) as [b1 w1] eqn:E1.
  destruct (scan tid (write_cells rw) (readTableList t)) as [b2 r1] eqn:E2.
  destruct (scan tid (read_cells rw) w1) as [b3 w2] eqn:E3. simpl.
  pose proof (scan_regs_equiv tid (write_cells rw) (writeTableList t)) as H1.
  pose proof (scan_regs_equiv tid (write_cells rw) (readTableList t)) as H2.
  pose proof (scan_regs_equiv tid (read_cells rw) w1) as H3.
  rewrite E1 in H1. rewrite E2 in H2. rewrite E3 in H3. simpl in *.
  split_and!; simpl; [done | done | by etrans].
Qed.

(** The three answers in terms of the registers. *)
Lemma dependencyAnalysis_dep rw tid t :
  (dependencyAnalysis rw tid t).1 =
  mkDep (scan tid (write_cells rw) (writeTableList t)).1
        (scan tid (write_cells rw) (readTableList t)).1
        (scan tid (read_cells rw) (writeTableList t)).1.
Proof.
  unfold dependencyAnalysis.
  pose proof (scan_regs_equiv tid (write_cells rw) (writeTableList t)) as H1.
  destruct (scan tid (write_cells rw) (writeTableList t)) as [b1 w1] eqn:E1.
  destruct (scan tid (write_cells rw) (readTableList t)) as [b2 r1] eqn:E2.
  destruct (scan tid (read_cells rw) w1) as [b3 w2] eqn:E3. simpl in *.
  f_equal. by rewrite <-(scan_proper _ _ _ _ H1), E3.
Qed.

#[global] Instance dependencyAnalysis_proper :
  Proper ((=) ==> (=) ==> (≡) ==> (=)) (λ rw tid t, (dependencyAnalysis rw tid t).1).
Proof.
  intros rw rw' <- tid tid' <- t1 t2 (_ & R & W). rewrite !dependencyAnalysis_dep.
  by f_equal; apply scan_proper.
Qed.

(** ** Reserving a whole epoch *)

(** The read phase reserves the read-write sets of the epoch one after the
    other, in the order in which the workers happen to run. *)
Definition reserve_all (l : list (KVRWSet * N)) (t : MockReserveTable) : MockReserveTable :=
  foldl (λ t p, reserveRWSet p.1 p.2 t) t l.

Lemma reserve_reg_nonzero tid old :
  tid ≠ 0 → reserve_reg tid old = if old =? 0 then tid else N.min old tid.
Proof.
  intros Ht. unfold reserve_reg.
  destruct (N.eqb_spec old 0) as [->|H0]; simpl; [by rewrite andb_false_r|].
  destruct (N.leb_spec old tid); simpl; lia.
Qed.

Lemma reserve_reg_idemp tid old : reserve_reg tid (reserve_reg tid old) = reserve_reg tid old.
Proof.
  unfold reserve_reg. destruct ((old <=? tid) && negb (old =? 0)) eqn:E.
  - by rewrite E.
  - by destruct ((tid <=? tid) && negb (tid =? 0)).
Qed.

Lemma reserve_reg_comm a b old :
  a ≠ 0 → b ≠ 0 → reserve_reg a (reserve_reg b old) = reserve_reg b (reserve_reg a old).
Proof.
  intros Ha Hb. rewrite !reserve_reg_nonzero by done.
  destruct (N.eqb_spec old 0);
    repeat match goal with |- context [N.eqb ?x 0] => destruct (N.eqb_spec x 0) end; lia.
Qed.

Lemma reserve_cells_load tid cells m c :
  reg_load c (foldl (reserve_cell tid) m cells) =
  if decide (c ∈ cells) then reserve_reg tid (reg_load c m) else reg_load c m.
Proof.
  revert m. induction cells as [|c' cells IH]; intros m; cbn [foldl].
  { rewrite decide_False; [done | apply not_elem_of_nil]. }
  rewrite IH. unfold reserve_cell. rewrite reg_load_store.
  destruct (decide (c = c')) as [->|Hne];
    destruct (decide (_ ∈ cells)), (decide (_ ∈ c' :: cells)); try set_solver.
  apply reserve_reg_idemp.
Qed.

(** The register after the id [tid] was offered to it. *)
Definition offer (old tid : N) : N := reserve_reg tid old.

(** The ids that reserved cell [c], in order. *)
Definition reservers (cells : KVRWSet → list (string * string)) (c : string * string)
    (l : list (KVRWSet * N)) : list N :=
  (filter (λ p, c ∈ cells p.1) l).*2.

Lemma reserve_all_load l t c :
  reg_load c (readTableList (reserve_all l t)) =
    foldl offer (reg_load c (readTableList t)) (reservers read_cells c l) ∧
  reg_load c (writeTableList (reserve_all l t)) =
    foldl offer (reg_load c (writeTableList t)) (reservers write_cells c l).
Proof.
  revert t. induction l as [|[rw tid] l IH]; intros t; [done|].
  unfold reserve_all in *. simpl. destruct (IH (reserveRWSet rw tid t)) as [-> ->].
  unfold reservers. rewrite !filter_cons. simpl. rewrite !reserve_cells_load.
  split; case_decide; done.
Qed.

(** A register that starts empty ends with the smallest id offered to it. *)
Lemma foldl_reserve_min (ids : list N) old :
  Forall (λ i, i ≠ 0) ids →
  let v := foldl offer old ids in
  (v = 0 ↔ old = 0 ∧ ids = []) ∧
  (v ≠ 0 → (v ∈ ids ∨ v = old)) ∧
  (∀ i, i ∈ ids → v ≤ i) ∧ (old ≠ 0 → v ≤ old).
Proof.
  revert old. induction ids as [|i ids IH]; intros old Hnz; simpl.
  { split_and!; [naive_solver | naive_solver | | naive_solver].
    intros i Hi. by apply not_elem_of_nil in Hi. }
  apply Forall_cons in Hnz as [Hi Hnz].
  assert (offer old i ≠ 0 ∧ offer old i ≤ i ∧
    (old ≠ 0 → offer old i ≤ old) ∧
    (offer old i = i ∨ offer old i = old)) as (H1 & H2 & H3 & H4).
  { unfold offer. rewrite reserve_reg_nonzero by done. destruct (N.eqb_spec old 0); lia. }
  destruct (IH (offer old i) Hnz) as (A & B & C & D).
  split_and!.
  - split; [intros E; apply A in E; tauto | intros [_ ?]; done].
  - intros Hv. destruct (B Hv) as [Hin| ->]; [left; by right|].
    destruct H4 as [->| ->]; [left; by left | by right].
  - intros j [->|Hj]%elem_of_cons; [specialize (D H1); lia | by apply C].
  - intros Ho. specialize (D H1). specialize (H3 Ho). lia.
Qed.

Lemma foldl_reserve_lt (ids : list N) tid :
  Forall (λ i, i ≠ 0) ids →
  let v := foldl offer 0 ids in
  (v < tid ∧ v ≠ 0) ↔ ∃ i, i ∈ ids ∧ i < tid.
Proof.
  intros Hnz v. destruct (foldl_reserve_min ids 0 Hnz) as (A & B & C & _). fold v in A, B, C.
  split.
  - intros [Hlt H0]. exists v. split; [|done]. by destruct (B H0).
  - intros (i & Hi & Hlt). split; [specialize (C i Hi); lia|].
    intros E. apply A in E as [_ ->]. by apply not_elem_of_nil in Hi.
Qed.

(** Every id of the epoch is non-zero ("tid start from 1"). *)
Definition tids_nonzero (l : list (KVRWSet * N)) : Prop := Forall (λ p, p.2 ≠ 0) l.

Lemma reservers_nonzero cells c l :
  tids_nonzero l → Forall (λ i, i ≠ 0) (reservers cells c l).
Proof.
  unfold tids_nonzero. rewrite Forall_forall. intros H. apply Forall_forall. intros i Hi.
  apply list_elem_of_fmap in Hi as (p & -> & Hp). apply list_elem_of_filter in Hp as [_ Hp].
  by apply H.
Qed.

Lemma elem_of_reservers cells c l i :
  i ∈ reservers cells c l ↔ ∃ rw, (rw, i) ∈ l ∧ c ∈ cells rw.
Proof.
  unfold reservers. rewrite list_elem_of_fmap. split.
  - intros ([rw i'] & -> & H). apply list_elem_of_filter in H as [? ?]. by exists rw.
  - intros (rw & H1 & H2). exists (rw, i). split; [done|]. by apply list_elem_of_filter.
Qed.

(** ** The specification of the analysis

    [conflict ca cb l rw tid]: a transaction of the epoch with a smaller id
    has a cell of [ca] that is a cell of [cb] of the given one. *)
Definition conflict (ca cb : KVRWSet → list (string * string))
    (l : list (KVRWSet * N)) (rw : KVRWSet) (tid : N) : Prop :=
  ∃ rw' tid' c, (rw', tid') ∈ l ∧ tid' < tid ∧ c ∈ ca rw' ∧ c ∈ cb rw.

Lemma scan_conflict ca cb l rw tid m :
  tids_nonzero l →
  (∀ c, reg_load c m = foldl offer 0 (reservers ca c l)) →
  (scan tid (cb rw) m).1 = true ↔ conflict ca cb l rw tid.
Proof.
  intros Hnz Hm. rewrite scan_true. unfold conflict. split.
  - intros (c & Hc & Hlt & H0). rewrite Hm in Hlt, H0.
    destruct (proj1 (foldl_reserve_lt _ tid (reservers_nonzero ca c l Hnz)))
      as (i & Hi & Hi'); [done|].
    apply elem_of_reservers in Hi as (rw' & ? & ?). by exists rw', i, c.
  - intros (rw' & i & c & Hl & Hlt & Ha & Hb). exists c. split; [done|]. rewrite Hm.
    apply (foldl_reserve_lt _ tid (reservers_nonzero ca c l Hnz)).
    exists i. split; [|done]. apply elem_of_reservers. by exists rw'.
Qed.

(** The three dependencies of a transaction against a reserved epoch, stated
    on the read and write sets alone. *)
Lemma dependencyAnalysis_spec e l rw tid :
  tids_nonzero l →
  let dep := (dependencyAnalysis rw tid (reserve_all l (new_MockReserveTable e))).1 in
  (waw dep = true ↔ conflict write_cells write_cells l rw tid) ∧
  (war dep = true ↔ conflict read_cells write_cells l rw tid) ∧
  (raw dep = true ↔ conflict write_cells read_cells l rw tid).
Proof.
  intros Hnz dep. unfold dep. rewrite dependencyAnalysis_dep. simpl.
  assert (∀ c, reg_load c (∅ : regs) = 0) as H0.
  { intros c. unfold reg_load. rewrite lookup_empty. simpl. by rewrite lookup_empty. }
  split_and!; apply scan_conflict; try done; intros c;
    destruct (reserve_all_load l (new_MockReserveTable e) c) as [Hr Hw]; simpl in *;
    rewrite ?Hr, ?Hw, ?H0; done.
Qed.

(** ** Reservation commutes *)
Lemma foldl_reserve_perm (ids1 ids2 : list N) old :
  Forall (λ i, i ≠ 0) ids1 → ids1 ≡ₚ ids2 →
  foldl offer old ids1 = foldl offer old ids2.
Proof.
  intros Hnz Hp. revert old Hnz. induction Hp as [|x l l' Hp IH|x y l|l l' l'' H1 IH1 H2 IH2];
    intros old Hnz; simpl.
  - done.
  - apply Forall_cons in Hnz as [_ Hnz]. by apply IH.
  - apply Forall_cons in Hnz as [Hx Hnz]. apply Forall_cons in Hnz as [Hy Hnz].
    f_equal. by apply reserve_reg_comm.
  - rewrite IH1 by done. apply IH2. by rewrite <-H1.
Qed.

(** The registers after the read phase do not depend on the order in which
    the transactions were run. *)
Lemma reserve_all_perm l1 l2 t :
  tids_nonzero l1 → l1 ≡ₚ l2 → reserve_all l1 t ≡ reserve_all l2 t.
Proof.
  intros Hnz Hp. assert (∀ l t, mrt_epoch (reserve_all l t) = mrt_epoch t) as Hep.
  { intros l. unfold reserve_all. induction l as [|p l IH]; intros t'; [done|].
    simpl. by rewrite IH. }
  split_and!; [by rewrite !Hep | |]; intros c;
    destruct (reserve_all_load l1 t c) as [Hr1 Hw1], (reserve_all_load l2 t c) as [Hr2 Hw2];
    rewrite ?Hr1, ?Hr2, ?Hw1, ?Hw2; apply foldl_reserve_perm;
    try (by apply reservers_nonzero); unfold reservers; by rewrite Hp.
Qed.

(** ** The compare-and-swap loop under concurrency

    Several workers reserve the same cell at the same time.  A thread loads
    the register, leaves the loop when it holds a non-zero id that is at most
    its own, and else tries to swap its id in; [compare_exchange_weak] may
    fail, spuriously too, and then reloads.  The state is the register and the
    threads, each with its id and its position in the loop. *)
Inductive pc := PStart | PTry (old : N) | PDone.

Inductive cas_step : N * list (N * pc) → N * list (N * pc) → Prop :=
  | cas_load reg ts i tid :
      ts !! i = Some (tid, PStart) →
      cas_step (reg, ts) (reg, <[i := (tid, PTry reg)]> ts)
  | cas_break reg ts i tid old :
      ts !! i = Some (tid, PTry old) →
      (old <=? tid) && negb (old =? 0) = true →
      cas_step (reg, ts) (reg, <[i := (tid, PDone)]> ts)
  | cas_swap reg ts i tid :
      ts !! i = Some (tid, PTry reg) →
      (reg <=? tid) && negb (reg =? 0) = false →
      cas_step (reg, ts) (tid, <[i := (tid, PDone)]> ts)
  | cas_fail reg ts i tid old :
      ts !! i = Some (tid, PTry old) →
      (old <=? tid) && negb (old =? 0) = false →
      cas_step (reg, ts) (reg, <[i := (tid, PTry reg)]> ts).

Definition is_done (p : N * pc) : bool := match p.2 with PDone => true | _ => false end.
Definition done_tids (ts : list (N * pc)) : list N := (filter (λ p, is_done p = true) ts).*1.

Definition thread_ok (reg : N) (p : N * pc) : Prop :=
  p.1 ≠ 0 ∧ match p.2 with PTry old => old ≠ 0 → reg ≠ 0 ∧ reg ≤ old | _ => True end.

(** The register is the initial value with the ids of the finished threads
    offered in some order, and a value a thread still holds is not smaller. *)
Definition cas_inv (r0 : N) (s : N * list (N * pc)) : Prop :=
  (∃ log, log ≡ₚ done_tids s.2 ∧ s.1 = foldl offer r0 log) ∧ Forall (thread_ok s.1) s.2.

Lemma done_tids_insert ts i tid p p' :
  ts !! i = Some (tid, p) → is_done (tid, p) = false →
  done_tids (<[i := (tid, p')]> ts) ≡ₚ
    (if is_done (tid, p') then [tid] else []) ++ done_tids ts.
Proof.
  intros Hi Hp. rewrite <-(take_drop_middle ts i (tid, p)) at 2 by done.
  rewrite insert_take_drop by (by eapply lookup_lt_Some).
  unfold done_tids. rewrite !filter_app, !filter_cons, !fmap_app.
  rewrite (decide_False (P := is_done (tid, p) = true)) by (by rewrite Hp).
  destruct (is_done (tid, p')); simpl; [|done].
  by rewrite Permutation_middle.
Qed.

Lemma thread_ok_store reg tid p :
  (reg <=? tid) && negb (reg =? 0) = false → tid ≠ 0 →
  thread_ok reg p → thread_ok tid p.
Proof.
  intros Hc Ht [H1 H2]. split; [done|]. destruct p as [tid' [|old|]]; simpl in *; try done.
  intros Ho. destruct (H2 Ho) as [Hr Hle]. split; [done|].
  rewrite (proj2 (N.eqb_neq _ _) Hr), andb_true_r in Hc. apply N.leb_gt in Hc. lia.
Qed.

Lemma cas_step_inv r0 s s' : cas_inv r0 s → cas_step s s' → cas_inv r0 s'.
Proof.
  intros [(log & Hlog & Hreg) Hok] Hs. destruct Hs as
    [reg ts i tid Hi|reg ts i tid old Hi Hc|reg ts i tid Hi Hc|reg ts i tid old Hi Hc];
    unfold cas_inv; cbn [fst snd] in *.
  - split; [exists log; split; [|done]|].
    + by rewrite (done_tids_insert ts i tid PStart).
    + apply Forall_insert; [done|]. split; [|done].
      by destruct (Forall_lookup_1 _ _ _ _ Hok Hi).
  - destruct (Forall_lookup_1 _ _ _ _ Hok Hi) as [Ht Hold]; simpl in *.
    apply andb_true_iff in Hc as [Hle H0]. apply N.leb_le in Hle.
    apply negb_true_iff, N.eqb_neq in H0. destruct (Hold H0) as [Hr Hro].
    split; [|apply Forall_insert; done].
    exists (log ++ [tid]). split.
    + rewrite (done_tids_insert ts i tid (PTry old)) by done. simpl.
      rewrite Permutation_app_comm, Hlog. done.
    + rewrite foldl_app, <-Hreg. simpl. unfold offer. rewrite reserve_reg_nonzero by done.
      rewrite (proj2 (N.eqb_neq _ _) Hr). lia.
  - destruct (Forall_lookup_1 _ _ _ _ Hok Hi) as [Ht _]; simpl in *. split.
    + exists (log ++ [tid]). split.
      * rewrite (done_tids_insert ts i tid (PTry reg)) by done. simpl.
        rewrite Permutation_app_comm, Hlog. done.
      * rewrite foldl_app, <-Hreg. simpl. unfold offer, reserve_reg. by rewrite Hc.
    + apply Forall_insert; [|done]. eapply Forall_impl; [done|].
      intros p. by apply thread_ok_store.
  - split; [exists log; split; [|done]|].
    + by rewrite (done_tids_insert ts i tid (PTry old)).
    + apply Forall_insert; [done|]. split; [|done].
      by destruct (Forall_lookup_1 _ _ _ _ Hok Hi).
Qed.

Definition cas_init (tids : list N) : list (N * pc) := (λ i, (i, PStart)) <$> tids.

Lemma cas_init_inv r0 tids : Forall (λ i, i ≠ 0) tids → cas_inv r0 (r0, cas_init tids).
Proof.
  intros Hnz. split; simpl.
  - exists []. split; [|done]. unfold done_tids, cas_init.
    induction tids as [|i tids IH]; [done|]. apply Forall_cons in Hnz as [_ Hnz].
    simpl. rewrite filter_cons. by apply IH.
  - apply Forall_fmap. eapply Forall_impl; [done|]. by intros i.
Qed.

Lemma cas_step_tids s s' : cas_step s s' → s'.2.*1 = s.2.*1.
Proof.
  intros Hs. destruct Hs as [reg ts i tid Hi|reg ts i tid old Hi Hc|reg ts i tid Hi Hc
    |reg ts i tid old Hi Hc]; simpl; rewrite list_fmap_insert; apply list_insert_id;
    rewrite list_lookup_fmap, Hi; done.
Qed.

Lemma done_tids_all (ts : list (N * pc)) :
  Forall (λ p, is_done p = true) ts → done_tids ts = ts.*1.
Proof.
  intros H. unfold done_tids. f_equal. induction H as [|p ts Hp H IH]; [done|].
  rewrite filter_cons, decide_True by done. by rewrite IH.
Qed.

(** Whatever the interleaving, when every thread has left the loop the
    register holds what reserving the ids one after the other stores. *)
Lemma cas_sequential r0 tids reg ts :
  Forall (λ i, i ≠ 0) tids →
  rtc cas_step (r0, cas_init tids) (reg, ts) →
  Forall (λ p, is_done p = true) ts →
  reg = foldl offer r0 tids.
Proof.
  intros Hnz Hrun Hdone.
  assert (cas_inv r0 (reg, ts) ∧ (reg, ts).2.*1 = tids) as [[(log & Hlog & Hreg) _] Ht].
  { refine (rtc_invariant cas_step (λ s, cas_inv r0 s ∧ s.2.*1 = tids) _ _ _ _ Hrun).
    - intros s1 s2 [Hi Ht] Hs. split; [by eapply cas_step_inv|].
      by rewrite (cas_step_tids _ _ Hs).
    - split; [by apply cas_init_inv|]. simpl. unfold cas_init. rewrite <-list_fmap_compose.
      apply list_fmap_id. }
  simpl in *. rewrite Hreg. rewrite done_tids_all in Hlog by done. rewrite Ht in Hlog.
  apply foldl_reserve_perm; [|done]. by rewrite Hlog.
Qed.

(** The loop can always be left: from any state some schedule finishes every
    thread. *)
Lemma cas_finish_one reg ts i tid p :
  ts !! i = Some (tid, p) →
  ∃ reg', rtc cas_step (reg, ts) (reg', <[i := (tid, PDone)]> ts).
Proof.
  intros Hi. pose proof (lookup_lt_Some _ _ _ Hi) as Hlt.
  assert (∀ ts', ts' !! i = Some (tid, PTry reg) →
    ∃ reg', cas_step (reg, ts') (reg', <[i := (tid, PDone)]> ts')) as Htry.
  { intros ts' Hi'. destruct ((reg <=? tid) && negb (reg =? 0)) eqn:E.
    - exists reg. by eapply cas_break.
    - exists tid. by eapply cas_swap. }
  destruct p as [|old|].
  - destruct (Htry (<[i := (tid, PTry reg)]> ts)) as [reg' Hs].
    { by apply list_lookup_insert_eq. }
    rewrite list_insert_insert_eq in Hs. exists reg'.
    eapply rtc_l; [by apply cas_load | by apply rtc_once].
  - destruct ((old <=? tid) && negb (old =? 0)) eqn:E.
    { exists reg. apply rtc_once. by eapply cas_break. }
    destruct (Htry (<[i := (tid, PTry reg)]> ts)) as [reg' Hs].
    { by apply list_lookup_insert_eq. }
    rewrite list_insert_insert_eq in Hs. exists reg'.
    eapply rtc_l; [by eapply cas_fail | by apply rtc_once].
  - exists reg. by rewrite list_insert_id.
Qed.

Lemma cas_finish (n : nat) reg ts :
  (n ≤ length ts)%nat →
  ∃ reg' ts', rtc cas_step (reg, ts) (reg', ts') ∧ length ts' = length ts ∧
    (∀ i p, (i < n)%nat → ts' !! i = Some p → is_done p = true).
Proof.
  induction n as [|n IH]; intros Hn.
  { exists reg, ts. split_and!; [done|done|]. intros; lia. }
  destruct IH as (reg1 & ts1 & H1 & Hl & Hd); [lia|].
  destruct (lookup_lt_is_Some_2 ts1 n) as [[tid p] Hp]; [lia|].
  destruct (cas_finish_one reg1 ts1 n tid p Hp) as [reg2 H2].
  exists reg2, (<[n := (tid, PDone)]> ts1).
  split_and!; [by etrans | by rewrite length_insert |].
  intros i q Hi Hq. destruct (decide (i = n)) as [->|Hne].
  - rewrite list_lookup_insert_eq in Hq by lia. by simplify_eq.
  - rewrite list_lookup_insert_ne in Hq by done. apply (Hd i); [lia | done].
Qed.

Lemma cas_terminates reg ts :
  ∃ reg' ts', rtc cas_step (reg, ts) (reg', ts') ∧ Forall (λ p, is_done p = true) ts'.
Proof.
  destruct (cas_finish (length ts) reg ts) as (reg' & ts' & H1 & Hl & Hd); [done|].
  exists reg', ts'. split; [done|]. apply Forall_lookup. intros i p Hi.
  apply (Hd i); [|done]. apply lookup_lt_Some in Hi. lia.
Qed.

(** reserving is atomic.  Take any number of threads that reserve the same
    cell at once, with the loads, swaps and spurious failures of their
    compare-and-swap loops interleaved in any way: some continuation lets every
    thread leave its loop, and whenever all have left it the register holds
    exactly what reserving the ids one after the other, in any order, stores. *)
Theorem cas_linearizable r0 tids tids' reg ts :
  Forall (λ i, i ≠ 0) tids → tids' ≡ₚ tids →
  rtc cas_step (r0, cas_init tids) (reg, ts) →
  (∃ reg' ts', rtc cas_step (reg, ts) (reg', ts') ∧ Forall (λ p, is_done p = true) ts') ∧
  (Forall (λ p, is_done p = true) ts → reg = foldl offer r0 tids').
Proof.
  intros Hnz Hp Hrun. split; [apply cas_terminates|]. intros Hd.
  rewrite (cas_sequential _ _ _ _ Hnz Hrun Hd). by apply foldl_reserve_perm.
Qed.

(** Two threads: the smaller id wins although it swaps first and the larger one
    holds a stale value. *)
Lemma cas_linearizable_witness :
  rtc cas_step (0, cas_init [9; 4]) (4, [(9, PDone); (4, PDone)]) ∧ 4 = foldl offer 0 [4; 9].
Proof.
  assert (rtc cas_step (0, cas_init [9; 4]) (4, [(9, PDone); (4, PDone)])) as Hrun.
  { eapply rtc_l; [by apply (cas_load _ _ 0 9)|].
    eapply rtc_l; [by apply (cas_load _ _ 1 4)|].
    eapply rtc_l; [by apply (cas_swap _ _ 1 4)|].
    eapply rtc_l; [by apply (cas_fail _ _ 0 9 0)|].
    eapply rtc_l; [by apply (cas_break _ _ 0 9 4)|]. apply rtc_refl. }
  split; [exact Hrun|].
  apply (cas_linearizable 0 [9; 4] [4; 9] 4 [(9, PDone); (4, PDone)]).
  - repeat constructor; discriminate.
  - apply perm_swap.
  - exact Hrun.
  - repeat constructor.
Defined.

(** the dependency analysis is exact.  After the transactions of an epoch
    reserved their sets in any order, the three flags of a transaction say
    whether one with a smaller id writes a cell it writes, reads a cell it
    writes, or writes a cell it reads; and the analysis changes no register. *)
Theorem dependency_analysis_exact e l l' rw tid :
  tids_nonzero l → l' ≡ₚ l →
  let t := reserve_all l' (new_MockReserveTable e) in
  let dep := (dependencyAnalysis rw tid t).1 in
  (waw dep = true ↔ conflict write_cells write_cells l rw tid) ∧
  (war dep = true ↔ conflict read_cells write_cells l rw tid) ∧
  (raw dep = true ↔ conflict write_cells read_cells l rw tid) ∧
  (dependencyAnalysis rw tid t).2 ≡ t.
Proof.
  intros Hnz Hp t dep.
  pose proof (dependencyAnalysis_proper rw _ eq_refl tid _ eq_refl _ _
    (reserve_all_perm l l' (new_MockReserveTable e) Hnz (symmetry Hp))) as Hd. simpl in Hd.
  unfold dep, t. rewrite <-Hd. destruct (dependencyAnalysis_spec e l rw tid Hnz) as (H1 & H2 & H3).
  split_and!; [done..|apply dependencyAnalysis_table].
Qed.

Lemma dependency_analysis_exact_witness :
  let rmw := mkRWSet [mkRead "t" "k" ""] [mkWrite "t" "k" "v" false] in
  let t := reserve_all [(rmw, 9); (rmw, 4)] (new_MockReserveTable 1) in
  waw (dependencyAnalysis rmw 9 t).1 = true ∧
  conflict write_cells write_cells [(rmw, 4); (rmw, 9)] rmw 9.
Proof.
  set (rmw := mkRWSet _ _).
  destruct (dependency_analysis_exact 1 [(rmw, 4); (rmw, 9)] [(rmw, 9); (rmw, 4)] rmw 9)
    as [Hw _].
  - repeat constructor; discriminate.
  - apply perm_swap.
  - cbn zeta. split; [vm_compute; reflexivity|]. apply Hw. vm_compute. reflexivity.
Defined.
