(* ===== verification/MVCCReserveTable.v ===== *)
(** * The multi-version reserve table

    [src/block_server/reserve_table/mock/mock_mvcc_reserve_table.cpp]: the
    registers live in an [MVCCHashMap] from the key to a list of (table,
    register) tuples.  The analysis dereferences the pointer that
    [get_key_version] returns without a test. *)
From S2P Require Import Prelude Transaction HashMap MVCCHashMap ReserveTable.
From stdpp Require Import base list gmap strings.

Local Open Scope N_scope.

Local Notation mv_regs := (gmap string (list (string * N))).

(** The pointer to the register of a (table, key) cell. *)
Definition mv_get (c : string * string) (m : mv_regs) : option N :=
  (get_key_version c.1 (m !! c.2)).1.

(** Find the register or insert a zero one, then run the swap loop on it. *)
Definition mv_reserve_cell (tid : N) (m : mv_regs) (c : string * string) : mv_regs :=
  let e :=
    match mv_get c m with
    | None => (insert_key_version_holder c.1 (m !! c.2)).2
    | Some _ => m !! c.2
    end in
  let old := default 0 (get_key_version c.1 e).1 in
  <[c.2 := store_version c.1 (reserve_reg tid old) (default [] e)]> m.

Record MockMVCCReserveTable := mkMVRT {
  mv_epoch : N; mv_readTable : mv_regs; mv_writeTable : mv_regs }.

Definition new_MockMVCCReserveTable (e : N) : MockMVCCReserveTable := mkMVRT e ∅ ∅.

Definition mv_reserveRWSet (rw : KVRWSet) (tid : N) (t : MockMVCCReserveTable)
    : MockMVCCReserveTable :=
  mkMVRT (mv_epoch t)
    (foldl (mv_reserve_cell tid) (mv_readTable t) (read_cells rw))
    (foldl (mv_reserve_cell tid) (mv_writeTable t) (write_cells rw)).

Fixpoint mv_scan (tid : N) (cells : list (string * string)) (m : mv_regs) : outcome bool :=
  match cells with
  | [] => Ok false
  | c :: cells' =>
      old ← deref (mv_get c m);
      if (old <? tid) && negb (old =? 0) then Ok true else mv_scan tid cells' m
  end.

Definition mv_dependencyAnalysis (rw : KVRWSet) (tid : N) (t : MockMVCCReserveTable)
    : outcome TransactionDependency :=
  waw ← mv_scan tid (write_cells rw) (mv_writeTable t);
  war ← mv_scan tid (write_cells rw) (mv_readTable t);
  raw ← mv_scan tid (read_cells rw) (mv_writeTable t);
  Ok (mkDep waw war raw).

Definition getMVCCReserveTable (e : N) (p : option MockMVCCReserveTable)
    : MockMVCCReserveTable * option MockMVCCReserveTable :=
  match p with
  | None => (new_MockMVCCReserveTable e, Some (new_MockMVCCReserveTable e))
  | Some t =>
      if e =? mv_epoch t then (t, p)
      else (new_MockMVCCReserveTable e, Some (new_MockMVCCReserveTable e))
  end.

(** ** Registers *)
Lemma mv_get_reserve tid m c c' :
  mv_get c' (mv_reserve_cell tid m c) =
  if decide (c' = c) then Some (reserve_reg tid (default 0 (mv_get c m))) else mv_get c' m.
Proof.
  unfold mv_get, mv_reserve_cell. destruct c as [t k], c' as [t' k']; simpl.
  destruct (decide (k' = k)) as [->|Hk]; last first.
  { rewrite lookup_insert_ne by done. rewrite decide_False; [done|congruence]. }
  rewrite lookup_insert_eq. unfold get_key_version; simpl.
  destruct (decide (t' = t)) as [->|Ht].
  - rewrite decide_True by done. unfold mv_get, get_key_version; simpl.
    destruct (m !! k) as [l|]; simpl.
    + destruct (find_version t l) as [v|] eqn:E; simpl.
      * rewrite find_store by (by rewrite E). by rewrite E.
      * rewrite String.eqb_refl. simpl. by rewrite ?String.eqb_refl.
    + rewrite String.eqb_refl. simpl. by rewrite ?String.eqb_refl.
  - rewrite decide_False by congruence. rewrite find_store_ne by congruence.
    unfold mv_get, get_key_version; simpl.
    destruct (m !! k) as [l|]; simpl.
    + destruct (find_version t l) as [v|] eqn:E; simpl; [done|].
      by rewrite (proj2 (String.eqb_neq t t') (not_eq_sym Ht)).
    + by rewrite (proj2 (String.eqb_neq t t') (not_eq_sym Ht)).
Qed.

Lemma mv_reserve_cells_get tid cells m c :
  mv_get c (foldl (mv_reserve_cell tid) m cells) =
  if decide (c ∈ cells) then Some (reserve_reg tid (default 0 (mv_get c m))) else mv_get c m.
Proof.
  revert m. induction cells as [|c' cells IH]; intros m; cbn [foldl].
  { rewrite decide_False; [done | apply not_elem_of_nil]. }
  rewrite IH, mv_get_reserve.
  destruct (decide (c = c')) as [->|Hne];
    destruct (decide (_ ∈ cells)), (decide (_ ∈ c' :: cells)); try set_solver.
  simpl. by rewrite reserve_reg_idemp.
Qed.

Definition mv_reserve_all (l : list (KVRWSet * N)) (t : MockMVCCReserveTable)
    : MockMVCCReserveTable :=
  foldl (λ t p, mv_reserveRWSet p.1 p.2 t) t l.

(** The two implementations hold the same registers, and a pointer is null
    exactly when no transaction reserved the cell. *)
Definition mv_matches (m : mv_regs) (m' : gmap string (gmap string N)) : Prop :=
  ∀ c, default 0 (mv_get c m) = reg_load c m'.

Lemma mv_reserve_all_matches l e :
  let t := mv_reserve_all l (new_MockMVCCReserveTable e) in
  let t' := reserve_all l (new_MockReserveTable e) in
  mv_matches (mv_readTable t) (readTableList t') ∧
  mv_matches (mv_writeTable t) (writeTableList t').
Proof.
  cbn zeta.
  assert (∀ t t', mv_matches (mv_readTable t) (readTableList t') →
    mv_matches (mv_writeTable t) (writeTableList t') →
    mv_matches (mv_readTable (mv_reserve_all l t)) (readTableList (reserve_all l t')) ∧
    mv_matches (mv_writeTable (mv_reserve_all l t)) (writeTableList (reserve_all l t')))
    as Hgen.
  { unfold mv_reserve_all, reserve_all. induction l as [|[rw tid] l IH]; [done|].
    intros t t' Hr Hw. simpl.
    apply IH; intros c; simpl; rewrite mv_reserve_cells_get, reserve_cells_load;
      case_decide; simpl; rewrite ?Hr, ?Hw; done. }
  apply Hgen; intros c; unfold mv_get, reg_load; simpl; by rewrite lookup_empty.
Qed.

Lemma mv_scan_agrees tid cells m m' b :
  mv_matches m m' → mv_scan tid cells m = Ok b → b = (scan tid cells m').1.
Proof.
  intros Hm. revert m' Hm. induction cells as [|c cells IH]; intros m' Hm H; simpl in *.
  { by simplify_eq. }
  pose proof (Hm c) as Hc. destruct (mv_get c m) as [old|] eqn:E; simpl in *; [|done].
  rewrite <-Hc. destruct (_ && _); simpl in *; [by simplify_eq|].
  apply IH; [|done]. intros c'. rewrite reg_load_touch. apply Hm.
Qed.

(** where the multi-version table answers, it gives the answer of the hash map
    table. *)
Theorem mv_dependencyAnalysis_agrees l e rw tid dep :
  mv_dependencyAnalysis rw tid (mv_reserve_all l (new_MockMVCCReserveTable e)) = Ok dep →
  dep = (dependencyAnalysis rw tid (reserve_all l (new_MockReserveTable e))).1.
Proof.
  intros H. destruct (mv_reserve_all_matches l e) as [Hr Hw].
  unfold mv_dependencyAnalysis in H.
  apply outcome_bind_Ok in H as (b1 & H1 & H). apply outcome_bind_Ok in H as (b2 & H2 & H).
  apply outcome_bind_Ok in H as (b3 & H3 & H). injection H as <-.
  rewrite dependencyAnalysis_dep.
  by rewrite (mv_scan_agrees _ _ _ _ _ Hw H1), (mv_scan_agrees _ _ _ _ _ Hr H2),
    (mv_scan_agrees _ _ _ _ _ Hw H3).
Qed.

(** A pointer is null exactly when nobody reserved the cell. *)
Lemma mv_reserve_all_null l t c :
  (mv_get c (mv_readTable (mv_reserve_all l t)) = None ↔
    mv_get c (mv_readTable t) = None ∧ reservers read_cells c l = []) ∧
  (mv_get c (mv_writeTable (mv_reserve_all l t)) = None ↔
    mv_get c (mv_writeTable t) = None ∧ reservers write_cells c l = []).
Proof.
  revert t. unfold mv_reserve_all. induction l as [|[rw tid] l IH]; intros t; simpl; [naive_solver|].
  destruct (IH (mv_reserveRWSet rw tid t)) as [-> ->]. simpl.
  rewrite !mv_reserve_cells_get. unfold reservers. rewrite !filter_cons. simpl.
  split; case_decide; simpl; naive_solver.
Qed.

Lemma mv_scan_total tid cells m :
  (∀ c, c ∈ cells → is_Some (mv_get c m)) → ∃ b, mv_scan tid cells m = Ok b.
Proof.
  induction cells as [|c cells IH]; intros H; simpl; [by eexists|].
  destruct (H c) as [old ->]; [by left|]. simpl. destruct (_ && _); [by eexists|].
  apply IH. intros c' Hc'. apply H. by right.
Qed.

(** a transaction that writes a cell which no transaction of the epoch reads
    makes the analysis follow a null pointer. *)
Theorem mv_blind_write_crashes l e rw tid c cs :
  (rw, tid) ∈ l → write_cells rw = c :: cs →
  (∀ rw' tid', (rw', tid') ∈ l → c ∉ read_cells rw') →
  mv_dependencyAnalysis rw tid (mv_reserve_all l (new_MockMVCCReserveTable e)) = Fatal NullDeref.
Proof.
  intros Hl Hw Hr. unfold mv_dependencyAnalysis.
  destruct (mv_scan_total tid (write_cells rw)
    (mv_writeTable (mv_reserve_all l (new_MockMVCCReserveTable e)))) as [b ->].
  { intros c' Hc'. destruct (mv_get _ _) eqn:E; [by eexists|]. exfalso.
    apply mv_reserve_all_null in E as [_ E].
    assert (tid ∈ reservers write_cells c' l) as Hin.
    { apply elem_of_reservers. by exists rw. }
    rewrite E in Hin. by apply not_elem_of_nil in Hin. }
  simpl. rewrite Hw. simpl.
  rewrite (proj2 (proj1 (mv_reserve_all_null l _ c))); [done|].
  split; [by unfold mv_get; simpl; rewrite lookup_empty|].
  destruct (reservers read_cells c l) as [|i ids] eqn:E; [done|].
  exfalso. assert (i ∈ reservers read_cells c l) as Hi by (rewrite E; by left).
  apply elem_of_reservers in Hi as (rw' & H1 & H2). by apply (Hr rw' i).
Qed.

(** Two transactions on one cell: a reader and writer, and a blind writer. *)
Definition rmw : KVRWSet := mkRWSet [mkRead "t" "k" ""] [mkWrite "t" "k" "v" false].
Definition blind : KVRWSet := mkRWSet [] [mkWrite "t" "k" "w" false].

Lemma mv_dependencyAnalysis_agrees_witness :
  (dependencyAnalysis blind 9 (reserve_all [(rmw, 4); (blind, 9)] (new_MockReserveTable 1))).1 =
  mkDep true true false.
Proof.
  symmetry. apply (mv_dependencyAnalysis_agrees [(rmw, 4); (blind, 9)] 1 blind 9).
  vm_compute. reflexivity.
Defined.

Lemma mv_blind_write_crashes_witness :
  mv_dependencyAnalysis blind 9 (mv_reserve_all [(blind, 9)] (new_MockMVCCReserveTable 1)) =
  Fatal NullDeref.
Proof.
  apply (mv_blind_write_crashes [(blind, 9)] 1 blind 9 ("t", "k") []).
  - left.
  - reflexivity.
  - intros rw' tid' Hin Hc. apply list_elem_of_singleton in Hin. simplify_eq.
    by apply not_elem_of_nil in Hc.
Defined.
