(* ===== verification/Storage.v ===== *)
(** * Key-value storage

    [include/block_server/database/db_storage.h] is the interface that
    chaincodes and the database use; [HashMapStorage] and [LevelDBStorage] are
    its implementations that keep key-value pairs.  LevelDB itself is not part
    of the repository: its [Open], [Get], [Put] and [Delete] are parameters.

    [DBStorage] is the interface, [TableStorage] what a storage with separate
    tables promises: a total view from (table, key) cells to values, an absent
    cell reading as the empty string. *)
From S2P Require Import Prelude HashMap.
From stdpp Require Import base list gmap strings.

Class DBStorage (S : Type) := {
  createTable : string → string → string → S → outcome S;
  (** key, table; the value that the results iterator carries *)
  selectDB : string → string → S → outcome (string * S);
  (** key, table *)
  removeWriteSet : string → string → S → outcome S;
  (** key, value, table *)
  updateWriteSet : string → string → string → S → outcome S }.

(** A cell is a (table, key) pair. *)
Class TableStorage (S : Type) `{DBStorage S} := {
  view : S → string * string → string;
  createTable_spec t k v s : ∃ s', createTable t k v s = Ok s' ∧ ∀ c, view s' c = view s c;
  selectDB_spec k t s :
    ∃ s', selectDB k t s = Ok (view s (t, k), s') ∧ ∀ c, view s' c = view s c;
  removeWriteSet_spec k t s :
    ∃ s', removeWriteSet k t s = Ok s' ∧
      ∀ c, view s' c = if decide (c = (t, k)) then "" else view s c;
  updateWriteSet_spec k v t s :
    ∃ s', updateWriteSet k v t s = Ok s' ∧
      ∀ c, view s' c = if decide (c = (t, k)) then v else view s c }.

(** ** HashMapStorage: one map for all the tables *)
Module HashMapStorage.

(** The state is the [db] map; the table argument is ignored throughout. *)
Definition hms_createTable (tableName key value : string) (db : gmap string string)
    : outcome (gmap string string) := Ok db.

(** [db[key]] inserts an empty value when the key is absent. *)
Definition hms_selectDB (key table : string) (db : gmap string string)
    : outcome (string * gmap string string) :=
  let v := default "" (db !! key) in Ok (v, <[key := v]> db).

(** The removal is the argument of a [DCHECK]: it only happens in a build
    where [DCHECK] evaluates its condition. *)
Definition hms_removeWriteSet (debug : bool) (key table : string) (db : gmap string string)
    : outcome (gmap string string) :=
  if debug then
    _ ← CHECK (bool_decide (is_Some (db !! key))); Ok (delete key db)
  else Ok db.

Definition hms_updateWriteSet (key value table : string) (db : gmap string string)
    : outcome (gmap string string) := Ok (<[key := value]> db).

Definition hms_storage (debug : bool) : DBStorage (gmap string string) := {|
  createTable := hms_createTable;
  selectDB := hms_selectDB;
  removeWriteSet := hms_removeWriteSet debug;
  updateWriteSet := hms_updateWriteSet |}.

(** What a later read of a cell returns. *)
Definition hms_view (db : gmap string string) (c : string * string) : string :=
  default "" (db !! c.2).

Lemma hms_select_view key table db :
  ∃ db', hms_selectDB key table db = Ok (hms_view db (table, key), db') ∧
    ∀ c, hms_view db' c = hms_view db c.
Proof.
  eexists; split; [done|]. intros [t k]. unfold hms_view; cbn [fst snd].
  destruct (decide (k = key)) as [->|Hne].
  - by rewrite lookup_insert_eq.
  - by rewrite lookup_insert_ne.
Qed.

(** An update of a key is visible under every table name. *)
Lemma hms_update_view key value table db :
  ∃ db', hms_updateWriteSet key value table db = Ok db' ∧
    ∀ c, hms_view db' c = if decide (c.2 = key) then value else hms_view db c.
Proof.
  eexists; split; [done|]. intros [t k]. unfold hms_view; cbn [fst snd].
  destruct (decide (k = key)) as [->|Hne].
  - by rewrite lookup_insert_eq.
  - by rewrite lookup_insert_ne.
Qed.

(** Two tables with the same key share one cell. *)
Lemma hms_tables_alias key value t1 t2 db :
  ∃ db', hms_updateWriteSet key value t1 db = Ok db' ∧
    ∃ db'', hms_selectDB key t2 db' = Ok (value, db'').
Proof.
  eexists; split; [done|]. unfold hms_selectDB. rewrite lookup_insert_eq. by eexists.
Qed.

(** A delete in a release build leaves the value readable. *)
Lemma hms_release_delete_noop key table db :
  hms_removeWriteSet false key table db = Ok db.
Proof. done. Qed.

End HashMapStorage.

(** ** LevelDBStorage: one LevelDB database per table *)
Section LevelDB.
Context {ldb : Type}.
Context (ldb_open : string → option ldb).
Context (ldb_get : ldb → string → option string).
Context (ldb_put : ldb → string → string → bool * ldb).
Context (ldb_delete : ldb → string → bool * ldb).
Context (debug : bool).

(** The open partitions, by table name. *)
Local Notation partitions := (gmap string ldb).

Definition getTable (table : string) (db : partitions) : outcome (ldb * partitions) :=
  match db !! table with
  | Some d => Ok (d, db)
  | None =>
      match ldb_open table with
      | Some d => Ok (d, <[table := d]> db)
      | None => Fatal CheckFailed
      end
  end.

Definition ldb_createTable (tableName key value : string) (db : partitions)
    : outcome partitions := Ok db.

(** The status of [Get] is ignored: a missing key leaves [value] empty. *)
Definition ldb_selectDB (key table : string) (db : partitions)
    : outcome (string * partitions) :=
  '(d, db1) ← getTable table db;
  Ok (default "" (ldb_get d key), db1).

Definition ldb_removeWriteSet (key table : string) (db : partitions) : outcome partitions :=
  '(d, db1) ← getTable table db;
  let '(status, d') := ldb_delete d key in
  _ ← DCHECK debug status; Ok (<[table := d']> db1).

Definition ldb_updateWriteSet (key value table : string) (db : partitions)
    : outcome partitions :=
  '(d, db1) ← getTable table db;
  let '(status, d') := ldb_put d key value in
  _ ← DCHECK debug status; Ok (<[table := d']> db1).

#[global] Instance ldb_storage : DBStorage partitions := {|
  createTable := ldb_createTable;
  selectDB := ldb_selectDB;
  removeWriteSet := ldb_removeWriteSet;
  updateWriteSet := ldb_updateWriteSet |}.

(** What LevelDB documents: a database can be opened, a write succeeds and is
    what a later read returns, other keys are unaffected. *)
Record leveldb_ok : Prop := {
  open_ok t : is_Some (ldb_open t);
  put_status d k v : (ldb_put d k v).1 = true;
  put_get d k v k' :
    ldb_get (ldb_put d k v).2 k' = if decide (k' = k) then Some v else ldb_get d k';
  delete_status d k : (ldb_delete d k).1 = true;
  delete_get d k k' :
    ldb_get (ldb_delete d k).2 k' = if decide (k' = k) then None else ldb_get d k' }.

(** A table that is not open yet reads as LevelDB will find it on disk. *)
Definition ldb_view (db : partitions) (c : string * string) : string :=
  match db !! c.1 with
  | Some d => default "" (ldb_get d c.2)
  | None => match ldb_open c.1 with Some d => default "" (ldb_get d c.2) | None => "" end
  end.

Context (ok : leveldb_ok).

Lemma getTable_spec table db :
  ∃ d db1, getTable table db = Ok (d, db1) ∧ db1 !! table = Some d ∧
    (∀ c, ldb_view db1 c = ldb_view db c) ∧
    ∀ k, default "" (ldb_get d k) = ldb_view db (table, k).
Proof.
  unfold getTable. destruct (db !! table) as [d|] eqn:E.
  - exists d, db. split_and!; try done. intros k. unfold ldb_view. simpl. by rewrite E.
  - destruct (open_ok ok table) as [d Hd]. rewrite Hd. exists d, (<[table := d]> db).
    split_and!; [done | by rewrite lookup_insert_eq | |].
    + intros [t k]. unfold ldb_view. simpl. destruct (decide (t = table)) as [->|Hne].
      * by rewrite lookup_insert_eq, E, Hd.
      * by rewrite lookup_insert_ne.
    + intros k. unfold ldb_view. simpl. by rewrite E, Hd.
Qed.

Lemma ldb_view_insert table d' db c :
  ldb_view (<[table := d']> db) c =
  if decide (c.1 = table) then default "" (ldb_get d' c.2) else ldb_view db c.
Proof.
  unfold ldb_view. case_decide as Hc.
  - by rewrite Hc, lookup_insert_eq.
  - by rewrite lookup_insert_ne.
Qed.

(** Writing one key of one partition changes the view at that cell only. *)
Lemma ldb_view_write table key v d d' db1 db c :
  db1 !! table = Some d →
  (∀ c, ldb_view db1 c = ldb_view db c) →
  (∀ k', ldb_get d' k' = if decide (k' = key) then v else ldb_get d k') →
  ldb_view (<[table := d']> db1) c =
    if decide (c = (table, key)) then default "" v else ldb_view db c.
Proof.
  intros Hd Hdb Hd'. rewrite ldb_view_insert. destruct c as [t k]; cbn [fst snd].
  destruct (decide (t = table)) as [->|Ht].
  - rewrite Hd'. destruct (decide (k = key)) as [->|Hk].
    + by rewrite decide_True.
    + rewrite decide_False by congruence. rewrite <-Hdb. unfold ldb_view. simpl. by rewrite Hd.
  - rewrite decide_False by congruence. apply Hdb.
Qed.

#[global] Instance ldb_table_storage : TableStorage partitions.
Proof.
  refine {| view := ldb_view |}.
  - intros t k v s. by exists s.
  - intros k t s. destruct (getTable_spec t s) as (d & db1 & H1 & H2 & H3 & H4).
    exists db1. unfold selectDB; simpl. unfold ldb_selectDB. rewrite H1. simpl. by rewrite H4.
  - intros k t s. destruct (getTable_spec t s) as (d & db1 & H1 & H2 & H3 & H4).
    unfold removeWriteSet; simpl. unfold ldb_removeWriteSet. rewrite H1. simpl.
    pose proof (delete_status ok d k) as Hst. pose proof (delete_get ok d k) as Hg.
    destruct (ldb_delete d k) as [st d']; simpl in *. subst st.
    exists (<[t := d']> db1). split; [by destruct debug|]. intros c.
    by rewrite (ldb_view_write t k None d d' db1 s).
  - intros k v t s. destruct (getTable_spec t s) as (d & db1 & H1 & H2 & H3 & H4).
    unfold updateWriteSet; simpl. unfold ldb_updateWriteSet. rewrite H1. simpl.
    pose proof (put_status ok d k v) as Hst. pose proof (put_get ok d k v) as Hg.
    destruct (ldb_put d k v) as [st d']; simpl in *. subst st.
    exists (<[t := d']> db1). split; [by destruct debug|]. intros c.
    by rewrite (ldb_view_write t k (Some v) d d' db1 s).
Defined.

End LevelDB.

(** ** An in-memory LevelDB, which satisfies what is assumed of the real one *)
Module MemLevelDB.

Definition mem_open (t : string) : option (gmap string string) := Some ∅.
Definition mem_get (d : gmap string string) (k : string) : option string := d !! k.
Definition mem_put (d : gmap string string) (k v : string) : bool * gmap string string :=
  (true, <[k := v]> d).
Definition mem_delete (d : gmap string string) (k : string) : bool * gmap string string :=
  (true, delete k d).

Lemma mem_leveldb_ok : leveldb_ok mem_open mem_get mem_put mem_delete.
Proof.
  split; unfold mem_open, mem_get, mem_put, mem_delete; simpl.
  - by eexists.
  - done.
  - intros d k v k'. case_decide; simplify_map_eq; done.
  - done.
  - intros d k k'. case_decide; simplify_map_eq; done.
Qed.

Definition mem_storage : DBStorage (gmap string (gmap string string)) :=
  ldb_storage mem_open mem_get mem_put mem_delete false.

Definition mem_table_storage : @TableStorage _ mem_storage :=
  ldb_table_storage mem_open mem_get mem_put mem_delete false mem_leveldb_ok.

End MemLevelDB.
