(* ===== verification/Orm.v ===== *)
(** * The chaincode ORM

    [src/block_server/database/orm]: how a chaincode reads and writes.  A
    query selects one key from the storage and its results iterator records
    the read the first time a column is read; an insert buffers a write.
    Nothing reaches the storage before the commit phase.

    A chaincode is a function in the monad [CC]: it sees the transaction id
    and the read-only flag, threads the storage (reading may open a LevelDB
    partition), the read-write set of its transaction and the tables it
    creates, and it may stop the process ([Fatal]). *)
From S2P Require Import Prelude Transaction Storage.
From stdpp Require Import base list gmap strings.

(** ** Table definitions *)
Inductive ORMFieldType :=
  | AutoField | BinaryField | BooleanField | IntegerFiled | PositiveIntegerFiled | CharFiled
  | TextFiled | DateTimeField | FloatFiled | DecimalFiled | ForeignKey | OneToOneField
  | ManyToManyField.

Record ORMFieldBase := mkField {
  fieldType : ORMFieldType; columnName : string;
  fd_primary : bool; fd_unique : bool; fd_nil : bool; fd_index : bool;
  fd_maxLength : option N }.

Definition IntField (column_name : string) (nil : bool) : ORMFieldBase :=
  mkField IntegerFiled column_name false false nil false None.
Definition CharField (column_name : string) (max_length : N) (nil : bool) : ORMFieldBase :=
  mkField CharFiled column_name false false nil false (Some max_length).
Definition setPrimary (p : bool) (f : ORMFieldBase) : ORMFieldBase :=
  mkField (fieldType f) (columnName f) p (fd_unique f) (fd_nil f) (fd_index f) (fd_maxLength f).

Record ORMTableImpl := mkTable { tb_name : string; tb_fields : list ORMFieldBase }.

Definition addField (f : ORMFieldBase) (t : ORMTableImpl) : ORMTableImpl :=
  mkTable (tb_name t) (tb_fields t ++ [f]).
Definition fieldSize (t : ORMTableImpl) : nat := length (tb_fields t).
(** [getField] returns null out of range. *)
Definition getField (id : nat) (t : ORMTableImpl) : option ORMFieldBase := tb_fields t !! id.

Definition ARIA_SYS_TABLE : string := "aria_sys_table".

(** ** The chaincode monad *)
Record cc_env := mkEnv { cc_tid : N; cc_readOnly : bool }.

Section Orm.
Context {S : Type} `{DBStorage S}.

Record cc_state := mkCC {
  cc_store : S; cc_rwset : KVRWSet; cc_tables : list ORMTableImpl }.

Definition CC (A : Type) : Type := cc_env → cc_state → outcome (A * cc_state).

#[global] Instance CC_ret : MRet CC := λ A a env st, Ok (a, st).
#[global] Instance CC_bind : MBind CC := λ A B f m env st,
  match m env st with Ok (a, st') => f a env st' | Fatal e => Fatal e end.

Definition cc_lift {A} (m : outcome A) : CC A := λ env st,
  match m with Ok a => Ok (a, st) | Fatal e => Fatal e end.
Definition cc_set_rwset (rw : KVRWSet) (st : cc_state) : cc_state :=
  mkCC (cc_store st) rw (cc_tables st).

(** ** Results iterator ([LevelDBResultsIterator]) *)
Record LevelDBResultsIterator := mkIter {
  it_key : string; it_value : string; it_table : string;
  it_index : Z; it_readKeys : list string }.

(** [return 1 - index] converted to [bool]. *)
Definition hasNext (it : LevelDBResultsIterator) : bool := negb (1 - it_index it =? 0)%Z.

Definition next (it : LevelDBResultsIterator) : bool * LevelDBResultsIterator :=
  if hasNext it then
    let i := (it_index it + 1)%Z in
    (negb (i =? 0)%Z, mkIter (it_key it) (it_value it) (it_table it) i (it_readKeys it))
  else (false, it).

Definition getString (attr : string) (it : LevelDBResultsIterator)
    : CC (string * LevelDBResultsIterator) := λ env st,
  let '(it', st') :=
    if bool_decide (it_key it ∈ it_readKeys it) then (it, st)
    else
      (mkIter (it_key it) (it_value it) (it_table it) (it_index it) (it_key it :: it_readKeys it),
       cc_set_rwset (add_read (mkRead (it_table it) (it_key it) (it_value it)) (cc_rwset st)) st)
  in
  Ok ((if String.eqb attr "key" then it_key it else it_value it, it'), st').

(** ** Queries *)
Record QueryImpl := mkQuery { q_table : string; q_col : string }.

Definition newQuery (tableName : string) : CC QueryImpl := mret (mkQuery tableName "").

(** The string filter keeps its last argument, whatever the attribute and the
    range; the numeric filters do nothing. *)
Definition filter_str (attr arg : string) (q : QueryImpl) : QueryImpl := mkQuery (q_table q) arg.

Definition executeQuery (q : QueryImpl) : CC LevelDBResultsIterator := λ env st,
  '(v, s') ← selectDB (q_col q) (q_table q) (cc_store st);
  Ok (mkIter (q_col q) v (q_table q) 0 [], mkCC s' (cc_rwset st) (cc_tables st)).

(** ** Inserts *)
Record InsertImpl := mkInsert { in_table : string; in_key : string }.

Definition newInsert (tableName : string) : CC InsertImpl := λ env st,
  _ ← CHECK (negb (cc_readOnly env)); Ok (mkInsert tableName "", st).

(** A second write to a key stops the process, in whatever table. *)
Definition insert_set (attr value : string) (ins : InsertImpl) : CC (bool * InsertImpl) :=
  λ env st,
  if String.eqb attr "key" then Ok ((true, mkInsert (in_table ins) value), st)
  else if String.eqb attr "value" then
    _ ← CHECK (negb (existsb (λ w, String.eqb (wr_key w) (in_key ins)) (writes (cc_rwset st))));
    Ok ((true, ins),
        cc_set_rwset
          (add_write (mkWrite (in_table ins) (in_key ins) value false) (cc_rwset st)) st)
  else Ok ((false, ins), st).

(** ** Tables: the handle of a created table is its index in [tableList] *)
Definition cc_createTable (to_string : N → string) (tableName : string) : CC nat := λ env st,
  let w := mkWrite ARIA_SYS_TABLE tableName
             (String.append "place holder of " (to_string (cc_tid env))) false in
  Ok (length (cc_tables st),
      mkCC (cc_store st) (add_write w (cc_rwset st)) (cc_tables st ++ [mkTable tableName []])).

Definition cc_addField (h : nat) (f : ORMFieldBase) : CC unit := λ env st,
  t ← at_index (cc_tables st) h;
  Ok (tt, mkCC (cc_store st) (cc_rwset st) (<[h := addField f t]> (cc_tables st))).

End Orm.

Arguments cc_state : clear implicits.
Arguments CC : clear implicits.
Arguments mkCC {S} _ _ _.

(** ** What the monad promises to the executor

    [Local m]: a run of [m] leaves the view of the storage alone, only appends
    reads, records for each read the value it saw, and depends on the storage
    only through the cells it records as read. *)
Section Locality.
Context {S : Type} `{TableStorage S}.

Definition reads_sound (st : cc_state S) : Prop :=
  Forall (λ r, rd_value r = view (cc_store st) (rd_table r, rd_key r)) (reads (cc_rwset st)).

Record cc_frame {A} (m : CC S A) : Prop := {
  frame_view env st a st' : m env st = Ok (a, st') →
    ∀ c, view (cc_store st') c = view (cc_store st) c;
  frame_reads env st a st' : m env st = Ok (a, st') →
    reads (cc_rwset st) `prefix_of` reads (cc_rwset st');
  frame_sound env st a st' : m env st = Ok (a, st') → reads_sound st → reads_sound st' }.

(** Two states that differ in the storage only. *)
Definition same_locals (st1 st2 : cc_state S) : Prop :=
  cc_rwset st1 = cc_rwset st2 ∧ cc_tables st1 = cc_tables st2.

Definition agree_on (cells : list (string * string)) (st1 st2 : cc_state S) : Prop :=
  ∀ c, c ∈ cells → view (cc_store st1) c = view (cc_store st2) c.

Class Local {A} (m : CC S A) : Prop := {
  local_frame : cc_frame m;
  local_run env st1 st2 a st1' :
    m env st1 = Ok (a, st1') → same_locals st1 st2 →
    agree_on (read_cells (cc_rwset st1')) st1 st2 →
    ∃ st2', m env st2 = Ok (a, st2') ∧ same_locals st1' st2' }.

Lemma read_cells_prefix rw1 rw2 c :
  reads rw1 `prefix_of` reads rw2 → c ∈ read_cells rw1 → c ∈ read_cells rw2.
Proof.
  intros [k E] Hc. unfold read_cells in *. rewrite E, fmap_app. apply elem_of_app. by left.
Qed.

#[global] Instance ret_local {A} (a : A) : Local (mret a : CC S A).
Proof.
  split; [split|]; unfold mret, CC_ret; intros; simplify_eq/=; try done. by eexists.
Qed.

Lemma CC_bind_Ok {A B} (m : CC S A) (k : A → CC S B) env st b st'' :
  (m ≫= k) env st = Ok (b, st'') →
  ∃ a st', m env st = Ok (a, st') ∧ k a env st' = Ok (b, st'').
Proof.
  unfold mbind, CC_bind. destruct (m env st) as [[a st']|e] eqn:E; [|done].
  intros Hk. by exists a, st'.
Qed.

#[global] Instance bind_local {A B} (m : CC S A) (k : A → CC S B) :
  Local m → (∀ a, Local (k a)) → Local (m ≫= k).
Proof.
  intros Lm Lk. split; [split|].
  - intros env st b st'' (a & st' & E1 & E2)%CC_bind_Ok c.
    rewrite (frame_view _ (local_frame (m := k a)) _ _ _ _ E2).
    by rewrite (frame_view _ (local_frame (m := m)) _ _ _ _ E1).
  - intros env st b st'' (a & st' & E1 & E2)%CC_bind_Ok.
    etrans.
    + exact (frame_reads m local_frame _ _ _ _ E1).
    + exact (frame_reads (k a) local_frame _ _ _ _ E2).
  - intros env st b st'' (a & st' & E1 & E2)%CC_bind_Ok Hs.
    apply (frame_sound (k a) local_frame _ _ _ _ E2).
    exact (frame_sound m local_frame _ _ _ _ E1 Hs).
  - intros env st1 st2 b st1'' (a & st1' & E1 & E2)%CC_bind_Ok Hs Hag.
    destruct (local_run (m := m) env st1 st2 a st1' E1 Hs) as (st2' & E1' & Hs').
    { intros c Hc. apply Hag. eapply read_cells_prefix; [|done].
      exact (frame_reads (k a) local_frame _ _ _ _ E2). }
    destruct (local_run (m := k a) env st1' st2' b st1'' E2 Hs') as (st2'' & E2' & Hs'').
    { intros c Hc. rewrite (frame_view _ (local_frame (m := m)) _ _ _ _ E1).
      rewrite (frame_view _ (local_frame (m := m)) _ _ _ _ E1'). by apply Hag. }
    exists st2''. split; [|done]. unfold mbind, CC_bind. by rewrite E1'.
Qed.

#[global] Instance lift_local {A} (m : outcome A) : Local (cc_lift m : CC S A).
Proof.
  split; [split|]; unfold cc_lift; destruct m; intros; simplify_eq; try done. by eexists.
Qed.

#[global] Instance if_local {A} (b : bool) (m1 m2 : CC S A) :
  Local m1 → Local m2 → Local (if b then m1 else m2).
Proof. by destruct b. Qed.

#[global] Instance newQuery_local t : Local (newQuery (S := S) t).
Proof. apply _. Qed.

(** A primitive that touches neither the storage nor the reads. *)
Lemma prim_local {A} (m : CC S A)
    (f : cc_env → KVRWSet → list ORMTableImpl → outcome (A * KVRWSet * list ORMTableImpl)) :
  (∀ env rw tb a rw' tb', f env rw tb = Ok (a, rw', tb') → reads rw' = reads rw) →
  (∀ env st, m env st =
     '(a, rw', tb') ← f env (cc_rwset st) (cc_tables st); Ok (a, mkCC (cc_store st) rw' tb')) →
  Local m.
Proof.
  intros Hf Hm.
  assert (∀ env st a st', m env st = Ok (a, st') → ∃ rw' tb',
    f env (cc_rwset st) (cc_tables st) = Ok (a, rw', tb') ∧ st' = mkCC (cc_store st) rw' tb') as Hi.
  { intros env st a st' E. rewrite Hm in E.
    destruct (f _ _ _) as [[[a' rw'] tb']|e]; simplify_eq/=. by eexists _, _. }
  split; [split|].
  - intros env st a st' (rw' & tb' & E & ->)%Hi c. done.
  - intros env st a st' (rw' & tb' & E & ->)%Hi. simpl. by rewrite (Hf _ _ _ _ _ _ E).
  - intros env st a st' (rw' & tb' & E & ->)%Hi Hs. unfold reads_sound in *. simpl in *.
    by rewrite (Hf _ _ _ _ _ _ E).
  - intros env st1 st2 a st1' (rw' & tb' & E & ->)%Hi [E1 E2] _.
    exists (mkCC (cc_store st2) rw' tb'). rewrite Hm, <-E1, <-E2, E. done.
Qed.

#[global] Instance newInsert_local t : Local (newInsert (S := S) t).
Proof.
  apply (prim_local _ (λ env rw tb,
    _ ← CHECK (negb (cc_readOnly env)); Ok (mkInsert t "", rw, tb))).
  - intros env rw tb a rw' tb' E. destruct (cc_readOnly env); by simplify_eq/=.
  - intros env [s rw tb]. unfold newInsert. by destruct (cc_readOnly env).
Qed.

#[global] Instance insert_set_local attr v ins : Local (insert_set (S := S) attr v ins).
Proof.
  apply (prim_local _ (λ env rw tb,
    if String.eqb attr "key" then Ok ((true, mkInsert (in_table ins) v), rw, tb)
    else if String.eqb attr "value" then
      _ ← CHECK (negb (existsb (λ w, String.eqb (wr_key w) (in_key ins)) (writes rw)));
      Ok ((true, ins), add_write (mkWrite (in_table ins) (in_key ins) v false) rw, tb)
    else Ok ((false, ins), rw, tb))).
  - intros env rw tb a rw' tb' E.
    repeat case_match; try done; simplify_eq; [done| |done].
    destruct (existsb (λ w, String.eqb (wr_key w) (in_key ins)) (writes rw)); by simplify_eq/=.
  - intros env [s rw tb]. unfold insert_set; simpl.
    repeat case_match; try done.
    by destruct (existsb (λ w, String.eqb (wr_key w) (in_key ins)) (writes rw)).
Qed.

#[global] Instance createTable_local ts t : Local (cc_createTable (S := S) ts t).
Proof.
  apply (prim_local _ (λ env rw tb, Ok (length tb,
    add_write (mkWrite ARIA_SYS_TABLE t
      (String.append "place holder of " (ts (cc_tid env))) false) rw,
    tb ++ [mkTable t []]))).
  - intros. by simplify_eq/=.
  - by intros env [s rw tb].
Qed.

#[global] Instance addField_local h f : Local (cc_addField (S := S) h f).
Proof.
  apply (prim_local _ (λ env rw tb,
    t ← at_index tb h; Ok (tt, rw, <[h := addField f t]> tb))).
  - intros env rw tb a rw' tb' E. destruct (at_index tb h); by simplify_eq/=.
  - intros env [s rw tb]. unfold cc_addField; simpl. by destruct (at_index tb h).
Qed.

(** A query followed by a read of a column. *)
Definition iter_after (q : QueryImpl) (v : string) : LevelDBResultsIterator :=
  mkIter (q_col q) v (q_table q) 0 [q_col q].

Lemma query_read_run q attr env st :
  ∃ s', (∀ c, view s' c = view (cc_store st) c) ∧
  (it ← executeQuery q; getString attr it) env st =
    let v := view (cc_store st) (q_table q, q_col q) in
    Ok ((if String.eqb attr "key" then q_col q else v, iter_after q v),
        mkCC s' (add_read (mkRead (q_table q) (q_col q) v) (cc_rwset st)) (cc_tables st)).
Proof.
  unfold mbind, CC_bind, executeQuery.
  destruct (selectDB_spec (q_col q) (q_table q) (cc_store st)) as (s' & E & Hv).
  exists s'. split; [done|]. rewrite E. done.
Qed.

(** A program that reads one cell, records it and returns a function of the
    value is local. *)
Lemma reader_local {A} (m : CC S A) (c : string * string) (f : string → A) :
  (∀ env st, ∃ s', (∀ c', view s' c' = view (cc_store st) c') ∧
    m env st =
      Ok (f (view (cc_store st) c),
          mkCC s' (add_read (mkRead c.1 c.2 (view (cc_store st) c)) (cc_rwset st))
            (cc_tables st))) →
  Local m.
Proof.
  intros Hm. split; [split|].
  - intros env st a st' E c'. destruct (Hm env st) as (s' & Hv & E').
    rewrite E' in E. simplify_eq/=. apply Hv.
  - intros env st a st' E. destruct (Hm env st) as (s' & Hv & E').
    rewrite E' in E. simplify_eq/=. by apply prefix_app_r.
  - intros env st a st' E Hs. destruct (Hm env st) as (s' & Hv & E').
    rewrite E' in E. simplify_eq/=. unfold reads_sound in *. simpl. apply Forall_app. split.
    + eapply Forall_impl; [done|]. intros r Hr. by rewrite Hv.
    + constructor; [|done]. simpl. rewrite Hv. by destruct c.
  - intros env st1 st2 a st1' E [E1 E2] Hag.
    destruct (Hm env st1) as (s1 & Hv1 & R1). destruct (Hm env st2) as (s2 & Hv2 & R2).
    rewrite R1 in E. simplify_eq/=. rewrite R2. rewrite <-(Hag c).
    + eexists. split; [done|]. split; simpl; congruence.
    + unfold read_cells. simpl. rewrite fmap_app. apply elem_of_app. right.
      apply list_elem_of_singleton. by destruct c.
Qed.

(** A for loop over a list whose body threads a value. *)
Fixpoint cc_for {X T} (f : X → T → CC S T) (l : list X) (x : T) : CC S T :=
  match l with
  | [] => mret x
  | a :: l' => x' ← f a x; cc_for f l' x'
  end.

#[global] Instance cc_for_local {X T} (f : X → T → CC S T) l x :
  (∀ a x', Local (f a x')) → Local (cc_for f l x).
Proof. intros Hf. revert x. induction l as [|a l IH]; intros x; simpl; apply _. Qed.

End Locality.
