(* ===== verification/SqlStorage.v ===== *)
(** * The SQL back end

    [database/db_connection.cpp], [database/impl/db_storage_impl.cpp] and
    [database/orm/impl/results_iterator_impl.cpp]: the storage that is compiled
    in when neither key-value back end is chosen.  The statements are built as
    text and run over a pool of fifty connections; the table structure is kept
    in an LRU cache; a result is read through an iterator.

    PostgreSQL is a parameter: [exec] runs a statement in a transaction of its
    own, [None] when that throws. *)
From S2P Require Import Prelude LruCache Transaction.
From Stdlib Require Import ZArith NArith Lia.
From stdpp Require Import base list gmap strings relations.

(** ** Statements *)
Local Notation "a +++ b" := (String.append a b) (at level 60, right associativity).

Definition sql_create (tableName key value : string) : string :=
  "create table " +++ tableName +++ "(" +++ key +++ " varchar(255) primary key not null," +++ value +++ " varchar(255) not null)".
Definition sql_select (key table : string) : string :=
  "select * from " +++ table +++ " where key ='" +++ key +++ "'".
Definition sql_structure (table : string) : string := "select * from " +++ table +++ " limit 1".
Definition sql_remove (key table : string) : string :=
  "UPDATE " +++ table +++ " SET key = NULL, value = NULL WHERE key = '" +++ key +++ "'".
Definition sql_update (key value table : string) : string :=
  "INSERT INTO " +++ table +++ " VALUES ('" +++ key +++ "' , '" +++ value +++ "')" +++ String (Ascii.ascii_of_nat 10)
  ("ON CONFLICT (key) DO UPDATE SET key ='" +++ key +++ "' , value ='" +++ value +++ "'").

(** What SQL reads as a string literal, after the opening quote: up to a quote
    that is not doubled. *)
Definition quote : Ascii.ascii := Ascii.ascii_of_nat 39.
Fixpoint sql_literal (s : string) : option (string * string) :=
  match s with
  | EmptyString => None
  | String c s' =>
      if Ascii.eqb c quote then
        match s' with
        | String d s'' =>
            if Ascii.eqb d quote then '(l, rest) ← sql_literal s''; Some (String quote l, rest) else Some (EmptyString, s')
        | EmptyString => Some (EmptyString, EmptyString)
        end
      else '(l, rest) ← sql_literal s'; Some (String c l, rest)
  end.

Fixpoint no_quote (s : string) : bool :=
  match s with EmptyString => true | String c s => negb (Ascii.eqb c quote) && no_quote s end.
Definition starts_quote (s : string) : bool := match s with String c _ => Ascii.eqb c quote | EmptyString => false end.

Lemma literal_plain k rest :
  no_quote k = true → starts_quote rest = false → sql_literal (k +++ String quote rest) = Some (k, rest).
Proof.
  intros Hk Hr. induction k as [|c k IH].
  - change ("" +++ String quote rest) with (String quote rest). simpl. destruct rest as [|d rest]; [done|]. simpl in Hr. by rewrite Hr.
  - simpl in Hk. apply andb_prop in Hk as [Hc Hk]. change (String c k +++ String quote rest) with (String c (k +++ String quote rest)).
    simpl. apply negb_true_iff in Hc. by rewrite Hc, (IH Hk).
Qed.

(** Keys and values without quotes arrive as they are. *)
Lemma statements_read_back k v t :
  no_quote k = true → no_quote v = true →
  (∃ l, sql_select k t = ("select * from " +++ t +++ " where key =") +++ String quote l ∧ sql_literal l = Some (k, "")) ∧
  (∃ l l' rest, sql_update k v t = ("INSERT INTO " +++ t +++ " VALUES (") +++ String quote l ∧
     sql_literal l = Some (k, " , " +++ String quote l') ∧ sql_literal l' = Some (v, rest)).
Proof.
  intros Hk Hv. assert (∀ a b c, (a +++ b) +++ c = a +++ b +++ c) as Ha.
  { intros a b c. induction a as [|x a IH]; [done|]. exact (f_equal (String x) IH). }
  split.
  - exists (k +++ "'"). unfold sql_select. rewrite !Ha. split; [done|]. by apply literal_plain.
  - exists (k +++ String quote (" , " +++ String quote (v +++ String quote (")" +++ String (Ascii.ascii_of_nat 10)
      ("ON CONFLICT (key) DO UPDATE SET key ='" +++ k +++ "' , value ='" +++ v +++ "'"))))).
    do 2 eexists. unfold sql_update. rewrite !Ha. split_and!; [done|by apply literal_plain|by apply literal_plain].
Qed.

(** A key with a quote ends the literal early, and the rest is read as SQL. *)
Example quote_is_not_escaped :
  sql_literal ("x' or key <> 'x" +++ "'") = Some ("x", " or key <> 'x'").
Proof. reflexivity. Qed.

(** ** The storage *)
Definition row : Type := list (string * string).

Section Storage.
Context {PG : Type} (exec : string → PG → option (list row * PG)).
(** The type that a column of a result has. *)
Context (column_type : list row → string → N).

Record DBStorageImpl := mkSql { sql_db : PG; tableCache : Cache string (list row) }.

(** Whether the statement was committed, its result, and the database. *)
Definition executeTransaction (sql : string) (db : PG) : bool * list row * PG :=
  match exec sql db with
  | Some (r, db) => (true, r, db)
  | None => (false, [], db)
  end.

Definition run_sql (sql : string) (s : DBStorageImpl) : DBStorageImpl := mkSql (executeTransaction sql (sql_db s)).2 (tableCache s).
Definition db_createTable (tableName key value : string) : DBStorageImpl → DBStorageImpl := run_sql (sql_create tableName key value).
Definition db_removeWriteSet (key table : string) : DBStorageImpl → DBStorageImpl := run_sql (sql_remove key table).
Definition db_updateWriteSet (key value table : string) : DBStorageImpl → DBStorageImpl := run_sql (sql_update key value table).

(** The rows that the iterator gets. *)
Definition db_selectDB (key table : string) (s : DBStorageImpl) : list row * DBStorageImpl :=
  let '(_, r, db) := executeTransaction (sql_select key table) (sql_db s) in (r, mkSql db (tableCache s)).

(** The types of the two columns, [None] for the result false. *)
Definition db_getTableStructure (table : string) (s : DBStorageImpl) : outcome (option (N * N) * DBStorageImpl) :=
  let types r := Some (column_type r "key", column_type r "value") in
  '(cached, cache) ← tryGet table (tableCache s);
  match cached with
  | Some r => Ok (types r, mkSql (sql_db s) cache)
  | None =>
      let '(ok, r, db) := executeTransaction (sql_structure table) (sql_db s) in
      if negb ok then Ok (None, mkSql db cache)
      else
        '(cached, cache) ← tryGet table cache;
        match cached with
        | Some r => Ok (types r, mkSql db cache)
        | None => cache ← lru_insert table r cache; Ok (types r, mkSql db cache)
        end
  end.

(** An error is not reported: a failed select looks like an absent row, a failed
    write like a write. *)
Lemma failed_statement sql s : exec sql (sql_db s) = None → run_sql sql s = s.
Proof. intros E. unfold run_sql, executeTransaction. rewrite E. by destruct s. Qed.
Lemma failed_select key table s : exec (sql_select key table) (sql_db s) = None → db_selectDB key table s = ([], s).
Proof. intros E. unfold db_selectDB, executeTransaction. rewrite E. by destruct s. Qed.

(** The structure of a table is asked for once: after it was found, the same
    answer comes from the cache, without a statement. *)
Definition cached (table : string) (r : list row) (s : DBStorageImpl) : Prop :=
  lru_ok (tableCache s) ∧ value_of table (entries (tableCache s)) = Some r.

Lemma value_of_head (k : string) (v : list row) l : value_of k ((k, v) :: l) = Some v.
Proof. unfold value_of. simpl. by rewrite bool_decide_eq_true_2. Qed.

Lemma structure_hit table r s :
  cached table r s →
  ∃ s', db_getTableStructure table s = Ok (Some (column_type r "key", column_type r "value"), s') ∧
    sql_db s' = sql_db s ∧ cached table r s'.
Proof.
  intros [Hc Hv]. unfold db_getTableStructure. destruct (tryGet_ok _ table Hc) as (c & -> & Hok & He & _).
  rewrite Hv. eexists. split_and!; [done|done|]. split; [done|]. simpl. unfold spec_touch in He. rewrite Hv in He.
  rewrite He. apply value_of_head.
Qed.

Lemma structure_cached table s r s' :
  lru_ok (tableCache s) → maxSize_ (tableCache s) ≠ 0%nat → db_getTableStructure table s = Ok (Some r, s') →
  ∃ v s'', cached table v s' ∧ db_getTableStructure table s' = Ok (Some r, s'') ∧ sql_db s'' = sql_db s'.
Proof.
  intros Hc Hm E. assert (∃ v, cached table v s' ∧ r = (column_type v "key", column_type v "value")) as (v & Hv & ->).
  2: { destruct (structure_hit table v s' Hv) as (s'' & E' & Hs & _). eauto. }
  destruct (value_of table (entries (tableCache s))) as [v|] eqn:Ev.
  { destruct (structure_hit table v s (conj Hc Ev)) as (s1 & E1 & _ & H1). rewrite E1 in E. simplify_eq. eauto. }
  unfold db_getTableStructure in E. destruct (tryGet_ok _ table Hc) as (c & E1 & Hok & He & Hmax & _). rewrite E1, Ev in E.
  simpl in E. destruct (executeTransaction _ _) as [[[] v] db]; [|done]. simpl in E.
  unfold spec_touch in He. rewrite Ev in He.
  destruct (tryGet_ok _ table Hok) as (c2 & E2 & Hok2 & He2 & Hmax2 & _). unfold spec_touch in He2. rewrite He, Ev in He2, E2.
  rewrite E2 in E. simpl in E. destruct (insert_ok c2 table v Hok2) as (c3 & E3 & Hok3 & He3 & _). rewrite E3 in E.
  simplify_eq/=. exists v. split; [|done]. split; [done|]. simpl. rewrite He3, He2. unfold spec_insert. rewrite Ev.
  unfold spec_cut. destruct (_ || _); [apply value_of_head|].
  rewrite Hmax2, Hmax. destruct (maxSize_ (tableCache s)); [done|]. apply value_of_head.
Qed.

(** ** The iterator *)
Record ResultsIteratorImpl := mkRows { ri_result : list row; ri_table : string; ri_index : nat; ri_readKeys : list string }.

Definition ri_hasNext (it : ResultsIteratorImpl) : bool := negb (length (ri_result it) =? ri_index it)%nat.
Definition ri_next (it : ResultsIteratorImpl) : bool * ResultsIteratorImpl :=
  if ri_hasNext it then (true, mkRows (ri_result it) (ri_table it) (S (ri_index it)) (ri_readKeys it)) else (false, it).

(** A column that does not exist throws. *)
Definition column (attr : string) (r : row) : outcome string :=
  deref (snd <$> List.find (λ x, String.eqb x.1 attr) r).

Definition ri_getString (attr : string) (it : ResultsIteratorImpl) (rw : KVRWSet) : outcome (string * ResultsIteratorImpl * KVRWSet) :=
  r ← at_index (ri_result it) (ri_index it);
  k ← at_index r 0;
  v ← column attr r;
  Ok (if bool_decide (k.2 ∈ ri_readKeys it) then (v, it, rw)
      else (v, mkRows (ri_result it) (ri_table it) (ri_index it) (k.2 :: ri_readKeys it),
            add_read (mkRead (ri_table it) k.2 "") rw)).

(** The loop over a result, [for (; hasNext(); next())]; the fuel is the number
    of rows. *)
Fixpoint read_rows (fuel : nat) (attr : string) (it : ResultsIteratorImpl) (rw : KVRWSet) : outcome (list string * KVRWSet) :=
  match fuel with
  | O => Ok ([], rw)
  | S fuel =>
      if ri_hasNext it then
        '(v, it, rw) ← ri_getString attr it rw;
        '(l, rw) ← read_rows fuel attr (ri_next it).2 rw;
        Ok (v :: l, rw)
      else Ok ([], rw)
  end.

(** A row with its two columns. *)
Definition kv_row (x : string * string) : row := [("key", x.1); ("value", x.2)].

Lemma read_rows_from table l l' seen rw :
  NoDup (l ++ l').*1 → (∀ x, x ∈ seen → x ∈ l.*1) →
  read_rows (length l') "value" (mkRows (kv_row <$> (l ++ l')) table (length l) seen) rw =
  Ok (l'.*2, foldl (λ rw k, add_read (mkRead table k "") rw) rw l'.*1).
Proof.
  revert l seen rw. induction l' as [|[k v] l' IH]; intros l seen rw Hnd Hs; [done|]. cbn [read_rows length].
  unfold ri_hasNext. cbn [ri_result ri_index].
  rewrite (proj2 (Nat.eqb_neq _ _)) by (rewrite length_fmap, length_app; simpl; lia). cbn [negb].
  unfold ri_getString. cbn [ri_result ri_index].
  assert (at_index (kv_row <$> l ++ (k, v) :: l') (length l) = Ok (kv_row (k, v))) as ->
    by (unfold at_index; by rewrite list_lookup_fmap, list_lookup_middle).
  cbn.
  rewrite bool_decide_eq_false_2.
  2: { intros Hk%Hs. rewrite fmap_app, fmap_cons in Hnd. apply NoDup_app in Hnd as (_ & Hnd & _). apply (Hnd k Hk). by left. }
  unfold ri_next, ri_hasNext. cbn [ri_result ri_index ri_table ri_readKeys].
  rewrite (proj2 (Nat.eqb_neq _ _)) by (rewrite length_fmap, length_app; simpl; lia). cbn [negb snd].
  specialize (IH (l ++ [(k, v)]) (k :: seen) (add_read (mkRead table k "") rw)).
  rewrite length_app, <-(assoc_L (++)) in IH. simpl in IH. rewrite Nat.add_1_r in IH. rewrite IH; [done|done|].
  intros x [->|Hx]%elem_of_cons; rewrite fmap_app, elem_of_app; [right; by left|left; by apply Hs].
Qed.

(** The loop reads every row once and records every key that has a row, and
    only those: a key without a row leaves no trace in the read set. *)
Lemma read_rows_all table l rw :
  NoDup l.*1 →
  read_rows (length l) "value" (mkRows (kv_row <$> l) table 0 []) rw =
  Ok (l.*2, foldl (λ rw k, add_read (mkRead table k "") rw) rw l.*1).
Proof. intros Hnd. apply (read_rows_from table [] l); [done|]. by intros x ?%not_elem_of_nil. Qed.
Example absent_key_unrecorded table rw : read_rows 0 "value" (mkRows [] table 0 []) rw = Ok ([], rw).
Proof. reflexivity. Qed.
End Storage.

(** ** The connections *)
Module Pool.

(** A thread in [executeTransaction]: it waits for a connection, uses one, or has
    closed one and opens the next. *)
Inductive conn_pc := PIdle | PUsing (c : nat) | PClosed.
Record DBConnection := mkPool { connPool : list nat; pl_threads : list conn_pc; pl_next : nat }.

Definition CONN_POOL_INIT_SIZE : nat := 50.
Definition new_DBConnection (threads : nat) : DBConnection :=
  mkPool (seq 0 CONN_POOL_INIT_SIZE) (replicate threads PIdle) CONN_POOL_INIT_SIZE.

(** The queue of the pool need not be first in, first out.  A connection that
    cannot be opened stops the process. *)
Inductive pool_step (s : DBConnection) : DBConnection → Prop :=
  | po_get i l1 c l2 :
      pl_threads s !! i = Some PIdle → connPool s = l1 ++ c :: l2 →
      pool_step s (mkPool (l1 ++ l2) (<[i := PUsing c]> (pl_threads s)) (pl_next s))
  | po_commit i c :
      pl_threads s !! i = Some (PUsing c) →
      pool_step s (mkPool (connPool s ++ [c]) (<[i := PIdle]> (pl_threads s)) (pl_next s))
  | po_throw i c :
      pl_threads s !! i = Some (PUsing c) →
      pool_step s (mkPool (connPool s) (<[i := PClosed]> (pl_threads s)) (pl_next s))
  | po_reopen i :
      pl_threads s !! i = Some PClosed →
      pool_step s (mkPool (connPool s ++ [pl_next s]) (<[i := PIdle]> (pl_threads s)) (S (pl_next s))).

Definition used (p : conn_pc) : list nat := match p with PUsing c => [c] | _ => [] end.
Definition busy (p : conn_pc) : nat := match p with PIdle => 0 | _ => 1 end.
Definition open (s : DBConnection) : list nat := connPool s ++ (pl_threads s ≫= used).

Record pool_ok (s : DBConnection) : Prop := {
  pk_distinct : NoDup (open s);
  pk_known : Forall (λ c, (c < pl_next s)%nat) (open s);
  pk_count : (length (connPool s) + sum_list_with busy (pl_threads s) = CONN_POOL_INIT_SIZE)%nat }.

(** Thread [i] moves: what it does with its connection and with the pool. *)
Lemma pool_move s i p p' pool next :
  pool_ok s → pl_threads s !! i = Some p → (pl_next s ≤ next)%nat →
  (∀ l, NoDup (connPool s ++ used p ++ l) → Forall (λ c, (c < pl_next s)%nat) (connPool s ++ used p ++ l) →
     NoDup (pool ++ used p' ++ l) ∧ Forall (λ c, (c < next)%nat) (pool ++ used p' ++ l)) →
  (length pool + busy p' = length (connPool s) + busy p)%nat →
  pool_ok (mkPool pool (<[i := p']> (pl_threads s)) next).
Proof.
  intros [Hd Hk Hc] Hi Hn Hmove Hlen. set (a := take i (pl_threads s)). set (b := drop (S i) (pl_threads s)).
  assert (pl_threads s = a ++ p :: b) as E by (symmetry; exact (take_drop_middle _ i p Hi)).
  assert (<[i := p']> (pl_threads s) = a ++ p' :: b) as E' by (apply insert_take_drop; by eapply lookup_lt_Some).
  assert (∀ q, ((a ++ q :: b) ≫= used) ≡ₚ used q ++ (a ≫= used) ++ (b ≫= used)) as Hu.
  { intros q. rewrite bind_app. simpl. rewrite !(assoc (++)). by rewrite (comm (++) (used q)). }
  unfold open in Hd, Hk. rewrite E, Hu in Hd, Hk. destruct (Hmove _ Hd Hk) as [Hd' Hk'].
  split; unfold open; simpl; rewrite E', ?Hu; [done..|].
  rewrite sum_list_with_app. rewrite E, sum_list_with_app in Hc. simpl in *. lia.
Qed.

Lemma Forall_weaken n m l : (n ≤ m)%nat → Forall (λ c, (c < n)%nat) l → Forall (λ c, (c < m)%nat) l.
Proof. intros Hn Hl. eapply Forall_impl; [exact Hl|]. simpl. lia. Qed.

Lemma pool_step_ok s s' : pool_ok s → pool_step s s' → pool_ok s'.
Proof.
  intros Hok Hst. destruct Hst as [i l1 c l2 Hi Hp|i c Hi|i c Hi|i Hi]; (eapply pool_move; [exact Hok|exact Hi|lia| |]).
  - intros l Hd Hk. rewrite Hp in Hd, Hk. simpl in *.
    assert ((l1 ++ c :: l2) ++ l ≡ₚ (l1 ++ l2) ++ c :: l) as E by (rewrite <-!(assoc (++)); solve_Permutation).
    by rewrite E in Hd, Hk.
  - rewrite Hp, !length_app. simpl. lia.
  - intros l Hd Hk. simpl in *. by rewrite <-(assoc_L (++)).
  - rewrite length_app. simpl. lia.
  - intros l Hd Hk. simpl in *. assert (connPool s ++ c :: l ≡ₚ c :: connPool s ++ l) as E by solve_Permutation.
    rewrite E in Hd, Hk. by apply NoDup_cons in Hd as [_ ?]; apply Forall_cons in Hk as [_ ?].
  - done.
  - intros l Hd Hk. simpl in *. assert ((connPool s ++ [pl_next s]) ++ l ≡ₚ pl_next s :: connPool s ++ l) as E
      by (rewrite <-(assoc (++)); solve_Permutation).
    rewrite E. split; [|constructor; [lia|by apply (Forall_weaken (pl_next s)); [lia|]]].
    constructor; [|done]. intros Hin. rewrite Forall_forall in Hk. specialize (Hk _ Hin). simpl in Hk. lia.
  - rewrite length_app. simpl. lia.
Qed.

(** A connection is used by one thread at a time and never after it was closed,
    none is lost, and a thread waits only while fifty others are at work. *)
Lemma connections_exclusive threads s :
  rtc pool_step (new_DBConnection threads) s →
  NoDup (connPool s ++ (pl_threads s ≫= used)) ∧
  (length (connPool s) + sum_list_with busy (pl_threads s) = CONN_POOL_INIT_SIZE)%nat ∧
  (connPool s = [] → sum_list_with busy (pl_threads s) = CONN_POOL_INIT_SIZE).
Proof.
  intros Hr. assert (pool_ok s) as [Hd _ Hc].
  { eapply (rtc_invariant pool_step); [exact pool_step_ok| |exact Hr].
    assert ((replicate threads PIdle ≫= used) = []) as Eu by (clear; by induction threads).
    assert (sum_list_with busy (replicate threads PIdle) = 0%nat) as Eb by (clear; by induction threads).
    split; unfold open; simpl pl_threads; simpl connPool; rewrite ?Eu, ?Eb, ?app_nil_r.
    - exact (NoDup_seq 0 CONN_POOL_INIT_SIZE).
    - by apply (bool_decide_unpack _).
    - done. }
  split_and!; [done|done|]. intros E. by rewrite E in Hc.
Qed.
End Pool.
