(* ===== verification/Database.v ===== *)
(** * The versioned database

    [src/block_server/database/impl/database_impl.cpp]: the chaincode helper
    buffers, per transaction id, a pointer to the transaction's read-write set
    and the tables it created; the commit phase writes them to the storage.

    Transactions are objects shared by the manager, the coordinator and the
    database, so they live in a heap and are named by pointers; the database
    reads a read-write set through its pointer when it commits. *)
From S2P Require Import Prelude Transaction Storage Orm.
From stdpp Require Import base list gmap strings.

(** Pointers to transactions, and the heap they point into. *)
Notation txn_ptr := N (only parsing).
Notation txn_heap := (gmap N Transaction) (only parsing).

Section Database.
Context {S : Type} `{DBStorage S}.
Context (debug : bool).

Record DatabaseImpl := mkDB {
  commitPhase : bool;
  storage : S;
  rwSetBuffer : gmap N txn_ptr;
  tableListBuffer : gmap N (list ORMTableImpl) }.

Definition new_DatabaseImpl (s : S) : DatabaseImpl := mkDB false s ∅ ∅.

Definition set_storage (s : S) (db : DatabaseImpl) : DatabaseImpl :=
  mkDB (commitPhase db) s (rwSetBuffer db) (tableListBuffer db).

Definition clearBufferThreadSafe (db : DatabaseImpl) : DatabaseImpl :=
  if commitPhase db then mkDB false (storage db) ∅ ∅ else db.

(** The [bufferUpdates] closure that the constructor installs. *)
Definition bufferUpdates (tid : N) (rw : txn_ptr) (tableList : list ORMTableImpl)
    (db : DatabaseImpl) : bool * DatabaseImpl :=
  let db := if commitPhase db then clearBufferThreadSafe db else db in
  (true, mkDB (commitPhase db) (storage db) (<[tid := rw]> (rwSetBuffer db))
           (<[tid := tableList]> (tableListBuffer db))).

(** The loops of [commitUpdate]. *)
Definition commit_table (table : ORMTableImpl) (s : S) : outcome S :=
  _ ← CHECK (bool_decide (fieldSize table = 2));
  f0 ← deref (getField 0 table);
  f1 ← deref (getField 1 table);
  createTable (tb_name table) (columnName f0) (columnName f1) s.

Definition commit_write (w : KVWrite) (s : S) : outcome S :=
  if wr_is_delete w then removeWriteSet (wr_key w) (wr_table w) s
  else updateWriteSet (wr_key w) (wr_value w) (wr_table w) s.

Definition commitUpdate (heap : txn_heap) (tid : N) (db : DatabaseImpl)
    : outcome (bool * DatabaseImpl) :=
  _ ← DCHECK debug (bool_decide (is_Some (rwSetBuffer db !! tid)));
  _ ← DCHECK debug (bool_decide (is_Some (tableListBuffer db !! tid)));
  let tables := default [] (tableListBuffer db !! tid) in
  s1 ← foldM commit_table tables (storage db);
  rw ← deref (rwSetBuffer db !! tid);
  t ← deref (heap !! rw);
  s2 ← foldM commit_write (writes (kvRWSet t)) s1;
  Ok (true, mkDB true s2 (rwSetBuffer db) (<[tid := tables]> (tableListBuffer db))).

Definition abortUpdate (tid : N) (db : DatabaseImpl) : DatabaseImpl :=
  mkDB true (storage db) (rwSetBuffer db) (tableListBuffer db).

(** [CCORMHelper::execute], which runs when the helper of a chaincode is
    destroyed. *)
Definition helper_execute (env : cc_env) (rw : txn_ptr) (tableList : list ORMTableImpl)
    (db : DatabaseImpl) : bool * DatabaseImpl :=
  if cc_readOnly env then (false, db)
  else bufferUpdates (cc_tid env) rw tableList db.

End Database.

Arguments DatabaseImpl : clear implicits.

(** ** The writes of a transaction on the view of the storage *)
Section CommitView.
Context {S : Type} `{TableStorage S}.

Definition write_value (w : KVWrite) : string := if wr_is_delete w then "" else wr_value w.

(** The view after a list of writes, in order. *)
Definition apply_write (w : KVWrite) (f : string * string → string) : string * string → string :=
  λ c, if decide (c = (wr_table w, wr_key w)) then write_value w else f c.
Definition apply_writes (ws : list KVWrite) (f : string * string → string)
    : string * string → string :=
  foldl (λ f w, apply_write w f) f ws.

Lemma commit_write_view w s :
  ∃ s', commit_write w s = Ok s' ∧ ∀ c, view s' c = apply_write w (view s) c.
Proof.
  unfold commit_write, apply_write, write_value. destruct (wr_is_delete w).
  - apply removeWriteSet_spec.
  - apply updateWriteSet_spec.
Qed.

Lemma apply_writes_ext ws f g c : (∀ c, f c = g c) → apply_writes ws f c = apply_writes ws g c.
Proof.
  unfold apply_writes. revert f g. induction ws as [|w ws IH]; intros f g E; simpl; [done|].
  apply IH. intros c'. unfold apply_write. by rewrite E.
Qed.

(** The write loop never fails, and its effect on the view is [apply_writes]. *)
Lemma commit_writes_view ws s :
  ∃ s', foldM commit_write ws s = Ok s' ∧ ∀ c, view s' c = apply_writes ws (view s) c.
Proof.
  revert s. induction ws as [|w ws IH]; intros s; simpl; [by exists s|].
  destruct (commit_write_view w s) as (s1 & -> & H1). simpl.
  destruct (IH s1) as (s2 & -> & H2). exists s2. split; [done|]. intros c.
  rewrite H2. by apply apply_writes_ext.
Qed.

Lemma apply_writes_notin ws f c :
  c ∉ ((λ w, (wr_table w, wr_key w)) <$> ws) → apply_writes ws f c = f c.
Proof.
  unfold apply_writes. revert f. induction ws as [|w ws IH]; intros f Hc; simpl; [done|].
  rewrite fmap_cons in Hc. apply not_elem_of_cons in Hc as [Hne Hc].
  rewrite IH by done. unfold apply_write. by rewrite decide_False.
Qed.

(** Inside its own cells the result does not depend on the view before. *)
Lemma apply_writes_in ws f g c :
  c ∈ ((λ w, (wr_table w, wr_key w)) <$> ws) → apply_writes ws f c = apply_writes ws g c.
Proof.
  unfold apply_writes. revert f g. induction ws as [|w ws IH]; intros f g Hc; simpl.
  { by apply not_elem_of_nil in Hc. }
  destruct (decide (c ∈ ((λ w, (wr_table w, wr_key w)) <$> ws))) as [Hin|Hnin].
  { by apply IH. }
  rewrite fmap_cons in Hc. apply elem_of_cons in Hc as [->|?]; [|done].
  change (apply_writes ws (apply_write w f) (wr_table w, wr_key w) =
          apply_writes ws (apply_write w g) (wr_table w, wr_key w)).
  rewrite !apply_writes_notin by done. unfold apply_write. by rewrite !decide_True.
Qed.

Lemma apply_writes_cases ws f c :
  apply_writes ws f c =
  if decide (c ∈ ((λ w, (wr_table w, wr_key w)) <$> ws)) then apply_writes ws (λ _, "") c else f c.
Proof.
  case_decide; [by apply apply_writes_in | by apply apply_writes_notin].
Qed.

(** The value of a written cell comes from one of the writes to it. *)
Lemma apply_writes_elem ws f c :
  c ∈ ((λ w, (wr_table w, wr_key w)) <$> ws) →
  ∃ w, w ∈ ws ∧ c = (wr_table w, wr_key w) ∧ apply_writes ws f c = write_value w.
Proof.
  unfold apply_writes. revert f. induction ws as [|w ws IH]; intros f Hc; simpl.
  { by apply not_elem_of_nil in Hc. }
  destruct (decide (c ∈ ((λ w, (wr_table w, wr_key w)) <$> ws))) as [Hin|Hnin].
  { destruct (IH (apply_write w f) Hin) as (w' & Hw & E1 & E2). exists w'.
    split_and!; [by right|done|done]. }
  rewrite fmap_cons in Hc. apply elem_of_cons in Hc as [->|?]; [|done].
  exists w. split_and!; [by left|done|].
  change (apply_writes ws (apply_write w f) (wr_table w, wr_key w) = write_value w).
  rewrite apply_writes_notin by done. unfold apply_write. by rewrite decide_True.
Qed.

(** Tables with two columns are created without touching a cell. *)
Lemma commit_table_view t s :
  fieldSize t = 2 → ∃ s', commit_table t s = Ok s' ∧ ∀ c, view s' c = view s c.
Proof.
  intros Ht. unfold commit_table. rewrite bool_decide_true by done. simpl.
  unfold getField. unfold fieldSize in Ht.
  destruct (tb_fields t) as [|f0 [|f1 l]]; simplify_eq/=. apply createTable_spec.
Qed.

Lemma commit_tables_view tables s :
  Forall (λ t, fieldSize t = 2) tables →
  ∃ s', foldM commit_table tables s = Ok s' ∧ ∀ c, view s' c = view s c.
Proof.
  revert s. induction tables as [|t tables IH]; intros s Ht; simpl; [by exists s|].
  apply Forall_cons in Ht as [Ht Hts].
  destruct (commit_table_view t s Ht) as (s1 & -> & H1). simpl.
  destruct (IH s1 Hts) as (s2 & -> & H2). exists s2. split; [done|].
  intros c. by rewrite H2, H1.
Qed.

(** A commit of a buffered transaction succeeds and writes exactly the
    transaction's write set. *)
Lemma commitUpdate_view debug heap tid db p t :
  rwSetBuffer db !! tid = Some p → heap !! p = Some t →
  is_Some (tableListBuffer db !! tid) →
  Forall (λ t, fieldSize t = 2) (default [] (tableListBuffer db !! tid)) →
  ∃ db', commitUpdate debug heap tid db = Ok (true, db') ∧
    (∀ c, view (storage db') c = apply_writes (writes (kvRWSet t)) (view (storage db)) c) ∧
    rwSetBuffer db' = rwSetBuffer db ∧
    (∀ tid', default [] (tableListBuffer db' !! tid') = default [] (tableListBuffer db !! tid')) ∧
    (∀ tid', is_Some (tableListBuffer db !! tid') → is_Some (tableListBuffer db' !! tid')).
Proof.
  intros Hp Ht Htl Hf. unfold commitUpdate.
  rewrite (bool_decide_true (is_Some (rwSetBuffer db !! tid))) by (by rewrite Hp).
  rewrite (bool_decide_true (is_Some (tableListBuffer db !! tid))) by done.
  destruct (commit_tables_view _ (storage db) Hf) as (s1 & E1 & H1).
  destruct (commit_writes_view (writes (kvRWSet t)) s1) as (s2 & E2 & H2).
  exists (mkDB true s2 (rwSetBuffer db)
            (<[tid := default [] (tableListBuffer db !! tid)]> (tableListBuffer db))).
  split_and!; simpl.
  - destruct debug; simpl; rewrite E1; simpl; rewrite Hp; simpl; rewrite Ht; simpl; by rewrite E2.
  - intros c. rewrite H2. by apply apply_writes_ext.
  - done.
  - intros tid'. destruct (decide (tid = tid')) as [<-|Hne].
    + by rewrite lookup_insert_eq.
    + by rewrite lookup_insert_ne.
  - intros tid' Hs. destruct (decide (tid = tid')) as [<-|Hne].
    + rewrite lookup_insert_eq. by eexists.
    + by rewrite lookup_insert_ne.
Qed.

End CommitView.
