(* ===== verification/Chaincode.v ===== *)
(** * What the chaincodes share

    The protobuf messages of a request ([include/proto/tpc-c.proto]; the
    generated parsers are parameters of the chaincodes), the query and update
    lambdas that [SmallBankChaincode] and [YCSB_Chaincode] build in their
    constructors, and how a run of a chaincode changes the view of the storage
    once it is committed. *)
From S2P Require Import Prelude Transaction Storage Orm Database.
From stdpp Require Import base list gmap strings.

Record YCSB_PAYLOAD := mkYcsbPayload {
  yp_reads : list string; yp_update : list string; yp_table : string }.

(** The [values] of a [YCSB_FOR_BLOCK_BENCH]. *)
Notation YCSB_FOR_BLOCK_BENCH := (list (string * string)) (only parsing).

Section Lambdas.
Context {S : Type} `{DBStorage S}.

(** [queryLambda] over a table and a default value. *)
Definition query_default (table defValue key : string) : CC S string :=
  q ← newQuery table;
  r ← executeQuery (filter_str "key" key q);
  if negb (hasNext r) then mret defValue
  else
    '(v, r) ← getString "value" r;
    if String.eqb v "" then mret defValue
    else '(v, r) ← getString "value" r; mret v.

(** [updateLambda] over a table. *)
Definition insert_pair (table key value : string) : CC S unit :=
  ins ← newInsert table;
  '(_, ins) ← insert_set "key" key ins;
  '(_, ins) ← insert_set "value" value ins;
  mret tt.

(** [for (r = query->executeQuery(); r->hasNext(); r->next()) body]: a results
    iterator of a key-value storage has one row, so two tests of the condition
    end the loop. *)
Fixpoint cc_iterate (fuel : nat)
    (body : LevelDBResultsIterator → CC S LevelDBResultsIterator)
    (r : LevelDBResultsIterator) : CC S LevelDBResultsIterator :=
  match fuel with
  | O => mret r
  | Datatypes.S fuel' =>
      if hasNext r then r' ← body r; cc_iterate fuel' body (next r').2 else mret r
  end.

(** Both columns of the single row. *)
Definition read_columns (r : LevelDBResultsIterator) : CC S LevelDBResultsIterator :=
  '(_, r) ← getString "key" r;
  '(_, r) ← getString "value" r;
  mret r.

Definition read_row (table key : string) : CC S unit :=
  q ← newQuery table;
  r ← executeQuery (filter_str "key" key q);
  _ ← cc_iterate 2 read_columns r;
  mret tt.

(** [return true] and [return false] of a function with result [int]. *)
Definition int_of_bool (b : bool) : Z := if b then 1%Z else 0%Z.

End Lambdas.

Section Runs.
Context {S : Type} `{TableStorage S}.

(** What a query returns on a view. *)
Definition value_or (defValue v : string) : string := if String.eqb v "" then defValue else v.

Lemma query_default_run table defValue key env st :
  ∃ s', (∀ c, view s' c = view (cc_store st) c) ∧
  query_default table defValue key env st =
    Ok (value_or defValue (view (cc_store st) (table, key)),
        mkCC s' (add_read (mkRead table key (view (cc_store st) (table, key))) (cc_rwset st))
          (cc_tables st)).
Proof.
  unfold query_default, newQuery, filter_str, executeQuery, mbind, CC_bind, mret, CC_ret.
  cbn [q_col q_table].
  destruct (selectDB_spec key table (cc_store st)) as (s' & E & Hv).
  exists s'. split; [done|]. unfold mbind, outcome_bind. rewrite E.
  set (v := view (cc_store st) (table, key)). unfold hasNext. simpl.
  unfold getString, value_or, cc_set_rwset. simpl.
  destruct (String.eqb v "") eqn:Ev; [done|]. simpl.
  rewrite bool_decide_true by set_solver. done.
Qed.

#[global] Instance query_default_local table defValue key :
  Local (S := S) (query_default table defValue key).
Proof.
  apply (reader_local _ (table, key) (value_or defValue)).
  intros env st. exact (query_default_run table defValue key env st).
Qed.

#[global] Instance let_pair_local {A B C} (p : A * B) (k : A → B → CC S C) :
  (∀ a b, Local (k a b)) → Local (let '(a, b) := p in k a b).
Proof. intros Hk. destruct p. apply Hk. Qed.

#[global] Instance insert_pair_local table key value :
  Local (S := S) (insert_pair table key value).
Proof. unfold insert_pair. apply _. Qed.

(** A write to a fresh key under a read-write transaction appends it. *)
Lemma insert_pair_run table key value env (st : cc_state S) :
  cc_readOnly env = false → key ∉ (wr_key <$> writes (cc_rwset st)) →
  insert_pair table key value env st =
    Ok (tt, cc_set_rwset (add_write (mkWrite table key value false) (cc_rwset st)) st).
Proof.
  intros Hro Hk. unfold insert_pair, mbind, CC_bind, newInsert. rewrite Hro. simpl.
  unfold insert_set. simpl.
  replace (existsb _ _) with false; [done|]. symmetry.
  apply not_true_is_false. intros (w & Hw & Ew)%existsb_exists. apply Hk.
  apply String.eqb_eq in Ew as <-. apply list_elem_of_fmap. exists w. split; [done|].
  by apply list_elem_of_In.
Qed.

(** A write by a read-only transaction stops the process. *)
Lemma insert_pair_readonly table key value env (st : cc_state S) :
  cc_readOnly env = true → insert_pair table key value env st = Fatal CheckFailed.
Proof.
  intros Hro. unfold insert_pair, mbind, CC_bind, newInsert. by rewrite Hro.
Qed.

(** A second write to a key stops the process, whatever the table. *)
Lemma insert_pair_duplicate table key value env (st : cc_state S) :
  cc_readOnly env = false → key ∈ (wr_key <$> writes (cc_rwset st)) →
  insert_pair table key value env st = Fatal CheckFailed.
Proof.
  intros Hro Hk. unfold insert_pair, mbind, CC_bind, newInsert. rewrite Hro. simpl.
  unfold insert_set. simpl. replace (existsb _ _) with true; [done|]. symmetry.
  apply list_elem_of_fmap in Hk as (w & -> & Hw). apply existsb_exists. exists w.
  split; [by apply list_elem_of_In | apply String.eqb_refl].
Qed.

(** The loop over a single row runs its body once, whatever the fuel. *)
Lemma cc_iterate_once n (body : LevelDBResultsIterator → CC S LevelDBResultsIterator) r :
  it_index r = 0%Z →
  (∀ env st r' st', body r env st = Ok (r', st') → it_index r' = 0%Z) →
  ∀ env st, cc_iterate (Datatypes.S (Datatypes.S n)) body r env st =
            (r' ← body r; mret (next r').2) env st.
Proof.
  intros Hr Hb env st. cbn [cc_iterate]. unfold hasNext at 1. rewrite Hr. simpl.
  unfold mbind, CC_bind. destruct (body r env st) as [[r' st']|e] eqn:E; [|done].
  apply Hb in E. unfold next, hasNext. rewrite E. simpl. done.
Qed.

Lemma read_row_run table key env st :
  ∃ s', (∀ c, view s' c = view (cc_store st) c) ∧
  read_row table key env st =
    Ok (tt, mkCC s' (add_read (mkRead table key (view (cc_store st) (table, key))) (cc_rwset st))
              (cc_tables st)).
Proof.
  unfold read_row, newQuery, filter_str. unfold mbind at 1, CC_bind, mret at 1, CC_ret.
  cbn [q_table]. unfold mbind at 1, CC_bind, executeQuery. cbn [q_col q_table].
  destruct (selectDB_spec key table (cc_store st)) as (s' & E & Hv).
  exists s'. split; [done|]. unfold mbind at 1, outcome_bind. rewrite E.
  set (v := view (cc_store st) (table, key)).
  unfold cc_iterate, hasNext, read_columns, getString, cc_set_rwset, mbind, CC_bind, next. simpl.
  rewrite bool_decide_true by set_solver. done.
Qed.

#[global] Instance read_row_local table key : Local (S := S) (read_row table key).
Proof.
  apply (reader_local _ (table, key) (λ _, tt)).
  intros env st. exact (read_row_run table key env st).
Qed.

(** The view of the storage once the writes of a run are committed. *)
Definition committed (st : cc_state S) : string * string → string :=
  apply_writes (writes (cc_rwset st)) (view (cc_store st)).

End Runs.
