(* ===== verification/SmallBank.v ===== *)
(** * The SmallBank chaincode

    [src/block_server/worker/chaincode/small_bank_chaincode.cpp].  Balances are
    decimal strings in the table [small_bank] under the keys [saving_<account>]
    and [checking_<account>]; an absent balance counts as 1000.  Arithmetic is
    [int] arithmetic: a result out of range is undefined behaviour, the outcome
    [Fatal SignedOverflow].

    The protobuf parser of the request and the order in which the compiler
    evaluates the operands of [+] in [Random::next] are parameters. *)
From S2P Require Import Prelude DecimalString Random Transaction Storage Orm Database Chaincode.
From stdpp Require Import base list gmap strings.

Definition BALANCE : Z := 1000.
Definition savingTab : string := "saving".
Definition checkingTab : string := "checking".
Definition account_key (tab account : string) : string :=
  String.append tab (String.append "_" account).

Section SmallBank.
Context {S : Type} `{DBStorage S}.
Context (parse_payload : string → YCSB_PAYLOAD).
Context (debug lhs_first : bool).

Definition sb_queryLambda (key : string) : CC S string :=
  query_default "small_bank" (to_string BALANCE) key.

Definition sb_updateLambda (key : string) (value : Z) : CC S unit :=
  insert_pair "small_bank" key (to_string value).

Definition sb_query (account : string) : CC S Z :=
  bal_str1 ← sb_queryLambda (account_key savingTab account);
  bal_str2 ← sb_queryLambda (account_key checkingTab account);
  mret (int_of_bool true).

Definition amalgamate (from to : string) : CC S Z :=
  if String.eqb from to then mret (int_of_bool false)
  else
    src_bal_str ← sb_queryLambda (account_key savingTab from);
    dest_bal_str ← sb_queryLambda (account_key checkingTab to);
    let src_bal := parse_int src_bal_str in
    let dest_bal := parse_int dest_bal_str in
    _ ← sb_updateLambda (account_key savingTab from) 0;
    sum ← cc_lift (int_add dest_bal src_bal);
    _ ← sb_updateLambda (account_key checkingTab to) sum;
    mret (int_of_bool true).

(** [amount < 0 && balance < (-amount)]: the negation is only evaluated for a
    negative amount. *)
Definition insufficient (balance amount : Z) : outcome bool :=
  if (amount <? 0)%Z then n ← int_neg amount; Ok (balance <? n)%Z else Ok false.

Definition updateBalance (from val : string) : CC S Z :=
  bal_str ← sb_queryLambda (account_key checkingTab from);
  let balance := parse_int bal_str in
  let amount := parse_int val in
  b ← cc_lift (insufficient balance amount);
  if b : bool then mret (int_of_bool false)
  else
    sum ← cc_lift (int_add balance amount);
    _ ← sb_updateLambda (account_key checkingTab from) sum;
    mret (int_of_bool true).

Definition updateSaving (from val : string) : CC S Z :=
  bal_str ← sb_queryLambda (account_key savingTab from);
  let balance := parse_int bal_str in
  let amount := parse_int val in
  b ← cc_lift (insufficient balance amount);
  if b : bool then mret (int_of_bool false)
  else
    sum ← cc_lift (int_add amount balance);
    _ ← sb_updateLambda (account_key savingTab from) sum;
    mret (int_of_bool true).

Definition sendPayment (from to amountRaw : string) : CC S Z :=
  if String.eqb from to then mret (int_of_bool false)
  else
    bal_str1 ← sb_queryLambda (account_key checkingTab from);
    bal_str2 ← sb_queryLambda (account_key checkingTab to);
    let amount := parse_int amountRaw in
    let bal1 := parse_int bal_str1 in
    let bal2 := parse_int bal_str2 in
    bal1 ← cc_lift (int_sub bal1 amount);
    if ((bal1 <? 0) || (amount <? 0))%Z then mret (int_of_bool false)
    else
      bal2 ← cc_lift (int_add bal2 amount);
      _ ← sb_updateLambda (account_key checkingTab from) bal1;
      _ ← sb_updateLambda (account_key checkingTab to) bal2;
      mret (int_of_bool true).

Definition writeCheck (from amountRaw : string) : CC S Z :=
  bal_str1 ← sb_queryLambda (account_key checkingTab from);
  let balance := parse_int bal_str1 in
  let amount := parse_int amountRaw in
  balance ← cc_lift (int_sub balance amount);
  if (balance <? 0)%Z then mret (int_of_bool false)
  else
    _ ← sb_updateLambda (account_key checkingTab from) balance;
    mret (int_of_bool true).

(** One iteration of a loop of [InitFunc]; the loop threads the seed. *)
Definition init_account (tab : string) (i : nat) (seed : N) : CC S N :=
  let '(x, seed') := rnd_next lhs_first seed in
  _ ← insert_pair "small_bank" (account_key tab (to_string (Z.of_nat i)))
        (to_string (Z.of_N (x mod 100)));
  mret seed'.

(** [accounts] is 10000 in the source. *)
Definition sb_init_accounts (accounts : nat) : CC S Z :=
  seed ← cc_for (init_account checkingTab) (seq 0 accounts) (init_seed 0);
  _ ← cc_for (init_account savingTab) (seq 0 accounts) seed;
  mret (int_of_bool true).

Definition sb_InitFunc : CC S Z := sb_init_accounts (N.to_nat 10000).

Definition sb_InvokeChaincode (chaincodeName payload : string) : CC S Z :=
  let realArgs := yp_reads (parse_payload payload) in
  let size_is (n : nat) : CC S unit :=
    cc_lift (DCHECK debug (bool_decide (length realArgs = n))) in
  let arg (i : nat) : CC S string := cc_lift (at_index realArgs i) in
  if String.eqb chaincodeName "amalgamate" then
    _ ← size_is 2; a0 ← arg 0; a1 ← arg 1; amalgamate a0 a1
  else if String.eqb chaincodeName "getBalance" then
    _ ← size_is 1; a0 ← arg 0; sb_query a0
  else if String.eqb chaincodeName "updateBalance" then
    _ ← size_is 2; a0 ← arg 0; a1 ← arg 1; updateBalance a0 a1
  else if String.eqb chaincodeName "updateSaving" then
    _ ← size_is 2; a0 ← arg 0; a1 ← arg 1; updateSaving a0 a1
  else if String.eqb chaincodeName "sendPayment" then
    _ ← size_is 3; a0 ← arg 0; a1 ← arg 1; a2 ← arg 2; sendPayment a0 a1 a2
  else if String.eqb chaincodeName "writeCheck" then
    _ ← size_is 2; a0 ← arg 0; a1 ← arg 1; writeCheck a0 a1
  else if String.eqb chaincodeName "create_data" then sb_InitFunc
  else mret 0%Z.

End SmallBank.

(** ** Locality *)
Section Locality.
Context {S : Type} `{TableStorage S}.

#[global] Instance sb_queryLambda_local key : Local (S := S) (sb_queryLambda key).
Proof. unfold sb_queryLambda. apply _. Qed.
#[global] Instance sb_updateLambda_local key v : Local (S := S) (sb_updateLambda key v).
Proof. unfold sb_updateLambda. apply _. Qed.
#[global] Instance init_account_local lhs tab i seed : Local (S := S) (init_account lhs tab i seed).
Proof. unfold init_account. apply _. Qed.
#[global] Instance sb_init_accounts_local lhs n : Local (S := S) (sb_init_accounts lhs n).
Proof. unfold sb_init_accounts. apply _. Qed.

#[global] Instance sb_InvokeChaincode_local parse debug lhs name payload :
  Local (S := S) (sb_InvokeChaincode parse debug lhs name payload).
Proof.
  unfold sb_InvokeChaincode, sb_InitFunc, amalgamate, sb_query, updateBalance, updateSaving,
    sendPayment, writeCheck. apply _.
Qed.

End Locality.

(** ** The abstract bank *)
Inductive sb_tab := Saving | Checking.
#[global] Instance sb_tab_eq_dec : EqDecision sb_tab.
Proof. solve_decision. Defined.

Definition tab_name (t : sb_tab) : string :=
  match t with Saving => savingTab | Checking => checkingTab end.

(** Two balances per account. *)
Definition bank : Type := sb_tab * string → Z.

Definition bank_set (k : sb_tab * string) (z : Z) (b : bank) : bank :=
  λ k', if decide (k' = k) then z else b k'.

(** The operations, with their amounts as numbers.  [amalgamate] is not one of
    them: it does not do what its comment says ([amalgamate_moves_savings]). *)
Inductive sb_op :=
  | GetBalance (account : string)
  | UpdateBalance (from : string) (val : Z)
  | UpdateSaving (from : string) (val : Z)
  | SendPayment (from to : string) (amount : Z)
  | WriteCheck (from : string) (amount : Z).

(** Add [z] to a balance, unless the sum does not fit an [int]. *)
Definition bank_add (k : sb_tab * string) (z : Z) (b : bank) : outcome bank :=
  v ← int_check (b k + z)%Z; Ok (bank_set k v b).

(** Deposits and withdrawals are refused when they would overdraw. *)
Definition bank_deposit (k : sb_tab * string) (z : Z) (b : bank) : outcome (Z * bank) :=
  if (z <? 0)%Z && negb (fits_int (- z)%Z) then Fatal SignedOverflow
  else if ((z <? 0) && (b k + z <? 0))%Z then Ok (0%Z, b)
  else b' ← bank_add k z b; Ok (1%Z, b').

Definition sb_spec (op : sb_op) (b : bank) : outcome (Z * bank) :=
  match op with
  | GetBalance _ => Ok (1%Z, b)
  | UpdateBalance from val => bank_deposit (Checking, from) val b
  | UpdateSaving from val => bank_deposit (Saving, from) val b
  | SendPayment from to a =>
      if decide (from = to) then Ok (0%Z, b)
      else
        b1 ← bank_add (Checking, from) (- a)%Z b;
        if ((b1 (Checking, from) <? 0) || (a <? 0))%Z then Ok (0%Z, b)
        else b2 ← bank_add (Checking, to) a b1; Ok (1%Z, b2)
  | WriteCheck from amount =>
      b1 ← bank_add (Checking, from) (- amount)%Z b;
      if (b1 (Checking, from) <? 0)%Z then Ok (0%Z, b) else Ok (1%Z, b1)
  end.

(** The balances that a view of the storage holds. *)
Definition bank_of (f : string * string → string) : bank := λ k,
  parse_int (value_or (to_string BALANCE) (f ("small_bank", account_key (tab_name k.1) k.2))).

Definition cell_of (k : sb_tab * string) : string * string :=
  ("small_bank", account_key (tab_name k.1) k.2).

Lemma string_append_inj s a b : String.append s a = String.append s b → a = b.
Proof. induction s as [|c s IH]; simpl; [done|]. intros E. injection E as E. auto. Qed.

Lemma account_key_inj k1 k2 :
  account_key (tab_name k1.1) k1.2 = account_key (tab_name k2.1) k2.2 → k1 = k2.
Proof.
  destruct k1 as [[] a1], k2 as [[] a2]; unfold account_key; cbn [tab_name fst snd]; intros E;
    try done; do 2 apply string_append_inj in E; by subst.
Qed.

Section Refinement.
Context {S : Type} `{TableStorage S}.

Lemma bank_of_write k z f w :
  fits_int z = true → w = mkWrite "small_bank" (account_key (tab_name k.1) k.2) (to_string z) false →
  ∀ k', bank_of (apply_write w f) k' = bank_set k z (bank_of f) k'.
Proof.
  intros Hz -> k'. unfold bank_of, bank_set, apply_write, write_value. cbn [wr_table wr_key wr_value wr_is_delete].
  destruct (decide (k' = k)) as [->|Hne].
  - rewrite decide_True by done. unfold value_or.
    destruct (String.eqb_spec (to_string z) "") as [E|_]; [by apply to_string_nonempty in E|].
    by apply parse_int_to_string.
  - rewrite decide_False; [done|]. intros E. injection E as E. by apply Hne, account_key_inj.
Qed.

Lemma bank_of_ext f g : (∀ c, f c = g c) → ∀ k, bank_of f k = bank_of g k.
Proof. intros E k. unfold bank_of. by rewrite E. Qed.

(** [keeps f ws st]: [st] has the view [f] and the buffered writes [ws]. *)
Definition keeps (f : string * string → string) (ws : list KVWrite) (st : cc_state S) : Prop :=
  (∀ c, view (cc_store st) c = f c) ∧ writes (cc_rwset st) = ws.

(** [ends f m env st o]: running [m] from [st] has the outcome [o], where the
    balances of [o] are those after a commit of the writes. *)
Definition ends (f : string * string → string) (m : CC S Z) (env : cc_env) (st : cc_state S)
    (o : outcome (Z * bank)) : Prop :=
  match o with
  | Fatal e => m env st = Fatal e
  | Ok (r, b) => ∃ st', m env st = Ok (r, st') ∧
      (∀ c, view (cc_store st') c = f c) ∧ ∀ k, bank_of (committed st') k = b k
  end.

Lemma ends_step {A} f (m : CC S A) (k : A → CC S Z) env st a st' o :
  m env st = Ok (a, st') → ends f (k a) env st' o → ends f (x ← m; k x) env st o.
Proof.
  intros E He.
  assert ((x ← m; k x) env st = k a env st') as Hb by (unfold mbind, CC_bind; by rewrite E).
  unfold ends in *. by rewrite Hb.
Qed.

Lemma ends_query k (m : string → CC S Z) env st f ws o :
  keeps f ws st →
  (∀ st', keeps f ws st' → ends f (m (value_or (to_string BALANCE) (f (cell_of k)))) env st' o) →
  ends f (s ← sb_queryLambda (account_key (tab_name k.1) k.2); m s) env st o.
Proof.
  intros [Hv Hw] Hm. unfold sb_queryLambda.
  destruct (query_default_run "small_bank" (to_string BALANCE)
              (account_key (tab_name k.1) k.2) env st) as (s' & Hs & E).
  eapply ends_step; [exact E|]. rewrite Hv. apply Hm. split; [|done].
  intros c. simpl. by rewrite Hs.
Qed.

Lemma ends_update k z (m : CC S Z) env st f ws o :
  cc_readOnly env = false → keeps f ws st → account_key (tab_name k.1) k.2 ∉ (wr_key <$> ws) →
  (∀ st', keeps f (ws ++ [mkWrite "small_bank" (account_key (tab_name k.1) k.2)
                            (to_string z) false]) st' → ends f m env st' o) →
  ends f (_ ← sb_updateLambda (account_key (tab_name k.1) k.2) z; m) env st o.
Proof.
  intros Hro [Hv Hw] Hk Hm. eapply ends_step.
  - apply insert_pair_run; [done | by rewrite Hw].
  - apply Hm. split; [done|]. simpl. by rewrite Hw.
Qed.

(** Checked [int] arithmetic against the same check in the specification. *)
Lemma ends_int z z' (m : Z → CC S Z) env st f o (o' : Z → outcome (Z * bank)) :
  z = z' → o = (v ← int_check z'; o' v) →
  (fits_int z' = true → ends f (m z') env st (o' z')) →
  ends f (v ← cc_lift (int_check z); m v) env st o.
Proof.
  intros -> -> Hm. unfold int_check. destruct (fits_int z'); simpl; [|done]. by apply Hm.
Qed.

Lemma ends_ret r env st f ws b :
  keeps f ws st → (∀ k, bank_of (apply_writes ws f) k = b k) →
  ends f (mret r) env st (Ok (r, b)).
Proof.
  intros [Hv Hw] Hb. exists st. split_and!; [done|done|]. intros k. rewrite <-Hb.
  unfold committed. rewrite Hw. apply bank_of_ext. intros c. by apply apply_writes_ext.
Qed.

#[local] Arguments ends : simpl never.

Lemma bank_of_writes1 k z f :
  fits_int z = true → ∀ k',
  bank_of (apply_writes [mkWrite "small_bank" (account_key (tab_name k.1) k.2) (to_string z) false]
             f) k' = bank_set k z (bank_of f) k'.
Proof. intros Hz k'. by apply bank_of_write. Qed.

Lemma bank_of_writes2 k1 z1 k2 z2 f :
  fits_int z1 = true → fits_int z2 = true → ∀ k',
  bank_of (apply_writes
    [mkWrite "small_bank" (account_key (tab_name k1.1) k1.2) (to_string z1) false;
     mkWrite "small_bank" (account_key (tab_name k2.1) k2.2) (to_string z2) false] f) k' =
  bank_set k2 z2 (bank_set k1 z1 (bank_of f)) k'.
Proof.
  intros Hz1 Hz2 k'. unfold apply_writes. simpl. erewrite bank_of_write by done.
  unfold bank_set at 1 2. case_decide; [done|]. by apply bank_of_write.
Qed.

Lemma key_fresh k k1 z :
  k ≠ k1 → account_key (tab_name k.1) k.2 ∉
    (wr_key <$> [mkWrite "small_bank" (account_key (tab_name k1.1) k1.2) (to_string z) false]).
Proof.
  intros Hne. simpl. intros E%list_elem_of_singleton. by apply account_key_inj in E.
Qed.

Lemma sendPayment_ends from to raw env st f :
  cc_readOnly env = false → keeps f [] st →
  ends f (sendPayment from to raw) env st (sb_spec (SendPayment from to (parse_int raw)) (bank_of f)).
Proof.
  intros Hro Hk. unfold sendPayment, sb_spec.
  destruct (String.eqb_spec from to) as [->|Hne].
  { rewrite decide_True by done. by eapply ends_ret. }
  rewrite decide_False by done.
  apply (ends_query (Checking, from) _ env st f []); [done|]. intros st1 Hk1.
  apply (ends_query (Checking, to) _ env st1 f []); [done|]. intros st2 Hk2.
  cbv zeta. unfold int_sub, bank_add. rewrite outcome_bind_assoc.
  eapply ends_int; [|done|].
  { unfold bank_of, cell_of. lia. }
  set (b1 := (bank_of f (Checking, from) + - parse_int raw)%Z). intros Hb1. simpl.
  unfold bank_set at 1. rewrite decide_True by done.
  destruct ((b1 <? 0) || (parse_int raw <? 0))%Z; [by eapply ends_ret|].
  rewrite outcome_bind_assoc. unfold int_add.
  eapply ends_int; [|done|].
  { unfold bank_set. rewrite decide_False by congruence. unfold bank_of, cell_of. done. }
  set (b2 := (bank_set _ _ _ _ + _)%Z). intros Hb2. simpl.
  apply (ends_update (Checking, from) b1 _ env st2 f []); [done|done|by apply not_elem_of_nil|].
  intros st3 Hk3.
  eapply (ends_update (Checking, to) b2 _ env st3 f); [done|done|apply key_fresh; congruence|].
  intros st4 Hk4. eapply ends_ret; [done|]. by apply bank_of_writes2.
Qed.

(** What [amalgamate] does: the savings of the first account move to the checking
    account of the second. *)
Definition move_savings (from to : string) (b : bank) : outcome (Z * bank) :=
  if decide (from = to) then Ok (0%Z, b)
  else
    b' ← bank_add (Checking, to) (b (Saving, from)) (bank_set (Saving, from) 0%Z b);
    Ok (1%Z, b').

Lemma amalgamate_ends from to env st f :
  cc_readOnly env = false → keeps f [] st →
  ends f (amalgamate from to) env st (move_savings from to (bank_of f)).
Proof.
  intros Hro Hk. unfold amalgamate, move_savings.
  destruct (String.eqb_spec from to) as [->|Hne].
  { rewrite decide_True by done. by eapply ends_ret. }
  rewrite decide_False by done.
  apply (ends_query (Saving, from) _ env st f []); [done|]. intros st1 Hk1.
  apply (ends_query (Checking, to) _ env st1 f []); [done|]. intros st2 Hk2.
  cbv zeta. unfold int_add, bank_add.
  apply (ends_update (Saving, from) 0 _ env st2 f []); [done|done|by apply not_elem_of_nil|].
  intros st3 Hk3. rewrite outcome_bind_assoc.
  eapply ends_int; [|done|].
  { unfold bank_set. rewrite decide_False by congruence. unfold bank_of, cell_of. done. }
  set (b2 := (bank_set _ _ _ _ + _)%Z). intros Hb2. simpl.
  eapply (ends_update (Checking, to) b2 _ env st3 f); [done|done|apply key_fresh; congruence|].
  intros st4 Hk4. eapply ends_ret; [done|]. by apply bank_of_writes2.
Qed.

(** [updateBalance] and [updateSaving] differ in the account they use. *)
Lemma deposit_ends k raw swap env st f :
  cc_readOnly env = false → keeps f [] st →
  ends f
    (bal_str ← sb_queryLambda (account_key (tab_name k.1) k.2);
     b ← cc_lift (insufficient (parse_int bal_str) (parse_int raw));
     if b : bool then mret (int_of_bool false)
     else
       sum ← cc_lift (if swap : bool then int_add (parse_int raw) (parse_int bal_str)
                      else int_add (parse_int bal_str) (parse_int raw));
       _ ← sb_updateLambda (account_key (tab_name k.1) k.2) sum;
       mret (int_of_bool true)) env st (bank_deposit k (parse_int raw) (bank_of f)).
Proof.
  intros Hro Hk. eapply (ends_query k _ env st f []); [done|]. intros st1 Hk1.
  set (a := parse_int raw).
  change (parse_int (value_or (to_string BALANCE) (f (cell_of k)))) with (bank_of f k).
  assert (ends f (sum ← cc_lift (if swap : bool then int_add a (bank_of f k)
                      else int_add (bank_of f k) a);
       _ ← sb_updateLambda (account_key (tab_name k.1) k.2) sum;
       mret (int_of_bool true)) env st1 (b' ← bank_add k a (bank_of f); Ok (1%Z, b'))) as Hadd.
  { replace (if swap then int_add a (bank_of f k) else int_add (bank_of f k) a)
      with (int_check (bank_of f k + a)%Z) by (unfold int_add; destruct swap; f_equal; lia).
    unfold bank_add. rewrite outcome_bind_assoc. eapply ends_int; [done|done|]. intros Hb. simpl.
    apply (ends_update k _ _ env st1 f []); [done|done|by apply not_elem_of_nil|].
    intros st2 Hk2. eapply ends_ret; [done|]. by apply bank_of_writes1. }
  unfold bank_deposit, insufficient. destruct (Z.ltb_spec a 0) as [Hlt|Hge]; simpl; [|done].
  unfold int_neg, int_check. destruct (fits_int (- a)) eqn:Ea; simpl; [|done].
  assert ((bank_of f k <? - a)%Z = (bank_of f k + a <? 0)%Z) as ->
    by (apply Bool.eq_iff_eq_true; rewrite !Z.ltb_lt; lia).
  destruct (bank_of f k + a <? 0)%Z; [by eapply ends_ret | done].
Qed.

Lemma writeCheck_ends from raw env st f :
  cc_readOnly env = false → keeps f [] st →
  ends f (writeCheck from raw) env st (sb_spec (WriteCheck from (parse_int raw)) (bank_of f)).
Proof.
  intros Hro Hk. unfold writeCheck, sb_spec.
  apply (ends_query (Checking, from) _ env st f []); [done|]. intros st1 Hk1.
  cbv zeta. unfold int_sub, bank_add. rewrite outcome_bind_assoc.
  eapply ends_int; [|done|].
  { unfold bank_of, cell_of. lia. }
  set (b1 := (bank_of f (Checking, from) + - parse_int raw)%Z). intros Hb1. simpl.
  unfold bank_set at 1. rewrite decide_True by done.
  destruct (b1 <? 0)%Z; [by eapply ends_ret|].
  apply (ends_update (Checking, from) b1 _ env st1 f []); [done|done|by apply not_elem_of_nil|].
  intros st2 Hk2. eapply ends_ret; [done|]. by apply bank_of_writes1.
Qed.

End Refinement.

(** ** Money *)
Ltac inv_check :=
  repeat match goal with
  | H : int_check _ = Ok _ |- _ => apply int_check_Ok in H as [-> _]
  end.

Definition total (accounts : list string) (b : bank) : Z :=
  foldr (λ a acc, b (Saving, a) + b (Checking, a) + acc)%Z 0%Z accounts.

Lemma total_notin accounts t a z b :
  a ∉ accounts → total accounts (bank_set (t, a) z b) = total accounts b.
Proof.
  induction accounts as [|x l IH]; simpl; [done|]. intros [Hx Hl]%not_elem_of_cons.
  rewrite IH by done. unfold bank_set. rewrite !decide_False by congruence. done.
Qed.

Lemma total_set accounts t a z b :
  NoDup accounts → a ∈ accounts →
  total accounts (bank_set (t, a) z b) = (total accounts b + z - b (t, a))%Z.
Proof.
  induction accounts as [|x l IH]; simpl; intros Hnd Ha; [by apply not_elem_of_nil in Ha|].
  apply NoDup_cons in Hnd as [Hx Hnd]. apply elem_of_cons in Ha as [->|Ha].
  - rewrite total_notin by done. unfold bank_set.
    destruct t; repeat case_decide; simplify_eq; lia.
  - rewrite IH by done. unfold bank_set. rewrite !decide_False by congruence. lia.
Qed.

Lemma total_ext accounts b b' : (∀ k, b k = b' k) → total accounts b = total accounts b'.
Proof. intros E. induction accounts as [|x l IH]; simpl; [done|]. by rewrite !E, IH. Qed.

(** The operations that only move money. *)
Definition moves (accounts : list string) (op : sb_op) : Prop :=
  match op with
  | SendPayment from to _ => from ∈ accounts ∧ to ∈ accounts
  | GetBalance _ => True
  | _ => False
  end.

Lemma spec_conserves accounts op b r b' :
  NoDup accounts → moves accounts op → sb_spec op b = Ok (r, b') →
  total accounts b' = total accounts b.
Proof.
  intros Hnd Hm E. destruct op as [a|?|?|from to v|?]; try done; simpl in *.
  - by inv_outcome.
  - destruct Hm as [Hf Ht]. case_decide as Hd; [by inv_outcome|].
    unfold bank_add in E. inv_outcome. inv_check.
    destruct (_ || _); [by inv_outcome|]. inv_outcome. inv_check.
    rewrite !total_set by done. unfold bank_set.
    rewrite decide_False by congruence. lia.
Qed.

Definition solvent (b : bank) : Prop := ∀ k, (0 ≤ b k)%Z.

Lemma solvent_set k z b : solvent b → (0 ≤ z)%Z → solvent (bank_set k z b).
Proof. intros Hb Hz k'. unfold bank_set. by case_decide. Qed.

Lemma solvent_deposit k z b r b' :
  solvent b → bank_deposit k z b = Ok (r, b') → solvent b'.
Proof.
  intros Hb E. pose proof (Hb k) as Hk. unfold bank_deposit, bank_add in E.
  destruct ((z <? 0)%Z && negb (fits_int (- z)%Z)); [done|].
  destruct ((z <? 0) && (b k + z <? 0))%Z eqn:Ez; [by inv_outcome|].
  inv_outcome. inv_check. apply solvent_set; [done|].
  apply andb_false_iff in Ez. rewrite !Z.ltb_ge in Ez. lia.
Qed.

Lemma spec_solvent op b r b' : solvent b → sb_spec op b = Ok (r, b') → solvent b'.
Proof.
  intros Hb E. destruct op as [a|?|?|from to v|from v]; simpl in *.
  - by inv_outcome.
  - by eapply solvent_deposit.
  - by eapply solvent_deposit.
  - case_decide; [by inv_outcome|]. unfold bank_add in E. inv_outcome.
    inv_check.
    destruct (_ || _) eqn:Eb; [by inv_outcome|]. inv_outcome.
    inv_check.
    apply orb_false_iff in Eb. rewrite !Z.ltb_ge in Eb. destruct Eb as [E1 E2].
    unfold bank_set at 1 in E1. rewrite decide_True in E1 by done.
    assert (solvent (bank_set (Checking, from) (b (Checking, from) + - v) b)) as H1
      by (by apply solvent_set).
    apply solvent_set; [done|]. pose proof (H1 (Checking, to)). lia.
  - unfold bank_add in E. inv_outcome. inv_check.
    destruct (_ <? _)%Z eqn:E1; [by inv_outcome|]. inv_outcome. rewrite Z.ltb_ge in E1.
    unfold bank_set at 1 in E1. rewrite decide_True in E1 by done. by apply solvent_set.
Qed.

(** ** The dispatcher *)
Definition op_name (op : sb_op) : string :=
  match op with
  | GetBalance _ => "getBalance"
  | UpdateBalance _ _ => "updateBalance" | UpdateSaving _ _ => "updateSaving"
  | SendPayment _ _ _ => "sendPayment" | WriteCheck _ _ => "writeCheck"
  end.

(** The arguments of a request for the operation: accounts as they are, an amount
    as any string that [strtol] and the conversion to [int] turn into it. *)
Definition op_args (op : sb_op) (args : list string) : Prop :=
  match op with
  | GetBalance a => args = [a]
  | UpdateBalance a v | UpdateSaving a v | WriteCheck a v => ∃ raw, args = [a; raw] ∧ parse_int raw = v
  | SendPayment a b v => ∃ raw, args = [a; b; raw] ∧ parse_int raw = v
  end.

Section Dispatch.
Context {S : Type} `{TableStorage S}.
Context (parse : string → YCSB_PAYLOAD) (debug lhs : bool).

Lemma ends_eq f (m m' : CC S Z) env st o : m env st = m' env st → ends f m' env st o → ends f m env st o.
Proof. unfold ends. by intros ->. Qed.

Lemma invoke_ends op payload env (st : cc_state S) :
  cc_readOnly env = false → writes (cc_rwset st) = [] → op_args op (yp_reads (parse payload)) →
  ends (view (cc_store st)) (sb_InvokeChaincode parse debug lhs (op_name op) payload) env st
    (sb_spec op (bank_of (view (cc_store st)))).
Proof.
  intros Hro Hw Ha. set (f := view (cc_store st)). assert (keeps f [] st) as Hk by (by split).
  destruct op as [a|from v|from v|from to v|from v]; cbn [op_args] in Ha.
  - apply (ends_eq _ _ (sb_query a)); [unfold sb_InvokeChaincode; rewrite Ha; by destruct debug|].
    unfold sb_query. apply (ends_query (Saving, a) _ env st f []); [done|]. intros st1 Hk1.
    apply (ends_query (Checking, a) _ env st1 f []); [done|]. intros st2 Hk2. by eapply ends_ret.
  - destruct Ha as (raw & Ha & <-).
    apply (ends_eq _ _ (updateBalance from raw)); [unfold sb_InvokeChaincode; rewrite Ha; by destruct debug|].
    exact (deposit_ends (Checking, from) raw false env st f Hro Hk).
  - destruct Ha as (raw & Ha & <-).
    apply (ends_eq _ _ (updateSaving from raw)); [unfold sb_InvokeChaincode; rewrite Ha; by destruct debug|].
    exact (deposit_ends (Saving, from) raw true env st f Hro Hk).
  - destruct Ha as (raw & Ha & <-).
    apply (ends_eq _ _ (sendPayment from to raw)); [unfold sb_InvokeChaincode; rewrite Ha; by destruct debug|].
    by apply sendPayment_ends.
  - destruct Ha as (raw & Ha & <-).
    apply (ends_eq _ _ (writeCheck from raw)); [unfold sb_InvokeChaincode; rewrite Ha; by destruct debug|].
    by apply writeCheck_ends.
Qed.

(** C4: the SmallBank chaincode refines the abstract bank.  Invoked through
    its dispatcher on a request for a query, an update of a balance or of the
    savings, a payment or a check, it stops on a signed overflow exactly when the
    abstract operation does, and otherwise returns the abstract result, leaves
    the storage's view alone and buffers writes whose commit turns the balances
    into the abstract ones.  [amalgamate] is left out: what it does is not what
    its comment says ([amalgamate_moves_savings]). *)
Theorem sb_invoke_refines op payload env (st : cc_state S) :
  cc_readOnly env = false → writes (cc_rwset st) = [] → op_args op (yp_reads (parse payload)) →
  match sb_spec op (bank_of (view (cc_store st))) with
  | Fatal e => sb_InvokeChaincode parse debug lhs (op_name op) payload env st = Fatal e
  | Ok (r, b) => ∃ st',
      sb_InvokeChaincode parse debug lhs (op_name op) payload env st = Ok (r, st') ∧
      (∀ c, view (cc_store st') c = view (cc_store st) c) ∧
      ∀ k, bank_of (committed st') k = b k
  end.
Proof. apply invoke_ends. Qed.

(** [amalgamate] is meant to transfer all assets of the first account to the
    second (the comment above it); it moves the savings only, and the checking
    account of the first keeps its balance. *)
Lemma amalgamate_moves_savings from to payload env (st : cc_state S) r st' :
  cc_readOnly env = false → writes (cc_rwset st) = [] → yp_reads (parse payload) = [from; to] → from ≠ to →
  sb_InvokeChaincode parse debug lhs "amalgamate" payload env st = Ok (r, st') →
  let before := bank_of (view (cc_store st)) in
  let after := bank_of (committed st') in
  r = 1%Z ∧ after (Saving, from) = 0%Z ∧
  after (Checking, to) = (before (Checking, to) + before (Saving, from))%Z ∧
  after (Checking, from) = before (Checking, from) ∧ after (Saving, to) = before (Saving, to).
Proof.
  intros Hro Hw Ha Hne E before after.
  assert (sb_InvokeChaincode parse debug lhs "amalgamate" payload env st = amalgamate from to env st) as Ei.
  { unfold sb_InvokeChaincode. rewrite Ha. by destruct debug. }
  rewrite Ei in E. pose proof (amalgamate_ends from to env st (view (cc_store st)) Hro (conj (λ _, eq_refl) Hw)) as He.
  unfold ends, move_savings, bank_add in He. rewrite decide_False in He by done.
  destruct (int_check _) as [v|] eqn:Ev; simpl in He; [|congruence]. apply int_check_Ok in Ev as [-> _].
  destruct He as (st1 & E1 & _ & Hb). rewrite E1 in E. simplify_eq.
  unfold after, before. rewrite !Hb. unfold bank_set. repeat case_decide; simplify_eq; done.
Qed.

Lemma invoke_spec op payload env (st : cc_state S) r st' :
  cc_readOnly env = false → writes (cc_rwset st) = [] → op_args op (yp_reads (parse payload)) →
  sb_InvokeChaincode parse debug lhs (op_name op) payload env st = Ok (r, st') →
  ∃ b, sb_spec op (bank_of (view (cc_store st))) = Ok (r, b) ∧
       ∀ k, bank_of (committed st') k = b k.
Proof.
  intros Hro Hw Ha E. pose proof (invoke_ends op payload env st Hro Hw Ha) as He.
  unfold ends in He. destruct (sb_spec op _) as [[r' b]|e]; [|congruence].
  destruct He as (st'' & E' & _ & Hb). rewrite E' in E. simplify_eq. by exists b.
Qed.

(** a payment that returns, successfully or refused,
    keeps the total of all balances of any set of accounts that contains the
    two parties. *)
Theorem sb_money_conserved accounts op payload env (st : cc_state S) r st' :
  NoDup accounts → moves accounts op →
  cc_readOnly env = false → writes (cc_rwset st) = [] → op_args op (yp_reads (parse payload)) →
  sb_InvokeChaincode parse debug lhs (op_name op) payload env st = Ok (r, st') →
  total accounts (bank_of (committed st')) = total accounts (bank_of (view (cc_store st))).
Proof.
  intros Hnd Hm Hro Hw Ha E.
  destruct (invoke_spec op payload env st r st' Hro Hw Ha E) as (b & Hs & Hb).
  rewrite (total_ext accounts _ b Hb). by eapply spec_conserves.
Qed.

(** no operation of the bank overdraws an account: if no balance is
    negative before an invocation, none is after its commit. *)
Theorem sb_no_overdraft op payload env (st : cc_state S) r st' :
  cc_readOnly env = false → writes (cc_rwset st) = [] → op_args op (yp_reads (parse payload)) →
  solvent (bank_of (view (cc_store st))) →
  sb_InvokeChaincode parse debug lhs (op_name op) payload env st = Ok (r, st') →
  solvent (bank_of (committed st')).
Proof.
  intros Hro Hw Ha Hsol E.
  destruct (invoke_spec op payload env st r st' Hro Hw Ha E) as (b & Hs & Hb).
  intros k. rewrite Hb. by eapply (spec_solvent op _ r b).
Qed.

End Dispatch.

(** ** Initial data *)
Lemma to_string_nat_inj i j :
  (Z.of_nat i < 2 ^ 63)%Z → (Z.of_nat j < 2 ^ 63)%Z →
  to_string (Z.of_nat i) = to_string (Z.of_nat j) → i = j.
Proof.
  intros Hi Hj E. apply (f_equal strtol) in E. rewrite !strtol_to_string in E by lia. lia.
Qed.

(** A write of [InitFunc]: a balance between 0 and 99. *)
Definition init_write (w : KVWrite) : Prop :=
  wr_table w = "small_bank" ∧ ∃ v, (0 ≤ v < 100)%Z ∧ write_value w = to_string v.

Section Init.
Context {S : Type} `{TableStorage S}.
Context (lhs : bool) (env : cc_env).
Context (Hro : cc_readOnly env = false).

Definition account_keys (tab : string) (l : list nat) : list string :=
  (λ i, account_key tab (to_string (Z.of_nat i))) <$> l.

Lemma init_account_run tab i seed (st : cc_state S) :
  account_key tab (to_string (Z.of_nat i)) ∉ (wr_key <$> writes (cc_rwset st)) →
  init_account lhs tab i seed env st =
    Ok ((rnd_next lhs seed).2,
        cc_set_rwset (add_write
          (mkWrite "small_bank" (account_key tab (to_string (Z.of_nat i)))
             (to_string (Z.of_N ((rnd_next lhs seed).1 mod 100))) false) (cc_rwset st)) st).
Proof.
  intros Hk. unfold init_account. destruct (rnd_next lhs seed) as [x seed1].
  unfold mbind, CC_bind. by rewrite insert_pair_run.
Qed.

Lemma init_loop tab l seed (st : cc_state S) :
  NoDup (account_keys tab l) →
  (∀ k, k ∈ account_keys tab l → k ∉ (wr_key <$> writes (cc_rwset st))) →
  ∃ seed' ws, cc_for (init_account lhs tab) l seed env st =
      Ok (seed', cc_set_rwset (mkRWSet (reads (cc_rwset st)) (writes (cc_rwset st) ++ ws)) st) ∧
    wr_key <$> ws = account_keys tab l ∧ Forall init_write ws.
Proof.
  revert seed st. induction l as [|i l IH]; intros seed st Hnd Hfresh.
  { exists seed, []. destruct st as [s [r w] t]. unfold cc_set_rwset; simpl.
    by rewrite app_nil_r. }
  unfold account_keys in *. rewrite fmap_cons in Hnd, Hfresh.
  apply NoDup_cons in Hnd as [Hi Hnd]. cbn [cc_for]. unfold mbind, CC_bind.
  rewrite init_account_run by (apply Hfresh; by left).
  set (w := mkWrite _ _ _ _). set (st1 := cc_set_rwset _ st).
  destruct (IH (rnd_next lhs seed).2 st1 Hnd) as (seed' & ws & E & Hk & Hf).
  { intros k Hk. subst st1; simpl. rewrite fmap_app. apply not_elem_of_app. split.
    - apply Hfresh. by right.
    - simpl. intros ->%list_elem_of_singleton. done. }
  exists seed', (w :: ws). split_and!.
  - rewrite E. subst st1. unfold cc_set_rwset; simpl. by rewrite <-app_assoc.
  - by rewrite !fmap_cons, Hk.
  - constructor; [|done]. split; [done|].
    exists (Z.of_N ((rnd_next lhs seed).1 mod 100)). split; [|done].
    assert ((rnd_next lhs seed).1 mod 100 < 100)%N as Hm by (by apply N.mod_lt).
    revert Hm. generalize ((rnd_next lhs seed).1 mod 100)%N. lia.
Qed.

Lemma account_keys_NoDup tab n :
  (Z.of_nat n < 2 ^ 63)%Z → NoDup (account_keys tab (seq 0 n)).
Proof.
  intros Hn. unfold account_keys. apply NoDup_fmap_2_strong; [|apply NoDup_seq].
  intros i j Hi%elem_of_seq Hj%elem_of_seq E. do 2 apply string_append_inj in E.
  apply to_string_nat_inj in E; [done|lia|lia].
Qed.

Lemma account_keys_cell tab i n ws :
  wr_key <$> ws = account_keys tab (seq 0 n) → Forall init_write ws → i < n →
  ("small_bank", account_key tab (to_string (Z.of_nat i)))
    ∈ ((λ w, (wr_table w, wr_key w)) <$> ws).
Proof.
  intros Hk Hf Hi.
  assert (account_key tab (to_string (Z.of_nat i)) ∈ (wr_key <$> ws)) as Hin.
  { rewrite Hk. apply list_elem_of_fmap. exists i. split; [done|]. apply elem_of_seq. lia. }
  apply list_elem_of_fmap in Hin as (w & E & Hw). apply list_elem_of_fmap. exists w.
  split; [|done]. rewrite Forall_forall in Hf. destruct (Hf w Hw) as [-> _]. by rewrite E.
Qed.

Lemma tab_keys_disjoint n k :
  k ∈ account_keys savingTab (seq 0 n) → k ∉ account_keys checkingTab (seq 0 n).
Proof.
  intros (i & -> & _)%list_elem_of_fmap (j & E & _)%list_elem_of_fmap.
  apply (account_key_inj (Saving, _) (Checking, _)) in E. done.
Qed.

Lemma init_balance ws f c :
  Forall init_write ws → c ∈ ((λ w, (wr_table w, wr_key w)) <$> ws) →
  (0 ≤ parse_int (value_or (to_string BALANCE) (apply_writes ws f c)) < 100)%Z.
Proof.
  intros Hf Hc. destruct (apply_writes_elem ws f c Hc) as (w & Hw & _ & ->).
  rewrite Forall_forall in Hf. destruct (Hf w Hw) as (_ & v & Hv & ->). unfold value_or.
  destruct (String.eqb_spec (to_string v) "") as [E|_]; [by apply to_string_nonempty in E|].
  rewrite parse_int_to_string; [done|]. apply fits_int_spec. unfold INT_MIN, INT_MAX. lia.
Qed.

(** [create_data] on [accounts] accounts never runs into the duplicate-key
    check, and once committed every saving and checking balance of the accounts
    is between 0 and 99. *)
Theorem sb_create_data accounts (st : cc_state S) :
  (Z.of_nat accounts < 2 ^ 63)%Z → writes (cc_rwset st) = [] →
  ∃ st', sb_init_accounts lhs accounts env st = Ok (1%Z, st') ∧
    length (writes (cc_rwset st')) = 2 * accounts ∧
    ∀ t i, i < accounts →
      (0 ≤ bank_of (committed st') (t, to_string (Z.of_nat i)) < 100)%Z.
Proof.
  intros Hn Hw. unfold sb_init_accounts, mbind, CC_bind, mret, CC_ret.
  destruct (init_loop checkingTab (seq 0 accounts) (init_seed 0) st) as (s1 & ws1 & -> & Hk1 & Hf1).
  { by apply account_keys_NoDup. }
  { intros k _. rewrite Hw. apply not_elem_of_nil. }
  set (st1 := cc_set_rwset _ st).
  destruct (init_loop savingTab (seq 0 accounts) s1 st1) as (s2 & ws2 & -> & Hk2 & Hf2).
  { by apply account_keys_NoDup. }
  { intros k Hk. subst st1; simpl. rewrite Hw. simpl. rewrite Hk1. by apply tab_keys_disjoint. }
  eexists. split; [done|]. subst st1. simpl. rewrite Hw. simpl.
  assert (∀ tab ws, wr_key <$> ws = account_keys tab (seq 0 accounts) → length ws = accounts) as Hl.
  { intros tab ws E. apply (f_equal length) in E. unfold account_keys in E.
    by rewrite !length_fmap, length_seq in E. }
  split.
  { rewrite length_app, (Hl _ _ Hk1), (Hl _ _ Hk2). lia. }
  intros t i Hi. unfold bank_of, committed. simpl. apply init_balance.
  { by apply Forall_app. }
  rewrite fmap_app. apply elem_of_app. destruct t; [right|left]; by eapply account_keys_cell.
Qed.

End Init.

(** ** Concrete runs over the in-memory storage *)
Module SmallBankRuns.
#[local] Existing Instances MemLevelDB.mem_storage MemLevelDB.mem_table_storage.

Definition parse0 (_ : string) : YCSB_PAYLOAD := mkYcsbPayload ["alice"; "bob"; "30"] [] "".
Definition env0 : cc_env := mkEnv 7 false.
Definition st0 : cc_state (gmap string (gmap string string)) := mkCC ∅ empty_rwset [].
Definition pay : sb_op := SendPayment "alice" "bob" 30.

(** The run succeeds and buffers the two new balances. *)
Example pay_writes :
  (λ r, writes (cc_rwset r.2)) <$>
    sb_InvokeChaincode parse0 true true "sendPayment" "" env0 st0 =
  Ok [mkWrite "small_bank" "checking_alice" "970" false;
      mkWrite "small_bank" "checking_bob" "1030" false].
Proof. vm_compute. reflexivity. Qed.

Lemma pay_args : op_args pay (yp_reads (parse0 "")).
Proof. exists "30"%string. split; reflexivity. Defined.

Lemma sb_invoke_refines_witness :
  cc_readOnly env0 = false ∧ writes (cc_rwset st0) = [] ∧
  op_args pay (yp_reads (parse0 "")) ∧
  match sb_spec pay (bank_of (view (cc_store st0))) with
  | Fatal e => sb_InvokeChaincode parse0 true true (op_name pay) "" env0 st0 = Fatal e
  | Ok (r, b) => ∃ st',
      sb_InvokeChaincode parse0 true true (op_name pay) "" env0 st0 = Ok (r, st') ∧
      (∀ c, view (cc_store st') c = view (cc_store st0) c) ∧
      ∀ k, bank_of (committed st') k = b k
  end.
Proof.
  split; [reflexivity|]. split; [reflexivity|]. split; [exact pay_args|].
  exact (sb_invoke_refines parse0 true true pay "" env0 st0 eq_refl eq_refl pay_args).
Defined.

(** The state after the payment. *)
Definition st1 : cc_state (gmap string (gmap string string)) :=
  match sb_InvokeChaincode parse0 true true (op_name pay) "" env0 st0 with
  | Ok (_, st') => st' | Fatal _ => st0 end.

Lemma sb_money_conserved_witness :
  total ["alice"; "bob"; "carol"] (bank_of (committed st1)) =
  total ["alice"; "bob"; "carol"] (bank_of (view (cc_store st0))).
Proof.
  apply (sb_money_conserved parse0 true true ["alice"; "bob"; "carol"] pay "" env0 st0 1%Z st1).
  - apply (bool_decide_unpack _). vm_compute. exact I.
  - split; apply (bool_decide_unpack _); vm_compute; exact I.
  - reflexivity.
  - reflexivity.
  - exact pay_args.
  - vm_compute. reflexivity.
Defined.

Lemma sb_no_overdraft_witness : solvent (bank_of (committed st1)).
Proof.
  apply (sb_no_overdraft parse0 true true pay "" env0 st0 1%Z st1).
  - reflexivity.
  - reflexivity.
  - exact pay_args.
  - intros k. apply Z.leb_le. reflexivity.
  - vm_compute. reflexivity.
Defined.

Lemma sb_create_data_witness :
  ∃ st', sb_init_accounts true 3 env0 st0 = Ok (1%Z, st') ∧
    length (writes (cc_rwset st')) = 2 * 3 ∧
    ∀ t i, i < 3 → (0 ≤ bank_of (committed st') (t, to_string (Z.of_nat i)) < 100)%Z.
Proof. apply (sb_create_data true env0 eq_refl 3 st0); [lia | reflexivity]. Defined.

End SmallBankRuns.
