(* ===== verification/Ycsb.v ===== *)
(** * The YCSB chaincode

    [src/block_server/worker/chaincode/ycsb_chaincode.cpp].  A record is a
    serialized list of (field, value) pairs in the table [ycsb]; a write merges
    the fields of the request into the stored record through a
    [std::unordered_map].

    Parameters: the protobuf parsers and serializer, and the order in which
    [std::unordered_map] enumerates its elements, which may depend on the
    history of assignments and not only on the contents. *)
From S2P Require Import Prelude Transaction Storage Orm Database Chaincode.
From Stdlib Require Import Ascii.
From stdpp Require Import base list gmap strings.

Section Ycsb.
Context {S : Type} `{DBStorage S}.
Context (parse_payload : string → YCSB_PAYLOAD).
Context (parse_record : string → YCSB_FOR_BLOCK_BENCH).
Context (serialize_record : YCSB_FOR_BLOCK_BENCH → string).
Context (unordered_iter : list (string * string) → list (string * string)).
Context (debug : bool).

Definition defValue : string := "default_value".

Definition ycsb_queryLambda (key : string) : CC S string := query_default "ycsb" defValue key.
Definition ycsb_updateLambda (key value : string) : CC S unit := insert_pair "ycsb" key value.

(** The assignments [tmp[value.key()] = value.value()], in order. *)
Definition merge_history (old append : YCSB_FOR_BLOCK_BENCH) : list (string * string) :=
  old ++ append.

Definition ycsb_write (tableName key val : string) : CC S Z :=
  old ← ycsb_queryLambda key;
  let merge := unordered_iter (merge_history (parse_record old) (parse_record val)) in
  _ ← ycsb_updateLambda key (serialize_record merge);
  mret (int_of_bool true).

Definition ycsb_del (tableName key : string) : CC S Z :=
  _ ← ycsb_updateLambda key ""; mret (int_of_bool true).

Definition ycsb_read (tableName key filter : string) : CC S Z :=
  v ← ycsb_queryLambda key; mret (int_of_bool true).

Definition ycsb_InitFunc : CC S Z := mret 0%Z.

Definition ycsb_InvokeChaincode (chaincodeName payload : string) : CC S Z :=
  let ycsbPayload := parse_payload payload in
  let realArgs := yp_reads ycsbPayload in
  let tableName := yp_table ycsbPayload in
  let size_is (n : nat) : CC S unit :=
    cc_lift (DCHECK debug (bool_decide (length realArgs = n))) in
  let arg (i : nat) : CC S string := cc_lift (at_index realArgs i) in
  if String.eqb chaincodeName "write" then
    _ ← size_is 2; a0 ← arg 0; a1 ← arg 1; ycsb_write tableName a0 a1
  else if String.eqb chaincodeName "del" then
    _ ← size_is 1; a0 ← arg 0; ycsb_del tableName a0
  else if String.eqb chaincodeName "read" then
    _ ← size_is 2; a0 ← arg 0; a1 ← arg 1; ycsb_read tableName a0 a1
  else if String.eqb chaincodeName "create_data" then ycsb_InitFunc
  else mret 0%Z.

End Ycsb.

(** The contents of an [unordered_map] after a history of assignments. *)
Definition assign_all (h : list (string * string)) (m : gmap string string)
    : gmap string string := foldl (λ m p, <[p.1 := p.2]> m) m h.

(** What the documentation of [std::unordered_map] and of the generated
    protobuf code promises. *)
Record ycsb_params_ok (parse_record : string → YCSB_FOR_BLOCK_BENCH)
    (serialize_record : YCSB_FOR_BLOCK_BENCH → string)
    (unordered_iter : list (string * string) → list (string * string)) : Prop := {
  iter_perm h : unordered_iter h ≡ₚ map_to_list (assign_all h ∅);
  record_roundtrip r : parse_record (serialize_record r) = r }.

Section YcsbFacts.
Context {S : Type} `{TableStorage S}.
Context (parse_payload : string → YCSB_PAYLOAD).
Context (parse_record : string → YCSB_FOR_BLOCK_BENCH).
Context (serialize_record : YCSB_FOR_BLOCK_BENCH → string).
Context (unordered_iter : list (string * string) → list (string * string)).
Context (debug : bool).

#[global] Instance ycsb_queryLambda_local key : Local (S := S) (ycsb_queryLambda key).
Proof. unfold ycsb_queryLambda. apply _. Qed.
#[global] Instance ycsb_updateLambda_local key v : Local (S := S) (ycsb_updateLambda key v).
Proof. unfold ycsb_updateLambda. apply _. Qed.

#[global] Instance ycsb_InvokeChaincode_local name payload :
  Local (S := S) (ycsb_InvokeChaincode parse_payload parse_record serialize_record
                    unordered_iter debug name payload).
Proof.
  unfold ycsb_InvokeChaincode, ycsb_write, ycsb_del, ycsb_read, ycsb_InitFunc. apply _.
Qed.

(** The fields of a stored record. *)
Definition fields_of (v : string) : gmap string string :=
  list_to_map (reverse (parse_record v)).

Lemma assign_all_app h1 h2 m : assign_all (h1 ++ h2) m = assign_all h2 (assign_all h1 m).
Proof. apply foldl_app. Qed.

Lemma assign_all_lookup h m k :
  assign_all h m !! k =
  match (list_to_map (reverse h) : gmap string string) !! k with
  | Some v => Some v | None => m !! k end.
Proof.
  induction h as [|[k' v'] h IH] using rev_ind; [done|].
  rewrite assign_all_app, reverse_app. simpl.
  destruct (decide (k = k')) as [->|Hne].
  - by rewrite !lookup_insert_eq.
  - by rewrite !lookup_insert_ne, IH by congruence.
Qed.

Lemma list_to_map_perm_map (l : list (string * string)) (m : gmap string string) :
  l ≡ₚ map_to_list m → (list_to_map (reverse l) : gmap string string) = m.
Proof.
  intros Hl. assert (reverse l ≡ₚ map_to_list m) as Hr by (by rewrite reverse_Permutation).
  rewrite (list_to_map_proper _ (map_to_list m)); [apply list_to_map_to_list| |done].
  rewrite Hr. apply NoDup_fst_map_to_list.
Qed.

(** a YCSB write returns success, and once committed the stored record has
    the fields of the request over the fields it had before, whatever order
    the hash table enumerates them in; no other cell changes. *)
Theorem ycsb_write_merges tableName key val env (st : cc_state S) :
  ycsb_params_ok parse_record serialize_record unordered_iter →
  cc_readOnly env = false → writes (cc_rwset st) = [] →
  ∃ st', ycsb_write parse_record serialize_record unordered_iter tableName key val env st =
      Ok (1%Z, st') ∧
    (∀ f, fields_of (committed st' ("ycsb", key)) !! f =
      match fields_of val !! f with
      | Some v => Some v
      | None => fields_of (value_or defValue (view (cc_store st) ("ycsb", key))) !! f
      end) ∧
    ∀ c, c ≠ ("ycsb", key) → committed st' c = view (cc_store st) c.
Proof.
  intros Hok Hro Hw. unfold ycsb_write, ycsb_queryLambda, ycsb_updateLambda, mbind, CC_bind.
  destruct (query_default_run "ycsb" defValue key env st) as (s' & Hs & ->).
  rewrite insert_pair_run; [|done|simpl; rewrite Hw; apply not_elem_of_nil].
  eexists. split; [done|]. unfold committed. simpl. rewrite Hw. simpl.
  unfold apply_writes, apply_write. simpl. split.
  - intros f. rewrite decide_True by done. unfold write_value. simpl. unfold fields_of at 1.
    rewrite (record_roundtrip _ _ _ Hok).
    erewrite list_to_map_perm_map; [|apply (iter_perm _ _ _ Hok)].
    unfold merge_history. rewrite assign_all_app, assign_all_lookup.
    fold (fields_of val). destruct (fields_of val !! f); [done|].
    rewrite assign_all_lookup, lookup_empty. unfold fields_of. by destruct (_ !! f).
  - intros c Hc. rewrite decide_False by done. apply Hs.
Qed.

End YcsbFacts.

(** ** A concrete run *)
Module YcsbRuns.
#[local] Existing Instances MemLevelDB.mem_storage MemLevelDB.mem_table_storage.

(** A codec of records through their binary encoding. *)
Fixpoint bits_to_string (p : positive) : string :=
  match p with
  | xH => ""
  | xO p => String "0"%char (bits_to_string p)
  | xI p => String "1"%char (bits_to_string p)
  end.
Fixpoint string_to_bits (s : string) : positive :=
  match s with
  | EmptyString => xH
  | String c s => if Ascii.eqb c "0"%char then xO (string_to_bits s) else xI (string_to_bits s)
  end.

Definition serialize0 (r : YCSB_FOR_BLOCK_BENCH) : string := bits_to_string (encode r).
Definition parse0 (s : string) : YCSB_FOR_BLOCK_BENCH := default [] (decode (string_to_bits s)).
Definition iter0 (h : list (string * string)) : list (string * string) :=
  map_to_list (assign_all h ∅).

Lemma params0_ok : ycsb_params_ok parse0 serialize0 iter0.
Proof.
  split; [done|]. intros r. unfold parse0, serialize0.
  replace (string_to_bits (bits_to_string (encode r))) with (encode r).
  - by rewrite decode_encode.
  - generalize (encode r). intros p. induction p as [p IH|p IH|]; simpl; congruence.
Qed.

Definition env0 : cc_env := mkEnv 3 false.
Definition st0 : cc_state (gmap string (gmap string string)) :=
  mkCC {["ycsb" := {["user1" := serialize0 [("f0", "a"); ("f1", "b")]]}]} empty_rwset [].
Definition req : string := serialize0 [("f1", "c"); ("f2", "d")].

Lemma ycsb_write_merges_witness :
  ∃ st', ycsb_write parse0 serialize0 iter0 "" "user1" req env0 st0 = Ok (1%Z, st') ∧
    (∀ f, fields_of parse0 (committed st' ("ycsb", "user1")) !! f =
      match fields_of parse0 req !! f with
      | Some v => Some v
      | None => fields_of parse0 (value_or defValue (view (cc_store st0) ("ycsb", "user1"))) !! f
      end) ∧
    ∀ c, c ≠ ("ycsb", "user1") → committed st' c = view (cc_store st0) c.
Proof.
  apply (ycsb_write_merges parse0 serialize0 iter0 "" "user1" req env0 st0).
  - exact params0_ok.
  - reflexivity.
  - reflexivity.
Defined.

(** The merged record, evaluated. *)
Example merged_fields :
  match ycsb_write parse0 serialize0 iter0 "" "user1" req env0 st0 with
  | Ok (_, st') => map_to_list (fields_of parse0 (committed st' ("ycsb", "user1")))
  | Fatal _ => []
  end = map_to_list ({["f0" := "a"; "f1" := "c"; "f2" := "d"]} : gmap string string).
Proof. vm_compute. reflexivity. Qed.

End YcsbRuns.
