(* ===== verification/OrmTest.v ===== *)
(** * The ORM test chaincode

    [src/block_server/worker/chaincode/orm_test_chaincode.cpp]: table creation,
    bulk data, single-key and mixed read-write requests, and the CPU-bound
    request that sorts pseudo-random numbers with a hand-written quicksort. *)
From S2P Require Import Prelude DecimalString Random Transaction Storage Orm Database Chaincode.
From Stdlib Require Import ZArith Lia.
From stdpp Require Import base list gmap strings.

(** ** quicksort *)
Definition int_at (a : list Z) (i : Z) : outcome Z :=
  if (i <? 0)%Z then Fatal OutOfRange else at_index a (Z.to_nat i).

Definition int_set (a : list Z) (i : Z) (v : Z) : outcome (list Z) :=
  _ ← int_at a i; Ok (<[Z.to_nat i := v]> a).

(** [swp = a[i]; a[i] = a[j]; a[j] = swp]. *)
Definition qs_swap (a : list Z) (i j : Z) : outcome (list Z) :=
  swp ← int_at a i;
  aj ← int_at a j;
  a ← int_set a i aj;
  int_set a j swp.

(** The body of the loop, over [i = start .. end - 1]. *)
Definition qs_body (pivot : Z) (i : Z) (st : list Z * Z) : outcome (list Z * Z) :=
  let '(a, pointer) := st in
  ai ← int_at a i;
  if (ai <? pivot)%Z then
    a ← (if (pointer =? i)%Z then Ok a else qs_swap a i pointer);
    Ok (a, (pointer + 1)%Z)
  else Ok (a, pointer).

Definition qs_range (start stop : Z) : list Z :=
  (λ k, (start + Z.of_nat k)%Z) <$> seq 0 (Z.to_nat (stop - start)).

(** The recursion is on the array segment; [fuel] bounds its depth. *)
Fixpoint quicksort_r (fuel : nat) (a : list Z) (start stop : Z) : option (outcome (list Z)) :=
  match fuel with
  | O => None
  | S fuel' =>
      if (stop <=? start)%Z then Some (Ok a)
      else
        match
          pivot ← int_at a stop;
          '(a, pointer) ← foldM (qs_body pivot) (qs_range start stop) (a, start);
          a ← qs_swap a stop pointer;
          Ok (a, pointer)
        with
        | Fatal e => Some (Fatal e)
        | Ok (a, pointer) =>
            match quicksort_r fuel' a start (pointer - 1) with
            | None => None
            | Some (Fatal e) => Some (Fatal e)
            | Some (Ok a) => quicksort_r fuel' a (pointer + 1) stop
            end
        end
  end.

Definition quicksort (fuel : nat) (data : list Z) : option (outcome (list Z)) :=
  quicksort_r fuel data 0 (Z.of_nat (length data) - 1).

(** ** Correctness of the sort *)
Definition seg_all (P : Z → Prop) (a : list Z) (s e : Z) : Prop :=
  ∀ k x, (s ≤ Z.of_nat k ≤ e)%Z → a !! k = Some x → P x.

Definition seg_sorted (a : list Z) (s e : Z) : Prop :=
  ∀ i j x y, (s ≤ Z.of_nat i)%Z → i ≤ j → (Z.of_nat j ≤ e)%Z →
    a !! i = Some x → a !! j = Some y → (x ≤ y)%Z.

(** [shuffled a a' s e]: [a'] rearranges the segment [s..e] of [a]. *)
Record shuffled (a a' : list Z) (s e : Z) : Prop := {
  sh_perm : a' ≡ₚ a;
  sh_out k : ¬ (s ≤ Z.of_nat k ≤ e)%Z → a' !! k = a !! k;
  sh_all P : seg_all P a s e → seg_all P a' s e }.

Lemma shuffled_refl a s e : shuffled a a s e.
Proof. by split. Qed.

Lemma shuffled_trans a b c s e : shuffled a b s e → shuffled b c s e → shuffled a c s e.
Proof.
  intros [p1 o1 f1] [p2 o2 f2]. split.
  - by rewrite p2.
  - intros k Hk. by rewrite o2, o1.
  - auto.
Qed.

Lemma shuffled_mono a b s e s' e' :
  shuffled a b s e → (s' ≤ s)%Z → (e ≤ e')%Z → shuffled a b s' e'.
Proof.
  intros [p o f] Hs He. split; [done| |].
  - intros k Hk. apply o. lia.
  - intros P HP k x Hk Hx. destruct (decide (s ≤ Z.of_nat k ≤ e)%Z) as [Hin|Hout].
    + eapply (f P); [|exact Hin|exact Hx]. intros k' x' Hk'. apply HP. lia.
    + rewrite o in Hx by done. by eapply HP.
Qed.

Lemma shuffled_length a b s e : shuffled a b s e → length b = length a.
Proof. intros Hs. apply Permutation_length, (sh_perm _ _ _ _ Hs). Qed.

Definition transpose (i j k : nat) : nat :=
  if decide (k = i) then j else if decide (k = j) then i else k.

Lemma swap_lookup (a : list Z) i j x y k :
  a !! i = Some x → a !! j = Some y → <[j := x]> (<[i := y]> a) !! k = a !! transpose i j k.
Proof.
  intros Hi Hj. pose proof (lookup_lt_Some _ _ _ Hi). pose proof (lookup_lt_Some _ _ _ Hj).
  unfold transpose. destruct (decide (k = j)) as [->|Hkj].
  - rewrite list_lookup_insert_eq by (rewrite length_insert; lia).
    case_decide; subst; congruence.
  - rewrite list_lookup_insert_ne by done. destruct (decide (k = i)) as [->|Hki].
    + rewrite list_lookup_insert_eq by lia. congruence.
    + by rewrite list_lookup_insert_ne.
Qed.

Lemma qs_swap_spec a i j s e :
  (0 ≤ s ≤ i)%Z → (i ≤ e)%Z → (s ≤ j ≤ e)%Z → (e < Z.of_nat (length a))%Z →
  ∃ a', qs_swap a i j = Ok a' ∧ shuffled a a' s e ∧
    ∀ k, a' !! k = a !! transpose (Z.to_nat i) (Z.to_nat j) k.
Proof.
  intros Hi Hi' Hj He. unfold qs_swap, int_set, int_at, at_index.
  destruct (lookup_lt_is_Some_2 a (Z.to_nat i)) as [x Hx]; [lia|].
  destruct (lookup_lt_is_Some_2 a (Z.to_nat j)) as [y Hy]; [lia|].
  destruct (Z.ltb_spec i 0), (Z.ltb_spec j 0); try lia. rewrite Hx, Hy. simpl.
  destruct (lookup_lt_is_Some_2 (<[Z.to_nat i := y]> a) (Z.to_nat j)) as [z Hz];
    [rewrite length_insert; lia|]. rewrite Hz. simpl.
  eexists. split; [done|].
  assert (∀ k, <[Z.to_nat j := x]> (<[Z.to_nat i := y]> a) !! k =
    a !! transpose (Z.to_nat i) (Z.to_nat j) k) as Hl by (intros k; by apply swap_lookup).
  split; [|done]. split.
  - apply Permutation_inj. split; [by rewrite !length_insert|].
    exists (transpose (Z.to_nat i) (Z.to_nat j)). split; [|done].
    intros k1 k2. unfold transpose. repeat case_decide; congruence.
  - intros k Hk. rewrite Hl. unfold transpose. rewrite !decide_False; [done|lia|lia].
  - intros P HP k v Hk. rewrite Hl. apply HP. unfold transpose. repeat case_decide; lia.
Qed.

(** The loop invariant at index [i]. *)
Record qs_inv (a0 a : list Z) (pivot start stop i p : Z) : Prop := {
  inv_p : (start ≤ p ≤ i)%Z;
  inv_sh : shuffled a0 a start (stop - 1);
  inv_lt : seg_all (λ x, x < pivot)%Z a start (p - 1);
  inv_ge : seg_all (λ x, pivot ≤ x)%Z a p (i - 1) }.

Lemma qs_body_inv a0 a pivot start stop i p :
  (0 ≤ start)%Z → (start ≤ i < stop)%Z → (stop < Z.of_nat (length a0))%Z →
  qs_inv a0 a pivot start stop i p →
  ∃ a' p', qs_body pivot i (a, p) = Ok (a', p') ∧ qs_inv a0 a' pivot start stop (i + 1) p'.
Proof.
  intros Hs Hi Hl [Hp Hsh Hlt Hge]. pose proof (shuffled_length _ _ _ _ Hsh) as Hlen.
  unfold qs_body. unfold int_at at 1, at_index. destruct (Z.ltb_spec i 0); [lia|].
  destruct (lookup_lt_is_Some_2 a (Z.to_nat i)) as [x Hx]; [lia|]. rewrite Hx. simpl.
  destruct (Z.ltb_spec x pivot) as [Hxp|Hxp].
  - destruct (Z.eqb_spec p i) as [->|Hne].
    + exists a, (i + 1)%Z. split; [done|]. split; [lia|done| |].
      * intros k y Hk Hy. destruct (decide (Z.of_nat k = i)) as [E|E].
        { assert (k = Z.to_nat i) as -> by lia. congruence. }
        apply (Hlt k y); [lia|done].
      * intros k y Hk. lia.
    + destruct (qs_swap_spec a i p start (stop - 1)) as (a' & -> & Hsh' & Hlk); [lia..|].
      exists a', (p + 1)%Z. split; [done|]. split; [lia|by eapply shuffled_trans| |].
      * intros k y Hk Hy. rewrite Hlk in Hy. unfold transpose in Hy. repeat case_decide; subst.
        { lia. }
        { congruence. }
        { apply (Hlt k y); [lia|done]. }
      * intros k y Hk Hy. rewrite Hlk in Hy. unfold transpose in Hy. repeat case_decide; subst.
        { apply (Hge (Z.to_nat p) y); [lia|done]. }
        { lia. }
        { apply (Hge k y); [lia|done]. }
  - exists a, p. split; [done|]. split; [lia|done|done|].
    intros k y Hk Hy. destruct (decide (Z.of_nat k = i)) as [E|E].
    { assert (k = Z.to_nat i) as -> by lia. rewrite Hx in Hy. by simplify_eq. }
    apply (Hge k y); [lia|done].
Qed.

Lemma qs_loop a0 pivot start stop n m a p :
  (0 ≤ start)%Z → (start + Z.of_nat m + Z.of_nat n = stop)%Z → (stop < Z.of_nat (length a0))%Z →
  qs_inv a0 a pivot start stop (start + Z.of_nat m) p →
  ∃ a' p', foldM (qs_body pivot) ((λ k, (start + Z.of_nat k)%Z) <$> seq m n) (a, p) = Ok (a', p') ∧
    qs_inv a0 a' pivot start stop stop p'.
Proof.
  intros Hs Hmn Hl. revert m a p Hmn. induction n as [|n IH]; intros m a p Hmn Hinv.
  - exists a, p. split; [done|]. replace stop with (start + Z.of_nat m)%Z by lia.
    by replace (start + Z.of_nat m)%Z with stop in Hinv |- * by lia.
  - cbn [seq fmap list_fmap foldM].
    destruct (qs_body_inv a0 a pivot start stop (start + Z.of_nat m) p)
      as (a1 & p1 & -> & H1); [lia|lia|lia|done|]. simpl.
    apply IH; [lia|]. by replace (start + Z.of_nat (S m))%Z with (start + Z.of_nat m + 1)%Z by lia.
Qed.

(** The partition step: the pivot is at its place. *)
Lemma qs_partition a start stop :
  (0 ≤ start < stop)%Z → (stop < Z.of_nat (length a))%Z →
  ∃ pivot a' p,
    (pivot ← int_at a stop;
     '(a, pointer) ← foldM (qs_body pivot) (qs_range start stop) (a, start);
     a ← qs_swap a stop pointer;
     Ok (a, pointer)) = Ok (a', p) ∧
    (start ≤ p ≤ stop)%Z ∧ shuffled a a' start stop ∧ a' !! Z.to_nat p = Some pivot ∧
    seg_all (λ x, x < pivot)%Z a' start (p - 1) ∧ seg_all (λ x, pivot ≤ x)%Z a' (p + 1) stop.
Proof.
  intros Hs Hl. unfold int_at at 1, at_index. destruct (Z.ltb_spec stop 0); [lia|].
  destruct (lookup_lt_is_Some_2 a (Z.to_nat stop)) as [pivot Hpv]; [lia|]. rewrite Hpv. simpl.
  destruct (qs_loop a pivot start stop (Z.to_nat (stop - start)) 0 a start)
    as (a1 & p & E & [Hp Hsh Hlt Hge]); [lia|lia|lia|..].
  { split; [lia|apply shuffled_refl|intros k x ?; lia|intros k x ?; lia]. }
  unfold qs_range. rewrite E. simpl.
  pose proof (shuffled_length _ _ _ _ Hsh) as Hlen.
  destruct (qs_swap_spec a1 stop p start stop) as (a2 & -> & Hsh2 & Hlk); [lia..|]. simpl.
  exists pivot, a2, p.
  assert (a1 !! Z.to_nat stop = Some pivot) as Hst.
  { rewrite <-Hpv. apply (sh_out _ _ _ _ Hsh). lia. }
  split_and!; [done|lia|lia| | | |].
  - eapply shuffled_trans; [|exact Hsh2]. eapply shuffled_mono; [exact Hsh|lia|lia].
  - rewrite Hlk. unfold transpose. repeat case_decide; try done; congruence.
  - intros k y Hk Hy. rewrite Hlk in Hy. unfold transpose in Hy. repeat case_decide; subst.
    + lia.
    + lia.
    + apply (Hlt k y); [lia|done].
  - intros k y Hk Hy. rewrite Hlk in Hy. unfold transpose in Hy. repeat case_decide; subst.
    + destruct (decide (p = stop)) as [->|]; [lia|].
      apply (Hge (Z.to_nat p) y); [lia|done].
    + lia.
    + apply (Hge k y); [lia|done].
Qed.

(** Two sorted halves around a pivot. *)
Lemma seg_sorted_join a s p e pivot :
  (0 ≤ s)%Z → (s ≤ p ≤ e)%Z → a !! Z.to_nat p = Some pivot →
  seg_sorted a s (p - 1) → seg_sorted a (p + 1) e →
  seg_all (λ x, x < pivot)%Z a s (p - 1) → seg_all (λ x, pivot ≤ x)%Z a (p + 1) e →
  seg_sorted a s e.
Proof.
  intros Hs Hp Hpv H1 H2 Hlt Hge i j x y Hi Hij Hj Hx Hy.
  assert (∀ k z, Z.of_nat k = p → a !! k = Some z → z = pivot) as Hat.
  { intros k z E Hz. assert (k = Z.to_nat p) as -> by lia. congruence. }
  destruct (Z.lt_trichotomy (Z.of_nat i) p) as [Hip|[Hip|Hip]];
    destruct (Z.lt_trichotomy (Z.of_nat j) p) as [Hjp|[Hjp|Hjp]]; try lia.
  - apply (H1 i j x y); [lia|lia|lia|done|done].
  - rewrite (Hat j y Hjp Hy). pose proof (Hlt i x ltac:(lia) Hx). simpl in *. lia.
  - pose proof (Hlt i x ltac:(lia) Hx). pose proof (Hge j y ltac:(lia) Hy). simpl in *. lia.
  - rewrite (Hat i x Hip Hx), (Hat j y Hjp Hy). lia.
  - rewrite (Hat i x Hip Hx). exact (Hge j y ltac:(lia) Hy).
  - apply (H2 i j x y); [lia|lia|lia|done|done].
Qed.

Lemma seg_sorted_out a a' s e s' e' :
  shuffled a a' s' e' → (e < s' ∨ e' < s)%Z → seg_sorted a s e → seg_sorted a' s e.
Proof.
  intros Hsh Hd Hs i j x y Hi Hij Hj. rewrite !(sh_out _ _ _ _ Hsh) by lia. by apply Hs.
Qed.

Lemma seg_all_out P a a' s e s' e' :
  shuffled a a' s' e' → (e < s' ∨ e' < s)%Z → seg_all P a s e → seg_all P a' s e.
Proof. intros Hsh Hd Hs k x Hk. rewrite (sh_out _ _ _ _ Hsh) by lia. by apply Hs. Qed.

Lemma quicksort_r_sorts fuel a start stop :
  (0 ≤ start)%Z → (stop < Z.of_nat (length a))%Z → (stop - start < Z.of_nat fuel)%Z → 0 < fuel →
  ∃ a', quicksort_r fuel a start stop = Some (Ok a') ∧
    shuffled a a' start stop ∧ seg_sorted a' start stop.
Proof.
  revert a start stop. induction fuel as [|fuel IH]; intros a start stop Hs Hl Hf Hpos; [lia|].
  cbn [quicksort_r]. destruct (Z.leb_spec stop start) as [Hle|Hgt].
  { exists a. split_and!; [done|apply shuffled_refl|]. intros i j x y Hi Hij Hj Hx Hy.
    assert (i = j) as -> by lia. simplify_eq. lia. }
  destruct (qs_partition a start stop) as (pivot & a1 & p & -> & Hp & Hsh & Hpv & Hlt & Hge); [lia..|].
  pose proof (shuffled_length _ _ _ _ Hsh) as Hl1.
  destruct (IH a1 start (p - 1)%Z) as (a2 & -> & Hsh2 & Hso2); [lia..|].
  pose proof (shuffled_length _ _ _ _ Hsh2) as Hl2.
  destruct (IH a2 (p + 1)%Z stop) as (a3 & -> & Hsh3 & Hso3); [lia..|].
  exists a3. split_and!; [done| |].
  - eapply shuffled_trans; [exact Hsh|]. eapply shuffled_trans; eapply shuffled_mono;
      [exact Hsh2|lia|lia|exact Hsh3|lia|lia].
  - apply (seg_sorted_join a3 start p stop pivot); [lia|lia| | |done| |].
    + rewrite (sh_out _ _ _ _ Hsh3), (sh_out _ _ _ _ Hsh2) by lia. done.
    + eapply seg_sorted_out; [exact Hsh3|lia|done].
    + eapply seg_all_out; [exact Hsh3|lia|]. by apply (sh_all _ _ _ _ Hsh2).
    + apply (sh_all _ _ _ _ Hsh3). eapply seg_all_out; [exact Hsh2|lia|done].
Qed.

(** the quicksort of the chaincode terminates with a recursion depth of at
    most the length of the array, never leaves the array, and returns a sorted
    permutation of its input. *)
Theorem quicksort_correct data :
  ∃ data', quicksort (S (length data)) data = Some (Ok data') ∧
    data' ≡ₚ data ∧ ∀ i j x y, i ≤ j → data' !! i = Some x → data' !! j = Some y → (x ≤ y)%Z.
Proof.
  unfold quicksort.
  destruct (quicksort_r_sorts (S (length data)) data 0 (Z.of_nat (length data) - 1))
    as (a' & -> & Hsh & Hso); [lia..|].
  exists a'. split_and!; [done|apply (sh_perm _ _ _ _ Hsh)|].
  intros i j x y Hij Hx Hy. apply (Hso i j x y); [lia|lia| |done|done].
  pose proof (lookup_lt_Some _ _ _ Hy) as Hj. rewrite (shuffled_length _ _ _ _ Hsh) in Hj. lia.
Qed.

(** ** The chaincode *)
Definition YCSB_FIELD_SIZE : N := 10.
Definition KEY_PER_PA : nat := N.to_nat 200000.

Section OrmTest.
Context {S : Type} `{DBStorage S}.
Context (parse_payload : string → YCSB_PAYLOAD).
Context (lhs_first : bool).

Definition tid_to_string (tid : N) : string := to_string (Z.of_N tid).

Definition ot_InitFunc : CC S Z :=
  table ← cc_createTable tid_to_string "test_table";
  _ ← cc_addField table (setPrimary true (IntField "key" false));
  _ ← cc_addField table (CharField "value" 200 true);
  mret (int_of_bool true).

(** One iteration; the generator's seed is threaded. *)
Definition create_row (i : nat) (seed : N) : CC S N :=
  ins ← newInsert "test_table";
  '(_, ins) ← insert_set "key" (to_string (Z.of_nat i)) ins;
  '(v, seed') ← cc_lift (a_string lhs_first YCSB_FIELD_SIZE YCSB_FIELD_SIZE seed);
  '(_, ins) ← insert_set "value" (String.string_of_list_ascii v) ins;
  mret seed'.

(** [rows] is [KEY_PER_PA] in the source. *)
Definition createData (rows : nat) (seed : N) : CC S Z :=
  _ ← cc_for create_row (seq 0 rows) seed; mret (int_of_bool true).

Definition correctTest (tid : N) (key : string) : CC S Z :=
  _ ← read_row "test_table" key;
  _ ← insert_pair "test_table" key (tid_to_string tid);
  mret (int_of_bool true).

Definition mixed_write (tid : N) (write : string) (seed : N) : CC S N :=
  ins ← newInsert "test_table";
  '(_, ins) ← insert_set "key" write ins;
  '(v, seed') ← cc_lift (a_string lhs_first YCSB_FIELD_SIZE YCSB_FIELD_SIZE seed);
  '(_, ins) ← insert_set "value"
      (String.append (String.string_of_list_ascii v) (tid_to_string tid)) ins;
  mret seed'.

Definition mixed (tid seed : N) (raw : string) : CC S Z :=
  let ycsbPayload := parse_payload raw in
  _ ← cc_for (mixed_write tid) (yp_update ycsbPayload) seed;
  _ ← cc_for (λ read (_ : unit), read_row "test_table" read) (yp_reads ycsbPayload) tt;
  mret (int_of_bool true).

Definition timeConsume : CC S Z := mret (int_of_bool true).

(** [push_back] of a [uint64_t] into a [vector<int>]. *)
Fixpoint random_ints (n : nat) (seed : N) : list Z :=
  match n with
  | O => []
  | Datatypes.S n' =>
      let '(x, seed') := rnd_next lhs_first seed in to_int (Z.of_N x) :: random_ints n' seed'
  end.

(** [count] is 100000 in the source. *)
Definition sorted_ints (count : nat) : option (outcome (list Z)) :=
  let data := random_ints count (init_seed 2626345) in
  quicksort (Datatypes.S (length data)) data.

Definition calculateConsume (count : nat) : CC S Z :=
  _ ← cc_lift (default (Ok []) (sorted_ints count)); mret (int_of_bool true).

Definition ot_InvokeChaincode (chaincodeName : string) (args : list string) : CC S Z := λ env,
  let seed := init_seed (cc_tid env) in
  (if String.eqb chaincodeName "correct_test" then
     a0 ← cc_lift (at_index args 0); correctTest (cc_tid env) a0
   else if String.eqb chaincodeName "create_table" then ot_InitFunc
   else if String.eqb chaincodeName "create_data" then createData KEY_PER_PA seed
   else if String.eqb chaincodeName "mixed" then
     a0 ← cc_lift (at_index args 0); mixed (cc_tid env) seed a0
   else if String.eqb chaincodeName "time" then
     a0 ← cc_lift (at_index args 0); timeConsume
   else if String.eqb chaincodeName "calculate" then
     a0 ← cc_lift (at_index args 0); calculateConsume (N.to_nat 100000)
   else mret (int_of_bool false)) env.

End OrmTest.

Section OrmTestFacts.
Context {S : Type} `{TableStorage S}.

(** A program that looks at its environment first. *)
#[global] Instance env_local {A} (m : cc_env → CC S A) :
  (∀ e, Local (m e)) → Local (λ env, m env env).
Proof.
  intros Hm. split; [split|].
  - intros env. apply (frame_view _ (local_frame (m := m env))).
  - intros env. apply (frame_reads _ (local_frame (m := m env))).
  - intros env. apply (frame_sound _ (local_frame (m := m env))).
  - intros env. apply (local_run (m := m env)).
Qed.

#[global] Instance create_row_local lhs i seed : Local (S := S) (create_row lhs i seed).
Proof. unfold create_row. apply _. Qed.
#[global] Instance mixed_write_local lhs tid w seed :
  Local (S := S) (mixed_write lhs tid w seed).
Proof. unfold mixed_write. apply _. Qed.

#[global] Instance ot_InvokeChaincode_local parse lhs name args :
  Local (S := S) (ot_InvokeChaincode parse lhs name args).
Proof.
  unfold ot_InvokeChaincode. apply (env_local (λ env, _)). intros env.
  unfold correctTest, ot_InitFunc, createData, mixed, timeConsume, calculateConsume. apply _.
Qed.

(** the CPU-bound request always returns success, whatever the number of
    elements and the order in which the compiler evaluates the two draws, and
    what it sorted is in order. *)
Theorem calculateConsume_total lhs count env (st : cc_state S) :
  calculateConsume lhs count env st = Ok (1%Z, st) ∧
  ∃ data', sorted_ints lhs count = Some (Ok data') ∧ length data' = count.
Proof.
  unfold calculateConsume, sorted_ints.
  set (data := random_ints lhs count (init_seed 2626345)).
  assert (length data = count) as Hlen.
  { unfold data. generalize (init_seed 2626345). induction count as [|n IH]; intros s; simpl; [done|].
    destruct (rnd_next lhs s) as [x s']. simpl. by rewrite IH. }
  unfold quicksort.
  destruct (quicksort_r_sorts (Datatypes.S (length data)) data 0 (Z.of_nat (length data) - 1))
    as (a' & E & Hsh & _); [lia..|].
  rewrite E. split; [done|]. exists a'. split; [done|].
  by rewrite (shuffled_length _ _ _ _ Hsh).
Qed.

End OrmTestFacts.

Example quicksort_run :
  quicksort 7 [5; -3; 9; 0; 5; 2]%Z = Some (Ok [-3; 0; 2; 5; 5; 9]%Z).
Proof. vm_compute. reflexivity. Qed.
