(* ===== verification/ChaincodeManager.v ===== *)
(** * The chaincode manager

    [src/block_server/worker/chaincode_manager.cpp] and
    [impl/chaincode_object.cpp]: the configured chaincode type selects the
    class that the executors instantiate once per transaction; every class
    keeps the promise [Local] on which the executor's theorems rest. *)
From S2P Require Import Prelude Transaction Storage Orm Chaincode SmallBank Ycsb OrmTest.
From stdpp Require Import base list gmap strings.

Inductive cc_type := YCSB_Chaincode | SmallBankChaincode | ORMTestChaincode.

#[global] Instance cc_type_eq_dec : EqDecision cc_type.
Proof. solve_decision. Defined.

(** [isInit] and [getChaincodeInstance], the static members. *)
Record ChaincodeManager := mkCCM { isInit : bool; getChaincodeInstance : option cc_type }.

Definition typeMap : gmap string cc_type :=
  {["ycsb" := YCSB_Chaincode; "small_bank" := SmallBankChaincode; "test" := ORMTestChaincode]}.

Definition loadChaincodeManager (ccType : string) (m : ChaincodeManager)
    : outcome ChaincodeManager :=
  if isInit m then Ok m
  else
    match typeMap !! ccType with
    | None => Fatal CheckFailed
    | Some c => Ok (mkCCM true (Some c))
    end.

Definition InitChaincodeManager (str : string) (m : ChaincodeManager) : outcome ChaincodeManager :=
  if negb (isInit m) then loadChaincodeManager str m else Ok m.

Definition reloadChaincodeManager (str : string) (m : ChaincodeManager) : outcome ChaincodeManager :=
  loadChaincodeManager str (mkCCM false (getChaincodeInstance m)).

(** A reload switches the type; an initialisation after the first does not. *)
Lemma reload_then_init str str' m m' :
  reloadChaincodeManager str m = Ok m' →
  isInit m' = true ∧ getChaincodeInstance m' = typeMap !! str ∧
  InitChaincodeManager str' m' = Ok m'.
Proof.
  unfold reloadChaincodeManager, loadChaincodeManager, InitChaincodeManager. simpl.
  destruct (typeMap !! str) as [c|] eqn:E; intros H; inv_outcome. done.
Qed.

Section Objects.
Context {S : Type} `{DBStorage S}.
Context (parse_payload : string → YCSB_PAYLOAD).
Context (parse_record : string → YCSB_FOR_BLOCK_BENCH).
Context (serialize_record : YCSB_FOR_BLOCK_BENCH → string).
Context (unordered_iter : list (string * string) → list (string * string)).
Context (debug lhs_first : bool).

(** [ChaincodeObject::InvokeChaincode(payload)]: the header names the function
    and the single argument is the payload. *)
Definition InvokeChaincode (c : cc_type) (header payload : string) : CC S Z :=
  match c with
  | YCSB_Chaincode =>
      ycsb_InvokeChaincode parse_payload parse_record serialize_record unordered_iter debug
        header payload
  | SmallBankChaincode => sb_InvokeChaincode parse_payload debug lhs_first header payload
  | ORMTestChaincode => ot_InvokeChaincode parse_payload lhs_first header [payload]
  end.

#[global] Instance InvokeChaincode_local `{!TableStorage S} c header payload :
  Local (InvokeChaincode c header payload).
Proof. destruct c; simpl; apply _. Qed.

End Objects.
