(* ===== verification/Executor.v ===== *)
(** * Transaction executors

    [src/block_server/worker/transaction_executor.cpp] and
    [impl/transaction_executor_impl.cpp], [aggregation_transaction_executor.cpp],
    [transaction_query_executor.cpp]: what a worker does with its share of an
    epoch.  The read phase runs every transaction against the storage as the
    previous epoch left it and reserves its read-write set; the commit phase
    analyses the dependencies and writes the committed ones.

    The state is shared by all workers: the heap of transaction objects, the
    database and the provider's current reserve table.  An executor holds a raw
    pointer to the table of its epoch, modelled as the epoch: using it after
    the provider replaced the table is a fault. *)
From S2P Require Import Prelude Transaction Storage Orm Database ReserveTable.
From stdpp Require Import base list gmap strings.

Record exec_state (S : Type) := mkExec {
  ex_heap : txn_heap;
  ex_db : DatabaseImpl S;
  ex_table : option MockReserveTable }.
Arguments mkExec {S} _ _ _.
Arguments ex_heap {S} _.
Arguments ex_db {S} _.
Arguments ex_table {S} _.

Section Executor.
Context {S : Type} `{DBStorage S}.
(** [ChaincodeManager::getChaincodeInstance(t)->InvokeChaincode]. *)
Context (invoke : string → string → CC S Z).
Context (debug : bool).

Definition set_heap (h : txn_heap) (st : exec_state S) : exec_state S :=
  mkExec h (ex_db st) (ex_table st).
Definition set_db (db : DatabaseImpl S) (st : exec_state S) : exec_state S :=
  mkExec (ex_heap st) db (ex_table st).
Definition set_txn (p : txn_ptr) (t : Transaction) (st : exec_state S) : exec_state S :=
  set_heap (<[p := t]> (ex_heap st)) st.

(** [ReserveTableProvider::getReserveTable] and the pointer it returns. *)
Definition getReserveTable (e : N) (st : exec_state S) : N * exec_state S :=
  let '(t, p) := getHashMapReserveTable e (ex_table st) in
  (mrt_epoch t, mkExec (ex_heap st) (ex_db st) p).

(** Using the table that the pointer [e] refers to. *)
Definition with_table {A} (e : N) (f : MockReserveTable → A * MockReserveTable)
    (st : exec_state S) : outcome (A * exec_state S) :=
  t ← deref (ex_table st);
  if N.eqb (mrt_epoch t) e then
    let '(a, t') := f t in Ok (a, mkExec (ex_heap st) (ex_db st) (Some t'))
  else Fatal NullDeref.

(** Construct the chaincode object, invoke it, and (later) destroy it: the
    constructor checks that the read-write set is empty, the run fills the
    transaction's read-write set, the destructor buffers the updates. *)
Definition cc_begin (p : txn_ptr) (st : exec_state S)
    : outcome (Z * list ORMTableImpl * exec_state S) :=
  t ← deref (ex_heap st !! p);
  _ ← DCHECK debug (bool_decide (reads (kvRWSet t) = [] ∧ writes (kvRWSet t) = []));
  '(r, cst) ← invoke (pl_header (transactionPayload t)) (pl_payload (transactionPayload t))
                (mkEnv (tr_tid t) (readOnlyFlag t))
                (mkCC (storage (ex_db st)) (kvRWSet t) []);
  Ok (r, cc_tables cst,
      set_txn p (setRWSet (cc_rwset cst) t)
        (set_db (set_storage (cc_store cst) (ex_db st)) st)).

Definition cc_end (p : txn_ptr) (tables : list ORMTableImpl) (st : exec_state S)
    : outcome (exec_state S) :=
  t ← deref (ex_heap st !! p);
  let '(_, db) := helper_execute (mkEnv (tr_tid t) (readOnlyFlag t)) p tables (ex_db st) in
  Ok (set_db db st).

Definition set_result (p : txn_ptr) (r : TransactionResult) (st : exec_state S)
    : outcome (exec_state S) :=
  t ← deref (ex_heap st !! p); Ok (set_txn p (setTransactionResult r t) st).

(** ** TransactionExecutorImpl *)
Definition execute_txn (rt : N) (p : txn_ptr) (st : exec_state S) : outcome (exec_state S) :=
  '(r, tables, st) ← cc_begin p st;
  if (r =? 0)%Z then
    st ← set_result p ABORT_NO_RETRY st;
    cc_end p tables st
  else
    t ← deref (ex_heap st !! p);
    '(_, st) ← with_table rt (λ tb, (tt, reserveRWSet (kvRWSet t) (tr_tid t) tb)) st;
    cc_end p tables st.

(** The pointer to the reserve table is a field of the executor: the result
    carries its new value. *)
Definition executeList (l : list txn_ptr) (rt : option N) (st : exec_state S)
    : outcome (bool * option N * exec_state S) :=
  match l with
  | [] => Ok (false, rt, st)
  | front :: _ =>
      t ← deref (ex_heap st !! front);
      let '(rt, st) := getReserveTable (tr_epoch t) st in
      st ← foldM (execute_txn rt) l st;
      Ok (true, Some rt, st)
  end.

(** ** AggregationTransactionExecutor: the read-write sets arrive from the
    block server that ran the transactions *)
Definition aggregate_txn (rt : N) (p : txn_ptr) (st : exec_state S) : outcome (exec_state S) :=
  t ← deref (ex_heap st !! p);
  if bool_decide (transactionResult t = ABORT_NO_RETRY) then Ok st
  else
    _ ← DCHECK debug (bool_decide (transactionResult t = PENDING));
    '(_, st) ← with_table rt (λ tb, (tt, reserveRWSet (kvRWSet t) (tr_tid t) tb)) st;
    Ok st.

Definition aggregateList (l : list txn_ptr) (rt : option N) (st : exec_state S)
    : outcome (bool * option N * exec_state S) :=
  match l with
  | [] => Ok (false, rt, st)
  | front :: _ =>
      t ← deref (ex_heap st !! front);
      let '(rt, st) := getReserveTable (tr_epoch t) st in
      st ← foldM (aggregate_txn rt) l st;
      Ok (true, Some rt, st)
  end.

(** ** TransactionQueryExecutor: read-only requests; stops at the first
    chaincode that fails *)
Fixpoint queryList (l : list txn_ptr) (st : exec_state S) : outcome (bool * exec_state S) :=
  match l with
  | [] => Ok (true, st)
  | p :: l' =>
      t ← deref (ex_heap st !! p);
      if negb (readOnlyFlag t) then
        st ← set_result p ABORT_NO_RETRY st; queryList l' st
      else
        '(r, tables, st) ← cc_begin p st;
        if (r =? 0)%Z then
          st ← set_result p ABORT_NO_RETRY st;
          st ← cc_end p tables st; Ok (false, st)
        else
          st ← set_result p COMMIT st;
          st ← cc_end p tables st;
          queryList l' st
  end.

(** ** commitList, shared by the executors *)
Definition commit_txn (rt : N) (p : txn_ptr) (st : exec_state S) : outcome (exec_state S) :=
  t ← deref (ex_heap st !! p);
  if bool_decide (transactionResult t = ABORT_NO_RETRY) then
    Ok (set_db (abortUpdate (tr_tid t) (ex_db st)) st)
  else
    '(dep, st) ← with_table rt (dependencyAnalysis (kvRWSet t) (tr_tid t)) st;
    if waw dep then set_result p ABORT st
    else if negb (war dep) || negb (raw dep) then
      '(ok, db) ← commitUpdate debug (ex_heap st) (tr_tid t) (ex_db st);
      let st := set_db db st in
      if ok : bool then set_result p COMMIT st else set_result p ABORT_NO_RETRY st
    else set_result p ABORT (set_db (abortUpdate (tr_tid t) (ex_db st)) st).

Definition commitList (l : list txn_ptr) (rt : option N) (st : exec_state S)
    : outcome (bool * exec_state S) :=
  st ← foldM (λ p st,
    match rt with
    | Some rt => commit_txn rt p st
    | None =>
        t ← deref (ex_heap st !! p);
        if bool_decide (transactionResult t = ABORT_NO_RETRY) then
          Ok (set_db (abortUpdate (tr_tid t) (ex_db st)) st)
        else Fatal NullDeref
    end) l st;
  Ok (true, st).

(** ** The factory *)
Inductive ExecutorType := normal | aggregate | query.

Definition factory_executeList (type : ExecutorType) (l : list txn_ptr) (rt : option N)
    (st : exec_state S) : outcome (bool * option N * exec_state S) :=
  match type with
  | normal => executeList l rt st
  | aggregate => aggregateList l rt st
  | query => '(b, st) ← queryList l st; Ok (b, rt, st)
  end.

End Executor.
