(* ===== verification/Aria.v ===== *)
(** * One epoch of Aria

    An epoch runs the read phase of all workers, a barrier, and the commit
    phase of all workers ([AriaWorker::run] with the executors of [Executor]).
    This file proves what the two phases promise together: the epoch always
    finishes, its result does not depend on how the transactions are spread
    over the workers or interleaved, and the committed transactions are
    serializable in an order read off the dependencies. *)
From S2P Require Import Prelude Transaction Storage Orm Database ReserveTable Executor.
From stdpp Require Import base list gmap strings sorting.

Section Epoch.
Context {S : Type} `{TableStorage S}.
Context (invoke : string → string → CC S Z).
Context (debug : bool).

(** ** The two phases over the workers' shares of an epoch *)
Fixpoint read_phase (ws : list (list N)) (st : exec_state S)
    : outcome (list (list N * option N) * exec_state S) :=
  match ws with
  | [] => Ok ([], st)
  | l :: ws' =>
      '(_, rt, st) ← executeList invoke debug l None st;
      '(rest, st) ← read_phase ws' st;
      Ok ((l, rt) :: rest, st)
  end.

Definition commit_phase (ws : list (list N * option N)) (st : exec_state S)
    : outcome (exec_state S) :=
  foldM (λ w st, '(_, st) ← commitList debug w.1 w.2 st; Ok st) ws st.

(** The workers of the commit phase run in the order [perm] of the read phase's
    workers. *)
Definition aria_epoch (ws : list (list N)) (order : list (list N * option N) → list (list N * option N))
    (st : exec_state S) : outcome (exec_state S) :=
  '(ws, st) ← read_phase ws st; commit_phase (order ws) st.

(** ** What a transaction does on a snapshot *)
Definition run_of (s : S) (t : Transaction) : outcome (Z * cc_state S) :=
  invoke (pl_header (transactionPayload t)) (pl_payload (transactionPayload t))
    (mkEnv (tr_tid t) false) (mkCC s empty_rwset []).

Definition sim_ret (s : S) (t : Transaction) : Z :=
  match run_of s t with Ok (r, _) => r | Fatal _ => 0%Z end.
Definition sim_rw (s : S) (t : Transaction) : KVRWSet :=
  match run_of s t with Ok (_, c) => cc_rwset c | Fatal _ => empty_rwset end.
Definition sim_tables (s : S) (t : Transaction) : list ORMTableImpl :=
  match run_of s t with Ok (_, c) => cc_tables c | Fatal _ => [] end.

(** A chaincode run returns and creates only tables with two columns (which
    the commit checks). *)
Definition runs_ok (s : S) (t : Transaction) : Prop :=
  ∃ r c, run_of s t = Ok (r, c) ∧ Forall (λ tb, fieldSize tb = 2) (cc_tables c).

Record fresh_txn (e : N) (t : Transaction) : Prop := {
  ft_epoch : tr_epoch t = e;
  ft_rw : kvRWSet t = empty_rwset;
  ft_result : transactionResult t = PENDING;
  ft_readOnly : readOnlyFlag t = false;
  ft_tid : tr_tid t ≠ 0%N }.

(** The state an epoch starts from. *)
Record epoch_ready (e : N) (ps : list N) (st : exec_state S) : Prop := {
  er_nodup : NoDup ps;
  er_txn p : p ∈ ps → ∃ t, ex_heap st !! p = Some t ∧ fresh_txn e t;
  er_tids p q t u : p ∈ ps → q ∈ ps → ex_heap st !! p = Some t → ex_heap st !! q = Some u →
    tr_tid t = tr_tid u → p = q;
  er_table tb : ex_table st = Some tb → mrt_epoch tb ≠ e;
  er_runs p t : p ∈ ps → ex_heap st !! p = Some t → runs_ok (storage (ex_db st)) t }.

(** The transactions of the epoch that reserve, with their read-write sets. *)
Definition reservation (s : S) (h : gmap N Transaction) (p : N) : option (KVRWSet * N) :=
  t ← h !! p; if (sim_ret s t =? 0)%Z then None else Some (sim_rw s t, tr_tid t).
Definition reserved (s : S) (h : gmap N Transaction) (ps : list N) : list (KVRWSet * N) :=
  omap (reservation s h) ps.

(** A transaction object after the read phase. *)
Definition executed (s : S) (t : Transaction) : Transaction :=
  let t' := setRWSet (sim_rw s t) t in
  if (sim_ret s t =? 0)%Z then setTransactionResult ABORT_NO_RETRY t' else t'.

(** The decision of the commit phase on a reserved epoch. *)
Definition decision (e : N) (l : list (KVRWSet * N)) (s : S) (t : Transaction)
    : TransactionResult :=
  if (sim_ret s t =? 0)%Z then ABORT_NO_RETRY
  else
    let dep := (dependencyAnalysis (sim_rw s t) (tr_tid t)
                  (reserve_all l (new_MockReserveTable e))).1 in
    if waw dep then ABORT
    else if negb (war dep) || negb (raw dep) then COMMIT else ABORT.

Context {HL : ∀ h p, Local (invoke h p)}.

Lemma run_of_view s s' t r c :
  run_of s t = Ok (r, c) → (∀ x, view s' x = view s x) →
  ∃ c', run_of s' t = Ok (r, c') ∧ cc_rwset c' = cc_rwset c ∧ cc_tables c' = cc_tables c ∧
    ∀ x, view (cc_store c') x = view s x.
Proof.
  intros E Hv. unfold run_of in *.
  destruct (local_run _ _ (mkCC s' empty_rwset []) _ _ E) as (c' & E' & H1 & H2).
  { by split. }
  { intros x _. simpl. by rewrite Hv. }
  exists c'. split_and!; [done|done|done|]. intros x.
  rewrite (frame_view _ local_frame _ _ _ _ E'). simpl. apply Hv.
Qed.

(** ** The read phase *)
Record read_inv (e : N) (s0 : S) (h0 : gmap N Transaction) (dn : list N) (st : exec_state S)
    : Prop := {
  ri_view c : view (storage (ex_db st)) c = view s0 c;
  ri_heap p : ex_heap st !! p = if decide (p ∈ dn) then executed s0 <$> h0 !! p else h0 !! p;
  ri_table : ex_table st = Some (reserve_all (reserved s0 h0 dn) (new_MockReserveTable e));
  ri_buf p t : p ∈ dn → h0 !! p = Some t →
    rwSetBuffer (ex_db st) !! tr_tid t = Some p ∧
    tableListBuffer (ex_db st) !! tr_tid t = Some (sim_tables s0 t);
  ri_phase : dn ≠ [] → commitPhase (ex_db st) = false }.

Lemma reserve_all_epoch l t : mrt_epoch (reserve_all l t) = mrt_epoch t.
Proof.
  revert t. unfold reserve_all. induction l as [|p l IH]; intros t; [done|]. simpl. by rewrite IH.
Qed.

(** What buffering the updates of one more transaction does. *)
Lemma buffer_more tid p tables (db : DatabaseImpl S) :
  let db' := (bufferUpdates tid p tables db).2 in
  storage db' = storage db ∧ commitPhase db' = false ∧
  rwSetBuffer db' !! tid = Some p ∧ tableListBuffer db' !! tid = Some tables ∧
  (commitPhase db = false → ∀ tid', tid' ≠ tid →
     rwSetBuffer db' !! tid' = rwSetBuffer db !! tid' ∧
     tableListBuffer db' !! tid' = tableListBuffer db !! tid').
Proof.
  unfold bufferUpdates, clearBufferThreadSafe.
  destruct (commitPhase db) eqn:E; simpl; rewrite ?lookup_insert_eq; split_and!; try done.
  intros _ tid' Hne. by rewrite !lookup_insert_ne.
Qed.

Lemma execute_txn_step e s0 h0 dn p t st :
  read_inv e s0 h0 dn st → p ∉ dn → h0 !! p = Some t → fresh_txn e t → runs_ok s0 t →
  (∀ q u, q ∈ dn → h0 !! q = Some u → tr_tid u ≠ tr_tid t) →
  ∃ st', execute_txn invoke debug e p st = Ok st' ∧ read_inv e s0 h0 (dn ++ [p]) st'.
Proof.
  intros [Hv Hh Ht Hb Hph] Hp Ep [Fe Frw Fr Fro Ft] (r & c & Hrun & Htb) Hdist.
  destruct (run_of_view s0 (storage (ex_db st)) t r c Hrun Hv) as (c' & Hrun' & Hrw & Htab & Hvc).
  assert (ex_heap st !! p = Some t) as Hpt by (by rewrite Hh, decide_False).
  assert (sim_ret s0 t = r ∧ sim_rw s0 t = cc_rwset c ∧ sim_tables s0 t = cc_tables c)
    as (Er & Erw & Etab) by (unfold sim_ret, sim_rw, sim_tables; by rewrite Hrun).
  assert (cc_begin invoke debug p st = Ok (r, cc_tables c,
    set_txn p (setRWSet (cc_rwset c) t)
      (set_db (set_storage (cc_store c') (ex_db st)) st))) as Hbegin.
  { unfold cc_begin. rewrite Hpt. simpl. rewrite Frw, bool_decide_true by done.
    unfold run_of in Hrun'. rewrite Fro, Hrun'. simpl. rewrite Hrw, Htab. by destruct debug. }
  unfold execute_txn. rewrite Hbegin. simpl.
  set (db1 := set_storage (cc_store c') (ex_db st)).
  pose proof (buffer_more (tr_tid t) p (cc_tables c) db1) as HB.
  destruct (bufferUpdates (tr_tid t) p (cc_tables c) db1) as [b db2] eqn:EB.
  cbn [snd] in HB. destruct HB as (B1 & B2 & B3 & B4 & B5).
  assert (∀ q, <[p := executed s0 t]> (ex_heap st) !! q =
    if decide (q ∈ dn ++ [p]) then executed s0 <$> h0 !! q else h0 !! q) as Hheap.
  { intros q. destruct (decide (q = p)) as [->|Hne].
    - rewrite lookup_insert_eq, decide_True; [by rewrite Ep|].
      apply elem_of_app. right. by apply list_elem_of_singleton.
    - rewrite lookup_insert_ne by done. rewrite Hh. apply decide_ext.
      rewrite elem_of_app, list_elem_of_singleton. naive_solver. }
  assert (∀ hp tb, hp = <[p := executed s0 t]> (ex_heap st) →
    tb = reserve_all (reserved s0 h0 (dn ++ [p])) (new_MockReserveTable e) →
    read_inv e s0 h0 (dn ++ [p]) (mkExec hp db2 (Some tb))) as Hdone.
  { intros hp tb -> ->. split; simpl; [ |done|done| |done].
    - intros x. rewrite B1. simpl. by rewrite Hvc.
    - intros q u Hq Hu. destruct (decide (q = p)) as [->|Hne].
      { rewrite Ep in Hu. simplify_eq. by rewrite B3, B4, Etab. }
      assert (q ∈ dn) as Hqd
        by (apply elem_of_app in Hq as [|Hq%list_elem_of_singleton]; done).
      assert (commitPhase db1 = false) as Hcp
        by (apply Hph; intros ->; by apply not_elem_of_nil in Hqd).
      destruct (B5 Hcp (tr_tid u)) as [-> ->]; [by eapply Hdist|]. by apply Hb. }
  assert (reserved s0 h0 (dn ++ [p]) = reserved s0 h0 dn ++
    (if (r =? 0)%Z then [] else [(sim_rw s0 t, tr_tid t)])) as Hres.
  { unfold reserved. rewrite omap_app. simpl. f_equal. unfold reservation. rewrite Ep. simpl.
    rewrite Er. by destruct (r =? 0)%Z. }
  destruct (r =? 0)%Z eqn:Ez.
  - unfold set_result, set_txn, set_heap. simpl. rewrite lookup_insert_eq. simpl.
    unfold cc_end. simpl. rewrite lookup_insert_eq. simpl. unfold helper_execute. simpl.
    rewrite Fro, EB. eexists. split; [done|]. unfold set_db. simpl.
    rewrite insert_insert_eq, Ht. apply Hdone.
    + f_equal. unfold executed. by rewrite Er, Ez, Erw.
    + by rewrite Hres, app_nil_r.
  - rewrite lookup_insert_eq. simpl. unfold with_table. simpl. rewrite Ht. simpl.
    rewrite reserve_all_epoch. simpl. rewrite N.eqb_refl. simpl.
    unfold cc_end, set_txn, set_heap. simpl. rewrite lookup_insert_eq. simpl.
    unfold helper_execute. simpl. rewrite Fro, EB.
    eexists. split; [done|]. unfold set_db. simpl. apply Hdone.
    + f_equal. unfold executed. by rewrite Er, Ez, Erw.
    + rewrite Hres. unfold reserve_all. rewrite foldl_app. simpl. by rewrite Erw.
Qed.

(** ** The whole read phase *)
Section WholeEpoch.
Context (e : N) (ps : list N) (st0 : exec_state S).
Context (Hready : epoch_ready e ps st0).
Local Notation s0 := (storage (ex_db st0)).
Local Notation h0 := (ex_heap st0).

Lemma ready_txn p : p ∈ ps → ∃ t, h0 !! p = Some t ∧ fresh_txn e t ∧ runs_ok s0 t.
Proof.
  intros Hp. destruct (er_txn _ _ _ Hready p Hp) as (t & Et & Ft). exists t.
  split_and!; [done|done|]. by eapply (er_runs _ _ _ Hready).
Qed.

Lemma execute_txns l dn st :
  read_inv e s0 h0 dn st → NoDup (dn ++ l) → (∀ p, p ∈ dn ++ l → p ∈ ps) →
  ∃ st', foldM (execute_txn invoke debug e) l st = Ok st' ∧ read_inv e s0 h0 (dn ++ l) st'.
Proof.
  revert dn st. induction l as [|p l IH]; intros dn st Hinv Hnd Hin.
  { exists st. by rewrite app_nil_r. }
  assert (p ∉ dn) as Hpn.
  { apply NoDup_app in Hnd as (_ & Hd & _). intros Hp. apply (Hd p Hp). by left. }
  destruct (ready_txn p) as (t & Et & Ft & Rt).
  { apply Hin, elem_of_app. right. by left. }
  destruct (execute_txn_step e s0 h0 dn p t st Hinv Hpn Et Ft Rt) as (st1 & E1 & Hinv1).
  { intros q u Hq Hu Heq. assert (q = p) as ->; [|done].
    eapply (er_tids _ _ _ Hready); [| |done|done|done];
      apply Hin, elem_of_app; [by left | right; by left]. }
  simpl. rewrite E1. simpl. rewrite (assoc_L (++) dn [p] l : dn ++ p :: l = (dn ++ [p]) ++ l).
  apply IH; [done| |]; by rewrite <-(assoc_L (++) dn [p] l).
Qed.

(** Between two workers: either no transaction has run yet, or the read-phase
    invariant holds. *)
Definition between (dn : list N) (st : exec_state S) : Prop :=
  (dn = [] ∧ st = st0) ∨ read_inv e s0 h0 dn st.

Lemma getReserveTable_between dn st :
  between dn st → ∃ st', getReserveTable e st = (e, st') ∧ read_inv e s0 h0 dn st' ∧
    ex_heap st' = ex_heap st.
Proof.
  unfold getReserveTable, getHashMapReserveTable. intros [[-> ->]|Hinv].
  - assert (read_inv e s0 h0 [] (mkExec h0 (ex_db st0) (Some (new_MockReserveTable e)))) as Hi.
    { split; simpl; try done. intros p t Hp. by apply not_elem_of_nil in Hp. }
    destruct (ex_table st0) as [tb|] eqn:E; simpl.
    + pose proof (er_table _ _ _ Hready tb E) as Hne.
      rewrite (proj2 (N.eqb_neq _ _)) by congruence. simpl. by eexists.
    + by eexists.
  - rewrite (ri_table _ _ _ _ _ Hinv), reserve_all_epoch. simpl. rewrite N.eqb_refl.
    rewrite reserve_all_epoch. simpl.
    eexists. split; [done|]. split; [|done].
    destruct Hinv as [H1 H2 H3 H4 H5]. split; simpl; try done.
Qed.

Lemma executeList_between l rt0 dn st :
  between dn st → NoDup (dn ++ l) → (∀ p, p ∈ dn ++ l → p ∈ ps) →
  ∃ b rt st', executeList invoke debug l rt0 st = Ok (b, rt, st') ∧
    between (dn ++ l) st' ∧ (l ≠ [] → rt = Some e).
Proof.
  intros Hb Hnd Hin. destruct l as [|p l].
  { exists false, rt0, st. rewrite app_nil_r. by split_and!. }
  destruct (ready_txn p) as (t & Et & Ft & _); [apply Hin, elem_of_app; right; by left|].
  assert (∃ t', ex_heap st !! p = Some t' ∧ tr_epoch t' = e) as (t' & Et' & Ee).
  { destruct Hb as [[-> ->]|Hinv]; [exists t; by rewrite (ft_epoch _ _ Ft)|].
    exists t. rewrite (ri_heap _ _ _ _ _ Hinv), decide_False; [by rewrite (ft_epoch _ _ Ft)|].
    apply NoDup_app in Hnd as (_ & Hd & _). intros Hp. apply (Hd p Hp). by left. }
  unfold executeList. rewrite Et'. simpl. rewrite Ee.
  destruct (getReserveTable_between dn st Hb) as (st1 & -> & Hinv1 & _).
  destruct (execute_txns (p :: l) dn st1 Hinv1 Hnd Hin) as (st2 & E2 & Hinv2).
  simpl in E2. simpl. rewrite E2. simpl. exists true, (Some e), st2.
  split_and!; [done|by right|done].
Qed.

Lemma read_phase_between ws dn st :
  between dn st → NoDup (dn ++ concat ws) → (∀ p, p ∈ dn ++ concat ws → p ∈ ps) →
  ∃ ws' st', read_phase ws st = Ok (ws', st') ∧ between (dn ++ concat ws) st' ∧
    ws'.*1 = ws ∧ Forall (λ w, w.1 ≠ [] → w.2 = Some e) ws'.
Proof.
  revert dn st. induction ws as [|l ws IH]; intros dn st Hb Hnd Hin; simpl in *.
  { exists [], st. rewrite app_nil_r. by split_and!. }
  rewrite (assoc_L (++)) in Hnd, Hin.
  destruct (executeList_between l None dn st Hb) as (b & rt & st1 & E1 & Hb1 & Hrt).
  { by apply NoDup_app in Hnd as (? & _ & _). }
  { intros p Hp. apply Hin, elem_of_app. by left. }
  rewrite E1. simpl. destruct (IH (dn ++ l) st1 Hb1 Hnd Hin) as (ws' & st2 & E2 & Hb2 & Hf & Hrts).
  rewrite E2. simpl. exists ((l, rt) :: ws'), st2.
  rewrite (assoc_L (++)). split_and!; [done|done| |by constructor].
  by rewrite fmap_cons, Hf.
Qed.

(** ** The commit phase, after the read phase ran the transactions in the
    order [ex] *)
Section Commit.
Context (ex : list N).
Context (Hex : ex ≡ₚ ps).

Definition dec (t : Transaction) : TransactionResult := decision e (reserved s0 h0 ex) s0 t.

(** What the commit of a transaction writes. *)
Definition committed_writes (p : N) : list KVWrite :=
  match h0 !! p with
  | Some t => if decide (dec t = COMMIT) then writes (sim_rw s0 t) else []
  | None => []
  end.

Record commit_inv (dn : list N) (st : exec_state S) : Prop := {
  ci_view c : view (storage (ex_db st)) c =
    apply_writes (concat (committed_writes <$> dn)) (view s0) c;
  ci_heap p : ex_heap st !! p =
    if decide (p ∈ dn) then (λ t, setTransactionResult (dec t) (executed s0 t)) <$> h0 !! p
    else if decide (p ∈ ps) then executed s0 <$> h0 !! p else h0 !! p;
  ci_table : ∃ tb, ex_table st = Some tb ∧
    tb ≡ reserve_all (reserved s0 h0 ex) (new_MockReserveTable e);
  ci_buf p t : p ∈ ps → h0 !! p = Some t →
    rwSetBuffer (ex_db st) !! tr_tid t = Some p ∧
    is_Some (tableListBuffer (ex_db st) !! tr_tid t) ∧
    default [] (tableListBuffer (ex_db st) !! tr_tid t) = sim_tables s0 t }.

Lemma read_commit_inv st : read_inv e s0 h0 ex st → commit_inv [] st.
Proof.
  intros [Hv Hh Ht Hb _]. split; simpl.
  - done.
  - intros p. rewrite Hh. apply decide_ext. by rewrite Hex.
  - by eexists.
  - intros p t Hp Et. destruct (Hb p t) as [-> ->]; [by rewrite Hex|done|]. by split_and!.
Qed.

Lemma sim_tables_ok t : runs_ok s0 t → Forall (λ tb, fieldSize tb = 2) (sim_tables s0 t).
Proof. intros (r & c & E & Hf). unfold sim_tables. by rewrite E. Qed.

(** The effect on the invariant of one more decided transaction. *)
Lemma commit_inv_more dn p t st st' :
  commit_inv dn st → p ∈ ps → p ∉ dn → h0 !! p = Some t →
  ex_heap st' = <[p := setTransactionResult (dec t) (executed s0 t)]> (ex_heap st) →
  (∀ c, view (storage (ex_db st')) c =
     apply_writes (committed_writes p) (view (storage (ex_db st))) c) →
  rwSetBuffer (ex_db st') = rwSetBuffer (ex_db st) →
  (∀ tid, default [] (tableListBuffer (ex_db st') !! tid) =
          default [] (tableListBuffer (ex_db st) !! tid)) →
  (∀ tid, is_Some (tableListBuffer (ex_db st) !! tid) →
          is_Some (tableListBuffer (ex_db st') !! tid)) →
  (∃ tb, ex_table st' = Some tb ∧
     tb ≡ reserve_all (reserved s0 h0 ex) (new_MockReserveTable e)) →
  commit_inv (dn ++ [p]) st'.
Proof.
  intros [Hv Hh Ht Hb] Hp Hpn Et Hh' Hv' Hr Htl1 Htl2 Ht'. split; [| |done|].
  - intros c. rewrite Hv', fmap_app, concat_app. simpl. rewrite app_nil_r.
    unfold apply_writes at 2. rewrite foldl_app.
    fold (apply_writes (concat (committed_writes <$> dn)) (view s0)).
    by apply apply_writes_ext.
  - intros q. rewrite Hh'. destruct (decide (q = p)) as [->|Hne].
    + rewrite lookup_insert_eq, decide_True, Et; [done|].
      apply elem_of_app. right. by apply list_elem_of_singleton.
    + rewrite lookup_insert_ne, Hh by done. apply decide_ext.
      rewrite elem_of_app, list_elem_of_singleton. naive_solver.
  - intros q u Hq Hu. destruct (Hb q u Hq Hu) as (B1 & B2 & B3).
    rewrite Hr, Htl1. split_and!; [done|by apply Htl2|done].
Qed.

Lemma commit_txn_step dn p st :
  commit_inv dn st → p ∈ ps → p ∉ dn →
  ∃ st', commit_txn debug e p st = Ok st' ∧ commit_inv (dn ++ [p]) st'.
Proof.
  intros Hinv Hp Hpn. pose proof Hinv as [Hv Hh (tb & Etb & Htb) Hb].
  destruct (ready_txn p Hp) as (t & Et & Ft & Rt).
  assert (ex_heap st !! p = Some (executed s0 t)) as Hpt
    by (by rewrite Hh, decide_False, decide_True, Et).
  assert (tr_tid (executed s0 t) = tr_tid t ∧ kvRWSet (executed s0 t) = sim_rw s0 t) as [Htid Hrw]
    by (unfold executed; by destruct (sim_ret s0 t =? 0)%Z).
  assert (transactionResult (executed s0 t) = ABORT_NO_RETRY ↔ sim_ret s0 t = 0%Z) as Hres.
  { unfold executed. destruct (Z.eqb_spec (sim_ret s0 t) 0); simpl; [done|].
    rewrite (ft_result _ _ Ft). done. }
  assert (∀ r, r = dec t → committed_writes p = if decide (r = COMMIT) then writes (sim_rw s0 t) else [])
    as Hcw by (intros r ->; unfold committed_writes; by rewrite Et).
  unfold commit_txn. rewrite Hpt. simpl.
  destruct (decide (sim_ret s0 t = 0%Z)) as [Hz|Hnz].
  { rewrite bool_decide_true by (by apply Hres).
    assert (dec t = ABORT_NO_RETRY) as Hd by (unfold dec, decision; by rewrite Hz).
    eexists. split; [done|]. eapply (commit_inv_more dn p t st); simpl; try done.
    - rewrite Hd. symmetry. apply insert_id. rewrite Hpt. f_equal. unfold executed.
      rewrite Hz. simpl. done.
    - intros c. by rewrite (Hcw _ (eq_sym Hd)).
    - by eexists. }
  rewrite bool_decide_false by (by rewrite Hres).
  unfold with_table. rewrite Etb. simpl. rewrite (proj1 Htb), reserve_all_epoch. simpl.
  rewrite N.eqb_refl, Htid, Hrw.
  pose proof (dependencyAnalysis_table (sim_rw s0 t) (tr_tid t) tb) as Htb'.
  pose proof (dependencyAnalysis_proper (sim_rw s0 t) _ eq_refl (tr_tid t) _ eq_refl _ _ Htb) as Hdep.
  simpl in Hdep. destruct (dependencyAnalysis (sim_rw s0 t) (tr_tid t) tb) as [dp tb'] eqn:Edep.
  simpl in Hdep, Htb'. simpl.
  assert (dec t = if waw dp then ABORT else if negb (war dp) || negb (raw dp) then COMMIT else ABORT)
    as Hd.
  { unfold dec, decision. rewrite <-Hdep.
    by destruct (Z.eqb_spec (sim_ret s0 t) 0). }
  assert (∃ tb0, Some tb' = Some tb0 ∧
    tb0 ≡ reserve_all (reserved s0 h0 ex) (new_MockReserveTable e)) as Htab.
  { exists tb'. split; [done|]. by etrans. }
  unfold set_result, set_txn, set_heap, set_db. simpl.
  destruct (waw dp) eqn:Ew; [|destruct (negb (war dp) || negb (raw dp)) eqn:Ewr].
  - rewrite Hpt. simpl. eexists. split; [done|].
    eapply (commit_inv_more dn p t st); simpl; try done.
    + by rewrite Hd.
    + intros c. by rewrite (Hcw _ (eq_sym Hd)).
  - destruct (Hb p t Hp Et) as (B1 & B2 & B3).
    destruct (commitUpdate_view debug (ex_heap st) (tr_tid t) (ex_db st) p (executed s0 t))
      as (db' & -> & Hv' & Hr' & Htl1 & Htl2); [done|done|done| |].
    { rewrite B3. by apply sim_tables_ok. }
    simpl. rewrite Hpt. simpl. eexists. split; [done|].
    eapply (commit_inv_more dn p t st); simpl; try done.
    + by rewrite Hd.
    + intros c. rewrite Hv', (Hcw _ (eq_sym Hd)), Hrw. done.
  - rewrite Hpt. simpl. eexists. split; [done|].
    eapply (commit_inv_more dn p t st); simpl; try done.
    + by rewrite Hd.
    + intros c. by rewrite (Hcw _ (eq_sym Hd)).
Qed.

Lemma commit_txns l dn st :
  commit_inv dn st → NoDup (dn ++ l) → (∀ p, p ∈ l → p ∈ ps) →
  ∃ st', foldM (commit_txn debug e) l st = Ok st' ∧ commit_inv (dn ++ l) st'.
Proof.
  revert dn st. induction l as [|p l IH]; intros dn st Hinv Hnd Hin.
  { exists st. by rewrite app_nil_r. }
  destruct (commit_txn_step dn p st Hinv) as (st1 & E1 & Hinv1).
  { apply Hin. by left. }
  { apply NoDup_app in Hnd as (_ & Hd & _). intros Hp. apply (Hd p Hp). by left. }
  simpl. rewrite E1. simpl. rewrite (assoc_L (++) dn [p] l : dn ++ p :: l = (dn ++ [p]) ++ l).
  apply IH; [done| |]; [by rewrite <-(assoc_L (++) dn [p] l)|].
  intros q Hq. apply Hin. by right.
Qed.

Lemma commitList_inv l rt dn st :
  commit_inv dn st → (l ≠ [] → rt = Some e) → NoDup (dn ++ l) → (∀ p, p ∈ l → p ∈ ps) →
  ∃ st', commitList debug l rt st = Ok (true, st') ∧ commit_inv (dn ++ l) st'.
Proof.
  intros Hinv Hl Hnd Hin. destruct l as [|p l].
  { exists st. by rewrite app_nil_r. }
  rewrite (Hl ltac:(done)).
  destruct (commit_txns (p :: l) dn st Hinv Hnd Hin) as (st1 & E1 & Hinv1).
  exists st1. split; [|done]. unfold commitList.
  change (foldM _ (p :: l) st) with (foldM (commit_txn debug e) (p :: l) st).
  by rewrite E1.
Qed.

Lemma commit_phase_inv ws dn st :
  commit_inv dn st → Forall (λ w, w.1 ≠ [] → w.2 = Some e) ws →
  NoDup (dn ++ concat ws.*1) → (∀ p, p ∈ concat ws.*1 → p ∈ ps) →
  ∃ st', commit_phase ws st = Ok st' ∧ commit_inv (dn ++ concat ws.*1) st'.
Proof.
  revert dn st. induction ws as [|[l rt] ws IH]; intros dn st Hinv Hrt Hnd Hin.
  { exists st. simpl. by rewrite app_nil_r. }
  apply Forall_cons in Hrt as [Hl Hrt]. simpl in Hl. rewrite fmap_cons in *.
  cbn [concat fst] in *. rewrite (assoc_L (++)) in Hnd |- *.
  destruct (commitList_inv l rt dn st Hinv Hl) as (st1 & E1 & Hinv1).
  { by apply NoDup_app in Hnd as (? & _ & _). }
  { intros q Hq. apply Hin, elem_of_app. by left. }
  unfold commit_phase. cbn [foldM fst snd]. rewrite E1. simpl. apply IH; [done|done|done|].
  intros q Hq. apply Hin, elem_of_app. by right.
Qed.

End Commit.

(** ** The decisions *)
Lemma reserved_elem l rw tid :
  (rw, tid) ∈ reserved s0 h0 l ↔
  ∃ p t, p ∈ l ∧ h0 !! p = Some t ∧ sim_ret s0 t ≠ 0%Z ∧ rw = sim_rw s0 t ∧ tid = tr_tid t.
Proof.
  unfold reserved. rewrite list_elem_of_omap. unfold reservation. split.
  - intros (p & Hp & E). destruct (h0 !! p) as [t|] eqn:Et; simpl in E; [|done].
    destruct (Z.eqb_spec (sim_ret s0 t) 0); [done|]. simplify_eq. by exists p, t.
  - intros (p & t & Hp & Et & Hnz & -> & ->). exists p. split; [done|]. rewrite Et. simpl.
    by destruct (Z.eqb_spec (sim_ret s0 t) 0).
Qed.

Lemma reserved_nonzero l : (∀ p, p ∈ l → p ∈ ps) → tids_nonzero (reserved s0 h0 l).
Proof.
  intros Hl. apply Forall_forall. intros [rw tid] (p & t & Hp & Et & _ & _ & ->)%reserved_elem.
  destruct (ready_txn p (Hl p Hp)) as (t' & Et' & Ft & _). simplify_eq. apply (ft_tid _ _ Ft).
Qed.

Lemma dec_perm ex1 ex2 t : ex1 ≡ₚ ps → ex1 ≡ₚ ex2 → dec ex1 t = dec ex2 t.
Proof.
  intros H1 H2. unfold dec, decision.
  assert (reserve_all (reserved s0 h0 ex1) (new_MockReserveTable e) ≡
          reserve_all (reserved s0 h0 ex2) (new_MockReserveTable e)) as Hq.
  { apply reserve_all_perm.
    - apply reserved_nonzero. intros p. by rewrite H1.
    - unfold reserved. by rewrite H2. }
  pose proof (dependencyAnalysis_proper (sim_rw s0 t) _ eq_refl (tr_tid t) _ eq_refl _ _ Hq) as Hd.
  simpl in Hd. by rewrite Hd.
Qed.

(** The dependencies of a transaction of the epoch, on the read-write sets. *)
Local Notation epoch_conflict ca cb t :=
  (conflict ca cb (reserved s0 h0 ps) (sim_rw s0 t) (tr_tid t)).

Definition has_raw (t : Transaction) : bool :=
  raw (dependencyAnalysis (sim_rw s0 t) (tr_tid t)
         (reserve_all (reserved s0 h0 ps) (new_MockReserveTable e))).1.

Lemma has_raw_spec t : has_raw t = true ↔ epoch_conflict write_cells read_cells t.
Proof.
  unfold has_raw.
  by destruct (dependencyAnalysis_spec e (reserved s0 h0 ps) (sim_rw s0 t) (tr_tid t)
    (reserved_nonzero ps (λ p Hp, Hp))) as (_ & _ & ?).
Qed.

Lemma dec_commit t :
  dec ps t = COMMIT ↔
  sim_ret s0 t ≠ 0%Z ∧ ¬ epoch_conflict write_cells write_cells t ∧
  ¬ (epoch_conflict read_cells write_cells t ∧ epoch_conflict write_cells read_cells t).
Proof.
  unfold dec, decision.
  destruct (dependencyAnalysis_spec e (reserved s0 h0 ps) (sim_rw s0 t) (tr_tid t)
    (reserved_nonzero ps (λ p Hp, Hp))) as (Hww & Hwr & Hrw).
  destruct (dependencyAnalysis _ _ _) as [[ww wr rw'] tb]; simpl in *.
  rewrite <-Hww, <-Hwr, <-Hrw.
  destruct (Z.eqb_spec (sim_ret s0 t) 0) as [Hz|Hnz].
  { split; [done|]. by intros [? _]. }
  destruct ww, wr, rw'; simpl; naive_solver.
Qed.

(** An earlier transaction of the epoch that reserved is a conflict. *)
Lemma conflict_intro ca cb p t u c :
  p ∈ ps → h0 !! p = Some t → sim_ret s0 t ≠ 0%Z → (tr_tid t < tr_tid u)%N →
  c ∈ ca (sim_rw s0 t) → c ∈ cb (sim_rw s0 u) → epoch_conflict ca cb u.
Proof.
  intros Hp Et Hnz Hlt Ha Hb. exists (sim_rw s0 t), (tr_tid t), c. split_and!; [|done|done|done].
  apply reserved_elem. by exists p, t.
Qed.

(** No two committed transactions write the same cell. *)
Lemma commit_writes_disjoint p q t u c :
  p ∈ ps → q ∈ ps → h0 !! p = Some t → h0 !! q = Some u →
  dec ps t = COMMIT → dec ps u = COMMIT →
  c ∈ write_cells (sim_rw s0 t) → c ∈ write_cells (sim_rw s0 u) → p = q.
Proof.
  intros Hp Hq Et Eu Dt Du Ct Cu. apply dec_commit in Dt as (Nt & Wt & _).
  apply dec_commit in Du as (Nu & Wu & _).
  destruct (N.lt_trichotomy (tr_tid t) (tr_tid u)) as [Hlt|[Heq|Hgt]].
  - destruct Wu. by eapply (conflict_intro write_cells write_cells p t u c).
  - by eapply (er_tids _ _ _ Hready).
  - destruct Wt. by eapply (conflict_intro write_cells write_cells q u t c).
Qed.

(** ** The state after the epoch *)
Lemma committed_writes_perm ex1 ex2 p :
  ex1 ≡ₚ ps → ex1 ≡ₚ ex2 → committed_writes ex1 p = committed_writes ex2 p.
Proof.
  intros H1 H2. unfold committed_writes. destruct (h0 !! p) as [t|]; [|done].
  by rewrite (dec_perm ex1 ex2).
Qed.

(** A cell of a committed transaction gets that transaction's value, whatever
    the order of the commits. *)
Lemma commit_view_in l p c f :
  (∀ q, q ∈ l → q ∈ ps) → p ∈ l →
  c ∈ ((λ w, (wr_table w, wr_key w)) <$> committed_writes ps p) →
  apply_writes (concat (committed_writes ps <$> l)) f c = apply_writes (committed_writes ps p) f c.
Proof.
  intros Hl Hp Hc.
  assert (∀ q, q ∈ ps → q ≠ p →
    c ∉ ((λ w, (wr_table w, wr_key w)) <$> committed_writes ps q)) as Hother.
  { intros q Hq Hne Hcq. apply Hne. unfold committed_writes in Hc, Hcq.
    destruct (h0 !! p) as [t|] eqn:Et; [|by apply not_elem_of_nil in Hc].
    destruct (h0 !! q) as [u|] eqn:Eu; [|by apply not_elem_of_nil in Hcq].
    destruct (decide (dec ps t = COMMIT)) as [Dt|]; [|by apply not_elem_of_nil in Hc].
    destruct (decide (dec ps u = COMMIT)) as [Du|]; [|by apply not_elem_of_nil in Hcq].
    symmetry. eapply (commit_writes_disjoint p q t u c); auto. }
  clear -Hother Hl Hp Hc. revert f. induction l as [|q l IH] using rev_ind; intros f.
  { by apply not_elem_of_nil in Hp. }
  rewrite fmap_app, concat_app. simpl. rewrite app_nil_r.
  unfold apply_writes at 1. rewrite foldl_app.
  fold (apply_writes (concat (committed_writes ps <$> l)) f).
  fold (apply_writes (committed_writes ps q) (apply_writes (concat (committed_writes ps <$> l)) f)).
  destruct (decide (q = p)) as [->|Hne]; [by apply apply_writes_in|].
  rewrite apply_writes_notin.
  - apply IH.
    + intros q' Hq'. apply Hl, elem_of_app. by left.
    + apply elem_of_app in Hp as [?|?%list_elem_of_singleton]; [done|congruence].
  - apply Hother; [|done]. apply Hl, elem_of_app. right. by apply list_elem_of_singleton.
Qed.

Lemma commit_view_notin l c f :
  (∀ p, p ∈ l → c ∉ ((λ w, (wr_table w, wr_key w)) <$> committed_writes ps p)) →
  apply_writes (concat (committed_writes ps <$> l)) f c = f c.
Proof.
  intros Hl. apply apply_writes_notin. intros Hc. apply list_elem_of_fmap in Hc as (w & -> & Hw).
  apply list_elem_of_In, in_concat in Hw as (ws & Hws & Hw).
  apply list_elem_of_In, list_elem_of_fmap in Hws as (p & -> & Hp). apply (Hl p Hp).
  apply list_elem_of_fmap. exists w. split; [done|]. by apply list_elem_of_In.
Qed.

Lemma commit_view_perm l1 l2 f c :
  (∀ q, q ∈ l1 → q ∈ ps) → l1 ≡ₚ l2 →
  apply_writes (concat (committed_writes ps <$> l1)) f c =
  apply_writes (concat (committed_writes ps <$> l2)) f c.
Proof.
  intros Hl Hp.
  destruct (decide (Exists (λ p, c ∈ ((λ w, (wr_table w, wr_key w)) <$> committed_writes ps p)) l1))
    as [(p & Hpl & Hc)%Exists_exists|Hn].
  - rewrite !(commit_view_in _ p); try done.
    + intros q. rewrite <-Hp. apply Hl.
    + by rewrite <-Hp.
  - rewrite !commit_view_notin; [done| |].
    + intros p Hpl Hc. apply Hn, Exists_exists. exists p. by rewrite Hp.
    + intros p Hpl Hc. apply Hn, Exists_exists. by exists p.
Qed.

(** The transaction object after the epoch. *)
Definition final_txn (t : Transaction) : Transaction :=
  setTransactionResult (dec ps t) (executed s0 t).

(** What an epoch leaves behind, with no reference to the schedule. *)
Definition epoch_result (st : exec_state S) : Prop :=
  (∀ p, ex_heap st !! p = if decide (p ∈ ps) then final_txn <$> h0 !! p else h0 !! p) ∧
  (∀ c, view (storage (ex_db st)) c =
     apply_writes (concat (committed_writes ps <$> ps)) (view s0) c).

Lemma commit_inv_result ex dn st :
  ex ≡ₚ ps → dn ≡ₚ ps → commit_inv ex dn st → epoch_result st.
Proof.
  intros Hex Hperm [Hv Hh _ _]. split.
  - intros p. rewrite Hh. destruct (decide (p ∈ ps)) as [Hp|Hp].
    + rewrite decide_True by (by rewrite Hperm). destruct (h0 !! p) as [t|]; [|done].
      simpl. unfold final_txn. by rewrite (dec_perm ex ps).
    + rewrite decide_False by (by rewrite Hperm). done.
  - intros c. rewrite Hv.
    assert (committed_writes ex <$> dn = committed_writes ps <$> dn) as ->.
    { apply list_fmap_ext. intros i p _. by apply committed_writes_perm. }
    apply commit_view_perm; [|done]. intros q. by rewrite Hperm.
Qed.

Lemma aria_epoch_result ws order :
  ps ≠ [] → concat ws ≡ₚ ps → (∀ l, order l ≡ₚ l) →
  ∃ st, aria_epoch ws order st0 = Ok st ∧ epoch_result st.
Proof.
  intros Hne Hws Hord. unfold aria_epoch.
  destruct (read_phase_between ws [] st0) as (ws' & st1 & E1 & Hb & Hfst & Hrt).
  { by left. }
  { simpl. rewrite Hws. apply (er_nodup _ _ _ Hready). }
  { simpl. intros p. by rewrite Hws. }
  rewrite E1. simpl.
  destruct Hb as [[Hnil _]|Hinv].
  { simpl in Hnil. rewrite Hnil in Hws. by apply Permutation_nil_l in Hws. }
  simpl in Hinv. pose proof (read_commit_inv (concat ws) Hws st1 Hinv) as Hci.
  assert (concat (order ws').*1 ≡ₚ ps) as Hperm.
  { rewrite <-Hws, <-Hfst. by rewrite (Hord ws'). }
  destruct (commit_phase_inv (concat ws) (order ws') [] st1 Hci) as (st2 & E2 & Hci2).
  { by rewrite (Hord ws'). }
  { simpl. rewrite Hperm. apply (er_nodup _ _ _ Hready). }
  { intros p. by rewrite Hperm. }
  exists st2. split; [done|]. by apply (commit_inv_result (concat ws) _ st2 Hws Hperm Hci2).
Qed.

(** ** Serial execution *)

(** One transaction at a time: run the chaincode, commit its tables and its
    writes, and only then run the next. *)
Fixpoint serial_exec (l : list N) (s : S) : outcome (list (Z * KVRWSet) * S) :=
  match l with
  | [] => Ok ([], s)
  | p :: l' =>
      t ← deref (h0 !! p);
      '(r, c) ← run_of s t;
      s1 ← foldM commit_table (cc_tables c) (cc_store c);
      s2 ← foldM commit_write (writes (cc_rwset c)) s1;
      '(outs, s3) ← serial_exec l' s2;
      Ok ((r, cc_rwset c) :: outs, s3)
  end.

(** What the epoch recorded for a transaction. *)
Definition recorded (p : N) : Z * KVRWSet :=
  match h0 !! p with Some t => (sim_ret s0 t, sim_rw s0 t) | None => (0%Z, empty_rwset) end.

(** [readers_first l]: nobody reads a cell that somebody before it writes. *)
Definition readers_first (l : list N) : Prop :=
  ∀ pre p post, l = pre ++ p :: post → ∀ q c, q ∈ pre →
    c ∈ ((λ w, (wr_table w, wr_key w)) <$> committed_writes ps q) →
    c ∉ read_cells (recorded p).2.

Definition commits (p : N) : Prop := ∃ t, h0 !! p = Some t ∧ dec ps t = COMMIT.

Lemma serial_exec_agrees pre l s :
  readers_first (pre ++ l) → (∀ p, p ∈ l → p ∈ ps ∧ commits p) →
  (∀ c, view s c = apply_writes (concat (committed_writes ps <$> pre)) (view s0) c) →
  ∃ s', serial_exec l s = Ok (recorded <$> l, s') ∧
    ∀ c, view s' c = apply_writes (concat (committed_writes ps <$> (pre ++ l))) (view s0) c.
Proof.
  revert pre s. induction l as [|p l IH]; intros pre s Hrf Hl Hv.
  { exists s. by rewrite app_nil_r. }
  destruct (Hl p) as (Hp & t & Et & Dt); [by left|].
  destruct (ready_txn p Hp) as (t' & Et' & Ft & (r & c & Hrun & Htb)). simplify_eq.
  assert (recorded p = (r, cc_rwset c)) as Erec
    by (unfold recorded, sim_ret, sim_rw; by rewrite Et, Hrun).
  assert (committed_writes ps p = writes (cc_rwset c)) as Ecw.
  { unfold committed_writes. rewrite Et, decide_True by done. unfold sim_rw. by rewrite Hrun. }
  destruct (local_run _ _ (mkCC s empty_rwset []) _ _ Hrun) as (c' & Hrun' & Erw & Etb).
  { by split. }
  { intros x Hx. simpl. rewrite Hv. symmetry. apply commit_view_notin. intros q Hq Hc.
    eapply (Hrf pre p l eq_refl q x Hq Hc). by rewrite Erec. }
  cbn [serial_exec]. rewrite Et. simpl. unfold run_of. rewrite Hrun'. simpl.
  pose proof (frame_view _ local_frame _ _ _ _ Hrun') as Hvc. simpl in Hvc.
  destruct (commit_tables_view (cc_tables c') (cc_store c')) as (s1 & -> & Hv1).
  { by rewrite <-Etb. }
  simpl. rewrite <-Erw. destruct (commit_writes_view (writes (cc_rwset c)) s1) as (s2 & -> & Hv2).
  simpl. destruct (IH (pre ++ [p]) s2) as (s3 & -> & Hv3).
  { by rewrite <-(assoc_L (++)). }
  { intros q Hq. apply Hl. by right. }
  { intros x. rewrite Hv2, fmap_app, concat_app. simpl. rewrite app_nil_r, Ecw.
    unfold apply_writes at 2. rewrite foldl_app.
    fold (apply_writes (concat (committed_writes ps <$> pre)) (view s0)).
    apply apply_writes_ext. intros y. by rewrite Hv1, Hvc, Hv. }
  simpl. exists s3. split; [by rewrite Erec|]. intros x.
  by rewrite Hv3, <-(assoc_L (++)).
Qed.

(** ** The serial order

    Transactions with a read-after-write dependency first, by descending id;
    then the others by ascending id. *)
Definition tid_of (p : N) : N := match h0 !! p with Some t => tr_tid t | None => 0%N end.
Definition is_commit (p : N) : bool :=
  match h0 !! p with Some t => bool_decide (dec ps t = COMMIT) | None => false end.
Definition raw_of (p : N) : bool := match h0 !! p with Some t => has_raw t | None => false end.

Definition tid_desc (p q : N) : Prop := (tid_of q ≤ tid_of p)%N.
Definition tid_asc (p q : N) : Prop := (tid_of p ≤ tid_of q)%N.

#[global] Instance tid_desc_dec p q : Decision (tid_desc p q).
Proof. unfold tid_desc. apply _. Defined.
#[global] Instance tid_asc_dec p q : Decision (tid_asc p q).
Proof. unfold tid_asc. apply _. Defined.
#[global] Instance tid_desc_trans : Transitive tid_desc.
Proof. intros x y z. unfold tid_desc. lia. Qed.
#[global] Instance tid_asc_trans : Transitive tid_asc.
Proof. intros x y z. unfold tid_asc. lia. Qed.
#[global] Instance tid_desc_total : Total tid_desc.
Proof. intros x y. unfold tid_desc. lia. Qed.
#[global] Instance tid_asc_total : Total tid_asc.
Proof. intros x y. unfold tid_asc. lia. Qed.

Definition serial_order : list N :=
  merge_sort tid_desc (filter (λ p, is_commit p = true ∧ raw_of p = true) ps) ++
  merge_sort tid_asc (filter (λ p, is_commit p = true ∧ raw_of p = false) ps).

Lemma serial_order_elem p : p ∈ serial_order ↔ p ∈ ps ∧ is_commit p = true.
Proof.
  unfold serial_order. rewrite elem_of_app, !merge_sort_Permutation, !list_elem_of_filter.
  destruct (raw_of p); naive_solver.
Qed.

Lemma is_commit_spec p : is_commit p = true ↔ commits p.
Proof.
  unfold is_commit, commits. destruct (h0 !! p) as [t|]; [|naive_solver].
  rewrite bool_decide_eq_true. naive_solver.
Qed.

(** Where two elements of [A ++ B] stand, the first before the second. *)
Lemma before_cases {A} (R1 R2 : relation A) l1 l2 pre p post q :
  StronglySorted R1 l1 → StronglySorted R2 l2 → l1 ++ l2 = pre ++ p :: post → q ∈ pre →
  (q ∈ l1 ∧ p ∈ l2) ∨ (q ∈ l1 ∧ p ∈ l1 ∧ R1 q p) ∨ (q ∈ l2 ∧ p ∈ l2 ∧ R2 q p).
Proof.
  intros Hs1 Hs2 E Hq. apply app_eq_inv in E as [(k & -> & E)|(k & -> & ->)].
  - destruct k as [|x k]; simplify_eq/=.
    + left. rewrite app_nil_r. split; [done|]. by left.
    + right; left. split_and!; [apply elem_of_app; by left | apply elem_of_app; right; by left|].
      eapply (StronglySorted_app_1_elem_of R1); [done|done|by left].
  - assert (p ∈ k ++ p :: post) as Hp by (apply elem_of_app; right; by left).
    apply elem_of_app in Hq as [Hq|Hq]; [by left|].
    right; right. split_and!; [apply elem_of_app; by left | done |].
    eapply (StronglySorted_app_1_elem_of R2); [done|done|by left].
Qed.

Lemma serial_order_NoDup : NoDup serial_order.
Proof.
  unfold serial_order. apply NoDup_app.
  pose proof (er_nodup _ _ _ Hready) as Hnd.
  split_and!;
    [rewrite merge_sort_Permutation; by apply NoDup_filter| |
     rewrite merge_sort_Permutation; by apply NoDup_filter].
  intros p. rewrite !merge_sort_Permutation, !list_elem_of_filter.
  intros [[_ E1] _] [[_ E2] _]. congruence.
Qed.

(** The order respects every read: a writer comes after the readers of what
    it overwrites. *)
Lemma serial_order_readers_first : readers_first serial_order.
Proof.
  intros pre p post E q c Hq Hcw Hcr.
  assert (p ∈ serial_order ∧ q ∈ serial_order) as [Hp' Hq'].
  { rewrite E. split; apply elem_of_app; [right; by left | by left]. }
  assert (p ≠ q) as Hne.
  { intros ->. pose proof serial_order_NoDup as Hnd. rewrite E in Hnd.
    apply NoDup_app in Hnd as (_ & Hd & _). apply (Hd q Hq). by left. }
  apply serial_order_elem in Hp' as [Hps Hpc]. apply serial_order_elem in Hq' as [Hqs Hqc].
  apply is_commit_spec in Hpc as (t & Et & Dt). apply is_commit_spec in Hqc as (u & Eu & Du).
  unfold committed_writes in Hcw. rewrite Eu, decide_True in Hcw by done.
  unfold recorded in Hcr. rewrite Et in Hcr. simpl in Hcr.
  assert (tid_of p = tr_tid t ∧ tid_of q = tr_tid u ∧ raw_of p = has_raw t ∧ raw_of q = has_raw u)
    as (Tp & Tq & Rp & Rq) by (unfold tid_of, raw_of; by rewrite Et, Eu).
  assert (tr_tid t ≠ tr_tid u) as Htid.
  { intros Heq. apply Hne. by eapply (er_tids _ _ _ Hready). }
  pose proof (proj1 (dec_commit t) Dt) as (Nt & _ & _).
  pose proof (proj1 (dec_commit u) Du) as (Nu & _ & NWR).
  assert ((tr_tid u < tr_tid t)%N → has_raw t = true) as Hlt.
  { intros Hlt. apply has_raw_spec. by eapply (conflict_intro write_cells read_cells q u t c). }
  assert ((tr_tid t < tr_tid u)%N → has_raw u = false) as Hgt.
  { intros Hgt. apply not_true_iff_false. intros Hr%has_raw_spec. apply NWR. split; [|done].
    by eapply (conflict_intro read_cells write_cells p t u c). }
  unfold serial_order in E.
  destruct (before_cases tid_desc tid_asc _ _ pre p post q
    (Sorted_StronglySorted _ _ (Sorted_merge_sort tid_desc _))
    (Sorted_StronglySorted _ _ (Sorted_merge_sort tid_asc _)) E Hq)
    as [[H1 H2]|[(H1 & H2 & HR)|(H1 & H2 & HR)]];
    rewrite merge_sort_Permutation, list_elem_of_filter in H1, H2;
    unfold tid_desc, tid_asc in *; rewrite ?Tp, ?Tq in *;
    destruct H1 as [[_ H1] _], H2 as [[_ H2] _]; rewrite Rp, ?Rq in *;
    destruct (N.lt_trichotomy (tr_tid t) (tr_tid u)) as [Ho|[Ho|Ho]];
    try specialize (Hlt Ho); try specialize (Hgt Ho); try congruence; lia.
Qed.

Lemma serial_order_view f c :
  apply_writes (concat (committed_writes ps <$> ps)) f c =
  apply_writes (concat (committed_writes ps <$> serial_order)) f c.
Proof.
  assert (∀ p, p ∈ ps → c ∈ ((λ w, (wr_table w, wr_key w)) <$> committed_writes ps p) →
    p ∈ serial_order) as Hin.
  { intros p Hp Hc. apply serial_order_elem. split; [done|]. apply is_commit_spec.
    unfold committed_writes in Hc. destruct (h0 !! p) as [t|] eqn:Et;
      [|by apply not_elem_of_nil in Hc].
    destruct (decide (dec ps t = COMMIT)); [by exists t | by apply not_elem_of_nil in Hc]. }
  assert (∀ p, p ∈ serial_order → p ∈ ps) as Hsub
    by (intros p Hp; by apply serial_order_elem in Hp as [? _]).
  destruct (decide (Exists (λ p, c ∈ ((λ w, (wr_table w, wr_key w)) <$> committed_writes ps p)) ps))
    as [(p & Hp & Hc)%Exists_exists|Hn].
  - rewrite !(commit_view_in _ p); auto.
  - rewrite !commit_view_notin; [done| |]; intros p Hp Hc; apply Hn, Exists_exists; exists p; auto.
Qed.

(** What an epoch leaves behind is what a serial execution leaves behind. *)
Lemma result_serializable st :
  epoch_result st →
  ∃ s', serial_exec serial_order s0 = Ok (recorded <$> serial_order, s') ∧
    (∀ c, view (storage (ex_db st)) c = view s' c) ∧
    (∀ p, p ∈ ps → ∃ t, ex_heap st !! p = Some t ∧ kvRWSet t = (recorded p).2 ∧
       (transactionResult t = COMMIT ↔ p ∈ serial_order)).
Proof.
  intros [Hh Hv].
  destruct (serial_exec_agrees [] serial_order s0 serial_order_readers_first) as (s' & E' & Hs').
  { intros p [Hp Hc]%serial_order_elem. by apply is_commit_spec in Hc. }
  { done. }
  exists s'. split_and!; [done| |].
  - intros c. rewrite Hv, Hs'. simpl. apply serial_order_view.
  - intros p Hp. destruct (ready_txn p Hp) as (t & Et & _ & _).
    exists (final_txn t). rewrite Hh, decide_True, Et by done. split_and!; [done| |].
    + unfold recorded. rewrite Et. unfold final_txn, executed. by destruct (_ =? 0)%Z.
    + rewrite serial_order_elem, is_commit_spec. unfold commits. rewrite Et. simpl. naive_solver.
Qed.

(** C1: an epoch is serializable.  For every distribution of the transactions
    over workers and every order of the commit phase, the epoch finishes, and
    running the committed transactions one after the other in [serial_order]
    (those with a read-after-write dependency first, by descending id, then the
    others by ascending id) on the storage the epoch started from returns the
    same results, records the same read-write sets and leaves a storage with
    the same contents. *)
Theorem aria_serializable ws order :
  ps ≠ [] → concat ws ≡ₚ ps → (∀ l, order l ≡ₚ l) →
  ∃ st s', aria_epoch ws order st0 = Ok st ∧
    serial_exec serial_order s0 = Ok (recorded <$> serial_order, s') ∧
    (∀ c, view (storage (ex_db st)) c = view s' c) ∧
    (∀ p, p ∈ ps → ∃ t, ex_heap st !! p = Some t ∧ kvRWSet t = (recorded p).2 ∧
       (transactionResult t = COMMIT ↔ p ∈ serial_order)).
Proof.
  intros Hne Hws Hord. destruct (aria_epoch_result ws order Hne Hws Hord) as (st & E & Hres).
  destruct (result_serializable st Hres) as (s' & ? & ? & ?). by exists st, s'.
Qed.

(** C7: an epoch is deterministic.  Two replicas that start an epoch from the
    same state but spread its transactions differently over their workers and
    run read and commit phase in different orders end with the same transaction
    results and read-write sets and the same storage contents. *)
Theorem aria_deterministic ws1 ws2 order1 order2 :
  ps ≠ [] → concat ws1 ≡ₚ ps → concat ws2 ≡ₚ ps →
  (∀ l, order1 l ≡ₚ l) → (∀ l, order2 l ≡ₚ l) →
  ∃ st1 st2, aria_epoch ws1 order1 st0 = Ok st1 ∧ aria_epoch ws2 order2 st0 = Ok st2 ∧
    (∀ p, ex_heap st1 !! p = ex_heap st2 !! p) ∧
    ∀ c, view (storage (ex_db st1)) c = view (storage (ex_db st2)) c.
Proof.
  intros Hne Hw1 Hw2 Ho1 Ho2.
  destruct (aria_epoch_result ws1 order1 Hne Hw1 Ho1) as (st1 & E1 & Hh1 & Hv1).
  destruct (aria_epoch_result ws2 order2 Hne Hw2 Ho2) as (st2 & E2 & Hh2 & Hv2).
  exists st1, st2. split_and!; [done|done| |].
  - intros p. by rewrite Hh1, Hh2.
  - intros c. by rewrite Hv1, Hv2.
Qed.

(** C13: the commit rule.  After the epoch a transaction is committed exactly
    when its chaincode succeeded, no successful transaction with a smaller id
    writes a cell it writes, and not both a smaller one reads a cell it writes
    and a smaller one writes a cell it reads. *)
Theorem aria_commit_rule ws order :
  ps ≠ [] → concat ws ≡ₚ ps → (∀ l, order l ≡ₚ l) →
  ∃ st, aria_epoch ws order st0 = Ok st ∧
    ∀ p t, p ∈ ps → h0 !! p = Some t → ∃ t', ex_heap st !! p = Some t' ∧
      (transactionResult t' = COMMIT ↔
        sim_ret s0 t ≠ 0%Z ∧ ¬ epoch_conflict write_cells write_cells t ∧
        ¬ (epoch_conflict read_cells write_cells t ∧ epoch_conflict write_cells read_cells t)) ∧
      (transactionResult t' = ABORT_NO_RETRY ↔ sim_ret s0 t = 0%Z).
Proof.
  intros Hne Hws Hord. destruct (aria_epoch_result ws order Hne Hws Hord) as (st & E & Hh & _).
  exists st. split; [done|]. intros p t Hp Et. exists (final_txn t).
  rewrite Hh, decide_True, Et by done. split_and!; [done|apply dec_commit|].
  simpl. unfold dec, decision. destruct (Z.eqb_spec (sim_ret s0 t) 0); [done|].
  split; [|done]. by repeat case_match.
Qed.

(** C14: an epoch makes progress: among the transactions whose chaincode
    succeeds, the one with the smallest id is committed. *)
Theorem aria_progress ws order p t :
  ps ≠ [] → concat ws ≡ₚ ps → (∀ l, order l ≡ₚ l) →
  p ∈ ps → h0 !! p = Some t → sim_ret s0 t ≠ 0%Z →
  (∀ q u, q ∈ ps → h0 !! q = Some u → sim_ret s0 u ≠ 0%Z → (tr_tid t ≤ tr_tid u)%N) →
  ∃ st t', aria_epoch ws order st0 = Ok st ∧ ex_heap st !! p = Some t' ∧
    transactionResult t' = COMMIT.
Proof.
  intros Hne Hws Hord Hp Et Hnz Hmin.
  destruct (aria_epoch_result ws order Hne Hws Hord) as (st & E & Hh & _).
  exists st, (final_txn t). rewrite Hh, decide_True, Et by done. split_and!; [done|done|].
  apply dec_commit.
  assert (∀ ca cb, ¬ epoch_conflict ca cb t) as Hno.
  { intros ca cb (rw & tid & c & Hr & Hlt & _).
    apply reserved_elem in Hr as (q & u & Hq & Eu & Hu & _ & ->).
    specialize (Hmin q u Hq Eu Hu). lia. }
  split_and!; [done|apply Hno|]. intros [HA _]. by apply Hno in HA.
Qed.

End WholeEpoch.

End Epoch.
