(* ===== verification/Aggregation.v ===== *)
(** * Aggregation of execution results

    [aggregation_broadcaster.cpp]: the block servers of an organisation share
    the execution of an epoch.  A server executes the transactions whose id is
    its own modulo the number of servers, sends their results and read-write
    sets to the others and receives those of the others, so that all of them go
    into the commit phase with every transaction.

    The thread pool handles the messages of the other servers concurrently, in
    any order; the messages concern different transactions.  Messages arrive as
    they were sent; protobuf is a parameter. *)
From S2P Require Import Prelude Transaction TransactionCodec Storage Orm Database.
From Stdlib Require Import NArith Lia.
From stdpp Require Import base list gmap strings sorting.

Local Open Scope N_scope.

(** [strcmp(a, b) < 0] on strings without NUL. *)
Fixpoint bytes_lt (l k : list N) : bool :=
  match l, k with
  | [], _ :: _ => true
  | _, [] => false
  | x :: l, y :: k => (x <? y) || ((x =? y) && bytes_lt l k)
  end.
Definition strcmp_lt (a b : string) : bool := bytes_lt (bytes_of a) (bytes_of b).

Record AggregationBroadcaster := mkAB {
  broadcastEpoch : N;
  localID : N;
  totalServerCount : N;
  (** Transactions other servers execute, and those this one does. *)
  listenTransaction : gmap N (gmap N txn_ptr);
  broadcastTransaction : gmap N (gmap N txn_ptr) }.

(** A node of the message: id, result and serialised read-write set. *)
Record AggregationExchange := mkExchange {
  ax_epoch : N;
  ax_nodes : list (N * N * list N) }.

Definition rank (ip : string) (cluster : list string) : nat :=
  length (filter (λ x, strcmp_lt x ip = true) cluster).

Definition new_broadcaster (cluster : list string) (localIP : string) : outcome AggregationBroadcaster :=
  CHECK (1 <? N.of_nat (length cluster));;
  Ok (mkAB 0 (N.of_nat (rank localIP cluster)) (N.of_nat (length cluster)) ∅ ∅).

Definition isLocalTransaction (tid : N) (b : AggregationBroadcaster) : bool :=
  tid mod totalServerCount b =? localID b.

(** [m[e]] of a map that creates what is missing. *)
Definition epoch_map (e : N) (m : gmap N (gmap N txn_ptr)) : gmap N txn_ptr := default ∅ (m !! e).
Definition epoch_insert (e tid : N) (p : txn_ptr) (m : gmap N (gmap N txn_ptr)) : gmap N (gmap N txn_ptr) :=
  <[e := <[tid := p]> (epoch_map e m)]> m.

Section Aggregation.
Context `{Protobuf}.
Context {S : Type}.
Context (debug : bool).

Definition addBroadcastTransaction (h : txn_heap) (p : txn_ptr) (b : AggregationBroadcaster)
    : outcome AggregationBroadcaster :=
  t ← deref (h !! p);
  DCHECK debug (broadcastEpoch b <? tr_epoch t);;
  DCHECK debug (bool_decide (epoch_map (tr_epoch t) (broadcastTransaction b) !! tr_tid t = None));;
  Ok (mkAB (broadcastEpoch b) (localID b) (totalServerCount b) (listenTransaction b)
        (epoch_insert (tr_epoch t) (tr_tid t) p (broadcastTransaction b))).

Definition addListenTransaction (h : txn_heap) (p : txn_ptr) (b : AggregationBroadcaster)
    : outcome AggregationBroadcaster :=
  t ← deref (h !! p);
  DCHECK debug (broadcastEpoch b <? tr_epoch t);;
  DCHECK debug (bool_decide (epoch_map (tr_epoch t) (listenTransaction b) !! tr_tid t = None));;
  Ok (mkAB (broadcastEpoch b) (localID b) (totalServerCount b)
        (epoch_insert (tr_epoch t) (tr_tid t) p (listenTransaction b)) (broadcastTransaction b)).

(** What [createWorkload] does with a transaction of the epoch. *)
Definition register (h : txn_heap) (p : txn_ptr) (b : AggregationBroadcaster)
    : outcome AggregationBroadcaster :=
  t ← deref (h !! p);
  if isLocalTransaction (tr_tid t) b then addBroadcastTransaction h p b else addListenTransaction h p b.

(** The message: [std::map] enumerates by ascending id. *)
Fixpoint make_nodes (h : txn_heap) (l : list (N * txn_ptr)) : outcome (list (N * N * list N)) :=
  match l with
  | [] => Ok []
  | (tid, p) :: l =>
      t ← deref (h !! p);
      nodes ← make_nodes h l;
      Ok ((tid, result_code (transactionResult t), rwset_SerializeAsString (kvRWSet t)) :: nodes)
  end.
Definition by_tid (x y : N * txn_ptr) : Prop := x.1 ≤ y.1.
#[global] Instance by_tid_dec x y : Decision (by_tid x y).
Proof. unfold by_tid. apply _. Defined.

Definition make_exchange (epoch : N) (h : txn_heap) (b : AggregationBroadcaster)
    : outcome AggregationExchange :=
  nodes ← make_nodes h (merge_sort by_tid (map_to_list (epoch_map epoch (broadcastTransaction b))));
  Ok (mkExchange epoch nodes).

(** One node of a received message.  The result of [ParseFromString] is not
    looked at: after a failure the transaction has what was parsed so far. *)
Definition receive_node (listen : gmap N txn_ptr) (node : N * N * list N)
    (st : txn_heap * DatabaseImpl S) : outcome (txn_heap * DatabaseImpl S) :=
  let '(tid, result, rwset) := node in
  let '(h, db) := st in
  match listen !! tid with
  | None => Fatal CheckFailed
  | Some p =>
      t ← deref (h !! p);
      r ← result_of_code result;
      let rw := default (rwset_left rwset) (rwset_ParseFromString rwset) in
      let t := setRWSet rw (setTransactionResult r t) in
      Ok (<[p := t]> h, (bufferUpdates (tr_tid t) p [] db).2)
  end.

Definition receive_exchange (epoch : N) (listen : gmap N txn_ptr) (m : AggregationExchange)
    (st : txn_heap * DatabaseImpl S) : outcome (txn_heap * DatabaseImpl S) :=
  CHECK (epoch =? ax_epoch m);; foldM (receive_node listen) (ax_nodes m) st.

(** [aggregateTransaction]: the result, the message sent, and the new state;
    [incoming] are the messages of the other servers in the order in which the
    pool handles them. *)
Definition aggregateTransaction (epoch : N) (incoming : list AggregationExchange)
    (b : AggregationBroadcaster) (st : txn_heap * DatabaseImpl S)
    : outcome (bool * option AggregationExchange * AggregationBroadcaster * (txn_heap * DatabaseImpl S)) :=
  DCHECK debug (broadcastEpoch b <=? epoch);;
  if broadcastEpoch b =? epoch then Ok (false, None, b, st)
  else
    m ← make_exchange epoch st.1 b;
    st ← foldM (receive_exchange epoch (epoch_map epoch (listenTransaction b))) incoming st;
    Ok (true, Some m,
        mkAB epoch (localID b) (totalServerCount b) (delete epoch (listenTransaction b))
          (delete epoch (broadcastTransaction b)), st).

End Aggregation.

(** ** The share of a server *)
Lemma bytes_lt_irrefl l : bytes_lt l l = false.
Proof. induction l as [|x l IH]; simpl; [done|]. by rewrite N.ltb_irrefl, N.eqb_refl. Qed.

Lemma bytes_lt_trans l k m : bytes_lt l k = true → bytes_lt k m = true → bytes_lt l m = true.
Proof.
  revert k m. induction l as [|x l IH]; intros [|y k] [|z m]; simpl; try done.
  intros [Hx|[Hx Hl]%andb_true_iff]%orb_true_iff [Hy|[Hy Hk]%andb_true_iff]%orb_true_iff;
    rewrite ?N.ltb_lt, ?N.eqb_eq in *; apply orb_true_iff.
  - left. apply N.ltb_lt. lia.
  - left. apply N.ltb_lt. lia.
  - left. apply N.ltb_lt. lia.
  - right. subst. rewrite N.eqb_refl. by eapply IH.
Qed.

Lemma bytes_lt_total l k : l ≠ k → bytes_lt l k = true ∨ bytes_lt k l = true.
Proof.
  revert k. induction l as [|x l IH]; intros [|y k] Hne; simpl; [done|by left|by right|].
  destruct (N.lt_trichotomy x y) as [Hlt|[->|Hlt]].
  - left. by rewrite (proj2 (N.ltb_lt _ _) Hlt).
  - rewrite N.ltb_irrefl, N.eqb_refl. simpl. apply IH. congruence.
  - right. by rewrite (proj2 (N.ltb_lt _ _) Hlt).
Qed.

Section Ranks.
Context (cluster : list string) (Hnd : NoDup cluster).

Lemma filter_length_lt {A} (P Q : A → Prop) `{∀ x, Decision (P x), ∀ x, Decision (Q x)} (l : list A) y :
  (∀ x, P x → Q x) → y ∈ l → ¬ P y → Q y → (length (filter P l) < length (filter Q l))%nat.
Proof.
  intros HPQ Hy HP HQ. induction l as [|x l IH]; [by apply not_elem_of_nil in Hy|].
  assert (length (filter P l) ≤ length (filter Q l))%nat as Hle.
  { clear -HPQ. induction l as [|z l IH]; simpl; [done|]. rewrite !filter_cons.
    destruct (decide (P z)), (decide (Q z)); simpl; try lia. naive_solver. }
  apply elem_of_cons in Hy as [->|Hy]; rewrite !filter_cons.
  - rewrite decide_False, decide_True by done. simpl. lia.
  - specialize (IH Hy). destruct (decide (P x)), (decide (Q x)); simpl; try lia. naive_solver.
Qed.

Lemma rank_mono a b : a ∈ cluster → strcmp_lt a b = true → (rank a cluster < rank b cluster)%nat.
Proof.
  intros Ha Hab. apply (filter_length_lt _ _ _ a).
  - intros x Hx. by eapply bytes_lt_trans.
  - done.
  - unfold strcmp_lt. by rewrite bytes_lt_irrefl.
  - done.
Qed.

Lemma rank_inj a b : a ∈ cluster → b ∈ cluster → rank a cluster = rank b cluster → a = b.
Proof.
  intros Ha Hb E. destruct (decide (a = b)) as [|Hne]; [done|].
  assert (bytes_of a ≠ bytes_of b) as Hb'.
  { intros Eb. apply Hne. by rewrite <-(of_bytes_of a), Eb, of_bytes_of. }
  destruct (bytes_lt_total _ _ Hb') as [Hlt|Hlt]; [pose proof (rank_mono a b Ha Hlt)|pose proof (rank_mono b a Hb Hlt)]; lia.
Qed.


Lemma rank_lt a : a ∈ cluster → (rank a cluster < length cluster)%nat.
Proof.
  intros Ha. assert (length (filter (λ _ : string, True) cluster) = length cluster) as <-.
  { clear. induction cluster as [|x l IH]; [done|]. rewrite filter_cons_True by done. simpl. by rewrite IH. }
  apply (filter_length_lt _ _ _ a); [done|done| |done]. unfold strcmp_lt. by rewrite bytes_lt_irrefl.
Qed.

(** Every residue belongs to one server. *)
Lemma rank_onto r : (r < length cluster)%nat → ∃ k, k ∈ cluster ∧ rank k cluster = r.
Proof.
  intros Hr. assert ((λ k, rank k cluster) <$> cluster ≡ₚ seq 0 (length cluster)) as Hp.
  { apply submseteq_length_Permutation; [|by rewrite length_seq, length_fmap]. apply NoDup_submseteq.
    - apply NoDup_fmap_2_strong; [|done]. intros a b Ha Hb. by apply rank_inj.
    - intros x (k & -> & Hk)%list_elem_of_fmap. apply elem_of_seq. pose proof (rank_lt k Hk). lia. }
  assert (r ∈ seq 0 (length cluster)) as Hin by (apply elem_of_seq; lia).
  rewrite <-Hp in Hin. apply list_elem_of_fmap in Hin as (k & -> & Hk). by exists k.
Qed.

End Ranks.

(** ** Receiving *)
Section Receive.
Context `{ProtobufLaws}.
Context {S : Type}.

(** What a node says, before it is encoded. *)
Definition verdict_of (t : Transaction) : TransactionResult * KVRWSet := (transactionResult t, kvRWSet t).
Definition encode_node (x : N * (TransactionResult * KVRWSet)) : N * N * list N :=
  (x.1, result_code x.2.1, rwset_SerializeAsString x.2.2).
Definition stamp (v : TransactionResult * KVRWSet) (t : Transaction) : Transaction :=
  setRWSet v.2 (setTransactionResult v.1 t).

(** A read-write set that survives the wire. *)
Definition rwset_wire (rw : KVRWSet) : Prop := rwset_utf8 rw = true ∧ message_fits (rwset_SerializeAsString rw).

Lemma receive_node_at (listen : gmap N txn_ptr) x h (db : DatabaseImpl S) p t :
  listen !! x.1 = Some p → h !! p = Some t → rwset_wire x.2.2 →
  receive_node listen (encode_node x) (h, db) =
  Ok (<[p := stamp x.2 t]> h, (bufferUpdates (tr_tid t) p [] db).2).
Proof.
  intros Hp Ht [Hu Hf]. destruct x as [tid [r rw]]. unfold receive_node, encode_node. simpl in *. rewrite Hp. simpl.
  rewrite Ht. simpl. rewrite result_of_result_code. simpl. by rewrite rwset_parse.
Qed.

Lemma bufferUpdates_at tid p tables (db : DatabaseImpl S) :
  rwSetBuffer (bufferUpdates tid p tables db).2 = <[tid := p]> (if commitPhase db then ∅ else rwSetBuffer db) ∧
  tableListBuffer (bufferUpdates tid p tables db).2 =
    <[tid := tables]> (if commitPhase db then ∅ else tableListBuffer db) ∧
  commitPhase (bufferUpdates tid p tables db).2 = false ∧ storage (bufferUpdates tid p tables db).2 = storage db.
Proof.
  unfold bufferUpdates, clearBufferThreadSafe. destruct (commitPhase db) eqn:E; simpl; rewrite ?E; simpl; by rewrite ?E.
Qed.

(** Nodes about distinct transactions this server listens to. *)
Lemma receive_nodes_ok (listen : gmap N txn_ptr) an : ∀ h (db : DatabaseImpl S),
  NoDup an.*1 →
  (∀ tid p, listen !! tid = Some p → ∃ t, h !! p = Some t ∧ tr_tid t = tid) →
  (∀ x, x ∈ an → is_Some (listen !! x.1)) → (∀ x, x ∈ an → rwset_wire x.2.2) →
  ∃ h' db', foldM (receive_node listen) (encode_node <$> an) (h, db) = Ok (h', db') ∧
    (∀ tid v p t, (tid, v) ∈ an → listen !! tid = Some p → h !! p = Some t → h' !! p = Some (stamp v t)) ∧
    (∀ p, (∀ tid, tid ∈ an.*1 → listen !! tid ≠ Some p) → h' !! p = h !! p) ∧
    (∀ tid, tid ∈ an.*1 → rwSetBuffer db' !! tid = listen !! tid ∧ tableListBuffer db' !! tid = Some []) ∧
    (∀ tid, tid ∉ an.*1 → commitPhase db = false →
       rwSetBuffer db' !! tid = rwSetBuffer db !! tid ∧ tableListBuffer db' !! tid = tableListBuffer db !! tid) ∧
    commitPhase db' = (if decide (an = []) then commitPhase db else false) ∧
    storage db' = storage db.
Proof.
  induction an as [|[tid v] an IH]; intros h db Hnd Hl Hin Hwire.
  { exists h, db. split_and!; try done; by intros ? ?%not_elem_of_nil || intros ???? ?%not_elem_of_nil. }
  rewrite fmap_cons in Hnd. apply NoDup_cons in Hnd as [Hni Hnd]. simpl in Hni.
  destruct (Hin (tid, v)) as [p Hp]; [by left|]. simpl in Hp. destruct (Hl tid p Hp) as (t & Ht & Etid).
  rewrite fmap_cons. cbn [foldM]. rewrite (receive_node_at listen (tid, v) h db p t Hp Ht) by (apply (Hwire (tid, v)); by left).
  cbn [mbind outcome_bind]. destruct (bufferUpdates_at (tr_tid t) p [] db) as (Eb & Et & Ec & Es).
  set (db1 := (bufferUpdates (tr_tid t) p [] db).2) in *. rewrite Etid in Eb, Et.
  assert (∀ tid' p', listen !! tid' = Some p' → tid' ≠ tid → p' ≠ p) as Hptr.
  { intros tid' p' Hp' Hne ->. destruct (Hl tid' p Hp') as (t' & Ht' & <-). congruence. }
  destruct (IH (<[p := stamp v t]> h) db1) as (h' & db' & E & Hset & Hkeep & Hbuf & Hold & Hph & Hsto); [done| | | |].
  { intros tid' p' Hp'. destruct (decide (tid' = tid)) as [->|Hne].
    - assert (p' = p) as -> by congruence. rewrite lookup_insert_eq. by eexists.
    - rewrite lookup_insert_ne by (symmetry; by eapply Hptr). by apply Hl. }
  { intros x Hx. apply Hin. by right. }
  { intros x Hx. apply Hwire. by right. }
  exists h', db'. split; [exact E|]. split_and!.
  - intros tid' v' p' t' [[= -> ->]|Hx]%elem_of_cons Hp' Ht'.
    + assert (p' = p) as -> by congruence. assert (t' = t) as -> by congruence.
      rewrite Hkeep; [by rewrite lookup_insert_eq|]. intros tid' Hin' Hp2.
      apply (Hptr tid' p Hp2); [by intros ->|done].
    + assert (tid' ≠ tid) as Hne by (intros ->; apply Hni, list_elem_of_fmap; by exists (tid, v')).
      apply (Hset tid' v' p' t'); [done|done|]. rewrite lookup_insert_ne; [done|]. symmetry. by eapply Hptr.
  - intros q Hq. rewrite Hkeep; [|intros tid' Hin'; apply Hq; by right].
    rewrite lookup_insert_ne; [done|]. intros <-. by apply (Hq tid); [left|].
  - intros tid' [->|Hin']%elem_of_cons; [|by apply Hbuf]. simpl. destruct (Hold tid Hni Ec) as [-> ->].
    by rewrite Eb, Et, !lookup_insert_eq.
  - intros tid' Hni' Hc. apply not_elem_of_cons in Hni' as [Hne Hni']. destruct (Hold tid' Hni' Ec) as [-> ->].
    by rewrite Eb, Et, Hc, !lookup_insert_ne.
  - rewrite Hph. by destruct (decide (an = [])).
  - congruence.
Qed.

End Receive.

(** ** The exchange of an epoch *)
Section Exchange.
Context `{ProtobufLaws}.
Context {S : Type}.
Context (debug : bool).
Context (cluster : list string) (Hcluster : NoDup cluster) (e : N) (T : gset N).

Record server := mkServer {
  sv_b : AggregationBroadcaster;
  sv_heap : txn_heap;
  sv_db : DatabaseImpl S }.

Definition listens (s : server) : gmap N txn_ptr := epoch_map e (listenTransaction (sv_b s)).
Definition executes (s : server) : gmap N txn_ptr := epoch_map e (broadcastTransaction (sv_b s)).

(** A server that has registered the transactions [T] of epoch [e]. *)
Record ready (ip : string) (s : server) : Prop := {
  rd_id : localID (sv_b s) = N.of_nat (rank ip cluster);
  rd_count : totalServerCount (sv_b s) = N.of_nat (length cluster);
  rd_epoch : broadcastEpoch (sv_b s) < e;
  rd_listens tid : is_Some (listens s !! tid) ↔ tid ∈ T ∧ isLocalTransaction tid (sv_b s) = false;
  rd_executes tid : is_Some (executes s !! tid) ↔ tid ∈ T ∧ isLocalTransaction tid (sv_b s) = true;
  rd_listen_ptr tid p : listens s !! tid = Some p → ∃ t, sv_heap s !! p = Some t ∧ tr_tid t = tid;
  rd_execute_ptr tid p : executes s !! tid = Some p → ∃ t, sv_heap s !! p = Some t ∧ tr_tid t = tid }.

(** The result and read-write set of a transaction on a server. *)
Definition verdict_at (m : gmap N txn_ptr) (h : txn_heap) (tid : N) : option (TransactionResult * KVRWSet) :=
  p ← m !! tid; t ← h !! p; Some (verdict_of t).

Context (sv : string → server) (Hready : ∀ ip, ip ∈ cluster → ready ip (sv ip)).

(** The server that executes a transaction, and what it found. *)
Definition home (tid : N) : string :=
  default "" (list_find (λ k, rank k cluster = N.to_nat (tid mod N.of_nat (length cluster))) cluster ≫= λ x, Some x.2).
Definition found (tid : N) : TransactionResult * KVRWSet :=
  default (PENDING, empty_rwset) (verdict_at (executes (sv (home tid))) (sv_heap (sv (home tid))) tid).

Lemma local_rank k tid :
  k ∈ cluster → isLocalTransaction tid (sv_b (sv k)) = true ↔
    rank k cluster = N.to_nat (tid mod N.of_nat (length cluster)).
Proof.
  intros Hk. destruct (Hready k Hk). unfold isLocalTransaction. rewrite rd_id0, rd_count0, N.eqb_eq. lia.
Qed.

Lemma home_unique k tid : k ∈ cluster → isLocalTransaction tid (sv_b (sv k)) = true → home tid = k.
Proof.
  intros Hk Hl%local_rank; [|done]. unfold home. destruct (list_find _ cluster) as [[i k']|] eqn:E.
  - simpl. apply list_find_Some in E as (Hi & Hr & _). apply list_elem_of_lookup_2 in Hi.
    apply (rank_inj cluster); [done|done|congruence].
  - by eapply list_find_None, Forall_forall in E.
Qed.

Lemma home_local tid :
  cluster ≠ [] → home tid ∈ cluster ∧ isLocalTransaction tid (sv_b (sv (home tid))) = true.
Proof.
  intros Hne. assert (length cluster ≠ 0%nat) as Hl by (by destruct cluster).
  destruct (rank_onto cluster Hcluster (N.to_nat (tid mod N.of_nat (length cluster)))) as (k & Hk & Hr).
  { pose proof (N.mod_lt tid (N.of_nat (length cluster)) ltac:(lia)). lia. }
  assert (isLocalTransaction tid (sv_b (sv k)) = true) as Hloc by (by apply local_rank).
  by rewrite (home_unique k tid Hk Hloc).
Qed.

(** *** The message of a server *)
Definition report (s : server) : list (N * (TransactionResult * KVRWSet)) :=
  (λ x, (x.1, found x.1)) <$> merge_sort by_tid (map_to_list (executes s)).
Definition message (k : string) : AggregationExchange := mkExchange e (encode_node <$> report (sv k)).

Lemma executes_found k tid p :
  k ∈ cluster → executes (sv k) !! tid = Some p →
  ∃ t, sv_heap (sv k) !! p = Some t ∧ verdict_of t = found tid.
Proof.
  intros Hk Hp. destruct (Hready k Hk). destruct (rd_execute_ptr0 tid p Hp) as (t & Ht & _).
  exists t. split; [done|]. destruct (proj1 (rd_executes0 tid)) as [_ Hloc]; [by eexists|].
  unfold found, verdict_at. rewrite (home_unique k tid Hk Hloc), Hp. simpl. by rewrite Ht.
Qed.

Lemma make_exchange_ok k : k ∈ cluster → make_exchange e (sv_heap (sv k)) (sv_b (sv k)) = Ok (message k).
Proof.
  intros Hk. unfold make_exchange, message, report. fold (executes (sv k)).
  set (l := merge_sort by_tid (map_to_list (executes (sv k)))).
  assert (∀ x, x ∈ l → executes (sv k) !! x.1 = Some x.2) as Hl.
  { intros [tid p] Hx. unfold l in Hx. rewrite merge_sort_Permutation in Hx. by apply elem_of_map_to_list in Hx. }
  assert (make_nodes (sv_heap (sv k)) l = Ok (encode_node <$> ((λ x, (x.1, found x.1)) <$> l))) as ->; [|done].
  clearbody l. induction l as [|[tid p] l IH]; [done|]. simpl.
  destruct (executes_found k tid p Hk) as (t & Ht & Hv); [by apply (Hl (tid, p)); left|].
  rewrite Ht. simpl. rewrite IH by (intros x Hx; apply Hl; by right). simpl. unfold encode_node at 2. simpl.
  by rewrite <-Hv.
Qed.

Lemma report_tids k tid v :
  k ∈ cluster → (tid, v) ∈ report (sv k) ↔ tid ∈ T ∧ home tid = k ∧ v = found tid.
Proof.
  intros Hk. unfold report. rewrite list_elem_of_fmap. split.
  - intros ([tid' p] & [= -> ->] & Hx). rewrite merge_sort_Permutation, elem_of_map_to_list in Hx. simpl in *.
    destruct (proj1 (rd_executes k (sv k) (Hready k Hk) tid')) as [HT Hloc]; [by eexists|].
    split_and!; [done|by apply home_unique|done].
  - intros (HT & Hh & ->).
    assert (is_Some (executes (sv k) !! tid)) as [p Hp].
    { apply (rd_executes k (sv k) (Hready k Hk)). split; [done|]. subst k.
      apply home_local. intros E. rewrite E in Hk. by apply not_elem_of_nil in Hk. }
    exists (tid, p). split; [done|]. rewrite merge_sort_Permutation. by apply elem_of_map_to_list.
Qed.

Lemma report_nodup k : NoDup (report (sv k)).*1.
Proof.
  unfold report. rewrite <-list_fmap_compose. change (NoDup (fst <$> merge_sort by_tid (map_to_list (executes (sv k))))).
  rewrite merge_sort_Permutation. apply NoDup_fst_map_to_list.
Qed.

Lemma receive_message (listen : gmap N txn_ptr) k (st : txn_heap * DatabaseImpl S) :
  receive_exchange e listen (message k) st = foldM (receive_node listen) (encode_node <$> report (sv k)) st.
Proof. unfold receive_exchange. simpl. by rewrite N.eqb_refl. Qed.

Lemma receive_messages (listen : gmap N txn_ptr) ks (st : txn_heap * DatabaseImpl S) :
  foldM (receive_exchange e listen) (message <$> ks) st =
  foldM (receive_node listen) (encode_node <$> concat ((λ k, report (sv k)) <$> ks)) st.
Proof.
  revert st. induction ks as [|k ks IH]; intros st; [done|]. rewrite !fmap_cons. cbn [foldM concat].
  rewrite fmap_app, foldM_app, receive_message.
  destruct (foldM (receive_node listen) (encode_node <$> report (sv k)) st); [|done]. simpl. apply IH.
Qed.

Lemma reports_elem ks tid v :
  (∀ k, k ∈ ks → k ∈ cluster) →
  (tid, v) ∈ concat ((λ k, report (sv k)) <$> ks) ↔ tid ∈ T ∧ home tid ∈ ks ∧ v = found tid.
Proof.
  intros Hks. rewrite list_elem_of_In, List.in_concat. setoid_rewrite <-list_elem_of_In.
  setoid_rewrite list_elem_of_fmap. split.
  - intros (l & (k & -> & Hk) & Hx). apply report_tids in Hx as (? & <- & ?); [done|by apply Hks].
  - intros (HT & Hh & ->). exists (report (sv (home tid))). split; [by exists (home tid)|].
    apply report_tids; [by apply Hks|done].
Qed.

Lemma reports_nodup ks :
  NoDup ks → (∀ k, k ∈ ks → k ∈ cluster) → NoDup (concat ((λ k, report (sv k)) <$> ks)).*1.
Proof.
  induction 1 as [|k ks Hni _ IH]; intros Hks; [constructor|]. rewrite fmap_cons. cbn [concat]. rewrite fmap_app.
  apply NoDup_app. split_and!; [apply report_nodup| |apply IH; intros k' Hk'; apply Hks; by right].
  intros tid ([tid1 v1] & E1 & H1)%list_elem_of_fmap ([tid2 v2] & E2 & H2)%list_elem_of_fmap. simpl in E1, E2. subst.
  apply report_tids in H1 as (_ & Hh & _); [|apply Hks; by left].
  apply reports_elem in H2 as (_ & Hin & _); [|intros k' Hk'; apply Hks; by right]. congruence.
Qed.

(** The read-write sets found by the executing servers survive the wire. *)
Context (Hwire : ∀ ip tid p t, ip ∈ cluster → executes (sv ip) !! tid = Some p → sv_heap (sv ip) !! p = Some t →
  rwset_wire (kvRWSet t)).

Lemma found_wire tid : cluster ≠ [] → tid ∈ T → rwset_wire (found tid).2.
Proof.
  intros Hne HT. destruct (home_local tid Hne) as [Hh Hloc]. destruct (Hready _ Hh).
  destruct (proj2 (rd_executes0 tid)) as [p Hp]; [done|].
  destruct (executes_found (home tid) tid p Hh Hp) as (t & Ht & <-). by apply (Hwire (home tid) tid p).
Qed.

(** The messages of all servers but [j], in any order. *)
Section Server.
Context (j : string) (ks : list string) (Hj : j ∈ cluster) (Hks : filter (λ k, k ≠ j) cluster ≡ₚ ks).

Lemma others_elem k : k ∈ ks ↔ k ≠ j ∧ k ∈ cluster.
Proof. by rewrite <-Hks, list_elem_of_filter. Qed.

Lemma remote_reported tid :
  tid ∈ T → isLocalTransaction tid (sv_b (sv j)) = false →
  (tid, found tid) ∈ concat ((λ k, report (sv k)) <$> ks).
Proof.
  intros HT Hloc. apply reports_elem; [intros k Hk; by apply others_elem|]. split_and!; [done| |done].
  destruct (home_local tid) as [Hh Hhl]; [intros Ec; rewrite Ec in Hj; by apply not_elem_of_nil in Hj|].
  apply others_elem. split; [|done]. intros E. rewrite E in Hhl. congruence.
Qed.

Lemma messages_received :
  ∃ h' db',
    foldM (receive_exchange e (listens (sv j))) (message <$> ks) (sv_heap (sv j), sv_db (sv j)) = Ok (h', db') ∧
    (∀ tid p t, tid ∈ T → listens (sv j) !! tid = Some p → sv_heap (sv j) !! p = Some t →
       h' !! p = Some (stamp (found tid) t)) ∧
    (∀ p, (∀ tid, listens (sv j) !! tid ≠ Some p) → h' !! p = sv_heap (sv j) !! p) ∧
    (∀ tid, tid ∈ T → isLocalTransaction tid (sv_b (sv j)) = false →
       rwSetBuffer db' !! tid = listens (sv j) !! tid ∧ tableListBuffer db' !! tid = Some [] ∧
       commitPhase db' = false) ∧
    (∀ tid, isLocalTransaction tid (sv_b (sv j)) = true → commitPhase (sv_db (sv j)) = false →
       rwSetBuffer db' !! tid = rwSetBuffer (sv_db (sv j)) !! tid ∧
       tableListBuffer db' !! tid = tableListBuffer (sv_db (sv j)) !! tid ∧ commitPhase db' = false) ∧
    storage db' = storage (sv_db (sv j)).
Proof.
  destruct (Hready j Hj). rewrite receive_messages.
  destruct (receive_nodes_ok (listens (sv j)) (concat ((λ k, report (sv k)) <$> ks)) (sv_heap (sv j)) (sv_db (sv j)))
    as (h' & db' & E & Hset & Hkeep & Hbuf & Hold & Hph & Hsto).
  - apply reports_nodup; [rewrite <-Hks; by apply NoDup_filter|]. intros k Hk. by apply others_elem.
  - apply rd_listen_ptr0.
  - intros [tid v] Hx. apply reports_elem in Hx as (HT & Hh & _); [|intros k Hk; by apply others_elem].
    apply rd_listens0. split; [done|]. apply others_elem in Hh as [Hh _]. apply not_true_iff_false. intros Hloc.
    by apply Hh, home_unique.
  - intros [tid v] Hx. apply reports_elem in Hx as (HT & _ & ->); [|intros k Hk; by apply others_elem].
    apply found_wire; [|done]. intros E. rewrite E in Hj. by apply not_elem_of_nil in Hj.
  - exists h', db'. split; [done|]. split_and!.
    + intros tid p t HT Hp Ht. apply (Hset tid (found tid) p t); [|done|done]. apply remote_reported; [done|].
      by apply rd_listens0; eexists.
    + intros p Hp. apply Hkeep. intros tid _. apply Hp.
    + intros tid HT Hloc. pose proof (remote_reported tid HT Hloc) as Hx.
      destruct (Hbuf tid) as [-> ->]; [apply list_elem_of_fmap; by exists (tid, found tid)|].
      split_and!; [done|done|]. rewrite Hph, decide_False; [done|]. intros E0. rewrite E0 in Hx.
      by apply not_elem_of_nil in Hx.
    + intros tid Hloc Hc. destruct (Hold tid) as [-> ->]; [|done|split_and!; [done..|by rewrite Hph, Hc; case_decide]].
      intros ([tid' v] & E' & Hx)%list_elem_of_fmap. simpl in E'. subst tid'.
      apply reports_elem in Hx as (_ & Hh & _); [|intros k Hk; by apply others_elem].
      apply others_elem in Hh as [Hh _]. by apply Hh, home_unique.
    + done.
Qed.

Lemma aggregate_received h' db' :
  foldM (receive_exchange e (listens (sv j))) (message <$> ks) (sv_heap (sv j), sv_db (sv j)) = Ok (h', db') →
  ∃ b', aggregateTransaction debug e (message <$> ks) (sv_b (sv j)) (sv_heap (sv j), sv_db (sv j)) =
    Ok (true, Some (message j), b', (h', db')).
Proof.
  intros E. destruct (Hready j Hj). eexists. unfold aggregateTransaction. rewrite (proj2 (N.leb_le _ _)) by lia.
  assert (DCHECK debug true = Ok tt) as -> by (by destruct debug). simpl.
  rewrite (proj2 (N.eqb_neq _ _)) by lia. rewrite (make_exchange_ok j Hj). simpl. fold (listens (sv j)). by rewrite E.
Qed.

End Server.

(** the servers of a cluster go into the commit phase with the same
    transactions.  Let every server have registered the transactions of the
    epoch and executed its share.  Then each transaction is executed by one
    server, the messages can be built, and whatever the order in which a server
    handles the messages of the others, no check fails and afterwards it holds,
    for every transaction of the epoch, the result and the read-write set found
    by the server that executed it, and the read-write sets it received are
    buffered for the commit. *)
Theorem aggregation_agrees :
  ∃ (msg : string → AggregationExchange) (verdict : N → TransactionResult * KVRWSet),
    (∀ k, k ∈ cluster → make_exchange e (sv_heap (sv k)) (sv_b (sv k)) = Ok (msg k)) ∧
    (∀ k tid v, k ∈ cluster → verdict_at (executes (sv k)) (sv_heap (sv k)) tid = Some v → v = verdict tid) ∧
    ∀ j incoming, j ∈ cluster → incoming ≡ₚ msg <$> filter (λ k, k ≠ j) cluster →
      ∃ b' h' db', aggregateTransaction debug e incoming (sv_b (sv j)) (sv_heap (sv j), sv_db (sv j)) =
                     Ok (true, Some (msg j), b', (h', db')) ∧
        (∀ tid, tid ∈ T → verdict_at (listens (sv j) ∪ executes (sv j)) h' tid = Some (verdict tid)) ∧
        (∀ tid, tid ∈ T → isLocalTransaction tid (sv_b (sv j)) = false →
           rwSetBuffer db' !! tid = listens (sv j) !! tid).
Proof.
  exists message, found. split_and!; [apply make_exchange_ok| |].
  { intros k tid v Hk Hv. unfold verdict_at in Hv. destruct (executes (sv k) !! tid) as [p|] eqn:Hp; [|done].
    destruct (executes_found k tid p Hk Hp) as (t & Ht & <-). simpl in Hv. rewrite Ht in Hv. by injection Hv as <-. }
  intros j incoming Hj Hin. destruct (Hready j Hj). apply Permutation_map_inv in Hin as (ks & -> & Hks).
  destruct (messages_received j ks Hj Hks) as (h' & db' & E & Hset & Hkeep & Hbuf & _).
  destruct (aggregate_received j ks Hj h' db' E) as [b' Eb]. change (map message ks) with (message <$> ks).
  exists b', h', db'. split_and!; [done| |intros tid HT Hloc; by apply Hbuf].
  - intros tid HT. unfold verdict_at. destruct (isLocalTransaction tid (sv_b (sv j))) eqn:Hloc.
    + destruct (proj2 (rd_executes0 tid) (conj HT Hloc)) as [p Hp].
      assert (listens (sv j) !! tid = None) as Hno.
      { apply eq_None_not_Some. intros [_ ?]%rd_listens0. congruence. }
      rewrite lookup_union_r, Hp by done. simpl. destruct (executes_found j tid p Hj Hp) as (t & Ht & Hv).
      rewrite Hkeep; [by rewrite Ht; simpl; rewrite Hv|]. intros tid' Hp'.
      destruct (rd_listen_ptr0 tid' p Hp') as (t' & Ht' & Etid), (rd_execute_ptr0 tid p Hp) as (t2 & Ht2 & Etid2).
      assert (tid' = tid) as -> by congruence. congruence.
    + destruct (proj2 (rd_listens0 tid) (conj HT Hloc)) as [p Hp]. destruct (rd_listen_ptr0 tid p Hp) as (t & Ht & _).
      rewrite (lookup_union_Some_l _ _ _ _ Hp). simpl. rewrite (Hset tid p t HT Hp Ht). simpl.
      unfold verdict_of, stamp. simpl. by destruct (found tid).
Qed.

End Exchange.

(** ** Registering the transactions of an epoch *)
Section Registering.
Context `{Protobuf}.
Context {S : Type}.
Context (debug : bool) (cluster : list string) (e : N) (h : txn_heap).

Definition tid_at (p : txn_ptr) : N := from_option tr_tid 0 (h !! p).

Lemma epoch_map_insert tid p m : epoch_map e (epoch_insert e tid p m) = <[tid := p]> (epoch_map e m).
Proof. unfold epoch_insert, epoch_map at 1. by rewrite lookup_insert_eq. Qed.

Lemma register_one p t b :
  h !! p = Some t → tr_epoch t = e → broadcastEpoch b < e →
  epoch_map e (listenTransaction b) !! tr_tid t = None → epoch_map e (broadcastTransaction b) !! tr_tid t = None →
  register debug h p b =
  Ok (if isLocalTransaction (tr_tid t) b
      then mkAB (broadcastEpoch b) (localID b) (totalServerCount b) (listenTransaction b)
             (epoch_insert e (tr_tid t) p (broadcastTransaction b))
      else mkAB (broadcastEpoch b) (localID b) (totalServerCount b)
             (epoch_insert e (tr_tid t) p (listenTransaction b)) (broadcastTransaction b)).
Proof.
  intros Hp He Hb Hl Hx. unfold register, addBroadcastTransaction, addListenTransaction. rewrite Hp. simpl.
  assert (DCHECK debug true = Ok tt) as Hd by (by destruct debug).
  rewrite He, (proj2 (N.ltb_lt _ _) Hb), Hl, Hx, !bool_decide_true, Hd by done.
  by destruct (isLocalTransaction (tr_tid t) b).
Qed.

Lemma register_all ptrs : ∀ b,
  (∀ p, p ∈ ptrs → ∃ t, h !! p = Some t ∧ tr_epoch t = e) → NoDup (tid_at <$> ptrs) → broadcastEpoch b < e →
  (∀ p, p ∈ ptrs → epoch_map e (listenTransaction b) !! tid_at p = None ∧
     epoch_map e (broadcastTransaction b) !! tid_at p = None) →
  ∃ b', foldM (register debug h) ptrs b = Ok b' ∧ broadcastEpoch b' = broadcastEpoch b ∧
    localID b' = localID b ∧ totalServerCount b' = totalServerCount b ∧
    (∀ tid q, epoch_map e (listenTransaction b') !! tid = Some q ↔
       epoch_map e (listenTransaction b) !! tid = Some q ∨
       (q ∈ ptrs ∧ tid_at q = tid ∧ isLocalTransaction tid b = false)) ∧
    (∀ tid q, epoch_map e (broadcastTransaction b') !! tid = Some q ↔
       epoch_map e (broadcastTransaction b) !! tid = Some q ∨
       (q ∈ ptrs ∧ tid_at q = tid ∧ isLocalTransaction tid b = true)).
Proof.
  induction ptrs as [|p ptrs IH]; intros b Hobj Hnd Hb Hnew.
  { exists b. split_and!; try done; intros tid q; (split; [by left|]); intros [?|[?%not_elem_of_nil _]]; done. }
  rewrite fmap_cons in Hnd. apply NoDup_cons in Hnd as [Hni Hnd].
  destruct (Hobj p) as (t & Ht & He); [by left|]. destruct (Hnew p) as [Hl Hx]; [by left|].
  assert (tid_at p = tr_tid t) as Etid by (unfold tid_at; by rewrite Ht). rewrite Etid in Hl, Hx, Hni.
  cbn [foldM]. rewrite (register_one p t b) by done. cbn [mbind outcome_bind].
  set (b1 := if isLocalTransaction (tr_tid t) b then _ else _).
  assert (broadcastEpoch b1 = broadcastEpoch b ∧ localID b1 = localID b ∧ totalServerCount b1 = totalServerCount b)
    as (Eb & Ei & Ec) by (unfold b1; by destruct (isLocalTransaction (tr_tid t) b)).
  assert (∀ tid, isLocalTransaction tid b1 = isLocalTransaction tid b) as Eloc
    by (intros tid; unfold isLocalTransaction; by rewrite Ei, Ec).
  assert (∀ tid q, epoch_map e (listenTransaction b1) !! tid = Some q ↔
    epoch_map e (listenTransaction b) !! tid = Some q ∨ (q = p ∧ tid = tr_tid t ∧ isLocalTransaction tid b = false)) as H1.
  { intros tid q. unfold b1. destruct (isLocalTransaction (tr_tid t) b) eqn:El; simpl.
    { split; [by left|]. intros [?|(_ & -> & ?)]; [done|congruence]. }
    rewrite epoch_map_insert. destruct (decide (tid = tr_tid t)) as [->|Hne].
    - rewrite lookup_insert_eq, Hl. naive_solver.
    - rewrite lookup_insert_ne by done. naive_solver. }
  assert (∀ tid q, epoch_map e (broadcastTransaction b1) !! tid = Some q ↔
    epoch_map e (broadcastTransaction b) !! tid = Some q ∨ (q = p ∧ tid = tr_tid t ∧ isLocalTransaction tid b = true)) as H2.
  { intros tid q. unfold b1. destruct (isLocalTransaction (tr_tid t) b) eqn:El; simpl.
    2: { split; [by left|]. intros [?|(_ & -> & ?)]; [done|congruence]. }
    rewrite epoch_map_insert. destruct (decide (tid = tr_tid t)) as [->|Hne].
    - rewrite lookup_insert_eq, Hx. naive_solver.
    - rewrite lookup_insert_ne by done. naive_solver. }
  destruct (IH b1) as (b' & E & Eb' & Ei' & Ec' & HL & HX); [intros q Hq; apply Hobj; by right|done|by rewrite Eb| |].
  { intros q Hq. destruct (Hnew q) as [Hlq Hxq]; [by right|].
    assert (tid_at q ≠ tr_tid t) as Hne by (intros E; apply Hni; rewrite <-E; by apply list_elem_of_fmap_2).
    split; apply eq_None_not_Some; intros [q' Hq']; [apply H1 in Hq'|apply H2 in Hq']; naive_solver. }
  exists b'. split_and!; [done|congruence..| |].
  - intros tid q. rewrite HL, H1, Eloc, elem_of_cons. naive_solver.
  - intros tid q. rewrite HX, H2, Eloc, elem_of_cons. naive_solver.
Qed.

(** A server that has registered the transactions of a new epoch is ready. *)
Lemma registered_ready ip (db : DatabaseImpl S) ptrs b0 b :
  (∀ p, p ∈ ptrs → ∃ t, h !! p = Some t ∧ tr_epoch t = e) → NoDup (tid_at <$> ptrs) →
  localID b0 = N.of_nat (rank ip cluster) → totalServerCount b0 = N.of_nat (length cluster) →
  broadcastEpoch b0 < e → epoch_map e (listenTransaction b0) = ∅ → epoch_map e (broadcastTransaction b0) = ∅ →
  foldM (register debug h) ptrs b0 = Ok b →
  ready cluster e (list_to_set (tid_at <$> ptrs)) ip (mkServer b h db).
Proof.
  intros Hobj Hnd Hid Hcnt He Hl0 Hx0 E. destruct (register_all ptrs b0)
    as (b' & E' & Eb & Ei & Ec & HL & HX); [done|done|done|by rewrite Hl0, Hx0|].
  rewrite E in E'. injection E' as <-.
  assert (∀ tid, isLocalTransaction tid b = isLocalTransaction tid b0) as Eloc
    by (intros tid; unfold isLocalTransaction; by rewrite Ei, Ec).
  assert (∀ p tid, p ∈ ptrs → tid_at p = tid → ∃ t, h !! p = Some t ∧ tr_tid t = tid) as Hptr.
  { intros p tid Hp <-. destruct (Hobj p Hp) as (t & Ht & _). exists t. unfold tid_at. by rewrite Ht. }
  assert (∀ tid p, (∅ : gmap N txn_ptr) !! tid ≠ Some p) as Hno by done. rewrite Hl0 in HL. rewrite Hx0 in HX.
  split; simpl; [congruence..|by rewrite Eb| | | |].
  - intros tid. unfold listens. simpl. rewrite elem_of_list_to_set, list_elem_of_fmap, Eloc. split.
    + intros [q [[]%Hno|(Hq & <- & Hloc)]%HL]. split; [by exists q|done].
    + intros [(q & -> & Hq) Hloc]. exists q. apply HL. by right.
  - intros tid. unfold executes. simpl. rewrite elem_of_list_to_set, list_elem_of_fmap, Eloc. split.
    + intros [q [[]%Hno|(Hq & <- & Hloc)]%HX]. split; [by exists q|done].
    + intros [(q & -> & Hq) Hloc]. exists q. apply HX. by right.
  - intros tid p [[]%Hno|(Hq & Et & _)]%HL. by apply Hptr.
  - intros tid p [[]%Hno|(Hq & Et & _)]%HX. by apply Hptr.
Qed.

(** The pointers it keeps are those it registered. *)
Lemma registered_ptrs (db : DatabaseImpl S) ptrs b0 b :
  (∀ p, p ∈ ptrs → ∃ t, h !! p = Some t ∧ tr_epoch t = e) → NoDup (tid_at <$> ptrs) → broadcastEpoch b0 < e →
  epoch_map e (listenTransaction b0) = ∅ → epoch_map e (broadcastTransaction b0) = ∅ →
  foldM (register debug h) ptrs b0 = Ok b →
  (∀ tid, isLocalTransaction tid b = isLocalTransaction tid b0) ∧
  ∀ tid p, listens e (mkServer b h db) !! tid = Some p ∨ executes e (mkServer b h db) !! tid = Some p → p ∈ ptrs.
Proof.
  intros Hobj Hnd He Hl0 Hx0 E. destruct (register_all ptrs b0)
    as (b' & E' & Eb & Ei & Ec & HL & HX); [done|done|done|by rewrite Hl0, Hx0|].
  rewrite E in E'. injection E' as <-. split; [intros tid; unfold isLocalTransaction; by rewrite Ei, Ec|].
  unfold listens, executes. simpl. intros tid p. rewrite HL, HX, Hl0, Hx0, lookup_empty. naive_solver.
Qed.

End Registering.

(** Changing the transactions, but not their ids, keeps a server ready. *)
Lemma ready_heap {S} cluster e T ip b h h' (db db' : DatabaseImpl S) :
  ready cluster e T ip (mkServer b h db) →
  (∀ p t, h !! p = Some t → ∃ t', h' !! p = Some t' ∧ tr_tid t' = tr_tid t) →
  ready cluster e T ip (mkServer b h' db').
Proof.
  intros [? ? ? ? ? HL HX] Hh. split; try done.
  - intros tid p Hp. destruct (HL tid p Hp) as (t & Ht & <-). by apply Hh.
  - intros tid p Hp. destruct (HX tid p Hp) as (t & Ht & <-). by apply Hh.
Qed.


(** ** Two servers *)
Module AggregationDemo.
#[local] Existing Instance Varint.varint_protobuf.
#[local] Existing Instance Varint.varint_laws.

Definition servers : list string := ["10.0.0.1"; "10.0.0.2"]%string.

(** Epoch 1 has the transactions 10 to 13.  The first server executes the even
    ones and the second the odd ones, and the second keeps them at other
    addresses. *)
Definition txn (tid : N) (r : TransactionResult) : Transaction :=
  setTransactionResult r (setTransactionID tid (setEpoch 1 MockTransaction)).
Definition heap1 : txn_heap := {[10 := txn 10 PENDING; 11 := txn 11 PENDING; 12 := txn 12 ABORT; 13 := txn 13 PENDING]}.
Definition heap2 : txn_heap := {[90 := txn 10 PENDING; 91 := txn 11 ABORT; 92 := txn 12 PENDING; 93 := txn 13 COMMIT]}.
Definition ptrs1 : list txn_ptr := [10; 11; 12; 13].
Definition ptrs2 : list txn_ptr := [93; 92; 91; 90].

Definition start (ip : string) : AggregationBroadcaster :=
  mkAB 0 (N.of_nat (rank ip servers)) (N.of_nat (length servers)) ∅ ∅.
Definition registered (ip : string) (h : txn_heap) (ptrs : list txn_ptr) : AggregationBroadcaster :=
  match foldM (register true h) ptrs (start ip) with Ok b => b | Fatal _ => start ip end.

Definition sv (ip : string) : server (S:=unit) :=
  if decide (ip = "10.0.0.1"%string)
  then mkServer (registered ip heap1 ptrs1) heap1 (new_DatabaseImpl tt)
  else mkServer (registered ip heap2 ptrs2) heap2 (new_DatabaseImpl tt).

Lemma servers_start ip : ip ∈ servers → new_broadcaster servers ip = Ok (start ip).
Proof. intros [->|[->|[]%not_elem_of_nil]%elem_of_cons]%elem_of_cons; reflexivity. Qed.

Lemma ready1 : ready servers 1 (list_to_set [10; 11; 12; 13]) "10.0.0.1" (sv "10.0.0.1").
Proof.
  apply (registered_ready true servers 1 heap1 "10.0.0.1" (new_DatabaseImpl tt) ptrs1 (start "10.0.0.1"));
    [|vm_compute; by repeat constructor; set_solver|done..|by vm_compute].
  intros p Hp. unfold ptrs1 in Hp. rewrite !elem_of_cons, elem_of_nil in Hp.
  destruct Hp as [->|[->|[->|[->|[]]]]]; eexists; split; by vm_compute.
Qed.

Lemma ready2 : ready servers 1 (list_to_set [10; 11; 12; 13]) "10.0.0.2" (sv "10.0.0.2").
Proof.
  assert (ready servers 1 (list_to_set (tid_at heap2 <$> ptrs2)) "10.0.0.2" (sv "10.0.0.2")) as Hr.
  { apply (registered_ready true servers 1 heap2 "10.0.0.2" (new_DatabaseImpl tt) ptrs2 (start "10.0.0.2"));
      [|vm_compute; by repeat constructor; set_solver|done..|by vm_compute].
    intros p Hp. unfold ptrs2 in Hp. rewrite !elem_of_cons, elem_of_nil in Hp.
    destruct Hp as [->|[->|[->|[->|[]]]]]; eexists; split; by vm_compute. }
  assert (list_to_set (tid_at heap2 <$> ptrs2) = list_to_set [10; 11; 12; 13] :> gset N) as <- by (by vm_compute).
  exact Hr.
Qed.

Lemma demo_wire ip tid p t :
  ip ∈ servers → executes 1 (sv ip) !! tid = Some p → sv_heap (sv ip) !! p = Some t → rwset_wire (kvRWSet t).
Proof.
  intros _ _ Ht. assert (kvRWSet t = empty_rwset) as ->; [|by vm_compute].
  assert (map_Forall (λ _ t, kvRWSet t = empty_rwset) heap1 ∧ map_Forall (λ _ t, kvRWSet t = empty_rwset) heap2)
    as [H1 H2] by (split; apply (bool_decide_unpack _); by vm_compute).
  unfold sv in Ht. destruct (decide _); [by apply (H1 p)|by apply (H2 p)].
Qed.

Lemma aggregation_agrees_witness :
  ∃ (msg : string → AggregationExchange) (verdict : N → TransactionResult * KVRWSet),
    (∀ k, k ∈ servers → make_exchange 1 (sv_heap (sv k)) (sv_b (sv k)) = Ok (msg k)) ∧
    (∀ k tid v, k ∈ servers → verdict_at (executes 1 (sv k)) (sv_heap (sv k)) tid = Some v → v = verdict tid) ∧
    ∀ j incoming, j ∈ servers → incoming ≡ₚ msg <$> filter (λ k, k ≠ j) servers →
      ∃ b' h' db', aggregateTransaction true 1 incoming (sv_b (sv j)) (sv_heap (sv j), sv_db (sv j)) =
                     Ok (true, Some (msg j), b', (h', db')) ∧
        (∀ tid, tid ∈ (list_to_set [10; 11; 12; 13] : gset N) →
           verdict_at (listens 1 (sv j) ∪ executes 1 (sv j)) h' tid = Some (verdict tid)) ∧
        (∀ tid, tid ∈ (list_to_set [10; 11; 12; 13] : gset N) → isLocalTransaction tid (sv_b (sv j)) = false →
           rwSetBuffer db' !! tid = listens 1 (sv j) !! tid).
Proof.
  apply (aggregation_agrees true servers).
  - by repeat constructor; set_solver.
  - intros ip [->|[->|[]%not_elem_of_nil]%elem_of_cons]%elem_of_cons; [apply ready1|apply ready2].
  - exact demo_wire.
Defined.

(** The second server learns the results of the first. *)
Example second_server_learns :
  (msg ← make_exchange 1 heap1 (sv_b (sv "10.0.0.1"));
   r ← aggregateTransaction true 1 [msg] (sv_b (sv "10.0.0.2")) (heap2, new_DatabaseImpl tt);
   Ok ((transactionResult <$> r.2.1 !! 92), (transactionResult <$> r.2.1 !! 93)))
  = Ok (Some ABORT, Some COMMIT).
Proof. vm_compute. reflexivity. Qed.

End AggregationDemo.
