(* ===== verification/AggregatedEpoch.v ===== *)
(** * An epoch with aggregation

    An epoch of [AggregationCoordinator] on a cluster of block servers: the
    workers execute the server's share of the transactions, the broadcasters
    exchange the results ([Aggregation]), the aggregation workers reserve the
    read-write sets of the others ([aggregation_transaction_executor.cpp]), and
    all workers commit.  Every server ends the epoch as if it had executed every
    transaction itself ([Aria]). *)
From S2P Require Import Prelude Transaction TransactionCodec Storage Orm Database ReserveTable Executor Aria Aggregation.
From Stdlib Require Import NArith Lia.
From stdpp Require Import base list gmap strings.

Section AggregatedEpoch.
Context `{ProtobufLaws}.
Context {S : Type} `{TableStorage S}.
Context (invoke : string → string → CC S Z).
Context {HL : ∀ h p, Local (invoke h p)}.
Context (debug : bool).

(** The aggregation workers, one after the other. *)
Fixpoint aggregate_phase (ws : list (list N)) (st : exec_state S)
    : outcome (list (list N * option N) * exec_state S) :=
  match ws with
  | [] => Ok ([], st)
  | l :: ws' =>
      '(_, rt, st) ← aggregateList debug l None st;
      '(rest, st) ← aggregate_phase ws' st;
      Ok ((l, rt) :: rest, st)
  end.

(** The message a server sends after executing its share. *)
Definition sent (e : N) (local : list (list N)) (b : AggregationBroadcaster) (st : exec_state S)
    : outcome AggregationExchange :=
  '(_, st) ← read_phase invoke debug local st; make_exchange e (ex_heap st) b.

(** The whole epoch on one server, [incoming] being the messages of the others. *)
Definition aggregated_epoch (e : N) (local remote : list (list N))
    (order : list (list N * option N) → list (list N * option N))
    (incoming : list AggregationExchange) (b : AggregationBroadcaster) (st : exec_state S)
    : outcome (exec_state S) :=
  '(ws1, st) ← read_phase invoke debug local st;
  '(_, _, _, (h, db)) ← aggregateTransaction debug e incoming b (ex_heap st, ex_db st);
  '(ws2, st) ← aggregate_phase remote (mkExec h db (ex_table st));
  commit_phase debug (order (ws1 ++ ws2)) st.

(** ** Reserving what the others executed *)
Section Reserving.
Context (e : N) (ps : list N) (st0 : exec_state S).
Context (Hready : epoch_ready invoke e ps st0).
Local Notation s0 := (storage (ex_db st0)).
Local Notation h0 := (ex_heap st0).

(** Every transaction is executed, here or elsewhere; [dn] have reserved. *)
Record agg_inv (dn : list N) (st : exec_state S) : Prop := {
  ai_view c : view (storage (ex_db st)) c = view s0 c;
  ai_heap p : ex_heap st !! p = if decide (p ∈ ps) then executed invoke s0 <$> h0 !! p else h0 !! p;
  ai_table : ex_table st = Some (reserve_all (reserved invoke s0 h0 dn) (new_MockReserveTable e)) ∨
    (dn = [] ∧ ∀ tb, ex_table st = Some tb → mrt_epoch tb ≠ e);
  ai_buf p t : p ∈ ps → h0 !! p = Some t →
    rwSetBuffer (ex_db st) !! tr_tid t = Some p ∧
    tableListBuffer (ex_db st) !! tr_tid t = Some (sim_tables invoke s0 t);
  ai_phase : commitPhase (ex_db st) = false }.

Lemma agg_read_inv ex st : ps ≠ [] → ex ≡ₚ ps → agg_inv ex st → read_inv invoke e s0 h0 ex st.
Proof.
  intros Hne Hex [Hv Hh Ht Hb Hp]. split; [done| | | |done].
  - intros p. rewrite Hh. apply decide_ext. by rewrite Hex.
  - destruct Ht as [?|[-> _]]; [done|]. by apply Permutation_nil_l in Hex.
  - intros p t Hin. apply Hb. by rewrite <-Hex.
Qed.

Lemma agg_txn p : p ∈ ps → ∃ t, h0 !! p = Some t ∧ fresh_txn e t.
Proof. intros Hp. destruct (er_txn _ _ _ _ Hready p Hp) as (t & ? & ?). by exists t. Qed.

Lemma aggregate_txn_step dn p st :
  agg_inv dn st → ex_table st = Some (reserve_all (reserved invoke s0 h0 dn) (new_MockReserveTable e)) → p ∈ ps →
  ∃ st', aggregate_txn debug e p st = Ok st' ∧ agg_inv (dn ++ [p]) st' ∧
    ex_table st' = Some (reserve_all (reserved invoke s0 h0 (dn ++ [p])) (new_MockReserveTable e)).
Proof.
  intros [Hv Hh _ Hb Hph] Ht Hp. destruct (agg_txn p Hp) as (t & Et & Ft). unfold aggregate_txn.
  rewrite Hh, decide_True, Et by done. simpl.
  assert (reserved invoke s0 h0 (dn ++ [p]) = reserved invoke s0 h0 dn ++
    (if (sim_ret invoke s0 t =? 0)%Z then [] else [(sim_rw invoke s0 t, tr_tid t)])) as Hres.
  { unfold reserved. rewrite omap_app. simpl. f_equal. unfold reservation. rewrite Et. simpl.
    by destruct (sim_ret invoke s0 t =? 0)%Z. }
  assert (∀ tb, tb = reserve_all (reserved invoke s0 h0 (dn ++ [p])) (new_MockReserveTable e) →
    agg_inv (dn ++ [p]) (mkExec (ex_heap st) (ex_db st) (Some tb))) as Hdone.
  { intros tb ->. split; simpl; try done. by left. }
  unfold executed. destruct (sim_ret invoke s0 t =? 0)%Z eqn:Ez; simpl.
  - rewrite app_nil_r in Hres. exists st. rewrite Hres. split_and!; [done| |done].
    destruct st. simpl in *. subst. rewrite <-Hres. by apply Hdone; rewrite Hres.
  - rewrite (ft_result _ _ Ft), bool_decide_false, bool_decide_true by done.
    assert (DCHECK debug true = Ok tt) as -> by (by destruct debug). simpl. unfold with_table. rewrite Ht. simpl.
    rewrite reserve_all_epoch. simpl. rewrite N.eqb_refl. eexists. split; [done|].
    assert (reserveRWSet (sim_rw invoke s0 t) (tr_tid t) (reserve_all (reserved invoke s0 h0 dn) (new_MockReserveTable e)) =
      reserve_all (reserved invoke s0 h0 (dn ++ [p])) (new_MockReserveTable e)) as ->.
    { rewrite Hres. unfold reserve_all. by rewrite foldl_app. }
    split; [|done]. by apply Hdone.
Qed.

Lemma aggregate_txns l : ∀ dn st,
  agg_inv dn st → ex_table st = Some (reserve_all (reserved invoke s0 h0 dn) (new_MockReserveTable e)) →
  (∀ p, p ∈ l → p ∈ ps) →
  ∃ st', foldM (aggregate_txn debug e) l st = Ok st' ∧ agg_inv (dn ++ l) st'.
Proof.
  induction l as [|p l IH]; intros dn st Hinv Ht Hin; [exists st; by rewrite app_nil_r|].
  destruct (aggregate_txn_step dn p st Hinv Ht) as (st1 & E1 & Hinv1 & Ht1); [apply Hin; by left|].
  simpl. rewrite E1. simpl. rewrite (assoc_L (++) dn [p] l : dn ++ p :: l = (dn ++ [p]) ++ l).
  apply IH; [done|done|]. intros q Hq. apply Hin. by right.
Qed.

Lemma agg_getReserveTable dn st :
  agg_inv dn st → ∃ st', getReserveTable e st = (e, st') ∧ agg_inv dn st' ∧
    ex_table st' = Some (reserve_all (reserved invoke s0 h0 dn) (new_MockReserveTable e)).
Proof.
  intros [Hv Hh Ht Hb Hp]. unfold getReserveTable, getHashMapReserveTable.
  destruct Ht as [Ht|[-> Ht]]; [rewrite Ht, reserve_all_epoch; simpl; rewrite N.eqb_refl, reserve_all_epoch|
    destruct (ex_table st) as [tb|] eqn:E; [rewrite (proj2 (N.eqb_neq _ _)) by (apply not_eq_sym, Ht; done)|]];
    simpl; (eexists; split; [done|]); (split; [split; simpl; try done; by left|done]).
Qed.

Lemma aggregateList_inv l rt0 dn st :
  agg_inv dn st → (∀ p, p ∈ l → p ∈ ps) →
  ∃ b rt st', aggregateList debug l rt0 st = Ok (b, rt, st') ∧ agg_inv (dn ++ l) st' ∧ (l ≠ [] → rt = Some e).
Proof.
  intros Hinv Hin. destruct l as [|p l]; [exists false, rt0, st; by rewrite app_nil_r|].
  destruct (agg_txn p) as (t & Et & Ft); [apply Hin; by left|].
  assert (∃ t', ex_heap st !! p = Some t' ∧ tr_epoch t' = e) as (t' & Et' & Ee).
  { exists (executed invoke s0 t). rewrite (ai_heap _ _ Hinv), decide_True, Et by (apply Hin; by left). split; [done|].
    unfold executed. by destruct (sim_ret invoke s0 t =? 0)%Z; simpl; rewrite (ft_epoch _ _ Ft). }
  unfold aggregateList. rewrite Et'. simpl. rewrite Ee.
  destruct (agg_getReserveTable dn st Hinv) as (st1 & -> & Hinv1 & Ht1).
  destruct (aggregate_txns (p :: l) dn st1 Hinv1 Ht1 Hin) as (st2 & E2 & Hinv2). simpl in E2. rewrite E2. simpl.
  by exists true, (Some e), st2.
Qed.

Lemma aggregate_phase_inv ws : ∀ dn st,
  agg_inv dn st → (∀ p, p ∈ concat ws → p ∈ ps) →
  ∃ ws' st', aggregate_phase ws st = Ok (ws', st') ∧ agg_inv (dn ++ concat ws) st' ∧ ws'.*1 = ws ∧
    Forall (λ w, w.1 ≠ [] → w.2 = Some e) ws'.
Proof.
  induction ws as [|l ws IH]; intros dn st Hinv Hin; simpl in *.
  { exists [], st. rewrite app_nil_r. by split_and!. }
  destruct (aggregateList_inv l None dn st Hinv) as (b & rt & st1 & E1 & Hinv1 & Hrt).
  { intros p Hp. apply Hin, elem_of_app. by left. }
  rewrite E1. simpl. destruct (IH (dn ++ l) st1 Hinv1) as (ws' & st2 & E2 & Hinv2 & Hf & Hrts).
  { intros p Hp. apply Hin, elem_of_app. by right. }
  rewrite E2. simpl. exists ((l, rt) :: ws'), st2. rewrite (assoc_L (++)).
  split_and!; [done|done|by rewrite fmap_cons, Hf|by constructor].
Qed.

End Reserving.

(** ** The cluster *)

(** A block server at the beginning of an epoch: its broadcaster with the
    epoch's transactions registered, its state, where it keeps the transactions
    and the workloads for its own share and for the share of the others. *)
Record peer := mkPeer {
  pr_b : AggregationBroadcaster;
  pr_st : exec_state S;
  pr_txns : list N;
  pr_local : list (list N);
  pr_remote : list (list N) }.

Section Cluster.
Context (cluster : list string) (Hcluster : NoDup cluster).
(** The requests of epoch [e], by transaction id. *)
Context (e : N) (T : gmap N TransactionPayload).
Context (P : string → peer).

(** All servers hold the epoch and the same database.  Two conditions are needed
    because of what the exchange does not carry: no request creates a table
    ([pd_tables]; the tables of a transaction are not sent), and the read-write
    set of every transaction survives the wire ([pd_wire]; a set with a table or
    a key that is not UTF-8, or too long, does not parse, and the receiver goes
    on with what was parsed). *)
Record peer_ready (k : string) : Prop := {
  pd_ready : epoch_ready invoke e (pr_txns (P k)) (pr_st (P k));
  pd_txns tid payload : T !! tid = Some payload ↔
    ∃ p t, p ∈ pr_txns (P k) ∧ ex_heap (pr_st (P k)) !! p = Some t ∧ tr_tid t = tid ∧ transactionPayload t = payload;
  pd_registered : ∃ b0, localID b0 = N.of_nat (rank k cluster) ∧ totalServerCount b0 = N.of_nat (length cluster) ∧
    (broadcastEpoch b0 < e)%N ∧ epoch_map e (listenTransaction b0) = ∅ ∧ epoch_map e (broadcastTransaction b0) = ∅ ∧
    foldM (register debug (ex_heap (pr_st (P k)))) (pr_txns (P k)) b0 = Ok (pr_b (P k));
  pd_local : concat (pr_local (P k)) ≡ₚ
    filter (λ p, isLocalTransaction (tid_at (ex_heap (pr_st (P k))) p) (pr_b (P k)) = true) (pr_txns (P k));
  pd_remote : concat (pr_remote (P k)) ≡ₚ
    filter (λ p, isLocalTransaction (tid_at (ex_heap (pr_st (P k))) p) (pr_b (P k)) = false) (pr_txns (P k));
  pd_storage k' c : k' ∈ cluster → view (storage (ex_db (pr_st (P k)))) c = view (storage (ex_db (pr_st (P k')))) c;
  pd_tables p t : p ∈ pr_txns (P k) → ex_heap (pr_st (P k)) !! p = Some t →
    sim_tables invoke (storage (ex_db (pr_st (P k)))) t = [];
  pd_wire p t : p ∈ pr_txns (P k) → ex_heap (pr_st (P k)) !! p = Some t →
    rwset_wire (kvRWSet (executed invoke (storage (ex_db (pr_st (P k)))) t)) }.
Context (HP : ∀ k, k ∈ cluster → peer_ready k).

Local Notation st0 k := (pr_st (P k)).
Local Notation s0 k := (storage (ex_db (pr_st (P k)))).
Local Notation h0 k := (ex_heap (pr_st (P k))).
Local Notation ps k := (pr_txns (P k)).

(** A transaction does the same on every server. *)
Lemma run_same s s' t u :
  runs_ok invoke s t → (∀ c, view s' c = view s c) → tr_tid u = tr_tid t → transactionPayload u = transactionPayload t →
  sim_ret invoke s' u = sim_ret invoke s t ∧ sim_rw invoke s' u = sim_rw invoke s t.
Proof.
  intros (r & c & E & _) Hv Etid Epl. destruct (run_of_view invoke s s' t r c E Hv) as (c' & E' & Hrw & _).
  assert (run_of invoke s' u = run_of invoke s' t) as Eu by (unfold run_of; by rewrite Etid, Epl).
  unfold sim_ret, sim_rw. by rewrite Eu, E', E, Hrw.
Qed.

Lemma peer_nodup k : k ∈ cluster → NoDup (tid_at (h0 k) <$> ps k).
Proof.
  intros Hk. pose proof (pd_ready k (HP k Hk)) as Hr. apply NoDup_fmap_2_strong; [|apply (er_nodup _ _ _ _ Hr)].
  intros p q Hp Hq. destruct (er_txn _ _ _ _ Hr p Hp) as (t & Et & _), (er_txn _ _ _ _ Hr q Hq) as (u & Eu & _).
  unfold tid_at. rewrite Et, Eu. simpl. by apply (er_tids _ _ _ _ Hr).
Qed.

Lemma peer_objects k p : k ∈ cluster → p ∈ ps k → ∃ t, h0 k !! p = Some t ∧ tr_epoch t = e.
Proof.
  intros Hk Hp. destruct (er_txn _ _ _ _ (pd_ready k (HP k Hk)) p Hp) as (t & Et & Ft). exists t. by destruct Ft.
Qed.

(** *** Executing the own share *)
Lemma local_phase k :
  k ∈ cluster → ∃ ws st1, read_phase invoke debug (pr_local (P k)) (st0 k) = Ok (ws, st1) ∧
    Aria.between invoke e (st0 k) (concat (pr_local (P k))) st1 ∧ ws.*1 = pr_local (P k) ∧
    Forall (λ w, w.1 ≠ [] → w.2 = Some e) ws.
Proof.
  intros Hk. destruct (HP k Hk).
  apply (read_phase_between invoke debug e (ps k) (st0 k) pd_ready0 (pr_local (P k)) [] (st0 k)); simpl.
  - by left.
  - rewrite pd_local0. apply NoDup_filter, (er_nodup _ _ _ _ pd_ready0).
  - intros p. rewrite pd_local0, list_elem_of_filter. naive_solver.
Qed.

Definition after (k : string) : exec_state S :=
  match read_phase invoke debug (pr_local (P k)) (st0 k) with Ok (_, st1) => st1 | Fatal _ => st0 k end.
Definition sv (k : string) : server := mkServer (pr_b (P k)) (ex_heap (after k)) (ex_db (after k)).

Lemma after_between k : k ∈ cluster → Aria.between invoke e (st0 k) (concat (pr_local (P k))) (after k).
Proof. intros Hk. destruct (local_phase k Hk) as (ws & st1 & E & Hb & _). unfold after. by rewrite E. Qed.

Lemma local_elem k p t :
  k ∈ cluster → p ∈ ps k → h0 k !! p = Some t →
  p ∈ concat (pr_local (P k)) ↔ isLocalTransaction (tr_tid t) (pr_b (P k)) = true.
Proof.
  intros Hk Hp Et. rewrite (pd_local k (HP k Hk)), list_elem_of_filter. unfold tid_at. rewrite Et. naive_solver.
Qed.

(** What the heap holds after executing the own share. *)
Lemma after_heap k p t :
  k ∈ cluster → p ∈ ps k → h0 k !! p = Some t →
  ex_heap (after k) !! p = Some (if isLocalTransaction (tr_tid t) (pr_b (P k)) then executed invoke (s0 k) t else t).
Proof.
  intros Hk Hp Et. pose proof (local_elem k p t Hk Hp Et) as Hloc.
  destruct (after_between k Hk) as [[E ->]|Hi].
  - rewrite E in Hloc. destruct (isLocalTransaction _ _); [|done].
    by destruct (not_elem_of_nil p); apply Hloc.
  - rewrite (ri_heap _ _ _ _ _ _ Hi), Et. destruct (isLocalTransaction _ _).
    + by rewrite decide_True by (by apply Hloc).
    + rewrite decide_False by (by rewrite Hloc). done.
Qed.

Lemma after_other k p : k ∈ cluster → p ∉ ps k → ex_heap (after k) !! p = h0 k !! p.
Proof.
  intros Hk Hp. destruct (after_between k Hk) as [[_ ->]|Hi]; [done|].
  rewrite (ri_heap _ _ _ _ _ _ Hi), decide_False; [done|].
  rewrite (pd_local k (HP k Hk)), list_elem_of_filter. naive_solver.
Qed.

Lemma executed_tid s t : tr_tid (executed invoke s t) = tr_tid t.
Proof. unfold executed. by destruct (_ =? 0)%Z. Qed.

Lemma dom_tids k : k ∈ cluster → dom T = list_to_set (tid_at (h0 k) <$> ps k).
Proof.
  intros Hk. apply set_eq. intros tid. rewrite elem_of_list_to_set, list_elem_of_fmap, elem_of_dom. split.
  - intros [pl (p & t & Hp & Et & <- & _)%(pd_txns k (HP k Hk))]. exists p. unfold tid_at. by rewrite Et.
  - intros (p & -> & Hp). destruct (peer_objects k p Hk Hp) as (t & Et & _). unfold tid_at. rewrite Et. simpl.
    exists (transactionPayload t). apply (pd_txns k (HP k Hk)). by exists p, t.
Qed.

Lemma sv_ready k : k ∈ cluster → ready cluster e (dom T) k (sv k).
Proof.
  intros Hk. destruct (pd_registered k (HP k Hk)) as (b0 & R1 & R2 & R3 & R4 & R5 & E). rewrite (dom_tids k Hk).
  apply (ready_heap _ _ _ _ _ (h0 k) _ (ex_db (st0 k))).
  - apply (registered_ready debug cluster e (h0 k) k (ex_db (st0 k)) (ps k) b0); [|by apply peer_nodup|done..].
    intros p Hp. by apply peer_objects.
  - intros p t Et. destruct (decide (p ∈ ps k)) as [Hp|Hp].
    + rewrite (after_heap k p t Hk Hp Et). eexists. split; [done|].
      destruct (isLocalTransaction _ _); [apply executed_tid|done].
    + rewrite (after_other k p Hk Hp). by exists t.
Qed.

Lemma kept_ptrs k tid p :
  k ∈ cluster → listens e (sv k) !! tid = Some p ∨ executes e (sv k) !! tid = Some p → p ∈ ps k.
Proof.
  intros Hk. destruct (pd_registered k (HP k Hk)) as (b0 & R1 & R2 & R3 & R4 & R5 & E).
  destruct (registered_ptrs debug e (h0 k) (ex_db (st0 k)) (ps k) b0 (pr_b (P k))) as [_ Hp]; try done.
  - intros q Hq. by apply peer_objects.
  - by apply peer_nodup.
  - apply Hp.
Qed.

(** A pointer kept under an id is the transaction with that id. *)
Lemma kept_txn k tid p :
  k ∈ cluster → listens e (sv k) !! tid = Some p ∨ executes e (sv k) !! tid = Some p →
  ∃ t, p ∈ ps k ∧ h0 k !! p = Some t ∧ tr_tid t = tid.
Proof.
  intros Hk Hp. pose proof (kept_ptrs k tid p Hk Hp) as Hps. destruct (peer_objects k p Hk Hps) as (t & Et & _).
  exists t. split_and!; [done|done|]. destruct (sv_ready k Hk).
  assert (∃ t', sv_heap (sv k) !! p = Some t' ∧ tr_tid t' = tid) as (t' & Et' & <-) by (destruct Hp; eauto).
  simpl in Et'. rewrite (after_heap k p t Hk Hps Et) in Et'. injection Et' as <-.
  destruct (isLocalTransaction _ _); [by rewrite executed_tid|done].
Qed.

Lemma sv_wire k tid p t :
  k ∈ cluster → executes e (sv k) !! tid = Some p → sv_heap (sv k) !! p = Some t → rwset_wire (kvRWSet t).
Proof.
  intros Hk Hp Ht. destruct (kept_txn k tid p Hk (or_intror Hp)) as (u & Hps & Eu & Etid).
  destruct (proj1 (rd_executes _ _ _ _ _ (sv_ready k Hk) tid)) as [_ Hloc]; [by eexists|]. simpl in Ht, Hloc.
  rewrite (after_heap k p u Hk Hps Eu), Etid, Hloc in Ht. injection Ht as <-. by apply (pd_wire k (HP k Hk) p).
Qed.

(** What the responsible server found is what this server would have found. *)
Lemma found_here k p t :
  k ∈ cluster → p ∈ ps k → h0 k !! p = Some t →
  found cluster e sv (tr_tid t) = verdict_of (executed invoke (s0 k) t).
Proof.
  intros Hk Hp Et. assert (cluster ≠ []) as Hne by (intros E; rewrite E in Hk; by apply not_elem_of_nil in Hk).
  destruct (home_local cluster Hcluster e (dom T) sv sv_ready (tr_tid t) Hne) as [Hh Hloc].
  set (k' := home cluster (tr_tid t)) in *.
  assert (T !! tr_tid t = Some (transactionPayload t)) as HT by (apply (pd_txns k (HP k Hk)); by exists p, t).
  destruct (proj2 (rd_executes _ _ _ _ _ (sv_ready k' Hh) (tr_tid t))) as [q Hq].
  { split; [apply elem_of_dom; by eexists|done]. }
  destruct (kept_txn k' (tr_tid t) q Hh (or_intror Hq)) as (u & Hqs & Eu & Etid).
  destruct (executes_found cluster e (dom T) sv sv_ready k' (tr_tid t) q Hh Hq) as (u' & Eu' & <-).
  simpl in Eu'. rewrite (after_heap k' q u Hh Hqs Eu), Etid in Eu'. simpl in Hloc. rewrite Hloc in Eu'.
  injection Eu' as <-.
  assert (T !! tr_tid u = Some (transactionPayload u)) as HT' by (apply (pd_txns k' (HP k' Hh)); by exists q, u).
  assert (transactionPayload u = transactionPayload t) as Epl by congruence.
  destruct (run_same (s0 k) (s0 k') t u) as [Er Erw].
  - by apply (er_runs _ _ _ _ (pd_ready k (HP k Hk)) p).
  - intros c. by apply (pd_storage k' (HP k' Hh)).
  - done.
  - done.
  - destruct (er_txn _ _ _ _ (pd_ready k (HP k Hk)) p Hp) as (t2 & Et2 & Ft).
    destruct (er_txn _ _ _ _ (pd_ready k' (HP k' Hh)) q Hqs) as (u2 & Eu2 & Fu). simplify_eq.
    unfold verdict_of, executed. rewrite Er, Erw. destruct (_ =? 0)%Z; simpl; [done|].
    by rewrite (ft_result _ _ Ft), (ft_result _ _ Fu).
Qed.

(** *** After the exchange *)
Lemma after_table k : k ∈ cluster →
  ex_table (after k) = Some (reserve_all (reserved invoke (s0 k) (h0 k) (concat (pr_local (P k)))) (new_MockReserveTable e)) ∨
  (concat (pr_local (P k)) = [] ∧ ∀ tb, ex_table (after k) = Some tb → mrt_epoch tb ≠ e).
Proof.
  intros Hk. destruct (after_between k Hk) as [[E ->]|Hi]; [right|left; by apply ri_table].
  split; [done|]. apply (er_table _ _ _ _ (pd_ready k (HP k Hk))).
Qed.

Lemma after_db k p t :
  k ∈ cluster → p ∈ ps k → h0 k !! p = Some t → isLocalTransaction (tr_tid t) (pr_b (P k)) = true →
  rwSetBuffer (ex_db (after k)) !! tr_tid t = Some p ∧
  tableListBuffer (ex_db (after k)) !! tr_tid t = Some (sim_tables invoke (s0 k) t) ∧
  commitPhase (ex_db (after k)) = false.
Proof.
  intros Hk Hp Et Hloc. apply (local_elem k p t Hk Hp Et) in Hloc.
  destruct (after_between k Hk) as [[E ->]|Hi]; [rewrite E in Hloc; by apply not_elem_of_nil in Hloc|].
  destruct (ri_buf _ _ _ _ _ _ Hi p t Hloc Et) as [-> ->]. split_and!; [done|done|].
  apply (ri_phase _ _ _ _ _ _ Hi). intros E. rewrite E in Hloc. by apply not_elem_of_nil in Hloc.
Qed.

Lemma after_view k c : k ∈ cluster → view (storage (ex_db (after k))) c = view (s0 k) c.
Proof. intros Hk. destruct (after_between k Hk) as [[_ ->]|Hi]; [done|]. by apply (ri_view _ _ _ _ _ _ Hi). Qed.

Lemma stamp_executed k p t :
  k ∈ cluster → p ∈ ps k → h0 k !! p = Some t →
  stamp (verdict_of (executed invoke (s0 k) t)) t = executed invoke (s0 k) t.
Proof.
  intros Hk Hp Et. destruct (er_txn _ _ _ _ (pd_ready k (HP k Hk)) p Hp) as (t2 & Et2 & [? ? Hr ? ?]). simplify_eq.
  unfold stamp, verdict_of, executed. destruct (_ =? 0)%Z; simpl; [done|]. destruct t. simpl in *. by subst.
Qed.

Lemma txn_in_epoch k p t : k ∈ cluster → p ∈ ps k → h0 k !! p = Some t → tr_tid t ∈ dom T.
Proof.
  intros Hk Hp Et. rewrite (dom_tids k Hk). apply elem_of_list_to_set, list_elem_of_fmap. exists p.
  unfold tid_at. by rewrite Et.
Qed.

Lemma txn_listened k p t :
  k ∈ cluster → p ∈ ps k → h0 k !! p = Some t → isLocalTransaction (tr_tid t) (pr_b (P k)) = false →
  listens e (sv k) !! tr_tid t = Some p.
Proof.
  intros Hk Hp Et Hl. destruct (proj2 (rd_listens _ _ _ _ _ (sv_ready k Hk) (tr_tid t))) as [q Hq].
  { split; [by eapply txn_in_epoch|done]. }
  destruct (kept_txn k (tr_tid t) q Hk (or_introl Hq)) as (u & Hqs & Eu & Etid).
  by rewrite <-(er_tids _ _ _ _ (pd_ready k (HP k Hk)) q p u t Hqs Hp Eu Et Etid).
Qed.

Section Server.
Context (j : string) (ks : list string) (Hj : j ∈ cluster) (Hks : filter (λ k, k ≠ j) cluster ≡ₚ ks).

Lemma exchange_inv : ps j ≠ [] →
  ∃ b' h' db',
    aggregateTransaction debug e (message cluster e sv <$> ks) (pr_b (P j)) (ex_heap (after j), ex_db (after j)) =
      Ok (true, Some (message cluster e sv j), b', (h', db')) ∧
    agg_inv e (ps j) (st0 j) (concat (pr_local (P j))) (mkExec h' db' (ex_table (after j))).
Proof.
  intros Hne. destruct (messages_received cluster Hcluster e (dom T) sv sv_ready sv_wire j ks Hj Hks)
    as (h' & db' & E & Hset & Hkeep & Hrem & Hloc & Hsto).
  destruct (aggregate_received debug cluster e (dom T) sv sv_ready j ks Hj h' db' E) as [b' Eb].
  exists b', h', db'. split; [done|].
  pose proof (txn_in_epoch j) as HT. pose proof (txn_listened j) as Hlist.
  split; simpl.
  - intros c. rewrite Hsto. by apply after_view.
  - intros p. destruct (decide (p ∈ ps j)) as [Hp|Hp].
    + destruct (peer_objects j p Hj Hp) as (t & Et & _). pose proof (after_heap j p t Hj Hp Et) as Ha. rewrite Et. simpl.
      destruct (isLocalTransaction (tr_tid t) (pr_b (P j))) eqn:El.
      * rewrite Hkeep; [done|]. intros tid Htid.
        destruct (kept_txn j tid p Hj (or_introl Htid)) as (t' & _ & Et' & <-). simplify_eq.
        destruct (proj1 (rd_listens _ _ _ _ _ (sv_ready j Hj) (tr_tid t))) as [_ Hf]; [by eexists|].
        simpl in Hf. congruence.
      * rewrite (Hset (tr_tid t) p t); [|by eapply HT|by apply Hlist|done].
        rewrite (found_here j p t Hj Hp Et). by rewrite (stamp_executed j p t Hj Hp Et).
    + rewrite Hkeep; [by apply after_other|]. intros tid Htid. apply Hp. by eapply kept_ptrs; [|left].
  - by apply after_table.
  - intros p t Hp Et. destruct (isLocalTransaction (tr_tid t) (pr_b (P j))) eqn:El.
    + destruct (after_db j p t Hj Hp Et El) as (B1 & B2 & B3).
      destruct (Hloc (tr_tid t) El B3) as (-> & -> & _). done.
    + destruct (Hrem (tr_tid t)) as (-> & -> & _); [by eapply HT|done|].
      by rewrite (pd_tables j (HP j Hj) p t Hp Et), (Hlist p t Hj Hp Et El).
  - destruct (ps j) as [|p l] eqn:Eps; [done|]. assert (p ∈ ps j) as Hp by (rewrite Eps; by left).
    destruct (peer_objects j p Hj Hp) as (t & Et & _). rewrite <-Eps in *.
    destruct (isLocalTransaction (tr_tid t) (pr_b (P j))) eqn:El.
    + destruct (after_db j p t Hj Hp Et El) as (_ & _ & B3). by destruct (Hloc (tr_tid t) El B3) as (_ & _ & ->).
    + by destruct (Hrem (tr_tid t)) as (_ & _ & ->); [by eapply HT|done|].
Qed.

Lemma aggregated_epoch_result order :
  ps j ≠ [] → (∀ l, order l ≡ₚ l) →
  ∃ st, aggregated_epoch e (pr_local (P j)) (pr_remote (P j)) order (message cluster e sv <$> ks) (pr_b (P j)) (st0 j)
      = Ok st ∧ epoch_result invoke e (ps j) (st0 j) st.
Proof.
  intros Hne Hord. pose proof (HP j Hj) as [Hr _ _ Hl Hm _ _ _]. unfold aggregated_epoch.
  destruct (local_phase j Hj) as (ws1 & st1 & E1 & _ & Hf1 & Hrt1). pose proof exchange_inv as Hex. revert Hex.
  unfold after. rewrite E1. intros Hex. destruct (Hex Hne) as (b' & h' & db' & E2 & Hinv). simpl. rewrite E2. simpl.
  assert (∀ p, p ∈ concat (pr_remote (P j)) → p ∈ ps j) as Hin
    by (intros p; rewrite Hm, list_elem_of_filter; naive_solver).
  destruct (aggregate_phase_inv e (ps j) (st0 j) Hr (pr_remote (P j)) _ _ Hinv Hin)
    as (ws2 & st2 & E3 & Hinv2 & Hf2 & Hrt2). rewrite E3. simpl.
  set (ex := concat (pr_local (P j)) ++ concat (pr_remote (P j))) in *.
  assert (ex ≡ₚ ps j) as Hexp.
  { unfold ex. rewrite Hl, Hm. clear. induction (ps j) as [|p l IH]; [done|]. rewrite !filter_cons.
    destruct (isLocalTransaction _ _); simpl; [by rewrite IH|]. by rewrite <-Permutation_middle, IH. }
  assert (concat (order (ws1 ++ ws2)).*1 ≡ₚ ps j) as Hperm.
  { rewrite (Hord _), fmap_app, concat_app, Hf1, Hf2. done. }
  pose proof (agg_read_inv e (ps j) (st0 j) ex st2 Hne Hexp Hinv2) as Hri.
  pose proof (read_commit_inv invoke e (ps j) (st0 j) ex Hexp st2 Hri) as Hci.
  destruct (commit_phase_inv invoke debug e (ps j) (st0 j) Hr ex (order (ws1 ++ ws2)) [] st2 Hci) as (st3 & E4 & Hci3).
  { rewrite (Hord _). by apply Forall_app. }
  { simpl. rewrite Hperm. apply (er_nodup _ _ _ _ Hr). }
  { intros p. by rewrite Hperm. }
  exists st3. split; [done|]. by apply (commit_inv_result invoke e (ps j) (st0 j) Hr ex _ st3 Hexp Hperm Hci3).
Qed.

End Server.

(** C8: an epoch with aggregation is an epoch of Aria.  Let the servers of a
    cluster hold the same requests and the same database, let no request create
    a table, and let the read-write set of every request survive the wire: tables
    and keys are UTF-8 and the message is below 2 GiB ([peer_ready]).  Then every
    server can execute its share and send its message; and whatever the order in
    which a server handles the messages of the others and commits its workloads,
    it finishes the epoch with the same transaction results, read-write sets and
    database contents as a server that executes all transactions itself. *)
Theorem aggregation_equivalent :
  ∃ msg, (∀ k, k ∈ cluster → sent e (pr_local (P k)) (pr_b (P k)) (st0 k) = Ok (msg k)) ∧
    ∀ j incoming order ws order', j ∈ cluster → ps j ≠ [] → incoming ≡ₚ msg <$> filter (λ k, k ≠ j) cluster →
      (∀ l, order l ≡ₚ l) → concat ws ≡ₚ ps j → (∀ l, order' l ≡ₚ l) →
      ∃ st st', aggregated_epoch e (pr_local (P j)) (pr_remote (P j)) order incoming (pr_b (P j)) (st0 j) = Ok st ∧
        aria_epoch invoke debug ws order' (st0 j) = Ok st' ∧
        (∀ p, ex_heap st !! p = ex_heap st' !! p) ∧
        ∀ c, view (storage (ex_db st)) c = view (storage (ex_db st')) c.
Proof.
  exists (message cluster e sv). split.
  - intros k Hk. unfold sent. destruct (local_phase k Hk) as (ws & st1 & E & _). rewrite E. simpl.
    pose proof (make_exchange_ok cluster e (dom T) sv sv_ready k Hk) as Hm. simpl in Hm. unfold after in Hm.
    by rewrite E in Hm.
  - intros j incoming order ws order' Hj Hne Hin Hord Hws Hord'. apply Permutation_map_inv in Hin as (ks & -> & Hks).
    change (map (message cluster e sv) ks) with (message cluster e sv <$> ks).
    destruct (aggregated_epoch_result j ks Hj Hks order Hne Hord) as (st & E & Hh & Hv).
    destruct (aria_epoch_result invoke debug e (ps j) (st0 j) (pd_ready j (HP j Hj)) ws order' Hne Hws Hord')
      as (st' & E' & Hh' & Hv').
    exists st, st'. split_and!; [done|done| |].
    + intros p. by rewrite Hh, Hh'.
    + intros c. by rewrite Hv, Hv'.
Qed.

End Cluster.

End AggregatedEpoch.
