(* ===== verification/WorkloadSize.v ===== *)
(** * The sizes of workloads

    [coordinator/workload_size_adapter.h]: the adapter remembers how many
    transactions the last five epochs had and computes from their average, in
    floating point, how many a workload should have at least and at most. *)
From S2P Require Import Prelude Double.
From Stdlib Require Import ZArith NArith Lia QArith Lqa.
From stdpp Require Import base list numbers.

Local Open Scope N_scope.

Record WorkloadSizeAdapter := mkWSA {
  cacheEpoch : N;
  cacheCountList : list N;
  aggregateServerCount : N;
  coreCount : N;
  minTxCount : N;
  maxTxCount : N }.

Definition cacheSize : N := 5.
Definition recommendMaxTx : N := 1000.
Definition recommendMinTx : N := 500.
Definition minTxThreadHold : N := 5.

(** [processors] is what sysconf returns. *)
Definition new_WorkloadSizeAdapter (processors servers : N) : WorkloadSizeAdapter :=
  mkWSA 1 (replicate 5 3000) servers (processors / 2 + 1) recommendMinTx recommendMaxTx.

Definition setAggregateServerCount (n : N) (a : WorkloadSizeAdapter) : WorkloadSizeAdapter :=
  mkWSA (cacheEpoch a) (cacheCountList a) n (coreCount a) (minTxCount a) (maxTxCount a).

Definition average (counts : list N) : double :=
  let '(averageCnt, zeros) :=
    foldl (λ '(averageCnt, zeros) cnt,
      (dadd averageCnt (double_of_N cnt), if N.eqb cnt 0 then (zeros + 1)%Z else zeros))
      (double_of_Z 0, 0%Z) counts in
  ddiv averageCnt (double_of_Z (Z.of_N cacheSize - zeros)).

(** The size of a workload if a worker should get about [recommend]
    transactions. *)
Definition size_for (servers cores recommend : N) (averageCnt : double) : double :=
  let factor := dadd (ddiv averageCnt (double_of_N (u64 (u64 (servers * cores) * recommend)))) (double_of_Z 1) in
  ddiv averageCnt (dmul (double_of_N cores) factor).

Definition calculateBestWorkloadSize (servers cores : N) (counts : list N) : outcome (N * N) :=
  let averageCnt := average counts in
  let minTxTmpCount := size_for servers cores recommendMinTx averageCnt in
  let maxTxTmpCount := size_for servers cores recommendMaxTx averageCnt in
  let minTxTmpCount :=
    if dlt minTxTmpCount (double_of_N minTxThreadHold) then double_of_N minTxThreadHold else minTxTmpCount in
  minTx ← size_of_double minTxTmpCount;
  maxTx ← size_of_double (if dlt maxTxTmpCount minTxTmpCount then minTxTmpCount else maxTxTmpCount);
  Ok (minTx, maxTx).

Definition setLastEpochTxCount (epoch count : N) (a : WorkloadSizeAdapter) : outcome WorkloadSizeAdapter :=
  let slot := N.to_nat (epoch mod cacheSize) in
  if N.eqb (cacheEpoch a) epoch then
    old ← at_index (cacheCountList a) slot;
    Ok (mkWSA (cacheEpoch a) (<[slot := u64 (old + count)]> (cacheCountList a))
          (aggregateServerCount a) (coreCount a) (minTxCount a) (maxTxCount a))
  else
    _ ← CHECK (N.eqb (u64 (cacheEpoch a + 1)) epoch);
    '(mn, mx) ← calculateBestWorkloadSize (aggregateServerCount a) (coreCount a) (cacheCountList a);
    Ok (mkWSA epoch (<[slot := count]> (cacheCountList a)) (aggregateServerCount a) (coreCount a) mn mx).

(** ** The sizes *)

(** Limits far beyond any deployment, which keep the products in range. *)
Definition plausible (servers cores : N) : Prop := 0 < servers ≤ 2 ^ 20 ∧ 0 < cores ≤ 2 ^ 20.
Definition count_ok (c : N) : Prop := 0 < c < 2 ^ 50.

Section Bounds.
Local Open Scope Q_scope.

Definition QN (n : N) : Q := inject_Z (Z.of_N n).

Lemma QN_le a b : (a ≤ b)%N → QN a <= QN b.
Proof. intros H. unfold QN. rewrite <-Zle_Qle. lia. Qed.
Lemma QN_mul a b : QN (a * b) == QN a * QN b.
Proof. unfold QN. by rewrite N2Z.inj_mul, inject_Z_mult. Qed.

Lemma QN_pos n : (0 < n)%N → 0 < QN n.
Proof. intros Hn. apply (Qlt_le_trans _ 1); [done|]. apply (QN_le 1). lia. Qed.
Lemma QN_nonneg n : 0 <= QN n.
Proof. apply (QN_le 0). lia. Qed.

Lemma double_of_N_near n : (0 < n < 2 ^ 64)%N → near (double_of_N n) (QN n).
Proof. intros Hn. apply double_of_Z_near. lia. Qed.

Lemma double_of_N_rounded n i j :
  (0 < n < 2 ^ 64)%N → (0 ≤ i)%Z → (0 ≤ j)%Z → (2 ^ i ≤ Z.of_N n)%Z → (Z.of_N n ≤ 2 ^ j)%Z →
  rounded (double_of_N n) (QN n) i j.
Proof.
  intros Hn Hi Hj H1 H2. apply near_rounded; [|by apply double_of_N_near].
  unfold binades. rewrite !pow2_Z by done. split; unfold QN; by rewrite <-Zle_Qle.
Qed.

Lemma in_range_of x : pow2 (-500) <= x → x <= pow2 500 → in_range x.
Proof.
  intros H1 H2. split; [eapply Qle_trans; [|exact H1]|eapply Qle_trans; [exact H2|]]; by apply pow2_le.
Qed.

Lemma near_coarse f x : 0 <= x → near f x → ∃ v, is_val f v ∧ x * (9 # 10) <= v ∧ v <= x * (11 # 10).
Proof.
  intros Hx (v & Hv & H1 & H2). exists v. split; [done|]. revert H1 H2. unfold ulp.
  assert (0 <= pow2 (-52) <= 1 # 10) as Hu by (split; by vm_compute). generalize dependent (pow2 (-52)). intros. nra.
Qed.

(** The sum of counts that are positive. *)
Lemma sum_val l zeros acc a n :
  Forall count_ok l → is_val acc a → 1 # 2 <= a → a <= pow2 n → (51 ≤ n)%Z → (n + 2 * Z.of_nat (length l) ≤ 400)%Z →
  ∃ acc' a', foldl (λ '(averageCnt, zeros) cnt,
      (dadd averageCnt (double_of_N cnt), if N.eqb cnt 0 then (zeros + 1)%Z else zeros)) (acc, zeros) l = (acc', zeros) ∧
    is_val acc' a' ∧ 1 # 2 <= a' ∧ a' <= pow2 (n + 2 * Z.of_nat (length l)).
Proof.
  intros Hl. revert acc a n. induction Hl as [|c l Hc _ IH]; intros acc a n Hv Hlo Hhi Hn Hn'.
  { exists acc, a. split_and!; try done. by rewrite Z.add_0_r. }
  cbn [foldl length] in *. rewrite (proj2 (N.eqb_neq c 0)) by (destruct Hc; lia).
  destruct (near_coarse _ _ (QN_nonneg c) (double_of_N_near c ltac:(destruct Hc; lia))) as (d & Hd & Hd1 & Hd2).
  assert (1 <= QN c /\ QN c <= pow2 50) as [Hc1 Hc2].
  { split; [by apply (QN_le 1); destruct Hc; lia|]. rewrite pow2_Z by done. apply (QN_le c (2 ^ 50)). destruct Hc; lia. }
  assert (pow2 50 * 2 <= pow2 n) as Hp by (change 2 with (pow2 1); rewrite <-pow2_add; apply pow2_le; lia).
  assert (pow2 (n + 2) == pow2 n * 4) as Hp2 by (by rewrite pow2_add).
  destruct (near_coarse _ (a + d) ltac:(lra) (dadd_near acc (double_of_N c) a d Hv Hd ltac:(
    apply in_range_of; [trans 1; [by vm_compute|lra]|trans (pow2 (n + 2)); [lra|apply pow2_le; lia]])))
    as (v & Hv' & H1 & H2).
  destruct (IH (dadd acc (double_of_N c)) v (n + 2)%Z Hv') as (acc' & a' & E & H3 & H4 & H5); [lra|lra|lia|lia|].
  exists acc', a'. split_and!; try done. eapply Qle_trans; [exact H5|]. apply pow2_le. lia.
Qed.

Lemma average_val counts :
  length counts = 5%nat → Forall count_ok counts →
  ∃ a, is_val (average counts) a ∧ pow2 (-10) <= a ∧ a <= pow2 70.
Proof.
  intros Hl Hf. destruct Hf as [|c l Hc Hf]; [done|]. injection Hl as Hl. unfold average. cbn [foldl].
  rewrite (proj2 (N.eqb_neq c 0)) by (destruct Hc; lia).
  destruct (near_coarse _ _ (QN_nonneg c) (double_of_N_near c ltac:(destruct Hc; lia))) as (d & Hd & Hd1 & Hd2).
  assert (1 <= QN c) as Hc1 by (apply (QN_le 1); destruct Hc; lia).
  assert (QN c <= pow2 50) as Hc2 by (rewrite pow2_Z by done; apply (QN_le c (2 ^ 50)); destruct Hc; lia).
  assert (pow2 51 == pow2 50 * 2) as Hp by done. pose proof (pow2_pos 50).
  assert (dadd (double_of_Z 0) (double_of_N c) = double_of_N c) as -> by (by destruct Hd as (? & ? & -> & _)).
  destruct (sum_val l 0 (double_of_N c) d 51 Hf Hd) as (s & v & -> & Hs & Hv1 & Hv2); [lra..|lia|rewrite Hl; lia|].
  rewrite Hl in Hv2. change (pow2 (51 + 2 * Z.of_nat 4)) with (pow2 59) in Hv2.
  assert (is_val (double_of_Z 5) 5) as H5 by (by exists 5629499534213120%positive, (-50)%Z).
  assert (v / 5 == v * (1 # 5)) as Hv by done.
  destruct (near_coarse _ (v / 5) ltac:(lra) (ddiv_near s (double_of_Z 5) v 5 Hs H5 ltac:(
    rewrite Hv; apply in_range_of; [trans (1 # 10); [by vm_compute|lra]|trans (pow2 59); [lra|by vm_compute]])))
    as (a & Ha & Ha1 & Ha2).
  exists a. split_and!; [exact Ha|trans (9 # 100); [by vm_compute|lra]|trans (pow2 59 * (11 # 50)); [lra|by vm_compute]].
Qed.

Lemma Qdiv_mul x y : 0 < y → x / y * y == x.
Proof. intros Hy. field. lra. Qed.

(** The rounding errors of [size_for] put together. *)
Lemma errors_small u a D cd q f p v core sr :
  0 <= u → u <= 1 # 1125899906842624 → 0 < a → 0 < D → 0 < core → 0 < q → 0 < f → 0 < p → 0 < sr → sr <= 1099511627776 # 1 →
  D <= core * sr * (1 + u) → core * (1 - u) <= cd → a / D * (1 - u) <= q → (q + 1) * (1 - u) <= f →
  cd * f * (1 - u) <= p → v <= a / p * (1 + u) → v < sr + 1.
Proof.
  intros Hu0 Hu Ha HD Hcore Hq Hf Hp Hsr Hsr' H1 H2 H3 H4 H5 H6.
  assert (a * (1 - u) <= q * D) as E3.
  { rewrite <-(Qdiv_mul a D HD) at 1. apply (Qmult_le_compat_r _ _ D) in H3; [|lra]. lra. }
  assert (v * p <= a * (1 + u)) as E6.
  { rewrite <-(Qdiv_mul a p Hp) at 1. apply (Qmult_le_compat_r _ _ p) in H6; [|lra]. lra. }
  clear H3 H6. assert (∃ c, c == 1 - u) as [c Hcu] by (by exists (1 - u)). rewrite <-Hcu in *.
  assert (0 < c) as Hc by lra.
  assert (a * c * c <= f * D) as E4.
  { trans (q * D * c); [by apply Qmult_le_compat_r; [|lra]|]. trans (q * c * D); [lra|]. apply Qmult_le_compat_r; [|lra]. nra. }
  assert (core * c * c * f <= p) as E5.
  { eapply Qle_trans; [|exact H5]. setoid_replace (core * c * c * f)%Q with (core * c * (f * c))%Q using relation Qeq by ring.
    setoid_replace (cd * f * c)%Q with (cd * (f * c))%Q using relation Qeq by ring. apply Qmult_le_compat_r; [done|nra]. }
  assert (core * (a * (c * c * c * c)) <= core * (p * sr * (1 + u))) as E7.
  { trans (core * c * c * (a * c * c)); [lra|]. trans (core * c * c * (f * D)).
    { apply Qmult_le_l; [|done]. by repeat apply Qmult_lt_0_compat. }
    trans (core * c * c * f * D); [lra|]. trans (p * D); [by apply Qmult_le_compat_r; [|lra]|].
    trans (p * (core * sr * (1 + u))); [by apply Qmult_le_l|lra]. }
  apply Qmult_le_l in E7; [|done].
  assert (p * (v * (c * c * c * c)) <= p * (sr * ((1 + u) * (1 + u)))) as E8.
  { trans (v * p * (c * c * c * c)); [lra|]. trans (a * (1 + u) * (c * c * c * c)).
    { apply Qmult_le_compat_r; [done|]. apply Qlt_le_weak. by repeat apply Qmult_lt_0_compat. }
    trans (a * (c * c * c * c) * (1 + u)); [lra|]. trans (p * sr * (1 + u) * (1 + u)); [|lra].
    apply Qmult_le_compat_r; [done|lra]. }
  apply Qmult_le_l in E8; [|done].
  assert (1 - 4 * u <= c * c * c * c) as Hc4 by (rewrite Hcu; nra).
  assert ((1 + u) * (1 + u) <= 1 + 3 * u) as Hu2 by nra.
  assert (sr * u <= 1 # 100) as Hsu.
  { trans (1099511627776 * (1 # 1125899906842624)); [|by vm_compute]. nra. }
  assert (0 <= sr * u) by nra.
  destruct (Qlt_le_dec v (sr + 1)) as [|Hge]; [done|]. exfalso. nra.
Qed.

(** The next size is positive, and only rounding takes it above the recommended
    size for every server that shares the execution. *)
Lemma size_for_val servers cores recommend f a :
  plausible servers cores → (0 < recommend ≤ 1000)%N → is_val f a → pow2 (-10) <= a → a <= pow2 70 →
  ∃ v, is_val (size_for servers cores recommend f) v ∧ v < QN (servers * recommend) + 1.
Proof.
  intros [Hs Hc] Hr Hf Ha1 Ha2. unfold size_for.
  assert (servers * cores * recommend ≤ 2 ^ 50)%N as Hmul.
  { trans (2 ^ 20 * 2 ^ 20 * 2 ^ 10)%N; [|done]. repeat apply N.mul_le_mono; lia. }
  assert (servers * cores ≤ 2 ^ 40)%N as Hmul' by (trans (2 ^ 20 * 2 ^ 20)%N; [apply N.mul_le_mono; lia|done]).
  rewrite (u64_small (servers * cores)), u64_small by lia. set (SC := (servers * cores * recommend)%N) in *.
  assert (0 < SC)%N as HSC by (unfold SC; lia).
  destruct (double_of_N_rounded SC 0 50) as (D & HD & HD1 & HD2 & HD3); [lia|simpl; lia..|].
  destruct (double_of_N_rounded cores 0 20) as (cd & Hcd & Hcd1 & Hcd2 & Hcd3); [lia|simpl; lia..|].
  destruct (ddiv_rounded f (double_of_N SC) a D (-10) 70 _ _ Hf HD (conj Ha1 Ha2) HD3) as (q & Hq & Hq1 & Hq2 & Hq3); [lia..|].
  assert (is_val (double_of_Z 1) 1) as H1 by (by exists 4503599627370496%positive, (-52)%Z).
  destruct (dadd_rounded _ _ q 1 0 100 Hq H1) as (w & Hw & Hw1 & Hw2 & Hw3); [|lia..|].
  { destruct Hq3 as [Hq3 Hq4]. pose proof (pow2_pos (-10 - (50 + 1) - 1)). split; [change (pow2 0) with 1; lra|].
    trans (pow2 (70 - (0 - 1) + 1) + 1); [lra|by vm_compute]. }
  destruct (dmul_rounded _ _ cd w _ _ _ _ Hcd Hw Hcd3 Hw3) as (p & Hp & Hp1 & Hp2 & Hp3); [lia..|].
  destruct (ddiv_rounded f _ a p (-10) 70 _ _ Hf Hp (conj Ha1 Ha2) Hp3) as (v & Hv & Hv1 & Hv2 & Hv3); [lia..|].
  exists v. split; [done|].
  assert (QN SC == QN cores * QN (servers * recommend)) as ESC by (unfold SC; rewrite !QN_mul; ring). rewrite ESC in *.
  apply (errors_small ulp a D cd q w p v (QN cores) (QN (servers * recommend))); try done.
  - pose proof (pow2_pos (-10)). lra.
  - by eapply binades_pos.
  - apply QN_pos. lia.
  - by eapply binades_pos.
  - by eapply binades_pos.
  - by eapply binades_pos.
  - apply QN_pos. lia.
  - apply (QN_le _ 1099511627776). nia.
Qed.

Lemma size_le f v n : is_val f v → v < QN n + 1 → (n < 2 ^ 63)%N →
  ∃ k, size_of_double f = Ok k ∧ QN k <= v ∧ v < QN k + 1 ∧ (k ≤ n)%N.
Proof.
  intros Hf Hv Hn. destruct (size_of_double_spec f v Hf) as (k & E & H1 & H2).
  { eapply Qlt_le_trans; [exact Hv|]. unfold QN. change 1 with (inject_Z 1). rewrite <-inject_Z_plus, <-Zle_Qle. lia. }
  rewrite inject_Z_plus in H2. exists k. split_and!; [done..|].
  unfold QN in *. change 1 with (inject_Z 1) in Hv. rewrite <-inject_Z_plus in Hv.
  assert (inject_Z (Z.of_N k) < inject_Z (Z.of_N n + 1)) as H by lra. rewrite <-Zlt_Qlt in H. lia.
Qed.

Lemma QN_lt_inv a b : QN a < QN b + 1 → (a ≤ b)%N.
Proof.
  unfold QN. change 1 with (inject_Z 1). rewrite <-inject_Z_plus. intros H. rewrite <-Zlt_Qlt in H. lia.
Qed.
End Bounds.

(** For any counts of the last epochs, the sizes are at least the threshold, at
    most the recommended maximum for the servers together, and in order. *)
Lemma best_sizes servers cores counts :
  plausible servers cores → length counts = 5%nat → Forall count_ok counts →
  ∃ minTx maxTx, calculateBestWorkloadSize servers cores counts = Ok (minTx, maxTx) ∧
    minTxThreadHold ≤ minTx ≤ maxTx ∧ maxTx ≤ servers * recommendMaxTx.
Proof.
  intros Hp Hl Hf. destruct (average_val counts Hl Hf) as (a & Ha & Ha1 & Ha2). unfold calculateBestWorkloadSize.
  destruct (size_for_val servers cores recommendMinTx _ a Hp ltac:(done) Ha Ha1 Ha2) as (vmin & Hmin & Hmin1).
  destruct (size_for_val servers cores recommendMaxTx _ a Hp ltac:(done) Ha Ha1 Ha2) as (vmax & Hmax & Hmax1).
  destruct Hp as [Hs _]. set (fmin := size_for servers cores recommendMinTx (average counts)) in *.
  set (fmax := size_for servers cores recommendMaxTx (average counts)) in *.
  assert (is_val (double_of_N minTxThreadHold) 5) as H5 by (by exists 5629499534213120%positive, (-50)%Z).
  assert (∃ v, is_val (if dlt fmin (double_of_N minTxThreadHold) then double_of_N minTxThreadHold else fmin) v ∧
    (5 <= v)%Q ∧ (v < QN (servers * recommendMaxTx) + 1)%Q) as (v & Hv & Hv1 & Hv2).
  { assert (5 <= QN (servers * recommendMaxTx))%Q by (apply (QN_le 5); unfold recommendMaxTx; lia).
    assert (QN (servers * recommendMinTx) <= QN (servers * recommendMaxTx))%Q
      by (apply QN_le; unfold recommendMaxTx, recommendMinTx; lia).
    pose proof (dlt_spec _ _ _ _ Hmin H5). destruct (dlt _ _) eqn:E; [exists 5%Q|exists vmin]; split_and!; try done; lra. }
  set (f1 := if dlt fmin _ then _ else _) in *. clearbody f1.
  assert (∃ w, is_val (if dlt fmax f1 then f1 else fmax) w ∧ (v <= w)%Q ∧ (w < QN (servers * recommendMaxTx) + 1)%Q)
    as (w & Hw & Hw1 & Hw2).
  { pose proof (dlt_spec _ _ _ _ Hmax Hv) as Hlt. destruct (dlt fmax f1) eqn:E; [exists v|exists vmax]; split_and!; try done; lra. }
  destruct (size_le _ _ _ Hv Hv2) as (k1 & -> & Hk1 & Hk1' & _); [unfold recommendMaxTx; lia|].
  destruct (size_le _ _ _ Hw Hw2) as (k2 & -> & Hk2 & Hk2' & Hk3); [unfold recommendMaxTx; lia|].
  exists k1, k2. split_and!; [done| | |done]; apply QN_lt_inv; [change (QN minTxThreadHold) with 5%Q|]; lra.
Qed.

(** ** The adapter *)

(** [total] counts the transactions that were reported. *)
Record wsa_ok (total : N) (a : WorkloadSizeAdapter) : Prop := {
  wo_length : length (cacheCountList a) = 5%nat;
  wo_counts : Forall (λ c, 0 < c ≤ 3000 + total) (cacheCountList a);
  wo_plausible : plausible (aggregateServerCount a) (coreCount a);
  wo_min : minTxThreadHold ≤ minTxCount a ≤ maxTxCount a;
  wo_max : maxTxCount a ≤ aggregateServerCount a * recommendMaxTx }.

Lemma new_wsa_ok processors servers :
  plausible servers (processors / 2 + 1) → wsa_ok 0 (new_WorkloadSizeAdapter processors servers).
Proof.
  intros Hp. split; simpl; [done| |done|done|destruct Hp; unfold recommendMaxTx; lia].
  by repeat constructor.
Qed.

Lemma setLastEpochTxCount_ok total epoch count a :
  wsa_ok total a → 0 < count → 3000 + total + count < 2 ^ 50 → cacheEpoch a + 1 < 2 ^ 64 →
  if (epoch =? cacheEpoch a) || (epoch =? cacheEpoch a + 1)
  then ∃ a', setLastEpochTxCount epoch count a = Ok a' ∧ wsa_ok (total + count) a' ∧ cacheEpoch a' = epoch ∧
         aggregateServerCount a' = aggregateServerCount a
  else setLastEpochTxCount epoch count a = Fatal CheckFailed.
Proof.
  intros [Hl Hc Hp Hm Hx] Hpos Hb He. unfold setLastEpochTxCount. rewrite (u64_small (cacheEpoch a + 1)) by done.
  assert ((N.to_nat (epoch mod cacheSize) < length (cacheCountList a))%nat) as Hslot.
  { rewrite Hl. pose proof (N.mod_lt epoch cacheSize ltac:(done)) as H. unfold cacheSize in *. lia. }
  assert (Forall (λ c, 0 < c ≤ 3000 + (total + count)) (cacheCountList a)) as Hc'.
  { eapply Forall_impl; [|exact Hc]. simpl. lia. }
  rewrite (N.eqb_sym epoch (cacheEpoch a)). destruct (N.eqb_spec (cacheEpoch a) epoch) as [<-|Hne]; cbn [orb].
  - unfold at_index. apply lookup_lt_is_Some_2 in Hslot as [old Hold]. rewrite Hold. simpl.
    pose proof (Forall_lookup_1 _ _ _ _ Hc Hold) as Ho. simpl in Ho.
    eexists. split_and!; [done| |done..]. split; simpl; [by rewrite length_insert| |done..].
    apply Forall_insert; [done|]. rewrite u64_small by lia. lia.
  - rewrite (N.eqb_sym epoch). destruct (N.eqb_spec (cacheEpoch a + 1) epoch) as [<-|]; [|done]. cbn [CHECK mbind outcome_bind].
    destruct (best_sizes (aggregateServerCount a) (coreCount a) (cacheCountList a) Hp Hl) as (mn & mx & -> & H1 & H2).
    { eapply Forall_impl; [|exact Hc]. unfold count_ok. simpl. lia. }
    simpl. eexists. split_and!; [done| |done..]. split; simpl; [by rewrite length_insert| |done..].
    apply Forall_insert; [done|lia].
Qed.
