(* ===== verification/Coordinator.v ===== *)
(** * The Aria coordinator and its workers

    [src/block_server/coordinator/aria_coordinator.cpp],
    [include/block_server/worker/worker_instance.h] and
    [src/block_server/worker/aria_worker.cpp].

    First the sequential parts: the transaction queue, cutting an epoch into
    workloads, choosing a worker.  Then the protocol between the coordinator
    thread and the worker threads as a step relation: both sides communicate
    through [workerState] and [ariaGlobalState] of each worker instance, each
    written under a lock and awaited with a condition variable.

    Worker ids are the positions in the list of instances plus one: the nonce
    starts at 1 and instances are only erased by the destructor. *)
From S2P Require Import Prelude WorkloadSize.
From stdpp Require Import base list gmap.

Inductive AriaGlobalState := START | Aria_READ | Aria_COMMIT | EXIT | Aggregate.
Inductive WorkerState := READY | ASSIGNED | FINISH_READ | FINISH_AGGREGATE | EXITED.

#[global] Instance AriaGlobalState_eq_dec : EqDecision AriaGlobalState.
Proof. solve_decision. Defined.
#[global] Instance WorkerState_eq_dec : EqDecision WorkerState.
Proof. solve_decision. Defined.

(** ** TransactionQueueWrapper

    Entries are (transaction, epoch) pairs; [None] is a call that blocks until
    a producer adds an entry. *)
Local Notation entry := (N * N)%type.

Record TransactionQueueWrapper := mkTQ { tq_queue : list entry; tq_front : option entry }.

Definition tq_get_front (q : TransactionQueueWrapper) : option (entry * TransactionQueueWrapper) :=
  match tq_front q with
  | Some x => Some (x, q)
  | None =>
      match tq_queue q with
      | [] => None
      | x :: l => Some (x, mkTQ l (Some x))
      end
  end.

Definition tq_push_bulk (bulk : list entry) (q : TransactionQueueWrapper)
    : TransactionQueueWrapper := mkTQ (tq_queue q ++ bulk) (tq_front q).

Definition tq_pop (q : TransactionQueueWrapper) : option (entry * TransactionQueueWrapper) :=
  match tq_front q with
  | Some x => Some (x, mkTQ (tq_queue q) None)
  | None => match tq_queue q with [] => None | x :: l => Some (x, mkTQ l None) end
  end.

Definition tq_empty (q : TransactionQueueWrapper) : bool * TransactionQueueWrapper :=
  match tq_front q with
  | Some _ => (false, q)
  | None =>
      match tq_queue q with
      | [] => (true, q)
      | x :: l => (false, mkTQ l (Some x))
      end
  end.

(** Everything still in the wrapper, in order. *)
Definition tq_contents (q : TransactionQueueWrapper) : list entry :=
  match tq_front q with Some x => x :: tq_queue q | None => tq_queue q end.

(** [addTransaction]: the number of transactions taken, and the new state. *)
Definition addTransaction (trWrapper : list entry)
    (st : WorkloadSizeAdapter * TransactionQueueWrapper)
    : outcome (N * (WorkloadSizeAdapter * TransactionQueueWrapper)) :=
  match trWrapper with
  | [] => Ok (0%N, st)
  | x :: _ =>
      let size := N.of_nat (length trWrapper) in
      a ← setLastEpochTxCount x.2 size st.1;
      Ok (size, (a, tq_push_bulk trWrapper st.2))
  end.

(** ** Cutting an epoch into workloads *)
Record Workload := mkWorkload {
  wl_epoch : N; transactionList : list N; aggregationWorkload : bool }.

Section Workloads.
Context (debug : bool) (currentEpoch minTx maxTx : N).

(** The do-while loop of [createWorkload]: [acc] is the list so far, [fuel]
    bounds the iterations by the entries present; [None] is blocked. *)
Fixpoint workload_loop (fuel : nat) (epoch : N) (x : entry) (acc : list N)
    (q : TransactionQueueWrapper) : option (outcome (list N * TransactionQueueWrapper)) :=
  match fuel with
  | O => None
  | Datatypes.S fuel' =>
      if debug && negb (N.eqb x.2 currentEpoch && N.eqb x.2 epoch) then Some (Fatal CheckFailed)
      else
        let acc := acc ++ [x.1] in
        match tq_pop q with
        | None => None
        | Some (_, q) =>
            match tq_get_front q with
            | None => None
            | Some (x, q) =>
                let size := N.of_nat (length acc) in
                let '(more, q) :=
                  if (size <=? minTx)%N then (true, q)
                  else let '(e, q) := tq_empty q in (negb e, q) in
                if more && (x.2 <=? currentEpoch)%N && (size <? maxTx)%N
                then workload_loop fuel' epoch x acc q
                else Some (Ok (acc, q))
            end
        end
  end.

(** [Some (Ok (None, q))]: no workload is left for the epoch. *)
Definition createWorkload (q : TransactionQueueWrapper)
    : option (outcome (option Workload * TransactionQueueWrapper)) :=
  match tq_get_front q with
  | None => None
  | Some (x, q) =>
      if (currentEpoch <? x.2)%N then Some (Ok (None, q))
      else
        match workload_loop (Datatypes.S (length (tq_contents q))) x.2 x [] q with
        | None => None
        | Some (Fatal e) => Some (Fatal e)
        | Some (Ok (l, q)) => Some (Ok (Some (mkWorkload x.2 l false), q))
        end
  end.

(** The loop of [assignWorkloadPhase], collecting the workloads. *)
Fixpoint assign_workloads (fuel : nat) (q : TransactionQueueWrapper)
    : option (outcome (list Workload * TransactionQueueWrapper)) :=
  match fuel with
  | O => None
  | Datatypes.S fuel' =>
      match createWorkload q with
      | None => None
      | Some (Fatal e) => Some (Fatal e)
      | Some (Ok (None, q)) => Some (Ok ([], q))
      | Some (Ok (Some w, q)) =>
          match assign_workloads fuel' q with
          | Some (Ok (ws, q)) => Some (Ok (w :: ws, q))
          | other => other
          end
      end
  end.

Lemma tq_get_front_contents q x l :
  tq_contents q = x :: l →
  ∃ q', tq_get_front q = Some (x, q') ∧ tq_front q' = Some x ∧ tq_queue q' = l.
Proof.
  unfold tq_contents, tq_get_front. destruct q as [qq [y|]]; simpl; intros E.
  - simplify_eq. by eexists.
  - rewrite E. by eexists.
Qed.

(** One workload takes a non-empty prefix of the epoch, at most [maxTx] long. *)
Lemma workload_loop_takes fuel x l1 y l2 acc q :
  tq_front q = Some x → tq_queue q = l1 ++ y :: l2 →
  x.2 = currentEpoch → Forall (λ z, z.2 = currentEpoch) l1 → (currentEpoch < y.2)%N →
  length l1 < fuel → (N.of_nat (length acc) < maxTx)%N →
  ∃ k q', workload_loop fuel currentEpoch x acc q =
      Some (Ok (acc ++ x.1 :: (take k l1).*1, q')) ∧ k ≤ length l1 ∧
    tq_contents q' = drop k l1 ++ y :: l2 ∧
    (N.of_nat (length acc + Datatypes.S k) ≤ maxTx)%N.
Proof.
  revert fuel x acc q. induction l1 as [|z l1 IH]; intros fuel x acc q Hf Hq Hx Hl Hy Hfuel Hacc;
    (destruct fuel as [|fuel]; [simpl in Hfuel; lia|]); cbn [workload_loop];
    rewrite Hx, !N.eqb_refl, andb_false_r; unfold tq_pop; rewrite Hf;
    unfold tq_get_front; cbn [tq_front tq_queue]; rewrite Hq; simpl.
  - exists 0, (mkTQ l2 (Some y)). rewrite length_app. simpl.
    assert ((y.2 <=? currentEpoch)%N = false) as -> by (apply N.leb_gt; done).
    split_and!; [|lia|done|lia].
    destruct (_ <=? minTx)%N; simpl; by rewrite ?andb_false_r.
  - apply Forall_cons in Hl as [Hz Hl].
    assert ((z.2 <=? currentEpoch)%N = true) as -> by (apply N.leb_le; lia).
    assert (∀ b : bool, (if b then (true, mkTQ (l1 ++ y :: l2) (Some z))
      else let '(e, q0) := tq_empty (mkTQ (l1 ++ y :: l2) (Some z)) in (negb e, q0)) =
      (true, mkTQ (l1 ++ y :: l2) (Some z))) as Hb by (by intros []).
    rewrite Hb. simpl. rewrite length_app. simpl.
    destruct (N.ltb_spec (N.of_nat (length acc + 1)) maxTx) as [Hlt|Hge].
    + destruct (IH fuel z (acc ++ [x.1]) (mkTQ (l1 ++ y :: l2) (Some z)))
        as (k & q' & E & Hk & Hc & Hm); try done.
      { simpl in Hfuel. lia. }
      { rewrite length_app. done. }
      exists (Datatypes.S k), q'. rewrite E. simpl. rewrite <-app_assoc. simpl.
      split_and!; [done|lia|done|]. rewrite length_app in Hm. simpl in Hm. lia.
    + exists 0, (mkTQ (l1 ++ y :: l2) (Some z)). simpl. split_and!; [done|lia|done|lia].
Qed.

Lemma createWorkload_spec x l1 y l2 q :
  tq_contents q = (x :: l1) ++ y :: l2 →
  Forall (λ z, z.2 = currentEpoch) (x :: l1) → (currentEpoch < y.2)%N → (0 < maxTx)%N →
  ∃ k q', createWorkload q =
      Some (Ok (Some (mkWorkload currentEpoch (x.1 :: (take k l1).*1) false), q')) ∧
    k ≤ length l1 ∧ tq_contents q' = drop k l1 ++ y :: l2 ∧
    (N.of_nat (Datatypes.S k) ≤ maxTx)%N.
Proof.
  intros Hc Hl Hy Hm. apply Forall_cons in Hl as [Hx Hl].
  destruct (tq_get_front_contents q x (l1 ++ y :: l2) Hc) as (q1 & E1 & Hf & Hq).
  unfold createWorkload. rewrite E1.
  assert ((currentEpoch <? x.2)%N = false) as -> by (apply N.ltb_ge; lia).
  destruct (workload_loop_takes (Datatypes.S (length (tq_contents q1))) x l1 y l2 [] q1)
    as (k & q' & E & Hk & Hc' & Hm'); try done.
  { unfold tq_contents. rewrite Hf, Hq. simpl. rewrite length_app. simpl. lia. }
  exists k, q'. rewrite Hx, E. done.
Qed.

Lemma createWorkload_none y l2 q :
  tq_contents q = y :: l2 → (currentEpoch < y.2)%N →
  ∃ q', createWorkload q = Some (Ok (None, q')) ∧ tq_contents q' = y :: l2.
Proof.
  intros Hc Hy. destruct (tq_get_front_contents q y l2 Hc) as (q1 & E1 & Hf & Hq).
  unfold createWorkload. rewrite E1.
  assert ((currentEpoch <? y.2)%N = true) as -> by (by apply N.ltb_lt).
  exists q1. split; [done|]. unfold tq_contents. by rewrite Hf, Hq.
Qed.

(** Whatever is in the queue: a workload that was created is a prefix of it, of
    transactions of the epoch, and the last call finds a later epoch in front. *)
Lemma workload_loop_inv fuel x acc q r :
  tq_front q = Some x → x.2 = currentEpoch → Forall (λ z, (currentEpoch ≤ z.2)%N) (tq_queue q) →
  workload_loop fuel currentEpoch x acc q = Some r →
  ∃ l q', r = Ok (acc ++ l.*1, q') ∧ l ≠ [] ∧ tq_contents q = l ++ tq_contents q' ∧
    Forall (λ z, z.2 = currentEpoch) l.
Proof.
  revert x acc q. induction fuel as [|fuel IH]; intros x acc q Hf Hx Hq E; cbn [workload_loop] in E; [done|].
  rewrite Hx, !N.eqb_refl, andb_false_r in E. unfold tq_pop in E. rewrite Hf in E. unfold tq_get_front in E.
  cbn [tq_front tq_queue] in E. destruct (tq_queue q) as [|z l] eqn:Eq; [done|].
  apply Forall_cons in Hq as [Hz Hl].
  assert (∀ b : bool, (if b then (true, mkTQ l (Some z)) else let '(e, q0) := tq_empty (mkTQ l (Some z)) in (negb e, q0)) =
    (true, mkTQ l (Some z))) as Hb by (by intros []).
  rewrite Hb in E. cbn [andb] in E. assert (tq_contents q = x :: z :: l) as Hc by (unfold tq_contents; by rewrite Hf, Eq).
  destruct ((z.2 <=? currentEpoch)%N && _) eqn:Em.
  - apply andb_true_iff in Em as [Hle%N.leb_le _].
    destruct (IH z (acc ++ [x.1]) (mkTQ l (Some z))) as (l1 & q' & -> & _ & Hl1 & Hf1); [done|lia|done|done|].
    exists (x :: l1), q'. rewrite Hc. split_and!; [by rewrite <-app_assoc|done| |by constructor].
    unfold tq_contents at 1 in Hl1. simpl in Hl1. by rewrite Hl1.
  - injection E as <-. exists [x], (mkTQ l (Some z)). rewrite Hc. split_and!; [done..|by constructor].
Qed.

Lemma createWorkload_inv q r :
  Forall (λ z, (currentEpoch ≤ z.2)%N) (tq_contents q) → createWorkload q = Some r →
  (∃ y l q', r = Ok (None, q') ∧ tq_contents q = y :: l ∧ tq_contents q' = y :: l ∧ (currentEpoch < y.2)%N) ∨
  (∃ l q', r = Ok (Some (mkWorkload currentEpoch l.*1 false), q') ∧ l ≠ [] ∧ tq_contents q = l ++ tq_contents q' ∧
     Forall (λ z, z.2 = currentEpoch) l).
Proof.
  intros Hq E. destruct (tq_contents q) as [|x l] eqn:Hc.
  { unfold createWorkload, tq_contents, tq_get_front in *. destruct q as [qq [y|]]; simpl in *; [done|]. by rewrite Hc in E. }
  destruct (tq_get_front_contents q x l Hc) as (q1 & E1 & Hf & Hl). unfold createWorkload in E. rewrite E1 in E.
  apply Forall_cons in Hq as [Hx Hq]. assert (tq_contents q1 = x :: l) as Hc1 by (unfold tq_contents; by rewrite Hf, Hl).
  destruct (N.ltb_spec currentEpoch x.2) as [Hlt|Hge].
  - injection E as <-. left. by exists x, l, q1.
  - right. assert (x.2 = currentEpoch) as Hxe by lia. rewrite Hxe in E.
    destruct (workload_loop _ _ _ _ _) as [r'|] eqn:Ew; [|done].
    destruct (workload_loop_inv _ x [] q1 r' Hf Hxe ltac:(by rewrite Hl) Ew) as (l1 & q' & -> & Hne & Hl1 & Hf1).
    injection E as <-. exists l1, q'. by rewrite <-Hc1.
Qed.

Lemma assign_workloads_S fuel q :
  assign_workloads (Datatypes.S fuel) q =
  match createWorkload q with
  | None => None
  | Some (Fatal e) => Some (Fatal e)
  | Some (Ok (None, q)) => Some (Ok ([], q))
  | Some (Ok (Some w, q)) =>
      match assign_workloads fuel q with
      | Some (Ok (ws, q)) => Some (Ok (w :: ws, q))
      | other => other
      end
  end.
Proof. done. Qed.

(** the assignment phase deploys every transaction of the current epoch
    exactly once and in order, in non-empty workloads of at most the maximal
    size, and stops in front of the first transaction of a later epoch. *)
Theorem assign_workloads_complete l y l2 q :
  tq_contents q = l ++ y :: l2 →
  Forall (λ z, z.2 = currentEpoch) l → (currentEpoch < y.2)%N → (0 < maxTx)%N →
  ∃ ws q', assign_workloads (Datatypes.S (length l)) q = Some (Ok (ws, q')) ∧
    concat (transactionList <$> ws) = l.*1 ∧ tq_contents q' = y :: l2 ∧
    Forall (λ w, wl_epoch w = currentEpoch ∧ transactionList w ≠ [] ∧
                 (N.of_nat (length (transactionList w)) ≤ maxTx)%N) ws.
Proof.
  intros Hc Hl Hy Hm. remember (length l) as n eqn:Hn.
  assert (length l ≤ n) as Hle by lia. clear Hn. revert l q Hc Hl Hle.
  induction n as [|n IH]; intros l q Hc Hl Hle.
  - destruct l; [|simpl in Hle; lia]. simpl.
    destruct (createWorkload_none y l2 q Hc Hy) as (q' & -> & Hc'). by exists [], q'.
  - rewrite assign_workloads_S. destruct l as [|x l].
    { destruct (createWorkload_none y l2 q Hc Hy) as (q' & -> & Hc'). by exists [], q'. }
    destruct (createWorkload_spec x l y l2 q Hc Hl Hy Hm) as (k & q1 & -> & Hk & Hc1 & Hkm).
    apply Forall_cons in Hl as [_ Hl].
    destruct (IH (drop k l) q1 Hc1) as (ws & q2 & E & Hcat & Hc2 & Hall).
    { by apply Forall_drop. }
    { rewrite length_drop. simpl in Hle. lia. }
    rewrite E. eexists (_ :: ws), q2. split; [done|]. split_and!.
    + rewrite fmap_cons. cbn [concat transactionList]. rewrite Hcat, <-app_comm_cons, <-fmap_app.
      by rewrite take_drop.
    + done.
    + constructor; [|done]. simpl. split_and!; [done|done|].
      rewrite length_fmap, length_take. lia.
Qed.

End Workloads.

Lemma assign_workloads_complete_witness :
  ∃ ws q', assign_workloads true 7 1 2 4
      (mkTQ [(11, 7); (12, 7); (13, 7); (14, 8)]%N None) = Some (Ok (ws, q')) ∧
    concat (transactionList <$> ws) = [11; 12; 13]%N ∧ tq_contents q' = [(14, 8)]%N ∧
    Forall (λ w, wl_epoch w = 7%N ∧ transactionList w ≠ [] ∧
                 (N.of_nat (length (transactionList w)) ≤ 2)%N) ws.
Proof.
  apply (assign_workloads_complete true 7 1 2 [(11, 7); (12, 7); (13, 7)]%N (14, 8)%N []
           (mkTQ [(11, 7); (12, 7); (13, 7); (14, 8)]%N None)).
  - reflexivity.
  - repeat constructor.
  - reflexivity.
  - reflexivity.
Defined.

(** ** The transactions that reach the coordinator *)
Section Adding.
Local Open Scope N_scope.

Definition empty_TQ : TransactionQueueWrapper := mkTQ [] None.

(** The epoch of a batch is that of its first transaction. *)
Definition batch_epoch (b : list entry) : N := match b with x :: _ => x.2 | [] => 0 end.

Fixpoint consecutive (c : N) (es : list N) : bool :=
  match es with
  | [] => true
  | e :: es => ((e =? c) || (e =? c + 1)) && consecutive e es
  end.

Definition add_batch (b : list entry) (st : WorkloadSizeAdapter * TransactionQueueWrapper)
    : outcome (WorkloadSizeAdapter * TransactionQueueWrapper) :=
  r ← addTransaction b st; Ok r.2.

Definition total_size (bulks : list (list entry)) : N := N.of_nat (length (concat bulks)).

Lemma total_size_cons b bulks : total_size (b :: bulks) = N.of_nat (length b) + total_size bulks.
Proof. unfold total_size. simpl. rewrite length_app. lia. Qed.

Lemma add_batch_ok total b a q :
  b ≠ [] → wsa_ok total a → 3000 + total + N.of_nat (length b) < 2 ^ 50 → cacheEpoch a + 1 < 2 ^ 64 →
  if (batch_epoch b =? cacheEpoch a) || (batch_epoch b =? cacheEpoch a + 1)
  then ∃ a', add_batch b (a, q) = Ok (a', tq_push_bulk b q) ∧ wsa_ok (total + N.of_nat (length b)) a' ∧
         cacheEpoch a' = batch_epoch b ∧ aggregateServerCount a' = aggregateServerCount a
  else add_batch b (a, q) = Fatal CheckFailed.
Proof.
  destruct b as [|x b]; [done|]. intros _ Ha Hb He. unfold add_batch, addTransaction. cbn [batch_epoch fst snd].
  pose proof (setLastEpochTxCount_ok total x.2 (N.of_nat (length (x :: b))) a Ha ltac:(simpl; lia) Hb He) as Hc.
  destruct (_ || _); [|by rewrite Hc]. destruct Hc as (a1 & -> & H1 & H2 & H3). by exists a1.
Qed.

Lemma add_transactions_from bulks total a q :
  wsa_ok total a → 3000 + total + total_size bulks < 2 ^ 50 → cacheEpoch a + N.of_nat (length bulks) < 2 ^ 64 →
  Forall (λ b, b ≠ []) bulks →
  if consecutive (cacheEpoch a) (batch_epoch <$> bulks)
  then ∃ a' q', foldM add_batch bulks (a, q) = Ok (a', q') ∧
         tq_contents q' = tq_contents q ++ concat bulks ∧ wsa_ok (total + total_size bulks) a' ∧
         aggregateServerCount a' = aggregateServerCount a
  else foldM add_batch bulks (a, q) = Fatal CheckFailed.
Proof.
  intros Ha Ht He Hb. revert total a q Ha Ht He. induction Hb as [|b bulks Hb _ IH]; intros total a q Ha Ht He.
  { simpl. exists a, q. rewrite app_nil_r. split_and!; try done. by replace (total + total_size []) with total by (unfold total_size; simpl; lia). }
  rewrite total_size_cons in Ht |- *. cbn [fmap list_fmap consecutive foldM]. simpl length in He.
  pose proof (add_batch_ok total b a q Hb Ha ltac:(lia) ltac:(lia)) as Hc.
  destruct ((batch_epoch b =? cacheEpoch a) || (batch_epoch b =? cacheEpoch a + 1)) eqn:Ex; cbn [andb]; [|by rewrite Hc].
  destruct Hc as (a1 & -> & Ha1 & He1 & Hs1). cbn [mbind outcome_bind].
  assert (cacheEpoch a1 ≤ cacheEpoch a + 1).
  { rewrite He1. apply orb_true_iff in Ex as [->%N.eqb_eq| ->%N.eqb_eq]; lia. }
  specialize (IH _ a1 (tq_push_bulk b q) Ha1 ltac:(lia) ltac:(lia)). rewrite He1 in IH.
  destruct (consecutive _ _); [|done]. destruct IH as (a' & q' & -> & Hq & Ha' & Hs'). exists a', q'.
  split_and!; [done| |by rewrite (assoc_L N.add)|congruence].
  rewrite Hq. unfold tq_contents, tq_push_bulk. simpl. destruct (tq_front q); simpl; by rewrite <-(assoc_L (++)).
Qed.

(** C38: the batches that the transaction manager hands over arrive in order, as long
    as each is of the epoch of the one before or of the next, and the
    floating-point sizes of the workloads are then always between 5 and 1000
    transactions per server that shares the execution, the minimum not above
    the maximum.  The first batch that skips an epoch stops the server, and so
    does a first one beyond epoch 2, because the adapter always starts with
    epoch 1. *)
Theorem add_transactions_exact processors servers bulks :
  plausible servers (processors / 2 + 1) → Forall (λ b, b ≠ []) bulks →
  1 + N.of_nat (length bulks) < 2 ^ 64 → 3000 + total_size bulks < 2 ^ 50 →
  let start := (new_WorkloadSizeAdapter processors servers, empty_TQ) in
  if consecutive 1 (batch_epoch <$> bulks)
  then ∃ a q, foldM add_batch bulks start = Ok (a, q) ∧ tq_contents q = concat bulks ∧
         5 ≤ minTxCount a ≤ maxTxCount a ∧ maxTxCount a ≤ servers * 1000
  else foldM add_batch bulks start = Fatal CheckFailed.
Proof.
  intros Hp Hne Hb Ht start.
  pose proof (add_transactions_from bulks 0 (new_WorkloadSizeAdapter processors servers) empty_TQ (new_wsa_ok _ _ Hp)
    ltac:(lia) Hb Hne) as Hf. cbn [cacheEpoch new_WorkloadSizeAdapter] in Hf.
  destruct (consecutive _ _); [|done]. destruct Hf as (a & q & E & Hq & [_ _ _ H1 H2] & Hs).
  exists a, q. split_and!; try done; [apply H1..|]. by rewrite Hs in H2.
Qed.

End Adding.

(** On a machine with 8 processors. *)
Lemma add_transactions_exact_witness :
  ∃ a q, foldM add_batch [[(11, 1); (12, 1)]; [(13, 2)]]%N (new_WorkloadSizeAdapter 8 1, empty_TQ) = Ok (a, q) ∧
         tq_contents q = [(11, 1); (12, 1); (13, 2)]%N ∧ (5 ≤ minTxCount a ≤ maxTxCount a)%N ∧ (maxTxCount a ≤ 1 * 1000)%N.
Proof.
  apply (add_transactions_exact 8 1 [[(11, 1); (12, 1)]; [(13, 2)]]%N);
    [split; split; reflexivity || (vm_compute; discriminate)|by repeat constructor|reflexivity..].
Defined.

(** The sizes after two epochs of 4000 transactions, and with four servers. *)
Example sizes_computed :
  calculateBestWorkloadSize 1 5 [4000; 3000; 3000; 3000; 4000]%N = Ok (288, 404)%N ∧
  calculateBestWorkloadSize 4 5 [4000; 3000; 3000; 3000; 4000]%N = Ok (507, 581)%N.
Proof. split; vm_compute; reflexivity. Qed.

(** A server that resumes at epoch 7. *)
Example restart_stops :
  addTransaction [(11, 7)]%N (new_WorkloadSizeAdapter 8 1, empty_TQ) = Fatal CheckFailed.
Proof. reflexivity. Qed.
