(* ===== verification/AggregationCoordinator.v ===== *)
(** * Workloads of the aggregation coordinator

    [AggregationCoordinator::createWorkload] and [createAggregationWorkload]
    ([aggregation_coordinator.cpp]): while the epoch lasts, a transaction goes
    into a workload if this server executes it and is queued for aggregation
    otherwise; afterwards the queue is cut into aggregation workloads.

    [None] is a call that blocks, as in [Coordinator]. *)
From S2P Require Import Prelude Transaction Database Coordinator Aggregation.
From Stdlib Require Import NArith Lia.
From stdpp Require Import base list gmap strings.

Local Notation entry := (N * N)%type.

(** What the coordinator keeps: the queue of transactions, the broadcaster and
    the transactions to aggregate. *)
Record AggregationCoordinator := mkAC {
  queueWrapper : TransactionQueueWrapper;
  broadcaster : AggregationBroadcaster;
  aggregationQueue : list N }.

Section Workloads.
Context (debug : bool) (currentEpoch minTx maxTx : N) (h : txn_heap).

(** The loop of [createAggregationWorkload]; [i] counts down. *)
Fixpoint aggregation_loop (i : nat) (acc q : list N) : outcome (list N * list N) :=
  match i, q with
  | O, _ | _, [] => Ok (acc, q)
  | S i', p :: q' =>
      let acc := acc ++ [p] in
      t ← deref (h !! p);
      DCHECK debug (tr_epoch t =? currentEpoch)%N;;
      f ← at_index acc 0;
      front ← deref (h !! f);
      DCHECK debug (tr_epoch t =? tr_epoch front)%N;;
      aggregation_loop i' acc q'
  end.

Definition createAggregationWorkload (c : AggregationCoordinator)
    : outcome (option Workload * AggregationCoordinator) :=
  '(l, q) ← aggregation_loop (N.to_nat maxTx) [] (aggregationQueue c);
  let c := mkAC (queueWrapper c) (broadcaster c) q in
  match l with
  | [] => Ok (None, c)
  | f :: _ => front ← deref (h !! f); Ok (Some (mkWorkload (tr_epoch front) l true), c)
  end.

(** The do-while loop of [createWorkload]: [x] is the front transaction, [acc]
    the workload so far. *)
Fixpoint agg_workload_loop (fuel : nat) (epoch : N) (x : entry) (acc : list N) (c : AggregationCoordinator)
    : option (outcome (list N * AggregationCoordinator)) :=
  match fuel with
  | O => None
  | S fuel' =>
      if debug && negb (N.eqb x.2 currentEpoch && N.eqb x.2 epoch) then Some (Fatal CheckFailed)
      else
        match h !! x.1 with
        | None => Some (Fatal NullDeref)
        | Some t =>
            let local := isLocalTransaction (tr_tid t) (broadcaster c) in
            match register debug h x.1 (broadcaster c) with
            | Fatal err => Some (Fatal err)
            | Ok b =>
                let acc := if local then acc ++ [x.1] else acc in
                let aq := if local then aggregationQueue c else aggregationQueue c ++ [x.1] in
                match tq_pop (queueWrapper c) with
                | None => None
                | Some (_, q) =>
                    match tq_get_front q with
                    | None => None
                    | Some (x, q) =>
                        let size := N.of_nat (length acc) in
                        let '(more, q) :=
                          if (size <=? minTx)%N then (true, q)
                          else let '(e, q) := tq_empty q in (negb e, q) in
                        if more && (x.2 <=? currentEpoch)%N && (size <? maxTx)%N
                        then agg_workload_loop fuel' epoch x acc (mkAC q b aq)
                        else Some (Ok (acc, mkAC q b aq))
                    end
                end
            end
        end
  end.

Definition agg_createWorkload (c : AggregationCoordinator)
    : option (outcome (option Workload * AggregationCoordinator)) :=
  match tq_get_front (queueWrapper c) with
  | None => None
  | Some (x, q) =>
      let c := mkAC q (broadcaster c) (aggregationQueue c) in
      if (currentEpoch <? x.2)%N then Some (createAggregationWorkload c)
      else
        match agg_workload_loop (S (length (tq_contents q))) x.2 x [] c with
        | None => None
        | Some (Fatal err) => Some (Fatal err)
        | Some (Ok ([], c)) => Some (createAggregationWorkload c)
        | Some (Ok (l, c)) => Some (Ok (Some (mkWorkload x.2 l false), c))
        end
  end.

(** The loop of [assignWorkloadPhase]. *)
Fixpoint agg_assign_workloads (fuel : nat) (c : AggregationCoordinator)
    : option (outcome (list Workload * AggregationCoordinator)) :=
  match fuel with
  | O => None
  | S fuel' =>
      match agg_createWorkload c with
      | None => None
      | Some (Fatal err) => Some (Fatal err)
      | Some (Ok (None, c)) => Some (Ok ([], c))
      | Some (Ok (Some w, c)) =>
          match agg_assign_workloads fuel' c with
          | Some (Ok (ws, c)) => Some (Ok (w :: ws, c))
          | other => other
          end
      end
  end.

(** ** Aggregation workloads *)

(** The transaction objects of an epoch. *)
Definition in_epoch (p : N) : Prop := ∃ t, h !! p = Some t ∧ tr_epoch t = currentEpoch.

Lemma DCHECK_true : DCHECK debug true = Ok tt.
Proof. by destruct debug. Qed.

Lemma aggregation_loop_takes i : ∀ acc q,
  Forall in_epoch (acc ++ q) → aggregation_loop i acc q = Ok (acc ++ take i q, drop i q).
Proof.
  induction i as [|i IH]; intros acc q Hq; [simpl; by rewrite app_nil_r|].
  destruct q as [|p q]; [simpl; by rewrite app_nil_r|]. cbn [aggregation_loop].
  assert (in_epoch p) as (t & -> & Et) by (rewrite Forall_forall in Hq; apply Hq; set_solver).
  assert (∃ f l, acc ++ [p] = f :: l) as (f & l & Ef) by (destruct acc; by do 2 eexists).
  assert (Forall in_epoch ((acc ++ [p]) ++ q)) as Hq' by (by rewrite <-(assoc_L (++))).
  assert (in_epoch f) as (u & Eu & Efu) by (rewrite Ef in Hq'; by apply Forall_cons in Hq' as [? _]).
  cbn [deref mbind outcome_bind]. rewrite Et, N.eqb_refl, DCHECK_true. rewrite Ef. cbn. rewrite Eu. cbn.
  rewrite Efu, N.eqb_refl, DCHECK_true. cbn. rewrite <-Ef, IH by done. by rewrite <-(assoc_L (++)).
Qed.

Lemma createAggregationWorkload_spec c :
  (0 < maxTx)%N → Forall in_epoch (aggregationQueue c) →
  createAggregationWorkload c =
  Ok (match aggregationQueue c with
      | [] => None
      | l => Some (mkWorkload currentEpoch (take (N.to_nat maxTx) l) true)
      end, mkAC (queueWrapper c) (broadcaster c) (drop (N.to_nat maxTx) (aggregationQueue c))).
Proof.
  intros Hm Hq. unfold createAggregationWorkload. rewrite aggregation_loop_takes by done. simpl.
  destruct (aggregationQueue c) as [|p l]; [by rewrite take_nil|].
  destruct (N.to_nat maxTx) as [|m] eqn:Em; [lia|]. simpl.
  apply Forall_cons in Hq as [(t & -> & Et) _]. simpl. by rewrite Et.
Qed.

(** ** Workloads of the own share *)
Definition own (b : AggregationBroadcaster) (l : list N) : list N :=
  filter (λ p, isLocalTransaction (tid_at h p) b = true) l.
Definition others (b : AggregationBroadcaster) (l : list N) : list N :=
  filter (λ p, isLocalTransaction (tid_at h p) b = false) l.

Lemma register_local p b b' tid :
  register debug h p b = Ok b' → isLocalTransaction tid b' = isLocalTransaction tid b.
Proof.
  unfold register, addBroadcastTransaction, addListenTransaction. destruct (h !! p) as [t|]; [|done]. simpl.
  intros E. destruct (isLocalTransaction (tr_tid t) b); (destruct (DCHECK debug (broadcastEpoch b <? _)%N); [|done]);
    simpl in E; (destruct (DCHECK debug (bool_decide _)); [|done]); simpl in E; by injection E as <-.
Qed.

Lemma own_register p b b' l : register debug h p b = Ok b' → own b' l = own b l ∧ others b' l = others b l.
Proof.
  intros E. split; apply list_filter_iff; intros q; by rewrite (register_local p b b' _ E).
Qed.

(** What a run of the loop has read: [seen], of which it keeps the own share. *)
Record took (acc : list N) (c : AggregationCoordinator) (seen acc' : list N) (c' : AggregationCoordinator) : Prop := {
  tk_acc : acc' = acc ++ own (broadcaster c) seen;
  tk_queue : aggregationQueue c' = aggregationQueue c ++ others (broadcaster c) seen;
  tk_reg : foldM (register debug h) seen (broadcaster c) = Ok (broadcaster c') }.

Lemma took_cons p seen acc acc' q b1 c c' :
  register debug h p (broadcaster c) = Ok b1 →
  let local := isLocalTransaction (tid_at h p) (broadcaster c) in
  took (if local then acc ++ [p] else acc)
    (mkAC q b1 (if local then aggregationQueue c else aggregationQueue c ++ [p])) seen acc' c' →
  took acc c (p :: seen) acc' c'.
Proof.
  intros E local [Ha Hq Hr]. simpl in *. destruct (own_register p _ _ seen E) as [Ho Hs]. rewrite Ho in Ha. rewrite Hs in Hq.
  split; [| |simpl; by rewrite E]; unfold own, others in *; rewrite filter_cons; unfold local in *;
    destruct (isLocalTransaction (tid_at h p) (broadcaster c)) eqn:El; case_decide; try congruence;
    rewrite ?Ha, ?Hq, <-?(assoc_L (++)); done.
Qed.

Lemma took_one p acc c q b1 :
  register debug h p (broadcaster c) = Ok b1 →
  let local := isLocalTransaction (tid_at h p) (broadcaster c) in
  took acc c [p] (if local then acc ++ [p] else acc)
    (mkAC q b1 (if local then aggregationQueue c else aggregationQueue c ++ [p])).
Proof.
  intros E local. apply (took_cons p [] acc _ q b1 c _ E). split; simpl; by rewrite ?app_nil_r.
Qed.

(** The loop reads the front transaction and [k] more, until the epoch ends or
    the workload is full. *)
Lemma agg_workload_loop_takes fuel : ∀ x l1 y l2 acc c b',
  tq_front (queueWrapper c) = Some x → tq_queue (queueWrapper c) = l1 ++ y :: l2 →
  Forall (λ z, z.2 = currentEpoch) (x :: l1) → Forall in_epoch (x :: l1).*1 → (currentEpoch < y.2)%N →
  length l1 < fuel → (N.of_nat (length acc) < maxTx)%N →
  foldM (register debug h) (x :: l1).*1 (broadcaster c) = Ok b' →
  ∃ k acc' c', agg_workload_loop fuel currentEpoch x acc c = Some (Ok (acc', c')) ∧
    took acc c (x :: take k l1).*1 acc' c' ∧ tq_contents (queueWrapper c') = drop k l1 ++ y :: l2 ∧
    k ≤ length l1 ∧ (N.of_nat (length acc') ≤ maxTx)%N ∧ (acc' = [] → k = length l1).
Proof.
  induction fuel as [|fuel IH]; intros x l1 y l2 acc c b' Hf Hq Hep Hobj Hy Hfuel Hacc Hreg; [lia|].
  apply Forall_cons in Hep as [Hx Hep]. rewrite fmap_cons in Hobj, Hreg. apply Forall_cons in Hobj as [(t & Et & Ete) Hobj].
  cbn [foldM] in Hreg. destruct (register debug h x.1 (broadcaster c)) as [b1|] eqn:Eb; [|done]. simpl in Hreg.
  assert (tid_at h x.1 = tr_tid t) as Etid by (unfold tid_at; by rewrite Et).
  cbn [agg_workload_loop]. rewrite Hx, !N.eqb_refl, andb_false_r, Et, Eb.
  unfold tq_pop. rewrite Hf. unfold tq_get_front. cbn [tq_front tq_queue]. rewrite Hq. rewrite <-Etid.
  set (local := isLocalTransaction (tid_at h x.1) (broadcaster c)).
  set (acc1 := if local then acc ++ [x.1] else acc).
  set (aq1 := if local then aggregationQueue c else aggregationQueue c ++ [x.1]).
  assert (N.of_nat (length acc1) ≤ maxTx)%N as Hacc1.
  { unfold acc1. destruct local; [rewrite length_app; simpl; lia|lia]. }
  destruct l1 as [|z l1]; cbn [app].
  - exists 0, acc1, (mkAC (mkTQ l2 (Some y)) b1 aq1). simpl.
    assert ((y.2 <=? currentEpoch)%N = false) as -> by (apply N.leb_gt; done).
    split_and!; [|by apply took_one|done|lia|done|done].
    destruct (_ <=? minTx)%N; simpl; by rewrite ?andb_false_r.
  - apply Forall_cons in Hep as [Hz Hep].
    assert ((z.2 <=? currentEpoch)%N = true) as -> by (apply N.leb_le; lia).
    set (q1 := mkTQ (l1 ++ y :: l2) (Some z)).
    assert (∀ b : bool, (if b then (true, q1) else let '(e, q0) := tq_empty q1 in (negb e, q0)) = (true, q1)) as Hb
      by (by intros []).
    rewrite Hb. cbn [andb]. destruct (N.ltb_spec (N.of_nat (length acc1)) maxTx) as [Hlt|Hge].
    + destruct (IH z l1 y l2 acc1 (mkAC q1 b1 aq1) b') as (k & acc' & c' & E & Ht & Hc & Hk & Hm & Hn); try done.
      { by constructor. }
      { simpl in Hfuel. lia. }
      exists (S k), acc', c'. rewrite E. split_and!; [done| |done|simpl; lia|done|simpl; intros E0; by rewrite (Hn E0)].
      simpl. by apply (took_cons x.1 _ acc acc' q1 b1 c c' Eb).
    + exists 0, acc1, (mkAC q1 b1 aq1). simpl. split_and!; [done|by apply took_one|done|lia|done|].
      intros E0. rewrite E0 in Hge. simpl in Hge. lia.
Qed.

Lemma own_registers l' l : ∀ b b',
  foldM (register debug h) l b = Ok b' → own b' l' = own b l' ∧ others b' l' = others b l'.
Proof.
  induction l as [|p l IH]; intros b b' E; [by injection E as <-|]. cbn [foldM] in E.
  destruct (register debug h p b) as [b1|] eqn:E1; [|done]. simpl in E.
  destruct (IH b1 b' E) as [-> ->]. by apply (own_register p).
Qed.

Lemma own_split k (l : list entry) b :
  own b l.*1 = own b (take k l).*1 ++ own b (drop k l).*1 ∧
  others b l.*1 = others b (take k l).*1 ++ others b (drop k l).*1.
Proof. unfold own, others. by rewrite <-!filter_app, <-fmap_app, take_drop. Qed.

Lemma own_others_length b l : length (own b l) + length (others b l) = length l.
Proof.
  unfold own, others. induction l as [|p l IH]; [done|]. rewrite !filter_cons.
  destruct (isLocalTransaction (tid_at h p) b); simpl; lia.
Qed.

(** A workload is for this epoch, not empty and not too long. *)
Definition workload_ok (w : Workload) : Prop :=
  wl_epoch w = currentEpoch ∧ transactionList w ≠ [] ∧ (N.of_nat (length (transactionList w)) ≤ maxTx)%N.

(** What one call of [createWorkload] did with the transactions [l] left in
    the epoch, of which it read the first [k]. *)
Definition created (l : list entry) (k : nat) (c : AggregationCoordinator) (w : option Workload)
    (c' : AggregationCoordinator) : Prop :=
  match w with
  | None => l = [] ∧ aggregationQueue c = [] ∧ aggregationQueue c' = []
  | Some w => workload_ok w ∧
      if aggregationWorkload w then
        k = length l ∧ own (broadcaster c) l.*1 = [] ∧
        transactionList w ++ aggregationQueue c' = aggregationQueue c ++ others (broadcaster c) l.*1
      else
        0 < k ∧ transactionList w = own (broadcaster c) (take k l).*1 ∧
        aggregationQueue c' = aggregationQueue c ++ others (broadcaster c) (take k l).*1
  end.

Lemma created_aggregation l c c1 w :
  (0 < maxTx)%N → Forall in_epoch (aggregationQueue c1) → own (broadcaster c) l.*1 = [] →
  aggregationQueue c1 = aggregationQueue c ++ others (broadcaster c) l.*1 → (l = [] ∨ aggregationQueue c1 ≠ []) →
  createAggregationWorkload c1 = Ok w → created l (length l) c w.1 w.2 ∧ broadcaster w.2 = broadcaster c1 ∧
    queueWrapper w.2 = queueWrapper c1.
Proof.
  intros Hm Hq Ho Ha Hl. rewrite createAggregationWorkload_spec by done. intros [= <-]. simpl. split; [|done].
  destruct (aggregationQueue c1) as [|p q] eqn:E.
  - destruct Hl as [->|]; [|done]. simpl. rewrite app_nil_r in Ha. by rewrite drop_nil.
  - split; [|simpl; by rewrite take_drop, Ha]. unfold workload_ok. cbn [wl_epoch transactionList].
    rewrite length_take. split_and!; [done| |lia]. destruct (N.to_nat maxTx) eqn:Em; [lia|done].
Qed.

Lemma agg_createWorkload_spec c l y l2 b' :
  tq_contents (queueWrapper c) = l ++ y :: l2 → Forall (λ z, z.2 = currentEpoch) l → (currentEpoch < y.2)%N →
  (0 < maxTx)%N → Forall in_epoch (l.*1 ++ aggregationQueue c) →
  foldM (register debug h) l.*1 (broadcaster c) = Ok b' →
  ∃ w c' k, agg_createWorkload c = Some (Ok (w, c')) ∧ created l k c w c' ∧ k ≤ length l ∧
    tq_contents (queueWrapper c') = drop k l ++ y :: l2 ∧
    foldM (register debug h) (take k l).*1 (broadcaster c) = Ok (broadcaster c').
Proof.
  intros Hc Hep Hy Hm [Hobj Haq]%Forall_app Hreg. destruct c as [q b aq]. simpl in *.
  destruct l as [|x l1].
  - destruct (tq_get_front_contents q y l2 Hc) as (q' & E & Hf & Hq). unfold agg_createWorkload. simpl. rewrite E.
    rewrite (proj2 (N.ltb_lt _ _) Hy).
    destruct (createAggregationWorkload (mkAC q' b aq)) as [w|] eqn:Ew;
      [|by rewrite createAggregationWorkload_spec in Ew by done].
    destruct (created_aggregation [] (mkAC q b aq) (mkAC q' b aq) w) as (Hcr & Hb & Hqw); simpl; try done;
      [by rewrite app_nil_r|by left|].
    exists w.1, w.2, 0. simpl in *. rewrite Hb, Hqw. destruct w. split_and!; try done. unfold tq_contents. simpl. by rewrite Hf, Hq.
  - destruct (tq_get_front_contents q x (l1 ++ y :: l2) Hc) as (q' & E & Hf & Hq). unfold agg_createWorkload.
    cbn [queueWrapper broadcaster aggregationQueue]. rewrite E. apply Forall_cons in Hep as Hep'. destruct Hep' as [Hx _].
    rewrite Hx, (proj2 (N.ltb_ge _ _)) by lia.
    destruct (agg_workload_loop_takes (S (length (tq_contents q'))) x l1 y l2 [] (mkAC q' b aq) b')
      as (k & acc & c1 & El & [Ha Hq1 Hr1] & Hc1 & Hk & Hmax & Hend); try done.
    { unfold tq_contents. rewrite Hf, Hq. simpl. rewrite length_app. simpl. lia. }
    rewrite El. cbn [broadcaster aggregationQueue app] in Ha, Hq1, Hr1. destruct acc as [|p acc].
    + rewrite (Hend eq_refl) in *. rewrite take_ge in Ha, Hq1, Hr1 by lia. rewrite drop_ge in Hc1 by lia.
      assert (Forall in_epoch (aggregationQueue c1)) as Hin.
      { rewrite Hq1. apply Forall_app. split; [done|]. apply Forall_forall. intros p [_ Hp]%list_elem_of_filter.
        by rewrite Forall_forall in Hobj; apply Hobj. }
      destruct (createAggregationWorkload c1) as [w|] eqn:Ew;
        [|by rewrite createAggregationWorkload_spec in Ew by done].
      destruct (created_aggregation (x :: l1) (mkAC q b aq) c1 w) as (Hcr & Hb & Hqw); try done.
      { right. rewrite Hq1. intros [_ E0]%app_nil. unfold own in Ha. unfold others in E0. rewrite fmap_cons, filter_cons in Ha, E0.
        destruct (isLocalTransaction (tid_at h x.1) b); [by rewrite decide_True in Ha|by rewrite decide_True in E0]. }
      exists w.1, w.2, (length (x :: l1)). rewrite Hb, Hqw. destruct w. split_and!; try done; [by rewrite drop_ge|].
      by rewrite take_ge.
    + eexists _, c1, (S k). split; [done|]. split_and!; [|simpl; lia|done|done].
      simpl. split; [by split|]. split_and!; [lia|done|done].
Qed.

(** What is left after a workload is less, and still of this epoch. *)
Lemma created_rest l k c w c1 :
  created l k c (Some w) c1 → k ≤ length l → Forall in_epoch (l.*1 ++ aggregationQueue c) →
  Forall in_epoch ((drop k l).*1 ++ aggregationQueue c1) ∧
  length (drop k l) + length (aggregationQueue c1) < length l + length (aggregationQueue c).
Proof.
  intros [Hw Hcr] Hk [Hi1 Hi2]%Forall_app. destruct (own_split k l (broadcaster c)) as [So St].
  assert (Forall in_epoch (aggregationQueue c ++ others (broadcaster c) l.*1)) as Hall.
  { apply Forall_app. split; [done|]. apply Forall_forall. intros p [_ Hp]%list_elem_of_filter.
    by rewrite Forall_forall in Hi1; apply Hi1. }
  pose proof (own_others_length (broadcaster c) l.*1) as Hlen. rewrite length_fmap in Hlen.
  rewrite length_drop. destruct (aggregationWorkload w).
  - destruct Hcr as (-> & _ & Eq). rewrite drop_ge by done. rewrite <-Eq in Hall. apply Forall_app in Hall as [_ Hall].
    split; [done|]. apply (f_equal length) in Eq. rewrite !length_app in Eq. destruct Hw as (_ & Hw & _).
    destruct (transactionList w); [done|]. simpl in Eq. lia.
  - destruct Hcr as (Hk0 & Hl & Eq). rewrite Eq. split.
    + apply Forall_app. split; [by rewrite fmap_drop; apply Forall_drop|].
      rewrite St in Hall. apply Forall_app. split; [done|]. by do 2 apply Forall_app in Hall as [? Hall].
    + pose proof (own_others_length (broadcaster c) (take k l).*1) as Hsum. rewrite length_fmap, length_take in Hsum.
      rewrite length_app. destruct Hw as (_ & Hw & _). destruct (transactionList w); [done|]. rewrite <-Hl in Hsum.
      simpl in Hsum. lia.
Qed.

Lemma agg_assign_S fuel c :
  agg_assign_workloads (S fuel) c =
  match agg_createWorkload c with
  | None => None
  | Some (Fatal err) => Some (Fatal err)
  | Some (Ok (None, c)) => Some (Ok ([], c))
  | Some (Ok (Some w, c)) =>
      match agg_assign_workloads fuel c with
      | Some (Ok (ws, c)) => Some (Ok (w :: ws, c))
      | other => other
      end
  end.
Proof. done. Qed.

Definition normal_load (ws : list Workload) : list N :=
  concat (transactionList <$> filter (λ w, aggregationWorkload w = false) ws).
Definition aggregation_load (ws : list Workload) : list N :=
  concat (transactionList <$> filter (λ w, aggregationWorkload w = true) ws).

Lemma loads_cons w ws :
  normal_load (w :: ws) = (if aggregationWorkload w then [] else transactionList w) ++ normal_load ws ∧
  aggregation_load (w :: ws) = (if aggregationWorkload w then transactionList w else []) ++ aggregation_load ws.
Proof. unfold normal_load, aggregation_load. rewrite !filter_cons. by destruct (aggregationWorkload w). Qed.

Lemma agg_assign_spec y l2 n : ∀ c l b',
  tq_contents (queueWrapper c) = l ++ y :: l2 → Forall (λ z, z.2 = currentEpoch) l → (currentEpoch < y.2)%N →
  (0 < maxTx)%N → Forall in_epoch (l.*1 ++ aggregationQueue c) →
  foldM (register debug h) l.*1 (broadcaster c) = Ok b' → length l + length (aggregationQueue c) < n →
  ∃ ws c', agg_assign_workloads n c = Some (Ok (ws, c')) ∧
    normal_load ws = own (broadcaster c) l.*1 ∧
    aggregation_load ws = aggregationQueue c ++ others (broadcaster c) l.*1 ∧
    broadcaster c' = b' ∧ tq_contents (queueWrapper c') = y :: l2 ∧ aggregationQueue c' = [] ∧ Forall workload_ok ws.
Proof.
  induction n as [|n IH]; intros c l b' Hc Hep Hy Hm Hin Hreg Hn; [lia|].
  destruct (agg_createWorkload_spec c l y l2 b' Hc Hep Hy Hm Hin Hreg) as (w & c1 & k & E & Hcr & Hk & Hc1 & Hr1).
  rewrite agg_assign_S, E. destruct w as [w|]; simpl in Hcr.
  2: { destruct Hcr as (-> & Ha & Ha1). rewrite take_nil in Hr1. simpl in Hreg, Hr1. exists [], c1. rewrite Ha.
       split_and!; try done; [congruence|]. by rewrite drop_nil in Hc1. }
  destruct Hcr as [Hw Hcr]. destruct (own_registers (drop k l).*1 _ _ _ Hr1) as [Ho Ht].
  destruct (own_split k l (broadcaster c)) as [So St].
  assert (foldM (register debug h) (drop k l).*1 (broadcaster c1) = Ok b') as Hreg1.
  { rewrite <-(take_drop k l), fmap_app, foldM_app, Hr1 in Hreg. done. }
  destruct (created_rest l k c w c1 (conj Hw Hcr) Hk Hin) as [Hin1 Hn1].
  destruct (IH c1 (drop k l) b') as (ws & c2 & E2 & Hnl & Hal & Hb & Hc2 & Hq2 & Hok); try done.
  { by apply Forall_drop. }
  { lia. }
  rewrite E2. exists (w :: ws), c2. destruct (loads_cons w ws) as [-> ->]. rewrite Hnl, Hal, Ho, Ht.
  split_and!; [done| | |done|done|done|by constructor]; destruct (aggregationWorkload w).
  - destruct Hcr as (-> & Eo & _). by rewrite drop_ge, Eo.
  - destruct Hcr as (_ & -> & _). by rewrite So.
  - destruct Hcr as (-> & _ & Eq). rewrite drop_ge by done. simpl. unfold others. simpl. by rewrite app_nil_r.
  - destruct Hcr as (_ & _ & ->). rewrite St. simpl. by rewrite (assoc_L (++) (aggregationQueue c)).
Qed.

(** the assignment phase of a server of a cluster.  With the transactions of
    the epoch queued in front of one of a later epoch, and a broadcaster that
    knows nothing of the epoch yet, no check fails; every transaction is
    registered with the broadcaster; those of the server's share go, in order,
    into normal workloads and the others, in order, into aggregation workloads;
    the workloads are not empty and not too long, and nothing of the epoch is
    left. *)
Theorem agg_assign_complete q b l y l2 :
  tq_contents q = l ++ y :: l2 → Forall (λ z, z.2 = currentEpoch ∧ in_epoch z.1) l → (currentEpoch < y.2)%N →
  (0 < maxTx)%N → NoDup (tid_at h <$> l.*1) → (broadcastEpoch b < currentEpoch)%N →
  epoch_map currentEpoch (listenTransaction b) = ∅ → epoch_map currentEpoch (broadcastTransaction b) = ∅ →
  ∃ ws q' b', agg_assign_workloads (S (length l)) (mkAC q b []) = Some (Ok (ws, mkAC q' b' [])) ∧
    foldM (register debug h) l.*1 b = Ok b' ∧
    normal_load ws = filter (λ p, isLocalTransaction (tid_at h p) b = true) l.*1 ∧
    aggregation_load ws = filter (λ p, isLocalTransaction (tid_at h p) b = false) l.*1 ∧
    Forall workload_ok ws ∧ tq_contents q' = y :: l2.
Proof.
  intros Hc Hl Hy Hm Hnd Hb He1 He2.
  assert (Forall in_epoch l.*1) as Hobj by (apply Forall_fmap, (Forall_impl _ _ _ Hl); by intros z [_ ?]).
  destruct (register_all debug currentEpoch h l.*1 b) as (b' & Hreg & _); [|done|done|by rewrite He1, He2|].
  { intros p Hp. by rewrite Forall_forall in Hobj; apply Hobj. }
  destruct (agg_assign_spec y l2 (S (length l)) (mkAC q b []) l b') as (ws & [q' b1 aq] & E & Hnl & Hal & Hb1 & Hc1 & Hq1 & Hok);
    simpl in *; try done.
  { apply (Forall_impl _ _ _ Hl). by intros z [? _]. }
  { by rewrite app_nil_r. }
  { lia. }
  subst. by exists ws, q', b'.
Qed.

End Workloads.

Module AggregationWorkloads.

Definition heap : txn_heap :=
  list_to_map ((λ i, (i, setTransactionID i (setEpoch 7 MockTransaction))) <$> [11; 12; 13; 14; 15])%N.
Definition queue7 : TransactionQueueWrapper := mkTQ [(11, 7); (12, 7); (13, 7); (14, 7); (15, 7); (21, 8)]%N None.
(** The second of two servers. *)
Definition b0 : AggregationBroadcaster := mkAB 6 1 2 ∅ ∅.

Lemma agg_assign_complete_witness :
  ∃ ws q' b', agg_assign_workloads true 7 1 2 heap 6 (mkAC queue7 b0 []) = Some (Ok (ws, mkAC q' b' [])) ∧
    foldM (register true heap) [11; 12; 13; 14; 15]%N b0 = Ok b' ∧
    normal_load ws = filter (λ p, isLocalTransaction (tid_at heap p) b0 = true) [11; 12; 13; 14; 15]%N ∧
    aggregation_load ws = filter (λ p, isLocalTransaction (tid_at heap p) b0 = false) [11; 12; 13; 14; 15]%N ∧
    Forall (workload_ok 7 2) ws ∧ tq_contents q' = [(21, 8)]%N.
Proof.
  apply (agg_assign_complete true 7 1 2 heap queue7 b0 [(11, 7); (12, 7); (13, 7); (14, 7); (15, 7)]%N (21, 8)%N []).
  - reflexivity.
  - repeat (constructor; [split; [reflexivity|eexists; split; reflexivity]|]). constructor.
  - reflexivity.
  - reflexivity.
  - apply (bool_decide_unpack _). vm_compute. exact I.
  - reflexivity.
  - reflexivity.
  - reflexivity.
Defined.

Example workloads_of_seven :
  match agg_assign_workloads true 7 1 2 heap 6 (mkAC queue7 b0 []) with
  | Some (Ok (ws, _)) => (λ w, (transactionList w, aggregationWorkload w)) <$> ws
  | _ => []
  end = [([11; 13], false); ([15], false); ([12; 14], true)]%N.
Proof. vm_compute. reflexivity. Qed.

End AggregationWorkloads.
