(* ===== verification/Protocol.v ===== *)
(** * The protocol between the coordinator and its workers

    [AriaCoordinator::run] and [AriaWorker::run] as a step relation.  Each side
    reads and writes [workerState] and [ariaGlobalState] of an instance under
    the instance's locks; the coordinator visits the workers one by one while
    the workers move on, so every visit is a step of its own.

    The ghost state is a log of the calls of [executeList] and [commitList] of
    the current epoch, and the logs of the finished epochs. *)
From S2P Require Import Prelude Coordinator.
From stdpp Require Import base list gmap.

Local Notation load := (list N) (only parsing).

(** Where a worker thread is in [AriaWorker::run]. *)
Inductive wpc := WBoot | WWaitRead | WExec | WWaitCommit | WCommit | WStopped.

Record winst := mkW {
  workerState : WorkerState; ariaGlobalState : AriaGlobalState; w_pc : wpc; w_load : load }.

Inductive event := EvExec (i : nat) (l : load) | EvCommit (i : nat) (l : load).

(** Where the coordinator is in its loop.  The lists are the workloads still to
    deploy, or the workers still to visit. *)
Inductive cpc :=
  | CAssign (pending : list load)
  | CBoot (i : nat) (pending : list load)
  | CSignal (i : nat) (pending : list load)
  | CReadBroadcast (rest : list nat)
  | CReadSync (rest : list nat)
  | CWaitEpoch
  | CCommitBroadcast (rest : list nat)
  | CCommitSync (rest : list nat).

Record cstate := mkC {
  c_pc : cpc; c_workers : list winst; c_log : list event;
  c_deployed : list (nat * load); c_loads : list load;
  c_history : list (list load * list event) }.

Definition all_workers {A} (ws : list A) : list nat := seq 0 (length ws).

Definition set_signal (g : AriaGlobalState) (w : winst) : winst :=
  mkW (workerState w) g (w_pc w) (w_load w).

(** The scan of [deployWorkload]: the first worker that is READY. *)
Fixpoint first_ready (k : nat) (ws : list winst) : option nat :=
  match ws with
  | [] => None
  | w :: ws' => if decide (workerState w = READY) then Some k else first_ready (S k) ws'
  end.

(** The loop body of [broadcastToAllWorkers] (with [onlyAssigned]). *)
Definition broadcast_one (g : AriaGlobalState) (w : winst) : winst :=
  if decide (workerState w = READY) then w else set_signal g w.

(** [syncAllWorker] (with [onlyAssigned]) moves past a worker. *)
Definition sync_passes (target : WorkerState) (w : winst) : bool :=
  bool_decide (workerState w = READY ∨ workerState w = target).

(** ** The surroundings

    The coordinator waits for others: for transactions ([createWorkload] blocks
    on the front of the queue, and the end of an epoch is known when one of the
    next epoch is there), for the votes of all servers on the epoch
    ([waitUntilCurrentEpochFinish]), for the results of the servers that share
    the execution, and for [epochTransactionFinishSignal], which may wait for the
    block.  [cenv] says, by the number of epochs finished before, what has come
    so far: how many calls of [createWorkload] can return, and whether each of
    the others can. *)
Record cenv := mkEnv {
  calls_return : nat → nat; all_voted : nat → bool; results_in : nat → bool; callback_returns : nat → bool }.

(** ** Steps of the coordinator *)
Inductive coord_step (e : cenv) : cstate → cstate → Prop :=
  | cs_deploy l pending ws log dep loads hist i w :
      first_ready 0 ws = Some i → ws !! i = Some w → length dep < calls_return e (length hist) →
      coord_step e (mkC (CAssign (l :: pending)) ws log dep loads hist)
        (mkC (CSignal i pending) (<[i := mkW ASSIGNED (ariaGlobalState w) (w_pc w) l]> ws) log
           (dep ++ [(i, l)]) loads hist)
  | cs_deploy_new l pending ws log dep loads hist :
      first_ready 0 ws = None → length dep < calls_return e (length hist) →
      coord_step e (mkC (CAssign (l :: pending)) ws log dep loads hist)
        (mkC (CBoot (length ws) pending) (ws ++ [mkW READY START WBoot l]) log
           (dep ++ [(length ws, l)]) loads hist)
  | cs_booted i pending ws log dep loads hist w :
      ws !! i = Some w → workerState w = ASSIGNED →
      coord_step e (mkC (CBoot i pending) ws log dep loads hist)
        (mkC (CSignal i pending) ws log dep loads hist)
  | cs_signal i pending ws log dep loads hist w :
      ws !! i = Some w →
      coord_step e (mkC (CSignal i pending) ws log dep loads hist)
        (mkC (CAssign pending) (<[i := set_signal Aria_READ w]> ws) log dep loads hist)
  | cs_assigned ws log dep loads hist :
      length dep < calls_return e (length hist) →
      coord_step e (mkC (CAssign []) ws log dep loads hist)
        (mkC (CReadBroadcast (all_workers ws)) ws log dep loads hist)
  | cs_read_broadcast i rest ws log dep loads hist w :
      ws !! i = Some w →
      coord_step e (mkC (CReadBroadcast (i :: rest)) ws log dep loads hist)
        (mkC (CReadBroadcast rest) (<[i := broadcast_one Aria_READ w]> ws) log dep loads hist)
  | cs_read_broadcast_end ws log dep loads hist :
      coord_step e (mkC (CReadBroadcast []) ws log dep loads hist)
        (mkC (CReadSync (all_workers ws)) ws log dep loads hist)
  | cs_read_sync i rest ws log dep loads hist w :
      ws !! i = Some w → sync_passes FINISH_READ w = true →
      coord_step e (mkC (CReadSync (i :: rest)) ws log dep loads hist)
        (mkC (CReadSync rest) ws log dep loads hist)
  | cs_read_sync_end ws log dep loads hist :
      coord_step e (mkC (CReadSync []) ws log dep loads hist)
        (mkC CWaitEpoch ws log dep loads hist)
  | cs_wait_epoch ws log dep loads hist :
      all_voted e (length hist) = true →
      coord_step e (mkC CWaitEpoch ws log dep loads hist)
        (mkC (CCommitBroadcast (all_workers ws)) ws log dep loads hist)
  | cs_commit_broadcast i rest ws log dep loads hist w :
      ws !! i = Some w →
      coord_step e (mkC (CCommitBroadcast (i :: rest)) ws log dep loads hist)
        (mkC (CCommitBroadcast rest) (<[i := broadcast_one Aria_COMMIT w]> ws) log dep loads hist)
  | cs_commit_broadcast_end ws log dep loads hist :
      coord_step e (mkC (CCommitBroadcast []) ws log dep loads hist)
        (mkC (CCommitSync (all_workers ws)) ws log dep loads hist)
  | cs_commit_sync i rest ws log dep loads hist w :
      ws !! i = Some w → sync_passes READY w = true →
      coord_step e (mkC (CCommitSync (i :: rest)) ws log dep loads hist)
        (mkC (CCommitSync rest) ws log dep loads hist)
  | cs_next_epoch ws log dep loads hist loads' :
      callback_returns e (length hist) = true →
      coord_step e (mkC (CCommitSync []) ws log dep loads hist)
        (mkC (CAssign loads') ws [] [] loads' (hist ++ [(loads, log)])).

(** ** Steps of a worker *)
Inductive worker_step (i : nat) : winst → option event → winst → Prop :=
  | ws_boot g l :
      worker_step i (mkW READY g WBoot l) None (mkW ASSIGNED g WWaitRead l)
  | ws_read s l :
      worker_step i (mkW s Aria_READ WWaitRead l) None (mkW s Aria_READ WExec l)
  | ws_exec s g l :
      worker_step i (mkW s g WExec l) (Some (EvExec i l)) (mkW FINISH_READ g WWaitCommit l)
  | ws_commit_signal s l :
      worker_step i (mkW s Aria_COMMIT WWaitCommit l) None (mkW s Aria_COMMIT WCommit l)
  | ws_commit s g l :
      worker_step i (mkW s g WCommit l) (Some (EvCommit i l)) (mkW READY g WWaitRead l)
  | ws_exit s pc l :
      pc = WWaitRead ∨ pc = WWaitCommit →
      worker_step i (mkW s EXIT pc l) None (mkW EXITED EXIT WStopped l).

Definition add_event (o : option event) (log : list event) : list event :=
  match o with Some ev => log ++ [ev] | None => log end.

Inductive step_in (e : cenv) : cstate → cstate → Prop :=
  | step_coord s s' : coord_step e s s' → step_in e s s'
  | step_worker pc ws log dep loads hist i w o w' :
      ws !! i = Some w → worker_step i w o w' →
      step_in e (mkC pc ws log dep loads hist)
        (mkC pc (<[i := w']> ws) (add_event o log) dep loads hist).

(** A step in some surroundings, which may change from step to step. *)
Definition step (s s' : cstate) : Prop := ∃ e, step_in e s s'.

Definition cinit (loads : list load) : cstate := mkC (CAssign loads) [] [] [] loads [].

(** ** The invariant *)
Inductive phase := PIdle | PBoot | PFresh | PReading | PReadDone | PCommitting | PDone.

(** What the instance looks like in a phase. *)
Definition phase_ok (p : phase) (w : winst) : Prop :=
  match p with
  | PIdle | PDone => workerState w = READY ∧ ariaGlobalState w = Aria_COMMIT ∧ w_pc w = WWaitRead
  | PBoot => workerState w = READY ∧ ariaGlobalState w = START ∧ w_pc w = WBoot
  | PFresh => workerState w = ASSIGNED ∧
      (ariaGlobalState w = START ∨ ariaGlobalState w = Aria_COMMIT) ∧ w_pc w = WWaitRead
  | PReading => workerState w = ASSIGNED ∧ ariaGlobalState w = Aria_READ ∧
      (w_pc w = WWaitRead ∨ w_pc w = WExec)
  | PReadDone => workerState w = FINISH_READ ∧ ariaGlobalState w = Aria_READ ∧
      w_pc w = WWaitCommit
  | PCommitting => workerState w = FINISH_READ ∧ ariaGlobalState w = Aria_COMMIT ∧
      (w_pc w = WWaitCommit ∨ w_pc w = WCommit)
  end.

(** The phases a worker may be in, by the coordinator's position. *)
Definition assigning (p : phase) : Prop := p = PIdle ∨ p = PReading ∨ p = PReadDone.

Definition allowed (c : cpc) (i : nat) (p : phase) : Prop :=
  match c with
  | CAssign _ | CReadBroadcast _ => assigning p
  | CBoot k _ => if decide (i = k) then p = PBoot ∨ p = PFresh else assigning p
  | CSignal k _ => if decide (i = k) then p = PFresh else assigning p
  | CReadSync rest => p = PIdle ∨ p = PReadDone ∨ (p = PReading ∧ i ∈ rest)
  | CWaitEpoch => p = PIdle ∨ p = PReadDone
  | CCommitBroadcast rest =>
      p = PIdle ∨ (p = PReadDone ∧ i ∈ rest) ∨ p = PCommitting ∨ p = PDone
  | CCommitSync rest => p = PIdle ∨ p = PDone ∨ (p = PCommitting ∧ i ∈ rest)
  end.

Definition before_commit (c : cpc) : bool :=
  match c with CCommitBroadcast _ | CCommitSync _ => false | _ => true end.

Definition pending_of (c : cpc) : list load :=
  match c with CAssign l | CBoot _ l | CSignal _ l => l | _ => [] end.

Definition executed_phase (p : phase) : Prop := p = PReadDone ∨ p = PCommitting ∨ p = PDone.

(** The ghost lists agree with the phase of worker [i]. *)
Definition linked (dep xs ys : list (nat * load)) (i : nat) (w : winst) (p : phase) : Prop :=
  (∀ l, (i, l) ∈ dep ↔ p ≠ PIdle ∧ l = w_load w) ∧
  (∀ l, (i, l) ∈ xs ↔ executed_phase p ∧ l = w_load w) ∧
  (∀ l, (i, l) ∈ ys ↔ p = PDone ∧ l = w_load w).

Definition worker_inv (c : cpc) (dep xs ys : list (nat * load)) (i : nat) (w : winst) : Prop :=
  ∃ p, phase_ok p w ∧ allowed c i p ∧ linked dep xs ys i w p.

Definition in_range {A} (n : nat) (l : list (nat * A)) : Prop := ∀ i x, (i, x) ∈ l → i < n.

(** The log of an epoch: executions, then commits. *)
Definition log_of (xs ys : list (nat * load)) : list event :=
  ((λ p, EvExec p.1 p.2) <$> xs) ++ ((λ p, EvCommit p.1 p.2) <$> ys).

(** The workers that the coordinator still has to visit exist. *)
Definition pc_range (n : nat) (c : cpc) : Prop :=
  match c with
  | CBoot k _ | CSignal k _ => k < n
  | CReadBroadcast r | CReadSync r | CCommitBroadcast r | CCommitSync r => Forall (λ i, i < n) r
  | _ => True
  end.

(** What a finished epoch looks like. *)
Definition epoch_log_ok (e : list load * list event) : Prop :=
  ∃ xs ys, e.2 = log_of xs ys ∧ NoDup xs.*1 ∧ ys ≡ₚ xs ∧ xs.*2 ≡ₚ e.1.

Record cinv (s : cstate) : Prop := {
  iv_log : ∃ xs ys, c_log s = log_of xs ys ∧ NoDup xs ∧ NoDup ys ∧
    in_range (length (c_workers s)) xs ∧ in_range (length (c_workers s)) ys ∧
    (before_commit (c_pc s) = true → ys = []) ∧
    (∀ i w, c_workers s !! i = Some w → worker_inv (c_pc s) (c_deployed s) xs ys i w);
  iv_dep : NoDup (c_deployed s).*1 ∧ in_range (length (c_workers s)) (c_deployed s);
  iv_loads : (c_deployed s).*2 ++ pending_of (c_pc s) = c_loads s;
  iv_pc : pc_range (length (c_workers s)) (c_pc s);
  iv_hist : Forall epoch_log_ok (c_history s) }.

(** ** Preservation *)
Lemma workers_update {A} (P Q : nat → A → Prop) (ws : list A) i w' :
  (∀ j w, ws !! j = Some w → P j w) → (∀ j w, j ≠ i → P j w → Q j w) → Q i w' →
  ∀ j w, <[i := w']> ws !! j = Some w → Q j w.
Proof.
  intros HP HQ Hi j w Hj. destruct (decide (j = i)) as [->|Hne].
  - pose proof (lookup_lt_Some _ _ _ Hj) as Hlt. rewrite length_insert in Hlt.
    rewrite list_lookup_insert_eq in Hj by done. by simplify_eq.
  - rewrite list_lookup_insert_ne in Hj by done. eauto.
Qed.

(** A worker's invariant only depends on the entries of that worker. *)
Lemma worker_inv_other c c' dep dep' xs xs' ys ys' i w :
  worker_inv c dep xs ys i w →
  (∀ p, allowed c i p → allowed c' i p) →
  (∀ l, (i, l) ∈ dep' ↔ (i, l) ∈ dep) → (∀ l, (i, l) ∈ xs' ↔ (i, l) ∈ xs) →
  (∀ l, (i, l) ∈ ys' ↔ (i, l) ∈ ys) →
  worker_inv c' dep' xs' ys' i w.
Proof.
  intros (p & Hp & Ha & L1 & L2 & L3) Hc Hd Hx Hy. exists p.
  split_and!; [done|by apply Hc|]. split_and!; intros l; rewrite ?Hd, ?Hx, ?Hy; auto.
Qed.

Lemma entry_snoc_ne {A} (l : list (nat * A)) i j x y :
  i ≠ j → (i, x) ∈ l ++ [(j, y)] ↔ (i, x) ∈ l.
Proof. intros Hne. rewrite elem_of_app, list_elem_of_singleton. naive_solver. Qed.

Lemma in_range_snoc {A} n (l : list (nat * A)) i x : in_range n l → i < n → in_range n (l ++ [(i, x)]).
Proof.
  intros Hl Hi j y [Hj|Hj%list_elem_of_singleton]%elem_of_app; [eauto|by simplify_eq].
Qed.

Lemma in_range_mono {A} n m (l : list (nat * A)) : in_range n l → n ≤ m → in_range m l.
Proof. intros Hl Hm i x Hi. specialize (Hl i x Hi). lia. Qed.

Lemma log_of_exec xs i l : log_of xs [] ++ [EvExec i l] = log_of (xs ++ [(i, l)]) [].
Proof. unfold log_of. by rewrite fmap_app, !app_nil_r. Qed.
Lemma log_of_commit xs ys i l :
  log_of xs ys ++ [EvCommit i l] = log_of xs (ys ++ [(i, l)]).
Proof. unfold log_of. by rewrite fmap_app, (assoc_L (++)). Qed.

Lemma reading_before_commit c i : allowed c i PReading → before_commit c = true.
Proof. destruct c; simpl; try done; naive_solver. Qed.

Lemma allowed_read_done c i : allowed c i PReading → allowed c i PReadDone.
Proof.
  destruct c; simpl; unfold assigning; try (case_decide); naive_solver.
Qed.

Lemma allowed_done c i : allowed c i PCommitting → allowed c i PDone.
Proof.
  destruct c; simpl; unfold assigning; try (case_decide); naive_solver.
Qed.

Lemma allowed_fresh c i : allowed c i PBoot → allowed c i PFresh.
Proof. destruct c; simpl; unfold assigning; try (case_decide); naive_solver. Qed.

(** Only one phase fits the fields of the instance. *)
Ltac phases p Hp := destruct p; simpl in Hp; destruct_and? Hp; destruct_or?; try congruence.

(** The same entries described for the new phase. *)
Ltac relink L1 L2 L3 :=
  split_and!; intros ?; rewrite ?elem_of_app, ?list_elem_of_singleton, ?L1, ?L2, ?L3;
  clear L1 L2 L3; unfold executed_phase; simpl; naive_solver.

(** What a worker's step does to its phase and to the ghost lists. *)
Lemma worker_step_inv c dep xs ys i w o w' :
  worker_inv c dep xs ys i w → worker_step i w o w' →
  (before_commit c = true → ys = []) →
  ∃ xs' ys', worker_inv c dep xs' ys' i w' ∧
    add_event o (log_of xs ys) = log_of xs' ys' ∧
    (before_commit c = true → ys' = []) ∧
    ((xs' = xs ∧ ys' = ys) ∨
     (xs' = xs ++ [(i, w_load w)] ∧ ys' = ys ∧ ∀ l, (i, l) ∉ xs) ∨
     (xs' = xs ∧ ys' = ys ++ [(i, w_load w)] ∧ ∀ l, (i, l) ∉ ys)).
Proof.
  intros (p & Hp & Ha & L1 & L2 & L3) Hs Hbc.
  destruct Hs as [g l|s l|s g l|s l|s g l|s pc l Hpc]; simpl in *.
  - phases p Hp. exists xs, ys. split_and!; [|done|done|by left].
    exists PFresh. split_and!; [simpl; auto|by apply allowed_fresh|]. relink L1 L2 L3.
  - phases p Hp. exists xs, ys. split_and!; [|done|done|by left].
    exists PReading. split_and!; [simpl; auto|done|]. relink L1 L2 L3.
  - phases p Hp.
    assert (∀ l', (i, l') ∉ xs) as Hx.
    { intros l' Hl'. apply L2 in Hl' as [[?|[?|?]] _]; done. }
    pose proof (Hbc (reading_before_commit _ _ Ha)) as ->.
    exists (xs ++ [(i, l)]), []. split_and!; [|by rewrite log_of_exec|done|right; left; done].
    exists PReadDone. split_and!; [done|by apply allowed_read_done|]. clear Hbc. relink L1 L2 L3.
  - phases p Hp. exists xs, ys. split_and!; [|done|done|by left].
    exists PCommitting. split_and!; [simpl; auto|done|]. relink L1 L2 L3.
  - phases p Hp.
    assert (∀ l', (i, l') ∉ ys) as Hy by (intros l' Hl'; apply L3 in Hl' as [? _]; done).
    assert (before_commit c = false) as Hbf.
    { clear -Ha. destruct c; simpl in *; unfold assigning in *; repeat case_decide; naive_solver. }
    exists xs, (ys ++ [(i, l)]). rewrite log_of_commit.
    split_and!; [|done|by rewrite Hbf|right; right; done].
    exists PDone. split_and!; [done|by apply allowed_done|]. clear Hbc. relink L1 L2 L3.
  - destruct Hpc as [->| ->]; phases p Hp.
Qed.

Lemma NoDup_snoc_fresh {A} (l : list (nat * A)) i x :
  NoDup l → (∀ y, (i, y) ∉ l) → NoDup (l ++ [(i, x)]).
Proof.
  intros Hnd Hf. apply NoDup_app. split_and!; [done| |apply NoDup_singleton].
  intros z Hz Hz'%list_elem_of_singleton. subst. by apply (Hf x).
Qed.

Lemma step_worker_inv pc ws log dep loads hist i w o w' :
  cinv (mkC pc ws log dep loads hist) → ws !! i = Some w → worker_step i w o w' →
  cinv (mkC pc (<[i := w']> ws) (add_event o log) dep loads hist).
Proof.
  intros [(xs & ys & Hlog & Nx & Ny & Rx & Ry & Hbc & Hw) Hdep Hl Hpc Hh] Hi Hs. simpl in *.
  pose proof (lookup_lt_Some _ _ _ Hi) as Hlt.
  destruct (worker_step_inv pc dep xs ys i w o w' (Hw i w Hi) Hs Hbc)
    as (xs' & ys' & Hinv & Hlog' & Hbc' & Hcase).
  split; simpl; rewrite ?length_insert; [|done|done|done|done].
  exists xs', ys'. rewrite Hlog. split; [done|].
  assert (NoDup xs' ∧ NoDup ys' ∧ in_range (length ws) xs' ∧ in_range (length ws) ys' ∧
    ∀ j l, j ≠ i → ((j, l) ∈ xs' ↔ (j, l) ∈ xs) ∧ ((j, l) ∈ ys' ↔ (j, l) ∈ ys))
    as (N1 & N2 & R1 & R2 & Hj).
  { destruct Hcase as [[-> ->]|[(-> & -> & Hf)|(-> & -> & Hf)]].
    - by split_and!.
    - split_and!; [by apply NoDup_snoc_fresh|done|by apply in_range_snoc|done|].
      intros j l Hne. by rewrite entry_snoc_ne.
    - split_and!; [done|by apply NoDup_snoc_fresh|done|by apply in_range_snoc|].
      intros j l Hne. by rewrite entry_snoc_ne. }
  split_and!; [done|done|done|done|done|].
  apply (workers_update _ _ ws i w' Hw); [|done]. intros j v Hne Hv.
  eapply worker_inv_other; [exact Hv|done|done| |]; intros l; by apply Hj.
Qed.

(** A step of the coordinator that touches no worker. *)
Lemma step_pc_inv c c' ws log dep loads hist :
  cinv (mkC c ws log dep loads hist) →
  (∀ i p, i < length ws → allowed c i p → allowed c' i p) →
  (before_commit c' = true → before_commit c = true) →
  pending_of c' = pending_of c →
  pc_range (length ws) c' →
  cinv (mkC c' ws log dep loads hist).
Proof.
  intros [(xs & ys & Hlog & Nx & Ny & Rx & Ry & Hbc & Hw) Hdep Hl Hpc Hh] Ha Hb Hp Hk.
  simpl in *. split; simpl; [|done|by rewrite Hp|done|done].
  exists xs, ys. split_and!; [done|done|done|done|done|auto|].
  intros i w Hi. eapply worker_inv_other; [by apply Hw| |done|done|done].
  intros p. apply Ha. by eapply lookup_lt_Some.
Qed.

(** A step of the coordinator that writes one instance and keeps the ghost
    lists. *)
Lemma step_signal_inv c c' ws log dep loads hist i w w' :
  cinv (mkC c ws log dep loads hist) → ws !! i = Some w → w_load w' = w_load w →
  (∀ p, phase_ok p w → allowed c i p → ∃ p', phase_ok p' w' ∧ allowed c' i p' ∧
     (p' = PIdle ↔ p = PIdle) ∧ (executed_phase p' ↔ executed_phase p) ∧ (p' = PDone ↔ p = PDone)) →
  (∀ j p, j ≠ i → allowed c j p → allowed c' j p) →
  (before_commit c' = true → before_commit c = true) →
  pending_of c' = pending_of c →
  pc_range (length ws) c' →
  cinv (mkC c' (<[i := w']> ws) log dep loads hist).
Proof.
  intros [(xs & ys & Hlog & Nx & Ny & Rx & Ry & Hbc & Hw) Hdep Hl Hpc Hh] Hi Hload Hph Ha Hb Hp Hk.
  simpl in *. split; simpl; rewrite ?length_insert; [|done|by rewrite Hp|done|done].
  exists xs, ys. split_and!; [done|done|done|done|done|auto|].
  apply (workers_update _ _ ws i w' Hw).
  - intros j v Hne Hv. eapply worker_inv_other; [exact Hv| |done|done|done]. intros p. by apply Ha.
  - destruct (Hw i w Hi) as (p & Hp1 & Hp2 & L1 & L2 & L3).
    destruct (Hph p Hp1 Hp2) as (p' & H1 & H2 & E1 & E2 & E3). exists p'.
    split_and!; [done|done|]. unfold linked.
    split_and!; intros l; rewrite Hload, ?L1, ?L2, ?L3, ?E1, ?E2, ?E3; done.
Qed.

(** Signalling [Aria_READ] to a worker that is reading or has read. *)
Lemma broadcast_read_phase w p :
  phase_ok p w → assigning p → phase_ok p (broadcast_one Aria_READ w).
Proof.
  unfold assigning, broadcast_one, set_signal. intros Hp [->|[->| ->]]; simpl in *;
    destruct_and? Hp; case_decide; simpl; try congruence; auto.
Qed.

Lemma first_ready_Some k ws i :
  first_ready k ws = Some i →
  ∃ j w, i = k + j ∧ ws !! j = Some w ∧ workerState w = READY.
Proof.
  revert k. induction ws as [|w ws IH]; intros k; simpl; [done|]. case_decide.
  - intros E. simplify_eq. exists 0, w. split_and!; [lia|done|done].
  - intros (j & v & -> & Hj & Hv)%IH. exists (S j), v. split_and!; [lia|done|done].
Qed.

Lemma linked_dep_fresh dep xs ys i w : linked dep xs ys i w PIdle → ∀ l, (i, l) ∉ dep.
Proof. intros (L1 & _) l Hl. by apply L1 in Hl as [? _]. Qed.

Lemma NoDup_fst_snoc {A} (dep : list (nat * A)) i l :
  NoDup dep.*1 → (∀ x, (i, x) ∉ dep) → NoDup (dep ++ [(i, l)]).*1.
Proof.
  intros Hnd Hf. rewrite fmap_app. apply NoDup_app. split_and!; [done| |apply NoDup_singleton].
  intros j Hj Hj'%list_elem_of_singleton. simpl in Hj'. subst.
  apply list_elem_of_fmap in Hj as ([j x] & -> & Hx). by apply (Hf x).
Qed.

Lemma deploy_inv l pending ws log dep loads hist i w :
  cinv (mkC (CAssign (l :: pending)) ws log dep loads hist) →
  first_ready 0 ws = Some i → ws !! i = Some w →
  cinv (mkC (CSignal i pending) (<[i := mkW ASSIGNED (ariaGlobalState w) (w_pc w) l]> ws) log
           (dep ++ [(i, l)]) loads hist).
Proof.
  intros [(xs & ys & Hlog & Nx & Ny & Rx & Ry & Hbc & Hw) [Hd1 Hd2] Hl Hpc Hh] Hfr Hi.
  simpl in *. pose proof (lookup_lt_Some _ _ _ Hi) as Hlt.
  apply first_ready_Some in Hfr as (j & v & -> & Hj & Hv). simpl in *. simplify_eq.
  destruct (Hw j v Hj) as (p & Hp & Ha & L). simpl in Ha.
  assert (p = PIdle) as ->.
  { destruct Ha as [->|[->| ->]]; [done| |]; simpl in Hp; destruct_and? Hp; congruence. }
  pose proof (linked_dep_fresh _ _ _ _ _ L) as Hf.
  split; simpl; rewrite ?length_insert; [| | |done|done].
  - exists xs, ys. split_and!; [done|done|done|done|done|done|].
    apply (workers_update _ _ ws j _ Hw).
    + intros k u Hne Hu. eapply worker_inv_other; [exact Hu| | |done|done].
      * intros q. simpl. by rewrite decide_False.
      * intros x. by rewrite entry_snoc_ne.
    + exists PFresh. simpl in Hp. destruct Hp as (_ & Hp1 & Hp2). destruct L as (L1 & L2 & L3).
      split_and!; [simpl; auto|simpl; by rewrite decide_True|]. relink L1 L2 L3.
  - split; [by apply NoDup_fst_snoc|]. by apply in_range_snoc.
  - try subst loads. rewrite fmap_app. simpl. by rewrite <-(assoc_L (++)).
Qed.

Lemma deploy_new_inv l pending ws log dep loads hist :
  cinv (mkC (CAssign (l :: pending)) ws log dep loads hist) →
  cinv (mkC (CBoot (length ws) pending) (ws ++ [mkW READY START WBoot l]) log
           (dep ++ [(length ws, l)]) loads hist).
Proof.
  intros [(xs & ys & Hlog & Nx & Ny & Rx & Ry & Hbc & Hw) [Hd1 Hd2] Hl Hpc Hh]. simpl in *.
  assert (∀ x, (length ws, x) ∉ dep) as Hf by (intros x Hx; specialize (Hd2 _ _ Hx); lia).
  assert (∀ x, (length ws, x) ∉ xs) as Hfx by (intros x Hx; specialize (Rx _ _ Hx); lia).
  assert (∀ x, (length ws, x) ∉ ys) as Hfy by (intros x Hx; specialize (Ry _ _ Hx); lia).
  split; simpl; rewrite ?length_app; simpl; [| | |lia|done].
  - exists xs, ys. split_and!; [done|done|done|eapply in_range_mono; [done|lia]|
      eapply in_range_mono; [done|lia]|done|].
    intros i w Hi. apply lookup_app_Some in Hi as [Hi|[Hge Hi]].
    + pose proof (lookup_lt_Some _ _ _ Hi) as Hlt.
      eapply worker_inv_other; [by apply Hw| | |done|done].
      * intros q. simpl. rewrite decide_False by lia. done.
      * intros x. rewrite entry_snoc_ne by lia. done.
    + assert (i = length ws) as ->.
      { apply lookup_lt_Some in Hi. simpl in Hi. lia. }
      rewrite Nat.sub_diag in Hi. simpl in Hi. simplify_eq. exists PBoot.
      split_and!; [done|simpl; rewrite decide_True by done; by left|].
      unfold executed_phase. split_and!; intros x; simpl.
      * rewrite elem_of_app, list_elem_of_singleton. split.
        { intros [Hx|Hx]; [by destruct (Hf x)|]. by simplify_eq. }
        intros [_ ->]. by right.
      * split; [intros Hx; by destruct (Hfx x)|]. intros [[?|[?|?]] _]; done.
      * split; [intros Hx; by destruct (Hfy x)|]. by intros [Hx _].
  - split; [by apply NoDup_fst_snoc|]. apply in_range_snoc; [|lia].
    eapply in_range_mono; [done|lia].
  - try subst loads. rewrite fmap_app. simpl. by rewrite <-(assoc_L (++)).
Qed.

Lemma allowed_all {A} (ws : list A) i : i < length ws → i ∈ all_workers ws.
Proof. intros Hi. apply elem_of_seq. lia. Qed.

Lemma all_workers_range {A} (ws : list A) : Forall (λ i, i < length ws) (all_workers ws).
Proof. apply Forall_forall. intros i Hi%elem_of_seq. lia. Qed.

(** At the end of the commit phase every workload was executed once and
    committed once. *)
Lemma finished_epoch ws log dep loads hist :
  cinv (mkC (CCommitSync []) ws log dep loads hist) → epoch_log_ok (loads, log).
Proof.
  intros [(xs & ys & Hlog & Nx & Ny & Rx & Ry & _ & Hw) [Hd1 Hd2] Hl _ _]. simpl in *.
  rewrite app_nil_r in Hl.
  assert (∀ i l, ((i, l) ∈ xs ↔ (i, l) ∈ dep) ∧ ((i, l) ∈ ys ↔ (i, l) ∈ dep)) as Hiff.
  { intros i l. destruct (decide (i < length ws)) as [Hi|Hi].
    - destruct (lookup_lt_is_Some_2 ws i Hi) as [w Hwi].
      destruct (Hw i w Hwi) as (p & _ & Ha & L1 & L2 & L3). rewrite L1, L2, L3.
      simpl in Ha. unfold executed_phase.
      destruct Ha as [->|[->|[_ Hn]]]; [| |by apply not_elem_of_nil in Hn]; clear; naive_solver.
    - split; split; intros HH; exfalso; apply Hi;
        [by eapply Rx|by eapply Hd2|by eapply Ry|by eapply Hd2]. }
  assert (NoDup dep) as Hd by (by eapply NoDup_fmap_1).
  assert (xs ≡ₚ dep) as Hxd by (apply NoDup_Permutation; [done|done|]; intros [i l]; apply Hiff).
  assert (ys ≡ₚ dep) as Hyd by (apply NoDup_Permutation; [done|done|]; intros [i l]; apply Hiff).
  exists xs, ys. simpl. split_and!; [done| | |].
  - by rewrite Hxd.
  - by rewrite Hyd, Hxd.
  - by rewrite Hxd, Hl.
Qed.

Lemma next_epoch_inv ws log dep loads hist loads' :
  cinv (mkC (CCommitSync []) ws log dep loads hist) →
  cinv (mkC (CAssign loads') ws [] [] loads' (hist ++ [(loads, log)])).
Proof.
  intros Hinv. pose proof (finished_epoch _ _ _ _ _ Hinv) as Hok.
  destruct Hinv as [(xs & ys & Hlog & Nx & Ny & Rx & Ry & _ & Hw) _ _ _ Hh]. simpl in *.
  split; simpl; [| |done|done|].
  - exists [], []. split_and!; try done; try apply NoDup_nil_2;
      try (intros i x Hx; by apply not_elem_of_nil in Hx).
    intros i w Hi. destruct (Hw i w Hi) as (p & Hp & Ha & _). exists PIdle.
    simpl in Ha. split_and!.
    + destruct Ha as [->|[->|[_ Hn]]]; [done|done|by apply not_elem_of_nil in Hn].
    + by left.
    + split_and!; intros l; (split; [by intros HH%not_elem_of_nil|]).
      * by intros [? _].
      * intros [[?|[?|?]] _]; done.
      * by intros [? _].
  - split; [apply NoDup_nil_2|]. intros i x Hx. by apply not_elem_of_nil in Hx.
  - apply Forall_app. split; [done|]. by constructor.
Qed.

(** The commit signal reaches a worker that has read. *)
Lemma commit_broadcast_phase i rest w p :
  phase_ok p w → p = PIdle ∨ p = PReadDone ∨ p = PCommitting ∨ p = PDone →
  ∃ p', phase_ok p' (broadcast_one Aria_COMMIT w) ∧ allowed (CCommitBroadcast rest) i p' ∧
    (p' = PIdle ↔ p = PIdle) ∧ (executed_phase p' ↔ executed_phase p) ∧ (p' = PDone ↔ p = PDone).
Proof.
  unfold executed_phase. intros Hp Hcase.
  exists (match p with PReadDone => PCommitting | _ => p end).
  unfold broadcast_one, set_signal.
  destruct Hcase as [->|[->|[->| ->]]]; simpl in *; destruct_and? Hp; case_decide; simpl;
    try congruence; split_and!; try done; try (split; intros; destruct_or?; auto; congruence); auto.
Qed.

(** The coordinator visits a worker: it leaves the list of those to visit. *)
Lemma visited i j (rest : list nat) : j ≠ i → j ∈ i :: rest → j ∈ rest.
Proof. intros Hne [->|?]%elem_of_cons; done. Qed.

Lemma sync_phase target w p i rest c :
  sync_passes target w = true → phase_ok p w →
  (c = CReadSync rest ∧ target = FINISH_READ ∧ allowed (CReadSync (i :: rest)) i p) ∨
  (c = CCommitSync rest ∧ target = READY ∧ allowed (CCommitSync (i :: rest)) i p) →
  allowed c i p.
Proof.
  unfold sync_passes. rewrite bool_decide_eq_true.
  intros Hs Hp [(-> & -> & Ha)|(-> & -> & Ha)]; simpl in Ha |- *;
    (destruct Ha as [->|[->|[-> _]]]; [by left|right; by left|]);
    simpl in Hp; destruct_and? Hp; destruct Hs; congruence.
Qed.

Lemma coord_step_inv e s s' : cinv s → coord_step e s s' → cinv s'.
Proof.
  intros Hinv Hs. pose proof (iv_pc _ Hinv) as Hr. destruct Hs as
    [l pending ws log dep loads hist i w Hfr Hi _|l pending ws log dep loads hist Hfr _
    |i pending ws log dep loads hist w Hi Hst|i pending ws log dep loads hist w Hi
    |ws log dep loads hist _|i rest ws log dep loads hist w Hi|ws log dep loads hist
    |i rest ws log dep loads hist w Hi Hsync|ws log dep loads hist|ws log dep loads hist _
    |i rest ws log dep loads hist w Hi|ws log dep loads hist
    |i rest ws log dep loads hist w Hi Hsync|ws log dep loads hist loads' _]; simpl in Hr;
    try (apply Forall_cons in Hr as [_ Hr]).
  - by eapply deploy_inv.
  - by apply deploy_new_inv.
  - rewrite <-(list_insert_id ws i w) at 1 by done.
    eapply (step_signal_inv _ _ ws log dep loads hist i w w); try done.
    + intros p Hp Ha. simpl in Ha. rewrite decide_True in Ha by done. exists PFresh.
      destruct Ha as [->| ->]; [simpl in Hp; destruct_and? Hp; congruence|].
      split_and!; try done. simpl. by rewrite decide_True.
    + intros j p Hne. simpl. by rewrite !decide_False.
  - eapply (step_signal_inv _ _ ws log dep loads hist i w); try done.
    + intros p Hp Ha. simpl in Ha. rewrite decide_True in Ha by done. subst p.
      exists PReading. simpl in Hp. destruct Hp as (H1 & H2 & H3).
      unfold executed_phase. split_and!; [simpl; auto|simpl; unfold assigning; auto|done| |done].
      naive_solver.
    + intros j p Hne. simpl. by rewrite decide_False.
  - eapply step_pc_inv; [exact Hinv|done|done|done|apply all_workers_range].
  - eapply (step_signal_inv _ _ ws log dep loads hist i w); try done.
    + unfold broadcast_one. by case_decide.
    + intros p Hp Ha. exists p. split_and!; [by apply broadcast_read_phase|done|done|done|done].
  - eapply step_pc_inv; [exact Hinv| |done|done|apply all_workers_range].
    intros i p Hi. simpl. unfold assigning. pose proof (allowed_all ws i Hi). naive_solver.
  - rewrite <-(list_insert_id ws i w) at 1 by done.
    eapply (step_signal_inv _ _ ws log dep loads hist i w w); try done.
    + intros p Hp Ha. exists p. split_and!; [done| |done|done|done].
      eapply (sync_phase FINISH_READ w p i rest); [done|done|]. by left.
    + intros j p Hne. simpl. intros [->|[->|[-> Hj]]]; [by left|right; by left|].
      right; right. split; [done|]. by eapply visited.
  - eapply step_pc_inv; [exact Hinv| |done|done|done].
    intros i p Hi [->|[->|[_ Hn]]]; [by left|by right|by apply not_elem_of_nil in Hn].
  - eapply step_pc_inv; [exact Hinv| |done|done|apply all_workers_range].
    intros i p Hi [->| ->]; [by left|]. right; left. split; [done|]. by apply allowed_all.
  - eapply (step_signal_inv _ _ ws log dep loads hist i w); try done.
    + unfold broadcast_one. by case_decide.
    + intros p Hp Ha. apply commit_broadcast_phase; [done|]. simpl in Ha. clear -Ha. naive_solver.
    + intros j p Hne. simpl. intros [->|[[-> Hj]|[->| ->]]]; auto.
      right; left. split; [done|]. by eapply visited.
  - eapply step_pc_inv; [exact Hinv| |done|done|apply all_workers_range].
    intros i p Hi. pose proof (allowed_all ws i Hi). simpl.
    intros [->|[[-> Hn]|[->| ->]]]; auto. by apply not_elem_of_nil in Hn.
  - rewrite <-(list_insert_id ws i w) at 1 by done.
    eapply (step_signal_inv _ _ ws log dep loads hist i w w); try done.
    + intros p Hp Ha. exists p. split_and!; [done| |done|done|done].
      eapply (sync_phase READY w p i rest); [done|done|]. by right.
    + intros j p Hne. simpl. intros [->|[->|[-> Hj]]]; [by left|right; by left|].
      right; right. split; [done|]. by eapply visited.
  - by eapply next_epoch_inv.
Qed.

Lemma step_inv s s' : cinv s → step s s' → cinv s'.
Proof.
  intros Hinv [e Hst]. destruct Hst as [s1 s2 Hs|pc ws log dep loads hist i w o w' Hi Hs].
  - by eapply coord_step_inv.
  - by eapply step_worker_inv.
Qed.

Lemma cinit_inv loads : cinv (cinit loads).
Proof.
  split; simpl; [| |done|done|by constructor].
  - exists [], []. split_and!; try done; try apply NoDup_nil_2;
      intros i x Hx; by apply not_elem_of_nil in Hx.
  - split; [apply NoDup_nil_2|]. intros i x Hx. by apply not_elem_of_nil in Hx.
Qed.

Lemma reachable_inv loads s : rtc step (cinit loads) s → cinv s.
Proof. apply rtc_invariant; [apply step_inv|apply cinit_inv]. Qed.

(** ** No deadlock and no endless epoch *)

(** A worker in one of these phases can move on its own. *)
Lemma worker_moves i p w :
  phase_ok p w → p = PBoot ∨ p = PReading ∨ p = PCommitting → ∃ o w', worker_step i w o w'.
Proof.
  destruct w as [st g pc l]. intros Hp [->|[->| ->]]; simpl in Hp; destruct_and? Hp;
    destruct_or?; simplify_eq; do 2 eexists; constructor.
Qed.

(** The coordinator waits for something that has not come. *)
Definition waits (e : cenv) (s : cstate) : Prop :=
  match c_pc s with
  | CAssign _ => calls_return e (length (c_history s)) ≤ length (c_deployed s)
  | CWaitEpoch => all_voted e (length (c_history s)) = false
  | CCommitSync [] => callback_returns e (length (c_history s)) = false
  | _ => False
  end.

(** Everything that the coordinator waits for in this epoch has come; the last
    call of [createWorkload] is the one that ends the assignment. *)
Definition supplied (e : cenv) (s : cstate) : Prop :=
  length (c_loads s) < calls_return e (length (c_history s)) ∧
  all_voted e (length (c_history s)) = true ∧ callback_returns e (length (c_history s)) = true.

Lemma reachable_moves e s : cinv s → (∃ s', step_in e s s') ∨ waits e s.
Proof.
  destruct s as [pc ws log dep loads hist]. intros Hinv. pose proof Hinv as
    [(xs & ys & _ & _ & _ & _ & _ & _ & Hw) _ _ Hpc _]. unfold waits. simpl in *.
  assert (∀ i w p, ws !! i = Some w → phase_ok p w → p = PBoot ∨ p = PReading ∨ p = PCommitting →
    ∃ s', step_in e (mkC pc ws log dep loads hist) s') as Hmove.
  { intros i w p Hi Hp Hc. destruct (worker_moves i p w Hp Hc) as (o & w' & Hs).
    eexists. by eapply step_worker. }
  destruct pc as [pending|k pending|k pending|[|i rest]|[|i rest]| |[|i rest]|[|i rest]].
  - destruct (decide (length dep < calls_return e (length hist))) as [Hc|Hc]; [left|right; lia].
    destruct pending as [|l pending]; [eexists; by apply step_coord, cs_assigned|].
    destruct (first_ready 0 ws) as [i|] eqn:E.
    + pose proof E as (j & w & -> & Hj & _)%first_ready_Some.
      eexists. apply step_coord. by eapply cs_deploy.
    + eexists. apply step_coord. by apply cs_deploy_new.
  - left. destruct (lookup_lt_is_Some_2 ws k Hpc) as [w Hk].
    destruct (Hw k w Hk) as (p & Hp & Ha & _). simpl in Ha. rewrite decide_True in Ha by done.
    destruct Ha as [->| ->]; [eapply Hmove; eauto|].
    eexists. apply step_coord. eapply cs_booted; [done|]. by destruct Hp as [? _].
  - left. destruct (lookup_lt_is_Some_2 ws k Hpc) as [w Hk].
    eexists. apply step_coord. by eapply cs_signal.
  - left. eexists. apply step_coord, cs_read_broadcast_end.
  - left. apply Forall_cons in Hpc as [Hi _]. destruct (lookup_lt_is_Some_2 ws i Hi) as [w Hwi].
    eexists. apply step_coord. by eapply cs_read_broadcast.
  - left. eexists. apply step_coord, cs_read_sync_end.
  - left. apply Forall_cons in Hpc as [Hi _]. destruct (lookup_lt_is_Some_2 ws i Hi) as [w Hwi].
    destruct (Hw i w Hwi) as (p & Hp & Ha & _).
    destruct Ha as [->|[->|[-> _]]]; [| |eapply Hmove; eauto];
      eexists; apply step_coord; (eapply cs_read_sync; [done|]);
      apply bool_decide_eq_true; destruct Hp as [? _]; auto.
  - destruct (all_voted e _) eqn:Ev; [left|by right]. eexists. by apply step_coord, cs_wait_epoch.
  - left. eexists. apply step_coord, cs_commit_broadcast_end.
  - left. apply Forall_cons in Hpc as [Hi _]. destruct (lookup_lt_is_Some_2 ws i Hi) as [w Hwi].
    eexists. apply step_coord. by eapply cs_commit_broadcast.
  - destruct (callback_returns e _) eqn:Ec; [left|by right].
    eexists. by apply step_coord, (cs_next_epoch _ _ _ _ _ _ []).
  - left. apply Forall_cons in Hpc as [Hi _]. destruct (lookup_lt_is_Some_2 ws i Hi) as [w Hwi].
    destruct (Hw i w Hwi) as (p & Hp & Ha & _).
    destruct Ha as [->|[->|[-> _]]]; [| |eapply Hmove; eauto];
      eexists; apply step_coord; (eapply cs_commit_sync; [done|]);
      apply bool_decide_eq_true; destruct Hp as [? _]; auto.
Qed.

Lemma supplied_moves e s : cinv s → supplied e s → ∃ s', step_in e s s'.
Proof.
  intros Hinv (H1 & H2 & H3). destruct (reachable_moves e s Hinv) as [?|Hw]; [done|exfalso].
  assert (length (c_deployed s) ≤ length (c_loads s)) as Hl.
  { rewrite <-(iv_loads _ Hinv), length_app, length_fmap. lia. }
  unfold waits in Hw. destruct (c_pc s) as [| | | | | | |[]]; try done; [lia|congruence..].
Qed.

(** The steps a worker still has to take in this epoch, and the coordinator. *)
Definition worker_measure (w : winst) : nat :=
  match w_pc w with
  | WBoot => 5
  | WWaitRead => if decide (workerState w = READY) then 0 else 4
  | WExec => 3
  | WWaitCommit => 2
  | WCommit => 1
  | WStopped => 0
  end.

Definition coord_measure (n : nat) (c : cpc) : nat :=
  match c with
  | CAssign p => 4 * (n + length p) + 20 * length p + 5
  | CSignal _ p => 4 * (n + length p) + 20 * length p + 6
  | CBoot _ p => 4 * (n + length p) + 20 * length p + 7
  | CReadBroadcast r => length r + 3 * n + 4
  | CReadSync r => length r + 2 * n + 3
  | CWaitEpoch => 2 * n + 2
  | CCommitBroadcast r => length r + n + 1
  | CCommitSync r => length r
  end.

Definition measure (s : cstate) : nat :=
  coord_measure (length (c_workers s)) (c_pc s) + sum_list_with worker_measure (c_workers s).

Lemma sum_insert {A} (f : A → nat) ws i w w' :
  ws !! i = Some w →
  sum_list_with f (<[i := w']> ws) + f w = sum_list_with f ws + f w'.
Proof.
  revert i. induction ws as [|v ws IH]; intros [|i] Hi; simplify_eq/=; [lia|].
  specialize (IH i Hi). lia.
Qed.

Lemma broadcast_measure g w : worker_measure (broadcast_one g w) = worker_measure w.
Proof. unfold broadcast_one, set_signal, worker_measure. by repeat case_decide. Qed.

Lemma worker_step_measure c dep xs ys i w o w' :
  worker_inv c dep xs ys i w → worker_step i w o w' → worker_measure w' < worker_measure w.
Proof.
  intros (p & Hp & _) Hs. destruct Hs as [g l|s l|s g l|s l|s g l|s pc l [->| ->]];
    unfold worker_measure; simpl in *; phases p Hp; subst; simpl; lia.
Qed.

Lemma step_measure s s' :
  cinv s → step s s' → c_history s' = c_history s → measure s' < measure s.
Proof.
  intros Hinv [e Hst]. destruct Hst as [s1 s2 Hs|pc ws log dep loads hist i w o w' Hi Hs].
  - destruct Hs as
    [l pending ws log dep loads hist i w Hfr Hi _|l pending ws log dep loads hist Hfr _
    |i pending ws log dep loads hist w Hi Hst|i pending ws log dep loads hist w Hi
    |ws log dep loads hist _|i rest ws log dep loads hist w Hi|ws log dep loads hist
    |i rest ws log dep loads hist w Hi Hsync|ws log dep loads hist|ws log dep loads hist _
    |i rest ws log dep loads hist w Hi|ws log dep loads hist
    |i rest ws log dep loads hist w Hi Hsync|ws log dep loads hist loads' _];
      intros Hh; unfold measure; simpl in *; unfold all_workers; rewrite ?length_insert, ?length_seq;
      try lia.
    + pose proof (sum_insert worker_measure ws i w
        (mkW ASSIGNED (ariaGlobalState w) (w_pc w) l) Hi) as Hsum.
      assert (worker_measure (mkW ASSIGNED (ariaGlobalState w) (w_pc w) l) ≤ 5) as H5
        by (unfold worker_measure; simpl; destruct (w_pc w); simpl; lia).
      lia.
    + rewrite length_app, sum_list_with_app. cbn [sum_list_with length].
      change (worker_measure (mkW READY START WBoot l)) with 5. lia.
    + pose proof (sum_insert worker_measure ws i w (set_signal Aria_READ w) Hi) as Hsum.
      change (worker_measure (set_signal Aria_READ w)) with (worker_measure w) in Hsum. lia.
    + pose proof (sum_insert worker_measure ws i w (broadcast_one Aria_READ w) Hi) as Hsum.
      rewrite broadcast_measure in Hsum. lia.
    + pose proof (sum_insert worker_measure ws i w (broadcast_one Aria_COMMIT w) Hi) as Hsum.
      rewrite broadcast_measure in Hsum. lia.
    + apply (f_equal length) in Hh. rewrite length_app in Hh. simpl in Hh. lia.
  - intros _. destruct (iv_log _ Hinv) as (xs & ys & _ & _ & _ & _ & _ & _ & Hw). simpl in Hw.
    pose proof (worker_step_measure _ _ _ _ _ _ _ _ (Hw i w Hi) Hs) as Hm.
    pose proof (sum_insert worker_measure ws i w w' Hi) as Hsum.
    unfold measure. simpl. rewrite length_insert. lia.
Qed.

Lemma step_history s s' : step s s' → ∃ h, c_history s' = c_history s ++ h.
Proof.
  intros [e Hst]. destruct Hst as [s1 s2 Hs|]; [destruct Hs|]; simpl;
    first [by eexists | exists []; by rewrite app_nil_r].
Qed.

Lemma step_progress s s' :
  cinv s → step s s' →
  length (c_history s) ≤ length (c_history s') ∧
  (length (c_history s') = length (c_history s) → measure s' < measure s).
Proof.
  intros Hinv Hst. destruct (step_history _ _ Hst) as [h Hh]. rewrite Hh, length_app. split; [lia|].
  intros E. apply step_measure; [done|done|]. destruct h; [by rewrite Hh, app_nil_r|simpl in E; lia].
Qed.

(** C6: the phases of an epoch are separated.  In every reachable state of the
    coordinator and its workers, whatever the interleaving, the log of a
    finished epoch is one execution of each of its workloads, each on a worker
    of its own, followed by one commit of each by the same worker; and in the
    current epoch no execution follows a commit. *)
Theorem protocol_phases loads s :
  rtc step (cinit loads) s →
  Forall epoch_log_ok (c_history s) ∧ ∃ xs ys, c_log s = log_of xs ys ∧ NoDup xs ∧ NoDup ys.
Proof.
  intros Hr%reachable_inv. split; [apply (iv_hist _ Hr)|].
  destruct (iv_log _ Hr) as (xs & ys & ? & ? & ? & _). by exists xs, ys.
Qed.

(** In an epoch the workloads stay. *)
Lemma step_loads s s' : step s s' → length (c_history s') = length (c_history s) → c_loads s' = c_loads s.
Proof.
  intros [e Hst]. destruct Hst as [s1 s2 Hs|]; [destruct Hs|]; simpl; try done.
  rewrite length_app. simpl. lia.
Qed.

Lemma supplied_run e s s' :
  cinv s → supplied e s → rtc (step_in e) s s' → length (c_history s') = length (c_history s) → ∃ s'', step_in e s' s''.
Proof.
  intros Hinv Hs Hr Hh. assert (cinv s' ∧ length (c_history s) ≤ length (c_history s') ∧
    (length (c_history s') = length (c_history s) → c_loads s' = c_loads s)) as (Hi & _ & Hl).
  { clear Hh Hs. induction Hr as [s|s1 s2 s3 Hst Hr IH]; [done|]. assert (step s1 s2) as Hst' by (by exists e).
    destruct (step_progress _ _ Hinv Hst') as [Hle _].
    destruct IH as (Hi & Hle' & Hl); [by eapply step_inv|]. split_and!; [done|lia|].
    intros E. rewrite Hl by lia. apply step_loads; [done|lia]. }
  apply supplied_moves; [done|]. unfold supplied. by rewrite Hh, (Hl Hh).
Qed.

(** C10: between the coordinator and its workers there is no deadlock: in every
    reachable state one of them can move, or the coordinator waits for the
    others, that is for transactions, for the votes of the servers on the epoch
    or for the callback.  If all that the epoch waits for has come, no run stops
    before the epoch has ended; and whatever comes and when, every run of more
    than [measure] steps has finished an epoch.  A call of an executor by a worker
    is a step, so the chaincodes are taken to return. *)
Theorem protocol_live loads s :
  rtc step (cinit loads) s →
  (∀ e, (∃ s', step_in e s s') ∨ waits e s) ∧
  (∀ e s', supplied e s → rtc (step_in e) s s' → length (c_history s') = length (c_history s) → ∃ s'', step_in e s' s'') ∧
  ∀ n s', nsteps step n s s' → measure s < n → length (c_history s) < length (c_history s').
Proof.
  intros Hr%reachable_inv. split_and!; [intros e; by apply reachable_moves|intros e s'; by apply supplied_run|].
  intros n s' Hn Hm. destruct (nsteps_progress step cinv _ measure step_inv step_progress n s s' Hr Hn) as [?|[_ ?]]; lia.
Qed.

(** A run of one epoch with one worker. *)
Definition worked (l : list N) : cstate :=
  mkC (CAssign []) [mkW READY Aria_COMMIT WWaitRead l] [] [] []
    [([l], [EvExec 0 l; EvCommit 0 l])].

Definition committed_all (l : list N) : cstate :=
  mkC (CCommitSync []) [mkW READY Aria_COMMIT WWaitRead l] [EvExec 0 l; EvCommit 0 l] [(0, l)] [l] [].

(** Surroundings in which everything has come. *)
Definition all_come : cenv := mkEnv (λ _, 100) (λ _, true) (λ _, true) (λ _, true).

Ltac coord_moves c :=
  eapply rtc_l; [exists all_come; eapply step_coord, c; first [reflexivity | simpl; lia]|]; unfold all_workers; simpl.
Ltac worker_moves_by c :=
  eapply rtc_l; [exists all_come; eapply (step_worker _ _ _ _ _ _ _ 0); [reflexivity|apply c]|]; simpl.

Lemma run_to_commit l : rtc step (cinit [l]) (committed_all l).
Proof.
  coord_moves cs_deploy_new. simpl.
  worker_moves_by ws_boot. simpl.
  coord_moves cs_booted.
  coord_moves cs_signal. simpl.
  coord_moves cs_assigned.
  coord_moves cs_read_broadcast. simpl.
  coord_moves cs_read_broadcast_end.
  worker_moves_by ws_read. simpl.
  worker_moves_by ws_exec. simpl.
  coord_moves cs_read_sync.
  coord_moves cs_read_sync_end.
  coord_moves cs_wait_epoch.
  coord_moves cs_commit_broadcast. simpl.
  coord_moves cs_commit_broadcast_end.
  worker_moves_by ws_commit_signal. simpl.
  worker_moves_by ws_commit. simpl.
  coord_moves cs_commit_sync. apply rtc_refl.
Defined.

Lemma run_one_epoch l : rtc step (cinit [l]) (worked l).
Proof. eapply rtc_r; [apply run_to_commit|]. exists all_come. apply step_coord. by apply (cs_next_epoch all_come _ _ _ _ [] []). Defined.

Lemma protocol_phases_witness :
  Forall epoch_log_ok (c_history (worked [7%N])) ∧
  ∃ xs ys, c_log (worked [7%N]) = log_of xs ys ∧ NoDup xs ∧ NoDup ys.
Proof. apply (protocol_phases [[7%N]] (worked [7%N])). exact (run_one_epoch [7%N]). Defined.

Lemma protocol_live_witness :
  (∀ e, (∃ s', step_in e (worked [7%N]) s') ∨ waits e (worked [7%N])) ∧
  (∀ e s', supplied e (worked [7%N]) → rtc (step_in e) (worked [7%N]) s' →
     length (c_history s') = length (c_history (worked [7%N])) → ∃ s'', step_in e s' s'') ∧
  ∀ n s', nsteps step n (worked [7%N]) s' → measure (worked [7%N]) < n →
    length (c_history (worked [7%N])) < length (c_history s').
Proof. apply (protocol_live [[7%N]] (worked [7%N])). exact (run_one_epoch [7%N]). Defined.
