(* ===== verification/AggregationProtocol.v ===== *)
(** * The protocol between the aggregation coordinator and its workers

    [AggregationCoordinator::run] and [AggregationWorker::run] as a step
    relation, in the style of [Protocol].  An epoch has one more phase: a worker
    with an aggregation workload does not read; it waits until the results of
    the other servers are in, and then reserves them.  The coordinator shares
    the results of the own workloads ([aggregateTransaction]) between the two
    phases.

    The ghost state is a log of the calls of [executeList] (normal or
    aggregating), of [aggregateTransaction] and of [commitList]. *)
From S2P Require Import Prelude Coordinator Protocol.
From stdpp Require Import base list gmap.

(** A workload: [aggregationWorkload] and its transactions. *)
Notation aload := (bool * list N)%type (only parsing).

(** Where a worker thread is in [AggregationWorker::run]. *)
Inductive apc := ABoot | AWaitRead | ADispatch | AWaitAggregate | AExec | AWaitCommit | ACommit | AStopped.

Record ainst := mkAW {
  aw_state : WorkerState; aw_signal : AriaGlobalState; aw_pc : apc; aw_load : aload }.

Inductive aevent := AEvExec (i : nat) (l : aload) | AEvShare | AEvCommit (i : nat) (l : aload).

(** Where the coordinator is in its loop.  The phases that visit the workers
    are named by the signal they send. *)
Inductive acpc :=
  | ACAssign (pending : list aload)
  | ACBoot (i : nat) (pending : list aload)
  | ACSignal (i : nat) (pending : list aload)
  | ACBroadcast (g : AriaGlobalState) (rest : list nat)
  | ACSync (g : AriaGlobalState) (rest : list nat)
  | ACWaitEpoch
  | ACShare.

Record acstate := mkACS {
  ac_pc : acpc; ac_workers : list ainst; ac_log : list aevent;
  ac_deployed : list (nat * aload); ac_loads : list aload;
  ac_history : list (list aload * list aevent) }.

Definition aw_set_signal (g : AriaGlobalState) (w : ainst) : ainst :=
  mkAW (aw_state w) g (aw_pc w) (aw_load w).

Fixpoint agg_first_ready (k : nat) (ws : list ainst) : option nat :=
  match ws with
  | [] => None
  | w :: ws' => if decide (aw_state w = READY) then Some k else agg_first_ready (S k) ws'
  end.

Definition agg_broadcast_one (g : AriaGlobalState) (w : ainst) : ainst :=
  if decide (aw_state w = READY) then w else aw_set_signal g w.

(** The states that end the phase started by a signal: [readPhase],
    [aggregatePhase], [commitPhase]. *)
Definition phase_targets (g : AriaGlobalState) : list WorkerState :=
  match g with
  | Aria_READ => [FINISH_READ; FINISH_AGGREGATE]
  | Aggregate => [FINISH_AGGREGATE]
  | _ => [READY]
  end.

Definition agg_sync_passes (g : AriaGlobalState) (w : ainst) : bool :=
  bool_decide (aw_state w = READY ∨ aw_state w ∈ phase_targets g).

(** ** Steps of the coordinator, in the surroundings of [Protocol] *)
Inductive agg_coord_step (e : cenv) : acstate → acstate → Prop :=
  | as_deploy l pending ws log dep loads hist i w :
      agg_first_ready 0 ws = Some i → ws !! i = Some w → length dep < calls_return e (length hist) →
      agg_coord_step e (mkACS (ACAssign (l :: pending)) ws log dep loads hist)
        (mkACS (ACSignal i pending) (<[i := mkAW ASSIGNED (aw_signal w) (aw_pc w) l]> ws) log
           (dep ++ [(i, l)]) loads hist)
  | as_deploy_new l pending ws log dep loads hist :
      agg_first_ready 0 ws = None → length dep < calls_return e (length hist) →
      agg_coord_step e (mkACS (ACAssign (l :: pending)) ws log dep loads hist)
        (mkACS (ACBoot (length ws) pending) (ws ++ [mkAW READY START ABoot l]) log
           (dep ++ [(length ws, l)]) loads hist)
  | as_booted i pending ws log dep loads hist w :
      ws !! i = Some w → aw_state w = ASSIGNED →
      agg_coord_step e (mkACS (ACBoot i pending) ws log dep loads hist)
        (mkACS (ACSignal i pending) ws log dep loads hist)
  | as_signal i pending ws log dep loads hist w :
      ws !! i = Some w →
      agg_coord_step e (mkACS (ACSignal i pending) ws log dep loads hist)
        (mkACS (ACAssign pending) (<[i := aw_set_signal Aria_READ w]> ws) log dep loads hist)
  | as_assigned ws log dep loads hist :
      length dep < calls_return e (length hist) →
      agg_coord_step e (mkACS (ACAssign []) ws log dep loads hist)
        (mkACS (ACBroadcast Aria_READ (all_workers ws)) ws log dep loads hist)
  | as_broadcast g i rest ws log dep loads hist w :
      ws !! i = Some w →
      agg_coord_step e (mkACS (ACBroadcast g (i :: rest)) ws log dep loads hist)
        (mkACS (ACBroadcast g rest) (<[i := agg_broadcast_one g w]> ws) log dep loads hist)
  | as_broadcast_end g ws log dep loads hist :
      agg_coord_step e (mkACS (ACBroadcast g []) ws log dep loads hist)
        (mkACS (ACSync g (all_workers ws)) ws log dep loads hist)
  | as_sync g i rest ws log dep loads hist w :
      ws !! i = Some w → agg_sync_passes g w = true →
      agg_coord_step e (mkACS (ACSync g (i :: rest)) ws log dep loads hist)
        (mkACS (ACSync g rest) ws log dep loads hist)
  | as_read_end ws log dep loads hist :
      agg_coord_step e (mkACS (ACSync Aria_READ []) ws log dep loads hist)
        (mkACS ACWaitEpoch ws log dep loads hist)
  | as_wait_epoch ws log dep loads hist :
      all_voted e (length hist) = true →
      agg_coord_step e (mkACS ACWaitEpoch ws log dep loads hist)
        (mkACS ACShare ws log dep loads hist)
  | as_share ws log dep loads hist :
      results_in e (length hist) = true →
      agg_coord_step e (mkACS ACShare ws log dep loads hist)
        (mkACS (ACBroadcast Aggregate (all_workers ws)) ws (log ++ [AEvShare]) dep loads hist)
  | as_aggregate_end ws log dep loads hist :
      agg_coord_step e (mkACS (ACSync Aggregate []) ws log dep loads hist)
        (mkACS (ACBroadcast Aria_COMMIT (all_workers ws)) ws log dep loads hist)
  | as_next_epoch ws log dep loads hist loads' :
      callback_returns e (length hist) = true →
      agg_coord_step e (mkACS (ACSync Aria_COMMIT []) ws log dep loads hist)
        (mkACS (ACAssign loads') ws [] [] loads' (hist ++ [(loads, log)])).

(** ** Steps of a worker *)
Inductive agg_worker_step (i : nat) : ainst → option aevent → ainst → Prop :=
  | aw_boot g l :
      agg_worker_step i (mkAW READY g ABoot l) None (mkAW ASSIGNED g AWaitRead l)
  | aw_read s l :
      agg_worker_step i (mkAW s Aria_READ AWaitRead l) None (mkAW s Aria_READ ADispatch l)
  | aw_normal s g l :
      agg_worker_step i (mkAW s g ADispatch (false, l)) None (mkAW s g AExec (false, l))
  | aw_aggregate s g l :
      agg_worker_step i (mkAW s g ADispatch (true, l)) None (mkAW FINISH_READ g AWaitAggregate (true, l))
  | aw_aggregate_signal s l :
      agg_worker_step i (mkAW s Aggregate AWaitAggregate l) None (mkAW s Aggregate AExec l)
  | aw_exec s g l :
      agg_worker_step i (mkAW s g AExec l) (Some (AEvExec i l)) (mkAW FINISH_AGGREGATE g AWaitCommit l)
  | aw_commit_signal s l :
      agg_worker_step i (mkAW s Aria_COMMIT AWaitCommit l) None (mkAW s Aria_COMMIT ACommit l)
  | aw_commit s g l :
      agg_worker_step i (mkAW s g ACommit l) (Some (AEvCommit i l)) (mkAW READY g AWaitRead l)
  | aw_exit s pc l :
      pc = AWaitRead ∨ pc = AWaitAggregate ∨ pc = AWaitCommit →
      agg_worker_step i (mkAW s EXIT pc l) None (mkAW EXITED EXIT AStopped l).

Definition add_aevent (o : option aevent) (log : list aevent) : list aevent :=
  match o with Some ev => log ++ [ev] | None => log end.

Inductive agg_step_in (e : cenv) : acstate → acstate → Prop :=
  | agg_step_coord s s' : agg_coord_step e s s' → agg_step_in e s s'
  | agg_step_worker pc ws log dep loads hist i w o w' :
      ws !! i = Some w → agg_worker_step i w o w' →
      agg_step_in e (mkACS pc ws log dep loads hist)
        (mkACS pc (<[i := w']> ws) (add_aevent o log) dep loads hist).
Definition agg_step (s s' : acstate) : Prop := ∃ e, agg_step_in e s s'.

Definition agg_cinit (loads : list aload) : acstate := mkACS (ACAssign loads) [] [] [] loads [].

(** ** The invariant *)
Inductive aphase := AIdle | ABooting | AFresh | AReading | AWaiting | AAggregating | AExecuted | ACommitting | ADone.

(** What the instance looks like in a phase. *)
Definition aphase_ok (p : aphase) (w : ainst) : Prop :=
  match p with
  | AIdle | ADone => aw_state w = READY ∧ aw_signal w = Aria_COMMIT ∧ aw_pc w = AWaitRead
  | ABooting => aw_state w = READY ∧ aw_signal w = START ∧ aw_pc w = ABoot
  | AFresh => aw_state w = ASSIGNED ∧ (aw_signal w = START ∨ aw_signal w = Aria_COMMIT) ∧ aw_pc w = AWaitRead
  | AReading => aw_state w = ASSIGNED ∧ aw_signal w = Aria_READ ∧
      (aw_pc w = AWaitRead ∨ aw_pc w = ADispatch ∨ (aw_pc w = AExec ∧ (aw_load w).1 = false))
  | AWaiting => aw_state w = FINISH_READ ∧ aw_signal w = Aria_READ ∧ aw_pc w = AWaitAggregate ∧ (aw_load w).1 = true
  | AAggregating => aw_state w = FINISH_READ ∧ aw_signal w = Aggregate ∧
      (aw_pc w = AWaitAggregate ∨ aw_pc w = AExec) ∧ (aw_load w).1 = true
  | AExecuted => aw_state w = FINISH_AGGREGATE ∧ (aw_signal w = Aria_READ ∨ aw_signal w = Aggregate) ∧
      aw_pc w = AWaitCommit
  | ACommitting => aw_state w = FINISH_AGGREGATE ∧ aw_signal w = Aria_COMMIT ∧
      (aw_pc w = AWaitCommit ∨ aw_pc w = ACommit)
  end.

(** The phases a worker may be in, by the coordinator's position. *)
Definition a_assigning (p : aphase) : Prop := p = AIdle ∨ p = AReading ∨ p = AWaiting ∨ p = AExecuted.

Definition a_allowed (c : acpc) (i : nat) (p : aphase) : Prop :=
  match c with
  | ACAssign _ | ACBroadcast Aria_READ _ => a_assigning p
  | ACBoot k _ => if decide (i = k) then p = ABooting ∨ p = AFresh else a_assigning p
  | ACSignal k _ => if decide (i = k) then p = AFresh else a_assigning p
  | ACSync Aria_READ rest => p = AIdle ∨ p = AWaiting ∨ p = AExecuted ∨ (p = AReading ∧ i ∈ rest)
  | ACWaitEpoch | ACShare => p = AIdle ∨ p = AWaiting ∨ p = AExecuted
  | ACBroadcast Aggregate rest => p = AIdle ∨ (p = AWaiting ∧ i ∈ rest) ∨ p = AAggregating ∨ p = AExecuted
  | ACSync Aggregate rest => p = AIdle ∨ p = AExecuted ∨ (p = AAggregating ∧ i ∈ rest)
  | ACBroadcast Aria_COMMIT rest => p = AIdle ∨ (p = AExecuted ∧ i ∈ rest) ∨ p = ACommitting ∨ p = ADone
  | ACSync Aria_COMMIT rest => p = AIdle ∨ p = ADone ∨ (p = ACommitting ∧ i ∈ rest)
  | ACBroadcast _ _ | ACSync _ _ => False
  end.

(** How far the epoch is: before the results are shared, before the commits,
    and during them. *)
Definition stage (c : acpc) : nat :=
  match c with
  | ACBroadcast Aggregate _ | ACSync Aggregate _ => 1
  | ACBroadcast Aria_COMMIT _ | ACSync Aria_COMMIT _ => 2
  | _ => 0
  end.

Definition a_pending_of (c : acpc) : list aload :=
  match c with ACAssign l | ACBoot _ l | ACSignal _ l => l | _ => [] end.

Definition a_executed (p : aphase) : Prop := p = AExecuted ∨ p = ACommitting ∨ p = ADone.

(** The ghost lists agree with the phase of worker [i]: executions before and
    after the exchange, and commits. *)
Definition a_linked (dep xs zs ys : list (nat * aload)) (i : nat) (w : ainst) (p : aphase) : Prop :=
  (∀ l, (i, l) ∈ dep ↔ p ≠ AIdle ∧ l = aw_load w) ∧
  (∀ l, (i, l) ∈ xs ↔ a_executed p ∧ l = aw_load w ∧ l.1 = false) ∧
  (∀ l, (i, l) ∈ zs ↔ a_executed p ∧ l = aw_load w ∧ l.1 = true) ∧
  (∀ l, (i, l) ∈ ys ↔ p = ADone ∧ l = aw_load w).

Definition a_worker_inv (c : acpc) (dep xs zs ys : list (nat * aload)) (i : nat) (w : ainst) : Prop :=
  ∃ p, aphase_ok p w ∧ a_allowed c i p ∧ a_linked dep xs zs ys i w p.

Definition execs (xs : list (nat * aload)) : list aevent := (λ p, AEvExec p.1 p.2) <$> xs.
Definition commits (ys : list (nat * aload)) : list aevent := (λ p, AEvCommit p.1 p.2) <$> ys.

(** The log of an epoch at a stage. *)
Definition agg_log_of (st : nat) (xs zs ys : list (nat * aload)) : list aevent :=
  execs xs ++ (if (st =? 0)%nat then [] else [AEvShare]) ++ execs zs ++ commits ys.

Definition a_pc_range (n : nat) (c : acpc) : Prop :=
  match c with
  | ACBoot k _ | ACSignal k _ => k < n
  | ACBroadcast g r | ACSync g r =>
      Forall (λ i, i < n) r ∧ (g = Aria_READ ∨ g = Aggregate ∨ g = Aria_COMMIT)
  | _ => True
  end.

(** What a finished epoch looks like: the own workloads are executed, the
    results shared, the workloads of the others reserved, everything committed. *)
Definition agg_epoch_log_ok (e : list aload * list aevent) : Prop :=
  ∃ xs zs ys, e.2 = execs xs ++ [AEvShare] ++ execs zs ++ commits ys ∧
    Forall (λ x, x.2.1 = false) xs ∧ Forall (λ x, x.2.1 = true) zs ∧
    NoDup (xs ++ zs).*1 ∧ ys ≡ₚ xs ++ zs ∧ (xs ++ zs).*2 ≡ₚ e.1.

Record a_inv (s : acstate) : Prop := {
  av_log : ∃ xs zs ys, ac_log s = agg_log_of (stage (ac_pc s)) xs zs ys ∧ NoDup xs ∧ NoDup zs ∧ NoDup ys ∧
    in_range (length (ac_workers s)) xs ∧ in_range (length (ac_workers s)) zs ∧
    in_range (length (ac_workers s)) ys ∧
    (stage (ac_pc s) = 0 → zs = []) ∧ (stage (ac_pc s) < 2 → ys = []) ∧
    (∀ i w, ac_workers s !! i = Some w → a_worker_inv (ac_pc s) (ac_deployed s) xs zs ys i w);
  av_dep : NoDup (ac_deployed s).*1 ∧ in_range (length (ac_workers s)) (ac_deployed s);
  av_loads : (ac_deployed s).*2 ++ a_pending_of (ac_pc s) = ac_loads s;
  av_pc : a_pc_range (length (ac_workers s)) (ac_pc s);
  av_hist : Forall agg_epoch_log_ok (ac_history s) }.

(** ** Preservation *)
Lemma a_worker_inv_other c c' dep dep' xs xs' zs zs' ys ys' i w :
  a_worker_inv c dep xs zs ys i w →
  (∀ p, a_allowed c i p → a_allowed c' i p) →
  (∀ l, (i, l) ∈ dep' ↔ (i, l) ∈ dep) → (∀ l, (i, l) ∈ xs' ↔ (i, l) ∈ xs) →
  (∀ l, (i, l) ∈ zs' ↔ (i, l) ∈ zs) → (∀ l, (i, l) ∈ ys' ↔ (i, l) ∈ ys) →
  a_worker_inv c' dep' xs' zs' ys' i w.
Proof.
  intros (p & Hp & Ha & L1 & L2 & L3 & L4) Hc Hd Hx Hz Hy. exists p.
  split_and!; [done|by apply Hc|]. split_and!; intros l; rewrite ?Hd, ?Hx, ?Hz, ?Hy; auto.
Qed.

(** Moves between the phases that the coordinator's position allows. *)
Ltac by_position c := destruct c as [?|?|?|[] ?|[] ?| |]; simpl in *; unfold a_assigning in *;
  repeat case_decide; naive_solver.

Lemma reading_stage c i : a_allowed c i AReading → stage c = 0.
Proof. by_position c. Qed.
Lemma aggregating_stage c i : a_allowed c i AAggregating → stage c = 1.
Proof. by_position c. Qed.
Lemma committing_stage c i : a_allowed c i ACommitting → stage c = 2.
Proof. by_position c. Qed.
Lemma a_allowed_fresh c i : a_allowed c i ABooting → a_allowed c i AFresh.
Proof. by_position c. Qed.
Lemma a_allowed_waiting c i : a_allowed c i AReading → a_allowed c i AWaiting.
Proof. by_position c. Qed.
Lemma a_allowed_executed c i : a_allowed c i AReading ∨ a_allowed c i AAggregating → a_allowed c i AExecuted.
Proof. by_position c. Qed.
Lemma a_allowed_done c i : a_allowed c i ACommitting → a_allowed c i ADone.
Proof. by_position c. Qed.

(** Only one phase fits the fields of the instance. *)
Ltac aphases p Hp := destruct p; simpl in Hp; destruct_and? Hp; destruct_or?; destruct_and?; try congruence.

(** The same entries described for the new phase. *)
Ltac arelink L1 L2 L3 L4 :=
  unfold a_linked; split_and!; intros ?; rewrite ?elem_of_app, ?list_elem_of_singleton, ?L1, ?L2, ?L3, ?L4;
  clear L1 L2 L3 L4; unfold a_executed; simpl; naive_solver.

(** At most one ghost list grows, by an entry of a worker that had none. *)
Definition extends (i : nat) (l : aload) (xs xs' : list (nat * aload)) : Prop :=
  xs' = xs ∨ (xs' = xs ++ [(i, l)] ∧ ∀ k, (i, k) ∉ xs).

Lemma extends_refl i l xs : extends i l xs xs.
Proof. by left. Qed.

Lemma extends_facts i l xs xs' n :
  extends i l xs xs' → NoDup xs → in_range n xs → i < n →
  NoDup xs' ∧ in_range n xs' ∧ ∀ j k, j ≠ i → ((j, k) ∈ xs' ↔ (j, k) ∈ xs).
Proof.
  intros [->|[-> Hf]] Hnd Hr Hi; [done|].
  split_and!; [by apply NoDup_snoc_fresh|by apply in_range_snoc|]. intros j k Hne. by rewrite entry_snoc_ne.
Qed.

#[local] Hint Resolve extends_refl : core.

Lemma agg_worker_step_inv c dep xs zs ys i w o w' :
  a_worker_inv c dep xs zs ys i w → agg_worker_step i w o w' →
  (stage c = 0 → zs = []) → (stage c < 2 → ys = []) →
  ∃ xs' zs' ys', a_worker_inv c dep xs' zs' ys' i w' ∧
    add_aevent o (agg_log_of (stage c) xs zs ys) = agg_log_of (stage c) xs' zs' ys' ∧
    (stage c = 0 → zs' = []) ∧ (stage c < 2 → ys' = []) ∧
    extends i (aw_load w) xs xs' ∧ extends i (aw_load w) zs zs' ∧ extends i (aw_load w) ys ys'.
Proof.
  intros (p & Hp & Ha & L1 & L2 & L3 & L4) Hs Hz Hy.
  destruct Hs as [g l|s l|s g l|s g l|s l|s g l|s l|s g l|s pc l Hpc]; simpl in *.
  - aphases p Hp. exists xs, zs, ys. split_and!; auto.
    exists AFresh. split_and!; [simpl; auto 10|by apply a_allowed_fresh|]. clear Hz Hy. arelink L1 L2 L3 L4.
  - aphases p Hp. exists xs, zs, ys. split_and!; auto.
    exists AReading. split_and!; [simpl; auto 10|done|]. clear Hz Hy. arelink L1 L2 L3 L4.
  - aphases p Hp. exists xs, zs, ys. split_and!; auto.
    exists AReading. split_and!; [simpl; auto 10|done|]. clear Hz Hy. arelink L1 L2 L3 L4.
  - aphases p Hp. exists xs, zs, ys. split_and!; auto.
    exists AWaiting. split_and!; [simpl; auto 10|by apply a_allowed_waiting|]. clear Hz Hy. arelink L1 L2 L3 L4.
  - aphases p Hp. exists xs, zs, ys. split_and!; auto.
    exists AAggregating. split_and!; [simpl; auto 10|done|]. clear Hz Hy. arelink L1 L2 L3 L4.
  - aphases p Hp.
    + assert (∀ k, (i, k) ∉ xs) as Hx by (intros k Hk; apply L2 in Hk as [[?|[?|?]] _]; done).
      pose proof (reading_stage _ _ Ha) as E0. pose proof (Hz E0). pose proof (Hy ltac:(lia)). subst zs ys.
      exists (xs ++ [(i, l)]), [], []. split_and!; auto.
      * exists AExecuted. split_and!; [simpl; auto 10|by apply a_allowed_executed; left|].
        clear Hz Hy. destruct l. simpl in *. subst. arelink L1 L2 L3 L4.
      * rewrite E0. unfold agg_log_of, execs. rewrite fmap_app. simpl. by rewrite !app_nil_r.
      * by right.
    + assert (∀ k, (i, k) ∉ zs) as Hx by (intros k Hk; apply L3 in Hk as [[?|[?|?]] _]; done).
      pose proof (aggregating_stage _ _ Ha) as E0. pose proof (Hy ltac:(lia)). subst ys.
      exists xs, (zs ++ [(i, l)]), []. split_and!; auto.
      * exists AExecuted. split_and!; [simpl; auto 10|by apply a_allowed_executed; right|].
        clear Hz Hy. destruct l. simpl in *. subst. arelink L1 L2 L3 L4.
      * rewrite E0. unfold agg_log_of, execs, commits. rewrite !fmap_app. simpl. rewrite !app_nil_r.
        by rewrite <-!(assoc_L (++)).
      * lia.
      * by right.
  - aphases p Hp. exists xs, zs, ys. split_and!; auto.
    exists ACommitting. split_and!; [simpl; auto 10|done|]. clear Hz Hy. arelink L1 L2 L3 L4.
  - aphases p Hp.
    assert (∀ k, (i, k) ∉ ys) as Hx by (intros k Hk; apply L4 in Hk as [? _]; done).
    pose proof (committing_stage _ _ Ha) as E0.
    exists xs, zs, (ys ++ [(i, l)]). split_and!; auto.
    * exists ADone. split_and!; [simpl; auto 10|by apply a_allowed_done|]. clear Hz Hy. arelink L1 L2 L3 L4.
    * rewrite E0. unfold agg_log_of, commits. rewrite !fmap_app. by rewrite !(assoc_L (++)).
    * lia.
    * by right.
  - destruct_or? Hpc; subst; aphases p Hp.
Qed.

Lemma agg_step_worker_inv pc ws log dep loads hist i w o w' :
  a_inv (mkACS pc ws log dep loads hist) → ws !! i = Some w → agg_worker_step i w o w' →
  a_inv (mkACS pc (<[i := w']> ws) (add_aevent o log) dep loads hist).
Proof.
  intros [(xs & zs & ys & Hlog & Nx & Nz & Ny & Rx & Rz & Ry & Hz & Hy & Hw) Hdep Hl Hpc Hh] Hi Hs. simpl in *.
  pose proof (lookup_lt_Some _ _ _ Hi) as Hlt.
  destruct (agg_worker_step_inv pc dep xs zs ys i w o w' (Hw i w Hi) Hs Hz Hy)
    as (xs' & zs' & ys' & Hinv & Hlog' & Hz' & Hy' & Ex & Ez & Ey).
  destruct (extends_facts _ _ _ _ _ Ex Nx Rx Hlt) as (? & ? & Jx).
  destruct (extends_facts _ _ _ _ _ Ez Nz Rz Hlt) as (? & ? & Jz).
  destruct (extends_facts _ _ _ _ _ Ey Ny Ry Hlt) as (? & ? & Jy).
  split; simpl; rewrite ?length_insert; [|done|done|done|done].
  exists xs', zs', ys'. rewrite Hlog. split_and!; try done.
  apply (workers_update _ _ ws i w' Hw); [|done]. intros j v Hne Hv.
  eapply a_worker_inv_other; [exact Hv|done|done| | |]; intros l; auto.
Qed.

(** A step of the coordinator that writes one instance and keeps the ghost
    lists. *)
Lemma agg_signal_inv c c' ws log dep loads hist i w w' :
  a_inv (mkACS c ws log dep loads hist) → ws !! i = Some w → aw_load w' = aw_load w →
  (∀ p, aphase_ok p w → a_allowed c i p → ∃ p', aphase_ok p' w' ∧ a_allowed c' i p' ∧
     (p' = AIdle ↔ p = AIdle) ∧ (a_executed p' ↔ a_executed p) ∧ (p' = ADone ↔ p = ADone)) →
  (∀ j p, j ≠ i → a_allowed c j p → a_allowed c' j p) →
  stage c' = stage c → a_pending_of c' = a_pending_of c → a_pc_range (length ws) c' →
  a_inv (mkACS c' (<[i := w']> ws) log dep loads hist).
Proof.
  intros [(xs & zs & ys & Hlog & Nx & Nz & Ny & Rx & Rz & Ry & Hz & Hy & Hw) Hdep Hl Hpc Hh] Hi Hload Hph Ha Hst Hp Hk.
  simpl in *. split; simpl; rewrite ?length_insert; [|done|by rewrite Hp|done|done].
  exists xs, zs, ys. rewrite Hst. split_and!; try done.
  apply (workers_update _ _ ws i w' Hw).
  - intros j v Hne Hv. eapply a_worker_inv_other; [exact Hv| |done|done|done|done]. intros p. by apply Ha.
  - destruct (Hw i w Hi) as (p & Hp1 & Hp2 & L1 & L2 & L3 & L4).
    destruct (Hph p Hp1 Hp2) as (p' & H1 & H2 & E1 & E2 & E3). exists p'.
    split_and!; [done|done|]. unfold a_linked.
    split_and!; intros l; rewrite Hload, ?L1, ?L2, ?L3, ?L4, ?E1, ?E2, ?E3; done.
Qed.

(** A step of the coordinator that moves on; the commits have not begun. *)
Lemma agg_pc_inv c c' ws log dep loads hist :
  a_inv (mkACS c ws log dep loads hist) →
  (∀ i p, i < length ws → a_allowed c i p → a_allowed c' i p) →
  stage c' = stage c ∨ (stage c = 1 ∧ stage c' = 2) →
  a_pending_of c' = a_pending_of c → a_pc_range (length ws) c' →
  a_inv (mkACS c' ws log dep loads hist).
Proof.
  intros [(xs & zs & ys & Hlog & Nx & Nz & Ny & Rx & Rz & Ry & Hz & Hy & Hw) Hdep Hl Hpc Hh] Ha Hst Hp Hk.
  simpl in *. split; simpl; [|done|by rewrite Hp|done|done].
  exists xs, zs, ys. split_and!; try done.
  - destruct Hst as [->|[E1 E2]]; [done|]. by rewrite Hlog, E1, E2.
  - intros E. apply Hz. lia.
  - intros E. apply Hy. lia.
  - intros i w Hi. eapply a_worker_inv_other; [by apply Hw| |done|done|done|done].
    intros p. apply Ha. by eapply lookup_lt_Some.
Qed.

Lemma agg_first_ready_Some k ws i :
  agg_first_ready k ws = Some i → ∃ j w, i = k + j ∧ ws !! j = Some w ∧ aw_state w = READY.
Proof.
  revert k. induction ws as [|w ws IH]; intros k; simpl; [done|]. case_decide.
  - intros E. simplify_eq. exists 0, w. split_and!; [lia|done|done].
  - intros (j & v & -> & Hj & Hv)%IH. exists (S j), v. split_and!; [lia|done|done].
Qed.

Lemma agg_deploy_inv l pending ws log dep loads hist i w :
  a_inv (mkACS (ACAssign (l :: pending)) ws log dep loads hist) →
  agg_first_ready 0 ws = Some i → ws !! i = Some w →
  a_inv (mkACS (ACSignal i pending) (<[i := mkAW ASSIGNED (aw_signal w) (aw_pc w) l]> ws) log
           (dep ++ [(i, l)]) loads hist).
Proof.
  intros [(xs & zs & ys & Hlog & Nx & Nz & Ny & Rx & Rz & Ry & Hz & Hy & Hw) [Hd1 Hd2] Hl Hpc Hh] Hfr Hi.
  simpl in *. pose proof (lookup_lt_Some _ _ _ Hi) as Hlt.
  apply agg_first_ready_Some in Hfr as (j & v & -> & Hj & Hv). simpl in *. simplify_eq.
  destruct (Hw j v Hj) as (p & Hp & Ha & L1 & L2 & L3 & L4). simpl in Ha.
  assert (p = AIdle) as ->.
  { destruct Ha as [->|[->|[->| ->]]]; [done|..]; simpl in Hp; destruct_and? Hp; congruence. }
  assert (∀ k, (j, k) ∉ dep) as Hf by (intros k Hk; by apply L1 in Hk as [? _]).
  split; simpl; rewrite ?length_insert; [| | |done|done].
  - exists xs, zs, ys. split_and!; try done.
    apply (workers_update _ _ ws j _ Hw).
    + intros k u Hne Hu. eapply a_worker_inv_other; [exact Hu| | |done|done|done].
      * intros q. simpl. by rewrite decide_False.
      * intros x. by rewrite entry_snoc_ne.
    + exists AFresh. simpl in Hp. destruct Hp as (_ & Hp1 & Hp2).
      split_and!; [simpl; auto|simpl; by rewrite decide_True|]. clear Hz Hy. arelink L1 L2 L3 L4.
  - split; [by apply NoDup_fst_snoc|]. by apply in_range_snoc.
  - rewrite fmap_app. simpl. by rewrite <-(assoc_L (++)).
Qed.

Lemma agg_deploy_new_inv l pending ws log dep loads hist :
  a_inv (mkACS (ACAssign (l :: pending)) ws log dep loads hist) →
  a_inv (mkACS (ACBoot (length ws) pending) (ws ++ [mkAW READY START ABoot l]) log
           (dep ++ [(length ws, l)]) loads hist).
Proof.
  intros [(xs & zs & ys & Hlog & Nx & Nz & Ny & Rx & Rz & Ry & Hz & Hy & Hw) [Hd1 Hd2] Hl Hpc Hh]. simpl in *.
  assert (∀ lst : list (nat * aload), in_range (length ws) lst → ∀ x, (length ws, x) ∉ lst) as Hnew
    by (intros lst Hr x Hx; specialize (Hr _ _ Hx); lia).
  split; simpl; rewrite ?length_app; simpl; [| | |lia|done].
  - exists xs, zs, ys. split_and!; try done; try (eapply in_range_mono; [done|lia]).
    intros i w Hi. apply lookup_app_Some in Hi as [Hi|[Hge Hi]].
    + pose proof (lookup_lt_Some _ _ _ Hi) as Hlt.
      eapply a_worker_inv_other; [by apply Hw| | |done|done|done].
      * intros q. simpl. rewrite decide_False by lia. done.
      * intros x. rewrite entry_snoc_ne by lia. done.
    + assert (i = length ws) as -> by (apply lookup_lt_Some in Hi; simpl in Hi; lia).
      rewrite Nat.sub_diag in Hi. simpl in Hi. simplify_eq. exists ABooting.
      split_and!; [done|simpl; rewrite decide_True by done; by left|].
      pose proof (Hnew dep Hd2) as F1. pose proof (Hnew xs Rx) as F2.
      pose proof (Hnew zs Rz) as F3. pose proof (Hnew ys Ry) as F4.
      unfold a_linked, a_executed. split_and!; intros x; simpl;
        rewrite ?elem_of_app, ?list_elem_of_singleton; specialize (F1 x); specialize (F2 x);
        specialize (F3 x); specialize (F4 x); clear -F1 F2 F3 F4; naive_solver.
  - split; [by apply NoDup_fst_snoc; [|by apply Hnew]|]. apply in_range_snoc; [|lia].
    eapply in_range_mono; [done|lia].
  - rewrite fmap_app. simpl. by rewrite <-(assoc_L (++)).
Qed.

(** Sharing the results. *)
Lemma agg_share_inv ws log dep loads hist :
  a_inv (mkACS ACShare ws log dep loads hist) →
  a_inv (mkACS (ACBroadcast Aggregate (all_workers ws)) ws (log ++ [AEvShare]) dep loads hist).
Proof.
  intros [(xs & zs & ys & Hlog & Nx & Nz & Ny & Rx & Rz & Ry & Hz & Hy & Hw) Hdep Hl Hpc Hh]. simpl in *.
  rewrite (Hz eq_refl) in *. rewrite (Hy ltac:(lia)) in *.
  split; simpl; [|done|done|split; [apply all_workers_range|auto]|done].
  exists xs, [], []. split_and!; try done.
  - rewrite Hlog. unfold agg_log_of. simpl. by rewrite !app_nil_r.
  - intros i w Hi. eapply a_worker_inv_other; [by apply Hw| |done|done|done|done].
    intros p. simpl. pose proof (allowed_all ws i (lookup_lt_Some _ _ _ Hi)). naive_solver.
Qed.

(** At the end of the commit phase every workload was executed once, on its
    side of the exchange, and committed once. *)
Lemma agg_finished_epoch ws log dep loads hist :
  a_inv (mkACS (ACSync Aria_COMMIT []) ws log dep loads hist) → agg_epoch_log_ok (loads, log).
Proof.
  intros [(xs & zs & ys & Hlog & Nx & Nz & Ny & Rx & Rz & Ry & _ & _ & Hw) [Hd1 Hd2] Hl _ _]. simpl in *.
  rewrite app_nil_r in Hl.
  assert (∀ i l, ((i, l) ∈ xs ↔ (i, l) ∈ dep ∧ l.1 = false) ∧ ((i, l) ∈ zs ↔ (i, l) ∈ dep ∧ l.1 = true) ∧
    ((i, l) ∈ ys ↔ (i, l) ∈ dep)) as Hiff.
  { intros i l. destruct (decide (i < length ws)) as [Hi|Hi].
    - destruct (lookup_lt_is_Some_2 ws i Hi) as [w Hwi].
      destruct (Hw i w Hwi) as (p & _ & Ha & L1 & L2 & L3 & L4). rewrite L1, L2, L3, L4.
      simpl in Ha. unfold a_executed.
      destruct Ha as [->|[->|[_ Hn]]]; [| |by apply not_elem_of_nil in Hn]; clear; naive_solver.
    - specialize (Rx i l). specialize (Rz i l). specialize (Ry i l). specialize (Hd2 i l). naive_solver. }
  assert (NoDup dep) as Hd by (by eapply NoDup_fmap_1).
  assert (xs ++ zs ≡ₚ dep) as Hxd.
  { apply NoDup_Permutation; [|done|].
    - apply NoDup_app. split_and!; [done| |done]. intros [i l] Hx Hz.
      apply Hiff in Hx as [_ ?], Hz as [_ ?]. congruence.
    - intros [i l]. rewrite elem_of_app. destruct (Hiff i l) as (-> & -> & _). destruct l.1; naive_solver. }
  assert (ys ≡ₚ dep) as Hyd by (apply NoDup_Permutation; [done|done|]; intros [i l]; apply Hiff).
  exists xs, zs, ys. simpl. split_and!; [done|apply Forall_forall; intros [i l]; apply Hiff..| | |].
  - by rewrite Hxd.
  - by rewrite Hyd, Hxd.
  - by rewrite Hxd, Hl.
Qed.

Lemma agg_next_epoch_inv ws log dep loads hist loads' :
  a_inv (mkACS (ACSync Aria_COMMIT []) ws log dep loads hist) →
  a_inv (mkACS (ACAssign loads') ws [] [] loads' (hist ++ [(loads, log)])).
Proof.
  intros Hinv. pose proof (agg_finished_epoch _ _ _ _ _ Hinv) as Hok.
  destruct Hinv as [(xs & zs & ys & _ & _ & _ & _ & _ & _ & _ & _ & _ & Hw) _ _ _ Hh]. simpl in *.
  assert (in_range (length ws) ([] : list (nat * aload))) as Hnil by (intros i x Hx; by apply not_elem_of_nil in Hx).
  split; simpl; [| |done|done|by apply Forall_app; split; [|apply Forall_singleton]].
  - exists [], [], []. split_and!; try done; try apply NoDup_nil_2.
    intros i w Hi. destruct (Hw i w Hi) as (p & Hp & Ha & _). exists AIdle. split_and!.
    + destruct Ha as [->|[->|[_ Hn]]]; [done|done|by apply not_elem_of_nil in Hn].
    + by left.
    + unfold a_linked, a_executed. split_and!; intros l; rewrite elem_of_nil; naive_solver.
  - by split; [apply NoDup_nil_2|].
Qed.

Lemma rest_ne (i j : nat) rest : j ≠ i → j ∈ i :: rest → j ∈ rest.
Proof. intros Hne [->|?]%elem_of_cons; done. Qed.

(** Visiting one worker in a broadcast. *)
Lemma agg_broadcast_phase g i rest w p n :
  a_pc_range n (ACBroadcast g (i :: rest)) → aphase_ok p w → a_allowed (ACBroadcast g (i :: rest)) i p →
  ∃ p', aphase_ok p' (agg_broadcast_one g w) ∧ a_allowed (ACBroadcast g rest) i p' ∧
     (p' = AIdle ↔ p = AIdle) ∧ (a_executed p' ↔ a_executed p) ∧ (p' = ADone ↔ p = ADone).
Proof.
  intros [_ Hg] Hp Ha. unfold agg_broadcast_one, a_executed.
  destruct Hg as [->|[->| ->]]; simpl in Ha; unfold a_assigning in Ha; destruct_or? Ha; destruct_and? Ha; subst p;
    simpl in Hp; destruct_and? Hp; (case_decide; [congruence || idtac|congruence || idtac]);
    [exists AIdle|exists AReading|exists AWaiting|exists AExecuted|exists AIdle|exists AAggregating|exists AAggregating
    |exists AExecuted|exists AIdle|exists ACommitting|exists ACommitting|exists ADone];
    (split_and!; [simpl; auto 10|simpl; unfold a_assigning; auto 10|naive_solver..]).
Qed.

(** Waiting for one worker. *)
Lemma agg_sync_phase g i rest w p n :
  a_pc_range n (ACSync g (i :: rest)) → aphase_ok p w → a_allowed (ACSync g (i :: rest)) i p →
  agg_sync_passes g w = true → a_allowed (ACSync g rest) i p.
Proof.
  intros [_ Hg] Hp Ha Hs%bool_decide_eq_true. destruct Hg as [->|[->| ->]]; simpl in *;
    destruct_or? Ha; destruct_and? Ha; subst p; simpl in Hp; destruct_and? Hp; auto 10;
    rewrite !elem_of_cons, ?elem_of_nil in Hs; destruct_or? Hs; congruence || done.
Qed.

Lemma agg_coord_step_inv e s s' : a_inv s → agg_coord_step e s s' → a_inv s'.
Proof.
  intros Hinv Hst. pose proof (av_pc _ Hinv) as Hr. destruct Hst as
    [l pending ws log dep loads hist i w Hfr Hi _|l pending ws log dep loads hist Hfr _
    |i pending ws log dep loads hist w Hi Hst|i pending ws log dep loads hist w Hi
    |ws log dep loads hist _|g i rest ws log dep loads hist w Hi|g ws log dep loads hist
    |g i rest ws log dep loads hist w Hi Hsync|ws log dep loads hist|ws log dep loads hist _
    |ws log dep loads hist _|ws log dep loads hist|ws log dep loads hist loads' _]; simpl in Hr;
    try pose proof (allowed_all ws) as Hall.
  - by eapply agg_deploy_inv.
  - by apply agg_deploy_new_inv.
  - rewrite <-(list_insert_id ws i w) at 1 by done.
    eapply (agg_signal_inv _ _ ws log dep loads hist i w w); try done.
    + intros p Hp Ha. simpl in Ha. rewrite decide_True in Ha by done. exists AFresh.
      destruct Ha as [->| ->]; [simpl in Hp; destruct_and? Hp; congruence|].
      split_and!; try done. simpl. by rewrite decide_True.
    + intros j p Hne. simpl. by rewrite !decide_False.
  - eapply (agg_signal_inv _ _ ws log dep loads hist i w); try done.
    + intros p Hp Ha. simpl in Ha. rewrite decide_True in Ha by done. subst p.
      exists AReading. simpl in Hp. destruct Hp as (H1 & H2 & H3).
      unfold a_executed. split_and!; [simpl; auto|simpl; unfold a_assigning; auto|done| |done].
      naive_solver.
    + intros j p Hne. simpl. by rewrite decide_False.
  - eapply agg_pc_inv; [exact Hinv|done|by left|done|]. split; [apply all_workers_range|auto].
  - eapply (agg_signal_inv _ _ ws log dep loads hist i w); try done.
    + unfold agg_broadcast_one. by case_decide.
    + intros p Hp Ha. by eapply agg_broadcast_phase.
    + intros j p Hne. pose proof (rest_ne i j rest Hne).
      destruct Hr as [_ [->|[->| ->]]]; simpl; naive_solver.
    + destruct Hr as [Hr ?]. apply Forall_cons in Hr as [_ Hr]. done.
  - eapply agg_pc_inv; [exact Hinv| |by left; destruct g|done|split; [apply all_workers_range|apply Hr]].
    intros i p Hi. specialize (Hall i Hi).
    destruct Hr as [_ [->|[->| ->]]]; simpl; unfold a_assigning; rewrite ?elem_of_nil; naive_solver.
  - rewrite <-(list_insert_id ws i w) at 1 by done.
    eapply (agg_signal_inv _ _ ws log dep loads hist i w w); try done.
    + intros p Hp Ha. exists p. split_and!; try done. by eapply agg_sync_phase.
    + intros j p Hne. pose proof (rest_ne i j rest Hne).
      destruct Hr as [_ [->|[->| ->]]]; simpl; naive_solver.
    + destruct Hr as [Hr ?]. apply Forall_cons in Hr as [_ Hr]. done.
  - eapply agg_pc_inv; [exact Hinv| |by left|done|done].
    intros i p Hi. simpl. rewrite elem_of_nil. naive_solver.
  - eapply agg_pc_inv; [exact Hinv|done|by left|done|done].
  - by apply agg_share_inv.
  - eapply agg_pc_inv; [exact Hinv| |by right|done|split; [apply all_workers_range|auto]].
    intros i p Hi. specialize (Hall i Hi). simpl. rewrite elem_of_nil. naive_solver.
  - by eapply agg_next_epoch_inv.
Qed.

Lemma agg_step_inv s s' : a_inv s → agg_step s s' → a_inv s'.
Proof.
  intros Hinv [e Hst]. destruct Hst as [s1 s2 Hs|pc ws log dep loads hist i w o w' Hi Hs].
  - by eapply agg_coord_step_inv.
  - by eapply agg_step_worker_inv.
Qed.

Lemma agg_cinit_inv loads : a_inv (agg_cinit loads).
Proof.
  assert (∀ n, in_range n ([] : list (nat * aload))) as Hnil by (intros n i x Hx; by apply not_elem_of_nil in Hx).
  split; simpl; [| |done|done|by constructor].
  - exists [], [], []. split_and!; try done; apply NoDup_nil_2.
  - by split; [apply NoDup_nil_2|].
Qed.

Lemma agg_reachable_inv loads s : rtc agg_step (agg_cinit loads) s → a_inv s.
Proof. apply rtc_invariant; [apply agg_step_inv|apply agg_cinit_inv]. Qed.

(** ** No deadlock and no endless epoch *)

(** A worker in one of these phases can move on its own. *)
Lemma agg_worker_moves i p w :
  aphase_ok p w → p = ABooting ∨ p = AReading ∨ p = AAggregating ∨ p = ACommitting →
  ∃ o w', agg_worker_step i w o w'.
Proof.
  destruct w as [st g pc [[] l]]; intros Hp Hq; destruct_or? Hq; subst p; simpl in Hp; destruct_and? Hp;
    destruct_or?; destruct_and?; simplify_eq; do 2 eexists; constructor.
Qed.

(** The coordinator waits for a worker only while the worker can move. *)
Lemma agg_sync_moves g i rest w p n :
  a_pc_range n (ACSync g (i :: rest)) → aphase_ok p w → a_allowed (ACSync g (i :: rest)) i p →
  agg_sync_passes g w = true ∨ p = ABooting ∨ p = AReading ∨ p = AAggregating ∨ p = ACommitting.
Proof.
  intros [_ Hg] Hp Ha. unfold agg_sync_passes.
  destruct Hg as [->|[->| ->]]; simpl in *; destruct_or? Ha; destruct_and? Ha; subst p; simpl in Hp;
    destruct_and? Hp; auto; left; apply bool_decide_eq_true; rewrite !elem_of_cons; auto.
Qed.

Definition agg_waits (e : cenv) (s : acstate) : Prop :=
  match ac_pc s with
  | ACAssign _ => calls_return e (length (ac_history s)) ≤ length (ac_deployed s)
  | ACWaitEpoch => all_voted e (length (ac_history s)) = false
  | ACShare => results_in e (length (ac_history s)) = false
  | ACSync Aria_COMMIT [] => callback_returns e (length (ac_history s)) = false
  | _ => False
  end.
Definition agg_supplied (e : cenv) (s : acstate) : Prop :=
  length (ac_loads s) < calls_return e (length (ac_history s)) ∧ all_voted e (length (ac_history s)) = true ∧
  results_in e (length (ac_history s)) = true ∧ callback_returns e (length (ac_history s)) = true.

Lemma agg_reachable_moves e s : a_inv s → (∃ s', agg_step_in e s s') ∨ agg_waits e s.
Proof.
  destruct s as [pc ws log dep loads hist]. intros Hinv. pose proof Hinv as
    [(xs & zs & ys & _ & _ & _ & _ & _ & _ & _ & _ & _ & Hw) _ _ Hpc _]. unfold agg_waits. simpl in *.
  assert (∀ i w p, ws !! i = Some w → aphase_ok p w →
    p = ABooting ∨ p = AReading ∨ p = AAggregating ∨ p = ACommitting →
    ∃ s', agg_step_in e (mkACS pc ws log dep loads hist) s') as Hmove.
  { intros i w p Hi Hp Hc. destruct (agg_worker_moves i p w Hp Hc) as (o & w' & Hs).
    eexists. by eapply agg_step_worker. }
  destruct pc as [pending|k pending|k pending|g [|i rest]|g [|i rest]| |].
  - destruct (decide (length dep < calls_return e (length hist))) as [Hc|Hc]; [left|right; lia].
    destruct pending as [|l pending]; [eexists; by apply agg_step_coord, as_assigned|].
    destruct (agg_first_ready 0 ws) as [i|] eqn:E.
    + pose proof E as (j & w & -> & Hj & _)%agg_first_ready_Some.
      eexists. apply agg_step_coord. by eapply as_deploy.
    + eexists. apply agg_step_coord. by apply as_deploy_new.
  - left. destruct (lookup_lt_is_Some_2 ws k Hpc) as [w Hk].
    destruct (Hw k w Hk) as (p & Hp & Ha & _). simpl in Ha. rewrite decide_True in Ha by done.
    destruct Ha as [->| ->]; [eapply Hmove; eauto|].
    eexists. apply agg_step_coord. eapply as_booted; [done|]. by destruct Hp as [? _].
  - left. destruct (lookup_lt_is_Some_2 ws k Hpc) as [w Hk].
    eexists. apply agg_step_coord. by eapply as_signal.
  - left. eexists. apply agg_step_coord, as_broadcast_end.
  - left. pose proof Hpc as [[Hi _]%Forall_cons _]. destruct (lookup_lt_is_Some_2 ws i Hi) as [w Hwi].
    eexists. apply agg_step_coord. by eapply as_broadcast.
  - destruct Hpc as [_ [->|[->| ->]]].
    + left. eexists. apply agg_step_coord, as_read_end.
    + left. eexists. apply agg_step_coord, as_aggregate_end.
    + destruct (callback_returns e _) eqn:Ec; [left|by right].
      eexists. by apply agg_step_coord, (as_next_epoch _ _ _ _ _ _ []).
  - left. pose proof Hpc as [[Hi _]%Forall_cons _]. destruct (lookup_lt_is_Some_2 ws i Hi) as [w Hwi].
    destruct (Hw i w Hwi) as (p & Hp & Ha & _).
    destruct (agg_sync_moves g i rest w p _ Hpc Hp Ha) as [Hs|Hm]; [|by eapply Hmove].
    eexists. apply agg_step_coord. by eapply as_sync.
  - destruct (all_voted e _) eqn:Ev; [left|by right]. eexists. by apply agg_step_coord, as_wait_epoch.
  - destruct (results_in e _) eqn:Ev; [left|by right]. eexists. by apply agg_step_coord, as_share.
Qed.

Lemma agg_supplied_moves e s : a_inv s → agg_supplied e s → ∃ s', agg_step_in e s s'.
Proof.
  intros Hinv (H1 & H2 & H3 & H4). destruct (agg_reachable_moves e s Hinv) as [?|Hw]; [done|exfalso].
  assert (length (ac_deployed s) ≤ length (ac_loads s)) as Hl.
  { rewrite <-(av_loads _ Hinv), length_app, length_fmap. lia. }
  unfold agg_waits in Hw. destruct (ac_pc s) as [| | | |[] []| |]; try done; [lia|congruence..].
Qed.

(** The steps a worker still has to take in this epoch, and the coordinator. *)
Definition agg_worker_measure (w : ainst) : nat :=
  match aw_pc w with
  | ABoot => 7
  | AWaitRead => if decide (aw_state w = READY) then 0 else 6
  | ADispatch => 5
  | AWaitAggregate => 4
  | AExec => 3
  | AWaitCommit => 2
  | ACommit => 1
  | AStopped => 0
  end.

Definition agg_coord_measure (n : nat) (c : acpc) : nat :=
  match c with
  | ACAssign p => 6 * (n + length p) + 20 * length p + 8
  | ACSignal _ p => 6 * (n + length p) + 20 * length p + 9
  | ACBoot _ p => 6 * (n + length p) + 20 * length p + 10
  | ACBroadcast Aria_READ r => length r + 5 * n + 7
  | ACSync Aria_READ r => length r + 4 * n + 6
  | ACWaitEpoch => 4 * n + 5
  | ACShare => 4 * n + 4
  | ACBroadcast Aggregate r => length r + 3 * n + 3
  | ACSync Aggregate r => length r + 2 * n + 2
  | ACBroadcast _ r => length r + n + 1
  | ACSync _ r => length r
  end.

Definition agg_measure (s : acstate) : nat :=
  agg_coord_measure (length (ac_workers s)) (ac_pc s) + sum_list_with agg_worker_measure (ac_workers s).

Lemma agg_broadcast_measure g w : agg_worker_measure (agg_broadcast_one g w) = agg_worker_measure w.
Proof. unfold agg_broadcast_one, aw_set_signal, agg_worker_measure. by repeat case_decide. Qed.

Lemma agg_worker_step_measure c dep xs zs ys i w o w' :
  a_worker_inv c dep xs zs ys i w → agg_worker_step i w o w' → agg_worker_measure w' < agg_worker_measure w.
Proof.
  intros (p & Hp & _) Hs. destruct Hs as [g l|s l|s g l|s g l|s l|s g l|s l|s g l|s pc l [->|[->| ->]]];
    unfold agg_worker_measure; simpl in *; aphases p Hp; subst; simpl; lia.
Qed.

Lemma agg_step_measure s s' :
  a_inv s → agg_step s s' → ac_history s' = ac_history s → agg_measure s' < agg_measure s.
Proof.
  intros Hinv [e Hst]. destruct Hst as [s1 s2 Hs|pc ws log dep loads hist i w o w' Hi Hs].
  - destruct Hs as
    [l pending ws log dep loads hist i w Hfr Hi _|l pending ws log dep loads hist Hfr _
    |i pending ws log dep loads hist w Hi Hst|i pending ws log dep loads hist w Hi
    |ws log dep loads hist _|g i rest ws log dep loads hist w Hi|g ws log dep loads hist
    |g i rest ws log dep loads hist w Hi Hsync|ws log dep loads hist|ws log dep loads hist _
    |ws log dep loads hist _|ws log dep loads hist|ws log dep loads hist loads' _];
      intros Hh; unfold agg_measure; simpl in *; unfold all_workers; rewrite ?length_insert, ?length_seq;
      try lia.
    + pose proof (sum_insert agg_worker_measure ws i w (mkAW ASSIGNED (aw_signal w) (aw_pc w) l) Hi) as Hsum.
      assert (agg_worker_measure (mkAW ASSIGNED (aw_signal w) (aw_pc w) l) ≤ 7) as H7
        by (unfold agg_worker_measure; simpl; destruct (aw_pc w); simpl; lia).
      lia.
    + rewrite length_app, sum_list_with_app. cbn [sum_list_with length].
      change (agg_worker_measure (mkAW READY START ABoot l)) with 7. lia.
    + pose proof (sum_insert agg_worker_measure ws i w (aw_set_signal Aria_READ w) Hi) as Hsum.
      change (agg_worker_measure (aw_set_signal Aria_READ w)) with (agg_worker_measure w) in Hsum. lia.
    + pose proof (sum_insert agg_worker_measure ws i w (agg_broadcast_one g w) Hi) as Hsum.
      rewrite agg_broadcast_measure in Hsum. destruct g; simpl; lia.
    + destruct g; simpl; lia.
    + destruct g; simpl; lia.
    + apply (f_equal length) in Hh. rewrite length_app in Hh. simpl in Hh. lia.
  - intros _. destruct (av_log _ Hinv) as (xs & zs & ys & _ & _ & _ & _ & _ & _ & _ & _ & _ & Hw). simpl in Hw.
    pose proof (agg_worker_step_measure _ _ _ _ _ _ _ _ _ (Hw i w Hi) Hs) as Hm.
    pose proof (sum_insert agg_worker_measure ws i w w' Hi) as Hsum.
    unfold agg_measure. simpl. rewrite length_insert. lia.
Qed.

Lemma agg_step_history s s' : agg_step s s' → ∃ h, ac_history s' = ac_history s ++ h.
Proof.
  intros [e Hst]. destruct Hst as [s1 s2 Hs|]; [destruct Hs|]; simpl;
    first [by eexists | exists []; by rewrite app_nil_r].
Qed.

Lemma agg_step_progress s s' :
  a_inv s → agg_step s s' →
  length (ac_history s) ≤ length (ac_history s') ∧
  (length (ac_history s') = length (ac_history s) → agg_measure s' < agg_measure s).
Proof.
  intros Hinv Hst. destruct (agg_step_history _ _ Hst) as [h Hh]. rewrite Hh, length_app. split; [lia|].
  intros E. apply agg_step_measure; [done|done|]. destruct h; [by rewrite Hh, app_nil_r|simpl in E; lia].
Qed.

(** In an epoch the workloads stay. *)
Lemma agg_step_loads s s' : agg_step s s' → length (ac_history s') = length (ac_history s) → ac_loads s' = ac_loads s.
Proof.
  intros [e Hst]. destruct Hst as [s1 s2 Hs|]; [destruct Hs|]; simpl; try done.
  rewrite length_app. simpl. lia.
Qed.

Lemma agg_supplied_run e s s' :
  a_inv s → agg_supplied e s → rtc (agg_step_in e) s s' → length (ac_history s') = length (ac_history s) →
  ∃ s'', agg_step_in e s' s''.
Proof.
  intros Hinv Hs Hr Hh. assert (a_inv s' ∧ length (ac_history s) ≤ length (ac_history s') ∧
    (length (ac_history s') = length (ac_history s) → ac_loads s' = ac_loads s)) as (Hi & _ & Hl).
  { clear Hh Hs. induction Hr as [s|s1 s2 s3 Hst Hr IH]; [done|]. assert (agg_step s1 s2) as Hst' by (by exists e).
    destruct (agg_step_progress _ _ Hinv Hst') as [Hle _].
    destruct IH as (Hi & Hle' & Hl); [by eapply agg_step_inv|]. split_and!; [done|lia|].
    intros E. rewrite Hl by lia. apply agg_step_loads; [done|lia]. }
  apply agg_supplied_moves; [done|]. unfold agg_supplied. by rewrite Hh, (Hl Hh).
Qed.

(** C11: The signals between the aggregation coordinator and its workers
    separate the phases of an epoch, whatever the interleaving: the log of a
    finished epoch is one execution of each of the server's own workloads, then
    the exchange of the results, then one execution of each aggregation
    workload, then one commit of every workload by the worker that executed it.
    And there is no deadlock between them: one of them can move, or the
    coordinator waits for transactions, for the votes of the servers, for the
    results of the other servers or for the callback.  If all that the epoch
    waits for has come, no run stops before the epoch has ended; and whatever
    comes and when, every run of more than [agg_measure] steps has finished an
    epoch.  A call of an executor by a worker is a step, so the chaincodes are
    taken to return. *)
Theorem agg_protocol_correct loads s :
  rtc agg_step (agg_cinit loads) s →
  Forall agg_epoch_log_ok (ac_history s) ∧
  (∀ e, (∃ s', agg_step_in e s s') ∨ agg_waits e s) ∧
  (∀ e s', agg_supplied e s → rtc (agg_step_in e) s s' → length (ac_history s') = length (ac_history s) →
     ∃ s'', agg_step_in e s' s'') ∧
  ∀ n s', nsteps agg_step n s s' → agg_measure s < n → length (ac_history s) < length (ac_history s').
Proof.
  intros Hr%agg_reachable_inv.
  split_and!; [apply (av_hist _ Hr)|intros e; by apply agg_reachable_moves|intros e s'; by apply agg_supplied_run|].
  intros n s' Hn Hm.
  destruct (nsteps_progress agg_step a_inv _ agg_measure agg_step_inv agg_step_progress n s s' Hr Hn) as [?|[_ ?]]; lia.
Qed.

(** An epoch with one workload of each kind, on two workers; the aggregation
    worker is up first. *)
Definition agg_worked (l k : list N) : acstate :=
  mkACS (ACAssign []) [mkAW READY Aria_COMMIT AWaitRead (true, k); mkAW READY Aria_COMMIT AWaitRead (false, l)] [] [] []
    [([(true, k); (false, l)],
      [AEvExec 1 (false, l); AEvShare; AEvExec 0 (true, k); AEvCommit 1 (false, l); AEvCommit 0 (true, k)])].

Ltac agg_coord c :=
  eapply rtc_l; [exists all_come; eapply agg_step_coord, c; first [reflexivity | simpl; lia]|]; unfold all_workers; simpl.
Ltac agg_work i c :=
  eapply rtc_l; [exists all_come; eapply (agg_step_worker _ _ _ _ _ _ _ i); [reflexivity|apply c]|]; simpl.

Lemma agg_run_one_epoch l k : rtc agg_step (agg_cinit [(true, k); (false, l)]) (agg_worked l k).
Proof.
  agg_coord as_deploy_new. agg_work 0 aw_boot. agg_coord as_booted. agg_coord as_signal.
  agg_work 0 aw_read. agg_work 0 aw_aggregate.
  agg_coord as_deploy_new. agg_work 1 aw_boot. agg_coord as_booted. agg_coord as_signal.
  agg_coord as_assigned. do 2 agg_coord as_broadcast. agg_coord as_broadcast_end.
  agg_coord as_sync. agg_work 1 aw_read. agg_work 1 aw_normal. agg_work 1 aw_exec. agg_coord as_sync.
  agg_coord as_read_end. agg_coord as_wait_epoch. agg_coord as_share.
  do 2 agg_coord as_broadcast. agg_coord as_broadcast_end.
  agg_work 0 aw_aggregate_signal. agg_work 0 aw_exec. do 2 agg_coord as_sync. agg_coord as_aggregate_end.
  do 2 agg_coord as_broadcast. agg_coord as_broadcast_end.
  agg_work 1 aw_commit_signal. agg_work 1 aw_commit. agg_work 0 aw_commit_signal. agg_work 0 aw_commit.
  do 2 agg_coord as_sync.
  eapply rtc_l; [exists all_come; by apply agg_step_coord, (as_next_epoch _ _ _ _ _ _ [])|]. apply rtc_refl.
Defined.

Lemma agg_protocol_correct_witness :
  Forall agg_epoch_log_ok (ac_history (agg_worked [7%N] [8%N])) ∧
  (∀ e, (∃ s', agg_step_in e (agg_worked [7%N] [8%N]) s') ∨ agg_waits e (agg_worked [7%N] [8%N])) ∧
  (∀ e s', agg_supplied e (agg_worked [7%N] [8%N]) → rtc (agg_step_in e) (agg_worked [7%N] [8%N]) s' →
     length (ac_history s') = length (ac_history (agg_worked [7%N] [8%N])) → ∃ s'', agg_step_in e s' s'') ∧
  ∀ n s', nsteps agg_step n (agg_worked [7%N] [8%N]) s' → agg_measure (agg_worked [7%N] [8%N]) < n →
    length (ac_history (agg_worked [7%N] [8%N])) < length (ac_history s').
Proof.
  apply (agg_protocol_correct [(true, [8%N]); (false, [7%N])] (agg_worked [7%N] [8%N])).
  exact (agg_run_one_epoch [7%N] [8%N]).
Defined.
