(* ===== verification/AggregationSystem.v ===== *)
(** * Aggregation: coordinator, workers and executors together

    [AggregationProtocol] decides when a worker calls its executors and when
    the results are shared; this file runs the calls of a finished epoch, in the
    order in which they happened, on the shared state, and concludes with the
    results of [AggregatedEpoch] for a cluster whose servers all run the
    protocol. *)
From S2P Require Import Prelude Transaction TransactionCodec Storage Orm Database ReserveTable Executor Aria.
From S2P Require Import Coordinator Protocol Aggregation AggregatedEpoch AggregationProtocol.
From Stdlib Require Import NArith Lia.
From stdpp Require Import base list gmap strings.

Section AggregationSystem.
Context `{ProtobufLaws}.
Context {S : Type} `{TableStorage S}.
Context (invoke : string → string → CC S Z).
Context (debug : bool).

(** A server: the reserve table pointers of the executors (a worker has a
    normal and an aggregating one), the broadcaster, the shared state, and the
    message sent. *)
Record agg_run := mkRun {
  ar_rts : gmap (nat * bool) (option N);
  ar_b : AggregationBroadcaster;
  ar_st : exec_state S;
  ar_sent : option AggregationExchange }.

Definition pointer (i : nat) (l : bool * list N) (s : agg_run) : option N := default None (ar_rts s !! (i, l.1)).

Definition run_aevent (e : N) (incoming : list AggregationExchange) (ev : aevent) (s : agg_run) : outcome agg_run :=
  match ev with
  | AEvExec i l =>
      '(_, rt, st) ← (if l.1 then aggregateList debug l.2 (pointer i l s) (ar_st s)
                      else executeList invoke debug l.2 (pointer i l s) (ar_st s));
      Ok (mkRun (<[(i, l.1) := rt]> (ar_rts s)) (ar_b s) st (ar_sent s))
  | AEvShare =>
      '(_, m, b, (h, db)) ← aggregateTransaction debug e incoming (ar_b s) (ex_heap (ar_st s), ex_db (ar_st s));
      Ok (mkRun (ar_rts s) b (mkExec h db (ex_table (ar_st s))) m)
  | AEvCommit i l =>
      '(_, st) ← commitList debug l.2 (pointer i l s) (ar_st s);
      Ok (mkRun (ar_rts s) (ar_b s) st (ar_sent s))
  end.

Definition run_agg_log (e : N) (incoming : list AggregationExchange) (log : list aevent) (s : agg_run) : outcome agg_run :=
  foldM (run_aevent e incoming) log s.

(** ** The executions *)
Lemma executeList_pointer l rt rt' st : l ≠ [] → executeList invoke debug l rt st = executeList invoke debug l rt' st.
Proof. by destruct l. Qed.
Lemma aggregateList_pointer l rt rt' (st : exec_state S) : l ≠ [] → aggregateList debug l rt st = aggregateList debug l rt' st.
Proof. by destruct l. Qed.

(** The executions of one kind, as the phase that runs the workloads one after
    the other. *)
Definition kind_phase (k : bool) : list (list N) → exec_state S → outcome (list (list N * option N) * exec_state S) :=
  if k then aggregate_phase debug else read_phase invoke debug.

(** What a worker commits with. *)
Definition committed_with (rts : gmap (nat * bool) (option N)) (x : nat * (bool * list N)) : list N * option N :=
  (x.2.2, default None (rts !! (x.1, x.2.1))).

Lemma run_execs e incoming (k : bool) xs : ∀ rts b st m ws st',
  Forall (λ x, x.2.1 = k ∧ x.2.2 ≠ []) xs → NoDup xs.*1 →
  kind_phase k xs.*2.*2 st = Ok (ws, st') →
  ∃ rts', run_agg_log e incoming (execs xs) (mkRun rts b st m) = Ok (mkRun rts' b st' m) ∧
    ws = committed_with rts' <$> xs ∧
    ∀ i k', (i ∉ xs.*1 ∨ k' ≠ k) → rts' !! (i, k') = rts !! (i, k').
Proof.
  induction xs as [|[i [k0 l]] xs IH]; intros rts b st m ws st' Hx Hnd E.
  { assert (ws = [] ∧ st' = st) as [-> ->] by (destruct k; simpl in E; by simplify_eq). by exists rts. }
  apply Forall_cons in Hx as [[E0 Hl] Hx]. simpl in E0, Hl. subst k0.
  rewrite fmap_cons in Hnd. apply NoDup_cons in Hnd as [Hi Hnd].
  assert (∃ b0 rt st1 ws', (if k then aggregateList debug l None st else executeList invoke debug l None st) = Ok (b0, rt, st1) ∧
    kind_phase k xs.*2.*2 st1 = Ok (ws', st') ∧ ws = (l, rt) :: ws') as (b0 & rt & st1 & ws' & E1 & E2 & ->).
  { rewrite !fmap_cons in E. destruct k; simpl in E; inv_outcome; simplify_eq/=; by do 4 eexists. }
  destruct (IH (<[(i, k) := rt]> rts) b st1 m ws' st' Hx Hnd E2) as (rts' & Erun & Ews & Hkeep).
  exists rts'. split_and!.
  - unfold run_agg_log in *. simpl. unfold pointer at 1 2. simpl.
    destruct k; simpl in E1 |- *;
      [rewrite (aggregateList_pointer l _ None), E1 by done|rewrite (executeList_pointer l _ None), E1 by done];
      simpl; exact Erun.
  - rewrite fmap_cons, <-Ews. f_equal. unfold committed_with. simpl.
    rewrite Hkeep by (by left). by rewrite lookup_insert_eq.
  - intros j k' Hj. rewrite Hkeep by (clear -Hj; set_solver). apply lookup_insert_ne. clear -Hj. set_solver.
Qed.

Lemma run_commits_agg e incoming ys : ∀ rts b st m st',
  commit_phase debug (committed_with rts <$> ys) st = Ok st' →
  run_agg_log e incoming (commits ys) (mkRun rts b st m) = Ok (mkRun rts b st' m).
Proof.
  induction ys as [|[i [k l]] ys IH]; intros rts b st m st' E; [by injection E as ->|].
  unfold commit_phase in E. simpl in E. unfold run_agg_log. simpl. unfold pointer. simpl.
  destruct (commitList _ _ _ _) as [[b0 st1]|]; [|done]. simpl in E |- *. by apply IH.
Qed.

(** ** A finished epoch *)
Section Epoch.
Context (xs zs ys : list (nat * (bool * list N))).
Context (Hxs : Forall (λ x, x.2.1 = false) xs) (Hzs : Forall (λ x, x.2.1 = true) zs).
Context (Hnd : NoDup (xs ++ zs).*1) (Hys : ys ≡ₚ xs ++ zs) (Hne : Forall (λ x, x.2.2 ≠ []) (xs ++ zs)).

(** The log of the epoch runs as [aggregated_epoch] does, with the workloads
    and the commits in the order of the log. *)
Lemma run_agg_epoch e incoming rts b st m0 :
  (∀ order, (∀ l, order l ≡ₚ l) →
     ∃ st', aggregated_epoch invoke debug e xs.*2.*2 zs.*2.*2 order incoming b st = Ok st') →
  ∃ order s, (∀ l, order l ≡ₚ l) ∧
    run_agg_log e incoming (execs xs ++ [AEvShare] ++ execs zs ++ commits ys) (mkRun rts b st m0) = Ok s ∧
    aggregated_epoch invoke debug e xs.*2.*2 zs.*2.*2 order incoming b st = Ok (ar_st s) ∧
    (∀ m, broadcastEpoch b ≠ e → sent invoke debug e xs.*2.*2 b st = Ok m → ar_sent s = Some m).
Proof.
  intros Hok. destruct (Hok id) as [st' E]; [done|]. unfold aggregated_epoch in Hok, E |- *.
  destruct (read_phase invoke debug xs.*2.*2 st) as [[ws1 st1]|] eqn:E1; [|done].
  cbn [mbind outcome_bind] in Hok, E |- *.
  destruct (aggregateTransaction debug e incoming b (ex_heap st1, ex_db st1)) as [[[[r m] b'] [h db]]|] eqn:E2; [|done].
  cbn [mbind outcome_bind] in Hok, E |- *.
  destruct (aggregate_phase debug zs.*2.*2 (mkExec h db (ex_table st1))) as [[ws2 st2]|] eqn:E3; [|done].
  cbn [mbind outcome_bind] in Hok, E |- *.
  rewrite fmap_app in Hnd. apply NoDup_app in Hnd as (Hn1 & Hdis & Hn2). apply Forall_app in Hne as [Hne1 Hne2].
  destruct (run_execs e incoming false xs rts b st m0 ws1 st1) as (rts1 & R1 & -> & _);
    [by apply Forall_and|done|done|].
  destruct (run_execs e incoming true zs rts1 b' (mkExec h db (ex_table st1)) m ws2 st2) as (rts2 & R2 & -> & Hkeep);
    [by apply Forall_and|done|done|].
  assert (committed_with rts1 <$> xs = committed_with rts2 <$> xs) as Exs.
  { apply list_fmap_ext. intros k x Hx. unfold committed_with. rewrite Hkeep; [done|right].
    rewrite Forall_lookup in Hxs. by rewrite (Hxs k x Hx). }
  rewrite Exs in *. set (ws := (committed_with rts2 <$> xs) ++ (committed_with rts2 <$> zs)) in *.
  set (order := λ l : list (list N * option N), if decide (l = ws) then committed_with rts2 <$> ys else l).
  assert (∀ l, order l ≡ₚ l) as Hord.
  { intros l. unfold order. case_decide; [|done]. subst l. unfold ws. by rewrite Hys, fmap_app. }
  destruct (Hok order Hord) as [st3 E4]. exists order.
  assert (order ws = committed_with rts2 <$> ys) as Ews by (unfold order; by rewrite decide_True).
  pose proof E4 as E4'. rewrite Ews in E4. exists (mkRun rts2 b' st3 m). split_and!; [done| |done|].
  - unfold run_agg_log in *. rewrite foldM_app, R1. simpl. rewrite E2. simpl. rewrite foldM_app, R2. simpl.
    by apply run_commits_agg.
  - intros m' Hb Hm. unfold sent in Hm. rewrite E1 in Hm. simpl in Hm. unfold aggregateTransaction in E2.
    apply N.eqb_neq in Hb. rewrite Hb in E2. simpl in E2. rewrite Hm in E2. inv_outcome. by simplify_eq/=.
Qed.

End Epoch.

(** ** The cluster *)

(** The workloads of one kind, in the order of the log. *)
Definition executed_loads (k : bool) (log : list aevent) : list (list N) :=
  omap (λ ev, match ev with AEvExec _ l => if bool_decide (l.1 = k) then Some l.2 else None | _ => None end) log.
Definition loads_of (k : bool) (loads : list (bool * list N)) : list (list N) :=
  omap (λ l, if bool_decide (l.1 = k) then Some l.2 else None) loads.

Lemma executed_loads_execs k xs : executed_loads k (execs xs) = loads_of k xs.*2.
Proof.
  induction xs as [|[i l] xs IH]; [done|]. unfold executed_loads, loads_of in *. simpl.
  case_bool_decide; [f_equal|]; exact IH.
Qed.
Lemma executed_loads_commits k ys : executed_loads k (commits ys) = [].
Proof. by induction ys as [|[i l] ys IH]. Qed.

Lemma loads_of_kind (k : bool) (xs : list (nat * (bool * list N))) :
  Forall (λ x, x.2.1 = k) xs → loads_of k xs.*2 = xs.*2.*2 ∧ loads_of (negb k) xs.*2 = [].
Proof.
  induction 1 as [|[i [k' l]] xs Hx _ [IH1 IH2]]; [done|]. simpl in Hx. subst k'. unfold loads_of in *. simpl.
  rewrite bool_decide_true, bool_decide_false by (by destruct k). split; [f_equal; exact IH1|exact IH2].
Qed.

Lemma loads_of_tagged k (ls : list (list N)) : loads_of k ((pair k) <$> ls) = ls ∧ loads_of k ((pair (negb k)) <$> ls) = [].
Proof.
  induction ls as [|l ls [IH1 IH2]]; [done|]. unfold loads_of in *. simpl.
  rewrite bool_decide_true, bool_decide_false by (by destruct k). split; [f_equal; exact IH1|exact IH2].
Qed.

Lemma loads_of_app k ls ls' : loads_of k (ls ++ ls') = loads_of k ls ++ loads_of k ls'.
Proof. apply omap_app. Qed.

Lemma loads_of_perm k (ls ls' : list (bool * list N)) : ls ≡ₚ ls' → loads_of k ls ≡ₚ loads_of k ls'.
Proof. intros E. unfold loads_of. by rewrite E. Qed.

Lemma executed_loads_log k xs zs ys :
  executed_loads k (execs xs ++ [AEvShare] ++ execs zs ++ commits ys) = loads_of k (xs ++ zs).*2.
Proof.
  unfold executed_loads. rewrite !omap_app. simpl.
  change (omap _ (execs xs)) with (executed_loads k (execs xs)).
  change (omap _ (execs zs)) with (executed_loads k (execs zs)).
  change (omap _ (commits ys)) with (executed_loads k (commits ys)).
  by rewrite !executed_loads_execs, executed_loads_commits, app_nil_r, fmap_app, loads_of_app.
Qed.

(** What the log of a finished epoch contains. *)
Lemma epoch_log_loads loads log local remote :
  agg_epoch_log_ok (loads, log) → loads ≡ₚ ((pair false) <$> local) ++ ((pair true) <$> remote) →
  executed_loads false log ≡ₚ local ∧ executed_loads true log ≡ₚ remote.
Proof.
  intros (xs & zs & ys & E & Hx & Hz & _ & _ & Hl) Hp. cbn [fst snd] in E, Hl. rewrite E, !executed_loads_log.
  pose proof (loads_of_kind false xs Hx) as [X1 X2]. pose proof (loads_of_kind true zs Hz) as [Z1 Z2].
  pose proof (loads_of_tagged false local) as [T1 T2]. pose proof (loads_of_tagged true remote) as [T3 T4].
  pose proof (loads_of_tagged true local) as [_ T5]. pose proof (loads_of_tagged false remote) as [_ T6]. simpl in *.
  rewrite Hp in Hl.
  split; rewrite (loads_of_perm _ _ _ Hl), loads_of_app, ?T1, ?T3, ?T5, ?T6; simpl; by rewrite ?app_nil_r.
Qed.

Context {HL : ∀ h p, Local (invoke h p)}.
Context (cluster : list string) (Hcluster : NoDup cluster).
Context (e : N) (T : gmap N TransactionPayload) (P : string → peer (S:=S)).
Context (HP : ∀ k, k ∈ cluster → peer_ready invoke debug cluster e T P k).

(** The server's log of the epoch, and the workloads it was given. *)
Context (lg : string → list aevent) (ld : string → list (bool * list N)).

(** Server [k] reached, by its protocol, a state in which the epoch is
    finished. *)
Record ran (k : string) : Prop := {
  rn_run : ∃ loads s, rtc agg_step (agg_cinit loads) s ∧ (ld k, lg k) ∈ ac_history s;
  rn_loads : ld k ≡ₚ ((pair false) <$> pr_local (P k)) ++ ((pair true) <$> pr_remote (P k));
  rn_full : Forall (λ l, l.2 ≠ []) (ld k) }.
Context (Hran : ∀ k, k ∈ cluster → ran k).

Lemma ran_log k : k ∈ cluster → agg_epoch_log_ok (ld k, lg k).
Proof.
  intros Hk. destruct (rn_run k (Hran k Hk)) as (loads & s & Hr & Hin). apply agg_reachable_inv in Hr as [_ _ _ _ Hh].
  rewrite Forall_forall in Hh. by apply Hh.
Qed.

(** The peers with their workloads in the order of the log. *)
Definition as_run (k : string) : peer (S:=S) :=
  mkPeer (pr_b (P k)) (pr_st (P k)) (pr_txns (P k)) (executed_loads false (lg k)) (executed_loads true (lg k)).

Lemma as_run_ready k : k ∈ cluster → peer_ready invoke debug cluster e T as_run k.
Proof.
  intros Hk. destruct (HP k Hk). destruct (epoch_log_loads (ld k) (lg k) (pr_local (P k)) (pr_remote (P k))) as [E1 E2];
    [by apply ran_log|by apply rn_loads, Hran|].
  split; simpl; [done|done|done| | |done|done|done].
  - by rewrite E1.
  - by rewrite E2.
Qed.

(** C9: A cluster that aggregates runs epochs of Aria.  Let every server
    hold the same requests and the same database, let no request create a table
    and the read-write set of every request survive the wire (UTF-8 tables and
    keys, below 2 GiB; both are conditions of [peer_ready]), and let its
    coordinator and workers finish the epoch by any run of the aggregation
    protocol.  Then there are messages such that a server whose exchange receives the messages of the
    others, in any order, sends its own, runs the calls of its log without a
    failure, and ends with the transaction results, read-write sets and database
    of a server that executes the epoch alone. *)
Theorem aggregation_system :
  ∃ msg : string → AggregationExchange,
    ∀ j incoming rts ws order, j ∈ cluster → pr_txns (P j) ≠ [] →
      incoming ≡ₚ msg <$> filter (λ k, k ≠ j) cluster →
      concat ws ≡ₚ pr_txns (P j) → (∀ l, order l ≡ₚ l) →
      ∃ s st', run_agg_log e incoming (lg j) (mkRun rts (pr_b (P j)) (pr_st (P j)) None) = Ok s ∧
        ar_sent s = Some (msg j) ∧
        aria_epoch invoke debug ws order (pr_st (P j)) = Ok st' ∧
        (∀ p, ex_heap (ar_st s) !! p = ex_heap st' !! p) ∧
        ∀ c, view (storage (ex_db (ar_st s))) c = view (storage (ex_db st')) c.
Proof.
  set (sv' := sv invoke debug as_run). exists (message cluster e sv').
  intros j incoming rts ws order Hj Hne Hin Hws Hord. apply Permutation_map_inv in Hin as (ks & -> & Hks).
  change (map (message cluster e sv') ks) with (message cluster e sv' <$> ks).
  pose proof (ran_log j Hj) as (xs & zs & ys & Elog & Hx & Hz & Hnd & Hys & Hl). cbn [fst snd] in Elog, Hl.
  assert (executed_loads false (lg j) = xs.*2.*2 ∧ executed_loads true (lg j) = zs.*2.*2) as [Ex Ez].
  { rewrite Elog, !executed_loads_log, fmap_app, !loads_of_app.
    destruct (loads_of_kind false xs Hx) as [-> X2], (loads_of_kind true zs Hz) as [-> Z2]. simpl in X2, Z2.
    by rewrite X2, Z2, app_nil_r. }
  pose proof (λ o, aggregated_epoch_result invoke debug cluster Hcluster e T as_run as_run_ready j ks Hj Hks o Hne) as Hres.
  simpl in Hres. rewrite Ex, Ez in Hres. fold sv' in Hres.
  destruct (run_agg_epoch xs zs ys Hx Hz Hnd Hys) with (e := e) (incoming := message cluster e sv' <$> ks) (rts := rts)
    (b := pr_b (P j)) (st := pr_st (P j)) (m0 := @None AggregationExchange) as (o & s & Ho & Hrun & Hag & Hsent).
  { pose proof (rn_full j (Hran j Hj)) as Hf. rewrite <-Hl in Hf. by rewrite Forall_fmap in Hf. }
  { intros o Ho. destruct (Hres o Ho) as (st & E & _). by exists st. }
  destruct (Hres o Ho) as (st & E & Hh & Hv).
  assert (st = ar_st s) as -> by congruence.
  destruct (aria_epoch_result invoke debug e (pr_txns (P j)) (pr_st (P j)) (pd_ready _ _ _ _ _ _ _ (HP j Hj)) ws order
    Hne Hws Hord) as (st' & E' & Hh' & Hv').
  exists s, st'. rewrite Elog. split_and!; [done| |done| |].
  - apply Hsent.
    + pose proof (rd_epoch _ _ _ _ _ (sv_ready invoke debug cluster e T as_run as_run_ready j Hj)). simpl in *. lia.
    + unfold sent. destruct (local_phase invoke debug cluster e T as_run as_run_ready j Hj) as (ws' & st1 & E1 & _).
      pose proof (make_exchange_ok cluster e (dom T) sv' (sv_ready invoke debug cluster e T as_run as_run_ready) j Hj) as Hm.
      simpl in Hm, E1. unfold after in Hm. simpl in Hm. rewrite Ex in Hm, E1. rewrite E1 in Hm |- *. done.
  - intros p. by rewrite Hh, Hh'.
  - intros c. by rewrite Hv, Hv'.
Qed.

End AggregationSystem.
