(* ===== verification/Shutdown.v ===== *)
(** * Stopping the coordinator

    [Server::stopServer] sets the finish signal, joins the thread of the
    coordinator and destroys it: the loop of [run] ends between two epochs, and
    the destructor of [AriaCoordinator] then sends [EXIT] to all workers, waits
    until each of them has exited and destroys them ([destroyUnusedWorkers]).
    The worker threads run meanwhile.

    The aggregation coordinator inherits the destructor; what it relies on is an
    interface ([Stoppable]) with an instance for each kind of worker. *)
From S2P Require Import Prelude Coordinator Protocol AggregationProtocol.
From Stdlib Require Import Lia.
From stdpp Require Import base list relations.

(** A kind of worker: its state and signal, its steps (each with the call it
    makes, if any), and the two situations between epochs: it waits for the next
    signal, or the signal is [EXIT]. *)
Class Stoppable (W E : Type) := {
  st_state : W → WorkerState;
  st_signal : AriaGlobalState → W → W;
  st_step : nat → W → option E → W → Prop;
  waiting : W → Prop;
  told : W → Prop;
  stopped : W → Prop }.

Class StoppableLaws (W E : Type) `{Stoppable W E} : Prop := {
  waiting_stays i w o w' : waiting w → ¬ st_step i w o w';
  waiting_told w : waiting w → told (st_signal EXIT w);
  waiting_ready w : waiting w → st_state w ≠ EXITED;
  told_ready w : told w → st_state w ≠ EXITED;
  told_stops i w o w' : told w → st_step i w o w' → o = None ∧ stopped w';
  told_moves i w : told w → ∃ w', st_step i w None w';
  stopped_exited w : stopped w → st_state w = EXITED;
  stopped_stays i w o w' : stopped w → ¬ st_step i w o w' }.

Section Destructor.
Context {W E : Type} `{StoppableLaws W E}.

(** [destroyUnusedWorkers]: how many were destroyed and who is left. *)
Definition destroyUnusedWorkers (ws : list W) : nat * list W :=
  (length (filter (λ w, st_state w = EXITED) ws), filter (λ w, st_state w ≠ EXITED) ws).

Inductive dpc :=
  | DBroadcast (rest : list nat)
  | DSync (rest : list nat)
  | DEnd (count : nat).

Record dstate := mkD { d_pc : dpc; d_workers : list W; d_log : list E }.

Definition d_init (ws : list W) : dstate := mkD (DBroadcast (all_workers ws)) ws [].

(** [broadcastToAllWorkers(EXIT, false)], [syncAllWorker({EXITED}, false)] and
    the destruction, interleaved with the workers. *)
Inductive d_step : dstate → dstate → Prop :=
  | d_broadcast i rest ws log w :
      ws !! i = Some w →
      d_step (mkD (DBroadcast (i :: rest)) ws log) (mkD (DBroadcast rest) (<[i := st_signal EXIT w]> ws) log)
  | d_broadcast_end ws log :
      d_step (mkD (DBroadcast []) ws log) (mkD (DSync (all_workers ws)) ws log)
  | d_sync i rest ws log w :
      ws !! i = Some w → st_state w = EXITED →
      d_step (mkD (DSync (i :: rest)) ws log) (mkD (DSync rest) ws log)
  | d_destroy ws log :
      d_step (mkD (DSync []) ws log)
        (mkD (DEnd (destroyUnusedWorkers ws).1) (destroyUnusedWorkers ws).2 log)
  | d_worker pc ws log i w o w' :
      ws !! i = Some w → st_step i w o w' →
      d_step (mkD pc ws log) (mkD pc (<[i := w']> ws) (log ++ option_list o)).

Inductive situation := Waiting | Told | Gone.
Definition sit_ok (s : situation) (w : W) : Prop :=
  match s with Waiting => waiting w | Told => told w | Gone => stopped w end.

Definition sit_allowed (pc : dpc) (i : nat) (s : situation) : Prop :=
  match pc with
  | DBroadcast rest => s = Waiting ↔ i ∈ rest
  | DSync rest => s = Gone ∨ (s = Told ∧ i ∈ rest)
  | DEnd _ => False
  end.

Record d_inv (n : nat) (d : dstate) : Prop := {
  di_silent : d_log d = [];
  di_count : match d_pc d with DEnd k => k = n ∧ d_workers d = [] | _ => length (d_workers d) = n end;
  di_rest : match d_pc d with DBroadcast r | DSync r => NoDup r ∧ Forall (λ i, i < n) r | _ => True end;
  di_workers i w : d_workers d !! i = Some w → ∃ s, sit_ok s w ∧ sit_allowed (d_pc d) i s }.

Lemma d_init_inv ws : Forall waiting ws → d_inv (length ws) (d_init ws).
Proof.
  intros Hw. split; simpl; [done|done| |].
  - split; [apply NoDup_seq|]. apply Forall_forall. intros i Hi%elem_of_seq. lia.
  - intros i w Hi. exists Waiting. split; [by eapply Forall_lookup_1 in Hw|]. split; [|done]. intros _.
    apply elem_of_seq. apply lookup_lt_Some in Hi. lia.
Qed.

Lemma worker_step_inv_d n pc ws log i w o w' :
  d_inv n (mkD pc ws log) → ws !! i = Some w → st_step i w o w' →
  o = None ∧ d_inv n (mkD pc (<[i := w']> ws) log) ∧ told w ∧ stopped w'.
Proof.
  intros [Hlog Hn Hr Hw] Hi Hst. simpl in *. destruct (Hw i w Hi) as (s & Hs & Ha).
  destruct s; simpl in Hs; [by apply waiting_stays in Hst| |by apply stopped_stays in Hst].
  destruct (told_stops i w o w' Hs Hst) as [-> Hg]. split_and!; [done| |done|done].
  split; simpl; [done| |done|].
  - destruct pc; [by rewrite length_insert|by rewrite length_insert|done].
  - apply (workers_update _ _ _ _ _ Hw); [done|]. exists Gone. split; [done|].
    destruct pc as [rest|rest|k]; simpl in *; [|by left|done].
    split; [done|]. intros Hin. by apply Ha in Hin.
Qed.

Lemma d_step_inv n d d' : d_inv n d → d_step d d' → d_inv n d'.
Proof.
  intros Hd Hst. destruct Hst as [i rest ws log w Hi|ws log|i rest ws log w Hi He|ws log|pc ws log i w o w' Hi Hst].
  - destruct Hd as [Hlog Hn [Hnd Hr] Hw]. simpl in *. apply NoDup_cons in Hnd as [Hni Hnd].
    apply Forall_cons in Hr as [_ Hr]. split; simpl; [done|by rewrite length_insert|done|].
    assert (told (st_signal EXIT w)) as Ht.
    { destruct (Hw i w Hi) as (s & Hs & Ha). apply waiting_told. rewrite (proj2 Ha) in Hs; [done|by left]. }
    apply (workers_update _ _ _ _ _ Hw); clear Hw.
    + intros j u Hne (s & Hs & Ha). exists s. split; [done|]. simpl in *. rewrite Ha, elem_of_cons. split; [|by right].
      by intros [->|].
    + exists Told. split; [done|]. by split.
  - destruct Hd as [Hlog Hn _ Hw]. simpl in *. split; simpl; [done|done| |].
    + split; [apply NoDup_seq|]. apply Forall_forall. intros i Hi%elem_of_seq. lia.
    + intros i w Hi. destruct (Hw i w Hi) as (s & Hs & Ha). simpl in Ha. exists s. split; [done|].
      destruct s; [|right|by left].
      * by destruct (not_elem_of_nil i (proj1 Ha eq_refl)).
      * split; [done|]. apply elem_of_seq. apply lookup_lt_Some in Hi. lia.
  - destruct Hd as [Hlog Hn [Hnd Hr] Hw]. simpl in *. apply NoDup_cons in Hnd as [_ Hnd].
    apply Forall_cons in Hr as [_ Hr]. split; simpl; [done|done|done|].
    intros j u Hj. destruct (Hw j u Hj) as (s & Hs & Ha). exists s. split; [done|].
    destruct Ha as [->|[-> [->|Hin]%elem_of_cons]]; [by left| |by right].
    rewrite Hi in Hj. injection Hj as <-. by apply told_ready in Hs.
  - destruct Hd as [Hlog Hn _ Hw]. simpl in *.
    assert (Forall (λ w, st_state w = EXITED) ws) as Hall.
    { apply Forall_lookup. intros i w Hi. destruct (Hw i w Hi) as (s & Hs & [->|[_ ?%not_elem_of_nil]]); [|done].
      by apply stopped_exited. }
    assert (filter (λ w, st_state w = EXITED) ws = ws) as E1.
    { clear -Hall. induction Hall as [|w ws Hw _ IH]; [done|]. by rewrite filter_cons_True, IH. }
    assert (filter (λ w, st_state w ≠ EXITED) ws = []) as E2.
    { clear -Hall. induction Hall as [|w ws Hw _ IH]; [done|]. rewrite filter_cons_False; [done|]. by intros []. }
    rewrite E1, E2. by split.
  - destruct (worker_step_inv_d n pc ws log i w o w' Hd Hi Hst) as (-> & Hd' & _). simpl. by rewrite app_nil_r.
Qed.

Definition running_workers (ws : list W) : nat := length (filter (λ w, st_state w ≠ EXITED) ws).

Lemma running_insert ws i w w' :
  ws !! i = Some w →
  running_workers (<[i := w']> ws) + (if decide (st_state w = EXITED) then 0 else 1) =
  running_workers ws + (if decide (st_state w' = EXITED) then 0 else 1).
Proof.
  unfold running_workers. revert i. induction ws as [|u ws IH]; intros [|i] Hi; simpl in *; [done|done| |].
  - injection Hi as ->. rewrite !filter_cons. repeat case_decide; simpl; done || lia.
  - specialize (IH i Hi). rewrite !filter_cons. repeat case_decide; simpl in *; done || lia.
Qed.

Definition d_measure (n : nat) (d : dstate) : nat :=
  match d_pc d with
  | DBroadcast rest => length rest + n + 2
  | DSync rest => length rest + 1
  | DEnd _ => 0
  end + running_workers (d_workers d).

Lemma d_step_measure n d d' : d_inv n d → d_step d d' → d_measure n d' < d_measure n d.
Proof.
  intros Hd Hst. pose proof (d_step_inv n d d' Hd Hst) as Hd'. unfold d_measure.
  destruct Hst as [i rest ws log w Hi|ws log|i rest ws log w Hi He|ws log|pc ws log i w o w' Hi Hst]; simpl.
  - destruct (di_workers _ _ Hd i w Hi) as (s & Hs & Ha). simpl in Ha. rewrite (proj2 Ha) in Hs by (by left).
    pose proof (running_insert ws i w (st_signal EXIT w) Hi) as Er.
    rewrite !decide_False in Er; [lia|by apply told_ready, waiting_told|by apply waiting_ready].
  - pose proof (di_count _ _ Hd) as Hn. simpl in Hn. unfold all_workers. rewrite length_seq. lia.
  - lia.
  - pose proof (di_count _ _ Hd') as [_ Hw]. simpl in Hw. rewrite Hw. cbn. lia.
  - destruct (worker_step_inv_d n pc ws log i w o w' Hd Hi Hst) as (_ & _ & Ht & Hg).
    pose proof (running_insert ws i w w' Hi) as Er.
    rewrite decide_False, decide_True in Er; [lia|by apply stopped_exited|by apply told_ready].
Qed.

Lemma d_moves n d : d_inv n d → (∀ k, d_pc d ≠ DEnd k) → ∃ d', d_step d d'.
Proof.
  intros [Hlog Hn Hr Hw] Hpc. destruct d as [pc ws log]. simpl in *.
  destruct pc as [[|i rest]|[|i rest]|k]; [eexists; constructor| |eexists; constructor| |by destruct (Hpc k)].
  - destruct Hr as [_ [Hi _]%Forall_cons]. rewrite <-Hn in Hi. apply lookup_lt_is_Some_2 in Hi as [w Hi].
    eexists. by constructor.
  - destruct Hr as [_ [Hi _]%Forall_cons]. rewrite <-Hn in Hi. apply lookup_lt_is_Some_2 in Hi as [w Hi].
    destruct (Hw i w Hi) as (s & Hs & [->|[-> _]]); simpl in Hs.
    + eexists. eapply d_sync; [done|by apply stopped_exited].
    + destruct (told_moves i w Hs) as [w' Hst]. eexists. by eapply d_worker.
Qed.

(** What the destructor achieves, from any state it reaches: nothing was executed
    or committed, it goes on until it is done, which it is after a bounded number
    of steps, and then every worker has been destroyed. *)
Definition stops (ws : list W) : Prop :=
  ∀ d, rtc d_step (d_init ws) d →
    d_log d = [] ∧
    ((∃ d', d_step d d') ∨ d_pc d = DEnd (length ws) ∧ d_workers d = []) ∧
    ∀ k d', nsteps d_step k d d' → k ≤ d_measure (length ws) d.

Lemma d_bounded n k d d' : d_inv n d → nsteps d_step k d d' → k ≤ d_measure n d.
Proof.
  intros Hd Hk. revert Hd. induction Hk as [d|k d d1 d2 Hst _ IH]; intros Hd; [lia|].
  specialize (IH (d_step_inv n d d1 Hd Hst)). pose proof (d_step_measure n d d1 Hd Hst). lia.
Qed.

Lemma waiting_stops ws : Forall waiting ws → stops ws.
Proof.
  intros Hw d Hr.
  assert (d_inv (length ws) d) as Hd.
  { eapply (rtc_invariant d_step); [by intros ????; eapply d_step_inv|by apply d_init_inv|exact Hr]. }
  split_and!; [apply (di_silent _ _ Hd)| |].
  - destruct (d_pc d) as [r|r|k] eqn:Epc; [left; eapply d_moves; [done|by rewrite Epc]..|].
    right. pose proof (di_count _ _ Hd) as Hc. rewrite Epc in Hc. by destruct Hc as [-> ->].
  - intros k d'. by apply d_bounded.
Qed.

End Destructor.

(** ** The two kinds of workers *)
#[export] Instance aria_stoppable : Stoppable winst event := {|
  st_state := workerState; st_signal := set_signal; st_step := worker_step;
  waiting w := workerState w = READY ∧ ariaGlobalState w = Aria_COMMIT ∧ w_pc w = WWaitRead;
  told w := workerState w = READY ∧ ariaGlobalState w = EXIT ∧ w_pc w = WWaitRead;
  stopped w := workerState w = EXITED ∧ w_pc w = WStopped |}.

#[export] Instance agg_stoppable : Stoppable ainst aevent := {|
  st_state := aw_state; st_signal := aw_set_signal; st_step := agg_worker_step;
  waiting w := aw_state w = READY ∧ aw_signal w = Aria_COMMIT ∧ aw_pc w = AWaitRead;
  told w := aw_state w = READY ∧ aw_signal w = EXIT ∧ aw_pc w = AWaitRead;
  stopped w := aw_state w = EXITED ∧ aw_pc w = AStopped |}.

#[export] Instance aria_stoppable_laws : StoppableLaws winst event.
Proof.
  split; simpl.
  - intros i w o w' (H1 & H2 & H3). destruct 1; simpl in *; congruence.
  - by intros w (? & ? & ?).
  - intros w (-> & _). done.
  - intros w (-> & _). done.
  - intros i w o w' (H1 & H2 & H3). destruct 1; simpl in *; try congruence. done.
  - intros i [s g pc l]. simpl. intros (-> & -> & ->). eexists. constructor. by left.
  - by intros w [? _].
  - intros i w o w' [H1 H2]. destruct 1; simpl in *; try congruence. naive_solver.
Qed.

#[export] Instance agg_stoppable_laws : StoppableLaws ainst aevent.
Proof.
  split; simpl.
  - intros i w o w' (H1 & H2 & H3). destruct 1; simpl in *; congruence.
  - by intros w (? & ? & ?).
  - intros w (-> & _). done.
  - intros w (-> & _). done.
  - intros i w o w' (H1 & H2 & H3). destruct 1; simpl in *; try congruence. done.
  - intros i [s g pc l]. simpl. intros (-> & -> & ->). eexists. constructor. by left.
  - by intros w [? _].
  - intros i w o w' [H1 H2]. destruct 1; simpl in *; try congruence. naive_solver.
Qed.

(** C12: the coordinator stops.  In every state in which its loop can end, each
    worker waits for the signal of the next epoch; so the destructor, whatever
    the interleaving with the workers, runs to its end within a bound, no
    worker starts or commits anything while it runs, and at its end all workers
    have exited and are destroyed. *)
Theorem coordinator_stops loads s :
  rtc step (cinit loads) s → c_pc s = CCommitSync [] → stops (c_workers s).
Proof.
  intros Hr%reachable_inv Hpc. apply waiting_stops. apply Forall_lookup. intros i w Hi.
  destruct (iv_log _ Hr) as (xs & ys & _ & _ & _ & _ & _ & _ & Hw).
  destruct (Hw i w Hi) as (p & Hp & Ha & _). rewrite Hpc in Ha.
  destruct Ha as [->|[->|[_ ?%not_elem_of_nil]]]; done.
Qed.

Theorem agg_coordinator_stops loads s :
  rtc agg_step (agg_cinit loads) s → ac_pc s = ACSync Aria_COMMIT [] → stops (ac_workers s).
Proof.
  intros Hr%agg_reachable_inv Hpc. apply waiting_stops. apply Forall_lookup. intros i w Hi.
  destruct (av_log _ Hr) as (xs & zs & ys & _ & _ & _ & _ & _ & _ & _ & _ & _ & Hw).
  destruct (Hw i w Hi) as (p & Hp & Ha & _). rewrite Hpc in Ha.
  destruct Ha as [->|[->|[_ ?%not_elem_of_nil]]]; done.
Qed.

(** One worker, after its epoch. *)
Lemma coordinator_stops_witness : stops (c_workers (committed_all [7%N])).
Proof. apply (coordinator_stops [[7%N]] (committed_all [7%N])); [exact (run_to_commit [7%N])|reflexivity]. Defined.
