(* ===== verification/EpochQueues.v ===== *)
(** * Queues of pointers by epoch

    The transaction manager's [epochTxBuffer] and the recycler's
    [transactionMap] both map an epoch to a queue of transaction pointers.  A
    missing queue is an empty one, as the maps create it on first use. *)
From S2P Require Import Prelude Database.
From Stdlib Require Import NArith Lia.
From stdpp Require Import base list gmap.

Local Open Scope N_scope.

(** The largest number of epochs; the vectors with a slot per epoch have this
    size and are indexed without a bounds check. *)
Definition MAX_EPOCH : N := 10000.
Definition in_range (epoch : N) : outcome unit :=
  if epoch <? MAX_EPOCH then Ok tt else Fatal OutOfRange.

Lemma in_range_ok e : e < MAX_EPOCH → in_range e = Ok tt.
Proof. intros He. unfold in_range. by rewrite (proj2 (N.ltb_lt _ _) He). Qed.

Lemma in_range_inv e u : in_range e = Ok u → e < MAX_EPOCH.
Proof. unfold in_range. by destruct (N.ltb_spec e MAX_EPOCH). Qed.

Definition queue (e : N) (m : gmap N (list txn_ptr)) : list txn_ptr := default [] (m !! e).

Definition enq (e : N) (p : txn_ptr) (b : gmap N (list txn_ptr)) : gmap N (list txn_ptr) :=
  <[e := queue e b ++ [p]]> b.
Definition enq_all (e : N) (l : list txn_ptr) (b : gmap N (list txn_ptr)) : gmap N (list txn_ptr) :=
  foldl (λ b p, enq e p b) b l.

(** Every pointer of every queue. *)
Definition buffered (b : gmap N (list txn_ptr)) : list txn_ptr := concat (map_to_list b).*2.

Lemma queue_insert e l e' b : queue e' (<[e := l]> b) = if decide (e = e') then l else queue e' b.
Proof.
  unfold queue. destruct (decide (e = e')) as [->|Hne]; [by rewrite lookup_insert_eq|].
  by rewrite lookup_insert_ne.
Qed.

Lemma queue_delete e e' b : queue e' (delete e b) = if decide (e = e') then [] else queue e' b.
Proof.
  unfold queue. destruct (decide (e = e')) as [->|Hne]; [by rewrite lookup_delete_eq|].
  by rewrite lookup_delete_ne.
Qed.

Lemma queue_enq_all e l e' b :
  queue e' (enq_all e l b) = if decide (e = e') then queue e b ++ l else queue e' b.
Proof.
  revert b. induction l as [|p l IH]; intros b; simpl.
  - destruct (decide _) as [->|]; [by rewrite app_nil_r|done].
  - rewrite IH. unfold enq. rewrite !queue_insert.
    destruct (decide (e = e')); [|done]. by rewrite decide_True, <-app_assoc.
Qed.

Lemma buffered_split e b : buffered b ≡ₚ queue e b ++ buffered (delete e b).
Proof.
  unfold buffered, queue. destruct (b !! e) as [l|] eqn:E; simpl.
  - by rewrite <-(map_to_list_delete b e l E).
  - by rewrite delete_id.
Qed.

Lemma buffered_insert e l b : buffered (<[e := l]> b) ≡ₚ l ++ buffered (delete e b).
Proof.
  rewrite (buffered_split e), queue_insert, decide_True by done. by rewrite delete_insert_eq.
Qed.

Lemma buffered_clear e b : buffered b ≡ₚ queue e b ++ buffered (<[e := []]> b).
Proof. by rewrite buffered_insert, (buffered_split e b). Qed.

Lemma buffered_enq_all e l b : buffered (enq_all e l b) ≡ₚ l ++ buffered b.
Proof.
  rewrite (buffered_split e), queue_enq_all, decide_True, (buffered_split e b) by done.
  assert (delete e (enq_all e l b) = delete e b) as ->.
  { revert b. induction l as [|p l IH]; intros b; simpl; [done|]. rewrite IH. unfold enq.
    by rewrite delete_insert_eq. }
  rewrite !app_assoc. f_equiv. apply Permutation_app_comm.
Qed.

Lemma elem_buffered e p b : p ∈ queue e b → p ∈ buffered b.
Proof. intros Hp. rewrite (buffered_split e). apply elem_of_app. by left. Qed.

Lemma elem_buffered_inv p b : p ∈ buffered b → ∃ e, p ∈ queue e b.
Proof.
  unfold buffered. rewrite list_elem_of_In. intros (l & Hl & Hp)%List.in_concat.
  apply list_elem_of_In in Hl, Hp. apply list_elem_of_fmap in Hl as ([e l'] & -> & Hl). apply elem_of_map_to_list in Hl.
  exists e. unfold queue. by rewrite Hl.
Qed.

(** Filing each pointer under an epoch of its own. *)
Definition enq_by (f : txn_ptr → N) (l : list txn_ptr) (b : gmap N (list txn_ptr))
    : gmap N (list txn_ptr) := foldl (λ b p, enq (f p) p b) b l.

Lemma queue_enq e p e' b :
  queue e' (enq e p b) = if decide (e = e') then queue e b ++ [p] else queue e' b.
Proof. apply (queue_enq_all e [p]). Qed.

Lemma buffered_enq e p b : buffered (enq e p b) ≡ₚ p :: buffered b.
Proof. exact (buffered_enq_all e [p] b). Qed.

Lemma queue_enq_by f l e b :
  queue e (enq_by f l b) = queue e b ++ filter (λ p, f p = e) l.
Proof.
  revert b. induction l as [|p l IH]; intros b; simpl; [by rewrite app_nil_r|].
  rewrite IH, queue_enq, filter_cons. destruct (decide (f p = e)) as [<-|]; [|done].
  by rewrite <-app_assoc.
Qed.

Lemma buffered_enq_by f l b : buffered (enq_by f l b) ≡ₚ l ++ buffered b.
Proof.
  revert b. induction l as [|p l IH]; intros b; simpl; [done|].
  rewrite IH, (buffered_enq_all (f p) [p] b). simpl. by rewrite <-Permutation_middle.
Qed.

(** ** Filters that keep everything or nothing *)
Section Filters.
Context {A : Type} (P : A → Prop) `{∀ x, Decision (P x)}.

Lemma filter_keeps_all (l : list A) : (∀ x, x ∈ l → P x) → filter P l = l.
Proof.
  induction l as [|x l IH]; intros Hl; [done|]. rewrite filter_cons_True by (apply Hl; by left).
  f_equal. apply IH. intros y Hy. apply Hl. by right.
Qed.

Lemma filter_keeps_none (l : list A) : (∀ x, x ∈ l → ¬ P x) → filter P l = [].
Proof.
  induction l as [|x l IH]; intros Hl; [done|]. rewrite filter_cons_False by (apply Hl; by left).
  apply IH. intros y Hy. apply Hl. by right.
Qed.

End Filters.

(** *** Clearing one epoch
    Queues are filed under an epoch their members [f] have reached; those of
    epoch [e] that have moved on are filed again, then its queue is dropped. *)
Section Refile.
Context (f : txn_ptr → N) (e : N) (m : gmap N (list txn_ptr)).
Context (Hfiled : ∀ k p, p ∈ queue k m → e ≤ k ≤ f p).

Definition refile : gmap N (list txn_ptr) :=
  delete e (enq_by f (filter (λ p, f p ≠ e) (queue e m)) m).

Lemma refile_due p : p ∈ buffered m → f p = e → p ∈ queue e m.
Proof.
  intros (k & Hk)%elem_buffered_inv He. destruct (decide (k = e)) as [->|]; [done|].
  specialize (Hfiled k p Hk). lia.
Qed.

Lemma refile_buffered : buffered refile ≡ₚ filter (λ p, f p ≠ e) (buffered m).
Proof.
  unfold refile. set (moved := filter _ (queue e m)). set (m' := enq_by f moved m).
  assert (queue e m' = queue e m) as Hq.
  { unfold m'. rewrite queue_enq_by, (filter_keeps_none _ moved); [by rewrite app_nil_r|].
    by intros p [? _]%list_elem_of_filter. }
  apply (Permutation_app_inv_l (queue e m)). rewrite <-Hq at 1. rewrite <-(buffered_split e m'). unfold m'.
  rewrite buffered_enq_by, (buffered_split e m), filter_app. fold moved.
  rewrite (filter_keeps_all _ (buffered (delete e m))).
  - rewrite !app_assoc. by rewrite (Permutation_app_comm moved (queue e m)).
  - intros p (k & Hk)%elem_buffered_inv. rewrite queue_delete in Hk.
    destruct (decide (e = k)); [by apply not_elem_of_nil in Hk|]. specialize (Hfiled k p Hk). lia.
Qed.

Lemma refile_filed k p : p ∈ queue k refile → e + 1 ≤ k ≤ f p.
Proof.
  unfold refile. rewrite queue_delete. destruct (decide (e = k)); [by intros ?%not_elem_of_nil|].
  rewrite queue_enq_by, elem_of_app, list_elem_of_filter, list_elem_of_filter.
  intros [Hp|(<- & _ & Hp)]; specialize (Hfiled _ p Hp); lia.
Qed.

End Refile.
