(* ===== verification/CommController.v ===== *)
(** * The communication controller

    [comm_controller.cpp]: the client proxies push transactions into one queue;
    [getTransaction] hands the transaction manager those of one epoch in
    batches, and the recycler frees them when their block is stored.

    The queue is the list of what will be pushed, in order; [transferTransaction]
    takes as much of it as has arrived, which is an argument ([arrived]), and
    blocks when it needs a transaction and the list is empty. *)
From S2P Require Import Prelude EpochQueues Transaction Database.
From Stdlib Require Import NArith Lia.
From stdpp Require Import base list gmap sorting.

Local Open Scope N_scope.

Record CommController := mkComm {
  cc_heap : txn_heap;
  broadcastTransactions : list txn_ptr;
  processedTransaction : list txn_ptr;
  (** The static of [transferTransaction]. *)
  transferEpoch : N;
  addingTxQueue : list txn_ptr;
  transactionMap : gmap N (list txn_ptr) }.

(** A call returns, stops the process, or waits for a transaction for ever. *)
Inductive call (A : Type) := Returns (o : outcome A) | Blocks.
Arguments Returns {A} _. Arguments Blocks {A}.

#[global] Instance call_bind : MBind call := λ A B f m,
  match m with
  | Returns (Ok a) => f a
  | Returns (Fatal e) => Returns (Fatal e)
  | Blocks => Blocks
  end.
Definition lift {A} (o : outcome A) : call A := Returns o.

Section Comm.
Context (debug : bool).

Definition epoch_of (p : txn_ptr) (c : CommController) : outcome N :=
  t ← deref (cc_heap c !! p); Ok (tr_epoch t).

(** One pop, the check against the static and the push. *)
Definition transfer_one (p : txn_ptr) (c : CommController) : outcome CommController :=
  e ← epoch_of p c;
  let cur := if transferEpoch c <? e then e else transferEpoch c in
  CHECK (e =? cur);;
  Ok (mkComm (cc_heap c) (tail (broadcastTransactions c)) (processedTransaction c ++ [p]) cur
        (addingTxQueue c) (transactionMap c)).

(** [arrived] transactions are there; at least one is waited for when the
    processed queue is empty. *)
Definition transferTransaction (arrived : nat) (c : CommController) : call CommController :=
  let n := if bool_decide (processedTransaction c = []) then Nat.max 1 arrived else arrived in
  if bool_decide (processedTransaction c = []) && bool_decide (broadcastTransactions c = [])
  then Blocks
  else lift (foldM transfer_one (take n (broadcastTransactions c)) c).

(** The loop of [getTransaction]; [room] is [maxSize] less the batch, [arrivals]
    what each transfer finds. *)
Fixpoint get_loop (room : nat) (arrivals : list nat) (epoch : N) (minSize : nat)
    (trWrapper : list txn_ptr) (c : CommController) : call (list txn_ptr * CommController) :=
  match room with
  | O => Returns (Ok (trWrapper, c))
  | S room =>
      match processedTransaction c with
      | [] => Returns (Fatal NullDeref)
      | p :: ps =>
          e ← lift (epoch_of p c);
          if negb (e =? epoch) then Returns (Ok (trWrapper, c))
          else
            let c := mkComm (cc_heap c) (broadcastTransactions c) ps (transferEpoch c)
                       (addingTxQueue c ++ [p]) (transactionMap c) in
            let trWrapper := trWrapper ++ [p] in
            match ps with
            | [] =>
                if (minSize <? length trWrapper)%nat then Returns (Ok (trWrapper, c))
                else
                  c ← transferTransaction (hd O arrivals) c;
                  get_loop room (tail arrivals) epoch minSize trWrapper c
            | _ => get_loop room arrivals epoch minSize trWrapper c
            end
      end
  end.

(** [None] is the null pointer: the epoch is complete. *)
Definition getTransaction (epoch : N) (maxSize minSize : nat) (arrivals : list nat)
    (c : CommController) : call (option (list txn_ptr) * CommController) :=
  c ← (match processedTransaction c with
       | [] => transferTransaction (hd O arrivals) c
       | _ => Returns (Ok c)
       end);
  let arrivals := tail arrivals in
  match processedTransaction c with
  | [] => Returns (Fatal NullDeref)
  | p :: _ =>
      e ← lift (epoch_of p c);
      if negb (e =? epoch) then
        lift (DCHECK debug ((e =? epoch + 1) || (e =? epoch + 2));; Ok (None, c))
      else
        r ← get_loop maxSize arrivals epoch minSize [] c;
        Returns (Ok (Some r.1, r.2))
  end.

(** ** The recycler *)
Definition file_one (p : txn_ptr) (c : CommController) : outcome CommController :=
  e ← epoch_of p c;
  Ok (mkComm (cc_heap c) (broadcastTransactions c) (processedTransaction c) (transferEpoch c)
        (addingTxQueue c) (enq e p (transactionMap c))).

(** The body of the second loop: [delete], or file under the epoch it moved to. *)
Definition recycle_one (epoch : N) (p : txn_ptr) (c : CommController) : outcome CommController :=
  e ← epoch_of p c;
  if e =? epoch then
    Ok (mkComm (delete p (cc_heap c)) (broadcastTransactions c) (processedTransaction c)
          (transferEpoch c) (addingTxQueue c) (transactionMap c))
  else file_one p c.

Definition clearTransactionForEpoch (epoch : N) (c : CommController) : outcome CommController :=
  c ← foldM file_one (addingTxQueue c)
        (mkComm (cc_heap c) (broadcastTransactions c) (processedTransaction c) (transferEpoch c) []
           (transactionMap c));
  c ← foldM (recycle_one epoch) (queue epoch (transactionMap c)) c;
  Ok (mkComm (cc_heap c) (broadcastTransactions c) (processedTransaction c) (transferEpoch c)
        (addingTxQueue c) (delete epoch (transactionMap c))).

(** ** Draining an epoch

    The inner loop of [TransactionManagerImpl::run]: batches until the null
    pointer; [fuel] bounds the number of calls. *)
Fixpoint drain (fuel : nat) (epoch : N) (maxSize minSize : nat) (arrivals : nat → list nat)
    (c : CommController) : call (list (list txn_ptr) * CommController) :=
  match fuel with
  | O => Blocks
  | S fuel =>
      r ← getTransaction epoch maxSize minSize (arrivals fuel) c;
      match r with
      | (None, c) => Returns (Ok ([], c))
      | (Some b, c) =>
          rs ← drain fuel epoch maxSize minSize arrivals c;
          Returns (Ok (b :: rs.1, rs.2))
      end
  end.

End Comm.

(** ** Batches *)
Section Batches.
Context (debug : bool).

Definition ep (h : txn_heap) (p : txn_ptr) : N := from_option tr_epoch 0 (h !! p).

(** What is still to be handed out, in order. *)
Definition rest (c : CommController) : list txn_ptr :=
  processedTransaction c ++ broadcastTransactions c.

(** The proxies push live transactions in order of their epochs. *)
Record comm_ok (c : CommController) : Prop := {
  cm_alive p : p ∈ rest c → is_Some (cc_heap c !! p);
  cm_sorted : StronglySorted (λ p q, ep (cc_heap c) p ≤ ep (cc_heap c) q) (rest c);
  cm_static p : p ∈ broadcastTransactions c → transferEpoch c ≤ ep (cc_heap c) p }.

Lemma epoch_of_ep p c : is_Some (cc_heap c !! p) → epoch_of p c = Ok (ep (cc_heap c) p).
Proof. intros [t Ht]. unfold epoch_of, ep. by rewrite Ht. Qed.

Lemma transfer_one_ok p c b :
  comm_ok c → broadcastTransactions c = p :: b →
  transfer_one p c =
    Ok (mkComm (cc_heap c) b (processedTransaction c ++ [p]) (ep (cc_heap c) p) (addingTxQueue c)
          (transactionMap c)) ∧
  comm_ok (mkComm (cc_heap c) b (processedTransaction c ++ [p]) (ep (cc_heap c) p) (addingTxQueue c)
          (transactionMap c)).
Proof.
  intros [] Eb. assert (p ∈ broadcastTransactions c) as Hp by (rewrite Eb; by left).
  assert (p ∈ rest c) as Hr by (apply elem_of_app; by right). split.
  - unfold transfer_one. rewrite epoch_of_ep by auto. cbn [mbind outcome_bind].
    specialize (cm_static0 p Hp). rewrite Eb.
    assert ((if transferEpoch c <? ep (cc_heap c) p then ep (cc_heap c) p else transferEpoch c) =
      ep (cc_heap c) p) as -> by (destruct (N.ltb_spec (transferEpoch c) (ep (cc_heap c) p)); lia).
    by rewrite N.eqb_refl.
  - assert (∀ c', rest c' = rest c → cc_heap c' = cc_heap c →
      StronglySorted (λ p q, ep (cc_heap c') p ≤ ep (cc_heap c') q) (rest c')) as Hs
      by (intros c' -> ->; done).
    unfold rest in *. rewrite Eb in *. split; unfold rest; simpl.
    + intros q. rewrite <-app_assoc. apply cm_alive0.
    + by rewrite <-app_assoc.
    + intros q Hq. apply StronglySorted_app in cm_sorted0 as (_ & _ & Hsb).
      inversion Hsb as [|? ? _ Hall]; subst. rewrite Forall_forall in Hall. by apply Hall.
Qed.

Lemma transfer_ok l c b :
  comm_ok c → broadcastTransactions c = l ++ b →
  ∃ c', foldM transfer_one l c = Ok c' ∧ comm_ok c' ∧ cc_heap c' = cc_heap c ∧
    processedTransaction c' = processedTransaction c ++ l ∧ broadcastTransactions c' = b ∧
    addingTxQueue c' = addingTxQueue c ∧ transactionMap c' = transactionMap c.
Proof.
  revert c. induction l as [|p l IH]; intros c Hc Eb.
  { exists c. by rewrite app_nil_r. }
  destruct (transfer_one_ok p c (l ++ b) Hc Eb) as [E1 Hc1].
  destruct (IH _ Hc1 eq_refl) as (c' & E & Hok & Hh & Hp & Hb & Ha & Hm).
  exists c'. cbn [foldM]. rewrite E1. cbn [mbind outcome_bind]. simpl in *.
  rewrite <-app_assoc in Hp. by split_and!.
Qed.

(** A transfer that has something to take keeps what is left to hand out. *)
Lemma transferTransaction_ok n c :
  comm_ok c → rest c ≠ [] →
  ∃ c', transferTransaction n c = Returns (Ok c') ∧ comm_ok c' ∧ cc_heap c' = cc_heap c ∧
    rest c' = rest c ∧ processedTransaction c' ≠ [] ∧
    addingTxQueue c' = addingTxQueue c ∧ transactionMap c' = transactionMap c.
Proof.
  intros Hc Hne. unfold transferTransaction.
  set (k := if bool_decide (processedTransaction c = []) then Nat.max 1 n else n).
  destruct (transfer_ok (take k (broadcastTransactions c)) c (drop k (broadcastTransactions c)) Hc)
    as (c' & E & Hok & Hh & Hp & Hb & Ha & Hm); [by rewrite take_drop|].
  assert (rest c' = rest c) as Hr.
  { unfold rest. by rewrite Hp, Hb, <-app_assoc, take_drop. }
  exists c'. rewrite E. unfold rest in Hne.
  destruct (processedTransaction c) as [|q ps] eqn:Ep.
  - destruct (broadcastTransactions c) as [|p b] eqn:Eb; [done|].
    rewrite (bool_decide_eq_false_2 (p :: b = [])), andb_false_r by done. split_and!; try done.
    rewrite Hp. unfold k. rewrite bool_decide_eq_true_2 by done.
    by destruct n; simpl.
  - rewrite bool_decide_eq_false_2 by done. split_and!; try done. by rewrite Hp.
Qed.

Lemma get_loop_ok room arrivals e minSize w c E L :
  comm_ok c → processedTransaction c ≠ [] → rest c = E ++ L → L ≠ [] →
  Forall (λ p, ep (cc_heap c) p = e) E → Forall (λ p, ep (cc_heap c) p ≠ e) L →
  ∃ b E' c', get_loop room arrivals e minSize w c = Returns (Ok (w ++ b, c')) ∧
    E = b ++ E' ∧ comm_ok c' ∧ cc_heap c' = cc_heap c ∧ rest c' = E' ++ L ∧
    addingTxQueue c' = addingTxQueue c ++ b ∧ transactionMap c' = transactionMap c ∧
    (length b ≤ room)%nat ∧ (room ≠ O → E ≠ [] → b ≠ []).
Proof.
  revert arrivals w c E. induction room as [|room IH]; intros arrivals w c E Hc Hp Hr HL HE HneL.
  { exists [], E, c. simpl. by rewrite !app_nil_r. }
  destruct (processedTransaction c) as [|p ps] eqn:Ep; [done|]. clear Hp.
  assert (p ∈ rest c) as Hin by (unfold rest; rewrite Ep; by left).
  cbn [get_loop]. rewrite Ep, (epoch_of_ep p c (cm_alive c Hc p Hin)). cbn [lift mbind call_bind].
  destruct E as [|p' E].
  { assert (p ∈ L) as HpL by (rewrite Hr in Hin; done).
    rewrite Forall_forall in HneL. specialize (HneL p HpL).
    rewrite (proj2 (N.eqb_neq _ _) HneL). exists [], [], c. cbn [negb].
    rewrite !app_nil_r. split_and!; done || simpl; lia. }
  assert (p' = p ∧ ps ++ broadcastTransactions c = E ++ L) as [-> Hrest].
  { unfold rest in Hr. rewrite Ep in Hr. by injection Hr. }
  apply Forall_cons in HE as [Hep HE]. rewrite (proj2 (N.eqb_eq _ _) Hep). cbn [negb].
  set (c1 := mkComm _ _ ps _ _ _).
  assert (comm_ok c1) as Hc1.
  { destruct Hc. unfold rest in *. rewrite Ep in *. split; unfold rest; simpl.
    - intros q Hq. apply cm_alive0. by right.
    - by inversion cm_sorted0.
    - done. }
  assert (∀ c2, comm_ok c2 → processedTransaction c2 ≠ [] → rest c2 = E ++ L → cc_heap c2 = cc_heap c →
    addingTxQueue c2 = addingTxQueue c ++ [p] → transactionMap c2 = transactionMap c → ∀ arr,
    ∃ b E' c', get_loop room arr e minSize (w ++ [p]) c2 = Returns (Ok (w ++ b, c')) ∧
      p :: E = b ++ E' ∧ comm_ok c' ∧ cc_heap c' = cc_heap c ∧ rest c' = E' ++ L ∧
      addingTxQueue c' = addingTxQueue c ++ b ∧ transactionMap c' = transactionMap c ∧
      (length b ≤ S room)%nat ∧ (S room ≠ O → p :: E ≠ [] → b ≠ [])) as Hgo.
  { intros c2 H2 Hp2 Hr2 Hh2 Ha2 Hm2 arr.
    destruct (IH arr (w ++ [p]) c2 E H2 Hp2 Hr2 HL) as (b & E' & c' & Eg & -> & Hok & Hh & Hrc & Ha & Hm & Hlen & _);
      [by rewrite Hh2|by rewrite Hh2|].
    exists (p :: b), E', c'. rewrite Eg, <-app_assoc. split_and!; try done.
    - by rewrite Hh.
    - by rewrite Ha, Ha2, <-app_assoc.
    - by rewrite Hm.
    - simpl. lia. }
  destruct ps as [|q ps']; [|by apply Hgo].
  destruct (minSize <? _)%nat.
  { exists [p], E, c1. split_and!; try done. simpl. lia. }
  destruct (transferTransaction_ok (hd O arrivals) c1 Hc1) as (c2 & -> & H2 & Hh2 & Hr2 & Hp2 & Ha2 & Hm2).
  { unfold rest. simpl in *. rewrite Hrest. by destruct E. }
  cbn [mbind call_bind]. apply Hgo; try done. by rewrite Hr2.
Qed.

Lemma getTransaction_ok e maxSize minSize arrivals c E L :
  comm_ok c → rest c = E ++ L → L ≠ [] →
  Forall (λ p, ep (cc_heap c) p = e) E → Forall (λ p, ep (cc_heap c) p ≠ e) L →
  (debug = true → Forall (λ p, ep (cc_heap c) p ≤ e + 2) (take 1 L)) →
  Forall (λ p, e ≤ ep (cc_heap c) p) L → maxSize ≠ O →
  ∃ r c', getTransaction debug e maxSize minSize arrivals c = Returns (Ok (r, c')) ∧ comm_ok c' ∧
    cc_heap c' = cc_heap c ∧ transactionMap c' = transactionMap c ∧
    match r with
    | None => E = [] ∧ rest c' = L ∧ addingTxQueue c' = addingTxQueue c
    | Some b => b ≠ [] ∧ (length b ≤ maxSize)%nat ∧ addingTxQueue c' = addingTxQueue c ++ b ∧
        ∃ E', E = b ++ E' ∧ rest c' = E' ++ L
    end.
Proof.
  intros Hc Hr HL HE HneL Hgap Hge Hmax. unfold getTransaction.
  assert (∃ c1, (match processedTransaction c with
                 | [] => transferTransaction (hd O arrivals) c | _ => Returns (Ok c) end) = Returns (Ok c1) ∧
    comm_ok c1 ∧ cc_heap c1 = cc_heap c ∧ rest c1 = rest c ∧ processedTransaction c1 ≠ [] ∧
    addingTxQueue c1 = addingTxQueue c ∧ transactionMap c1 = transactionMap c)
    as (c1 & -> & Hc1 & Hh1 & Hr1 & Hp1 & Ha1 & Hm1).
  { destruct (processedTransaction c) as [|q qs] eqn:Ep; [|exists c; by rewrite Ep].
    apply transferTransaction_ok; [done|]. rewrite Hr. by destruct E. }
  cbn [mbind call_bind]. destruct (processedTransaction c1) as [|p ps] eqn:Ep; [done|].
  assert (rest c1 = p :: (ps ++ broadcastTransactions c1)) as Erest by (unfold rest; by rewrite Ep).
  rewrite (epoch_of_ep p c1) by (apply (cm_alive c1 Hc1); rewrite Erest; by left).
  cbn [lift mbind call_bind]. rewrite Hh1. rewrite Hr1, Hr in Erest. destruct E as [|p' E].
  - destruct L as [|p' L]; [done|]. injection Erest as -> EL. apply Forall_cons in HneL as [Hne _].
    rewrite (proj2 (N.eqb_neq _ _) Hne). cbn [negb]. apply Forall_cons in Hge as [Hge _].
    exists None, c1. split_and!; try done; [|by rewrite Hr1].
    destruct debug; [|done]. specialize (Hgap eq_refl). apply Forall_cons in Hgap as [Hgap _].
    assert ((ep (cc_heap c) p =? e + 1) || (ep (cc_heap c) p =? e + 2) = true) as Hd.
    { apply orb_true_iff. rewrite !N.eqb_eq. lia. }
    unfold lift. cbn [DCHECK]. by rewrite Hd.
  - injection Erest as -> EL. pose proof (proj1 (proj1 (Forall_cons _ _ _) HE)) as Hep.
    simpl in Hep. rewrite (proj2 (N.eqb_eq _ _) Hep). cbn [negb].
    destruct (get_loop_ok maxSize (tail arrivals) e minSize [] c1 (p :: E) L) as
      (b & E' & c' & Eg & EE & Hok & Hh & Hrc & Ha & Hm & Hlen & Hb);
      [done|by rewrite Ep|by rewrite Hr1|done|by rewrite Hh1|by rewrite Hh1|].
    rewrite Eg. exists (Some b), c'. cbn [mbind call_bind app fst snd]. split_and!; try done.
    + by rewrite Hh.
    + by rewrite Hm.
    + by apply Hb.
    + by rewrite Ha, Ha1.
    + by exists E'.
Qed.

(** C29: [getTransaction] hands out an epoch completely and in order.  Let the
    proxies have pushed, in order of epochs, the transactions [E] of epoch [e]
    and something later, in whatever portions the transfers find it.  Then no
    check fails and no call blocks; the calls until the null pointer return
    non-empty batches of at most [maxSize] whose concatenation is [E], at most
    one call per transaction and one more are made, every transaction is put on
    record for the recycler, and the later transactions are still there. *)
Theorem comm_epoch_complete e maxSize minSize arrivals c E L fuel :
  comm_ok c → rest c = E ++ L → L ≠ [] →
  Forall (λ p, ep (cc_heap c) p = e) E → Forall (λ p, e < ep (cc_heap c) p) L →
  (debug = true → Forall (λ p, ep (cc_heap c) p ≤ e + 2) (take 1 L)) → maxSize ≠ O →
  (length E < fuel)%nat →
  ∃ batches c', drain debug fuel e maxSize minSize arrivals c = Returns (Ok (batches, c')) ∧
    concat batches = E ∧ Forall (λ b, b ≠ [] ∧ (length b ≤ maxSize)%nat) batches ∧
    rest c' = L ∧ addingTxQueue c' = addingTxQueue c ++ E ∧ comm_ok c'.
Proof.
  intros Hc Hr HL HE HltL Hgap Hmax. revert c E Hc Hr HE HltL Hgap.
  induction fuel as [|fuel IH]; intros c E Hc Hr HE HltL Hgap Hfuel; [lia|]. cbn [drain].
  destruct (getTransaction_ok e maxSize minSize (arrivals fuel) c E L) as (r & c1 & -> & Hc1 & Hh1 & Hm1 & Hres);
    try done.
  { eapply Forall_impl; [exact HltL|]. simpl. lia. }
  { eapply Forall_impl; [exact HltL|]. simpl. lia. }
  cbn [mbind call_bind]. destruct r as [b|].
  - destruct Hres as (Hb & Hlen & Ha & E' & -> & Hr1). apply Forall_app in HE as [_ HE'].
    destruct (IH c1 E') as (bs & c2 & -> & <- & Hbs & Hr2 & Ha2 & Hc2); try done.
    + by rewrite Hh1.
    + by rewrite Hh1.
    + by rewrite Hh1.
    + rewrite length_app in Hfuel. destruct b; [done|]. simpl in Hfuel. lia.
    + cbn [mbind call_bind fst snd]. exists (b :: bs), c2. split_and!; try done.
      * by constructor.
      * by rewrite Ha2, Ha, <-app_assoc.
  - destruct Hres as (-> & Hr1 & Ha). exists [], c1. rewrite app_nil_r. by split_and!.
Qed.

End Batches.

(** ** Recycling *)
Section Recycling.
Implicit Types (c : CommController).

Definition on_record c : list txn_ptr := addingTxQueue c ++ buffered (transactionMap c).

(** Before epoch [e] is cleared: the recorded transactions are live and distinct
    and filed under an epoch they have reached, none before [e]. *)
Record recycler_ok (e : N) c : Prop := {
  rc_nodup : NoDup (on_record c);
  rc_alive p : p ∈ on_record c → is_Some (cc_heap c !! p);
  rc_adding p : p ∈ addingTxQueue c → e ≤ ep (cc_heap c) p;
  rc_filed k p : p ∈ queue k (transactionMap c) → e ≤ k ≤ ep (cc_heap c) p }.

Lemma file_one_at p c e :
  epoch_of p c = Ok e →
  file_one p c =
  Ok (mkComm (cc_heap c) (broadcastTransactions c) (processedTransaction c) (transferEpoch c)
        (addingTxQueue c) (enq e p (transactionMap c))).
Proof. unfold file_one. by intros ->. Qed.

Lemma recycle_one_at epoch p c e :
  epoch_of p c = Ok e →
  recycle_one epoch p c =
  if e =? epoch then
    Ok (mkComm (delete p (cc_heap c)) (broadcastTransactions c) (processedTransaction c)
          (transferEpoch c) (addingTxQueue c) (transactionMap c))
  else file_one p c.
Proof. unfold recycle_one. by intros ->. Qed.

Lemma file_all l c :
  (∀ p, p ∈ l → is_Some (cc_heap c !! p)) →
  foldM file_one l c =
  Ok (mkComm (cc_heap c) (broadcastTransactions c) (processedTransaction c) (transferEpoch c)
        (addingTxQueue c) (enq_by (ep (cc_heap c)) l (transactionMap c))).
Proof.
  revert c. induction l as [|p l IH]; intros c Hl; [by destruct c|]. cbn [foldM].
  rewrite (file_one_at p c _ (epoch_of_ep p c (Hl p ltac:(by left)))). cbn [mbind outcome_bind].
  rewrite IH; [done|]. intros q Hq. apply Hl. by right.
Qed.

Definition delete_all (l : list txn_ptr) (h : txn_heap) : txn_heap := foldl (λ h p, delete p h) h l.

Lemma delete_all_lookup l h p :
  delete_all l h !! p = if decide (p ∈ l) then None else h !! p.
Proof.
  revert h. induction l as [|q l IH]; intros h; simpl; [done|]. rewrite IH.
  destruct (decide (p = q)) as [->|Hne].
  - rewrite lookup_delete_eq. destruct (decide (q ∈ l)); by rewrite decide_True by (by left).
  - rewrite lookup_delete_ne by done. destruct (decide (p ∈ l)) as [Hin|Hin].
    + by rewrite decide_True by (by right).
    + rewrite decide_False; [done|]. by intros [->|?]%elem_of_cons.
Qed.

Lemma recycle_all (h : txn_heap) e l c :
  NoDup l → (∀ p, p ∈ l → cc_heap c !! p = h !! p ∧ is_Some (h !! p)) →
  foldM (recycle_one e) l c =
  Ok (mkComm (delete_all (filter (λ p, ep h p = e) l) (cc_heap c)) (broadcastTransactions c)
        (processedTransaction c) (transferEpoch c) (addingTxQueue c)
        (enq_by (ep h) (filter (λ p, ep h p ≠ e) l) (transactionMap c))).
Proof.
  revert c. induction l as [|p l IH]; intros c Hnd Hl; [by destruct c|].
  apply NoDup_cons in Hnd as [Hp Hnd]. destruct (Hl p) as [Eh Hsome]; [by left|]. cbn [foldM].
  assert (epoch_of p c = Ok (ep h p)) as Ee.
  { rewrite epoch_of_ep by (by rewrite Eh). unfold ep. by rewrite Eh. }
  assert (∀ q, q ∈ l → cc_heap c !! q = h !! q ∧ is_Some (h !! q)) as Hl'.
  { intros q Hq. apply Hl. by right. }
  rewrite (recycle_one_at e p c _ Ee), !filter_cons.
  destruct (N.eqb_spec (ep h p) e) as [He|He].
  - rewrite decide_True by done. rewrite (decide_False (P := ep h p ≠ e)) by tauto.
    cbn [mbind outcome_bind]. rewrite IH; [done|done|]. intros q Hq. simpl. rewrite lookup_delete_ne by (by intros ->).
    by apply Hl'.
  - rewrite decide_False by done. rewrite (decide_True (P := ep h p ≠ e)) by done.
    rewrite (file_one_at p c _ Ee). cbn [mbind outcome_bind]. by rewrite IH.
Qed.

Lemma ep_lookup (h h' : txn_heap) p : h !! p = h' !! p → ep h p = ep h' p.
Proof. unfold ep. by intros ->. Qed.

Ltac unfold_comm :=
  cbn [mbind outcome_bind cc_heap broadcastTransactions processedTransaction transferEpoch addingTxQueue
       transactionMap].

(** the recycler frees what is due and nothing else.  Clearing the epochs in
    order, [clearTransactionForEpoch e] never touches freed memory; it deletes
    exactly the recorded transactions whose epoch is [e], keeps every other one
    on record under the epoch it has moved to (an aborted transaction that is
    reused), and leaves the state in which epoch [e + 1] can be cleared.  So
    every transaction is freed once. *)
Theorem recycler_exact e c :
  recycler_ok e c →
  ∃ c', clearTransactionForEpoch e c = Ok c' ∧
    (∀ p, cc_heap c' !! p =
       if decide (p ∈ on_record c ∧ ep (cc_heap c) p = e) then None else cc_heap c !! p) ∧
    on_record c' ≡ₚ filter (λ p, ep (cc_heap c) p ≠ e) (on_record c) ∧
    recycler_ok (e + 1) c'.
Proof.
  intros []. set (h := cc_heap c) in *. unfold clearTransactionForEpoch.
  rewrite file_all by (intros p Hp; apply rc_alive0, elem_of_app; by left). unfold_comm. fold h.
  set (m1 := enq_by (ep h) (addingTxQueue c) (transactionMap c)).
  assert (on_record c ≡ₚ buffered m1) as Hm1 by (unfold m1; by rewrite buffered_enq_by).
  assert (∀ k p, p ∈ queue k m1 → e ≤ k ≤ ep h p) as Hfiled.
  { intros k p. unfold m1. rewrite queue_enq_by, elem_of_app, list_elem_of_filter.
    intros [Hp|[<- Hp]]; [by apply rc_filed0|]. split; [by apply rc_adding0|done]. }
  assert (NoDup (queue e m1)) as Hndl.
  { rewrite Hm1, (buffered_split e m1) in rc_nodup0. by apply NoDup_app in rc_nodup0 as (? & _). }
  rewrite (recycle_all h e (queue e m1)) by
    (done || (intros p Hp; split; [done|]; apply rc_alive0; rewrite Hm1; by eapply elem_buffered)).
  unfold_comm. fold (refile (ep h) e m1). pose proof (refile_buffered (ep h) e m1 Hfiled) as Hrec.
  assert (∀ p, delete_all (filter (λ p, ep h p = e) (queue e m1)) h !! p =
    if decide (p ∈ on_record c ∧ ep h p = e) then None else h !! p) as Hheap.
  { intros p. rewrite delete_all_lookup. rewrite (decide_ext (p ∈ filter _ _) (p ∈ on_record c ∧ ep h p = e)); [done|].
    rewrite list_elem_of_filter, Hm1. split; intros [? ?]; split; try done.
    - by eapply elem_buffered.
    - by apply (refile_due (ep h) e m1). }
  rewrite <-Hm1 in Hrec. eexists. split; [done|]. unfold on_record at 2. cbn. split_and!; [exact Hheap|done|].
  assert (∀ p, p ∈ buffered (refile (ep h) e m1) → p ∈ on_record c ∧
    delete_all (filter (λ p, ep h p = e) (queue e m1)) h !! p = h !! p) as Hkeep.
  { intros p Hp. rewrite Hrec, list_elem_of_filter in Hp. rewrite Hheap, decide_False by tauto. tauto. }
  split; unfold on_record; cbn.
  - rewrite Hrec. by apply NoDup_filter.
  - intros p [Hp Ep]%Hkeep. rewrite Ep. by apply rc_alive0.
  - by intros p ?%not_elem_of_nil.
  - intros k p Hp. pose proof (elem_buffered k p _ Hp) as [_ Ep]%Hkeep.
    rewrite (ep_lookup _ _ _ Ep). by apply (refile_filed (ep h) e m1).
Qed.

End Recycling.

(** ** A run *)
Module CommRuns.

Definition txn_at (e : N) : Transaction := setEpoch e MockTransaction.
Definition demo_heap : txn_heap :=
  list_to_map [(1, txn_at 4); (2, txn_at 4); (3, txn_at 4); (4, txn_at 5)].
Definition demo : CommController := mkComm demo_heap [1; 2; 3; 4] [] 0 [] ∅.

Lemma demo_ok : comm_ok demo.
Proof.
  split.
  - intros p Hp. apply (bool_decide_eq_true_1 (is_Some (cc_heap demo !! p))).
    unfold rest in Hp. simpl in Hp. rewrite !elem_of_cons in Hp.
    destruct Hp as [->|[->|[->|[->|Hp]]]]; [reflexivity..|by apply not_elem_of_nil in Hp].
  - unfold rest. simpl. repeat constructor; vm_compute; discriminate.
  - intros p _. simpl. lia.
Qed.

Lemma comm_epoch_complete_witness :
  ∃ batches c', drain true 4 4 2 1 (λ _, [1%nat]) demo = Returns (Ok (batches, c')) ∧
    concat batches = [1; 2; 3] ∧ Forall (λ b, b ≠ [] ∧ (length b ≤ 2)%nat) batches ∧
    rest c' = [4] ∧ addingTxQueue c' = [1; 2; 3] ∧ comm_ok c'.
Proof.
  apply (comm_epoch_complete true 4 2 1 (λ _, [1%nat]) demo [1; 2; 3] [4] 4 demo_ok);
    [done|done|by repeat constructor|by repeat constructor| |done|simpl; lia].
  intros _. repeat constructor. vm_compute. discriminate.
Defined.

(** Transaction 2 was filed under epoch 4 and has moved to epoch 5. *)
Definition demo2 : CommController :=
  mkComm (<[2 := txn_at 5]> demo_heap) [] [] 5 [3] {[4 := [1; 2]]}.

Lemma demo2_ok : recycler_ok 4 demo2.
Proof.
  assert (buffered {[4 := [1; 2]]} = [1; 2]) as Eb by reflexivity.
  split; unfold on_record; simpl.
  - rewrite Eb. apply (bool_decide_eq_true_1 (NoDup [3; 1; 2])). reflexivity.
  - intros p. rewrite Eb. simpl. rewrite !elem_of_cons.
    intros [->|[->|[->|Hp]]]; [by vm_compute; eexists..|by apply not_elem_of_nil in Hp].
  - intros p ->%list_elem_of_singleton. vm_compute. discriminate.
  - intros k p. unfold queue. destruct (decide (k = 4)) as [->|Hne].
    + rewrite lookup_singleton_eq. simpl. rewrite !elem_of_cons. intros [->|[->|Hp]]; [by vm_compute; split; discriminate..|].
      by apply not_elem_of_nil in Hp.
    + rewrite lookup_singleton_ne by done. by intros ?%not_elem_of_nil.
Qed.

Lemma recycler_exact_witness :
  ∃ c', clearTransactionForEpoch 4 demo2 = Ok c' ∧
    (∀ p, cc_heap c' !! p =
       if decide (p ∈ on_record demo2 ∧ ep (cc_heap demo2) p = 4) then None else cc_heap demo2 !! p) ∧
    on_record c' ≡ₚ filter (λ p, ep (cc_heap demo2) p ≠ 4) (on_record demo2) ∧
    recycler_ok 5 c'.
Proof. exact (recycler_exact 4 demo2 demo2_ok). Defined.

End CommRuns.
