(* ===== verification/EpochBuffer.v ===== *)
(** * Barrier, queue manager and epoch buffers

    [cyclic_barrier.cpp], [epoch_txn_queue_manager.h] and
    [epoch_transaction_buffer.h].  Every client proxy (one per block server) has
    a producer, which pushes the transactions of its current epoch and then
    moves to the next, and a worker, which takes the finished epochs in order:
    it waits at the barrier for the other workers, hands the buffered
    transactions of the epoch to the communication controller and signals.  With
    early execution ([eager]) the producer hands transactions over itself as
    soon as every proxy is through with the epoch before.

    The threads are a step relation; a thread hands over one transaction per
    step.  The epoch of a transaction does not change while it is buffered, so
    it is a function of the pointer. *)
From S2P Require Import Prelude EpochQueues Database.
From Stdlib Require Import NArith Lia.
From stdpp Require Import base list gmap sorting.

Local Open Scope N_scope.

Inductive worker_pc :=
  | Idle
  | Waiting (e : N)   (** in [cv.wait] *)
  | Released (e : N). (** past the barrier *)

Record Proxy := mkPr {
  (** The epoch of the producer, and a transaction it is handing over. *)
  pr_epoch : N;
  pr_handing : option txn_ptr;
  buffer : gmap N (list txn_ptr);
  workload : list N;
  pr_worker : worker_pc }.

Record EpochBuffers := mkEB {
  proxies : list Proxy;
  globalProcessingEpoch : N;
  currentEpochPushedToQueueCnt : nat;
  current_waits : nat;
  (** Calls of [epochBroadcastTransactionsHandle], and everything pushed. *)
  handed : list txn_ptr;
  pushed : list txn_ptr }.

Section Buffers.
(** [_eagerSent]; [_blkSrvCnt], also the parties of the barrier. *)
Context (eager : bool) (blkSrvCnt : nat).
Context (getEpoch : txn_ptr → N).

Definition new_proxy_buffer (startWithEpoch : N) : Proxy := mkPr startWithEpoch None ∅ [] Idle.
Definition new_buffers (startWithEpoch : N) : EpochBuffers :=
  mkEB (replicate blkSrvCnt (new_proxy_buffer startWithEpoch)) startWithEpoch blkSrvCnt 0 [] [].

Definition set_worker (w : worker_pc) (p : Proxy) : Proxy :=
  mkPr (pr_epoch p) (pr_handing p) (buffer p) (workload p) w.
Definition set_pr (i : nat) (p : Proxy) (s : EpochBuffers) : EpochBuffers :=
  mkEB (<[i := p]> (proxies s)) (globalProcessingEpoch s) (currentEpochPushedToQueueCnt s)
    (current_waits s) (handed s) (pushed s).

(** ** The barrier *)

(** The callback the queue manager gives the barrier. *)
Definition barrier_callback (s : EpochBuffers) : EpochBuffers :=
  mkEB (proxies s) (globalProcessingEpoch s + 1) 0 (current_waits s) (handed s) (pushed s).

(** [cv.notify_all]. *)
Definition wake (p : Proxy) : Proxy :=
  match pr_worker p with Waiting e => set_worker (Released e) p | _ => p end.
Definition notify_all (s : EpochBuffers) : EpochBuffers :=
  mkEB (wake <$> proxies s) (globalProcessingEpoch s) (currentEpochPushedToQueueCnt s)
    (current_waits s) (handed s) (pushed s).
Definition set_waits (n : nat) (s : EpochBuffers) : EpochBuffers :=
  mkEB (proxies s) (globalProcessingEpoch s) (currentEpochPushedToQueueCnt s) n (handed s) (pushed s).

(** [await] by the worker of proxy [i] in its task for epoch [e]. *)
Definition await (i : nat) (p : Proxy) (e : N) (s : EpochBuffers) : EpochBuffers :=
  let n := if (current_waits s <? blkSrvCnt)%nat then S (current_waits s) else current_waits s in
  if (blkSrvCnt <=? n)%nat
  then set_pr i (set_worker (Released e) p) (notify_all (set_waits 0 (barrier_callback s)))
  else set_pr i (set_worker (Waiting e) p) (set_waits n s).

(** ** The queue manager *)
Definition signalFinishedPushToQueue (s : EpochBuffers) : EpochBuffers :=
  mkEB (proxies s) (globalProcessingEpoch s) (S (currentEpochPushedToQueueCnt s)) (current_waits s)
    (handed s) (pushed s).

Definition isAllCPPushedToQueue (waitingEpoch : N) (s : EpochBuffers) : outcome bool :=
  let finishedLatestEpoch := globalProcessingEpoch s in
  if finishedLatestEpoch <? waitingEpoch then Ok false
  else
    CHECK (waitingEpoch =? finishedLatestEpoch);;
    if (currentEpochPushedToQueueCnt s <? blkSrvCnt)%nat then Ok false else Ok true.

(** ** The buffers *)
Definition hand_over (t : txn_ptr) (s : EpochBuffers) : EpochBuffers :=
  mkEB (proxies s) (globalProcessingEpoch s) (currentEpochPushedToQueueCnt s) (current_waits s)
    (handed s ++ [t]) (pushed s).

(** One round of the loop of [syncEmptyBuffer]; [None] when the queue is empty.
    The vector of queues has [MAX_EPOCH] elements and is not checked. *)
Definition empty_one (i : nat) (p : Proxy) (e : N) (s : EpochBuffers)
    : option (outcome EpochBuffers) :=
  match in_range e with
  | Fatal f => Some (Fatal f)
  | Ok _ =>
      match queue e (buffer p) with
      | [] => None
      | t :: ts => Some (
          CHECK (getEpoch t =? e);;
          Ok (set_pr i (mkPr (pr_epoch p) (pr_handing p) (<[e := ts]> (buffer p)) (workload p) (pr_worker p))
                (hand_over t s)))
      end
  end.

(** [pushTransactionToBuffer] up to the first hand-over. *)
Definition pushTransactionToBuffer (i : nat) (p : Proxy) (t : txn_ptr) (s : EpochBuffers)
    : outcome EpochBuffers :=
  let s := mkEB (proxies s) (globalProcessingEpoch s) (currentEpochPushedToQueueCnt s)
             (current_waits s) (handed s) (pushed s ++ [t]) in
  let txEpoch := getEpoch t in
  let buffered := set_pr i (mkPr (pr_epoch p) (pr_handing p) (enq txEpoch t (buffer p)) (workload p)
                              (pr_worker p)) s in
  if eager then
    all ← isAllCPPushedToQueue txEpoch s;
    in_range txEpoch;;
    if all : bool
    then Ok (set_pr i (mkPr (pr_epoch p) (Some t) (buffer p) (workload p) (pr_worker p)) s)
    else Ok buffered
  else in_range txEpoch;; Ok buffered.

(** The producer is done with its epoch: [asyncEmptyBuffer(epoch++)]. *)
Definition asyncEmptyBuffer (i : nat) (p : Proxy) (s : EpochBuffers) : EpochBuffers :=
  set_pr i (mkPr (pr_epoch p + 1) (pr_handing p) (buffer p) (workload p ++ [pr_epoch p]) (pr_worker p)) s.

(** ** The threads *)
Inductive eb_step (s : EpochBuffers) : EpochBuffers → Prop :=
  | st_push i p t s' :
      proxies s !! i = Some p → pr_handing p = None → getEpoch t = pr_epoch p → t ∉ pushed s →
      pushTransactionToBuffer i p t s = Ok s' → eb_step s s'
  | st_hand_buffered i p t s' :
      proxies s !! i = Some p → pr_handing p = Some t →
      empty_one i p (getEpoch t) s = Some (Ok s') → eb_step s s'
  | st_hand i p t :
      proxies s !! i = Some p → pr_handing p = Some t → empty_one i p (getEpoch t) s = None →
      eb_step s (set_pr i (mkPr (pr_epoch p) None (buffer p) (workload p) (pr_worker p)) (hand_over t s))
  | st_epoch i p :
      proxies s !! i = Some p → pr_handing p = None → eb_step s (asyncEmptyBuffer i p s)
  | st_task i p e es :
      proxies s !! i = Some p → pr_worker p = Idle → workload p = e :: es →
      eb_step s (await i (mkPr (pr_epoch p) (pr_handing p) (buffer p) es (pr_worker p)) e s)
  | st_empty i p e s' :
      proxies s !! i = Some p → pr_worker p = Released e → eager = false →
      empty_one i p e s = Some (Ok s') → eb_step s s'
  | st_signal i p e :
      proxies s !! i = Some p → pr_worker p = Released e →
      (eager = true ∨ empty_one i p e s = None) →
      eb_step s (set_pr i (set_worker Idle p) (signalFinishedPushToQueue s)).

Inductive eb_run (start : N) : EpochBuffers → Prop :=
  | eb_start : eb_run start (new_buffers start)
  | eb_next s s' : eb_run start s → eb_step s s' → eb_run start s'.

End Buffers.

(** ** Counting and collecting over the proxies *)
Section Collect.
Context {A B : Type}.
Implicit Types (l : list A) (f : A → bool) (g : A → list B).

Definition count f l : nat := length (filter (λ x, f x = true) l).
Definition gather g l : list B := concat (g <$> l).

Lemma count_cons f x l : count f (x :: l) = ((if f x then 1 else 0) + count f l)%nat.
Proof. unfold count. rewrite filter_cons. by destruct (f x). Qed.

Lemma count_insert f l i x y :
  l !! i = Some x →
  (count f (<[i := y]> l) + (if f x then 1 else 0) = count f l + (if f y then 1 else 0))%nat.
Proof.
  revert i. induction l as [|z l IH]; intros [|i] Hi; try done; simpl in *; rewrite !count_cons.
  - injection Hi as ->. lia.
  - specialize (IH i Hi). lia.
Qed.

Lemma count_le f l : (count f l ≤ length l)%nat.
Proof. apply length_filter. Qed.

Lemma count_full f l : count f l = length l → ∀ i x, l !! i = Some x → f x = true.
Proof.
  induction l as [|y l IH]; intros Hc i x Hi; [done|]. rewrite count_cons in Hc. simpl in Hc.
  pose proof (count_le f l). destruct (f y) eqn:Ey; [|lia].
  destruct i as [|i]; simpl in Hi; [by injection Hi as <-|]. apply (IH ltac:(lia) i x Hi).
Qed.

(** All but one satisfy [f], and [x] does not: every other one does. *)
Lemma count_others f l i x j y :
  S (count f l) = length l → l !! i = Some x → f x = false → j ≠ i → l !! j = Some y → f y = true.
Proof.
  revert i j. induction l as [|z l IH]; intros i j Hc Hi Hx Hne Hj; [done|].
  rewrite count_cons in Hc. simpl in Hc. pose proof (count_le f l) as Hle.
  destruct i as [|i], j as [|j]; simpl in *; try done.
  - injection Hi as ->. rewrite Hx in Hc. eapply count_full; [|exact Hj]. lia.
  - injection Hj as ->. destruct (f y) eqn:Ey; [done|].
    assert (count f l = length l) as Hf by lia. pose proof (count_full f l Hf i x Hi). congruence.
  - destruct (f z) eqn:Ez.
    + eapply (IH i j); [lia|done|done|lia|done].
    + assert (count f l = length l) as Hf by lia. pose proof (count_full f l Hf i x Hi). congruence.
Qed.

Lemma count_all f l : (∀ i x, l !! i = Some x → f x = true) → count f l = length l.
Proof.
  induction l as [|x l IH]; intros Hf; [done|]. rewrite count_cons, (Hf O x eq_refl). simpl.
  f_equal. apply IH. intros i y Hi. exact (Hf (S i) y Hi).
Qed.

Lemma count_none f l : (∀ i x, l !! i = Some x → f x = false) → count f l = O.
Proof.
  induction l as [|x l IH]; intros Hf; [done|]. rewrite count_cons, (Hf O x eq_refl). simpl.
  apply IH. intros i y Hi. exact (Hf (S i) y Hi).
Qed.

Lemma count_zero f l : count f l = O → ∀ i x, l !! i = Some x → f x = false.
Proof.
  induction l as [|y l IH]; intros Hc i x Hi; [done|]. rewrite count_cons in Hc.
  destruct (f y) eqn:Ey; [simpl in Hc; lia|]. destruct i as [|i]; simpl in Hi.
  - by injection Hi as <-.
  - by apply (IH Hc i).
Qed.

Lemma gather_insert g l i x y :
  l !! i = Some x → g x ++ gather g (<[i := y]> l) ≡ₚ g y ++ gather g l.
Proof.
  unfold gather. revert i. induction l as [|z l IH]; intros [|i] Hi; try done; simpl in *.
  - injection Hi as ->. rewrite !app_assoc. f_equiv. apply Permutation_app_comm.
  - specialize (IH i Hi). rewrite !(Permutation_app_swap_app _ (g z)). by rewrite IH.
Qed.

Lemma gather_same g l i x y : l !! i = Some x → g y = g x → gather g (<[i := y]> l) ≡ₚ gather g l.
Proof. intros Hi E. apply (Permutation_app_inv_l (g x)). by rewrite (gather_insert g l i x y Hi), E. Qed.

Lemma gather_elem g l i x b : l !! i = Some x → b ∈ g x → b ∈ gather g l.
Proof.
  intros Hi Hb. unfold gather. apply list_elem_of_In, List.in_concat. exists (g x).
  split; apply list_elem_of_In; [|done]. apply list_elem_of_fmap. exists x.
  split; [done|]. by eapply list_elem_of_lookup_2.
Qed.

End Collect.

(** The epochs from [a] to [b - 1]. *)
Definition span (a b : N) : list N := (λ k, a + N.of_nat k) <$> seq 0 (N.to_nat (b - a)).

Lemma span_nil a b : b ≤ a → span a b = [].
Proof. intros Hab. unfold span. by replace (N.to_nat (b - a)) with O by lia. Qed.

Lemma span_cons a b : a < b → span a b = a :: span (a + 1) b.
Proof.
  intros Hab. unfold span. replace (N.to_nat (b - a)) with (S (N.to_nat (b - (a + 1)))) by lia.
  cbn [seq]. rewrite fmap_cons, N.add_0_r, <-fmap_S_seq, <-list_fmap_compose. f_equal.
  apply list_fmap_ext. intros i k _. simpl. lia.
Qed.

Lemma span_snoc a b : a ≤ b → span a (b + 1) = span a b ++ [b].
Proof.
  intros Hab. unfold span. replace (N.to_nat (b + 1 - a)) with (N.to_nat (b - a) + 1)%nat by lia.
  rewrite seq_app, fmap_app. f_equal. simpl. f_equal. lia.
Qed.

(** ** The invariant *)
Section Invariant.
Context (eager : bool) (n : nat) (getEpoch : txn_ptr → N).
Local Notation later := (λ t t', getEpoch t ≤ getEpoch t').
Local Notation eb_step := (eb_step eager n getEpoch).
Local Notation eb_run := (eb_run eager n getEpoch).

Definition is_waiting (p : Proxy) : bool := match pr_worker p with Waiting _ => true | _ => false end.
Definition is_released (p : Proxy) : bool := match pr_worker p with Released _ => true | _ => false end.
Definition held (p : Proxy) : list txn_ptr := option_list (pr_handing p) ++ buffered (buffer p).

(** The worker of a proxy relative to the global epoch [G]. *)
Definition worker_ok (G : N) (p : Proxy) : Prop :=
  match pr_worker p with
  | Idle => G ≤ pr_epoch p ∧ workload p = span G (pr_epoch p)
  | Waiting e => e = G ∧ G < pr_epoch p ∧ workload p = span (G + 1) (pr_epoch p)
  | Released e => e + 1 = G ∧ G ≤ pr_epoch p ∧ workload p = span G (pr_epoch p)
  end.

Record proxy_ok (G : N) (p : Proxy) : Prop := {
  px_worker : worker_ok G p;
  px_buffer e t : t ∈ queue e (buffer p) → getEpoch t = e ∧ e ≤ pr_epoch p;
  px_handing t : pr_handing p = Some t →
    eager = true ∧ getEpoch t = pr_epoch p ∧ pr_epoch p = G;
  px_emptied e t : eager = false → t ∈ queue e (buffer p) → G ≤ e ∨ pr_worker p = Released e }.

Record eb_ok (s : EpochBuffers) : Prop := {
  eo_len : length (proxies s) = n;
  eo_proxy i p : proxies s !! i = Some p → proxy_ok (globalProcessingEpoch s) p;
  eo_waits : current_waits s = count is_waiting (proxies s);
  eo_below : (current_waits s < n)%nat;
  eo_cnt : (currentEpochPushedToQueueCnt s + count is_released (proxies s) = n)%nat;
  eo_sorted : StronglySorted later (handed s);
  eo_bound t : t ∈ handed s → getEpoch t + (if eager then 0 else 1) ≤ globalProcessingEpoch s;
  eo_pushed : pushed s ≡ₚ handed s ++ gather held (proxies s);
  eo_nodup : NoDup (pushed s) }.

Lemma eb_start_ok start : (0 < n)%nat → eb_ok (new_buffers n start).
Proof.
  intros Hn. assert (∀ i p, proxies (new_buffers n start) !! i = Some p → p = new_proxy_buffer start) as Hp.
  { intros i p Hp. simpl in Hp. by apply lookup_replicate in Hp as [-> _]. }
  split; simpl; try lia.
  - apply length_replicate.
  - intros i p Hi. rewrite (Hp i p Hi). split; simpl.
    + unfold worker_ok. simpl. split; [lia|]. by rewrite span_nil.
    + intros e t. unfold queue. rewrite lookup_empty. by intros ?%not_elem_of_nil.
    + done.
    + intros e t _. unfold queue. rewrite lookup_empty. by intros ?%not_elem_of_nil.
  - symmetry. apply count_none. intros i p Hi. by rewrite (Hp i p Hi).
  - rewrite count_none; [lia|]. intros i p Hi. by rewrite (Hp i p Hi).
  - constructor.
  - by intros t ?%not_elem_of_nil.
  - unfold gather. clear Hn Hp. induction n as [|m IH]; [done|]. simpl. done.
  - constructor.
Qed.

Lemma gather_grow l i p q extra :
  l !! i = Some p → held q ≡ₚ extra ++ held p → gather held (<[i := q]> l) ≡ₚ extra ++ gather held l.
Proof.
  intros Hi Hheld. apply (Permutation_app_inv_l (held p)).
  rewrite (gather_insert held l i p q Hi), Hheld, <-app_assoc. by rewrite Permutation_app_swap_app.
Qed.

Lemma gather_shrink l i p q t :
  l !! i = Some p → held p ≡ₚ t :: held q → gather held l ≡ₚ t :: gather held (<[i := q]> l).
Proof.
  intros Hi Hheld. apply (Permutation_app_inv_l (held q)).
  rewrite <-(gather_insert held l i p q Hi), Hheld. simpl. by rewrite <-Permutation_middle.
Qed.

(** Changing one proxy without touching workers, counters or hand-overs. *)
Lemma set_pr_ok s i p q extra :
  eb_ok s → proxies s !! i = Some p → proxy_ok (globalProcessingEpoch s) q →
  pr_worker q = pr_worker p → held q ≡ₚ extra ++ held p → NoDup (pushed s ++ extra) →
  eb_ok (mkEB (<[i := q]> (proxies s)) (globalProcessingEpoch s) (currentEpochPushedToQueueCnt s)
           (current_waits s) (handed s) (pushed s ++ extra)).
Proof.
  intros [] Hi Hq Hw Hheld Hnd. pose proof (lookup_lt_Some _ _ _ Hi) as Hlt.
  split; simpl; try done.
  - by rewrite length_insert.
  - intros j r. rewrite list_lookup_insert_Some. intros [(_ & <- & _)|[_ Hr]]; [done|by eapply eo_proxy0].
  - rewrite eo_waits0. pose proof (count_insert is_waiting (proxies s) i p q Hi) as Hc.
    unfold is_waiting in Hc at 2 4. rewrite Hw in Hc. lia.
  - pose proof (count_insert is_released (proxies s) i p q Hi) as Hc.
    unfold is_released in Hc at 2 4. rewrite Hw in Hc. lia.
  - rewrite (gather_grow _ _ _ _ extra Hi Hheld), eo_pushed0, <-app_assoc. f_equiv.
    apply Permutation_app_comm.
Qed.

(** Handing over one transaction of proxy [i], of the current epoch. *)
Lemma hand_ok s i p q t :
  eb_ok s → proxies s !! i = Some p → proxy_ok (globalProcessingEpoch s) q →
  pr_worker q = pr_worker p → held p ≡ₚ t :: held q →
  getEpoch t + (if eager then 0 else 1) = globalProcessingEpoch s →
  eb_ok (set_pr i q (hand_over t s)).
Proof.
  intros [] Hi Hq Hw Hheld Ht. split; simpl; try done.
  - by rewrite length_insert.
  - intros j r. rewrite list_lookup_insert_Some. intros [(_ & <- & _)|[_ Hr]]; [done|by eapply eo_proxy0].
  - rewrite eo_waits0. pose proof (count_insert is_waiting (proxies s) i p q Hi) as Hc.
    unfold is_waiting in Hc at 2 4. rewrite Hw in Hc. lia.
  - pose proof (count_insert is_released (proxies s) i p q Hi) as Hc.
    unfold is_released in Hc at 2 4. rewrite Hw in Hc. lia.
  - apply StronglySorted_app. split_and!; [|done|repeat constructor].
    intros x y Hx ->%list_elem_of_singleton. specialize (eo_bound0 x Hx). destruct eager; lia.
  - intros x [Hx| ->%list_elem_of_singleton]%elem_of_app; [by apply eo_bound0|]. by rewrite Ht.
  - by rewrite eo_pushed0, (gather_shrink _ _ _ _ t Hi Hheld), <-app_assoc.
Qed.

Lemma worker_le G p : worker_ok G p → G ≤ pr_epoch p.
Proof. unfold worker_ok. destruct (pr_worker p); lia. Qed.

(** *** Producers *)
Lemma push_buffered_ok s i p t :
  eb_ok s → proxies s !! i = Some p → pr_handing p = None → getEpoch t = pr_epoch p → t ∉ pushed s →
  eb_ok (set_pr i (mkPr (pr_epoch p) (pr_handing p) (enq (getEpoch t) t (buffer p)) (workload p)
                     (pr_worker p))
           (mkEB (proxies s) (globalProcessingEpoch s) (currentEpochPushedToQueueCnt s)
              (current_waits s) (handed s) (pushed s ++ [t]))).
Proof.
  intros Hs Hi Hh Ht Hnew. pose proof Hs as []. pose proof (eo_proxy0 i p Hi) as [].
  apply (set_pr_ok s i p); try done.
  - split; simpl; try done.
    + intros e t'. rewrite queue_enq. destruct (decide (getEpoch t = e)) as [<-|]; [|by apply px_buffer0].
      rewrite elem_of_app, list_elem_of_singleton. intros [?| ->]; [by apply px_buffer0|split; [done|lia]].
    + intros e t' Hl. rewrite queue_enq. destruct (decide (getEpoch t = e)) as [<-|]; [|by apply px_emptied0].
      rewrite elem_of_app, list_elem_of_singleton.
      intros [?| ->]; [by apply (px_emptied0 _ t')|]. left. rewrite Ht. by apply worker_le.
  - unfold held. simpl. by rewrite buffered_enq, Hh.
  - by apply NoDup_snoc.
Qed.

Lemma eb_push_ok s i p t :
  eb_ok s → proxies s !! i = Some p → pr_handing p = None → getEpoch t = pr_epoch p → t ∉ pushed s →
  getEpoch t < MAX_EPOCH →
  ∃ s', pushTransactionToBuffer eager n getEpoch i p t s = Ok s' ∧ eb_ok s'.
Proof.
  intros Hs Hi Hh Ht Hnew Hmax. pose proof Hs as []. pose proof (eo_proxy0 i p Hi) as [].
  pose proof (worker_le _ _ px_worker0) as Hle.
  pose proof (push_buffered_ok s i p t Hs Hi Hh Ht Hnew) as Hbuf.
  unfold pushTransactionToBuffer. rewrite (in_range_ok _ Hmax). destruct eager eqn:Ee; [|by eexists].
  unfold isAllCPPushedToQueue. simpl.
  destruct (N.ltb_spec (globalProcessingEpoch s) (getEpoch t)) as [|Hge]; [by eexists|].
  assert (getEpoch t = globalProcessingEpoch s) as HtG by lia.
  rewrite (proj2 (N.eqb_eq _ _) HtG). simpl. destruct (_ <? _)%nat; [by eexists|].
  eexists. split; [done|]. apply (set_pr_ok s i p); try done.
  - split; simpl; [exact px_worker0|exact px_buffer0| |intros ???; congruence].
    intros t' [= <-]. split_and!; [done|done|lia].
  - unfold held. simpl. by rewrite Hh.
  - by apply NoDup_snoc.
Qed.

Lemma push_range i p t s s' :
  pushTransactionToBuffer eager n getEpoch i p t s = Ok s' → getEpoch t < MAX_EPOCH.
Proof.
  unfold pushTransactionToBuffer. destruct eager.
  - intros (? & _ & (? & E%in_range_inv & _)%outcome_bind_Ok)%outcome_bind_Ok. done.
  - intros (? & E%in_range_inv & _)%outcome_bind_Ok. done.
Qed.

Lemma empty_one_None i p e s : empty_one getEpoch i p e s = None → queue e (buffer p) = [].
Proof. unfold empty_one. destruct (in_range e); [|done]. by destruct (queue e (buffer p)). Qed.

Lemma empty_one_range i p e s s' :
  empty_one getEpoch i p e s = Some (Ok s') → e < MAX_EPOCH ∧ ∃ t ts, queue e (buffer p) = t :: ts.
Proof.
  unfold empty_one. destruct (in_range e) eqn:E; [|done]. apply in_range_inv in E.
  destruct (queue e (buffer p)); [done|eauto].
Qed.

(** One transaction out of the queue of an epoch whose turn it is. *)
Lemma empty_one_ok s i p e t ts :
  eb_ok s → proxies s !! i = Some p → e < MAX_EPOCH → queue e (buffer p) = t :: ts →
  e + (if eager then 0 else 1) = globalProcessingEpoch s →
  ∃ s', empty_one getEpoch i p e s = Some (Ok s') ∧ eb_ok s'.
Proof.
  intros Hs Hi Hmax Hq HeG. pose proof Hs as []. pose proof (eo_proxy0 i p Hi) as [].
  destruct (px_buffer0 e t) as [Ht _]; [rewrite Hq; by left|].
  unfold empty_one. rewrite (in_range_ok _ Hmax), Hq, (proj2 (N.eqb_eq _ _) Ht). eexists. split; [done|].
  assert (∀ e' t', t' ∈ queue e' (<[e := ts]> (buffer p)) → t' ∈ queue e' (buffer p)) as Hsub.
  { intros e' t'. rewrite queue_insert. destruct (decide (e = e')) as [<-|]; [|done].
    rewrite Hq. by right. }
  apply (hand_ok s i p); try done.
  - split; simpl; try done.
    + intros e' t' Hin. by apply px_buffer0, Hsub.
    + intros e' t' Hl Hin. by apply (px_emptied0 _ t'), Hsub.
  - unfold held. simpl. rewrite (buffered_split e (buffer p)), Hq, buffered_insert.
    simpl. by rewrite <-Permutation_middle.
  - by rewrite Ht.
Qed.

Lemma hand_last_ok s i p t :
  eb_ok s → proxies s !! i = Some p → pr_handing p = Some t →
  eb_ok (set_pr i (mkPr (pr_epoch p) None (buffer p) (workload p) (pr_worker p)) (hand_over t s)).
Proof.
  intros Hs Hi Hh. pose proof Hs as []. pose proof (eo_proxy0 i p Hi) as [].
  destruct (px_handing0 t Hh) as (Hea & Ht & HG). apply (hand_ok s i p); try done.
  - unfold held. simpl. by rewrite Hh.
  - rewrite Hea. lia.
Qed.

Lemma epoch_ok s i p :
  eb_ok s → proxies s !! i = Some p → pr_handing p = None → eb_ok (asyncEmptyBuffer i p s).
Proof.
  intros Hs Hi Hh. pose proof Hs as []. pose proof (eo_proxy0 i p Hi) as [].
  unfold asyncEmptyBuffer, set_pr. rewrite <-(app_nil_r (pushed s)). apply (set_pr_ok s i p); try done.
  - split; simpl; try done.
    + unfold worker_ok in *. simpl. destruct (pr_worker p).
      * destruct px_worker0 as (? & ->). split; [lia|]. by rewrite span_snoc.
      * destruct px_worker0 as (? & ? & ->). split_and!; [done|lia|]. by rewrite span_snoc by lia.
      * destruct px_worker0 as (? & ? & ->). split_and!; [done|lia|]. by rewrite span_snoc.
    + intros e t Ht. destruct (px_buffer0 e t Ht). split; [done|lia].
    + intros t Ht. by rewrite Hh in Ht.
  - by rewrite app_nil_r.
Qed.

(** *** Workers *)
Lemma signal_ok s i p e :
  eb_ok s → proxies s !! i = Some p → pr_worker p = Released e →
  (eager = true ∨ queue e (buffer p) = []) →
  eb_ok (set_pr i (set_worker Idle p) (signalFinishedPushToQueue s)).
Proof.
  intros Hs Hi Hw He. pose proof Hs as []. pose proof (eo_proxy0 i p Hi) as [].
  unfold worker_ok in px_worker0. rewrite Hw in px_worker0. destruct px_worker0 as (HG & HP & Hwl).
  pose proof (count_insert is_waiting (proxies s) i p (set_worker Idle p) Hi) as Hcw.
  pose proof (count_insert is_released (proxies s) i p (set_worker Idle p) Hi) as Hcr.
  unfold is_waiting in Hcw at 2 4. unfold is_released in Hcr at 2 4. rewrite Hw in Hcw, Hcr. simpl in Hcw, Hcr.
  split; simpl; try done.
  - by rewrite length_insert.
  - intros j q. rewrite list_lookup_insert_Some. intros [(_ & <- & _)|[_ Hr]]; [|by eapply eo_proxy0].
    split; simpl; try done. intros e' t Hl Hin. left.
    destruct (px_emptied0 e' t Hl Hin) as [?|Hrel]; [done|]. rewrite Hw in Hrel. injection Hrel as <-.
    destruct He as [?|He]; [congruence|]. rewrite He in Hin. by apply not_elem_of_nil in Hin.
  - lia.
  - lia.
  - by rewrite (gather_same held (proxies s) i p _ Hi).
Qed.

(** The first [n - 1] workers wait. *)
Lemma await_waits_ok s i p e es :
  eb_ok s → proxies s !! i = Some p → pr_worker p = Idle → workload p = e :: es →
  (S (current_waits s) < n)%nat →
  eb_ok (set_pr i (set_worker (Waiting e) (mkPr (pr_epoch p) (pr_handing p) (buffer p) es (pr_worker p)))
           (set_waits (S (current_waits s)) s)).
Proof.
  intros Hs Hi Hw Hwl Hlt. pose proof Hs as []. pose proof (eo_proxy0 i p Hi) as [].
  unfold worker_ok in px_worker0. rewrite Hw in px_worker0. destruct px_worker0 as (HP & Hspan).
  assert (globalProcessingEpoch s < pr_epoch p) as HG.
  { apply N.nle_gt. intros Hle. rewrite span_nil in Hspan by done. congruence. }
  rewrite span_cons in Hspan by done. rewrite Hwl in Hspan. injection Hspan as -> ->.
  set (q := set_worker _ _).
  pose proof (count_insert is_waiting (proxies s) i p q Hi) as Hcw.
  pose proof (count_insert is_released (proxies s) i p q Hi) as Hcr.
  unfold is_waiting in Hcw at 2 4. unfold is_released in Hcr at 2 4. rewrite Hw in Hcw, Hcr. simpl in Hcw, Hcr.
  split; simpl; try done.
  - by rewrite length_insert.
  - intros j r. rewrite list_lookup_insert_Some. intros [(_ & <- & _)|[_ Hr]]; [|by eapply eo_proxy0].
    split; simpl; try done. intros e t Hl Hin. left.
    destruct (px_emptied0 e t Hl Hin) as [?|Hrel]; [done|]. by rewrite Hw in Hrel.
  - lia.
  - lia.
  - by rewrite (gather_same held (proxies s) i p _ Hi).
Qed.

Lemma wake_held p : held (wake p) = held p.
Proof. unfold wake, held. by destruct (pr_worker p). Qed.

Lemma wake_ok G p : proxy_ok G p → is_waiting p = true → proxy_ok (G + 1) (wake p).
Proof.
  unfold is_waiting, wake. intros [] Hw. unfold worker_ok in *. destruct (pr_worker p) as [|e|] eqn:E; [done| |done].
  destruct px_worker0 as (-> & HG & Hspan). split; simpl; try done.
  - unfold worker_ok. simpl. split_and!; [lia|lia|done].
  - intros t Ht. destruct (px_handing0 t Ht) as (_ & _ & ?). lia.
  - intros e t Hl Hin. destruct (px_emptied0 e t Hl Hin) as [Hle|]; [|done].
    destruct (decide (e = G)) as [->|]; [by right|left; lia].
Qed.

(** The last one releases all. *)
Lemma await_fires_ok s i p e es :
  eb_ok s → proxies s !! i = Some p → pr_worker p = Idle → workload p = e :: es →
  S (current_waits s) = n →
  eb_ok (set_pr i (set_worker (Released e) (mkPr (pr_epoch p) (pr_handing p) (buffer p) es (pr_worker p)))
           (notify_all (set_waits 0 (barrier_callback s)))).
Proof.
  intros Hs Hi Hw Hwl Hn. pose proof Hs as []. pose proof (eo_proxy0 i p Hi) as Hpx.
  set (q := set_worker (Waiting e) (mkPr (pr_epoch p) (pr_handing p) (buffer p) es (pr_worker p))).
  set (G := globalProcessingEpoch s) in *.
  assert (proxy_ok G q) as Hq.
  { destruct Hpx. unfold worker_ok in px_worker0. rewrite Hw in px_worker0.
    destruct px_worker0 as (HP & Hspan).
    assert (G < pr_epoch p) as HG.
    { apply N.nle_gt. intros Hle. rewrite span_nil in Hspan by done. congruence. }
    rewrite span_cons in Hspan by done. rewrite Hwl in Hspan. injection Hspan as -> ->.
    split; simpl; try done. intros e t Hl Hin. left.
    destruct (px_emptied0 e t Hl Hin) as [?|Hrel]; [done|]. by rewrite Hw in Hrel. }
  assert (∀ j r, j ≠ i → proxies s !! j = Some r → is_waiting r = true) as Hothers.
  { intros j r Hne Hr. eapply (count_others is_waiting (proxies s) i p j r); try done; [lia|].
    unfold is_waiting. by rewrite Hw. }
  unfold set_pr, notify_all, set_waits, barrier_callback. simpl.
  change (set_worker (Released e) _) with (wake q).
  assert (∀ j r, <[i := wake q]> (wake <$> proxies s) !! j = Some r →
    proxy_ok (G + 1) r ∧ is_released r = true) as Hall.
  { intros j r. rewrite list_lookup_insert_Some, list_lookup_fmap.
    intros [(_ & <- & _)|[Hne Hr]]; [split; [by apply wake_ok|done]|].
    apply fmap_Some in Hr as (r0 & Hr & ->). assert (is_waiting r0 = true) as Hr0 by (by eapply Hothers).
    split; [apply wake_ok; [by eapply eo_proxy0|done]|].
    revert Hr0. unfold is_waiting, is_released, wake. by destruct (pr_worker r0) eqn:E. }
  split; simpl; try done.
  - by rewrite length_insert, length_fmap.
  - intros j r Hr. by apply (Hall j r).
  - symmetry. apply count_none. intros j r Hr. destruct (Hall j r Hr) as [_ Hrel].
    revert Hrel. unfold is_waiting, is_released. by destruct (pr_worker r).
  - lia.
  - rewrite count_all; [by rewrite length_insert, length_fmap|]. intros j r Hr. by apply (Hall j r).
  - intros t Ht. specialize (eo_bound0 t Ht). fold G in eo_bound0. lia.
  - rewrite eo_pushed0. f_equiv.
    assert (gather held (wake <$> proxies s) = gather held (proxies s)) as Eg.
    { unfold gather. f_equal. rewrite <-list_fmap_compose. apply list_fmap_ext. intros j r _. simpl.
      by rewrite wake_held. }
    rewrite (gather_same held (wake <$> proxies s) i (wake p)); [by rewrite Eg| |].
    + by rewrite list_lookup_fmap, Hi.
    + by rewrite !wake_held.
Qed.

Lemma step_ok s s' : eb_ok s → eb_step s s' → eb_ok s'.
Proof.
  intros Hs [i p t s1 Hi Hh Ht Hnew E|i p t s1 Hi Hh E|i p t Hi Hh Hq|i p Hi Hh|i p e es Hi Hw Hwl
    |i p e s1 Hi Hw Hl E|i p e Hi Hw Hq].
  - destruct (eb_push_ok s i p t Hs Hi Hh Ht Hnew (push_range _ _ _ _ _ E)) as (s2 & E2 & H2). congruence.
  - pose proof (px_handing _ _ (eo_proxy s Hs i p Hi) t Hh) as (Hea & Ht & HG).
    destruct (empty_one_range _ _ _ _ _ E) as (Hmax & t' & ts & Eq).
    destruct (empty_one_ok s i p (getEpoch t) t' ts Hs Hi Hmax Eq) as (s2 & E2 & H2); [rewrite Hea; lia|].
    congruence.
  - apply empty_one_None in Hq. by apply hand_last_ok.
  - by apply epoch_ok.
  - unfold await. pose proof (eo_below s Hs). rewrite (proj2 (Nat.ltb_lt _ _)) by done.
    destruct (Nat.leb_spec n (S (current_waits s))).
    + eapply await_fires_ok; try done. lia.
    + by apply await_waits_ok.
  - destruct (empty_one_range _ _ _ _ _ E) as (Hmax & t' & ts & Eq).
    pose proof (px_worker _ _ (eo_proxy s Hs i p Hi)) as Hwk. unfold worker_ok in Hwk. rewrite Hw in Hwk.
    destruct (empty_one_ok s i p e t' ts Hs Hi Hmax Eq) as (s2 & E2 & H2); [rewrite Hl; lia|]. congruence.
  - eapply signal_ok; [done..|]. destruct Hq as [?|?%empty_one_None]; [by left|by right].
Qed.

Lemma run_ok start s : (0 < n)%nat → eb_run start s → eb_ok s.
Proof. intros Hn. induction 1; [by apply eb_start_ok|by eapply step_ok]. Qed.

(** C28: the transactions reach the communication controller epoch by epoch.  In
    every run of the producers and workers of [n] proxies the sequence of
    hand-overs is sorted by epoch, which is what the controller checks; every
    pushed transaction is handed over or still held by its proxy, once; and no
    thread fails a check: below [MAX_EPOCH] a push always returns and a queue
    always holds transactions of its epoch.  (The barrier waits without a predicate; a
    wake-up without notification is not part of the model.) *)
Theorem hand_over_ordered start s :
  (0 < n)%nat → eb_run start s →
  StronglySorted later (handed s) ∧ NoDup (pushed s) ∧
  pushed s ≡ₚ handed s ++ gather held (proxies s) ∧
  (∀ i p t, proxies s !! i = Some p → pr_handing p = None → getEpoch t = pr_epoch p →
     t ∉ pushed s → getEpoch t < MAX_EPOCH → ∃ s', pushTransactionToBuffer eager n getEpoch i p t s = Ok s') ∧
  (∀ i p e o, proxies s !! i = Some p → pr_worker p = Released e → e < MAX_EPOCH →
     empty_one getEpoch i p e s = Some o → ∃ s', o = Ok s').
Proof.
  intros Hn Hrun. pose proof (run_ok start s Hn Hrun) as Hs. pose proof Hs as [].
  split_and!; [done|done|done| |].
  - intros i p t Hi Hh Ht Hnew Hmax. destruct (eb_push_ok s i p t Hs Hi Hh Ht Hnew Hmax) as (s' & ? & _). eauto.
  - intros i p e o Hi Hw Hmax. unfold empty_one. rewrite (in_range_ok _ Hmax). destruct (queue e (buffer p)) as [|t ts] eqn:Eq; [done|].
    destruct (px_buffer _ _ (eo_proxy0 i p Hi) e t) as [Ht _]; [rewrite Eq; by left|].
    rewrite (proj2 (N.eqb_eq _ _) Ht). intros [= <-]. by eexists.
Qed.

(** In a run without early execution, a proxy holds nothing of an epoch that
    every worker is through with. *)
Lemma nothing_held s i p t :
  eager = false → eb_ok s → proxies s !! i = Some p → t ∈ held p →
  getEpoch t + 1 < globalProcessingEpoch s ∨
    (getEpoch t < globalProcessingEpoch s ∧ currentEpochPushedToQueueCnt s = n) → False.
Proof.
  intros Hl Hs Hi Ht Hep. pose proof Hs as []. pose proof (eo_proxy0 i p Hi) as [].
  unfold held in Ht. apply elem_of_app in Ht as [Ht|Ht].
  { destruct (pr_handing p) as [t'|] eqn:E; [|by apply not_elem_of_nil in Ht].
    destruct (px_handing0 t' eq_refl) as [? _]. congruence. }
  apply elem_buffered_inv in Ht as [e He]. destruct (px_buffer0 e t He) as [<- _].
  destruct (px_emptied0 _ t Hl He) as [Hle|Hrel].
  { destruct Hep as [?|[? _]]; lia. }
  unfold worker_ok in px_worker0. rewrite Hrel in px_worker0.
  destruct Hep as [?|[_ Hcnt]]; [lia|].
  assert (count is_released (proxies s) = O) as Hz by lia.
  pose proof (count_zero _ _ Hz i p Hi) as Hno. unfold is_released in Hno. by rewrite Hrel in Hno.
Qed.

Lemma gather_inv {B} (g : Proxy → list B) l t : t ∈ gather g l → ∃ i p, l !! i = Some p ∧ t ∈ g p.
Proof.
  unfold gather. intros Ht. apply list_elem_of_In, List.in_concat in Ht as (k & Hin & Ht).
  apply list_elem_of_In in Hin, Ht. apply list_elem_of_fmap in Hin as (p & -> & Hp).
  apply list_elem_of_lookup in Hp as [i Hi]. by exists i, p.
Qed.

(** without early execution nothing stays behind.  Once the barrier of epoch
    [e + 1] has opened, or the barrier of epoch [e] has and every worker has
    signalled, every transaction of epoch [e] that was pushed has been handed
    over. *)
Theorem hand_over_complete start s t :
  (0 < n)%nat → eager = false → eb_run start s → t ∈ pushed s →
  getEpoch t + 1 < globalProcessingEpoch s ∨
    (getEpoch t < globalProcessingEpoch s ∧ currentEpochPushedToQueueCnt s = n) →
  t ∈ handed s.
Proof.
  intros Hn Hl Hrun Ht Hep. pose proof (run_ok start s Hn Hrun) as Hs. pose proof (eo_pushed s Hs) as Hp.
  rewrite Hp, elem_of_app in Ht. destruct Ht as [?|Ht]; [done|exfalso].
  apply gather_inv in Ht as (i & p & Hi & Ht). by apply (nothing_held s i p t).
Qed.

(** *** Early execution *)
Definition stuck (i : nat) (e : N) (t : txn_ptr) (s : EpochBuffers) : Prop :=
  ∃ p, proxies s !! i = Some p ∧ t ∈ queue e (buffer p) ∧ e < pr_epoch p.

Lemma stuck_step i e t s s' :
  eager = true → eb_ok s → stuck i e t s → eb_step s s' → stuck i e t s'.
Proof.
  intros Hea Hs (p & Hi & Ht & He) Hstep.
  assert (∀ j q q', proxies s !! j = Some q → (j = i → t ∈ queue e (buffer q') ∧ e < pr_epoch q') →
    ∀ l, l = proxies s ∨ l = wake <$> proxies s →
    ∃ p', <[j := q']> l !! i = Some p' ∧ t ∈ queue e (buffer p') ∧ e < pr_epoch p') as Hset.
  { intros j q q' Hj Hq l Hl. destruct (decide (j = i)) as [->|Hne].
    - exists q'. rewrite list_lookup_insert_eq; [by split; [|apply Hq]|].
      destruct Hl as [->| ->]; rewrite ?length_fmap; by eapply lookup_lt_Some.
    - rewrite list_lookup_insert_ne by done. destruct Hl as [->| ->]; [by exists p|].
      exists (wake p). rewrite list_lookup_fmap, Hi. split; [done|].
      unfold wake. destruct (pr_worker p); done. }
  destruct Hstep as [j q t' s1 Hj Hh Ht' Hnew E|j q t' s1 Hj Hh E|j q t' Hj Hh Hq|j q Hj Hh
    |j q e' es Hj Hw Hwl|j q e' s1 Hj Hw Hl E|j q e' Hj Hw Hq]; try congruence.
  - unfold pushTransactionToBuffer in E. rewrite Hea in E. apply outcome_bind_Ok in E as (b & _ & E).
    apply outcome_bind_Ok in E as (_ & _ & E). destruct b; injection E as <-; unfold stuck; simpl; apply (Hset j q); try tauto; intros ->;
      rewrite Hi in Hj; injection Hj as <-; [done|]. simpl. rewrite queue_enq.
    destruct (decide _) as [Ee|]; [|done]. rewrite Ht' in Ee. lia.
  - unfold empty_one in E. destruct (in_range _); [|done].
    destruct (queue (getEpoch t') (buffer q)) as [|t1 ts]; [done|].
    injection E as E. apply outcome_bind_Ok in E as (b & _ & E). injection E as <-.
    unfold stuck. simpl. apply (Hset j q); try tauto. intros ->. rewrite Hi in Hj. injection Hj as <-.
    simpl. rewrite queue_insert. destruct (px_handing _ _ (eo_proxy s Hs i p Hi) t' Hh) as (_ & Hep & _).
    rewrite decide_False by lia. done.
  - unfold stuck. simpl. apply (Hset j q); try tauto. intros ->. rewrite Hi in Hj. by injection Hj as <-.
  - unfold stuck. simpl. apply (Hset j q); try tauto. intros ->. rewrite Hi in Hj. injection Hj as <-.
    simpl. split; [done|lia].
  - unfold stuck, await. destruct (_ <=? _)%nat; simpl; apply (Hset j q); try tauto; intros ->;
      rewrite Hi in Hj; by injection Hj as <-.
  - unfold stuck. simpl. apply (Hset j q); try tauto. intros ->. rewrite Hi in Hj. by injection Hj as <-.
Qed.

(** With early execution a transaction can be lost.  One that was buffered
    because the epoch before was not finished everywhere, and whose producer has
    moved on without another push, stays in the buffer for ever: the worker of
    an eager buffer does not empty it, and no run hands the transaction over. *)
Theorem eager_buffer_loses start s i p e t :
  (0 < n)%nat → eager = true → eb_run start s →
  proxies s !! i = Some p → t ∈ queue e (buffer p) → e < pr_epoch p →
  ∀ s', rtc eb_step s s' → t ∉ handed s'.
Proof.
  intros Hn Hea Hrun Hi Ht He s' Hrtc.
  assert (stuck i e t s) as Hst by (by exists p).
  pose proof (run_ok start s Hn Hrun) as Hs. clear Hrun Hi Ht He.
  induction Hrtc as [s|s s1 s' Hstep Hrtc IH].
  - destruct Hst as (q & Hi & Ht & _). pose proof Hs as []. intros Hin.
    rewrite eo_pushed0 in eo_nodup0. apply NoDup_app in eo_nodup0 as (_ & Hdisj & _).
    apply (Hdisj t Hin). apply (gather_elem held _ i q); [done|]. unfold held. apply elem_of_app. right.
    by eapply elem_buffered.
  - apply IH; [by eapply stuck_step|by eapply step_ok].
Qed.

End Invariant.

(** ** Executing runs *)
Inductive eb_action :=
  | APush (i : nat) (t : txn_ptr) | AHand (i : nat) | AEpoch (i : nat) | ATask (i : nat)
  | AEmpty (i : nat) | ASignal (i : nat).

Section Execute.
Context (eager : bool) (n : nat) (getEpoch : txn_ptr → N).

Definition ok_some {A} (o : outcome A) : option A := match o with Ok a => Some a | Fatal _ => None end.

Definition eb_exec (a : eb_action) (s : EpochBuffers) : option EpochBuffers :=
  match a with
  | APush i t =>
      p ← proxies s !! i;
      if bool_decide (pr_handing p = None ∧ getEpoch t = pr_epoch p ∧ t ∉ pushed s)
      then ok_some (pushTransactionToBuffer eager n getEpoch i p t s) else None
  | AHand i =>
      p ← proxies s !! i; t ← pr_handing p;
      match empty_one getEpoch i p (getEpoch t) s with
      | Some o => ok_some o
      | None => Some (set_pr i (mkPr (pr_epoch p) None (buffer p) (workload p) (pr_worker p)) (hand_over t s))
      end
  | AEpoch i =>
      p ← proxies s !! i;
      if pr_handing p then None else Some (asyncEmptyBuffer i p s)
  | ATask i =>
      p ← proxies s !! i;
      match pr_worker p, workload p with
      | Idle, e :: es =>
          Some (await n i (mkPr (pr_epoch p) (pr_handing p) (buffer p) es (pr_worker p)) e s)
      | _, _ => None
      end
  | AEmpty i =>
      p ← proxies s !! i;
      match pr_worker p with
      | Released e => if eager then None else empty_one getEpoch i p e s ≫= ok_some
      | _ => None
      end
  | ASignal i =>
      p ← proxies s !! i;
      match pr_worker p with
      | Released e =>
          if eager || match empty_one getEpoch i p e s with None => true | Some _ => false end
          then Some (set_pr i (set_worker Idle p) (signalFinishedPushToQueue s)) else None
      | _ => None
      end
  end.

Lemma ok_some_inv {A} (o : outcome A) a : ok_some o = Some a → o = Ok a.
Proof. destruct o; [by intros [= ->]|done]. Qed.

Lemma eb_exec_sound a s s' : eb_exec a s = Some s' → eb_step eager n getEpoch s s'.
Proof.
  destruct a as [i t|i|i|i|i|i]; simpl; destruct (proxies s !! i) as [p|] eqn:Hi; try done; simpl.
  - case_bool_decide as Hp; [|done]. intros E%ok_some_inv. destruct Hp as (? & ? & ?). by eapply st_push.
  - destruct (pr_handing p) as [t|] eqn:Hh; [|done]. simpl.
    destruct (empty_one getEpoch i p (getEpoch t) s) as [o|] eqn:E.
    + intros ->%ok_some_inv. by eapply st_hand_buffered.
    + intros [= <-]. by eapply st_hand.
  - destruct (pr_handing p) eqn:Hh; [done|]. intros [= <-]. by apply st_epoch.
  - destruct (pr_worker p) eqn:Hw; try done. destruct (workload p) as [|e es] eqn:Hwl; [done|].
    intros [= <-]. rewrite <-Hw. by eapply st_task.
  - destruct (pr_worker p) as [| |e] eqn:Hw; try done. destruct eager eqn:Ee; [done|].
    destruct (empty_one getEpoch i p e s) as [o|] eqn:E; simpl; [|done]. intros ->%ok_some_inv.
    by eapply st_empty.
  - destruct (pr_worker p) as [| |e] eqn:Hw; try done. destruct (_ || _) eqn:E; [|done].
    intros [= <-]. eapply st_signal; [done|done|]. apply orb_true_iff in E as [?|E]; [by left|right].
    by destruct (empty_one _ _ _ _ _).
Qed.

Fixpoint eb_exec_all (l : list eb_action) (s : EpochBuffers) : option EpochBuffers :=
  match l with [] => Some s | a :: l => s ← eb_exec a s; eb_exec_all l s end.

Lemma eb_exec_run start l s s' :
  eb_run eager n getEpoch start s → eb_exec_all l s = Some s' → eb_run eager n getEpoch start s'.
Proof.
  revert s. induction l as [|a l IH]; intros s Hs E; simpl in E; [by injection E as <-|].
  destruct (eb_exec a s) as [s1|] eqn:E1; [|done]. apply (IH s1); [|done].
  eapply eb_next; [done|by apply eb_exec_sound in E1].
Qed.

End Execute.

(** ** Two proxies *)
Module TwoProxies.

Definition epoch_of_id (t : txn_ptr) : N := t / 10.

(** Both proxies push a transaction of epoch 1 and finish the epoch. *)
Definition lazy_acts : list eb_action :=
  [APush 0 10; APush 1 11; AEpoch 1; ATask 1; AEpoch 0; APush 0 20; ATask 0; AEmpty 1; AEmpty 0;
   ASignal 0; ASignal 1].
Definition lazy_end : EpochBuffers :=
  default (new_buffers 2 1) (eb_exec_all false 2 epoch_of_id lazy_acts (new_buffers 2 1)).

Lemma lazy_run : eb_run false 2 epoch_of_id 1 lazy_end.
Proof.
  apply (eb_exec_run false 2 epoch_of_id 1 lazy_acts (new_buffers 2 1)); [apply eb_start|].
  vm_compute. reflexivity.
Qed.

Lemma hand_over_ordered_witness :
  StronglySorted (λ t t', epoch_of_id t ≤ epoch_of_id t') (handed lazy_end) ∧ NoDup (pushed lazy_end) ∧
  pushed lazy_end ≡ₚ handed lazy_end ++ gather held (proxies lazy_end) ∧
  (∀ i p t, proxies lazy_end !! i = Some p → pr_handing p = None → epoch_of_id t = pr_epoch p →
     t ∉ pushed lazy_end → epoch_of_id t < MAX_EPOCH →
     ∃ s', pushTransactionToBuffer false 2 epoch_of_id i p t lazy_end = Ok s') ∧
  (∀ i p e o, proxies lazy_end !! i = Some p → pr_worker p = Released e → e < MAX_EPOCH →
     empty_one epoch_of_id i p e lazy_end = Some o → ∃ s', o = Ok s').
Proof. apply (hand_over_ordered false 2 epoch_of_id 1 lazy_end); [lia|exact lazy_run]. Defined.

Lemma hand_over_complete_witness : 11 ∈ handed lazy_end.
Proof.
  apply (hand_over_complete false 2 epoch_of_id 1 lazy_end 11); [lia|done|exact lazy_run| |].
  - apply (bool_decide_eq_true_1 (11 ∈ pushed lazy_end)). vm_compute. reflexivity.
  - right. vm_compute. done.
Defined.

(** Proxy 0 pushes a transaction of epoch 2 before proxy 1 is through with
    epoch 1, and goes on to epoch 3. *)
Definition eager_acts : list eb_action := [AEpoch 0; APush 0 20; AEpoch 0].
Definition eager_end : EpochBuffers :=
  default (new_buffers 2 1) (eb_exec_all true 2 epoch_of_id eager_acts (new_buffers 2 1)).

Lemma eager_run : eb_run true 2 epoch_of_id 1 eager_end.
Proof.
  apply (eb_exec_run true 2 epoch_of_id 1 eager_acts (new_buffers 2 1)); [apply eb_start|].
  vm_compute. reflexivity.
Qed.

Lemma eager_buffer_loses_witness :
  pushed eager_end = [20] ∧
  ∀ s', rtc (eb_step true 2 epoch_of_id) eager_end s' → 20 ∉ handed s'.
Proof.
  split; [vm_compute; reflexivity|].
  apply (eager_buffer_loses true 2 epoch_of_id 1 eager_end 0
    (mkPr 3 None {[2 := [20]]} [1; 2] Idle) 2 20); [lia|done|exact eager_run|vm_compute; reflexivity| |done].
  apply (bool_decide_eq_true_1 (20 ∈ queue 2 {[2 := [20]]})). vm_compute. reflexivity.
Defined.

(** [cv.wait] without a predicate may return without a notification: the worker
    of proxy [i] leaves the barrier early. *)
Definition spurious (i : nat) (s : EpochBuffers) : EpochBuffers :=
  mkEB (alter wake i (proxies s)) (globalProcessingEpoch s) (currentEpochPushedToQueueCnt s)
    (current_waits s) (handed s) (pushed s).

(** One such wake-up is enough to hand over a transaction of epoch 1 after one
    of epoch 2. *)
Lemma spurious_wakeup_breaks_order :
  ∃ s1 s2, eb_run false 2 epoch_of_id 1 s1 ∧
    eb_exec_all false 2 epoch_of_id
      [AEmpty 0; ASignal 0; ATask 0; AEmpty 0; ASignal 0; APush 1 11; AEpoch 1; ATask 1;
       AEpoch 0; ATask 0; AEmpty 1] (spurious 0 s1) = Some s2 ∧
    epoch_of_id <$> handed s2 = [1; 2; 1].
Proof.
  set (s1 := default (new_buffers 2 1) (eb_exec_all false 2 epoch_of_id
    [APush 0 10; AEpoch 0; APush 0 20; AEpoch 0; ATask 0] (new_buffers 2 1))).
  exists s1, (default s1 (eb_exec_all false 2 epoch_of_id
      [AEmpty 0; ASignal 0; ATask 0; AEmpty 0; ASignal 0; APush 1 11; AEpoch 1; ATask 1;
       AEpoch 0; ATask 0; AEmpty 1] (spurious 0 s1))). split_and!.
  - eapply (eb_exec_run false 2 epoch_of_id 1 [APush 0 10; AEpoch 0; APush 0 20; AEpoch 0; ATask 0]);
      [apply eb_start|]. vm_compute. reflexivity.
  - vm_compute. reflexivity.
  - vm_compute. reflexivity.
Qed.

End TwoProxies.
