(* ===== verification/TransactionManager.v ===== *)
(** * The transaction manager

    [transaction_manager_impl.cpp].  One thread ([run]) takes the transactions
    of each epoch from the communication module, remembers them in
    [epochTxBuffer] and hands them to the coordinator; the coordinator calls
    [epochFinishedCallback] when an epoch is done, which sends the transactions
    to the block generator or, in reusing mode, the aborted ones to the next
    epoch.

    Transactions are shared objects, so the buffers hold pointers into a heap.
    The two threads are a step relation.  [epochFinishedCallback] takes two
    steps, because without asynchronous block generation it sleeps until the
    block is stored. *)
From S2P Require Import Prelude EpochQueues LruCache MerkleTree Transaction TransactionCodec Database BlockStorage BlockGenerator.
From Stdlib Require Import NArith Lia.
From stdpp Require Import base list gmap strings.

Local Open Scope N_scope.

Record TransactionManager (S : Type) := mkTM {
  tm_heap : txn_heap;
  (** A missing queue is an empty one. *)
  epochTxBuffer : gmap N (list txn_ptr);
  cleanedEpoch : N;
  processingEpoch : N;
  reuseTxWrapper : option (list txn_ptr);
  blockGenerator : BlockGenerator S;
  (** The epoch variable of [run], and whether it waits for the signal. *)
  currentEpoch : N;
  run_waits : bool;
  (** The epoch whose callback is between its two halves. *)
  finishing : option N;
  (** The calls of [sendTransactionHandle] and of [clearTransactionForEpoch]. *)
  sent : list (list txn_ptr);
  cleared : list N }.
Arguments mkTM {_} _ _ _ _ _ _ _ _ _ _ _.
Arguments tm_heap {_} _. Arguments epochTxBuffer {_} _. Arguments cleanedEpoch {_} _.
Arguments processingEpoch {_} _. Arguments reuseTxWrapper {_} _. Arguments blockGenerator {_} _.
Arguments currentEpoch {_} _. Arguments run_waits {_} _. Arguments finishing {_} _.
Arguments sent {_} _. Arguments cleared {_} _.

Section Manager.
Context `{Protobuf} `{BlockProto} {S : Type} `{BlockStorage S}.
Context (debug categorizeTransaction reusingAbortTransaction enableAsyncBlockGen : bool).
Local Notation tm := (TransactionManager S).

(** [setBlockGenerator] on a new manager; [run] reads [processingEpoch] when it
    starts. *)
Definition setBlockGenerator (generator : BlockGenerator S) (h : txn_heap) : tm :=
  let latest := getLatestSavedEpoch (storage generator) in
  mkTM h ∅ latest (latest + 1) None generator (latest + 1) false None [] [].

Definition set_generator (g : BlockGenerator S) (m : tm) : tm :=
  mkTM (tm_heap m) (epochTxBuffer m) (cleanedEpoch m) (processingEpoch m) (reuseTxWrapper m) g
    (currentEpoch m) (run_waits m) (finishing m) (sent m) (cleared m).
Definition set_tm_heap (h : txn_heap) (m : tm) : tm :=
  mkTM h (epochTxBuffer m) (cleanedEpoch m) (processingEpoch m) (reuseTxWrapper m)
    (blockGenerator m) (currentEpoch m) (run_waits m) (finishing m) (sent m) (cleared m).
Definition set_buffer (b : gmap N (list txn_ptr)) (m : tm) : tm :=
  mkTM (tm_heap m) b (cleanedEpoch m) (processingEpoch m) (reuseTxWrapper m)
    (blockGenerator m) (currentEpoch m) (run_waits m) (finishing m) (sent m) (cleared m).
Definition enqueue (e : N) (p : txn_ptr) (m : tm) : tm :=
  set_buffer (enq e p (epochTxBuffer m)) m.
Definition add_committed (t : Transaction) (m : tm) : tm :=
  set_generator (addCommittedTransaction t (blockGenerator m)) m.

(** ** [run] *)

(** One batch of [getTransaction]: the objects, enqueued and sent on. *)
Definition run_receive (batch : list (txn_ptr * Transaction)) (m : tm) : tm :=
  let ptrs := batch.*1 in
  let m := set_tm_heap (list_to_map batch ∪ tm_heap m) m in
  let m := foldl (λ m p, enqueue (currentEpoch m) p m) m ptrs in
  mkTM (tm_heap m) (epochTxBuffer m) (cleanedEpoch m) (processingEpoch m) (reuseTxWrapper m)
    (blockGenerator m) (currentEpoch m) (run_waits m) (finishing m) (sent m ++ [ptrs]) (cleared m).

(** [getTransaction] returned null: the next epoch. *)
Definition run_next (m : tm) : tm :=
  mkTM (tm_heap m) (epochTxBuffer m) (cleanedEpoch m) (processingEpoch m) (reuseTxWrapper m)
    (blockGenerator m) (currentEpoch m + 1) reusingAbortTransaction (finishing m) (sent m) (cleared m).

(** After the signal in reusing mode; [None] while the condition is false. *)
Definition run_resume (m : tm) : option tm :=
  if currentEpoch m <=? processingEpoch m + 1 then
    Some (mkTM (tm_heap m) (epochTxBuffer m) (cleanedEpoch m) (processingEpoch m) None
            (blockGenerator m) (currentEpoch m) false (finishing m)
            (match reuseTxWrapper m with Some w => sent m ++ [w] | None => sent m end) (cleared m))
  else None.

(** ** [categorizeEpoch] *)

(** The body of the loop, with the local vector of reused transactions. *)
Definition categorize_one (finishedEpoch : N) (p : txn_ptr) (st : list txn_ptr * tm)
    : outcome (list txn_ptr * tm) :=
  let '(trWrapper, m) := st in
  t ← deref (tm_heap m !! p);
  DCHECK debug (finishedEpoch =? tr_epoch t);;
  match transactionResult t with
  | ABORT =>
      if negb reusingAbortTransaction then Ok (trWrapper, add_committed t m)
      else
        let t := setEpoch (finishedEpoch + 1) (resetTransaction t) in
        DCHECK debug (tr_epoch t =? finishedEpoch + 1);;
        Ok (trWrapper ++ [p],
            enqueue (finishedEpoch + 1) p (set_tm_heap (<[p := t]> (tm_heap m)) m))
  | COMMIT => Ok (trWrapper, add_committed t m)
  | ABORT_NO_RETRY => Ok (trWrapper, add_committed t m)
  | PENDING => Ok (trWrapper, m)
  end.

(** The loop empties the queue of the epoch, to which nobody adds any more. *)
Definition categorizeEpoch (finishedEpoch : N) (m : tm) : outcome tm :=
  let l := queue finishedEpoch (epochTxBuffer m) in
  st ← foldM (categorize_one finishedEpoch) l
         ([], set_buffer (<[finishedEpoch := []]> (epochTxBuffer m)) m);
  let '(trWrapper, m) := st in
  Ok (mkTM (tm_heap m) (epochTxBuffer m) (cleanedEpoch m) (processingEpoch m) (Some trWrapper)
        (blockGenerator m) (currentEpoch m) (run_waits m) (finishing m) (sent m) (cleared m)).

Definition nonCategorize_one (finishedEpoch : N) (p : txn_ptr) (m : tm) : outcome tm :=
  t ← deref (tm_heap m !! p);
  DCHECK debug (finishedEpoch =? tr_epoch t);;
  Ok (add_committed t m).

Definition nonCategorizeEpoch (finishedEpoch : N) (m : tm) : outcome tm :=
  let l := queue finishedEpoch (epochTxBuffer m) in
  foldM (nonCategorize_one finishedEpoch) l
    (set_buffer (<[finishedEpoch := []]> (epochTxBuffer m)) m).

(** ** [epochFinishedCallback] *)
Definition callback_begin (finishedEpoch : N) (m : tm) : outcome tm :=
  m ← (if categorizeTransaction || reusingAbortTransaction then categorizeEpoch finishedEpoch m
       else nonCategorizeEpoch finishedEpoch m);
  Ok (mkTM (tm_heap m) (epochTxBuffer m) (cleanedEpoch m) (processingEpoch m) (reuseTxWrapper m)
        (generateBlock (blockGenerator m)) (currentEpoch m) (run_waits m) (Some finishedEpoch)
        (sent m) (cleared m)).

(** The condition on which the sleeping loop ends. *)
Definition callback_ready (finishedEpoch : N) (m : tm) : bool :=
  enableAsyncBlockGen || (finishedEpoch =? getLatestSavedEpoch (storage (blockGenerator m))).

(** The epochs [++cleanedEpoch] runs through. *)
Definition epochs_to_clear (cleaned latest : N) : list N :=
  (λ i, cleaned + 1 + N.of_nat i) <$> seq 0 (N.to_nat (latest - cleaned)).

Definition callback_end (finishedEpoch : N) (m : tm) : tm :=
  let latest := getLatestSavedEpoch (storage (blockGenerator m)) in
  mkTM (tm_heap m) (delete finishedEpoch (epochTxBuffer m)) (N.max (cleanedEpoch m) latest)
    (finishedEpoch + 1) (reuseTxWrapper m) (blockGenerator m) (currentEpoch m) (run_waits m) None
    (sent m) (cleared m ++ epochs_to_clear (cleanedEpoch m) latest).

End Manager.

(** ** The loops *)
Section Loops.
Context `{Protobuf} `{BlockProto} {S : Type} `{BlockStorage S}.
Context (debug reusing : bool).
Implicit Types (m : TransactionManager S) (h : txn_heap).

(** What happens to a finished transaction. *)
Definition keeps (categorize : bool) (t : Transaction) : bool :=
  match transactionResult t with
  | COMMIT | ABORT_NO_RETRY => true
  | ABORT => negb reusing
  | PENDING => negb categorize
  end.
Definition reuses (t : Transaction) : bool :=
  reusing && bool_decide (transactionResult t = ABORT).

Definition reset_txn (e : N) (t : Transaction) : Transaction := setEpoch (e + 1) (resetTransaction t).
Definition add_all (ts : list Transaction) (g : BlockGenerator S) : BlockGenerator S :=
  foldl (λ g t, addCommittedTransaction t g) g ts.

(** The objects of a list of pointers. *)
Definition objects h (l : list txn_ptr) : list Transaction := omap (λ p, h !! p) l.
Definition ptrs_where h (f : Transaction → bool) (l : list txn_ptr) : list txn_ptr :=
  filter (λ p, from_option f false (h !! p) = true) l.
Definition reset_all (e : N) (l : list txn_ptr) h : txn_heap :=
  foldl (λ h p, alter (reset_txn e) p h) h l.

Lemma reset_all_lookup e l h p :
  NoDup l → reset_all e l h !! p = (if decide (p ∈ l) then reset_txn e <$> h !! p else h !! p).
Proof.
  revert h. induction l as [|q l IH]; intros h Hnd; simpl; [done|].
  apply NoDup_cons in Hnd as [Hq Hnd]. rewrite IH by done. destruct (decide (p = q)) as [->|Hne].
  - rewrite decide_False by done. rewrite lookup_alter_eq. by rewrite decide_True by (by left).
  - rewrite lookup_alter_ne by done.
    destruct (decide (p ∈ l)) as [Hin|Hin]; [by rewrite decide_True by (by right)|].
    rewrite decide_False; [done|]. by intros [->|?]%elem_of_cons.
Qed.

Lemma objects_cons h p l :
  objects h (p :: l) = match h !! p with Some t => t :: objects h l | None => objects h l end.
Proof. done. Qed.

Lemma objects_ext h h' l : (∀ p, p ∈ l → h !! p = h' !! p) → objects h l = objects h' l.
Proof.
  induction l as [|p l IH]; intros E; [done|]. rewrite !objects_cons, (E p) by (by left).
  rewrite IH; [done|]. intros q Hq. apply E. by right.
Qed.

Lemma ptrs_where_ext h h' f l : (∀ p, p ∈ l → h !! p = h' !! p) → ptrs_where h f l = ptrs_where h' f l.
Proof.
  intros E. unfold ptrs_where. induction l as [|p l IH]; [done|]. rewrite !filter_cons.
  rewrite (E p) by (by left). rewrite IH; [done|]. intros q Hq. apply E. by right.
Qed.

Definition with_results (e : N) (l : list txn_ptr) (m : TransactionManager S) : TransactionManager S :=
  let h := tm_heap m in
  let reused := ptrs_where h reuses l in
  mkTM (reset_all e reused h) (enq_all (e + 1) reused (epochTxBuffer m)) (cleanedEpoch m)
    (processingEpoch m) (reuseTxWrapper m)
    (add_all (objects h (ptrs_where h (keeps true) l)) (blockGenerator m)) (currentEpoch m)
    (run_waits m) (finishing m) (sent m) (cleared m).

Lemma ptrs_where_cons h f p t l :
  h !! p = Some t → ptrs_where h f (p :: l) = (if f t then [p] else []) ++ ptrs_where h f l.
Proof.
  intros E. unfold ptrs_where. rewrite filter_cons, E. simpl.
  destruct (f t); [by rewrite decide_True|by rewrite decide_False].
Qed.

Lemma dcheck_eq n : DCHECK debug (n =? n) = Ok tt.
Proof. rewrite N.eqb_refl. by destruct debug. Qed.

Lemma categorize_step e p t w m :
  tm_heap m !! p = Some t → tr_epoch t = e →
  categorize_one debug reusing e p (w, m) =
  Ok (if reuses t
      then (w ++ [p], enqueue (e + 1) p (set_tm_heap (<[p := reset_txn e t]> (tm_heap m)) m))
      else (w, if keeps true t then add_committed t m else m)).
Proof.
  intros Et He. unfold categorize_one, keeps, reuses. rewrite Et. cbn [deref mbind outcome_bind].
  rewrite He, !dcheck_eq. cbn [mbind outcome_bind].
  destruct (transactionResult t); [by destruct reusing|by destruct reusing| |by destruct reusing].
  destruct reusing; [|done]. cbn [negb andb]. by rewrite bool_decide_eq_true_2.
Qed.

Lemma reuses_not_kept t : reuses t = true → keeps true t = false.
Proof.
  unfold reuses, keeps. intros [-> E%bool_decide_eq_true]%andb_true_iff. by rewrite E.
Qed.

(** The loop of [categorizeEpoch]. *)
Lemma categorize_loop e l w m :
  NoDup l → (∀ p, p ∈ l → ∃ t, tm_heap m !! p = Some t ∧ tr_epoch t = e) →
  foldM (categorize_one debug reusing e) l (w, m) =
  Ok (w ++ ptrs_where (tm_heap m) reuses l, with_results e l m).
Proof.
  revert w m. induction l as [|p l IH]; intros w m Hnd Hl.
  { simpl. rewrite app_nil_r. by destruct m. }
  apply NoDup_cons in Hnd as [Hp Hnd]. destruct (Hl p) as (t & Et & He); [by left|].
  cbn [foldM]. rewrite (categorize_step e p t w m Et He). cbn [mbind outcome_bind].
  assert (∀ q, q ∈ l → <[p := reset_txn e t]> (tm_heap m) !! q = tm_heap m !! q) as Hq.
  { intros q Hq. apply lookup_insert_ne. by intros ->. }
  unfold with_results. rewrite !(ptrs_where_cons _ _ p t l Et).
  destruct (reuses t) eqn:Er.
  - rewrite (reuses_not_kept t Er), IH; [|done|].
    + unfold with_results, enqueue, set_buffer, set_tm_heap.
      cbn [tm_heap epochTxBuffer cleanedEpoch processingEpoch reuseTxWrapper blockGenerator
           currentEpoch run_waits finishing sent cleared app].
      rewrite !(ptrs_where_ext (<[p := _]> _) (tm_heap m)) by done.
      rewrite (objects_ext (<[p := _]> _) (tm_heap m)) by (intros q [_ ?]%list_elem_of_filter; by apply Hq).
      rewrite <-app_assoc. do 3 f_equal. unfold reset_all. cbn [foldl]. f_equal.
      apply map_eq. intros q. destruct (decide (q = p)) as [->|Hne].
      * by rewrite lookup_insert_eq, lookup_alter_eq, Et.
      * by rewrite lookup_insert_ne, lookup_alter_ne.
    + intros q Hin. cbn. rewrite Hq by done. apply Hl. by right.
  - rewrite IH; [|done|].
    + destruct (keeps true t); [|done]. unfold with_results.
      cbn [app]. rewrite objects_cons, Et. done.
    + intros q Hin. replace (tm_heap _) with (tm_heap m) by (by destruct (keeps true t)).
      apply Hl. by right.
Qed.

(** The loop of [nonCategorizeEpoch]. *)
Lemma nonCategorize_loop e l m :
  (∀ p, p ∈ l → ∃ t, tm_heap m !! p = Some t ∧ tr_epoch t = e) →
  foldM (nonCategorize_one debug e) l m =
  Ok (set_generator (add_all (objects (tm_heap m) l) (blockGenerator m)) m).
Proof.
  revert m. induction l as [|p l IH]; intros m Hl.
  { simpl. by destruct m. }
  destruct (Hl p) as (t & Et & He); [by left|]. cbn [foldM].
  assert (nonCategorize_one debug e p m = Ok (add_committed t m)) as ->.
  { unfold nonCategorize_one. rewrite Et. cbn [deref mbind outcome_bind]. by rewrite He, dcheck_eq. }
  cbn [mbind outcome_bind]. rewrite IH; [|intros q Hq; apply Hl; by right].
  by rewrite objects_cons, Et.
Qed.

End Loops.

(** ** Runs of the manager *)
Section ManagerRuns.
Context `{Protobuf} `{BlockProto} {S : Type} `{BlockStorage S}.
Context (debug categorize reusing async : bool).
Context (rsaEncrypt : list N → option (list N)) (localDecrypt : list N → list N → bool)
  (rsaDecrypt : string → list N → list N → bool).
Local Notation tm := (TransactionManager S).
Local Notation callback_begin := (callback_begin debug categorize reusing).

(** The identity of a transaction, which its execution does not change. *)
Definition ident (t : Transaction) : N * N := (tr_tid t, tr_epoch t).
Definition executes (h h' : txn_heap) : Prop := ∀ p, ident <$> h' !! p = ident <$> h !! p.

(** Every transaction of the epoch has a result. *)
Definition all_decided (e : N) (m : tm) : Prop :=
  ∀ p t, p ∈ queue e (epochTxBuffer m) → tm_heap m !! p = Some t → transactionResult t ≠ PENDING.

(** The first argument is the storage at the start, the list the pointers
    received so far.  The communication module returns new objects of the
    epoch it is asked for, the executors change results and read-write sets,
    and the coordinator reports the epochs in order, each after [run] has moved
    on and every transaction of it has a result. *)
Inductive tm_run (s : S) : list txn_ptr → tm → Prop :=
  | tm_start : tm_run s [] (setBlockGenerator (new_BlockGenerator s) ∅)
  | tm_receive batch received m :
      tm_run s received m → run_waits m = false → NoDup batch.*1 →
      (∀ p, p ∈ batch.*1 → tm_heap m !! p = None) →
      Forall (λ t, tr_epoch t = currentEpoch m) batch.*2 →
      tm_run s (received ++ batch.*1) (run_receive batch m)
  | tm_next received m :
      tm_run s received m → run_waits m = false → tm_run s received (run_next reusing m)
  | tm_resume received m m' :
      tm_run s received m → run_waits m = true → run_resume m = Some m' → tm_run s received m'
  | tm_execute h received m :
      tm_run s received m → executes (tm_heap m) h → tm_run s received (set_tm_heap h m)
  | tm_begin received m m' :
      tm_run s received m → finishing m = None → processingEpoch m < currentEpoch m →
      all_decided (processingEpoch m) m →
      callback_begin (processingEpoch m) m = Ok m' → tm_run s received m'
  | tm_end e received m :
      tm_run s received m → finishing m = Some e → callback_ready async e m = true →
      tm_run s received (callback_end e m)
  | tm_generator g received m :
      tm_run s received m →
      gen_internal debug rsaEncrypt localDecrypt rsaDecrypt (blockGenerator m) g →
      tm_run s received (set_generator g m).

(** *** The invariant *)
(** The object handed to the block generator for a pointer: the epoch it
    finished in, its id, and a result that belongs into a block. *)
Definition sealed (h : txn_heap) (e : N) (p : txn_ptr) (t : Transaction) : Prop :=
  tr_epoch t = e ∧ tr_tid <$> h !! p = Some (tr_tid t) ∧ keeps reusing true t = true.

Record tm_ok (s : S) (received : list txn_ptr) (ptrs : list (list txn_ptr))
    (batches : list (list Transaction)) (m : tm) : Prop := {
  ok_gen : gen_run debug rsaEncrypt localDecrypt rsaDecrypt s batches [] (blockGenerator m);
  ok_received : received ≡ₚ concat ptrs ++ buffered (epochTxBuffer m);
  ok_nodup : NoDup received;
  ok_heap p : p ∈ received → is_Some (tm_heap m !! p);
  ok_queue e p : p ∈ queue e (epochTxBuffer m) →
    (∃ t, tm_heap m !! p = Some t ∧ tr_epoch t = e) ∧ processingEpoch m ≤ e ≤ currentEpoch m;
  ok_length : length ptrs = length batches;
  ok_sealed i ps ts : ptrs !! i = Some ps → batches !! i = Some ts →
    Forall2 (sealed (tm_heap m) (getLatestSavedEpoch s + 1 + N.of_nat i)) ps ts;
  ok_epoch : processingEpoch m + (if finishing m then 1 else 0) =
    getLatestSavedEpoch s + 1 + N.of_nat (length batches);
  ok_finishing e : finishing m = Some e →
    e = processingEpoch m ∧ queue e (epochTxBuffer m) = [] ∧ e < currentEpoch m;
  ok_current : processingEpoch m ≤ currentEpoch m }.

Lemma gen_run_add s batches cur g ts :
  gen_run debug rsaEncrypt localDecrypt rsaDecrypt s batches cur g →
  gen_run debug rsaEncrypt localDecrypt rsaDecrypt s batches (cur ++ ts) (add_all ts g).
Proof.
  revert cur g. induction ts as [|t ts IH]; intros cur g Hg; simpl; [by rewrite app_nil_r|].
  rewrite cons_middle, app_assoc. apply IH. by apply run_add.
Qed.

Lemma sealed_heap (h h' : txn_heap) e p t :
  tr_tid <$> h' !! p = tr_tid <$> h !! p → sealed h e p t → sealed h' e p t.
Proof. intros E (H1' & H2' & H3'). split_and!; [done|by rewrite E|done]. Qed.

Lemma sealed_same h h' ptrs (batches : list (list Transaction)) b :
  (∀ p, p ∈ concat ptrs → tr_tid <$> h' !! p = tr_tid <$> h !! p) →
  (∀ i ps ts, ptrs !! i = Some ps → batches !! i = Some ts →
     Forall2 (sealed h (b + N.of_nat i)) ps ts) →
  ∀ i ps ts, ptrs !! i = Some ps → batches !! i = Some ts →
     Forall2 (sealed h' (b + N.of_nat i)) ps ts.
Proof.
  intros Hh Hs i ps ts Hp Ht. specialize (Hs i ps ts Hp Ht).
  rewrite Forall2_lookup in Hs |- *. intros j. specialize (Hs j).
  destruct (ps !! j) as [p|] eqn:Ep, (ts !! j) as [t|]; inversion Hs as [? ? Hpt|]; subst; constructor.
  apply (sealed_heap h); [|done]. apply Hh.
  apply list_elem_of_In, List.in_concat. exists ps.
  split; apply list_elem_of_In; by eapply list_elem_of_lookup_2.
Qed.

Lemma ident_tid (h h' : txn_heap) p :
  ident <$> h' !! p = ident <$> h !! p → tr_tid <$> h' !! p = tr_tid <$> h !! p.
Proof.
  destruct (h' !! p), (h !! p); simpl; try done. intros [= -> _]. done.
Qed.

Lemma received_sealed s received ptrs batches m p :
  tm_ok s received ptrs batches m → p ∈ concat ptrs → p ∈ received.
Proof. intros [] Hp. rewrite ok_received0. apply elem_of_app. by left. Qed.

Lemma received_queued s received ptrs batches m e p :
  tm_ok s received ptrs batches m → p ∈ queue e (epochTxBuffer m) → p ∈ received.
Proof. intros [] Hp. rewrite ok_received0. apply elem_of_app. right. by eapply elem_buffered. Qed.

Lemma start_tm_ok s : tm_ok s [] [] [] (setBlockGenerator (new_BlockGenerator s) ∅).
Proof.
  split; simpl; try done; try lia.
  - apply run_start.
  - constructor.
  - by intros p ?%not_elem_of_nil.
  - intros e p Hp. exfalso. unfold queue in Hp. rewrite lookup_empty in Hp.
    by apply not_elem_of_nil in Hp.
Qed.

Lemma receive_buffer ptrs (m : tm) :
  foldl (λ m p, enqueue (currentEpoch m) p m) m ptrs =
  set_buffer (enq_all (currentEpoch m) ptrs (epochTxBuffer m)) m.
Proof.
  revert m. induction ptrs as [|p ptrs IH]; intros m; simpl; [by destruct m|]. by rewrite IH.
Qed.

Lemma receive_ok s received ptrs batches m batch :
  tm_ok s received ptrs batches m → NoDup batch.*1 →
  (∀ p, p ∈ batch.*1 → tm_heap m !! p = None) →
  Forall (λ t, tr_epoch t = currentEpoch m) batch.*2 →
  tm_ok s (received ++ batch.*1) ptrs batches (run_receive batch m).
Proof.
  intros Hm Hnd Hfresh Hep. pose proof Hm as []. unfold run_receive. rewrite receive_buffer. simpl.
  set (h' := list_to_map batch ∪ tm_heap m).
  assert (∀ p, p ∈ received → h' !! p = tm_heap m !! p) as Hold.
  { intros p Hp. destruct (ok_heap0 p Hp) as [t Ht]. rewrite Ht. unfold h'. apply lookup_union_Some_raw.
    right. split; [|done]. apply not_elem_of_list_to_map_1. intros Hin. rewrite Hfresh in Ht; done. }
  assert (∀ p t, (p, t) ∈ batch → h' !! p = Some t) as Hnew.
  { intros p t Hin. unfold h'. apply lookup_union_Some_l. by apply elem_of_list_to_map_1. }
  split; simpl; try done.
  - by rewrite buffered_enq_all, ok_received0, <-app_assoc, (Permutation_app_comm _ batch.*1).
  - apply NoDup_app. split_and!; [done| |done]. intros p Hp Hin.
    destruct (ok_heap0 p Hp) as [t Ht]. by rewrite Hfresh in Ht.
  - intros p [Hp|Hp]%elem_of_app; [rewrite Hold; auto|].
    apply list_elem_of_fmap in Hp as ([p' t] & -> & Hp). exists t. by apply Hnew.
  - intros e p Hp. rewrite queue_enq_all in Hp. destruct (decide _) as [<-|Hne].
    + apply elem_of_app in Hp as [Hp|Hp].
      * rewrite Hold by (by eapply received_queued). by apply ok_queue0.
      * apply list_elem_of_fmap in Hp as ([p' t] & -> & Hp). simpl. split; [|lia]. exists t.
        split; [by apply Hnew|]. rewrite Forall_forall in Hep. apply Hep.
        apply list_elem_of_fmap. by exists (p', t).
    + rewrite Hold by (by eapply received_queued). by apply ok_queue0.
  - apply (sealed_same (tm_heap m)); [|done]. intros p Hp. by rewrite Hold by (by eapply received_sealed).
  - intros e He. destruct (ok_finishing0 e He) as (-> & Hq & Hlt). split_and!; [done| |done].
    rewrite queue_enq_all, decide_False by lia. done.
Qed.

(** *** The end of an epoch *)
Lemma ptrs_where_all h f l :
  (∀ p, p ∈ l → ∃ t, h !! p = Some t ∧ f t = true) → ptrs_where h f l = l.
Proof.
  induction l as [|p l IH]; intros Hl; [done|]. destruct (Hl p) as (t & Et & Ht); [by left|].
  rewrite (ptrs_where_cons h f p t l Et), Ht. simpl. f_equal. apply IH. intros q Hq. apply Hl. by right.
Qed.

Lemma ptrs_where_none h f l : (∀ t, f t = false) → ptrs_where h f l = [].
Proof.
  intros Hf. unfold ptrs_where. induction l as [|p l IH]; [done|].
  rewrite filter_cons_False; [done|]. destruct (h !! p); simpl; [by rewrite Hf|done].
Qed.

Lemma decided_one t :
  transactionResult t ≠ PENDING → reuses reusing t = negb (keeps reusing true t).
Proof. unfold keeps, reuses. by destruct (transactionResult t), reusing. Qed.

(** Kept or reused: every decided transaction is one of the two. *)
Lemma decided_split h l :
  (∀ p, p ∈ l → ∃ t, h !! p = Some t ∧ transactionResult t ≠ PENDING) →
  l ≡ₚ ptrs_where h (keeps reusing true) l ++ ptrs_where h (reuses reusing) l.
Proof.
  induction l as [|p l IH]; intros Hl; [done|]. destruct (Hl p) as (t & Et & Ht); [by left|].
  rewrite !(ptrs_where_cons _ _ p t l Et). rewrite <-(app_assoc _ _ (_ ++ _)).
  assert (l ≡ₚ ptrs_where h (keeps reusing true) l ++ ptrs_where h (reuses reusing) l) as IHl.
  { apply IH. intros q Hq. apply Hl. by right. }
  rewrite (decided_one t Ht). destruct (keeps reusing true t); simpl.
  - by rewrite <-IHl.
  - by rewrite <-Permutation_middle, <-IHl.
Qed.

(** The state after the first half of the callback. *)
Definition epoch_closed (e : N) (w : option (list txn_ptr)) (m : tm) : tm :=
  let m1 := with_results reusing e (queue e (epochTxBuffer m))
              (set_buffer (<[e := []]> (epochTxBuffer m)) m) in
  mkTM (tm_heap m1) (epochTxBuffer m1) (cleanedEpoch m1) (processingEpoch m1) w
    (generateBlock (blockGenerator m1)) (currentEpoch m1) (run_waits m1) (Some e) (sent m1) (cleared m1).

Lemma begin_eq e m :
  NoDup (queue e (epochTxBuffer m)) →
  (∀ p, p ∈ queue e (epochTxBuffer m) → ∃ t, tm_heap m !! p = Some t ∧ tr_epoch t = e) →
  all_decided e m → ∃ w, callback_begin e m = Ok (epoch_closed e w m).
Proof.
  intros Hnd Hl Hdec. unfold callback_begin, categorizeEpoch, nonCategorizeEpoch, epoch_closed.
  destruct (categorize || reusing) eqn:E.
  - rewrite categorize_loop by done. eexists. done.
  - apply orb_false_iff in E as [_ Er]. rewrite nonCategorize_loop by done.
    exists (reuseTxWrapper m). cbn [mbind outcome_bind]. unfold with_results.
    cbn [tm_heap set_buffer]. rewrite (ptrs_where_none _ (reuses reusing))
      by (intros t; unfold reuses; by rewrite Er).
    rewrite (ptrs_where_all _ (keeps reusing true)); [done|]. intros p Hp.
    destruct (Hl p Hp) as (t & Et & _). exists t. split; [done|]. specialize (Hdec p t Hp Et).
    unfold keeps. rewrite Er. by destruct (transactionResult t).
Qed.

Lemma objects_sealed (h h' : txn_heap) e l :
  (∀ p, p ∈ l → ∃ t, h !! p = Some t ∧ tr_epoch t = e ∧ keeps reusing true t = true ∧
      tr_tid <$> h' !! p = Some (tr_tid t)) →
  Forall2 (sealed h' e) l (objects h l).
Proof.
  induction l as [|p l IH]; intros Hl; [constructor|].
  destruct (Hl p) as (t & Et & He & Hk & Ht); [by left|]. rewrite objects_cons, Et.
  constructor; [done|]. apply IH. intros q Hq. apply Hl. by right.
Qed.

Lemma closed_ok s received ptrs batches m e w :
  tm_ok s received ptrs batches m → finishing m = None → e = processingEpoch m →
  e < currentEpoch m → all_decided e m →
  let kept := ptrs_where (tm_heap m) (keeps reusing true) (queue e (epochTxBuffer m)) in
  tm_ok s received (ptrs ++ [kept]) (batches ++ [objects (tm_heap m) kept]) (epoch_closed e w m).
Proof.
  intros Hm Hf -> Hlt Hdec. pose proof Hm as []. set (e := processingEpoch m) in *.
  set (l := queue e (epochTxBuffer m)) in *. set (h := tm_heap m) in *. intros kept.
  set (reused := ptrs_where h (reuses reusing) l).
  assert (NoDup l) as Hndl.
  { rewrite ok_received0, (buffered_split e) in ok_nodup0. apply NoDup_app in ok_nodup0 as (_ & _ & Hb).
    by apply NoDup_app in Hb as (Hb & _). }
  assert (NoDup reused) as Hndr by (by apply NoDup_filter).
  assert (∀ p, p ∈ l → ∃ t, h !! p = Some t ∧ tr_epoch t = e) as Hl.
  { intros p Hp. by apply ok_queue0. }
  assert (∀ p, p ∈ reused → p ∈ l) as Hrl by (intros p [_ ?]%list_elem_of_filter; done).
  set (h' := reset_all e reused h).
  assert (∀ p, tr_tid <$> h' !! p = tr_tid <$> h !! p) as Htid.
  { intros p. unfold h'. rewrite reset_all_lookup by done.
    destruct (decide _); [|done]. by destruct (h !! p). }
  assert (∀ p, p ∉ reused → h' !! p = h !! p) as Hsame.
  { intros p Hp. unfold h'. by rewrite reset_all_lookup, decide_False by done. }
  assert (∀ i, e = getLatestSavedEpoch s + 1 + N.of_nat i ↔ i = length batches) as Hidx.
  { intros i. rewrite Hf in ok_epoch0. lia. }
  split; simpl; fold h l e; fold reused; fold h'.
  - apply run_generate. fold kept. by apply (gen_run_add s batches []).
  - rewrite ok_received0, concat_app, (buffered_clear e), buffered_enq_all. fold l. simpl.
    rewrite app_nil_r. rewrite (decided_split h l) at 1.
    + fold kept reused. by rewrite <-!app_assoc.
    + intros p Hp. destruct (Hl p Hp) as (t & Et & _). exists t. split; [done|]. by eapply Hdec.
  - done.
  - intros p Hp. apply ok_heap0 in Hp. fold h in Hp. specialize (Htid p).
    destruct Hp as [t Ht]. rewrite Ht in Htid. destruct (h' !! p); [by eexists|done].
  - intros e' p. rewrite queue_enq_all, !queue_insert.
    rewrite (decide_False (P := e = e + 1)) by lia.
    assert (p ∈ queue e' (epochTxBuffer m) → e ≠ e' → (∃ t, h' !! p = Some t ∧ tr_epoch t = e') ∧
      e ≤ e' ≤ currentEpoch m) as Hold.
    { intros Hp Hne. destruct (ok_queue0 e' p Hp) as [(t & Et & He) Hr]. split; [|done].
      exists t. split; [|done]. rewrite Hsame; [done|]. intros Hin.
      destruct (Hl p (Hrl p Hin)) as (t' & Et' & He'). fold h in Et. congruence. }
    destruct (decide (e + 1 = e')) as [<-|Hne1].
    + intros [Hp|Hp]%elem_of_app; [apply Hold; [done|lia]|]. split; [|lia].
      destruct (Hl p (Hrl p Hp)) as (t & Et & _). exists (reset_txn e t). split; [|done].
      unfold h'. by rewrite reset_all_lookup, decide_True, Et by done.
    + destruct (decide (e = e')) as [<-|Hne]; [by intros ?%not_elem_of_nil|]. intros Hp. by apply Hold.
  - rewrite !length_app. simpl. by rewrite ok_length0.
  - intros i ps ts Hps Hts. destruct (decide (i = length batches)) as [->|Hne].
    + rewrite <-ok_length0, list_lookup_middle in Hps by done. rewrite list_lookup_middle in Hts by done.
      injection Hps as <-. injection Hts as <-. rewrite <-(proj2 (Hidx _) eq_refl).
      apply objects_sealed. intros p [Hk Hp]%list_elem_of_filter.
      destruct (Hl p Hp) as (t & Et & He). rewrite Et in Hk. exists t.
      split_and!; [done|done|done|]. by rewrite Htid, Et.
    + apply lookup_snoc_Some in Hps as [[Hi Hps]|[? _]]; [|lia].
      apply lookup_snoc_Some in Hts as [[Hi' Hts]|[? _]]; [|lia].
      eapply (sealed_same h h' ptrs batches); [intros p _; apply Htid|done|done|done].
  - rewrite Hf in ok_epoch0. rewrite length_app. simpl. fold e in ok_epoch0. lia.
  - intros e' [= <-]. split_and!; [done| |done].
    rewrite queue_enq_all, decide_False by lia. by rewrite queue_insert, decide_True.
  - done.
Qed.

Lemma execute_ok s received ptrs batches m h :
  tm_ok s received ptrs batches m → executes (tm_heap m) h →
  tm_ok s received ptrs batches (set_tm_heap h m).
Proof.
  intros [] Hx. split; simpl; try done.
  - intros p Hp. destruct (ok_heap0 p Hp) as [t Ht]. specialize (Hx p). rewrite Ht in Hx.
    destruct (h !! p); [by eexists|done].
  - intros e p Hp. destruct (ok_queue0 e p Hp) as [(t & Et & He) Hr]. split; [|done].
    specialize (Hx p). rewrite Et in Hx. destruct (h !! p) as [t'|]; [|done]. exists t'.
    split; [done|]. simpl in Hx. injection Hx as _ Hx. congruence.
  - apply (sealed_same (tm_heap m)); [|done]. intros p _. by apply ident_tid.
Qed.

Lemma end_ok s received ptrs batches m e :
  tm_ok s received ptrs batches m → finishing m = Some e →
  tm_ok s received ptrs batches (callback_end e m).
Proof.
  intros [] Hf. destruct (ok_finishing0 e Hf) as (-> & Hq & Hlt).
  rewrite Hf in ok_epoch0. split; simpl; try done; try lia.
  - by rewrite ok_received0, (buffered_split (processingEpoch m)), Hq.
  - intros e p. rewrite queue_delete. destruct (decide _) as [|Hne]; [by intros ?%not_elem_of_nil|].
    intros Hp. destruct (ok_queue0 e p Hp) as [? ?]. split; [done|lia].
Qed.

Lemma tm_run_ok s received m :
  tm_run s received m → ∃ ptrs batches, tm_ok s received ptrs batches m.
Proof.
  induction 1 as [|batch received m _ (ptrs & batches & Hm) Hw Hnd Hfr Hep
    |received m _ (ptrs & batches & Hm) Hw|received m m' _ (ptrs & batches & Hm) Hw E
    |h received m _ (ptrs & batches & Hm) Hx|received m m' _ (ptrs & batches & Hm) Hf Hlt Hdec E
    |e received m _ (ptrs & batches & Hm) Hf Hr|g received m _ (ptrs & batches & Hm) Hg].
  - exists [], []. apply start_tm_ok.
  - exists ptrs, batches. by apply receive_ok.
  - exists ptrs, batches. destruct Hm. split; simpl; try done; try lia.
    + intros e p Hp. destruct (ok_queue0 e p Hp). split; [done|lia].
    + intros e He. destruct (ok_finishing0 e He) as (? & ? & ?). split_and!; [done|done|lia].
  - exists ptrs, batches. destruct Hm. unfold run_resume in E. destruct (_ <=? _); [|done].
    injection E as <-. by split.
  - exists ptrs, batches. by apply execute_ok.
  - pose proof Hm as []. destruct (begin_eq (processingEpoch m) m) as [w Ew]; [| |done|].
    + rewrite ok_received0, (buffered_split (processingEpoch m)) in ok_nodup0.
      apply NoDup_app in ok_nodup0 as (_ & _ & Hb). by apply NoDup_app in Hb as (Hb & _).
    + intros p Hp. by apply ok_queue0.
    + rewrite Ew in E. injection E as <-. do 2 eexists. by apply closed_ok.
  - exists ptrs, batches. by apply end_ok.
  - exists ptrs, batches. destruct Hm. split; simpl; try done. by eapply run_internal.
Qed.

(** C17: no transaction is lost or sealed twice.  In every run of the manager and
    the block generator the transactions received so far are exactly those
    handed to the generator, epoch by epoch, and those still queued, each once;
    what was sealed for an epoch ran in that epoch and carries a result that
    belongs into a block (in reusing mode no [ABORT]: those are queued for the
    next epoch); queued transactions carry the epoch of their queue, which is
    neither finished nor ahead of the receiving thread.  The block generator
    runs through these batches, so its chain theorem applies to them, and the
    next callback never fails a check. *)
Theorem manager_conserves s received m :
  tm_run s received m →
  NoDup received ∧
  (∃ ptrs batches,
    received ≡ₚ concat ptrs ++ buffered (epochTxBuffer m) ∧
    gen_run debug rsaEncrypt localDecrypt rsaDecrypt s batches [] (blockGenerator m) ∧
    length ptrs = length batches ∧
    (∀ i ps ts, ptrs !! i = Some ps → batches !! i = Some ts →
       Forall2 (sealed (tm_heap m) (getLatestSavedEpoch s + 1 + N.of_nat i)) ps ts) ∧
    processingEpoch m + (if finishing m then 1 else 0) =
      getLatestSavedEpoch s + 1 + N.of_nat (length batches)) ∧
  (∀ e p, p ∈ queue e (epochTxBuffer m) →
     tr_epoch <$> tm_heap m !! p = Some e ∧ processingEpoch m ≤ e ≤ currentEpoch m) ∧
  (all_decided (processingEpoch m) m → ∃ m', callback_begin (processingEpoch m) m = Ok m').
Proof.
  intros Hrun. destruct (tm_run_ok s received m Hrun) as (ptrs & batches & []).
  split_and!; [done|by exists ptrs, batches| |].
  - intros e p Hp. destruct (ok_queue0 e p Hp) as [(t & -> & <-) ?]. done.
  - intros Hdec. destruct (begin_eq (processingEpoch m) m) as [w Ew]; [| |done|by eexists].
    + rewrite ok_received0, (buffered_split (processingEpoch m)) in ok_nodup0.
      apply NoDup_app in ok_nodup0 as (_ & _ & Hb). by apply NoDup_app in Hb as (Hb & _).
    + intros p Hp. by apply ok_queue0.
Qed.

End ManagerRuns.

(** ** A run in reusing mode: one transaction commits, one is carried over *)
Module ManagerDemo.

#[local] Existing Instance Varint.varint_protobuf.
#[local] Existing Instance BlockBits.bits_proto.
Import GeneratorRuns.

Definition txn_in (e tid : N) : Transaction := setEpoch e (txn tid).
Definition aborted (e tid : N) : Transaction := setTransactionResult ABORT (txn_in e tid).
Definition m0 : TransactionManager BlockStorageToDB :=
  setBlockGenerator (new_BlockGenerator mem_start) ∅.
Definition m1 := run_next true (run_receive [(10, txn_in 1 3); (11, aborted 1 5)] m0).
Definition m2 := get m1 (callback_begin false true true 1 m1).
Definition m3 := callback_end 1 m2.

Lemma run_m3 : tm_run false true true true sign check check_ip mem_start [10; 11] m3.
Proof.
  apply (tm_end false true true true sign check check_ip mem_start 1 [10; 11] m2);
    [|reflexivity|reflexivity].
  apply (tm_begin false true true true sign check check_ip mem_start [10; 11] m1);
    [|reflexivity|reflexivity| |reflexivity].
  - apply (tm_next _ _ _ _ _ _ _ _ [10; 11]); [|reflexivity].
    apply (tm_receive _ _ _ _ _ _ _ _ [(10, txn_in 1 3); (11, aborted 1 5)] [] m0);
      [apply tm_start|reflexivity| | |].
    + apply NoDup_cons. split; [set_solver|apply NoDup_singleton].
    + intros p _. apply lookup_empty.
    + by repeat constructor.
  - intros p t Hp. change (queue 1 (epochTxBuffer m1)) with [10; 11] in Hp.
    apply elem_of_cons in Hp as [->|Hp]; [by intros [= <-]|].
    apply list_elem_of_singleton in Hp as ->. by intros [= <-].
Qed.

Lemma manager_conserves_witness :
  NoDup [10; 11] ∧
  (∃ ptrs batches,
    [10; 11] ≡ₚ concat ptrs ++ buffered (epochTxBuffer m3) ∧
    gen_run false sign check check_ip mem_start batches [] (blockGenerator m3) ∧
    length ptrs = length batches ∧
    (∀ i ps ts, ptrs !! i = Some ps → batches !! i = Some ts →
       Forall2 (sealed true (tm_heap m3) (0 + 1 + N.of_nat i)) ps ts) ∧
    2 + 0 = 0 + 1 + N.of_nat (length batches)) ∧
  (∀ e p, p ∈ queue e (epochTxBuffer m3) →
     tr_epoch <$> tm_heap m3 !! p = Some e ∧ 2 ≤ e ≤ 2) ∧
  (all_decided 2 m3 → ∃ m', callback_begin false true true 2 m3 = Ok m').
Proof.
  exact (manager_conserves false true true true sign check check_ip mem_start [10; 11] m3 run_m3).
Defined.

(** The aborted transaction waits in the queue of epoch 2. *)
Example reused_queue : queue 2 (epochTxBuffer m3) = [11].
Proof. reflexivity. Qed.

End ManagerDemo.
