(* ===== verification/ConsensusControl.v ===== *)
(** * The consensus control block

    [consensus_control_block.h]: every block server tells the others, through
    its raft group, that it finished an epoch ([CON]), that it is alive
    ([HEARTBEAT]) and which server it holds for malicious since which epoch
    ([MALICIOUS]).  f+1 accusations for the same epoch exclude a server.  The
    coordinator waits until every server has finished the epoch or is excluded.

    The two mutexes make [recvProofSet] atomic.  Raft delivers the messages; the
    clock is an argument.  The handle called for an excluded server is the one
    the client proxy installs ([client_proxy.cpp]). *)
From S2P Require Import Prelude EpochQueues.
From Stdlib Require Import ZArith NArith Lia.
From stdpp Require Import base list gmap strings.

Local Open Scope N_scope.

Record ProxyBlock := mkProxy {
  latestEpoch : N;
  lastHeartbeat : Z;
  pb_isValid : bool;
  epochVoters : gmap N (gset string);
  firstInvalidEpoch : N }.

Definition new_proxy : ProxyBlock := mkProxy 0 0 true ∅ 0.

Inductive proof_type := TX | CON | HEARTBEAT | MALICIOUS.
Record TransactionsWithProof := mkProof {
  ps_epoch : N;
  ps_type : proof_type;
  ps_proof : string;
  ps_ip : string;
  ps_data : list (list N) }.

Record ConsensusControlBlock := mkCCB {
  start : bool;
  totalServerCount : Z;
  epochApproveMap : list (gset string);
  epochStaleBit : list bool;
  proxiesTimeout : gmap string ProxyBlock;
  (** The table of the client proxy. *)
  invalidBits : gmap string (N * bool);
  (** Messages handed to the local raft leader. *)
  outbox : list TransactionsWithProof }.

(** The constructor, and [invalidBits] for the configured servers. *)
Definition new_CCB (ips : list string) : ConsensusControlBlock :=
  mkCCB false 0 (replicate (N.to_nat MAX_EPOCH) ∅) (replicate (N.to_nat MAX_EPOCH) false) ∅
    (list_to_map ((λ ip, (ip, (0, false))) <$> ips)) [].

Definition setConsensusCount (total : Z) (c : ConsensusControlBlock) : outcome ConsensusControlBlock :=
  CHECK (negb (start c));;
  Ok (mkCCB (start c) total (epochApproveMap c) (epochStaleBit c) (proxiesTimeout c) (invalidBits c)
        (outbox c)).

Definition ccb_startService (c : ConsensusControlBlock) : outcome ConsensusControlBlock :=
  CHECK (negb (start c));;
  Ok (mkCCB true (totalServerCount c) (epochApproveMap c) (epochStaleBit c) (proxiesTimeout c)
        (invalidBits c) (outbox c)).

(** [proxiesTimeout[ip]] creates a block. *)
Definition proxy (ip : string) (c : ConsensusControlBlock) : ProxyBlock :=
  default new_proxy (proxiesTimeout c !! ip).
Definition set_proxy (ip : string) (b : ProxyBlock) (c : ConsensusControlBlock)
    : ConsensusControlBlock :=
  mkCCB (start c) (totalServerCount c) (epochApproveMap c) (epochStaleBit c)
    (<[ip := b]> (proxiesTimeout c)) (invalidBits c) (outbox c).
Definition set_approvals (m : list (gset string)) (stale : list bool) (c : ConsensusControlBlock)
    : ConsensusControlBlock :=
  mkCCB (start c) (totalServerCount c) m stale (proxiesTimeout c) (invalidBits c) (outbox c).

Definition confirmedClientProxy (observerId : string) (epoch : N) (c : ConsensusControlBlock)
    : outcome ConsensusControlBlock :=
  in_range epoch;;
  Ok (set_approvals (alter (λ s, {[observerId]} ∪ s) (N.to_nat epoch) (epochApproveMap c))
        (epochStaleBit c) c).

(** The handle of the client proxy. *)
Definition maliciousBroadcastHandle (maliciousId : string) (maliciousEpoch : N)
    (c : ConsensusControlBlock) : outcome ConsensusControlBlock :=
  let pair := default (0, false) (invalidBits c !! maliciousId) in
  CHECK (pair.1 =? 0);;
  Ok (mkCCB (start c) (totalServerCount c) (epochApproveMap c) (epochStaleBit c) (proxiesTimeout c)
        (<[maliciousId := (maliciousEpoch, true)]> (invalidBits c)) (outbox c)).

(** The loop of [maliciousTarget] over the epochs from [epoch]. *)
Definition approve_from (epoch : N) (ip : string) (m : list (gset string)) : list (gset string) :=
  imap (λ i s, if (N.to_nat epoch <=? i)%nat then {[ip]} ∪ s else s) m.

Definition maliciousTarget (targetId : string) (epoch : N) (c : ConsensusControlBlock)
    : outcome ConsensusControlBlock :=
  let targetCB := proxy targetId c in
  let c := set_proxy targetId
             (mkProxy (latestEpoch targetCB) (lastHeartbeat targetCB) false (epochVoters targetCB) epoch) c in
  c ← maliciousBroadcastHandle targetId epoch c;
  in_range epoch;;
  Ok (set_approvals (approve_from epoch targetId (epochApproveMap c))
        (<[N.to_nat epoch := true]> (epochStaleBit c)) c).

Definition obtainMalicious (observerId targetId : string) (epoch : N) (c : ConsensusControlBlock)
    : outcome ConsensusControlBlock :=
  let targetCB := proxy targetId c in
  if negb (pb_isValid targetCB) then Ok (set_proxy targetId targetCB c)
  else
    let voters := {[observerId]} ∪ default ∅ (epochVoters targetCB !! epoch) in
    let c := set_proxy targetId
               (mkProxy (latestEpoch targetCB) (lastHeartbeat targetCB) (pb_isValid targetCB)
                  (<[epoch := voters]> (epochVoters targetCB)) (firstInvalidEpoch targetCB)) c in
    if (Z.quot (totalServerCount c - 1) 3 + 1 <=? Z.of_nat (size voters))%Z
    then maliciousTarget targetId epoch c else Ok c.

Definition recvProofSet (now : Z) (proofSet : TransactionsWithProof) (c : ConsensusControlBlock)
    : outcome ConsensusControlBlock :=
  if negb (start c) then Ok c
  else
    let emitter := ps_ip proofSet in
    if match proxiesTimeout c !! emitter with Some b => negb (pb_isValid b) | None => false end then Ok c
    else
      let blk := proxy emitter c in
      match ps_type proofSet with
      | HEARTBEAT =>
          CHECK (pb_isValid blk);;
          Ok (set_proxy emitter
                (mkProxy (latestEpoch blk) now (pb_isValid blk) (epochVoters blk) (firstInvalidEpoch blk)) c)
      | CON =>
          CHECK (pb_isValid blk);;
          confirmedClientProxy emitter (ps_epoch proofSet)
            (set_proxy emitter
               (mkProxy (ps_epoch proofSet) now (pb_isValid blk) (epochVoters blk) (firstInvalidEpoch blk)) c)
      | MALICIOUS =>
          let c := set_proxy emitter blk c in
          if negb (pb_isValid blk) then Ok c
          else obtainMalicious emitter (ps_proof proofSet) (ps_epoch proofSet) c
      | TX => Ok c
      end.

(** The condition [waitForEpochFinish] waits for. *)
Definition waitForEpochFinish (epoch : N) (c : ConsensusControlBlock) : outcome bool :=
  s ← at_index (epochApproveMap c) (N.to_nat epoch);
  Ok (Z.of_nat (size s) =? totalServerCount c)%Z.

Definition needReReserve (epoch : N) (c : ConsensusControlBlock) : outcome bool :=
  at_index (epochStaleBit c) (N.to_nat epoch).

(** The result is [true] for a valid server, whatever the name says. *)
Definition isCurrentEpochInvalid (ip : string) (epoch : N) (c : ConsensusControlBlock) : bool :=
  if pb_isValid (proxy ip c) then true else firstInvalidEpoch (proxy ip c) <=? epoch.

(** ** The sending side *)
Definition send (m : TransactionsWithProof) (c : ConsensusControlBlock) : ConsensusControlBlock :=
  mkCCB (start c) (totalServerCount c) (epochApproveMap c) (epochStaleBit c) (proxiesTimeout c)
    (invalidBits c) (outbox c ++ [m]).

Definition broadcastMaliciousViewChange (localIP maliciousIP : string) (maliciousEpoch : N)
    (c : ConsensusControlBlock) : ConsensusControlBlock :=
  send (mkProof maliciousEpoch MALICIOUS maliciousIP localIP []) c.

(** [span > 3], in nanoseconds. *)
Definition timed_out (previous now : Z) : bool := (3000000000 <? now - previous)%Z.

(** One round of [spinCheckTimeout]; the order of an unordered map is that of
    [map_to_list]. *)
Definition spinCheckTimeout (localIP : string) (now : Z) (c : ConsensusControlBlock)
    : ConsensusControlBlock :=
  let c := foldl (λ c p,
             if pb_isValid p.2 && timed_out (lastHeartbeat p.2) now
             then broadcastMaliciousViewChange localIP p.1 (latestEpoch p.2 + 1) c else c)
             c (map_to_list (proxiesTimeout c)) in
  send (mkProof 0 HEARTBEAT "" localIP []) c.

(** ** The abstract protocol

    Who confirmed which epoch, who accused whom of what, and who is excluded
    since when. *)
Record verdicts := mkVerdicts {
  confirmed : gset (string * N);
  accused : gmap (string * N) (gset string);
  excluded : gmap string N }.

Definition no_verdicts : verdicts := mkVerdicts ∅ ∅ ∅.
Definition accusers (t : string) (e : N) (v : verdicts) : gset string :=
  default ∅ (accused v !! (t, e)).

(** f + 1 of 3f + 1. *)
Definition quorum (total : Z) : Z := Z.quot (total - 1) 3 + 1.

Definition judge (total : Z) (m : TransactionsWithProof) (v : verdicts) : verdicts :=
  match excluded v !! ps_ip m with
  | Some _ => v
  | None =>
      match ps_type m with
      | CON => mkVerdicts ({[(ps_ip m, ps_epoch m)]} ∪ confirmed v) (accused v) (excluded v)
      | MALICIOUS =>
          match excluded v !! ps_proof m with
          | Some _ => v
          | None =>
              let voters := {[ps_ip m]} ∪ accusers (ps_proof m) (ps_epoch m) v in
              mkVerdicts (confirmed v) (<[(ps_proof m, ps_epoch m) := voters]> (accused v))
                (if (quorum total <=? Z.of_nat (size voters))%Z
                 then <[ps_proof m := ps_epoch m]> (excluded v) else excluded v)
          end
      | HEARTBEAT | TX => v
      end
  end.

Definition judge_all (total : Z) (ms : list TransactionsWithProof) : verdicts :=
  foldl (flip (judge total)) no_verdicts ms.

(** The server has finished the epoch, or is excluded since then. *)
Definition settled (v : verdicts) (ip : string) (e : N) : Prop :=
  (ip, e) ∈ confirmed v ∨ ∃ e', excluded v !! ip = Some e' ∧ e' ≤ e.

(** ** The control block implements the protocol *)
Record agrees (total : Z) (v : verdicts) (c : ConsensusControlBlock) : Prop := {
  ag_start : start c = true;
  ag_total : totalServerCount c = total;
  ag_len : length (epochApproveMap c) = N.to_nat MAX_EPOCH;
  ag_stale_len : length (epochStaleBit c) = N.to_nat MAX_EPOCH;
  ag_approve i s : epochApproveMap c !! i = Some s → ∀ ip, ip ∈ s ↔ settled v ip (N.of_nat i);
  ag_stale i b : epochStaleBit c !! i = Some b →
    (b = true ↔ ∃ t, excluded v !! t = Some (N.of_nat i));
  ag_valid ip : excluded v !! ip =
    (if pb_isValid (proxy ip c) then None else Some (firstInvalidEpoch (proxy ip c)));
  ag_voters ip e : default ∅ (epochVoters (proxy ip c) !! e) = accusers ip e v;
  ag_bits ip : default (0, false) (invalidBits c !! ip) =
    (match excluded v !! ip with Some e => (e, true) | None => (0, false) end) }.

Lemma proxy_set ip b ip' c : proxy ip' (set_proxy ip b c) = if decide (ip = ip') then b else proxy ip' c.
Proof.
  unfold proxy. simpl. destruct (decide (ip = ip')) as [->|Hne]; [by rewrite lookup_insert_eq|].
  by rewrite lookup_insert_ne.
Qed.

(** A block whose verdict-relevant fields stay as they were. *)
Lemma agrees_same total v c ip b :
  agrees total v c → pb_isValid b = pb_isValid (proxy ip c) →
  firstInvalidEpoch b = firstInvalidEpoch (proxy ip c) → epochVoters b = epochVoters (proxy ip c) →
  agrees total v (set_proxy ip b c).
Proof.
  intros [] Hv Hf He. split; try done.
  - intros ip'. rewrite proxy_set. destruct (decide (ip = ip')) as [<-|]; [|done]. by rewrite Hv, Hf.
  - intros ip' e. rewrite proxy_set. destruct (decide (ip = ip')) as [<-|]; [|done]. by rewrite He.
Qed.

Lemma confirm_ok total v c ip e :
  agrees total v c → e < MAX_EPOCH →
  ∃ c', confirmedClientProxy ip e c = Ok c' ∧
    agrees total (mkVerdicts ({[(ip, e)]} ∪ confirmed v) (accused v) (excluded v)) c'.
Proof.
  intros [] He. unfold confirmedClientProxy. rewrite in_range_ok by done. eexists. split; [done|].
  split; simpl; try done.
  - by rewrite length_alter.
  - intros i s Hs ip'. destruct (decide (i = N.to_nat e)) as [->|Hne].
    + rewrite list_lookup_alter_eq in Hs. apply fmap_Some in Hs as (s' & Hs & ->).
      rewrite elem_of_union, elem_of_singleton, (ag_approve0 _ _ Hs ip'). rewrite N2Nat.id.
      unfold settled. simpl. set_solver.
    + rewrite list_lookup_alter_ne in Hs by done.
      rewrite (ag_approve0 _ _ Hs ip'). unfold settled. simpl.
      rewrite elem_of_union, elem_of_singleton. split; [tauto|].
      intros [[[= -> <-]|?]|?]; [by rewrite Nat2N.id in Hne|tauto|tauto].
Qed.

Lemma approve_from_lookup e ip m i s :
  approve_from e ip m !! i = Some s →
  ∃ s', m !! i = Some s' ∧ ∀ ip', ip' ∈ s ↔ ip' ∈ s' ∨ (ip' = ip ∧ e ≤ N.of_nat i).
Proof.
  unfold approve_from. rewrite list_lookup_imap. destruct (m !! i) as [s'|]; [|done]. simpl.
  intros [= <-]. exists s'. split; [done|]. intros ip'.
  destruct (Nat.leb_spec (N.to_nat e) i) as [Hle|Hlt].
  - rewrite elem_of_union, elem_of_singleton. split; [|tauto]. intros [->|?]; [right; split; [done|lia]|tauto].
  - split; [tauto|]. intros [?|[_ ?]]; [done|lia].
Qed.

(** Excluding a server that was valid. *)
Lemma exclude_ok total v c t e :
  agrees total v c → e < MAX_EPOCH → excluded v !! t = None →
  ∃ c', maliciousTarget t e c = Ok c' ∧
    agrees total (mkVerdicts (confirmed v) (accused v) (<[t := e]> (excluded v))) c'.
Proof.
  intros [] He Ht. unfold maliciousTarget, maliciousBroadcastHandle. cbn [invalidBits set_proxy].
  rewrite ag_bits0, Ht. cbn [fst N.eqb CHECK mbind outcome_bind]. rewrite in_range_ok by done.
  eexists. split; [done|]. split; simpl; try done.
  - unfold approve_from. by rewrite length_imap.
  - by rewrite length_insert.
  - intros i s Hs ip. apply approve_from_lookup in Hs as (s' & Hs & ->).
    rewrite (ag_approve0 _ _ Hs ip). unfold settled. simpl. split.
    + intros [[?|(e' & He' & Hle)]|[-> Hle]]; [by left| |].
      * right. exists e'. split; [|done]. rewrite lookup_insert_ne; [done|]. intros ->. congruence.
      * right. exists e. by rewrite lookup_insert_eq.
    + intros [?|(e' & He' & Hle)]; [by left; left|].
      apply lookup_insert_Some in He' as [[-> ->]|[Hne He']]; [by right|]. left. right. eauto.
  - intros i b. rewrite list_lookup_insert_Some. intros [(<- & <- & Hlt)|[Hne Hb]].
    + split; [|done]. intros _. exists t. by rewrite lookup_insert_eq, N2Nat.id.
    + rewrite (ag_stale0 _ _ Hb). split; intros [t' Ht'].
      * exists t'. rewrite lookup_insert_ne; [done|]. intros ->. congruence.
      * apply lookup_insert_Some in Ht' as [[-> ->]|[_ Ht']]; [by rewrite Nat2N.id in Hne|by exists t'].
  - intros ip. unfold proxy. simpl. destruct (decide (t = ip)) as [<-|Hne].
    + by rewrite !lookup_insert_eq.
    + rewrite !lookup_insert_ne by done. apply ag_valid0.
  - intros ip e'. unfold proxy. simpl. destruct (decide (t = ip)) as [<-|Hne].
    + rewrite lookup_insert_eq. simpl. apply ag_voters0.
    + rewrite lookup_insert_ne by done. apply ag_voters0.
  - intros ip. destruct (decide (t = ip)) as [<-|Hne].
    + by rewrite !lookup_insert_eq.
    + rewrite !lookup_insert_ne by done. apply ag_bits0.
Qed.

(** Recording an accusation of a server that is not excluded. *)
Lemma accuse_ok total v c o t e :
  agrees total v c →
  let voters := {[o]} ∪ accusers t e v in
  let b := proxy t c in
  agrees total (mkVerdicts (confirmed v) (<[(t, e) := voters]> (accused v)) (excluded v))
    (set_proxy t (mkProxy (latestEpoch b) (lastHeartbeat b) (pb_isValid b)
                    (<[e := voters]> (epochVoters b)) (firstInvalidEpoch b)) c).
Proof.
  intros [] voters b. split; try done.
  - intros ip. rewrite proxy_set. destruct (decide (t = ip)) as [<-|]; [|done]. apply ag_valid0.
  - intros ip e'. rewrite proxy_set. unfold accusers. simpl.
    destruct (decide (t = ip)) as [<-|Hne]; simpl.
    + destruct (decide (e = e')) as [<-|Hne]; [by rewrite !lookup_insert_eq|].
      rewrite !lookup_insert_ne by congruence. apply ag_voters0.
    + rewrite lookup_insert_ne by congruence. apply ag_voters0.
Qed.

Lemma emitter_check ip c :
  (match proxiesTimeout c !! ip with Some b => negb (pb_isValid b) | None => false end) =
  negb (pb_isValid (proxy ip c)).
Proof. unfold proxy. by destruct (proxiesTimeout c !! ip). Qed.

Lemma obtain_ok total v c o t e :
  agrees total v c → e < MAX_EPOCH →
  ∃ c', obtainMalicious o t e c = Ok c' ∧
    agrees total
      (match excluded v !! t with
       | Some _ => v
       | None =>
           let voters := {[o]} ∪ accusers t e v in
           mkVerdicts (confirmed v) (<[(t, e) := voters]> (accused v))
             (if (quorum total <=? Z.of_nat (size voters))%Z then <[t := e]> (excluded v)
              else excluded v)
       end) c'.
Proof.
  intros Hag He. pose proof Hag as []. unfold obtainMalicious. pose proof (ag_valid0 t) as Ht.
  destruct (pb_isValid (proxy t c)) eqn:Ev; rewrite Ht; cbn [negb].
  - pose proof (accuse_ok total v c o t e Hag) as Hacc. cbv zeta in Hacc. rewrite Ev in Hacc.
    rewrite ag_voters0. cbv zeta. cbn [totalServerCount set_proxy]. rewrite ag_total0.
    fold (quorum total). destruct (_ <=? _)%Z; [|eauto].
    destruct (exclude_ok total _ _ t e Hacc He Ht) as (c' & -> & Hc'). eauto.
  - eexists. split; [done|]. by apply agrees_same.
Qed.

Lemma recv_ok total v c now m :
  agrees total v c → ps_epoch m < MAX_EPOCH →
  ∃ c', recvProofSet now m c = Ok c' ∧ agrees total (judge total m v) c'.
Proof.
  intros Hag He. pose proof Hag as []. unfold recvProofSet, judge. rewrite ag_start0, emitter_check.
  cbn [negb]. pose proof (ag_valid0 (ps_ip m)) as Hem.
  destruct (pb_isValid (proxy (ps_ip m) c)) eqn:Ev; rewrite Hem; cbn [negb]; [|by exists c].
  destruct (ps_type m); cbn [CHECK mbind outcome_bind].
  - by exists c.
  - apply confirm_ok; [|done]. by apply agrees_same.
  - eexists. split; [done|]. by apply agrees_same.
  - apply obtain_ok; [|done]. by apply agrees_same.
Qed.

Definition started (ips : list string) : ConsensusControlBlock :=
  mkCCB true (Z.of_nat (length ips)) (epochApproveMap (new_CCB ips)) (epochStaleBit (new_CCB ips))
    (proxiesTimeout (new_CCB ips)) (invalidBits (new_CCB ips)) (outbox (new_CCB ips)).

Lemma started_init ips :
  (c ← setConsensusCount (Z.of_nat (length ips)) (new_CCB ips); ccb_startService c) = Ok (started ips).
Proof. done. Qed.

Lemma started_agrees ips : agrees (Z.of_nat (length ips)) no_verdicts (started ips).
Proof.
  assert (∀ ip e, ¬ settled no_verdicts ip e) as Hno.
  { intros ip e [?%elem_of_empty|(e' & E & _)]; [done|].
    cbn [excluded no_verdicts] in E. by rewrite lookup_empty in E. }
  unfold started. split; cbn [start totalServerCount epochApproveMap epochStaleBit proxiesTimeout invalidBits
    new_CCB excluded no_verdicts]; try done.
  - intros i s [-> _]%lookup_replicate ip. split; [by intros ?%elem_of_empty|by intros ?%Hno].
  - intros i b [-> _]%lookup_replicate. split; [done|]. intros [t Ht]. by rewrite lookup_empty in Ht.
  - intros ip. rewrite lookup_empty.
    destruct (list_to_map _ !! ip) as [p|] eqn:E; [|done].
    apply elem_of_list_to_map_2, list_elem_of_fmap in E as (ip' & [= _ ->] & _). done.
Qed.

(** A run over a sequence of messages, each with the local time of receipt. *)
Definition recv_all (msgs : list (Z * TransactionsWithProof)) (c : ConsensusControlBlock)
    : outcome ConsensusControlBlock := foldM (λ p, recvProofSet p.1 p.2) msgs c.

Lemma recv_all_ok total msgs v c :
  agrees total v c → Forall (λ p, ps_epoch p.2 < MAX_EPOCH) msgs →
  ∃ c', recv_all msgs c = Ok c' ∧ agrees total (foldl (flip (judge total)) v msgs.*2) c'.
Proof.
  revert v c. induction msgs as [|[now m] msgs IH]; intros v c Hag Hm; [by exists c|].
  apply Forall_cons in Hm as [Hm Hms]. unfold recv_all. cbn [foldM fst snd].
  destruct (recv_ok total v c now m Hag Hm) as (c1 & -> & Hc1). cbn [mbind outcome_bind].
  exact (IH _ _ Hc1 Hms).
Qed.

(** ** What the verdicts rest on *)
Definition accusation (t : string) (e : N) (o : string) (m : TransactionsWithProof) : Prop :=
  ps_type m = MALICIOUS ∧ ps_ip m = o ∧ ps_proof m = t ∧ ps_epoch m = e.

Record grounded (total : Z) (ms : list TransactionsWithProof) (v : verdicts) : Prop := {
  gr_excluded t e : excluded v !! t = Some e → (quorum total ≤ Z.of_nat (size (accusers t e v)))%Z;
  gr_accusers t e o : o ∈ accusers t e v → ∃ m, m ∈ ms ∧ accusation t e o m;
  gr_targets t e : excluded v !! t = Some e → ∃ m, m ∈ ms ∧ ps_type m = MALICIOUS ∧ ps_proof m = t;
  gr_confirmed ip e : (ip, e) ∈ confirmed v →
    ∃ m, m ∈ ms ∧ ps_type m = CON ∧ ps_ip m = ip ∧ ps_epoch m = e }.

Lemma grounded_snoc total ms m v : grounded total ms v → grounded total (ms ++ [m]) v.
Proof.
  intros []. split; [done| | |].
  - intros t e o Ho. destruct (gr_accusers0 t e o Ho) as (m' & ? & ?). exists m'.
    split; [apply elem_of_app; by left|done].
  - intros t e Ht. destruct (gr_targets0 t e Ht) as (m' & ? & ?). exists m'.
    split; [apply elem_of_app; by left|done].
  - intros ip e Hc. destruct (gr_confirmed0 ip e Hc) as (m' & ? & ?). exists m'.
    split; [apply elem_of_app; by left|done].
Qed.

Lemma judge_grounded total ms m v : grounded total ms v → grounded total (ms ++ [m]) (judge total m v).
Proof.
  intros Hg%(grounded_snoc total ms m). unfold judge.
  assert (m ∈ ms ++ [m]) as Hin by (apply elem_of_app; right; by left).
  destruct (excluded v !! ps_ip m); [done|]. pose proof Hg as [].
  destruct (ps_type m) eqn:Ety; [done| |done|].
  - split; try done. intros ip e. simpl. rewrite elem_of_union, elem_of_singleton.
    intros [[= -> ->]|?]; [|by apply gr_confirmed0]. by exists m.
  - destruct (excluded v !! ps_proof m) eqn:Et; [done|].
    set (voters := {[ps_ip m]} ∪ accusers (ps_proof m) (ps_epoch m) v).
    set (v' := mkVerdicts _ _ _).
    assert (∀ t e, accusers t e v' = if decide (t = ps_proof m ∧ e = ps_epoch m) then voters
                                     else accusers t e v) as Hacc.
    { intros t e. unfold accusers, v'. simpl. destruct (decide _) as [[-> ->]|Hne].
      - by rewrite lookup_insert_eq.
      - rewrite lookup_insert_ne; [done|]. intros [= ? ?]. by apply Hne. }
    assert (∀ t e, excluded v' !! t = Some e →
      (t = ps_proof m ∧ e = ps_epoch m ∧ (quorum total ≤ Z.of_nat (size voters))%Z) ∨
      (t ≠ ps_proof m ∧ excluded v !! t = Some e)) as Hex.
    { intros t e. unfold v'. simpl. destruct (Z.leb_spec (quorum total) (Z.of_nat (size voters))).
      - rewrite lookup_insert_Some. naive_solver.
      - intros Ht. right. split; [|done]. intros ->. congruence. }
    split; [| | |done].
    + intros t e Ht. rewrite Hacc. destruct (Hex t e Ht) as [(-> & -> & Hq)|[Hne Ht']].
      * by rewrite decide_True.
      * rewrite decide_False by tauto. by apply gr_excluded0.
    + intros t e o. rewrite Hacc. destruct (decide _) as [[-> ->]|]; [|by apply gr_accusers0].
      unfold voters. rewrite elem_of_union, elem_of_singleton. intros [->|?]; [|by apply gr_accusers0].
      exists m. by split.
    + intros t e Ht. destruct (Hex t e Ht) as [(-> & _)|[_ Ht']]; [by exists m|by eapply gr_targets0].
Qed.

Lemma judge_all_grounded total ms : grounded total ms (judge_all total ms).
Proof.
  induction ms as [|m ms IH] using rev_ind.
  - split; simpl; [by intros ??; rewrite lookup_empty| |by intros ??; rewrite lookup_empty|set_solver].
    intros t e o. unfold accusers. simpl. rewrite lookup_empty. set_solver.
  - unfold judge_all. rewrite foldl_app. by apply judge_grounded.
Qed.

(** Messages between the configured servers, for epochs the vectors have. *)
Definition from_servers (ips : list string) (p : Z * TransactionsWithProof) : Prop :=
  ps_epoch p.2 < MAX_EPOCH ∧ ps_ip p.2 ∈ ips ∧ (ps_type p.2 = MALICIOUS → ps_proof p.2 ∈ ips).

Lemma settled_server ips msgs total ip e :
  Forall (from_servers ips) msgs → settled (judge_all total msgs.*2) ip e → ip ∈ ips.
Proof.
  intros Hm Hs. pose proof (judge_all_grounded total msgs.*2) as [].
  assert (∀ m, m ∈ msgs.*2 → ps_ip m ∈ ips ∧ (ps_type m = MALICIOUS → ps_proof m ∈ ips)) as Hin.
  { intros m (p & -> & Hp)%list_elem_of_fmap. rewrite Forall_forall in Hm. by apply Hm. }
  destruct Hs as [Hc|(e' & He & _)].
  - destruct (gr_confirmed0 ip e Hc) as (m & Hm' & _ & <- & _). by apply Hin.
  - destruct (gr_targets0 ip e' He) as (m & Hm' & Ht & <-). by apply Hin.
Qed.

Lemma wait_exact ips msgs c e :
  NoDup ips → Forall (from_servers ips) msgs → e < MAX_EPOCH →
  agrees (Z.of_nat (length ips)) (judge_all (Z.of_nat (length ips)) msgs.*2) c →
  ∃ b, waitForEpochFinish e c = Ok b ∧
    (b = true ↔ ∀ ip, ip ∈ ips → settled (judge_all (Z.of_nat (length ips)) msgs.*2) ip e).
Proof.
  intros Hnd Hm He Hag. pose proof Hag as []. set (v := judge_all _ _) in *.
  destruct (lookup_lt_is_Some_2 (epochApproveMap c) (N.to_nat e)) as [s Hs]; [lia|].
  assert (∀ ip, ip ∈ s ↔ settled v ip e) as Hset.
  { intros ip. rewrite (ag_approve0 _ _ Hs ip). by rewrite N2Nat.id. }
  assert (s ⊆ list_to_set ips) as Hsub.
  { intros ip Hip%Hset. apply elem_of_list_to_set. by eapply settled_server. }
  exists (Z.of_nat (size s) =? totalServerCount c)%Z. split.
  { unfold waitForEpochFinish, at_index. by rewrite Hs. }
  rewrite ag_total0, Z.eqb_eq.
  assert (size (list_to_set ips : gset string) = length ips) as Hsz by (by apply size_list_to_set).
  split.
  - intros Heq ip Hip. apply Hset.
    assert (s ≡ list_to_set ips) as Hall.
    { apply set_subseteq_size_equiv; [done|]. rewrite Hsz. lia. }
    rewrite Hall. by apply elem_of_list_to_set.
  - intros Hall. f_equal. rewrite <-Hsz. f_equal. apply leibniz_equiv. intros ip. split; [by apply Hsub|].
    intros Hip%elem_of_list_to_set. by apply Hset, Hall.
Qed.

(** C26: the control block implements the vote.  On any sequence of messages
    between the configured servers it never fails a check (a server is excluded
    once), and its answers are those of the abstract protocol, which knows
    neither clocks nor timeouts, so replicas that receive the same messages
    agree: the coordinator may go on with an epoch exactly when every server
    has finished it or is excluded since an epoch no later; an epoch has to be
    reserved again exactly when a server was excluded from it on; and a server
    is excluded only with the accusations of f + 1 distinct servers, for the
    same epoch, so that with at most f faulty ones a correct server is among
    them. *)
Theorem ccb_refines ips msgs :
  NoDup ips → Forall (from_servers ips) msgs →
  let v := judge_all (Z.of_nat (length ips)) msgs.*2 in
  ∃ c, recv_all msgs (started ips) = Ok c ∧
    (∀ e, e < MAX_EPOCH → ∃ b, waitForEpochFinish e c = Ok b ∧
       (b = true ↔ ∀ ip, ip ∈ ips → settled v ip e)) ∧
    (∀ e, e < MAX_EPOCH → ∃ b, needReReserve e c = Ok b ∧
       (b = true ↔ ∃ t, excluded v !! t = Some e)) ∧
    (∀ ip, excluded v !! ip =
       (if pb_isValid (proxy ip c) then None else Some (firstInvalidEpoch (proxy ip c)))) ∧
    (∀ t e, excluded v !! t = Some e →
       invalidBits c !! t = Some (e, true) ∧
       ∃ A : gset string, (quorum (Z.of_nat (length ips)) ≤ Z.of_nat (size A))%Z ∧
         ∀ o, o ∈ A → ∃ m, m ∈ msgs.*2 ∧ accusation t e o m).
Proof.
  intros Hnd Hm v.
  destruct (recv_all_ok (Z.of_nat (length ips)) msgs no_verdicts (started ips)) as (c & E & Hag).
  { apply started_agrees. }
  { eapply Forall_impl; [exact Hm|]. by intros p (? & _). }
  fold (judge_all (Z.of_nat (length ips)) msgs.*2) in Hag. fold v in Hag. pose proof Hag as [].
  exists c. split_and!; [done| | |done|].
  - intros e He. by apply wait_exact.
  - intros e He. destruct (lookup_lt_is_Some_2 (epochStaleBit c) (N.to_nat e)) as [b Hb]; [lia|].
    exists b. split; [unfold needReReserve, at_index; by rewrite Hb|].
    rewrite (ag_stale0 _ _ Hb). by rewrite N2Nat.id.
  - intros t e Ht. pose proof (judge_all_grounded (Z.of_nat (length ips)) msgs.*2) as []. split.
    + specialize (ag_bits0 t). rewrite Ht in ag_bits0.
      destruct (invalidBits c !! t); simpl in ag_bits0; [by subst|done].
    + exists (accusers t e v). split; [by apply gr_excluded0|]. intros o. apply gr_accusers0.
Qed.

(** An exclusion is final, and a message of an excluded server is not heard. *)
Lemma excluded_forever total ms v t e e' :
  excluded v !! t = Some e →
  let v' := foldl (flip (judge total)) v ms in
  excluded v' !! t = Some e ∧ ((t, e') ∈ confirmed v' → (t, e') ∈ confirmed v).
Proof.
  revert v. induction ms as [|m ms IH]; intros v Hv; [done|]. simpl.
  assert (excluded (judge total m v) !! t = Some e ∧
    ((t, e') ∈ confirmed (judge total m v) → (t, e') ∈ confirmed v)) as [H1 H2].
  { unfold judge. destruct (excluded v !! ps_ip m) eqn:Ei; [done|].
    destruct (ps_type m); [done| |done|].
    - split; [done|]. simpl. rewrite elem_of_union, elem_of_singleton.
      intros [[= -> _]|?]; [congruence|done].
    - destruct (excluded v !! ps_proof m) eqn:Et; [done|]. simpl. split; [|done].
      destruct (_ <=? _)%Z; [|done]. rewrite lookup_insert_ne; [done|]. intros E. congruence. }
  destruct (IH _ H1) as [H3 H4]. split; [done|]. intros Hc. by apply H2, H4.
Qed.

(** an exclusion can block an earlier epoch.  The messages of different
    servers reach a block server through different raft groups, in no common
    order.  When the accusations that exclude a server from epoch [e] on arrive
    before its confirmation of an earlier epoch [e'], that confirmation is
    ignored like every later message, and the coordinator waits for epoch [e']
    whatever else is received. *)
Theorem late_confirmation_blocks ips msgs later c t e e' :
  NoDup ips → Forall (from_servers ips) (msgs ++ later) → t ∈ ips →
  excluded (judge_all (Z.of_nat (length ips)) msgs.*2) !! t = Some e → e' < e →
  (t, e') ∉ confirmed (judge_all (Z.of_nat (length ips)) msgs.*2) → e' < MAX_EPOCH →
  recv_all (msgs ++ later) (started ips) = Ok c →
  waitForEpochFinish e' c = Ok false.
Proof.
  intros Hnd Hm Ht Hex Hlt Hnc He' E.
  destruct (recv_all_ok (Z.of_nat (length ips)) (msgs ++ later) no_verdicts (started ips)) as (c' & E' & Hag).
  { apply started_agrees. }
  { eapply Forall_impl; [exact Hm|]. by intros p (? & _). }
  rewrite E in E'. injection E' as <-.
  fold (judge_all (Z.of_nat (length ips)) (msgs ++ later).*2) in Hag.
  destruct (wait_exact ips (msgs ++ later) c e' Hnd Hm He' Hag) as (b & -> & Hb).
  destruct b; [exfalso|done]. destruct (proj1 Hb eq_refl t Ht) as [Hc|(e1 & He1 & Hle)];
    revert Hag; intros _; unfold judge_all in *; rewrite fmap_app, foldl_app in *.
  - by apply Hnc, (excluded_forever (Z.of_nat (length ips)) later.*2 _ t e e' Hex).
  - destruct (excluded_forever (Z.of_nat (length ips)) later.*2 _ t e e' Hex) as [H1 _].
    rewrite H1 in He1. injection He1 as <-. lia.
Qed.

(** ** Four servers *)
Module FourServers.

Definition servers : list string := ["a"; "b"; "c"; "d"].
Definition con (ip : string) (e : N) : Z * TransactionsWithProof := (5%Z, mkProof e CON "" ip []).
Definition accuse (o t : string) (e : N) : Z * TransactionsWithProof := (7%Z, mkProof e MALICIOUS t o []).
Definition msgs : list (Z * TransactionsWithProof) :=
  [con "a" 1; con "b" 1; con "c" 1; accuse "a" "d" 2; accuse "b" "d" 2].

Lemma servers_nodup : NoDup servers.
Proof. apply (bool_decide_eq_true_1 (NoDup servers)). reflexivity. Qed.

Lemma by_server ip : bool_decide (ip ∈ servers) = true → ip ∈ servers.
Proof. apply bool_decide_eq_true_1. Qed.

Lemma from_four l :
  forallb (λ p, (ps_epoch p.2 <? MAX_EPOCH) && bool_decide (ps_ip p.2 ∈ servers) &&
                bool_decide (ps_proof p.2 ∈ "" :: servers) &&
                (match ps_type p.2 with MALICIOUS => bool_decide (ps_proof p.2 ∈ servers) | _ => true end)) l
  = true → Forall (from_servers servers) l.
Proof.
  rewrite forallb_forall, Forall_forall. intros Hl p Hp%list_elem_of_In. specialize (Hl p Hp).
  apply andb_true_iff in Hl as [Hl H4]. apply andb_true_iff in Hl as [Hl _].
  apply andb_true_iff in Hl as [H1 H2]. split_and!.
  - by apply N.ltb_lt.
  - by apply by_server.
  - intros E. rewrite E in H4. by apply by_server.
Qed.

Lemma ccb_refines_witness :
  let v := judge_all 4 msgs.*2 in
  ∃ c, recv_all msgs (started servers) = Ok c ∧
    (∀ e, e < MAX_EPOCH → ∃ b, waitForEpochFinish e c = Ok b ∧
       (b = true ↔ ∀ ip, ip ∈ servers → settled v ip e)) ∧
    (∀ e, e < MAX_EPOCH → ∃ b, needReReserve e c = Ok b ∧
       (b = true ↔ ∃ t, excluded v !! t = Some e)) ∧
    (∀ ip, excluded v !! ip =
       (if pb_isValid (proxy ip c) then None else Some (firstInvalidEpoch (proxy ip c)))) ∧
    (∀ t e, excluded v !! t = Some e →
       invalidBits c !! t = Some (e, true) ∧
       ∃ A : gset string, (quorum 4 ≤ Z.of_nat (size A))%Z ∧
         ∀ o, o ∈ A → ∃ m, m ∈ msgs.*2 ∧ accusation t e o m).
Proof. apply (ccb_refines servers msgs servers_nodup). apply from_four. reflexivity. Defined.

(** The confirmation of "d" for epoch 1 comes after its exclusion. *)
Lemma late_confirmation_blocks_witness :
  ∃ c, recv_all (msgs ++ [con "d" 1]) (started servers) = Ok c ∧ waitForEpochFinish 1 c = Ok false.
Proof.
  assert (Forall (from_servers servers) (msgs ++ [con "d" 1])) as Hm by (apply from_four; reflexivity).
  destruct (recv_all_ok 4 (msgs ++ [con "d" 1]) no_verdicts (started servers)) as (c & E & _).
  { exact (started_agrees servers). }
  { eapply Forall_impl; [exact Hm|]. by intros p (? & _). }
  exists c. split; [exact E|].
  apply (late_confirmation_blocks servers msgs [con "d" 1] c "d" 2 1 servers_nodup Hm);
    [apply by_server; reflexivity|vm_compute; reflexivity|reflexivity| |reflexivity|exact E].
  apply (bool_decide_eq_true_1 (("d", 1) ∉ confirmed (judge_all 4 msgs.*2))). vm_compute. reflexivity.
Defined.

End FourServers.
