(* ===== verification/ClientProxy.v ===== *)
(** * Client proxies and the user collector

    [user_collector.cpp] and [client_proxy.cpp].  The collector turns user
    requests into transactions, asks the epoch servers for the epoch of each
    batch and hands the batch to the local proxy; the local proxy numbers the
    transactions, pushes them to its epoch buffer and broadcasts the batch; a
    remote proxy receives the batches of one other server, checks them and
    pushes the same transactions to its own buffer.

    Protobuf, the RSA signatures and the epoch servers' answers are parameters;
    a message arrives as it was sent.  The state keeps the calls of
    [pushTransactionToBuffer] and [asyncEmptyBuffer] in order: they are what the
    epoch buffers work on. *)
From S2P Require Import Prelude DecimalString Sha256 MerkleTree Transaction TransactionCodec ConsensusControl.
From Stdlib Require Import ZArith NArith Lia.
From stdpp Require Import base list gmap strings sorting.

Local Open Scope N_scope.
#[local] Arguments sha256 : simpl never.

Record EpochResponse := mkResponse {
  er_epoch : N;
  er_batch_size : N;
  er_batch_hash : list N;
  er_nonce : N;
  er_signature : list N }.

Record UserRequest := mkUser { ur_payload : list N; ur_digest : list N }.

(** What a proxy asks of its epoch buffer. *)
Inductive buffer_call := Push (t : Transaction) | Finish (epoch : N).

Section Proxies.
Context `{Protobuf}.
(** The messages after [ParseFromString], whose result is not looked at. *)
Context (parse_response : string → EpochResponse).
Context (parse_payload : list N → TransactionPayload).
(** Signature checks: of users, and of the epoch servers. *)
Context (user_rsaDecrypt epoch_rsaDecrypt : list N → list N → bool).

Definition digest_bytes_of (t : Transaction) : list N := bytes_of (pl_digest (transactionPayload t)).

(** A run of [append] calls whose results are dropped, then [execute]. *)
Definition append_ignoring (pieces : list (list N)) (c : SHA256Context) : SHA256Context :=
  foldl (λ c d, (sha_helper_append d c).2) c pieces.
Definition hash_ignoring (pieces : list (list N)) : list N :=
  (sha_helper_execute (append_ignoring pieces SHA256Reset)).1.2.

(** ** The user collector *)
Definition make_transaction (r : UserRequest) : outcome Transaction :=
  CHECK (user_rsaDecrypt (ur_payload r) (ur_digest r));;
  let t := setReadOnly false MockTransaction in
  Ok (set_digest (of_bytes (ur_digest r)) (setPayload (parse_payload (ur_payload r)) t)).

Fixpoint make_all (rs : list UserRequest) : outcome (list Transaction) :=
  match rs with
  | [] => Ok []
  | r :: rs => t ← make_transaction r; ts ← make_all rs; Ok (t :: ts)
  end.

(** The hash and size of the batch, which the epoch servers sign; a failed
    [append] stops the process. *)
Fixpoint append_checked (pieces : list (list N)) (c : SHA256Context) : outcome SHA256Context :=
  match pieces with
  | [] => Ok c
  | d :: ds => let '(okay, c) := sha_helper_append d c in CHECK okay;; append_checked ds c
  end.

Definition epoch_request (ts : list Transaction) : outcome (list N * N) :=
  c ← append_checked (digest_bytes_of <$> ts) SHA256Reset;
  Ok ((sha_helper_execute c).1.2, N.of_nat (length ts) mod 2 ^ 32).

(** An answer of the epoch servers: one that is behind is asked for again
    ([None]); otherwise the batch gets its epoch. *)
Definition accept_response (raw : string) (ts : list Transaction) (latestEpoch : N)
    : option ((string * list Transaction) * N) :=
  let response := parse_response raw in
  if er_epoch response <? latestEpoch then None
  else
    let latestEpoch := if latestEpoch <? er_epoch response then er_epoch response else latestEpoch in
    Some ((raw, setEpoch (er_epoch response) <$> ts), latestEpoch).

(** ** The local proxy *)
Record LocalProxy := mkLocal {
  lp_epoch : N;
  (** The signatures collected for the proof of the epoch. *)
  proofSet : list (list N);
  lp_calls : list buffer_call;
  (** [localServer->sendReply], and [ccb->sendEpochFinishSignal]. *)
  lp_sent : list TransactionsWithProof;
  ccb_sent : list TransactionsWithProof }.

(** One round of the loop that closes an epoch. *)
Definition close_epoch (localIP : string) (l : LocalProxy) : LocalProxy :=
  let m := mkProof (lp_epoch l) CON "" localIP (proofSet l) in
  mkLocal (lp_epoch l + 1) [] (lp_calls l ++ [Finish (lp_epoch l)]) (lp_sent l ++ [m])
    (ccb_sent l ++ [m]).

Definition close_until (localIP : string) (epoch : N) (l : LocalProxy) : LocalProxy :=
  Nat.iter (N.to_nat (epoch - lp_epoch l)) (close_epoch localIP) l.

(** The first eight bytes of the digest of signature and user digest. *)
Definition le64 (l : list N) : N := foldr (λ b n, b + 256 * n) 0 (take 8 l).
Definition txn_id (signature : list N) (t : Transaction) : N :=
  le64 (hash_ignoring [signature; digest_bytes_of t]).

Definition local_one (signature : list N) (t : Transaction) (st : list (list N) * LocalProxy)
    : outcome (list (list N) * LocalProxy) :=
  let '(data, l) := st in
  CHECK (lp_epoch l =? tr_epoch t);;
  let '(okay, raw) := serializeToString t in
  CHECK okay;;
  let t := setTransactionID (txn_id signature t) t in
  Ok (data ++ [raw], mkLocal (lp_epoch l) (proofSet l) (lp_calls l ++ [Push t]) (lp_sent l) (ccb_sent l)).

(** One batch of [receiveFromLocalServer]. *)
Definition receive_local (localIP : string) (pair : string * list Transaction) (l : LocalProxy)
    : outcome LocalProxy :=
  let '(responseRaw, transactionList) := pair in
  let response := parse_response responseRaw in
  let l := close_until localIP (er_epoch response) l in
  let l := mkLocal (lp_epoch l) (proofSet l ++ [er_signature response]) (lp_calls l) (lp_sent l)
             (ccb_sent l) in
  CHECK (lp_epoch l =? er_epoch response);;
  r ← foldM (local_one (er_signature response)) transactionList ([], l);
  let '(data, l) := r in
  Ok (mkLocal (lp_epoch l) (proofSet l) (lp_calls l)
        (lp_sent l ++ [mkProof (lp_epoch l) TX responseRaw "" data]) (ccb_sent l)).

(** ** The remote proxy *)
Record RemoteProxy := mkRemote {
  rp_epoch : N;
  currentEpochProofSet : gset (list N);
  rp_calls : list buffer_call }.

(** The exceptions that end the receiving loop: another process has excluded the
    server, or it has sent something that does not verify. *)
Inductive verdict (A : Type) := Accepted (a : A) | Invalidated (a : A) | Malicious (a : A).
Arguments Accepted {A} _. Arguments Invalidated {A} _. Arguments Malicious {A} _.

Definition verifyBatchHash (transactionList : list Transaction) (response : EpochResponse) : bool :=
  (N.of_nat (length transactionList) =? er_batch_size response) &&
  bool_decide (er_batch_hash response = hash_ignoring (digest_bytes_of <$> transactionList)) &&
  epoch_rsaDecrypt (bytes_of (N_to_string (er_epoch response)) ++ er_batch_hash response ++
                    bytes_of (N_to_string (er_nonce response)))
    (er_signature response).

(** A worker deserialises a transaction and checks the user's signature over
    the payload without its digest. *)
Definition without_digest (p : TransactionPayload) : TransactionPayload :=
  mkPayload (pl_header p) (pl_payload p) (pl_nonce p) "".
Definition remote_txn (ip : string) (raw : list N) : outcome (Transaction * bool) :=
  r ← deserializeFromString raw MockTransaction;
  CHECK r.1;;
  let t := setInvalidBit ip r.2 in
  Ok (t, user_rsaDecrypt (payload_SerializeAsString (without_digest (transactionPayload t)))
           (digest_bytes_of t)).

(** The loop of one worker over its share of the batch; it stops at a signature
    that does not verify. *)
Fixpoint remote_worker (ip : string) (data : list (list N)) : outcome (list Transaction * bool) :=
  match data with
  | [] => Ok ([], true)
  | raw :: data =>
      r ← remote_txn ip raw;
      if negb r.2 then Ok ([], false)
      else rs ← remote_worker ip data; Ok (r.1 :: rs.1, rs.2)
  end.

(** Two workers: the elements at even and at odd positions. *)
Fixpoint evens {A} (l : list A) : list A :=
  match l with [] => [] | x :: l => x :: match l with [] => [] | _ :: l => evens l end end.
Definition odds {A} (l : list A) : list A := evens (tail l).
Fixpoint interleave {A} (l k : list A) : list A :=
  match l, k with
  | x :: l, y :: k => x :: y :: interleave l k
  | x :: l, [] => [x]
  | [], _ => []
  end.

(** The transactions of the batch, and the flag the workers may clear. *)
Definition remote_all (ip : string) (data : list (list N)) : outcome (list Transaction * bool) :=
  w0 ← remote_worker ip (evens data);
  w1 ← remote_worker ip (odds data);
  Ok (interleave w0.1 w1.1, w0.2 && w1.2).

Definition remote_push (signature : list N) (t : Transaction) (r : RemoteProxy) : outcome RemoteProxy :=
  CHECK (tr_epoch t =? rp_epoch r);;
  Ok (mkRemote (rp_epoch r) (currentEpochProofSet r)
        (rp_calls r ++ [Push (setTransactionID (txn_id signature t) t)])).

(** One message of [receiveFromOtherServer]. *)
Definition receive_remote (ip : string) (m : TransactionsWithProof) (r : RemoteProxy)
    : outcome (verdict RemoteProxy) :=
  match ps_type m with
  | CON =>
      CHECK (rp_epoch r =? ps_epoch m);;
      CHECK (forallb (λ proof, bool_decide (proof ∈ currentEpochProofSet r)) (ps_data m));;
      CHECK (length (ps_data m) =? size (currentEpochProofSet r))%nat;;
      Ok (Accepted (mkRemote (rp_epoch r + 1) ∅ (rp_calls r ++ [Finish (rp_epoch r)])))
  | _ =>
      let response := parse_response (ps_proof m) in
      if negb (rp_epoch r =? er_epoch response) then Ok (Malicious r)
      else
        let r := mkRemote (rp_epoch r) ({[er_signature response]} ∪ currentEpochProofSet r) (rp_calls r) in
        tl ← remote_all ip (ps_data m);
        if negb (tl.2 && verifyBatchHash tl.1 response) then Ok (Malicious r)
        else r ← foldM (remote_push (er_signature response)) tl.1 r; Ok (Accepted r)
  end.

(** The receiving loop over a sequence of messages; the exception ends it. *)
Fixpoint receive_all (ip : string) (ms : list TransactionsWithProof) (r : RemoteProxy)
    : outcome (verdict RemoteProxy) :=
  match ms with
  | [] => Ok (Accepted r)
  | m :: ms =>
      v ← receive_remote ip m r;
      match v with Accepted r => receive_all ip ms r | _ => Ok v end
  end.

Definition new_local (startWithEpoch : N) : LocalProxy := mkLocal startWithEpoch [] [] [] [].
Definition new_remote (startWithEpoch : N) : RemoteProxy := mkRemote startWithEpoch ∅ [].

(** What the loop waits for: a message, or the end of a wait without one, at
    which the pair [invalidBits[ip]] is read. *)
Inductive remote_event := Message (m : TransactionsWithProof) | TimedOut (bit : N * bool).

Definition remote_round (ip : string) (ev : remote_event) (r : RemoteProxy) : outcome (verdict RemoteProxy) :=
  match ev with
  | Message m => receive_remote ip m r
  | TimedOut (first, second) => Ok (if second && (first <=? rp_epoch r) then Invalidated r else Accepted r)
  end.

Fixpoint receive_events (ip : string) (evs : list remote_event) (r : RemoteProxy) : outcome (verdict RemoteProxy) :=
  match evs with
  | [] => Ok (Accepted r)
  | ev :: evs =>
      v ← remote_round ip ev r;
      match v with Accepted r => receive_events ip evs r | _ => Ok v end
  end.

(** One turn of the loop after an exception. *)
Definition skip_epoch (r : RemoteProxy) : RemoteProxy :=
  mkRemote (rp_epoch r + 1) (currentEpochProofSet r) (rp_calls r ++ [Finish (rp_epoch r)]).

(** [receiveFromOtherServer]: the events until [finishSignal] or an exception,
    and the [n] turns of the last loop until [finishSignal]; the proxy and the
    accusations it has sent. *)
Definition receiveFromOtherServer (localIP ip : string) (evs : list remote_event) (n : nat) (r : RemoteProxy)
    : outcome (RemoteProxy * list TransactionsWithProof) :=
  v ← receive_events ip evs r;
  Ok match v with
     | Accepted r => (r, [])
     | Invalidated r => (Nat.iter n skip_epoch r, [])
     | Malicious r => (Nat.iter n skip_epoch r, [mkProof (rp_epoch r) MALICIOUS ip localIP []])
     end.

End Proxies.
Arguments Accepted {A} _. Arguments Invalidated {A} _. Arguments Malicious {A} _.

(** ** Both proxies see the same transactions *)
Section Agreement.
Context `{ProtobufLaws}.
Context (parse_response : string → EpochResponse).
Context (user_rsaDecrypt epoch_rsaDecrypt : list N → list N → bool).
Context (localIP ip : string).
Local Notation receive_local := (receive_local parse_response localIP).
Local Notation receive_all := (receive_all parse_response user_rsaDecrypt epoch_rsaDecrypt ip).
Local Notation receive_remote := (receive_remote parse_response user_rsaDecrypt epoch_rsaDecrypt ip).
Local Notation verify := (verifyBatchHash epoch_rsaDecrypt).

(** The answers of the epoch servers as they arrive; one that is behind is
    asked for again, so its answer delivers nothing. *)
Fixpoint collect (answers : list (string * list Transaction)) (latestEpoch : N)
    : list (string * list Transaction) :=
  match answers with
  | [] => []
  | (raw, ts) :: answers =>
      match accept_response parse_response raw ts latestEpoch with
      | None => collect answers latestEpoch
      | Some (b, latestEpoch) => b :: collect answers latestEpoch
      end
  end.

Definition epoch_at (b : string * list Transaction) : N := er_epoch (parse_response b.1).
Definition signature_of (b : string * list Transaction) : list N := er_signature (parse_response b.1).

(** A transaction a correct server sends: it fits the wire format and its user
    signed it. *)
Record sendable (t : Transaction) : Prop := {
  se_wire : wire_ok t;
  se_user : user_rsaDecrypt (payload_SerializeAsString (without_digest (transactionPayload t)))
              (digest_bytes_of t) = true }.

Record batch_ok (b : string * list Transaction) : Prop := {
  ba_sendable : Forall sendable b.2;
  ba_epoch : Forall (λ t, tr_epoch t = epoch_at b) b.2;
  ba_signed : verify b.2 (parse_response b.1) = true }.

(** The calls of a remote proxy: the same, with the bit of the sender. *)
Definition copy (c : buffer_call) : buffer_call :=
  match c with Push t => Push (setInvalidBit ip t) | Finish e => Finish e end.

Record in_step (l : LocalProxy) (r : RemoteProxy) : Prop := {
  is_epoch : rp_epoch r = lp_epoch l;
  is_proofs : currentEpochProofSet r = list_to_set (proofSet l);
  is_nodup : NoDup (proofSet l);
  is_calls : rp_calls r = copy <$> lp_calls l }.

Lemma receive_all_app ms1 ms2 r r' :
  receive_all ms1 r = Ok (Accepted r') → receive_all (ms1 ++ ms2) r = receive_all ms2 r'.
Proof.
  revert r. induction ms1 as [|m ms1 IH]; intros r E; simpl in E |- *; [by injection E as ->|].
  destruct (receive_remote m r) as [[r1|r1|r1]|]; simpl in E |- *; [by apply IH|done..].
Qed.

(** *** The end of an epoch *)
Lemma close_one l r :
  in_step l r →
  ∃ r', receive_remote (mkProof (lp_epoch l) CON "" localIP (proofSet l)) r = Ok (Accepted r') ∧
    in_step (close_epoch localIP l) r'.
Proof.
  intros []. unfold receive_remote. cbn [ps_type ps_epoch ps_data]. rewrite is_epoch0, N.eqb_refl, is_proofs0.
  cbn [CHECK mbind outcome_bind].
  assert (forallb (λ p, bool_decide (p ∈ (list_to_set (proofSet l) : gset (list N)))) (proofSet l) = true) as ->.
  { apply forallb_forall. intros p Hp%list_elem_of_In. apply bool_decide_eq_true_2.
    by apply elem_of_list_to_set. }
  rewrite size_list_to_set by done. rewrite Nat.eqb_refl. cbn [CHECK mbind outcome_bind].
  eexists. split; [done|]. split; simpl; [done|done|constructor|]. by rewrite is_calls0, fmap_app.
Qed.

Lemma close_many k l r :
  in_step l r →
  ∃ ms r', lp_sent (Nat.iter k (close_epoch localIP) l) = lp_sent l ++ ms ∧
    receive_all ms r = Ok (Accepted r') ∧ in_step (Nat.iter k (close_epoch localIP) l) r' ∧
    lp_epoch (Nat.iter k (close_epoch localIP) l) = lp_epoch l + N.of_nat k ∧
    (proofSet (Nat.iter k (close_epoch localIP) l) = proofSet l ∨
     proofSet (Nat.iter k (close_epoch localIP) l) = []).
Proof.
  induction k as [|k IH]; intros Hr.
  { exists [], r. rewrite app_nil_r. split_and!; simpl; try done; [lia|by left]. }
  destruct (IH Hr) as (ms & r1 & Es & Er & H1 & Ee & _). set (l1 := Nat.iter k (close_epoch localIP) l) in *.
  destruct (close_one l1 r1 H1) as (r2 & E2 & H2).
  exists (ms ++ [mkProof (lp_epoch l1) CON "" localIP (proofSet l1)]), r2.
  change (Nat.iter (S k) (close_epoch localIP) l) with (close_epoch localIP l1).
  split_and!; [simpl; by rewrite Es, app_assoc| |done|simpl; lia|by right].
  rewrite (receive_all_app _ _ _ _ Er). cbn [receive_all]. by rewrite E2.
Qed.

(** *** One batch *)
Definition numbered_push (signature : list N) (t : Transaction) : buffer_call :=
  Push (setTransactionID (txn_id signature t) t).

Lemma local_batch sg ts data l :
  Forall sendable ts → Forall (λ t, tr_epoch t = lp_epoch l) ts →
  foldM (local_one sg) ts (data, l) =
  Ok (data ++ ((λ t, serialize_body t ++ sha256 (serialize_body t)) <$> ts),
      mkLocal (lp_epoch l) (proofSet l) (lp_calls l ++ (numbered_push sg <$> ts)) (lp_sent l) (ccb_sent l)).
Proof.
  revert data l. induction ts as [|t ts IH]; intros data l Hs He.
  { simpl. rewrite !app_nil_r. by destruct l. }
  apply Forall_cons in Hs as [[Hw _] Hs]. apply Forall_cons in He as [He Hes].
  cbn [foldM].
  assert (local_one sg t (data, l) =
    Ok (data ++ [serialize_body t ++ sha256 (serialize_body t)],
        mkLocal (lp_epoch l) (proofSet l) (lp_calls l ++ [numbered_push sg t]) (lp_sent l) (ccb_sent l))) as E1.
  { unfold local_one. rewrite He, N.eqb_refl, (serialize_ok t Hw). done. }
  rewrite E1. cbn [mbind outcome_bind]. rewrite IH by done. cbn [lp_epoch proofSet lp_calls lp_sent ccb_sent]. by rewrite <-!app_assoc.
Qed.

Definition on_wire (t : Transaction) : list N := serialize_body t ++ sha256 (serialize_body t).

Lemma remote_txn_ok t :
  sendable t → remote_txn user_rsaDecrypt ip (on_wire t) = Ok (setInvalidBit ip t, true).
Proof.
  intros [Hw Hu]. unfold remote_txn, on_wire.
  rewrite (deserialize_body t MockTransaction _ Hw) by (by destruct (sha256_ok (serialize_body t))).
  cbn [mbind outcome_bind fst snd CHECK].
  replace (setInvalidBit ip _) with (setInvalidBit ip t) by (by destruct t).
  change (digest_bytes_of (setInvalidBit ip t)) with (digest_bytes_of t).
  change (transactionPayload (setInvalidBit ip t)) with (transactionPayload t). by rewrite Hu.
Qed.

Lemma remote_worker_ok ts :
  Forall sendable ts →
  remote_worker user_rsaDecrypt ip (on_wire <$> ts) = Ok (setInvalidBit ip <$> ts, true).
Proof.
  induction 1 as [|t ts Ht Hts IH]; [done|]. rewrite !fmap_cons. cbn [remote_worker].
  rewrite (remote_txn_ok t Ht). cbn [mbind outcome_bind fst snd negb]. by rewrite IH.
Qed.

Lemma evens_fmap {A B} (f : A → B) n l : (length l ≤ n)%nat → evens (f <$> l) = f <$> evens l.
Proof.
  revert l. induction n as [|n IH]; intros l Hl.
  { destruct l; [done|simpl in Hl; lia]. }
  destruct l as [|x [|y l]]; [done|done|]. simpl. f_equal. apply IH. simpl in Hl. lia.
Qed.

Lemma interleave_split {A} n (l : list A) : (length l ≤ n)%nat → interleave (evens l) (odds l) = l.
Proof.
  revert l. induction n as [|n IH]; intros l Hl.
  { destruct l; [done|simpl in Hl; lia]. }
  destruct l as [|x [|y l]]; [done|done|]. unfold odds. simpl.
  assert (interleave (evens l) (odds l) = l) as E by (apply IH; simpl in Hl; lia).
  destruct l as [|z l]; [done|]. unfold odds in E. simpl in *. by rewrite E.
Qed.

Lemma evens_Forall {A} (P : A → Prop) n l : (length l ≤ n)%nat → Forall P l → Forall P (evens l).
Proof.
  revert l. induction n as [|n IH]; intros l Hl HP.
  { destruct l; [done|simpl in Hl; lia]. }
  destruct l as [|x [|y l]]; [done|simpl; by apply Forall_cons in HP as [? _]; constructor|].
  apply Forall_cons in HP as [Hx HP]. apply Forall_cons in HP as [_ HP]. simpl. constructor; [done|].
  apply IH; [simpl in Hl; lia|done].
Qed.

Lemma remote_all_ok ts :
  Forall sendable ts →
  remote_all user_rsaDecrypt ip (on_wire <$> ts) = Ok (setInvalidBit ip <$> ts, true).
Proof.
  intros Hs. unfold remote_all, odds.
  assert (tail (on_wire <$> ts) = on_wire <$> tail ts) as -> by (by destruct ts).
  assert (Forall sendable (tail ts)) as Ht.
  { destruct ts; [done|]. by apply Forall_cons in Hs as [_ ?]. }
  rewrite !(evens_fmap on_wire (length ts)) by (destruct ts; simpl; lia).
  rewrite !remote_worker_ok by (eapply evens_Forall; [reflexivity|done]).
  cbn [mbind outcome_bind fst snd andb].
  rewrite <-!(evens_fmap (setInvalidBit ip) (length ts)) by (destruct ts; simpl; lia).
  assert (setInvalidBit ip <$> tail ts = tail (setInvalidBit ip <$> ts)) as -> by (by destruct ts).
  change (evens (tail (setInvalidBit ip <$> ts))) with (odds (setInvalidBit ip <$> ts)).
  by rewrite (interleave_split (length ts)) by (by rewrite length_fmap).
Qed.

Lemma remote_batch sg ts r :
  Forall (λ t, tr_epoch t = rp_epoch r) ts →
  foldM (remote_push sg) (setInvalidBit ip <$> ts) r =
  Ok (mkRemote (rp_epoch r) (currentEpochProofSet r) (rp_calls r ++ (copy <$> (numbered_push sg <$> ts)))).
Proof.
  revert r. induction ts as [|t ts IH]; intros r He; [simpl; rewrite app_nil_r; by destruct r|].
  apply Forall_cons in He as [He Hes]. rewrite !fmap_cons. cbn [foldM].
  assert (remote_push sg (setInvalidBit ip t) r =
    Ok (mkRemote (rp_epoch r) (currentEpochProofSet r) (rp_calls r ++ [copy (numbered_push sg t)]))) as ->.
  { unfold remote_push. change (tr_epoch (setInvalidBit ip t)) with (tr_epoch t).
    rewrite He, N.eqb_refl. done. }
  cbn [mbind outcome_bind]. rewrite IH by done. cbn [rp_epoch currentEpochProofSet rp_calls].
  by rewrite <-app_assoc.
Qed.

(** A batch processed on both sides keeps them in step. *)
Lemma batch_in_step b l r :
  batch_ok b → in_step l r → lp_epoch l ≤ epoch_at b → signature_of b ∉ proofSet l →
  ∃ l' ms r', receive_local b l = Ok l' ∧ lp_sent l' = lp_sent l ++ ms ∧
    receive_all ms r = Ok (Accepted r') ∧ in_step l' r' ∧ lp_epoch l' = epoch_at b ∧
    (proofSet l' = proofSet l ++ [signature_of b] ∨ proofSet l' = [signature_of b]).
Proof.
  destruct b as [raw ts]. intros [Hs He Hv] Hr Hle Hni. unfold epoch_at, signature_of in *. cbn [fst snd] in *.
  set (resp := parse_response raw) in *. unfold receive_local. fold resp. unfold close_until.
  set (k := N.to_nat (er_epoch resp - lp_epoch l)).
  destruct (close_many k l r Hr) as (ms & r1 & Es & Er & H1 & Ee & Hps).
  set (l1 := Nat.iter k (close_epoch localIP) l) in *.
  assert (lp_epoch l1 = er_epoch resp) as El1 by (rewrite Ee; unfold k; lia).
  assert (er_signature resp ∉ proofSet l1) as Hni1.
  { destruct Hps as [->| ->]; [done|]. by apply not_elem_of_nil. }
  cbn [lp_epoch proofSet lp_calls lp_sent ccb_sent]. rewrite (proj2 (N.eqb_eq _ _) El1).
  cbn [CHECK mbind outcome_bind].
  rewrite local_batch by (done || (simpl; by rewrite El1)). cbn [mbind outcome_bind app].
  fold on_wire. eexists _, (ms ++ [mkProof (lp_epoch l1) TX raw "" (on_wire <$> ts)]), _.
  split; [done|]. cbn [lp_epoch proofSet lp_calls lp_sent ccb_sent]. split; [by rewrite Es, app_assoc|].
  rewrite (receive_all_app _ _ _ _ Er). cbn [receive_all]. unfold receive_remote.
  cbn [ps_type ps_proof ps_data]. fold resp. destruct H1.
  rewrite is_epoch0, (proj2 (N.eqb_eq _ _) El1). cbn [negb].
  rewrite remote_all_ok by done. cbn [mbind outcome_bind fst snd andb].
  assert (verify (setInvalidBit ip <$> ts) resp = true) as ->.
  { rewrite <-Hv. unfold verify. rewrite length_fmap, <-list_fmap_compose. done. }
  cbn [negb]. rewrite remote_batch by (simpl; by rewrite El1). cbn [mbind outcome_bind].
  split; [done|]. split; [|split; [done|]].
  - split; simpl; [done| | |].
    + rewrite is_proofs0. rewrite list_to_set_app_L. simpl. set_solver.
    + by apply NoDup_snoc.
    + by rewrite is_calls0, fmap_app.
  - destruct Hps as [->| ->]; [by left|by right].
Qed.

Lemma batches_in_step bs l r :
  Forall batch_ok bs → in_step l r → StronglySorted N.le (epoch_at <$> bs) →
  Forall (λ b, lp_epoch l ≤ epoch_at b) bs → NoDup (proofSet l ++ (signature_of <$> bs)) →
  ∃ l' ms r', foldM receive_local bs l = Ok l' ∧ lp_sent l' = lp_sent l ++ ms ∧
    receive_all ms r = Ok (Accepted r') ∧ in_step l' r'.
Proof.
  revert l r. induction bs as [|b bs IH]; intros l r Hb Hr Hsort Hle Hnd.
  { exists l, [], r. by rewrite app_nil_r. }
  apply Forall_cons in Hb as [Hb Hbs]. apply Forall_cons in Hle as [Hle Hles].
  inversion Hsort as [|? ? Hsort' Hall]; subst. rewrite fmap_cons in Hnd.
  assert (signature_of b ∉ proofSet l) as Hni.
  { apply NoDup_app in Hnd as (_ & Hd & _). intros Hin. apply (Hd _ Hin). by left. }
  destruct (batch_in_step b l r Hb Hr Hle Hni) as (l1 & ms1 & r1 & E1 & S1 & R1 & H1 & Ep1 & Ps1).
  destruct (IH l1 r1) as (l2 & ms2 & r2 & E2 & S2 & R2 & H2); try done.
  - rewrite Ep1. change (list_fmap _ _ epoch_at bs) with (epoch_at <$> bs) in Hall.
    rewrite Forall_fmap in Hall. exact Hall.
  - destruct Ps1 as [->| ->]; [by rewrite <-app_assoc|]. by apply NoDup_app in Hnd as (_ & _ & ?).
  - exists l2, (ms1 ++ ms2), r2. cbn [foldM]. rewrite E1. cbn [mbind outcome_bind].
    split_and!; [done|by rewrite S2, S1, app_assoc| |done].
    by rewrite (receive_all_app _ _ _ _ R1).
Qed.

(** *** The collector *)
Lemma collect_ok answers latest :
  StronglySorted N.le (epoch_at <$> collect answers latest) ∧
  Forall (λ b, latest ≤ epoch_at b ∧ Forall (λ t, tr_epoch t = epoch_at b) b.2) (collect answers latest).
Proof.
  revert latest. induction answers as [|[raw ts] answers IH]; intros latest; simpl; [by split; constructor|].
  unfold accept_response. set (e := er_epoch (parse_response raw)).
  destruct (N.ltb_spec e latest) as [|Hge]; [apply IH|].
  assert ((if latest <? e then e else latest) = e) as -> by (destruct (N.ltb_spec latest e); lia).
  destruct (IH e) as [Hs Hf]. split.
  - simpl. constructor; [done|]. apply Forall_fmap. eapply Forall_impl; [exact Hf|]. by intros b [? _].
  - constructor.
    + split; [done|]. simpl. apply Forall_fmap, Forall_true. done.
    + eapply Forall_impl; [exact Hf|]. intros b [? ?]. split; [lia|done].
Qed.

(** C20: all proxies agree on the input.  Take any answers of the epoch servers;
    the batches the collector delivers have ascending epochs, so the local
    proxy processes them without a failed check, and a remote proxy that
    receives what the local one broadcast accepts every message and makes the
    same calls on its buffer in the same order: the same transactions with the
    same ids, marked with the sender, and the same ends of epochs.  The
    hypotheses say that the server is correct (its transactions fit the wire
    format and carry valid user signatures, the epoch servers signed the
    batches, with a signature per batch) and that no epoch lies before the
    start. *)
Theorem proxies_agree answers start :
  let bs := collect answers start in
  Forall (λ b, Forall sendable b.2 ∧ verify b.2 (parse_response b.1) = true) bs →
  NoDup (signature_of <$> bs) →
  ∃ l r, foldM receive_local bs (new_local start) = Ok l ∧
    receive_all (lp_sent l) (new_remote start) = Ok (Accepted r) ∧
    rp_epoch r = lp_epoch l ∧ rp_calls r = copy <$> lp_calls l.
Proof.
  intros bs Hb Hnd. destruct (collect_ok answers start) as [Hs Hf]. fold bs in Hs, Hf.
  destruct (batches_in_step bs (new_local start) (new_remote start)) as (l & ms & r & E & Es & Er & []); try done.
  - apply Forall_forall. intros b Hin. rewrite Forall_forall in Hb, Hf.
    destruct (Hb b Hin), (Hf b Hin). by split.
  - split; [done|done|constructor|done].
  - eapply Forall_impl; [exact Hf|]. by intros b [? _].
  - exists l, r. rewrite Es. by split_and!.
Qed.

End Agreement.

(** ** What a remote proxy accepts from any sender *)
Section Defence.
Context `{Protobuf}.
Context (parse_response : string → EpochResponse).
Context (user_rsaDecrypt epoch_rsaDecrypt : list N → list N → bool).
Context (ip : string).

Definition user_signed (t : Transaction) : Prop :=
  user_rsaDecrypt (payload_SerializeAsString (without_digest (transactionPayload t))) (digest_bytes_of t) = true.

(** The calls of a proxy that starts at [e] and ends at [e']: transactions of
    the current epoch, signed by their users and marked with the sender, and
    ends of epochs in order. *)
Inductive clean (e : N) : N → list buffer_call → Prop :=
  | clean_nil : clean e e []
  | clean_push e' cs t : clean e e' cs → tr_epoch t = e' → user_signed t → invalidBit t = Some ip →
      clean e e' (cs ++ [Push t])
  | clean_finish e' cs : clean e e' cs → clean e (e' + 1) (cs ++ [Finish e']).

Lemma interleave_Forall {A} (P : A → Prop) l k : Forall P l → Forall P k → Forall P (interleave l k).
Proof.
  intros Hl. revert k. induction Hl as [|x l Hx Hl IH]; intros k Hk; [constructor|].
  destruct Hk as [|y k Hy Hk]; simpl; repeat constructor; try done. by apply IH.
Qed.

Lemma skip_epochs_clean n r e :
  clean e (rp_epoch r) (rp_calls r) →
  let r' := Nat.iter n skip_epoch r in
  clean e (rp_epoch r') (rp_calls r') ∧ rp_epoch r' = rp_epoch r + N.of_nat n.
Proof.
  intros Hc. induction n as [|n IH]; [split; [done|simpl; lia]|]. destruct IH as [IH E].
  rewrite Nat.iter_succ. simpl in *. split; [by apply clean_finish|lia].
Qed.

(** *** What a batch has to be *)

(** An item of a message read as the transaction it holds. *)
Definition read_as (raw : list N) (t : Transaction) : Prop :=
  ∃ t0, deserializeFromString raw MockTransaction = Ok (true, t0) ∧ t = setInvalidBit ip t0.

(** The message is a batch for epoch [e] that holds the transactions [ts], each
    signed by its user, and the epoch servers have signed this epoch with the
    digest and the size of exactly this batch. *)
Record batch_verifies (e : N) (m : TransactionsWithProof) (ts : list Transaction) : Prop := {
  bv_type : ps_type m ≠ CON;
  bv_epoch : er_epoch (parse_response (ps_proof m)) = e;
  bv_items : Forall2 read_as (ps_data m) ts;
  bv_users : Forall user_signed ts;
  bv_size : N.of_nat (length ts) = er_batch_size (parse_response (ps_proof m));
  bv_hash : er_batch_hash (parse_response (ps_proof m)) = hash_ignoring (digest_bytes_of <$> ts);
  bv_signed :
    epoch_rsaDecrypt (bytes_of (N_to_string e) ++ er_batch_hash (parse_response (ps_proof m)) ++
                      bytes_of (N_to_string (er_nonce (parse_response (ps_proof m)))))
      (er_signature (parse_response (ps_proof m))) = true }.

(** Messages a proxy in epoch [e] has to accuse the sender for. *)
Definition offending (e : N) (m : TransactionsWithProof) : Prop :=
  ps_type m ≠ CON ∧ ∀ ts, ¬ batch_verifies e m ts.

(** Messages a failed [CHECK] stops the process at: the end of another epoch or
    with other proofs than those of the batches of the epoch, an item that is no
    transaction, and a batch that verifies with a transaction of another epoch. *)
Inductive stopping (e : N) (proofs : gset (list N)) (m : TransactionsWithProof) : Prop :=
  | stop_end : ps_type m = CON →
      ¬ (ps_epoch m = e ∧ Forall (.∈ proofs) (ps_data m) ∧ length (ps_data m) = size proofs) →
      stopping e proofs m
  | stop_item raw : ps_type m ≠ CON → raw ∈ ps_data m → (∀ t, ¬ read_as raw t) → stopping e proofs m
  | stop_epoch ts : batch_verifies e m ts → Exists (λ t, tr_epoch t ≠ e) ts → stopping e proofs m.

(** The events of a proxy that starts at [start] and is in epoch [e], where it
    holds [proofs] and has made the calls [cs], when nothing was wrong. *)
Inductive accepted (start : N) : list remote_event → N → gset (list N) → list buffer_call → Prop :=
  | ac_start : accepted start [] start ∅ []
  | ac_batch evs e proofs cs m ts :
      accepted start evs e proofs cs → batch_verifies e m ts → Forall (λ t, tr_epoch t = e) ts →
      accepted start (evs ++ [Message m]) e ({[er_signature (parse_response (ps_proof m))]} ∪ proofs)
        (cs ++ (numbered_push (er_signature (parse_response (ps_proof m))) <$> ts))
  | ac_end evs e proofs cs m :
      accepted start evs e proofs cs → ps_type m = CON → ps_epoch m = e →
      Forall (.∈ proofs) (ps_data m) → length (ps_data m) = size proofs →
      accepted start (evs ++ [Message m]) (e + 1) ∅ (cs ++ [Finish e])
  | ac_wait evs e proofs cs first second :
      accepted start evs e proofs cs → ¬ (second = true ∧ first ≤ e) →
      accepted start (evs ++ [TimedOut (first, second)]) e proofs cs.

(** *** The checks of a batch decide [batch_verifies] *)
Lemma read_as_inj raw t t' : read_as raw t → read_as raw t' → t = t'.
Proof. intros (? & E & ->) (? & E' & ->). congruence. Qed.

Lemma remote_txn_spec raw :
  match remote_txn user_rsaDecrypt ip raw with
  | Ok (t, okay) => read_as raw t ∧ (okay = true ↔ user_signed t)
  | Fatal _ => ∀ t, ¬ read_as raw t
  end.
Proof.
  unfold remote_txn, read_as, user_signed.
  destruct (deserializeFromString raw MockTransaction) as [[[] t]|] eqn:E; simpl.
  - split; [by exists t|done].
  - by intros ? (? & ? & _).
  - by intros ? (? & ? & _).
Qed.

Lemma remote_worker_spec data :
  match remote_worker user_rsaDecrypt ip data with
  | Ok (ts, true) => Forall2 read_as data ts ∧ Forall user_signed ts
  | Ok (_, false) => ∃ raw t, raw ∈ data ∧ read_as raw t ∧ ¬ user_signed t
  | Fatal _ => ∃ raw, raw ∈ data ∧ ∀ t, ¬ read_as raw t
  end.
Proof.
  induction data as [|raw data IH]; simpl; [by split; constructor|].
  pose proof (remote_txn_spec raw) as Ht. destruct (remote_txn user_rsaDecrypt ip raw) as [[t okay]|]; simpl.
  2: { exists raw. by split; [left|]. }
  destruct Ht as [Hr Hs]. destruct okay; simpl.
  2: { exists raw, t. split_and!; [by left|done|]. by intros ?%Hs. }
  destruct (remote_worker user_rsaDecrypt ip data) as [[ts []]|]; simpl.
  - destruct IH. split; constructor; [done|done|by apply Hs|done].
  - destruct IH as (raw' & t' & ? & ?). exists raw', t'. split; [by right|done].
  - destruct IH as (raw' & ? & ?). exists raw'. split; [by right|done].
Qed.

Lemma evens_sub {A} n (l : list A) x : (length l ≤ n)%nat → x ∈ evens l → x ∈ l.
Proof.
  revert l. induction n as [|n IH]; intros [|y [|z l]] Hl; simpl in *; try done; try lia.
  intros [->|Hx]%elem_of_cons; [by left|]. right. right. apply IH; [lia|done].
Qed.

Lemma odds_sub {A} (l : list A) x : x ∈ odds l → x ∈ l.
Proof. unfold odds. intros Hx%(evens_sub (length l)); [|destruct l; simpl; lia]. destruct l; [done|by right]. Qed.

Lemma interleave_Forall2 {A B} (R : A → B → Prop) n l k0 k1 :
  (length l ≤ n)%nat → Forall2 R (evens l) k0 → Forall2 R (odds l) k1 → Forall2 R l (interleave k0 k1).
Proof.
  unfold odds. revert l k0 k1. induction n as [|n IH]; intros [|x [|y l]] k0 k1 Hl H0 H1; simpl in *; try lia.
  - by inversion H0.
  - by inversion H0.
  - inversion H0 as [|? ? ? ? ? H0']; subst. inversion H0'; subst. inversion H1; subst. simpl. by constructor.
  - inversion H0 as [|? b0 ? k0' ? H0']; subst.
    inversion H1 as [|? b1 ? k1' ? H1']; subst. simpl. constructor; [done|]. constructor; [done|].
    apply IH; [lia|done|by destruct l].
Qed.

Lemma remote_all_spec data :
  match remote_all user_rsaDecrypt ip data with
  | Ok (ts, true) => Forall2 read_as data ts ∧ Forall user_signed ts
  | Ok (_, false) => ∃ raw t, raw ∈ data ∧ read_as raw t ∧ ¬ user_signed t
  | Fatal _ => ∃ raw, raw ∈ data ∧ ∀ t, ¬ read_as raw t
  end.
Proof.
  unfold remote_all. pose proof (remote_worker_spec (evens data)) as H0. pose proof (remote_worker_spec (odds data)) as H1.
  destruct (remote_worker user_rsaDecrypt ip (evens data)) as [[ts0 ok0]|]; simpl.
  2: { destruct H0 as (raw & Hin & ?). exists raw. split; [by eapply evens_sub|done]. }
  destruct (remote_worker user_rsaDecrypt ip (odds data)) as [[ts1 ok1]|]; simpl.
  2: { destruct H1 as (raw & Hin & ?). exists raw. split; [by apply odds_sub|done]. }
  destruct ok0; simpl.
  2: { destruct H0 as (raw & t & Hin & ?). exists raw, t. split; [by eapply evens_sub|done]. }
  destruct ok1; simpl.
  2: { destruct H1 as (raw & t & Hin & ?). exists raw, t. split; [by apply odds_sub|done]. }
  destruct H0, H1. split; [by eapply interleave_Forall2|by apply interleave_Forall].
Qed.

Lemma verifyBatchHash_spec ts response :
  verifyBatchHash epoch_rsaDecrypt ts response = true ↔
  N.of_nat (length ts) = er_batch_size response ∧
  er_batch_hash response = hash_ignoring (digest_bytes_of <$> ts) ∧
  epoch_rsaDecrypt (bytes_of (N_to_string (er_epoch response)) ++ er_batch_hash response ++
                    bytes_of (N_to_string (er_nonce response))) (er_signature response) = true.
Proof. unfold verifyBatchHash. rewrite !andb_true_iff, N.eqb_eq, bool_decide_eq_true. tauto. Qed.

Lemma remote_pushes sg ts r :
  match foldM (remote_push sg) ts r with
  | Ok r' => Forall (λ t, tr_epoch t = rp_epoch r) ts ∧
      r' = mkRemote (rp_epoch r) (currentEpochProofSet r) (rp_calls r ++ (numbered_push sg <$> ts))
  | Fatal _ => Exists (λ t, tr_epoch t ≠ rp_epoch r) ts
  end.
Proof.
  revert r. induction ts as [|t ts IH]; intros r; cbn [foldM].
  { split; [done|]. simpl. rewrite app_nil_r. by destruct r. }
  destruct (remote_push sg t r) as [r1|] eqn:E1; unfold remote_push in E1;
    destruct (N.eqb_spec (tr_epoch t) (rp_epoch r)); cbn [CHECK mbind outcome_bind] in *; simplify_eq;
    [|by apply Exists_cons_hd].
  match goal with |- context [foldM _ ts ?r0] => specialize (IH r0) end. cbn [rp_epoch currentEpochProofSet rp_calls] in IH.
  destruct (foldM _ ts _) as [r'|]; [|by right].
  destruct IH as [? ->]. split; [by constructor|]. by rewrite <-app_assoc.
Qed.

(** One message: what the proxy makes of it, on every branch. *)
Lemma receive_remote_spec m r :
  match receive_remote parse_response user_rsaDecrypt epoch_rsaDecrypt ip m r with
  | Ok (Accepted r') =>
      (ps_type m = CON ∧ ps_epoch m = rp_epoch r ∧ Forall (.∈ currentEpochProofSet r) (ps_data m) ∧
       length (ps_data m) = size (currentEpochProofSet r) ∧
       r' = mkRemote (rp_epoch r + 1) ∅ (rp_calls r ++ [Finish (rp_epoch r)])) ∨
      (∃ ts, batch_verifies (rp_epoch r) m ts ∧ Forall (λ t, tr_epoch t = rp_epoch r) ts ∧
       r' = mkRemote (rp_epoch r) ({[er_signature (parse_response (ps_proof m))]} ∪ currentEpochProofSet r)
              (rp_calls r ++ (numbered_push (er_signature (parse_response (ps_proof m))) <$> ts)))
  | Ok (Invalidated _) => False
  | Ok (Malicious r') => offending (rp_epoch r) m ∧ rp_epoch r' = rp_epoch r ∧ rp_calls r' = rp_calls r
  | Fatal _ => stopping (rp_epoch r) (currentEpochProofSet r) m
  end.
Proof.
  unfold receive_remote. assert (ps_type m = CON ∨ ps_type m ≠ CON) as [Ec|Hc] by (destruct (ps_type m); auto).
  { rewrite Ec. destruct (N.eqb_spec (rp_epoch r) (ps_epoch m)) as [He|He]; simpl.
    2: { apply stop_end; [done|]. intros (? & _). congruence. }
    destruct (forallb _ _) eqn:Hp; simpl.
    2: { apply stop_end; [done|]. intros (_ & HF & _). apply eq_true_false_abs in Hp; [done|].
      apply forallb_forall. intros x Hx%list_elem_of_In. rewrite Forall_forall in HF.
      by apply bool_decide_eq_true_2, HF. }
    destruct (Nat.eqb_spec (length (ps_data m)) (size (currentEpochProofSet r))) as [Hn|Hn]; simpl.
    2: { apply stop_end; [done|]. by intros (_ & _ & ?). }
    left. split_and!; try done. apply Forall_forall. intros x Hx%list_elem_of_In.
    rewrite forallb_forall in Hp. by apply (bool_decide_eq_true_1 _), Hp. }
  set (response := parse_response (ps_proof m)).
  assert (∀ B (a b : B), match ps_type m with CON => a | _ => b end = b) as -> by (by destruct (ps_type m)).
  destruct (N.eqb_spec (rp_epoch r) (er_epoch response)) as [He|He]; cbn [negb].
  2: { split_and!; [split; [done|]|done|done]. intros ts []. by subst response. }
  pose proof (remote_all_spec (ps_data m)) as Ha.
  destruct (remote_all user_rsaDecrypt ip (ps_data m)) as [[ts okay]|]; simpl.
  2: { destruct Ha as (raw & ? & ?). by eapply stop_item. }
  destruct okay; simpl.
  2: { split_and!; [split; [done|]|done|done]. destruct Ha as (raw & t & Hin & Hr & Hs). intros ts' Hb.
    apply list_elem_of_lookup in Hin as [i Hi].
    destruct (Forall2_lookup_l _ _ _ _ _ (bv_items _ _ _ Hb) Hi) as (t' & Hi' & Hr').
    apply Hs. rewrite (read_as_inj _ _ _ Hr Hr'). exact (Forall_lookup_1 _ _ _ _ (bv_users _ _ _ Hb) Hi'). }
  destruct Ha as [Hi Hu]. destruct (verifyBatchHash epoch_rsaDecrypt ts response) eqn:Hv; simpl.
  2: { split_and!; [split; [done|]|done|done]. intros ts' [_ He' Hi' _ H1 H2 H3]. fold response in He', H1, H2, H3.
    assert (ts' = ts) as ->.
    { clear -Hi Hi'. revert ts' Hi'. induction Hi; intros ts' Hi'; inversion Hi'; subst; [done|].
      f_equal; [by eapply read_as_inj|by eauto]. }
    rewrite (proj2 (verifyBatchHash_spec ts response)) in Hv; [done|]. by rewrite He'. }
  apply verifyBatchHash_spec in Hv as (H1 & H2 & H3).
  assert (batch_verifies (rp_epoch r) m ts) as Hb by (split; fold response; congruence || done).
  pose proof (remote_pushes (er_signature response) ts
    (mkRemote (rp_epoch r) ({[er_signature response]} ∪ currentEpochProofSet r) (rp_calls r))) as Hp.
  destruct (foldM _ ts _) as [r'|]; simpl in *; [|by eapply stop_epoch].
  destruct Hp as [? ->]. right. by exists ts.
Qed.

(** Put an accepted event in front of the ones to come. *)
Ltac shift_event IH Ha :=
  let H := fresh "H" in
  pose proof (IH _ _ Ha) as H; revert H;
  match goal with |- context [receive_events _ _ _ _ ?evs ?r] =>
    destruct (receive_events parse_response user_rsaDecrypt epoch_rsaDecrypt ip evs r) as [[?|?|?]|]
  end; rewrite <-?app_assoc; simpl;
  [done
  |intros (mid & f0 & after & proofs & -> & ? & ?);
   match goal with |- context [?ev :: mid ++ _] => exists (ev :: mid), f0, after, proofs end;
   rewrite <-?app_assoc in *; done
  |intros (mid & m' & after & proofs & -> & ? & ?);
   match goal with |- context [?ev :: mid ++ _] => exists (ev :: mid), m', after, proofs end;
   rewrite <-?app_assoc in *; done
  |intros (mid & m' & after & e & proofs & cs & -> & ? & ?);
   match goal with |- context [?ev :: mid ++ _] => exists (ev :: mid), m', after, e, proofs, cs end;
   rewrite <-?app_assoc in *; done].

(** The receiving loop from a state that accepted events have led to. *)
Lemma receive_events_spec start evs before r :
  accepted start before (rp_epoch r) (currentEpochProofSet r) (rp_calls r) →
  match receive_events parse_response user_rsaDecrypt epoch_rsaDecrypt ip evs r with
  | Ok (Accepted r') => accepted start (before ++ evs) (rp_epoch r') (currentEpochProofSet r') (rp_calls r')
  | Ok (Invalidated r') => ∃ mid first after proofs, evs = mid ++ TimedOut (first, true) :: after ∧
      accepted start (before ++ mid) (rp_epoch r') proofs (rp_calls r') ∧ first ≤ rp_epoch r'
  | Ok (Malicious r') => ∃ mid m after proofs, evs = mid ++ Message m :: after ∧
      accepted start (before ++ mid) (rp_epoch r') proofs (rp_calls r') ∧ offending (rp_epoch r') m
  | Fatal _ => ∃ mid m after e proofs cs, evs = mid ++ Message m :: after ∧
      accepted start (before ++ mid) e proofs cs ∧ stopping e proofs m
  end.
Proof.
  revert before r. induction evs as [|ev evs IH]; intros before r Ha; simpl; [by rewrite app_nil_r|].
  destruct ev as [m|[first second]]; simpl.
  - pose proof (receive_remote_spec m r) as Hm.
    destruct (receive_remote parse_response user_rsaDecrypt epoch_rsaDecrypt ip m r) as [[r1|r1|r1]|]; simpl.
    + assert (accepted start (before ++ [Message m]) (rp_epoch r1) (currentEpochProofSet r1) (rp_calls r1)) as H1.
      { destruct Hm as [(Ht & He & Hf & Hl & ->)|(ts & Hb & He & ->)]; simpl; [by eapply ac_end|by apply ac_batch]. }
      shift_event IH H1.
    + done.
    + destruct Hm as (Ho & E1 & E2). exists [], m, evs, (currentEpochProofSet r). rewrite app_nil_r, E1, E2. done.
    + exists [], m, evs, (rp_epoch r), (currentEpochProofSet r), (rp_calls r). by rewrite app_nil_r.
  - destruct (second && (first <=? rp_epoch r)) eqn:Hb; simpl.
    + apply andb_true_iff in Hb as [-> ?%N.leb_le]. exists [], first, evs, (currentEpochProofSet r). by rewrite app_nil_r.
    + assert (accepted start (before ++ [TimedOut (first, second)]) (rp_epoch r) (currentEpochProofSet r) (rp_calls r)) as H1.
      { apply ac_wait; [done|]. intros [-> ?%N.leb_le]. by rewrite andb_true_l in Hb; congruence. }
      shift_event IH H1.
Qed.

Lemma clean_pushes sg start e cs ts :
  clean start e cs → Forall (λ t, tr_epoch t = e ∧ user_signed t ∧ invalidBit t = Some ip) ts →
  clean start e (cs ++ (numbered_push sg <$> ts)).
Proof.
  intros Hc Hts. revert cs Hc. induction Hts as [|t ts (? & ? & ?) Hts IH]; intros cs Hc; [by rewrite app_nil_r|].
  rewrite fmap_cons, cons_middle, app_assoc. apply IH. by apply clean_push.
Qed.

Lemma accepted_clean start evs e proofs cs : accepted start evs e proofs cs → clean start e cs.
Proof.
  induction 1 as [|evs e proofs cs m ts _ IH Hb He| |]; [by constructor| |by apply clean_finish|done].
  apply clean_pushes; [done|]. destruct Hb as [_ _ Hi Hu _ _ _]. apply Forall_forall. intros t Ht.
  rewrite Forall_forall in He, Hu. split_and!; [by apply He|by apply Hu|].
  apply list_elem_of_lookup in Ht as [i Ht]. destruct (Forall2_lookup_r _ _ _ _ _ Hi Ht) as (? & _ & ? & _ & ->). done.
Qed.

Lemma skip_epochs n r :
  let r' := Nat.iter n skip_epoch r in
  rp_epoch r' = rp_epoch r + N.of_nat n ∧
  rp_calls r' = rp_calls r ++ ((λ i, Finish (rp_epoch r + N.of_nat i)) <$> seq 0 n).
Proof.
  induction n as [|n [E1 E2]]; [simpl; rewrite app_nil_r; split; [lia|done]|].
  rewrite Nat.iter_succ. cbn zeta. unfold skip_epoch at 1 3. cbn [rp_epoch rp_calls].
  rewrite seq_S, fmap_app, E2, E1, <-app_assoc. split; [lia|done].
Qed.


End Defence.

(** ** A run of a local and a remote proxy *)
Module TwoServers.

#[local] Existing Instance Varint.varint_protobuf.
#[local] Existing Instance Varint.varint_laws.

(** Signatures as checksums. *)
Definition sign (m : list N) : list N := [foldr N.add 0 m].
Definition check (m s : list N) : bool := bool_decide (s = sign m).

Definition user_txn (n : N) : Transaction :=
  setPayload (mkPayload "h" "p" n (of_bytes (sign (payload_SerializeAsString (mkPayload "h" "p" n "")))))
    MockTransaction.

Definition respond (epoch nonce : N) (ts : list Transaction) : EpochResponse :=
  let h := hash_ignoring (digest_bytes_of <$> ts) in
  mkResponse epoch (N.of_nat (length ts)) h nonce
    (sign (bytes_of (N_to_string epoch) ++ h ++ bytes_of (N_to_string nonce))).

Definition parse (raw : string) : EpochResponse :=
  if String.eqb raw "a" then respond 1 1 [user_txn 1]
  else if String.eqb raw "b" then respond 3 2 [user_txn 2; user_txn 3; user_txn 4]
  else if String.eqb raw "c" then respond 2 3 [user_txn 5]
  else respond 3 4 [user_txn 5].

(** The third answer is behind and is asked for again. *)
Definition answers : list (string * list Transaction) :=
  [("a", [user_txn 1]); ("b", [user_txn 2; user_txn 3; user_txn 4]); ("c", [user_txn 5]); ("d", [user_txn 5])]%string.

Lemma proxies_agree_witness :
  length (collect parse answers 1) = 3%nat ∧
  ∃ l r, foldM (receive_local parse "me") (collect parse answers 1) (new_local 1) = Ok l ∧
    receive_all parse check check "me" (lp_sent l) (new_remote 1) = Ok (Accepted r) ∧
    rp_epoch r = lp_epoch l ∧ rp_calls r = copy "me" <$> lp_calls l.
Proof.
  split; [vm_compute; reflexivity|]. apply (proxies_agree parse check check "me" "me" answers 1).
  - repeat constructor; vm_compute; reflexivity.
  - apply (bool_decide_unpack _). vm_compute. exact I.
Defined.

(** The messages of the first epoch, written out. *)
Definition first_epoch : list TransactionsWithProof :=
  [mkProof 1 TX "a" "" [serialize_body (setEpoch 1 (user_txn 1)) ++ repeat 0 32];
   mkProof 1 CON "" "me" [er_signature (parse "a")]].

Definition after_first_epoch : RemoteProxy :=
  mkRemote 2 ∅ [Push (setTransactionID 14795633657699827986 (setInvalidBit "me" (setEpoch 1 (user_txn 1)))); Finish 1].

(** A batch for epoch 3 while the proxy is in epoch 2. *)
Definition bad_batch : TransactionsWithProof := mkProof 3 TX "b" "" [].

Definition after_exception : RemoteProxy :=
  mkRemote 4 ∅ (rp_calls after_first_epoch ++ [Finish 2; Finish 3]).


End TwoServers.
