(* ===== verification/UserCollector.v ===== *)
(** * The threads of the user collector

    [user_collector.cpp]: one thread receives the requests of the users and
    queues them; a second one takes up to [USER_REQUEST_BATCH_SIZE] of them,
    makes transactions of them and starts a task that asks the epoch servers for
    the epoch of the batch.  Up to [clientSize] tasks wait for answers at a
    time; the answers are handled under a lock, in the order in which they come,
    and one that is behind the latest epoch is asked for again.

    The functions for one batch are in [ClientProxy]; here they run
    concurrently.  A request is read from the wire by [parse_request]; [answer]
    tells which messages are answers of the epoch servers to a request. *)
From S2P Require Import Prelude Sha256 Transaction TransactionCodec ClientProxy.
From Stdlib Require Import ZArith NArith Lia Sorted.
From stdpp Require Import base list gmap strings relations.

Local Open Scope N_scope.
#[local] Arguments sha256 : simpl never.

Definition USER_REQUEST_BATCH_SIZE : nat := 300.
Definition clientSize : nat := 10.

(** A task of the pool [receiver]: the batch and the request for its epoch. *)
Record pending_batch := mkPending { pb_txns : list Transaction; pb_request : list N * N }.

Record UserCollector := mkCollector {
  requestBuffer : list (list N);
  uc_tasks : list pending_batch;
  uc_latestEpoch : N;
  (** The calls of [newTransactionHandle]. *)
  uc_handed : list (string * list Transaction);
  (** All requests received, and all answers handled, with their batches. *)
  uc_received : list (list N);
  uc_answers : list (string * list Transaction) }.

Definition new_UserCollector : UserCollector := mkCollector [] [] 1 [] [] [].

Section Collector.
Context `{Protobuf}.
Context (parse_request : list N → UserRequest) (parse_payload : list N → TransactionPayload).
Context (parse_response : string → EpochResponse) (user_rsaDecrypt : list N → list N → bool).
Context (answer : list N * N → string → Prop).

(** A round of [processRequest] that found [k] requests. *)
Definition process_batch (k : nat) (u : UserCollector) : outcome UserCollector :=
  ts ← make_all parse_payload user_rsaDecrypt (parse_request <$> take k (requestBuffer u));
  request ← epoch_request ts;
  Ok (mkCollector (drop k (requestBuffer u)) (uc_tasks u ++ [mkPending ts request]) (uc_latestEpoch u)
        (uc_handed u) (uc_received u) (uc_answers u)).

(** An answer to task [i], under the lock. *)
Definition handle_answer (i : nat) (b : pending_batch) (responseRaw : string) (u : UserCollector) : UserCollector :=
  let log := uc_answers u ++ [(responseRaw, pb_txns b)] in
  match accept_response parse_response responseRaw (pb_txns b) (uc_latestEpoch u) with
  | None => mkCollector (requestBuffer u) (uc_tasks u) (uc_latestEpoch u) (uc_handed u) (uc_received u) log
  | Some (call, latest) =>
      mkCollector (requestBuffer u) (delete i (uc_tasks u)) latest (uc_handed u ++ [call]) (uc_received u) log
  end.

Inductive uc_step (u : UserCollector) : UserCollector → Prop :=
  | uc_receive message :
      uc_step u (mkCollector (requestBuffer u ++ [message]) (uc_tasks u) (uc_latestEpoch u) (uc_handed u)
                   (uc_received u ++ [message]) (uc_answers u))
  | uc_process k u' :
      (0 < k ≤ USER_REQUEST_BATCH_SIZE)%nat → (k ≤ length (requestBuffer u))%nat →
      process_batch k u = Ok u' → uc_step u u'
  (* The pool runs the oldest tasks that are not finished. *)
  | uc_answer i b responseRaw :
      (i < clientSize)%nat → uc_tasks u !! i = Some b → answer (pb_request b) responseRaw →
      uc_step u (handle_answer i b responseRaw u).

(** ** Conservation *)

(** What a request becomes. *)
Definition payload_of (r : UserRequest) : TransactionPayload :=
  let p := parse_payload (ur_payload r) in
  mkPayload (pl_header p) (pl_payload p) (pl_nonce p) (of_bytes (ur_digest r)).

Definition payloads (ts : list Transaction) : list TransactionPayload := transactionPayload <$> ts.
Definition raw_payloads (rs : list (list N)) : list TransactionPayload := (payload_of ∘ parse_request) <$> rs.

Lemma make_all_ok rs ts :
  make_all parse_payload user_rsaDecrypt rs = Ok ts → payloads ts = payload_of <$> rs ∧ length ts = length rs.
Proof.
  revert ts. induction rs as [|r rs IH]; intros ts E; simpl in E; [by injection E as <-|].
  apply outcome_bind_Ok in E as (t & Et & E). apply outcome_bind_Ok in E as (ts' & Ets & E). injection E as <-.
  destruct (IH ts' Ets) as [IH1 IH2]. simpl. split; [|by f_equal]. unfold payloads in *. f_equal; [|done].
  unfold make_transaction in Et. apply outcome_bind_Ok in Et as (_ & _ & Et). by injection Et as <-.
Qed.

(** A request that the collector accepts: signed, with a digest below 4 GiB. *)
Definition acceptable (r : UserRequest) : Prop :=
  user_rsaDecrypt (ur_payload r) (ur_digest r) = true ∧ N.of_nat (length (ur_digest r)) < 2 ^ 32.
Definition hashable (t : Transaction) : Prop := piece_ok (digest_bytes_of t).

Lemma length_of_bytes l : length (bytes_of (of_bytes l)) = length l.
Proof.
  unfold bytes_of, of_bytes. rewrite length_fmap, String.list_ascii_of_string_of_list_ascii. apply length_fmap.
Qed.

Lemma make_all_acceptable rs :
  Forall acceptable rs → ∃ ts, make_all parse_payload user_rsaDecrypt rs = Ok ts ∧ Forall hashable ts.
Proof.
  induction 1 as [|r rs [Hr Hl] _ (ts & IH & Hts)]; [by exists []|]. simpl. unfold make_transaction. rewrite Hr. simpl.
  rewrite IH. simpl. eexists. split; [done|]. constructor; [|done]. split; [apply bytes_of_small|].
  unfold digest_bytes_of. simpl. by rewrite length_of_bytes.
Qed.

Lemma append_checked_all pieces c c' : append_all pieces c = (true, c') → append_checked pieces c = Ok c'.
Proof.
  revert c. induction pieces as [|d ds IH]; intros c E; simpl in *; [by injection E as ->|].
  destruct (sha_helper_append d c) as [[] c1]; [|done]. simpl. by apply IH.
Qed.

Lemma epoch_request_ok ts :
  Forall hashable ts → (length ts ≤ USER_REQUEST_BATCH_SIZE)%nat → ∃ r, epoch_request ts = Ok r.
Proof.
  intros Ht Hl. unfold epoch_request.
  assert (Forall piece_ok (digest_bytes_of <$> ts)) as Hp by (by apply Forall_fmap).
  assert (N.of_nat (length (concat (digest_bytes_of <$> ts))) ≤ N.of_nat (length ts) * 2 ^ 32) as Hlen.
  { clear Hl Hp. induction Ht as [|t ts [_ Ht] _ IH]; [done|]. cbn [fmap list_fmap concat]. rewrite length_app. cbn [length]. lia. }
  destruct (append_all_absorbed (digest_bytes_of <$> ts) [] SHA256Reset reset_absorbed Hp) as (c & E & _).
  { cbn [length]. unfold USER_REQUEST_BATCH_SIZE in Hl. lia. }
  rewrite (append_checked_all _ _ _ E). by eexists.
Qed.

Lemma payloads_stamped e ts : payloads (setEpoch e <$> ts) = payloads ts.
Proof. unfold payloads. rewrite <-list_fmap_compose. by apply list_fmap_ext. Qed.

(** The request for a batch depends on the digests only. *)
Lemma epoch_request_stamped e ts : epoch_request (setEpoch e <$> ts) = epoch_request ts.
Proof.
  unfold epoch_request. rewrite length_fmap, <-list_fmap_compose.
  assert (digest_bytes_of ∘ setEpoch e <$> ts = digest_bytes_of <$> ts) as -> by (by apply list_fmap_ext). done.
Qed.

(** [latestEpoch] after a sequence of answers. *)
Fixpoint latest_after (answers : list (string * list Transaction)) (latest : N) : N :=
  match answers with
  | [] => latest
  | (raw, ts) :: answers =>
      latest_after answers
        (match accept_response parse_response raw ts latest with Some (_, l) => l | None => latest end)
  end.

Lemma collect_app xs ys latest :
  collect parse_response (xs ++ ys) latest =
    collect parse_response xs latest ++ collect parse_response ys (latest_after xs latest).
Proof.
  revert latest. induction xs as [|[raw ts] xs IH]; intros latest; [done|]. simpl.
  destruct (accept_response _ _ _ _) as [[b l]|]; simpl; by rewrite IH.
Qed.

Lemma latest_after_snoc xs raw ts latest :
  latest_after (xs ++ [(raw, ts)]) latest =
    match accept_response parse_response raw ts (latest_after xs latest) with
    | Some (_, l) => l | None => latest_after xs latest end.
Proof. revert latest. induction xs as [|[raw' ts'] xs IH]; intros latest; [done|]. simpl. apply IH. Qed.

Definition good_batch (b : list Transaction) (request : list N * N) : Prop :=
  (0 < length b ≤ USER_REQUEST_BATCH_SIZE)%nat ∧ epoch_request b = Ok request.

Record uc_ok (u : UserCollector) : Prop := {
  uo_conserved : payloads (concat (uc_handed u).*2) ++ payloads (concat (pb_txns <$> uc_tasks u)) ++
                 raw_payloads (requestBuffer u) ≡ₚ raw_payloads (uc_received u);
  uo_handed : uc_handed u = collect parse_response (uc_answers u) 1;
  uo_latest : uc_latestEpoch u = latest_after (uc_answers u) 1;
  uo_tasks : Forall (λ b, good_batch (pb_txns b) (pb_request b)) (uc_tasks u);
  uo_batches : Forall (λ c, ∃ request, good_batch c.2 request ∧ answer request c.1) (uc_handed u) }.

Lemma process_ok k u u' :
  uc_ok u → (0 < k ≤ USER_REQUEST_BATCH_SIZE)%nat → (k ≤ length (requestBuffer u))%nat →
  process_batch k u = Ok u' → uc_ok u'.
Proof.
  intros [] Hk Hl E. unfold process_batch in E. apply outcome_bind_Ok in E as (ts & Ets & E).
  apply outcome_bind_Ok in E as (request & Er & E). injection E as <-.
  destruct (make_all_ok _ _ Ets) as [Hp Hlen]. split; simpl; try done.
  - rewrite <-uo_conserved0, fmap_app, concat_app. unfold payloads in *. rewrite !fmap_app. simpl.
    rewrite app_nil_r, Hp. rewrite <-(take_drop k (requestBuffer u)) at 3. unfold raw_payloads.
    by rewrite fmap_app, <-list_fmap_compose, <-!(assoc_L (++)).
  - apply Forall_app. split; [done|]. apply Forall_singleton. split; [|done].
    simpl. rewrite Hlen, length_fmap, length_take. lia.
Qed.

Lemma concat_delete {A B} (f : A → list B) (l : list A) i x :
  l !! i = Some x → concat (f <$> l) ≡ₚ f x ++ concat (f <$> delete i l).
Proof. intros Hi. by rewrite (delete_Permutation l i x Hi) at 1. Qed.

Lemma answer_ok i b raw u :
  uc_ok u → uc_tasks u !! i = Some b → answer (pb_request b) raw → uc_ok (handle_answer i b raw u).
Proof.
  intros [] Hi Ha. unfold handle_answer.
  pose proof (latest_after_snoc (uc_answers u) raw (pb_txns b) 1) as Hlat. rewrite <-uo_latest0 in Hlat.
  assert (collect parse_response (uc_answers u ++ [(raw, pb_txns b)]) 1 =
    uc_handed u ++ collect parse_response [(raw, pb_txns b)] (uc_latestEpoch u)) as Hcol.
  { by rewrite collect_app, <-uo_handed0, <-uo_latest0. }
  simpl in Hcol. destruct (accept_response parse_response raw (pb_txns b) (uc_latestEpoch u)) as [[call latest]|] eqn:E.
  - assert (call = (raw, setEpoch (er_epoch (parse_response raw)) <$> pb_txns b)) as Hcall.
    { unfold accept_response in E. destruct (_ <? _); [done|]. by injection E as <- _. }
    pose proof (Forall_lookup_1 _ _ _ _ uo_tasks0 Hi) as [Hlen Hreq].
    split; simpl; [| |done| |].
    + rewrite <-uo_conserved0, fmap_app, concat_app, Hcall. simpl. rewrite app_nil_r.
      unfold payloads. rewrite (concat_delete pb_txns _ _ _ Hi), !fmap_app.
      fold (payloads (setEpoch (er_epoch (parse_response raw)) <$> pb_txns b)). rewrite payloads_stamped.
      by rewrite <-!(assoc_L (++)).
    + by rewrite Hcol.
    + by apply Forall_delete.
    + apply Forall_app. split; [done|]. apply Forall_singleton. rewrite Hcall. simpl. exists (pb_request b).
      split; [|done]. split; [by rewrite length_fmap|by rewrite epoch_request_stamped].
  - split; simpl; try done. by rewrite Hcol, app_nil_r.
Qed.

Lemma uc_step_ok u u' : uc_ok u → uc_step u u' → uc_ok u'.
Proof.
  intros Hu [message|k u1 Hk Hl E|i b raw _ Hi Ha].
  - destruct Hu. split; simpl; try done. unfold raw_payloads in *. rewrite !fmap_app, <-uo_conserved0.
    by rewrite <-!(assoc_L (++)).
  - by eapply process_ok.
  - by apply answer_ok.
Qed.

(** [latestEpoch] is the epoch of the last batch handed over. *)
Lemma latest_after_last xs latest :
  latest_after xs latest = default latest (last (epoch_at parse_response <$> collect parse_response xs latest)).
Proof.
  revert latest. induction xs as [|[raw ts] xs IH]; intros latest; [done|]. simpl. rewrite IH. unfold accept_response.
  destruct (N.ltb_spec (er_epoch (parse_response raw)) latest) as [|Hge]; [done|].
  assert ((if latest <? er_epoch (parse_response raw) then er_epoch (parse_response raw) else latest) =
    er_epoch (parse_response raw)) as -> by (destruct (N.ltb_spec latest (er_epoch (parse_response raw))); lia).
  rewrite fmap_cons. set (l := epoch_at parse_response <$> collect _ _ _).
  change (epoch_at parse_response (raw, setEpoch (er_epoch (parse_response raw)) <$> ts)) with (er_epoch (parse_response raw)).
  by destruct l as [|x l]; [|rewrite last_cons_cons; destruct (last (x :: l)) eqn:E; [|by apply last_None in E]].
Qed.

(** C19: the collector loses and duplicates no request.  Whatever the sizes of the
    batches and the order of the answers: every request received is in exactly
    one place, queued, in a batch that waits for its epoch, or in a batch handed
    to the proxy, with its payload and digest; a batch has between 1 and 300
    transactions and was handed over with an answer to the request for exactly
    this batch; the epochs of the batches handed over never go back, and every
    transaction of a batch has the epoch of its answer; an answer to a waiting
    batch that is not behind the batches handed over before hands the batch
    over, and one that is behind leaves it waiting.  While the queued requests
    are signed by their users, any number of them up to 300 can be processed as
    a batch. *)
Theorem collector_exact u :
  rtc uc_step new_UserCollector u →
  payloads (concat (uc_handed u).*2) ++ payloads (concat (pb_txns <$> uc_tasks u)) ++
    raw_payloads (requestBuffer u) ≡ₚ raw_payloads (uc_received u) ∧
  Forall (λ c, (0 < length c.2 ≤ USER_REQUEST_BATCH_SIZE)%nat ∧
               ∃ request, epoch_request c.2 = Ok request ∧ answer request c.1) (uc_handed u) ∧
  StronglySorted N.le ((λ c, er_epoch (parse_response c.1)) <$> uc_handed u) ∧
  Forall (λ c, Forall (λ t, tr_epoch t = er_epoch (parse_response c.1)) c.2) (uc_handed u) ∧
  (∀ i b raw, (i < clientSize)%nat → uc_tasks u !! i = Some b → answer (pb_request b) raw →
     let e := er_epoch (parse_response raw) in
     let latest := default 1 (last ((λ c, er_epoch (parse_response c.1)) <$> uc_handed u)) in
     ∃ u', uc_step u u' ∧
       (latest ≤ e → uc_handed u' = uc_handed u ++ [(raw, setEpoch e <$> pb_txns b)] ∧ uc_tasks u' = delete i (uc_tasks u)) ∧
       (e < latest → uc_handed u' = uc_handed u ∧ uc_tasks u' = uc_tasks u)) ∧
  (Forall (λ raw, acceptable (parse_request raw)) (requestBuffer u) →
   ∀ k, (0 < k ≤ USER_REQUEST_BATCH_SIZE)%nat → (k ≤ length (requestBuffer u))%nat →
   ∃ u', process_batch k u = Ok u' ∧ uc_step u u').
Proof.
  intros Hr. assert (uc_ok u) as [].
  { eapply (rtc_invariant uc_step); [by intros ????; eapply uc_step_ok| |exact Hr]. by split. }
  destruct (collect_ok parse_response (uc_answers u) 1) as [Hsort Hstamp]. rewrite <-uo_handed0 in Hsort, Hstamp.
  split_and!; [done| |exact Hsort| | |].
  - eapply Forall_impl; [exact uo_batches0|]. intros c (request & [H1 H2] & H3). eauto.
  - eapply Forall_impl; [exact Hstamp|]. by intros c [_ ?].
  - intros i b raw Hi Hb Ha. exists (handle_answer i b raw u). split; [by apply uc_answer|].
    rewrite latest_after_last, <-uo_handed0 in uo_latest0. change (uc_latestEpoch u =
      default 1 (last ((λ c, er_epoch (parse_response c.1)) <$> uc_handed u))) in uo_latest0.
    rewrite <-uo_latest0. unfold handle_answer, accept_response.
    destruct (N.ltb_spec (er_epoch (parse_response raw)) (uc_latestEpoch u)); simpl; split; intros; first [done | lia].
  - intros Hs k Hk Hl.
    destruct (make_all_acceptable (parse_request <$> take k (requestBuffer u))) as (ts & Ets & Hts).
    { apply Forall_fmap. by apply Forall_take. }
    destruct (make_all_ok _ _ Ets) as [_ Hlen]. destruct (epoch_request_ok ts Hts) as [request Er].
    { rewrite Hlen, length_fmap, length_take. lia. }
    assert (∃ u', process_batch k u = Ok u') as [u' E].
    { unfold process_batch. rewrite Ets. simpl. rewrite Er. by eexists. }
    exists u'. split; [done|]. by eapply uc_process.
Qed.

End Collector.

(** ** A run with two batches *)
Module TwoBatches.

(** A request is its nonce, signed with itself; the epoch servers answer with
    the hash and the size of the batch. *)
Definition parse_request (raw : list N) : UserRequest := mkUser raw raw.
Definition parse_payload (raw : list N) : TransactionPayload := mkPayload "h" "p" (foldr N.add 0 raw) "".
Definition check (m s : list N) : bool := bool_decide (s = m).

Definition txn (n : N) : Transaction :=
  setPayload (mkPayload "h" "p" n (of_bytes [n])) (setReadOnly false MockTransaction).
Definition respond (epoch n : N) : EpochResponse :=
  match epoch_request [txn n] with
  | Ok (hash, size) => mkResponse epoch size hash 0 []
  | _ => mkResponse 0 0 [] 0 []
  end.
Definition parse (raw : string) : EpochResponse :=
  if String.eqb raw "a1" then respond 1 7 else if String.eqb raw "a2" then respond 2 7 else respond 2 8.
Definition answers (request : list N * N) (raw : string) : Prop :=
  (er_batch_hash (parse raw), er_batch_size (parse raw)) = request.

Definition step := uc_step parse_request parse_payload parse check answers.

Definition waiting (n : N) : pending_batch :=
  mkPending [txn n] (er_batch_hash (respond 1 n), er_batch_size (respond 1 n)).

(** Two requests, a batch each. *)
Definition sent : UserCollector := mkCollector [] [waiting 7; waiting 8] 1 [] [[7]; [8]] [].
(** The second batch is answered first, and the answer to the first one is then
    behind. *)
Definition overtaken : UserCollector := handle_answer parse 1 (waiting 8) "b2" sent.
Definition asked_again : UserCollector := handle_answer parse 0 (waiting 7) "a1" overtaken.
Definition done_both : UserCollector := handle_answer parse 0 (waiting 7) "a2" asked_again.

Lemma sends_both : rtc step new_UserCollector sent.
Proof.
  eapply rtc_l; [exact (uc_receive _ _ _ _ _ _ [7])|].
  eapply rtc_l; [exact (uc_receive _ _ _ _ _ _ [8])|].
  eapply rtc_l; [eapply (uc_process _ _ _ _ _ _ 1); [unfold USER_REQUEST_BATCH_SIZE; lia|simpl; lia|vm_compute; reflexivity]|].
  eapply rtc_once. eapply (uc_process _ _ _ _ _ _ 1); [unfold USER_REQUEST_BATCH_SIZE; lia|simpl; lia|vm_compute; reflexivity].
Qed.

Lemma answers_both : rtc step sent done_both.
Proof.
  eapply rtc_l; [apply (uc_answer _ _ _ _ _ sent 1 (waiting 8) "b2")|]; [unfold clientSize; lia|vm_compute; reflexivity..|].
  eapply rtc_l; [apply (uc_answer _ _ _ _ _ overtaken 0 (waiting 7) "a1")|]; [unfold clientSize; lia|vm_compute; reflexivity..|].
  eapply rtc_once. apply (uc_answer _ _ _ _ _ asked_again 0 (waiting 7) "a2"); [unfold clientSize; lia|vm_compute; reflexivity..].
Qed.

(** Both batches end in epoch 2, the second one first. *)
Lemma collector_exact_witness :
  rtc step new_UserCollector done_both ∧
  uc_handed done_both = [("b2", [setEpoch 2 (txn 8)]); ("a2", [setEpoch 2 (txn 7)])]%string ∧
  StronglySorted N.le ((λ c, er_epoch (parse c.1)) <$> uc_handed done_both).
Proof.
  assert (rtc step new_UserCollector done_both) as Hr.
  { etrans; [exact sends_both|exact answers_both]. }
  split; [exact Hr|]. split; [vm_compute; reflexivity|].
  exact (proj1 (proj2 (proj2 (collector_exact parse_request parse_payload parse check answers done_both Hr)))).
Defined.

End TwoBatches.
