(* ===== verification/EpochServer.v ===== *)
(** * The epoch servers

    [ev_consensus_manager.cpp]: an epoch server stamps the batches of the block
    servers with the current epoch, a running count and its signature.  When the
    epoch has lasted long enough it asks, once, for the next one; the request
    goes through a raft group, and every epoch server moves on when the group
    delivers it.

    Raft is modelled by its contract: the servers receive one log in the same
    order; a request that was sent may be appended at any time, more than once
    (the client resends).  The clock is an argument, as is the signature. *)
From S2P Require Import Prelude DecimalString Sha256 MerkleTree Transaction TransactionCodec ConsensusControl ClientProxy.
From Stdlib Require Import ZArith NArith Lia.
From stdpp Require Import base list gmap strings sorting.

Local Open Scope N_scope.
#[local] Arguments sha256 : simpl never.

Record EpochRequest := mkRequest { rq_batch_size : N; rq_batch_hash : list N }.

Record EpochServer := mkES {
  current_epoch : N;
  epochApproveMap : gmap N N;
  epochSizeMap : gmap N N;
  totalSize : N;
  sent_increase_message : bool }.

Definition new_EpochServer : EpochServer := mkES 1 ∅ ∅ 0 false.

(** One message of [receiver_from_raft]. *)
Definition receiver_from_raft (expect_epoch : N) (s : EpochServer) : EpochServer :=
  let approve := <[expect_epoch := default 0 (epochApproveMap s !! expect_epoch) + 1]> (epochApproveMap s) in
  mkES (if current_epoch s <? expect_epoch then expect_epoch else current_epoch s) approve
    (epochSizeMap s) (totalSize s) (sent_increase_message s).

Section Serve.
(** What [rsaEncrypt] writes to the signature. *)
Context (rsaEncrypt : list N → list N).

Definition signed_message (epoch : N) (batch_hash : list N) (nonce : N) : list N :=
  bytes_of (N_to_string epoch) ++ batch_hash ++ bytes_of (N_to_string nonce).

(** One request of [receiver_from_user]; [expired] is [timer.end() > duration].
    The result is the response and the epoch asked for, if any.  Logging the
    size of the previous epoch creates its entry. *)
Definition receiver_from_user (expired : bool) (request : EpochRequest) (s : EpochServer)
    : EpochResponse * option N * EpochServer :=
  let epochNum := current_epoch s in
  let '(sizes, sent) :=
    match epochSizeMap s !! epochNum with
    | None =>
        (if epochNum =? 1 then epochSizeMap s
         else <[epochNum - 1 := default 0 (epochSizeMap s !! (epochNum - 1))]> (epochSizeMap s), false)
    | Some _ => (epochSizeMap s, sent_increase_message s)
    end in
  let ask := expired && negb sent in
  let currentRequestSize := rq_batch_size request in
  let total := u64 (totalSize s + currentRequestSize) in
  let sizes := <[epochNum := u64 (default 0 (sizes !! epochNum) + currentRequestSize)]> sizes in
  let signature := rsaEncrypt (signed_message epochNum (rq_batch_hash request) total) in
  (mkResponse epochNum currentRequestSize (rq_batch_hash request) total signature,
   if ask then Some (epochNum + 1) else None,
   mkES epochNum (epochApproveMap s) sizes total (sent || ask)).

(** ** The group *)
Record member := mkMember {
  mb_server : EpochServer;
  (** How much of the log it has received, what it asked for and answered. *)
  mb_delivered : nat;
  mb_asked : list N;
  mb_responses : list EpochResponse }.
Record group := mkGroup { members : list member; raft_log : list N }.

Definition new_group (n : nat) : group := mkGroup (replicate n (mkMember new_EpochServer 0 [] [])) [].

Inductive g_step (g : group) : group → Prop :=
  | g_request i m expired request response ask s' :
      members g !! i = Some m →
      receiver_from_user expired request (mb_server m) = (response, ask, s') →
      g_step g (mkGroup (<[i := mkMember s' (mb_delivered m) (mb_asked m ++ option_list ask)
                                  (mb_responses m ++ [response])]> (members g)) (raft_log g))
  | g_append i m e :
      members g !! i = Some m → e ∈ mb_asked m → g_step g (mkGroup (members g) (raft_log g ++ [e]))
  | g_deliver i m e :
      members g !! i = Some m → raft_log g !! mb_delivered m = Some e →
      g_step g (mkGroup (<[i := mkMember (receiver_from_raft e (mb_server m)) (S (mb_delivered m))
                                  (mb_asked m) (mb_responses m)]> (members g)) (raft_log g)).

Definition g_run (n : nat) : group → Prop := rtc g_step (new_group n).

(** ** The epoch of a server *)
Definition top (l : list N) : N := foldr N.max 1 l.

Lemma top_snoc l e : top (l ++ [e]) = N.max (top l) e.
Proof. induction l as [|x l IH]; simpl; lia. Qed.

Lemma top_app l k : top l ≤ top (l ++ k).
Proof. induction l as [|x l IH]; simpl; [induction k; simpl; lia|lia]. Qed.

Lemma top_take l n : top (take n l) ≤ top l.
Proof. rewrite <-(take_drop n l) at 2. apply top_app. Qed.

(** No entry of the log goes beyond the next epoch. *)
Definition gapless (l : list N) : Prop := ∀ k e, l !! k = Some e → e ≤ top (take k l) + 1.

Lemma gapless_snoc l e : gapless l → e ≤ top l + 1 → gapless (l ++ [e]).
Proof.
  intros Hl He k e' Hk. apply lookup_app_Some in Hk as [Hk|[Hge Hk]].
  - pose proof (lookup_lt_Some _ _ _ Hk). rewrite take_app_le by lia. by apply Hl.
  - apply list_lookup_singleton_Some in Hk as [Hk <-]. rewrite take_app_ge by lia.
    replace (k - length l)%nat with 0%nat by lia. by rewrite app_nil_r.
Qed.

Lemma gapless_all l e : gapless l → 1 < e ≤ top l → e ∈ l.
Proof.
  induction l as [|x l IH] using rev_ind; intros Hl He; [simpl in He; lia|].
  assert (gapless l) as Hl'.
  { intros k y Hk. pose proof (lookup_lt_Some _ _ _ Hk). specialize (Hl k y).
    rewrite take_app_le in Hl by lia. apply Hl. by apply lookup_app_l_Some. }
  rewrite top_snoc in He. destruct (N.le_gt_cases e (top l)) as [Hle|Hgt].
  - apply elem_of_app. left. apply IH; [done|lia].
  - assert (x ≤ top l + 1) as Hx.
    { specialize (Hl (length l) x). rewrite take_app_length in Hl. apply Hl. by apply list_lookup_middle. }
    assert (e = x) as -> by lia. apply elem_of_app. right. by left.
Qed.

Record member_ok (log : list N) (m : member) : Prop := {
  mo_delivered : (mb_delivered m ≤ length log)%nat;
  mo_epoch : current_epoch (mb_server m) = top (take (mb_delivered m) log);
  mo_asked e : e ∈ mb_asked m → e ≤ current_epoch (mb_server m) + 1;
  mo_asked_now : current_epoch (mb_server m) + 1 ∈ mb_asked m →
    is_Some (epochSizeMap (mb_server m) !! current_epoch (mb_server m)) ∧
    sent_increase_message (mb_server m) = true;
  mo_asked_once : NoDup (mb_asked m);
  mo_sorted : StronglySorted N.le (er_epoch <$> mb_responses m);
  mo_past r : r ∈ mb_responses m → er_epoch r ≤ current_epoch (mb_server m) }.

Lemma member_ok_log log k m : member_ok log m → member_ok (log ++ k) m.
Proof.
  intros []. split; try done; [rewrite length_app; lia|]. by rewrite take_app_le.
Qed.

Lemma sorted_snoc (l : list N) e : StronglySorted N.le l → (∀ x, x ∈ l → x ≤ e) → StronglySorted N.le (l ++ [e]).
Proof.
  induction 1 as [|x l Hl IH Hx]; intros He; simpl; [repeat constructor|]. constructor.
  - apply IH. intros y Hy. apply He. by right.
  - apply Forall_app. split; [done|]. constructor; [|done]. apply He. by left.
Qed.

Lemma request_ok log m expired request response ask s' :
  member_ok log m → receiver_from_user expired request (mb_server m) = (response, ask, s') →
  member_ok log (mkMember s' (mb_delivered m) (mb_asked m ++ option_list ask) (mb_responses m ++ [response])).
Proof.
  intros [] E. unfold receiver_from_user in E. set (s := mb_server m) in *. set (e := current_epoch s) in *.
  destruct (match epochSizeMap s !! e with None => _ | Some _ => _ end) as [sizes sent] eqn:Es.
  assert (sent = false → e + 1 ∉ mb_asked m) as Hfresh.
  { intros -> Hin. destruct (mo_asked_now0 Hin) as [[x Hx] Hsent]. rewrite Hx in Es. congruence. }
  injection E as <- <- <-. split; simpl; try done.
  - intros e' [He|He]%elem_of_app; [by apply mo_asked0|].
    destruct (expired && negb sent); [|by apply not_elem_of_nil in He].
    apply list_elem_of_singleton in He as ->. fold e. lia.
  - intros Hin. rewrite lookup_insert_eq. split; [by eexists|].
    destruct sent; [done|]. apply elem_of_app in Hin as [Hin|Hin]; [by destruct (Hfresh eq_refl)|].
    destruct expired; [done|]. by apply not_elem_of_nil in Hin.
  - apply NoDup_app. split_and!; [done| |destruct (_ && _); [apply NoDup_singleton|constructor]].
    intros x Hx Hin. destruct expired, sent; simpl in Hin; try by apply not_elem_of_nil in Hin.
    apply list_elem_of_singleton in Hin as ->. by apply Hfresh.
  - rewrite fmap_app. apply sorted_snoc; [done|]. intros x (r & -> & Hr)%list_elem_of_fmap. by apply mo_past0.
  - intros r [Hr|Hr]%elem_of_app; [by apply mo_past0|]. by apply list_elem_of_singleton in Hr as ->.
Qed.

Lemma deliver_ok log m e :
  member_ok log m → log !! mb_delivered m = Some e →
  member_ok log (mkMember (receiver_from_raft e (mb_server m)) (S (mb_delivered m)) (mb_asked m) (mb_responses m)).
Proof.
  intros [] He. set (s := mb_server m) in *.
  assert (current_epoch (receiver_from_raft e s) = N.max (current_epoch s) e) as Hc.
  { simpl. destruct (N.ltb_spec (current_epoch s) e); lia. }
  split; cbn [mb_server mb_delivered mb_asked mb_responses]; rewrite ?Hc; try done.
  - apply lookup_lt_Some in He. lia.
  - rewrite (take_S_r _ _ _ He), top_snoc, mo_epoch0. done.
  - intros e' He'. specialize (mo_asked0 e' He'). lia.
  - intros Hin. specialize (mo_asked0 _ Hin). assert (N.max (current_epoch s) e = current_epoch s) as Em by lia.
    rewrite Em in *. by apply mo_asked_now0.
  - intros r Hr. specialize (mo_past0 r Hr). lia.
Qed.

Definition group_ok (g : group) : Prop :=
  gapless (raft_log g) ∧ ∀ i m, members g !! i = Some m → member_ok (raft_log g) m.

Lemma members_update g i m m' :
  (∀ j m, members g !! j = Some m → member_ok (raft_log g) m) → members g !! i = Some m →
  member_ok (raft_log g) m' →
  ∀ j x, <[i := m']> (members g) !! j = Some x → member_ok (raft_log g) x.
Proof.
  intros Hok Hi Hm j x Hj. destruct (decide (j = i)) as [->|Hne].
  - rewrite list_lookup_insert_eq in Hj by (by eapply lookup_lt_Some). by injection Hj as <-.
  - rewrite list_lookup_insert_ne in Hj by done. by eapply Hok.
Qed.

Lemma step_group_ok g g' : group_ok g → g_step g g' → group_ok g'.
Proof.
  intros [Hgap Hok] [i m expired request response ask s' Hi E|i m e Hi He|i m e Hi He]; (split; [try done|]); simpl.
  - apply (members_update g i m); [done|done|]. eapply request_ok; [by eapply Hok|exact E].
  - apply gapless_snoc; [done|]. destruct (Hok i m Hi). specialize (mo_asked0 e He).
    rewrite mo_epoch0 in mo_asked0. pose proof (top_take (raft_log g) (mb_delivered m)). lia.
  - intros j m' Hj. apply member_ok_log. by eapply Hok.
  - apply (members_update g i m); [done|done|]. apply deliver_ok; [by eapply Hok|done].
Qed.

Lemma new_group_ok n : group_ok (new_group n).
Proof.
  split; [by intros [|k] e Hk|]. intros i m Hi. simpl in Hi. apply lookup_replicate in Hi as [-> _].
  split; simpl; [lia|done|by intros e ?%not_elem_of_nil|by intros ?%not_elem_of_nil|apply NoDup_nil_2|constructor|].
  by intros r ?%not_elem_of_nil.
Qed.

Lemma top_take_le l a b : (a ≤ b)%nat → top (take a l) ≤ top (take b l).
Proof. intros Hab. rewrite <-(Nat.min_l a b Hab), <-take_take. apply top_take. Qed.

(** C24: the epoch servers move through the epochs together.  In every run of a
    group, a server that has received as much of the log as another is in the
    same epoch, and one that has received more is never behind; every epoch up
    to its own was asked for in what it has received, so none is skipped; a
    server asks for each epoch at most once, and never for more than the next;
    and the epochs it stamps never go back.  How many servers have to ask before
    the epoch changes is not part of the statement. *)
Theorem epoch_servers_agree n g i j m m' :
  g_run n g → members g !! i = Some m → members g !! j = Some m' →
  (mb_delivered m = mb_delivered m' → current_epoch (mb_server m) = current_epoch (mb_server m')) ∧
  ((mb_delivered m ≤ mb_delivered m')%nat → current_epoch (mb_server m) ≤ current_epoch (mb_server m')) ∧
  (∀ e, 1 < e ≤ current_epoch (mb_server m) → e ∈ take (mb_delivered m) (raft_log g)) ∧
  NoDup (mb_asked m) ∧ (∀ e, e ∈ mb_asked m → e ≤ current_epoch (mb_server m) + 1) ∧
  StronglySorted N.le (er_epoch <$> mb_responses m).
Proof.
  intros Hrun Hi Hj.
  destruct (rtc_invariant g_step group_ok _ _ step_group_ok (new_group_ok n) Hrun) as [Hgap Hok].
  pose proof (mo_epoch _ _ (Hok j m' Hj)) as Ej. destruct (Hok i m Hi). split_and!; try done.
  - intros E. by rewrite mo_epoch0, Ej, E.
  - rewrite mo_epoch0, Ej. apply top_take_le.
  - intros e He. apply gapless_all; [|by rewrite <-mo_epoch0].
    intros k e' Hk. apply lookup_take_Some in Hk as [Hk Hlt]. rewrite take_take, Nat.min_l by lia. by apply Hgap.
Qed.

(** The comment in [receiver_from_raft] says that most servers approve before
    the epoch changes; the test of the count is commented out, and the request
    of one server is enough. *)
Lemma one_request_moves s : current_epoch (receiver_from_raft (current_epoch s + 1) s) = current_epoch s + 1.
Proof. simpl. by rewrite (proj2 (N.ltb_lt _ _)) by lia. Qed.

(** ** Stamping a batch *)
Lemma append_checked_ignoring pieces c c' :
  append_checked pieces c = Ok c' → append_ignoring pieces c = c'.
Proof.
  revert c. induction pieces as [|d ds IH]; intros c E; simpl in E; [by injection E|].
  unfold append_ignoring. simpl. destruct (sha_helper_append d c) as [[] c1] eqn:Ed; simpl in E; [|done].
  simpl. by apply IH.
Qed.

(** the chain from a batch to its acceptance.  What a collector asks for a
    batch of transactions, an epoch server answers with its current epoch, and
    the answer passes the check of every proxy on the same transactions,
    whatever was stamped on them since: the sizes and the hash are those of the
    batch and the signature covers the epoch.  The signature scheme verifies
    what it signed; the batch size is a 32-bit field. *)
Theorem epoch_response_accepted epoch_rsaDecrypt expired s ts ts' hash size :
  (∀ m, epoch_rsaDecrypt m (rsaEncrypt m) = true) →
  epoch_request ts = Ok (hash, size) → N.of_nat (length ts) < 2 ^ 32 →
  digest_bytes_of <$> ts' = digest_bytes_of <$> ts →
  let response := (receiver_from_user expired (mkRequest size hash) s).1.1 in
  er_epoch response = current_epoch s ∧ verifyBatchHash epoch_rsaDecrypt ts' response = true.
Proof.
  intros Hrsa E Hlen Hts. unfold epoch_request in E. apply outcome_bind_Ok in E as (c & Ec & E).
  injection E as <- <-. apply append_checked_ignoring in Ec.
  unfold receiver_from_user. destruct (match epochSizeMap s !! _ with None => _ | Some _ => _ end) as [sizes sent].
  simpl. split; [done|]. unfold verifyBatchHash. simpl.
  assert (length ts' = length ts) as Hl by (rewrite <-(length_fmap digest_bytes_of ts'), Hts; apply length_fmap).
  rewrite Hl, N.mod_small by lia. rewrite N.eqb_refl, Hts. unfold hash_ignoring. rewrite Ec.
  rewrite bool_decide_true by done. apply Hrsa.
Qed.

End Serve.

(** ** A group of two *)
Module TwoEpochServers.

Definition rsa (m : list N) : list N := TwoServers.sign m.

Inductive action := Request (i : nat) (expired : bool) (r : EpochRequest) | Append (i : nat) (e : N) | Deliver (i : nat).

Definition act (a : action) (g : group) : option group :=
  match a with
  | Request i expired r =>
      m ← members g !! i;
      let '(response, ask, s') := receiver_from_user rsa expired r (mb_server m) in
      Some (mkGroup (<[i := mkMember s' (mb_delivered m) (mb_asked m ++ option_list ask)
                            (mb_responses m ++ [response])]> (members g)) (raft_log g))
  | Append i e =>
      m ← members g !! i;
      if bool_decide (e ∈ mb_asked m) then Some (mkGroup (members g) (raft_log g ++ [e])) else None
  | Deliver i =>
      m ← members g !! i; e ← raft_log g !! mb_delivered m;
      Some (mkGroup (<[i := mkMember (receiver_from_raft e (mb_server m)) (S (mb_delivered m))
                            (mb_asked m) (mb_responses m)]> (members g)) (raft_log g))
  end.

Lemma act_step a g g' : act a g = Some g' → g_step rsa g g'.
Proof.
  destruct a as [i expired r|i e|i]; simpl; destruct (members g !! i) as [m|] eqn:Hi; try done; simpl.
  - destruct (receiver_from_user rsa expired r (mb_server m)) as [[response ask] s'] eqn:E.
    intros [= <-]. by eapply g_request.
  - case_bool_decide; [|done]. intros [= <-]. by eapply g_append.
  - destruct (raft_log g !! mb_delivered m) eqn:E; [|done]. intros [= <-]. by eapply g_deliver.
Qed.

Definition acts (l : list action) : group :=
  foldl (λ g a, default g (act a g)) (new_group 2) l.

Lemma acts_run l : g_run rsa 2 (acts l).
Proof.
  unfold acts, g_run. generalize (new_group 2). induction l as [|a l IH]; intros g; simpl; [done|].
  destruct (act a g) as [g'|] eqn:E; simpl; [|apply IH]. eapply rtc_l; [by eapply act_step|apply IH].
Qed.

(** Server 0 lets epoch 1 expire and asks for epoch 2; server 1 is told first. *)
Definition moves : list action :=
  [Request 0 false (mkRequest 3 [1; 2]); Request 0 true (mkRequest 2 [3]); Append 0 2; Deliver 1;
   Request 1 true (mkRequest 4 [5]); Deliver 0; Request 0 false (mkRequest 1 [6]); Append 0 2; Deliver 0].

Lemma epoch_servers_agree_witness :
  match members (acts moves) !! 0%nat, members (acts moves) !! 1%nat with
  | Some m, Some m' => current_epoch (mb_server m') = 2 ∧ current_epoch (mb_server m') ≤ current_epoch (mb_server m) ∧
      (er_epoch <$> mb_responses m) = [1; 1; 2] ∧ StronglySorted N.le (er_epoch <$> mb_responses m)
  | _, _ => False
  end.
Proof.
  destruct (members (acts moves) !! 0%nat) as [m|] eqn:E; [|vm_compute in E; discriminate E].
  destruct (members (acts moves) !! 1%nat) as [m'|] eqn:E'; [|vm_compute in E'; discriminate E'].
  pose proof (epoch_servers_agree rsa 2 (acts moves) 0 1 m m' (acts_run moves) E E') as (_ & _ & _ & _ & _ & Hs).
  pose proof (epoch_servers_agree rsa 2 (acts moves) 1 0 m' m (acts_run moves) E' E) as (_ & Hle & _).
  vm_compute in E. injection E as <-. vm_compute in E'. injection E' as <-.
  split_and!; [reflexivity|apply Hle; vm_compute; lia|reflexivity|exact Hs].
Defined.

#[local] Existing Instance Varint.varint_protobuf.

Lemma epoch_response_accepted_witness :
  verifyBatchHash TwoServers.check (setEpoch 1 <$> [TwoServers.user_txn 1; TwoServers.user_txn 2])
    (receiver_from_user rsa false
       (mkRequest 2 (hash_ignoring (digest_bytes_of <$> [TwoServers.user_txn 1; TwoServers.user_txn 2])))
       new_EpochServer).1.1 = true.
Proof.
  apply (epoch_response_accepted rsa TwoServers.check false new_EpochServer
    [TwoServers.user_txn 1; TwoServers.user_txn 2]).
  - intros m. unfold TwoServers.check, rsa. by apply bool_decide_true.
  - vm_compute. reflexivity.
  - vm_compute. reflexivity.
  - reflexivity.
Defined.

End TwoEpochServers.
