(* ===== verification/QueryController.v ===== *)
(** * The query controller

    [src/block_server/comm/query/query_controller.cpp]: one thread answers the
    queries of the users, one request at a time.  A key query runs a chaincode
    read-only on the server's database, a block query returns a stored block or,
    with [early_return], the results a thread-pool worker published before the
    block had a header, a tip query returns the number of the last such block.

    The messages of [comm.proto] are parameters; a message whose
    [ParseFromString] is not looked at is a total function. *)
From S2P Require Import Prelude DecimalString LruCache Transaction TransactionCodec BlockStorage BlockGenerator.
From S2P Require Import Storage Orm Database Executor.
From Stdlib Require Import ZArith NArith Lia.
From stdpp Require Import base list gmap strings.

Local Open Scope N_scope.

Record UserQueryRequest := mkQuery {
  uq_type : string;
  uq_payload : list N;
  uq_digest : list N }.

Class QueryProto := {
  query_Serialize : UserQueryRequest → list N;
  query_Parse : list N → option UserQueryRequest;
  reads_Serialize : list KVRead → list N;
  reads_Parse : list N → option (list KVRead) }.

Class QueryProtoLaws `{QueryProto} : Prop := {
  query_parse q : query_Parse (query_Serialize q) = Some q;
  reads_parse r : forallb read_utf8 r = true → reads_Parse (reads_Serialize r) = Some r }.

(** A [long] passed as an [epoch_size_t]. *)
Definition epoch_arg (payload : list N) : N := Z.to_N (strtol (of_bytes payload) mod 2 ^ 64).

Section Controller.
Context `{Protobuf} `{BlockProto} `{QueryProto} {B : Type} `{BlockStorage B} {S : Type} `{DBStorage S}.
Context (parse_payload : list N → TransactionPayload).
Context (invoke : string → string → CC S Z) (debug : bool).

(** [new MockTransaction] at address [p], with the request's payload. *)
Definition query_transaction (payload digest : list N) : Transaction :=
  set_digest (of_bytes digest) (setPayload (parse_payload payload) MockTransaction).

(** The branch [key_query]; the object is deleted at its end.  The check of the
    tip before and after only logs. *)
Definition key_query (p : txn_ptr) (payload digest : list N) (st : exec_state S)
    : outcome (list N * exec_state S) :=
  '(_, _, st) ← factory_executeList invoke debug query [p] None
                  (set_txn p (query_transaction payload digest) st);
  t ← deref (ex_heap st !! p);
  Ok (reads_Serialize (reads (kvRWSet t)), set_heap (delete p (ex_heap st)) st).

(** The branches [block_query] and [tip_query]: a block that is not ready is
    answered with an empty string. *)
Definition block_query (earlyReturn : bool) (payload : list N) (g : BlockGenerator B)
    : outcome (list N) :=
  if earlyReturn then Ok (default [] (getPartialConstructedBlock (epoch_arg payload) g))
  else r ← loadBlock_string (epoch_arg payload) g; Ok (default [] r).

Definition tip_query (earlyReturn : bool) (g : BlockGenerator B) : list N :=
  bytes_of (N_to_string (if earlyReturn then getPartialConstructedLatestEpoch g
                         else getLatestSavedEpoch (BlockGenerator.storage g))).

(** One round of [run]: the reply, and whether the loop goes on. *)
Definition query_round (earlyReturn : bool) (p : txn_ptr) (buffer : list N) (g : BlockGenerator B)
    (st : exec_state S) : outcome (list N * bool * exec_state S) :=
  match query_Parse buffer with
  | None => Ok ([], true, st)
  | Some userRequest =>
      let command := uq_type userRequest in
      if String.eqb command "exit" then Ok ([], false, st)
      else if String.eqb command "key_query" then
        '(r, st) ← key_query p (uq_payload userRequest) (uq_digest userRequest) st;
        Ok (r, true, st)
      else if String.eqb command "block_query" then
        r ← block_query earlyReturn (uq_payload userRequest) g; Ok (r, true, st)
      else if String.eqb command "tip_query" then Ok (tip_query earlyReturn g, true, st)
      else Ok ([], true, st)
  end.

End Controller.

(** ** Queries of keys *)
Section KeyQueries.
Context `{QueryProto} {S : Type} `{TableStorage S}.
Context (parse_payload : list N → TransactionPayload).
Context (invoke : string → string → CC S Z) (debug : bool).
Context `{!∀ f arg, Local (invoke f arg)}.

(** A key query answers with what the chaincode reads from the database as
    it is, whether the chaincode succeeds or not, and changes nothing: no cell
    of the database, no buffered update, no transaction, no reserve table. *)
Theorem key_query_reads_only p payload digest (st : exec_state S) :
  let t := query_transaction parse_payload payload digest in
  ex_heap st !! p = None →
  match invoke (pl_header (transactionPayload t)) (pl_payload (transactionPayload t))
          (mkEnv 0 true) (mkCC (storage (ex_db st)) empty_rwset []) with
  | Ok (r, cst) => ∃ s', key_query parse_payload invoke debug p payload digest st =
        Ok (reads_Serialize (reads (cc_rwset cst)), set_db (set_storage s' (ex_db st)) st) ∧
      (∀ c, view s' c = view (storage (ex_db st)) c) ∧ reads_sound cst
  | Fatal e => key_query parse_payload invoke debug p payload digest st = Fatal e
  end.
Proof.
  intros t Hp. unfold key_query, factory_executeList, queryList, cc_begin, set_result, cc_end.
  change (query_transaction parse_payload payload digest) with t.
  cbn [mbind outcome_bind deref set_txn set_heap ex_heap ex_db ex_table].
  rewrite lookup_insert_eq. cbn [mbind outcome_bind deref].
  change (readOnlyFlag t) with true. change (kvRWSet t) with empty_rwset. change (tr_tid t) with 0.
  cbn [negb mbind outcome_bind]. rewrite (bool_decide_eq_true_2 (_ ∧ _)) by done.
  assert (DCHECK debug true = Ok tt) as -> by (by destruct debug). cbn [mbind outcome_bind].
  destruct (invoke _ _ _ _) as [[r cst]|e] eqn:E; [|done].
  pose proof (frame_view _ local_frame _ _ _ _ E) as Hv. simpl in Hv.
  assert (reads_sound cst) as Hr by (eapply (frame_sound _ local_frame _ _ _ _ E); constructor).
  exists (cc_store cst). split; [|done].
  cbn [mbind outcome_bind]. destruct (r =? 0)%Z; simpl; rewrite !lookup_insert_eq; simpl;
    rewrite !lookup_insert_eq; simpl; rewrite ?lookup_insert_eq; simpl;
    unfold set_db, set_heap; simpl; rewrite !delete_insert_eq, delete_id by done; by destruct st.
Qed.

End KeyQueries.
