(* ===== verification/UserPayload.v ===== *)
(** * Requests of the users

    [ycsb_payload.cpp] builds the payloads and signs the requests,
    [db_user_base.cpp] numbers them and spreads them over the block servers,
    and the benchmark clients ([aria_small_bank_db.cpp], [small_bank_db.cpp],
    [aria_ycsb_db.cpp], [aria_custom_db.cpp], [custom_db.cpp]) turn operations
    into requests.  The theorems follow a request to the other side: the user
    collector accepts it and the chaincode runs the operation the client meant.

    Parameters: the signatures of the users, [random()] (a value per call), the
    configuration file and the serialisation of the messages. *)
From S2P Require Import Prelude DecimalString Msp Transaction TransactionCodec ConsensusControl ClientProxy.
From S2P Require Import Storage Orm Database Chaincode SmallBank Ycsb OrmTest ChaincodeManager.
From Stdlib Require Import ZArith NArith Lia.
From stdpp Require Import base list gmap strings countable.

Local Open Scope N_scope.

(** [Utils::Request]. *)
Record Request := mkRequest {
  rq_tableName : string;
  rq_funcName : string;
  rq_reads : list string;
  rq_writes : list string }.

Definition getYCSBPayload (r : Request) : YCSB_PAYLOAD :=
  mkYcsbPayload (rq_reads r) (rq_writes r)
    (if String.eqb (rq_tableName r) "" then "test_table" else rq_tableName r).

(** [random() + (seed << 32)] in a [size_t]. *)
Definition nonce (random seed : N) : N := u64 (random + u64 (N.shiftl seed 32)).

Section Payloads.
Context `{Yaml} `{Protobuf} (config : Node).
Context (ycsb_Serialize : YCSB_PAYLOAD → string).
(** The digest that [getUserSigner(ip)->rsaEncrypt] leaves in its argument. *)
Context (user_sign : string → list N → list N).

Definition getTransactionPayload (random seed : N) (r : Request) : outcome TransactionPayload :=
  header ← (if String.eqb (rq_funcName r) "" then as_string (node_get (getHeartBeatConfig config) "func_name")
            else Ok (rq_funcName r));
  Ok (mkPayload header (ycsb_Serialize (getYCSBPayload r)) (nonce random seed) "").

Definition getEmptyPayload (random seed : N) : TransactionPayload :=
  mkPayload "empty" (ycsb_Serialize (getYCSBPayload (mkRequest "test_table" "" [] [])))
    (nonce random seed) "".

(** The keys are what [uniform_dist] returned, as many as the entries [reads]
    and [writes] of the configuration ask for. *)
Definition getRandomTransactionPayload (random seed : N) (readKeys writeKeys : list Z)
    : outcome TransactionPayload :=
  let ccConfig := getHeartBeatConfig config in
  header ← as_string (node_get ccConfig "func_name");
  table ← (if negb (node_defined (node_get ccConfig "table_name")) then Ok ""
           else as_string (node_get ccConfig "table_name"));
  let r := mkRequest table "" (to_string <$> readKeys) (to_string <$> writeKeys) in
  Ok (mkPayload header (ycsb_Serialize (getYCSBPayload r)) (nonce random seed) "").

(** [getUserInvokeRequest(payloadRaw, ip)]. *)
Definition getUserInvokeRequest (payloadRaw : list N) (ip : string) : UserRequest :=
  mkUser payloadRaw (user_sign ip payloadRaw).

(** ** DBUserBase *)
Record DBUserBase := mkUserBase {
  sendToAll : bool;
  invokeClient : list string;
  trCount : N;
  (** [addPendingTransactionHandle], and what the sockets sent. *)
  pendingTransactions : list string;
  sentRequests : list (string * UserRequest) }.

Definition new_DBUserBase : outcome DBUserBase :=
  localIP ← getLocalBlockServerIP config;
  all ← sendToAllClientProxy config;
  ips ← (if all : bool then getBlockServerIPs config else Ok [localIP]);
  Ok (mkUserBase all ips 0 [] []).

(** The two closures; [trCount % 0] and an index out of range are faults. *)
Definition sendInvokeRequest (random : N) (r : Request) (u : DBUserBase) : outcome DBUserBase :=
  ip ← at_index (invokeClient u)
         (if sendToAll u then N.to_nat (trCount u mod N.of_nat (length (invokeClient u))) else 0%nat);
  p ← getTransactionPayload random (trCount u) r;
  let req := getUserInvokeRequest (payload_SerializeAsString p) ip in
  Ok (mkUserBase (sendToAll u) (invokeClient u) (u64 (trCount u + 1))
        (pendingTransactions u ++ [of_bytes (ur_digest req)]) (sentRequests u ++ [(ip, req)])).

(** ** AriaSmallBankDB: the parameters are [uint32_t] *)
Definition uint32_string (n : N) : string := N_to_string (n mod 2 ^ 32).

Definition db_amalgamate (random acc1 acc2 : N) : DBUserBase → outcome DBUserBase :=
  sendInvokeRequest random (mkRequest "" "amalgamate" [uint32_string acc1; uint32_string acc2] []).
Definition db_getBalance (random acc : N) : DBUserBase → outcome DBUserBase :=
  sendInvokeRequest random (mkRequest "" "getBalance" [uint32_string acc] []).
Definition db_updateBalance (random acc amount : N) : DBUserBase → outcome DBUserBase :=
  sendInvokeRequest random (mkRequest "" "updateBalance" [uint32_string acc; uint32_string amount] []).
Definition db_updateSaving (random acc amount : N) : DBUserBase → outcome DBUserBase :=
  sendInvokeRequest random (mkRequest "" "updateSaving" [uint32_string acc; uint32_string amount] []).
Definition db_sendPayment (random acc1 acc2 amount : N) : DBUserBase → outcome DBUserBase :=
  sendInvokeRequest random
    (mkRequest "" "sendPayment" [uint32_string acc1; uint32_string acc2; uint32_string amount] []).
Definition db_writeCheck (random acc amount : N) : DBUserBase → outcome DBUserBase :=
  sendInvokeRequest random (mkRequest "" "writeCheck" [uint32_string acc; uint32_string amount] []).

(** The closure of [SmallBankDB::ClientThread]: the operation and the values
    that the generators return.  The order in which the two account numbers are
    drawn is not specified: [lhs_first]. *)
Definition sb_client (lhs_first : bool) (random op acc1 acc2 bal : N) : DBUserBase → outcome DBUserBase :=
  let '(a, b) := if lhs_first then (acc1, acc2) else (acc2, acc1) in
  match op with
  | 1 => db_amalgamate random a b
  | 2 => db_getBalance random acc1
  | 3 => db_updateBalance random acc1 bal
  | 4 => db_updateSaving random acc1 bal
  | 5 => db_sendPayment random a b bal
  | 6 => db_writeCheck random acc1 bal
  | _ => Ok
  end.

(** ** AriaYCSB_DB: the result of the calls, and the request *)
Context (serialize_record : YCSB_FOR_BLOCK_BENCH → string).

Definition db_Read (random : N) (table key : string) (fields : list string) (u : DBUserBase)
    : outcome (Z * DBUserBase) :=
  let payload := (λ f, (f, "_")) <$> fields in
  u ← sendInvokeRequest random (mkRequest table "read" [key; serialize_record payload] []) u;
  Ok (1%Z, u).

Definition db_Update (random : N) (table key : string) (values : list (string * string)) (u : DBUserBase)
    : outcome (Z * DBUserBase) :=
  u ← sendInvokeRequest random (mkRequest table "write" [key; serialize_record values] []) u;
  Ok (1%Z, u).

Definition db_Scan (u : DBUserBase) : outcome (Z * DBUserBase) := Ok (0%Z, u).

Definition db_Insert (random : N) (table key : string) (values : list (string * string))
    : DBUserBase → outcome (Z * DBUserBase) := db_Update random table key values.

Definition db_Delete (random : N) (table key : string) (u : DBUserBase) : outcome (Z * DBUserBase) :=
  u ← sendInvokeRequest random (mkRequest table "del" [key] []) u; Ok (1%Z, u).

(** ** AriaCustomDB *)
Definition db_custom (random : N) (func : string) : DBUserBase → outcome DBUserBase :=
  sendInvokeRequest random (mkRequest "" func [""] []).
Definition db_timeConsuming (random : N) := db_custom random "time".
Definition db_calculateConsuming (random : N) := db_custom random "calculate".
Definition db_normalTransaction (random : N) := db_custom random "normal".

(** The closure of [CustomDB::ClientThread]: one request in a hundred is long. *)
Definition custom_client (random op : N) (u : DBUserBase) : outcome DBUserBase :=
  funcName ← getCustomCCName config;
  if op =? 1 then
    if String.eqb funcName "time" then db_timeConsuming random u
    else if String.eqb funcName "calculate" then db_calculateConsuming random u
    else Fatal CheckFailed
  else db_normalTransaction random u.

End Payloads.

(** ** Nonces *)
Lemma nonce_value random seed :
  random < 2 ^ 32 → seed < 2 ^ 32 → nonce random seed = random + seed * 2 ^ 32.
Proof.
  intros Hr Hs. unfold nonce. rewrite N.shiftl_mul_pow2. rewrite (u64_small (_ * _)) by lia.
  apply u64_small. lia.
Qed.

Lemma nonce_inj random random' seed seed' :
  random < 2 ^ 32 → random' < 2 ^ 32 → seed < 2 ^ 32 → seed' < 2 ^ 32 →
  nonce random seed = nonce random' seed' → random = random' ∧ seed = seed'.
Proof. intros. rewrite !nonce_value in * by done. lia. Qed.

(** ** The other side

    A request at the server it was sent to. *)
Section Served.
Context `{Yaml} `{ProtobufLaws} (config : Node).
Context (ycsb_Serialize : YCSB_PAYLOAD → string) (parse_ycsb : string → YCSB_PAYLOAD).
Context (user_sign : string → list N → list N) (user_rsaDecrypt : string → list N → list N → bool).
Context (parse_payload : list N → TransactionPayload).

(** Messages below the limit of protobuf survive the wire (their fields are
    [bytes] and a [uint64]), and a server accepts what its users sign. *)
Record wire_laws : Prop := {
  ycsb_parse p : message_fits (bytes_of (ycsb_Serialize p)) → parse_ycsb (ycsb_Serialize p) = p;
  payload_parse_total p : pl_nonce p < 2 ^ 64 → message_fits (payload_SerializeAsString p) →
    parse_payload (payload_SerializeAsString p) = p;
  user_verifies ip l : user_rsaDecrypt ip l (user_sign ip l) = true }.

(** The messages of request number [seed] are below the limit. *)
Definition payload_of (random seed : N) (r : Request) : TransactionPayload :=
  mkPayload (rq_funcName r) (ycsb_Serialize (getYCSBPayload r)) (nonce random seed) "".
Definition request_fits (random seed : N) (r : Request) : Prop :=
  message_fits (bytes_of (ycsb_Serialize (getYCSBPayload r))) ∧
  message_fits (payload_SerializeAsString (payload_of random seed r)).

Lemma nonce_small random seed : nonce random seed < 2 ^ 64.
Proof. unfold nonce, u64. by apply N.mod_lt. Qed.

Local Notation send := (sendInvokeRequest config ycsb_Serialize user_sign).

(** The server a request goes to: in turn, or the local one. *)
Definition target (u : DBUserBase) : option string :=
  invokeClient u !! (if sendToAll u then N.to_nat (trCount u mod N.of_nat (length (invokeClient u))) else 0%nat).

Lemma target_is_Some u : invokeClient u ≠ [] → is_Some (target u).
Proof.
  intros Hne. apply lookup_lt_is_Some_2. destruct (invokeClient u) as [|ip l] eqn:E; [done|].
  destruct (sendToAll u); [|simpl; lia].
  pose proof (N.mod_lt (trCount u) (N.of_nat (length (ip :: l))) ltac:(done)). lia.
Qed.

(** What one call of [sendInvokeRequest] does, up to the transaction that the
    user collector of the target makes of the request. *)
Record sent_as (random : N) (r : Request) (u u' : DBUserBase) (t : Transaction) : Prop := {
  sa_server : ∃ ip req, target u = Some ip ∧ sentRequests u' = sentRequests u ++ [(ip, req)] ∧
    make_transaction parse_payload (user_rsaDecrypt ip) req = Ok t ∧
    parse_payload (ur_payload req) = mkPayload (rq_funcName r) (pl_payload (transactionPayload t))
                                       (nonce random (trCount u)) "";
  sa_pending : pendingTransactions u' = pendingTransactions u ++ [pl_digest (transactionPayload t)];
  sa_count : trCount u' = u64 (trCount u + 1);
  sa_clients : invokeClient u' = invokeClient u;
  sa_header : pl_header (transactionPayload t) = rq_funcName r;
  sa_payload : parse_ycsb (pl_payload (transactionPayload t)) = getYCSBPayload r;
  sa_update : readOnlyFlag t = false }.

Lemma send_served random r u :
  wire_laws → invokeClient u ≠ [] → rq_funcName r ≠ "" → request_fits random (trCount u) r →
  ∃ u' t, send random r u = Ok u' ∧ sent_as random r u u' t.
Proof.
  intros [Hy Hp Hv] Hne Hf [Hfy Hfp]. destruct (target_is_Some u Hne) as [ip Hip].
  set (p := payload_of random (trCount u) r) in *. set (raw := payload_SerializeAsString p) in *.
  assert (parse_payload raw = p) as Hraw by (apply Hp; [apply nonce_small|done]).
  exists (mkUserBase (sendToAll u) (invokeClient u) (u64 (trCount u + 1))
        (pendingTransactions u ++ [of_bytes (user_sign ip raw)])
        (sentRequests u ++ [(ip, mkUser raw (user_sign ip raw))])),
    (set_digest (of_bytes (user_sign ip raw)) (setPayload p (setReadOnly false MockTransaction))).
  split.
  - unfold sendInvokeRequest, getTransactionPayload, at_index. fold (target u). rewrite Hip.
    cbn [mbind outcome_bind]. rewrite (proj2 (String.eqb_neq _ _) Hf). done.
  - split; try done; [|by apply Hy]. exists ip, (mkUser raw (user_sign ip raw)). split_and!; [done|done| |].
    + unfold make_transaction. cbn [ur_payload ur_digest]. rewrite Hv, Hraw. done.
    + cbn [ur_payload]. by rewrite Hraw.
Qed.

(** *** A session *)
Definition request_nonce (x : string * UserRequest) : N := pl_nonce (parse_payload (ur_payload x.2)).

(** Request number [i] of a client. *)
Definition numbered (u : DBUserBase) (i : nat) (x : string * UserRequest) : Prop :=
  invokeClient u !! (if sendToAll u then i mod length (invokeClient u) else 0)%nat = Some x.1 ∧
  ∃ random, random < 2 ^ 32 ∧ request_nonce x = nonce random (N.of_nat i).

Record session (u : DBUserBase) : Prop := {
  ss_count : trCount u = N.of_nat (length (sentRequests u));
  ss_pending : pendingTransactions u = (λ x, of_bytes (ur_digest x.2)) <$> sentRequests u;
  ss_numbered i x : sentRequests u !! i = Some x → numbered u i x }.

Lemma send_session random r u u' :
  wire_laws → session u → random < 2 ^ 32 → N.of_nat (length (sentRequests u)) < 2 ^ 32 →
  rq_funcName r ≠ "" → request_fits random (trCount u) r → send random r u = Ok u' →
  session u' ∧ length (sentRequests u') = S (length (sentRequests u)) ∧
  invokeClient u' = invokeClient u ∧ sendToAll u' = sendToAll u.
Proof.
  intros Hw [Hc Hp Hn] Hr Hl Hf [_ Hfit] E. unfold sendInvokeRequest, getTransactionPayload, at_index in E.
  rewrite (proj2 (String.eqb_neq _ _) Hf) in E.
  destruct (invokeClient u !! _) as [ip|] eqn:Ei; [|done]. cbn [mbind outcome_bind] in E. injection E as <-.
  split_and!; [|cbn [sentRequests]; by rewrite length_app, Nat.add_1_r|done|done].
  split; cbn [trCount sentRequests pendingTransactions invokeClient sendToAll].
  - rewrite Hc, length_app, u64_small by lia. simpl. lia.
  - rewrite fmap_app, Hp. done.
  - intros i x [Hi|[Hi Hx]]%lookup_app_Some; [by apply Hn|].
    apply list_lookup_singleton_Some in Hx as [Hx <-].
    assert (i = length (sentRequests u)) as -> by lia. unfold numbered. cbn [fst invokeClient sendToAll].
    split.
    + rewrite <-Ei, Hc. f_equal. destruct (sendToAll u); [|done].
      rewrite <-Nat2N.inj_mod, Nat2N.id. done.
    + exists random. split; [done|]. unfold request_nonce. cbn [snd ur_payload getUserInvokeRequest].
      rewrite (payload_parse_total Hw), <-Hc; [done|apply nonce_small|exact Hfit].
Qed.

Lemma session_run rs u :
  wire_laws → session u → invokeClient u ≠ [] →
  Forall (λ x, x.1 < 2 ^ 32 ∧ rq_funcName x.2 ≠ "") rs →
  (∀ i x, rs !! i = Some x → request_fits x.1 (N.of_nat (length (sentRequests u) + i)) x.2) →
  N.of_nat (length (sentRequests u) + length rs) ≤ 2 ^ 32 →
  ∃ u', foldM (λ x, send x.1 x.2) rs u = Ok u' ∧ session u' ∧
    length (sentRequests u') = (length (sentRequests u) + length rs)%nat ∧
    invokeClient u' = invokeClient u ∧ sendToAll u' = sendToAll u.
Proof.
  intros Hw. revert u. induction rs as [|[random r] rs IH]; intros u Hu Hne Hrs Hfit Hlen.
  { exists u. split_and!; [done|done|simpl; lia|done|done]. }
  apply Forall_cons_1 in Hrs as [[Hr Hf] Hrs]. cbn [fst snd foldM length] in *.
  assert (request_fits random (trCount u) r) as Hfit0.
  { rewrite (ss_count u Hu). specialize (Hfit 0%nat (random, r) eq_refl). by rewrite Nat.add_0_r in Hfit. }
  destruct (send_served random r u Hw Hne Hf Hfit0) as (u1 & t & E & _). rewrite E. cbn [mbind outcome_bind].
  destruct (send_session random r u u1 Hw Hu Hr ltac:(lia) Hf Hfit0 E) as (Hu1 & Hl1 & Hi1 & Ha1).
  destruct (IH u1 Hu1) as (u' & E' & Hu' & Hl' & Hi' & Ha'); [congruence|done| |lia|].
  { intros i x Hx. specialize (Hfit (S i) x Hx). rewrite Hl1. by rewrite Nat.add_succ_r in Hfit. }
  exists u'. split_and!; [done|done|lia|congruence|congruence].
Qed.

(** Every request of a client object: where it goes and what it is called.
    A client that sends requests with [random()] below 2^32, at most 2^32 of
    them, never fails; the requests go to the servers in turn (or all to the
    local one), no two have the same nonce, and the digests are queued for the
    monitor in the order of the requests. *)
Theorem session_requests rs u :
  wire_laws → trCount u = 0 → sentRequests u = [] → pendingTransactions u = [] → invokeClient u ≠ [] →
  Forall (λ x, x.1 < 2 ^ 32 ∧ rq_funcName x.2 ≠ "") rs →
  (∀ i x, rs !! i = Some x → request_fits x.1 (N.of_nat i) x.2) → N.of_nat (length rs) ≤ 2 ^ 32 →
  ∃ u', foldM (λ x, send x.1 x.2) rs u = Ok u' ∧
    length (sentRequests u') = length rs ∧ NoDup (request_nonce <$> sentRequests u') ∧
    pendingTransactions u' = (λ x, of_bytes (ur_digest x.2)) <$> sentRequests u' ∧
    ∀ i x, sentRequests u' !! i = Some x →
      invokeClient u !! (if sendToAll u then i mod length (invokeClient u) else 0)%nat = Some x.1.
Proof.
  intros Hw Hc0 Hs0 Hp0 Hne Hrs Hfit Hlen.
  assert (session u) as Hu.
  { split; rewrite ?Hs0, ?Hc0, ?Hp0; done. }
  destruct (session_run rs u Hw Hu Hne Hrs) as (u' & E & [_ Hp Hn] & Hl & Hi & Ha); [by rewrite Hs0|rewrite Hs0; simpl; lia|].
  rewrite Hs0 in Hl. exists u'. split_and!; [done|done| |done|].
  - apply NoDup_alt. intros i j n. rewrite !list_lookup_fmap.
    destruct (sentRequests u' !! i) as [x|] eqn:Ex; [|done].
    destruct (sentRequests u' !! j) as [y|] eqn:Ey; [|done]. intros [= <-] [= Exy].
    destruct (Hn i x Ex) as (_ & r1 & Hr1 & E1). destruct (Hn j y Ey) as (_ & r2 & Hr2 & E2).
    apply lookup_lt_Some in Ex, Ey. cbn [length] in Hl.
    rewrite E1, E2 in Exy. apply nonce_inj in Exy; lia.
  - intros i x Hx. rewrite <-Hi, <-Ha. by apply (Hn i x Hx).
Qed.

(** *** SmallBank *)
Inductive sb_call :=
  | CallGetBalance (acc : N)
  | CallUpdateBalance (acc amount : N)
  | CallUpdateSaving (acc amount : N)
  | CallSendPayment (acc1 acc2 amount : N)
  | CallWriteCheck (acc amount : N).

Definition sb_call_run (random : N) (c : sb_call) : DBUserBase → outcome DBUserBase :=
  match c with
  | CallGetBalance a => db_getBalance config ycsb_Serialize user_sign random a
  | CallUpdateBalance a v => db_updateBalance config ycsb_Serialize user_sign random a v
  | CallUpdateSaving a v => db_updateSaving config ycsb_Serialize user_sign random a v
  | CallSendPayment a b v => db_sendPayment config ycsb_Serialize user_sign random a b v
  | CallWriteCheck a v => db_writeCheck config ycsb_Serialize user_sign random a v
  end.

(** The operation of the bank that the client means: the accounts have the
    numbers of the call as their names, the amount is the number of the call. *)
Definition meant (c : sb_call) : sb_op :=
  match c with
  | CallGetBalance a => GetBalance (N_to_string a)
  | CallUpdateBalance a v => UpdateBalance (N_to_string a) (Z.of_N v)
  | CallUpdateSaving a v => UpdateSaving (N_to_string a) (Z.of_N v)
  | CallSendPayment a b v => SendPayment (N_to_string a) (N_to_string b) (Z.of_N v)
  | CallWriteCheck a v => WriteCheck (N_to_string a) (Z.of_N v)
  end.

(** Accounts are [uint32_t] numbers, and the amount is one that the [int] of the
    chaincode can hold. *)
Definition call_fits (c : sb_call) : Prop :=
  match c with
  | CallGetBalance a => a < 2 ^ 32
  | CallUpdateBalance a v | CallUpdateSaving a v | CallWriteCheck a v => a < 2 ^ 32 ∧ v < 2 ^ 31
  | CallSendPayment a b v => a < 2 ^ 32 ∧ b < 2 ^ 32 ∧ v < 2 ^ 31
  end.

Lemma uint32_string_small n : n < 2 ^ 32 → uint32_string n = N_to_string n.
Proof. intros Hn. unfold uint32_string. by rewrite N.mod_small. Qed.

(** An amount as the chaincode reads it. *)
Lemma parse_amount v : v < 2 ^ 31 → parse_int (uint32_string v) = Z.of_N v.
Proof.
  intros Hv. rewrite uint32_string_small by lia. unfold parse_int. rewrite strtol_N_to_string.
  unfold clamp_long. rewrite to_int_id; [lia|]. apply fits_int_spec. unfold INT_MIN, INT_MAX. lia.
Qed.

(** From 2^31 on an amount arrives as a negative number. *)
Lemma large_amount_negative v :
  2 ^ 31 ≤ v < 2 ^ 32 → parse_int (uint32_string v) = (Z.of_N v - 2 ^ 32)%Z.
Proof.
  intros Hv. rewrite uint32_string_small by lia. unfold parse_int. rewrite strtol_N_to_string.
  replace (clamp_long (Z.of_N v)) with (Z.of_N v) by (unfold clamp_long; lia). unfold to_int.
  rewrite <-(Z.mod_unique (Z.of_N v + 2 ^ 31) (2 ^ 32) 1 (Z.of_N v - 2 ^ 31)); lia.
Qed.

(** The request of a call. *)
Definition request_of (c : sb_call) : Request :=
  mkRequest "" (op_name (meant c))
    match c with
    | CallGetBalance a => [uint32_string a]
    | CallUpdateBalance a v | CallUpdateSaving a v | CallWriteCheck a v => [uint32_string a; uint32_string v]
    | CallSendPayment a b v => [uint32_string a; uint32_string b; uint32_string v]
    end [].

Lemma call_request random c : sb_call_run random c = send random (request_of c).
Proof. by destruct c. Qed.

Lemma call_args c : call_fits c → op_args (meant c) (rq_reads (request_of c)).
Proof.
  destruct c as [a|a v|a v|a b v|a v]; cbn [call_fits]; intros Hc; destruct_and?; simpl;
    rewrite ?(uint32_string_small a), ?(uint32_string_small b) by done; try done.
  all: exists (uint32_string v); split; [done|by apply parse_amount].
Qed.

Context {S : Type} `{TableStorage S}.
Context (parse_record : string → YCSB_FOR_BLOCK_BENCH) (serialize_record : YCSB_FOR_BLOCK_BENCH → string).
Context (unordered_iter : list (string * string) → list (string * string)).
Context (debug lhs_first : bool).

(** [InvokeChaincode] on the transaction of a request, in a fresh state over a
    storage. *)
Definition invoke_on (c : cc_type) (t : Transaction) (tid : N) (s : S) : outcome (Z * cc_state S) :=
  InvokeChaincode parse_ycsb parse_record serialize_record unordered_iter debug lhs_first c
    (pl_header (transactionPayload t)) (pl_payload (transactionPayload t))
    (mkEnv tid (readOnlyFlag t)) (mkCC s empty_rwset []).

(** C5: a SmallBank client and the server understand each other.  A call of the
    client other than [amalgamate], on accounts that are [uint32_t] numbers, with
    an amount below 2^31 and messages below 2 GiB, is sent to the next server (or the local one), its
    digest is queued for the monitor, the user collector of that server accepts
    the request, and the transaction it makes runs the operation of the bank that
    the client meant, with the amount of the call, on any storage: same result,
    same balances after a commit, a stop on a signed overflow exactly where the
    abstract operation has one.  A larger amount would arrive as a negative one
    ([large_amount_negative]). *)
Theorem smallbank_call_served random c u :
  wire_laws → invokeClient u ≠ [] → call_fits c → request_fits random (trCount u) (request_of c) →
  ∃ u' t, sb_call_run random c u = Ok u' ∧ sent_as random (request_of c) u u' t ∧
    ∀ tid s,
      match sb_spec (meant c) (bank_of (view s)) with
      | Fatal e => invoke_on SmallBankChaincode t tid s = Fatal e
      | Ok (r, b) => ∃ st', invoke_on SmallBankChaincode t tid s = Ok (r, st') ∧
          (∀ cell, view (cc_store st') cell = view s cell) ∧ ∀ k, bank_of (committed st') k = b k
      end.
Proof.
  intros Hw Hne Hc Hfit. rewrite call_request.
  destruct (send_served random (request_of c) u Hw Hne) as (u' & t & E & Ht); [by destruct c|done|].
  exists u', t. split_and!; [done|done|]. intros tid s. unfold invoke_on. cbn [InvokeChaincode].
  rewrite (sa_header _ _ _ _ _ Ht), (sa_update _ _ _ _ _ Ht).
  apply (invoke_ends parse_ycsb debug lhs_first (meant c) (pl_payload (transactionPayload t))
    (mkEnv tid false) (mkCC s empty_rwset []) eq_refl eq_refl).
  rewrite (sa_payload _ _ _ _ _ Ht). by apply call_args.
Qed.

(** *** YCSB *)

(** an update or insert of a YCSB client merges its fields into the record:
    the call returns success, the server's chaincode succeeds on any storage,
    and the committed record of the key has the values of the call over the
    fields it had; no other cell changes.  The table of the call is ignored. *)
Theorem ycsb_update_served random table key values u :
  wire_laws → ycsb_params_ok parse_record serialize_record unordered_iter → invokeClient u ≠ [] →
  request_fits random (trCount u) (mkRequest table "write" [key; serialize_record values] []) →
  ∃ u' t, db_Update config ycsb_Serialize user_sign serialize_record random table key values u = Ok (1%Z, u') ∧
    db_Insert config ycsb_Serialize user_sign serialize_record random table key values u = Ok (1%Z, u') ∧
    sent_as random (mkRequest table "write" [key; serialize_record values] []) u u' t ∧
    ∀ tid s, ∃ st', invoke_on YCSB_Chaincode t tid s = Ok (1%Z, st') ∧
      (∀ f, fields_of parse_record (committed st' ("ycsb", key)) !! f =
        match (list_to_map (reverse values) : gmap string string) !! f with
        | Some v => Some v
        | None => fields_of parse_record (value_or defValue (view s ("ycsb", key))) !! f
        end) ∧
      ∀ c, c ≠ ("ycsb", key) → committed st' c = view s c.
Proof.
  intros Hw Hr Hne Hfit.
  destruct (send_served random (mkRequest table "write" [key; serialize_record values] []) u Hw Hne)
    as (u' & t & E & Ht); [done|done|].
  unfold db_Insert, db_Update. rewrite E. exists u', t. split_and!; [done|done|done|]. intros tid s.
  destruct (ycsb_write_merges parse_record serialize_record unordered_iter
    (if String.eqb table "" then "test_table" else table) key (serialize_record values)
    (mkEnv tid false) (mkCC s empty_rwset []) Hr eq_refl eq_refl) as (st' & E' & Hm & Ho).
  exists st'. split_and!; [|intros f; rewrite Hm|exact Ho].
  - unfold invoke_on. cbn [InvokeChaincode]. rewrite (sa_header _ _ _ _ _ Ht), (sa_update _ _ _ _ _ Ht).
    unfold ycsb_InvokeChaincode. rewrite (sa_payload _ _ _ _ _ Ht). cbn -[ycsb_write].
    destruct debug; cbn -[ycsb_write]; exact E'.
  - unfold fields_of at 1. by rewrite (record_roundtrip _ _ _ Hr).
Qed.

(** *** The custom benchmark *)

(** The test chaincode has no function [normal]: 99 of 100 transactions of the
    custom benchmark fail. *)
Lemma custom_normal_fails random u :
  wire_laws → invokeClient u ≠ [] → request_fits random (trCount u) (mkRequest "" "normal" [""] []) →
  ∃ u' t, db_normalTransaction config ycsb_Serialize user_sign random u = Ok u' ∧
    sent_as random (mkRequest "" "normal" [""] []) u u' t ∧
    ∀ tid s, ∃ st', invoke_on ORMTestChaincode t tid s = Ok (0%Z, st').
Proof.
  intros Hw Hne Hfit. destruct (send_served random (mkRequest "" "normal" [""] []) u Hw Hne)
    as (u' & t & E & Ht); [done|done|]. exists u', t. split_and!; [done|done|]. intros tid s.
  unfold invoke_on. rewrite (sa_header _ _ _ _ _ Ht). eexists. reflexivity.
Qed.

End Served.

(** ** A client of two servers *)
Module UserRuns.
#[local] Existing Instances MemLevelDB.mem_storage MemLevelDB.mem_table_storage.
#[local] Existing Instances Varint.varint_protobuf Varint.varint_laws.
#[local] Existing Instance TwoServerConfig.tree_yaml.

Definition ycsb_out (p : YCSB_PAYLOAD) : string :=
  YcsbRuns.bits_to_string (encode (yp_reads p, yp_update p, yp_table p)).
Definition ycsb_in (s : string) : YCSB_PAYLOAD :=
  match decode (YcsbRuns.string_to_bits s) with
  | Some (a, b, c) => mkYcsbPayload a b c | None => mkYcsbPayload [] [] "" end.
Definition payload_in (l : list N) : TransactionPayload := default empty_payload (payload_ParseFromString l).
Definition sign (ip : string) (l : list N) : list N := bytes_of ip ++ take 3 l.
Definition check (ip : string) (l signature : list N) : bool := bool_decide (sign ip l = signature).
Definition config : Node := TwoServerConfig.config "10.0.0.1" "true".

Lemma wire : wire_laws ycsb_out ycsb_in sign check payload_in.
Proof.
  split.
  - intros p _. unfold ycsb_in, ycsb_out.
    replace (YcsbRuns.string_to_bits _) with (encode (yp_reads p, yp_update p, yp_table p)).
    + rewrite decode_encode. by destruct p.
    + generalize (encode (yp_reads p, yp_update p, yp_table p)). intros q.
      induction q as [q IH|q IH|]; simpl; congruence.
  - intros p Hn Hf. unfold payload_in. by rewrite payload_parse.
  - intros ip l. by apply bool_decide_eq_true.
Qed.

Definition user0 : DBUserBase := mkUserBase true ["10.0.0.1"; "10.0.0.2"] 0 [] [].

Example user_starts : new_DBUserBase config = Ok user0.
Proof. reflexivity. Qed.

Definition call : sb_call := CallSendPayment 7 9 30.

Lemma smallbank_call_served_witness :
  invokeClient user0 ≠ [] ∧ call_fits call ∧
  ∃ u' t, sb_call_run config ycsb_out sign 5 call user0 = Ok u' ∧
    sent_as ycsb_in check payload_in 5 (request_of call) user0 u' t ∧
    ∀ tid (s : gmap string (gmap string string)),
      match sb_spec (meant call) (bank_of (view s)) with
      | Fatal e => invoke_on ycsb_in YcsbRuns.parse0 YcsbRuns.serialize0 YcsbRuns.iter0 true true
                     SmallBankChaincode t tid s = Fatal e
      | Ok (r, b) => ∃ st', invoke_on ycsb_in YcsbRuns.parse0 YcsbRuns.serialize0 YcsbRuns.iter0 true true
                     SmallBankChaincode t tid s = Ok (r, st') ∧
          (∀ cell, view (cc_store st') cell = view s cell) ∧ ∀ k, bank_of (committed st') k = b k
      end.
Proof.
  split; [discriminate|]. split; [by vm_compute|].
  apply (smallbank_call_served config ycsb_out ycsb_in sign check payload_in YcsbRuns.parse0
    YcsbRuns.serialize0 YcsbRuns.iter0 true true 5 call user0 wire); [discriminate|by vm_compute|by vm_compute].
Defined.

Lemma ycsb_update_served_witness :
  invokeClient user0 ≠ [] ∧
  ∃ u' t, db_Update config ycsb_out sign YcsbRuns.serialize0 5 "t" "k" [("f", "v")] user0 = Ok (1%Z, u') ∧
    db_Insert config ycsb_out sign YcsbRuns.serialize0 5 "t" "k" [("f", "v")] user0 = Ok (1%Z, u') ∧
    sent_as ycsb_in check payload_in 5
      (mkRequest "t" "write" ["k"; YcsbRuns.serialize0 [("f", "v")]] []) user0 u' t ∧
    ∀ tid (s : gmap string (gmap string string)), ∃ st',
      invoke_on ycsb_in YcsbRuns.parse0 YcsbRuns.serialize0 YcsbRuns.iter0 true true
        YCSB_Chaincode t tid s = Ok (1%Z, st') ∧
      (∀ f, fields_of YcsbRuns.parse0 (committed st' ("ycsb", "k")) !! f =
        match (list_to_map (reverse [("f", "v")]) : gmap string string) !! f with
        | Some v => Some v
        | None => fields_of YcsbRuns.parse0 (value_or defValue (view s ("ycsb", "k"))) !! f
        end) ∧
      ∀ c, c ≠ ("ycsb", "k") → committed st' c = view s c.
Proof.
  split; [discriminate|].
  apply (ycsb_update_served config ycsb_out ycsb_in sign check payload_in YcsbRuns.parse0
    YcsbRuns.serialize0 YcsbRuns.iter0 true true 5 "t" "k" [("f", "v")] user0 wire YcsbRuns.params0_ok); [discriminate|by vm_compute].
Defined.

Definition requests : list (N * Request) :=
  [(5, mkRequest "" "getBalance" ["7"] []); (5, mkRequest "" "getBalance" ["7"] []);
   (6, mkRequest "" "getBalance" ["8"] [])].

Lemma session_requests_witness :
  ∃ u', foldM (λ x, sendInvokeRequest config ycsb_out sign x.1 x.2) requests user0 = Ok u' ∧
    length (sentRequests u') = 3%nat ∧ NoDup (request_nonce payload_in <$> sentRequests u') ∧
    pendingTransactions u' = (λ x, of_bytes (ur_digest x.2)) <$> sentRequests u' ∧
    ∀ i x, sentRequests u' !! i = Some x →
      ["10.0.0.1"; "10.0.0.2"] !! (i mod 2)%nat = Some x.1.
Proof.
  apply (session_requests config ycsb_out ycsb_in sign check payload_in requests user0 wire);
    try reflexivity; [discriminate|repeat constructor; discriminate| |discriminate].
  intros i x Hx. destruct i as [|[|[|i]]]; [..|discriminate Hx]; injection Hx as <-; by vm_compute.
Defined.

End UserRuns.
