(* ===== verification/MockComm.v ===== *)
(** * Test doubles of the communication controller

    [src/block_server/comm/mock/mock_comm.cpp] and [comm_stub.cpp].  The first
    hands out three epochs of fixed transactions, the example of the paper, and
    a comment says which of them commit; the second makes up random
    transactions, a fixed number per epoch.

    A transaction object is named by its id, which a static counter makes
    unique; [random()] is an argument. *)
From S2P Require Import Prelude DecimalString Msp Transaction TransactionCodec Storage Orm Database ReserveTable.
From S2P Require Import Chaincode OrmTest ChaincodeManager Executor ConsensusControl ClientProxy UserPayload.
From Stdlib Require Import ZArith NArith Lia.
From stdpp Require Import base list gmap strings.

Local Open Scope N_scope.

(** ** MockComm *)
Record MockComm := mkMockComm {
  firstInEpoch1 : bool;
  firstInEpoch2 : bool;
  firstInEpoch3 : bool;
  firstInEpoch : N;
  mock_txMap : gmap N Transaction;
  (** The static of the lambda [makeTransaction]. *)
  mock_tid : N }.

Definition new_MockComm : MockComm := mkMockComm true true true 0 ∅ 0.

(** A batch, [nullptr], or the loop [while(!firstInEpoch3);] that never ends. *)
Inductive mock_reply := Batch (l : list N) | NullBatch | Spins.

Definition mixed_request (reads writes : list string) : Request := mkRequest "" "mixed" reads writes.

Definition first_epoch : list Request :=
  [mixed_request ["0"; "1"] ["2"]; mixed_request ["3"; "4"; "5"] ["0"];
   mixed_request ["6"; "7"] ["3"; "9"]; mixed_request ["2"; "8"] ["1"; "4"];
   mixed_request ["9"] ["5"; "6"; "8"]; mixed_request [] ["7"]].
Definition second_epoch : list Request :=
  [mixed_request ["0"; "1"] ["2"]; mixed_request ["3"; "4"; "5"] ["0"];
   mixed_request ["6"; "7"] ["3"; "9"]; mixed_request [] ["7"]].

Section Mock.
Context `{Yaml} (config : Node) (ycsb_Serialize : YCSB_PAYLOAD → string) (random : N).

(** [Utils::makeTransaction(epoch, tid, readOnly)]. *)
Definition makeTransaction (epoch tid : N) (readOnly : bool) : Transaction :=
  setReadOnly readOnly (setTransactionID tid (setEpoch epoch MockTransaction)).

Definition mock_make (epoch : N) (r : Request) (st : list N * MockComm) : outcome (list N * MockComm) :=
  let '(txList, m) := st in
  let tid := u64 (mock_tid m + 1) in
  p ← getTransactionPayload config ycsb_Serialize random tid r;
  let t := setPayload p (makeTransaction epoch tid false) in
  Ok (txList ++ [tid],
      mkMockComm (firstInEpoch1 m) (firstInEpoch2 m) (firstInEpoch3 m) (firstInEpoch m)
        (<[tid := t]> (mock_txMap m)) tid).

Definition mock_getTransaction (epoch : N) (m : MockComm) : outcome (mock_reply * MockComm) :=
  let m := if firstInEpoch m =? 0
           then mkMockComm (firstInEpoch1 m) (firstInEpoch2 m) (firstInEpoch3 m) epoch (mock_txMap m) (mock_tid m)
           else m in
  let batch m l := st ← foldM (mock_make epoch) l ([], m); Ok (Batch st.1, st.2) in
  if epoch =? firstInEpoch m then
    if negb (firstInEpoch1 m) then Ok (NullBatch, m)
    else batch (mkMockComm false (firstInEpoch2 m) (firstInEpoch3 m) (firstInEpoch m) (mock_txMap m) (mock_tid m))
           first_epoch
  else if epoch =? u64 (firstInEpoch m + 1) then
    if negb (firstInEpoch2 m) then Ok (NullBatch, m)
    else batch (mkMockComm (firstInEpoch1 m) false (firstInEpoch3 m) (firstInEpoch m) (mock_txMap m) (mock_tid m))
           second_epoch
  else if epoch =? u64 (firstInEpoch m + 2) then
    if negb (firstInEpoch3 m) then Ok (Spins, m)
    else batch (mkMockComm (firstInEpoch1 m) (firstInEpoch2 m) false (firstInEpoch m) (mock_txMap m) (mock_tid m))
           [mkRequest "" "" [] []]
  else Ok (Batch [], m).

(** ** CommStub *)
Record CommStub := mkStub {
  stub_epoch : N;
  epochTrSentNum : N;
  transactionMap : gmap N (list N);
  stub_heap : gmap N Transaction;
  stub_tid : N }.

Definition EPOCH_MAX_TR_NUM : N := 19000.
Definition new_CommStub (startWithEpoch : N) : CommStub := mkStub startWithEpoch 0 ∅ ∅ 0.

(** One round of the loop; [p] is the random payload. *)
Definition stub_one (payload : N → TransactionPayload) (st : list N * CommStub) : list N * CommStub :=
  let '(tr, s) := st in
  let tid := u64 (stub_tid s + 1) in
  let t := setPayload (payload tid) (makeTransaction (stub_epoch s) tid false) in
  (tr ++ [tid],
   mkStub (stub_epoch s) (epochTrSentNum s + 1)
     (<[stub_epoch s := default [] (transactionMap s !! stub_epoch s) ++ [tid]]> (transactionMap s))
     (<[tid := t]> (stub_heap s)) tid).

Fixpoint stub_loop (fuel : nat) (payload : N → TransactionPayload) (minSize : N) (st : list N * CommStub)
    : list N * CommStub :=
  match fuel with
  | O => st
  | S fuel' =>
      if negb (epochTrSentNum st.2 =? EPOCH_MAX_TR_NUM) && (N.of_nat (length st.1) <? minSize)
      then stub_loop fuel' payload minSize (stub_one payload st) else st
  end.

(** [minSize] rounds are enough. *)
Definition stub_getTransaction (payload : N → TransactionPayload) (epoch minSize : N) (s : CommStub)
    : option (list N) * CommStub :=
  if epoch <? stub_epoch s then (None, s)
  else
    let '(tr, s) := stub_loop (N.to_nat minSize) payload minSize ([], s) in
    (Some tr, if epochTrSentNum s =? EPOCH_MAX_TR_NUM
              then mkStub (stub_epoch s + 1) 0 (transactionMap s) (stub_heap s) (stub_tid s) else s).

(** [clearTransactionForEpoch]: frees the transactions of the epoch and files
    the others under the epoch they were moved to.  [transactionMap[_epoch]]
    creates the entry; reading a transaction that was freed is a fault. *)
Definition stub_clear_one (epoch : N) (p : N) (s : CommStub) : outcome CommStub :=
  t ← deref (stub_heap s !! p);
  if tr_epoch t =? epoch then
    Ok (mkStub (stub_epoch s) (epochTrSentNum s) (transactionMap s) (delete p (stub_heap s)) (stub_tid s))
  else
    Ok (mkStub (stub_epoch s) (epochTrSentNum s)
          (<[tr_epoch t := default [] (transactionMap s !! tr_epoch t) ++ [p]]> (transactionMap s))
          (stub_heap s) (stub_tid s)).

Definition stub_clearTransactionForEpoch (debug : bool) (epoch : N) (s : CommStub) : outcome CommStub :=
  _ ← DCHECK debug (epoch <? stub_epoch s);
  s ← foldM (stub_clear_one epoch) (default [] (transactionMap s !! epoch)) s;
  Ok (mkStub (stub_epoch s) (epochTrSentNum s) (delete epoch (transactionMap s)) (stub_heap s) (stub_tid s)).

End Mock.

(** ** The loop of the stub *)
Section StubFacts.
Context (payload : N → TransactionPayload).

(** More fuel changes nothing: the loop ends by itself. *)
Lemma stub_loop_enough fuel fuel' minSize st :
  minSize ≤ N.of_nat (length st.1 + fuel) → (fuel ≤ fuel')%nat →
  stub_loop fuel' payload minSize st = stub_loop fuel payload minSize st.
Proof.
  revert fuel' st. induction fuel as [|fuel IH]; intros fuel' st Hm Hf.
  - cbn [stub_loop]. destruct fuel' as [|fuel']; [done|]. cbn [stub_loop].
    rewrite (proj2 (N.ltb_ge _ _)) by lia. by rewrite andb_false_r.
  - destruct fuel' as [|fuel']; [lia|]. cbn [stub_loop]. destruct (_ && _); [|done].
    apply IH; [|lia]. destruct st as [tr s]. cbn [stub_one fst]. rewrite length_app. cbn [fst length] in *. lia.
Qed.

Lemma stub_loop_count fuel minSize st :
  epochTrSentNum st.2 ≤ EPOCH_MAX_TR_NUM →
  epochTrSentNum (stub_loop fuel payload minSize st).2 ≤ EPOCH_MAX_TR_NUM ∧
  epochTrSentNum (stub_loop fuel payload minSize st).2 + N.of_nat (length st.1) =
    epochTrSentNum st.2 + N.of_nat (length (stub_loop fuel payload minSize st).1) ∧
  stub_epoch (stub_loop fuel payload minSize st).2 = stub_epoch st.2.
Proof.
  revert st. induction fuel as [|fuel IH]; intros st Hle; [done|]. cbn [stub_loop].
  destruct (N.eqb_spec (epochTrSentNum st.2) EPOCH_MAX_TR_NUM) as [|Hne]; cbn [negb andb]; [done|].
  destruct (N.ltb_spec (N.of_nat (length st.1)) minSize) as [Hlt|]; [|done].
  destruct st as [tr s]. cbn [fst snd] in *.
  destruct (IH (stub_one payload (tr, s))) as (H1 & H2 & H3); [cbn; lia|].
  split; [done|]. rewrite H3. split; [|done]. cbn [stub_one fst snd epochTrSentNum] in H2.
  rewrite length_app in H2. cbn [length] in H2. cbn [stub_one] in *. lia.
Qed.

Lemma stub_loop_length fuel minSize st :
  N.of_nat (length st.1) ≤ minSize →
  N.of_nat (length (stub_loop fuel payload minSize st).1) ≤ minSize ∧
  (minSize ≤ N.of_nat (length st.1 + fuel) →
     N.of_nat (length (stub_loop fuel payload minSize st).1) < minSize →
     epochTrSentNum (stub_loop fuel payload minSize st).2 = EPOCH_MAX_TR_NUM).
Proof.
  revert st. induction fuel as [|fuel IH]; intros st Hle; cbn [stub_loop]; [split; [done|lia]|].
  destruct (N.eqb_spec (epochTrSentNum st.2) EPOCH_MAX_TR_NUM) as [|Hne]; cbn [negb andb]; [done|].
  destruct (N.ltb_spec (N.of_nat (length st.1)) minSize) as [Hlt|]; [|split; [done|lia]].
  destruct st as [tr s]. cbn [fst snd] in *.
  destruct (IH (stub_one payload (tr, s))) as [H1 H2].
  { cbn [stub_one fst]. rewrite length_app. cbn [length]. lia. }
  split; [done|]. intros Hf. apply H2. cbn [stub_one fst]. rewrite length_app. cbn [length]. lia.
Qed.

(** A call for an epoch that is over returns nothing; otherwise it returns at
    most [minSize] transactions, fewer only when that completes the epoch, and
    the stub moves on exactly when an epoch has its 19000 transactions. *)
Theorem stub_epochs_complete epoch minSize s :
  epochTrSentNum s < EPOCH_MAX_TR_NUM →
  let '(r, s') := stub_getTransaction payload epoch minSize s in
  match r with
  | None => epoch < stub_epoch s ∧ s' = s
  | Some tr => stub_epoch s ≤ epoch ∧ N.of_nat (length tr) ≤ minSize ∧
      epochTrSentNum s' < EPOCH_MAX_TR_NUM ∧
      if epochTrSentNum s + N.of_nat (length tr) =? EPOCH_MAX_TR_NUM
      then stub_epoch s' = stub_epoch s + 1 ∧ epochTrSentNum s' = 0
      else stub_epoch s' = stub_epoch s ∧ N.of_nat (length tr) = minSize ∧
           epochTrSentNum s' = epochTrSentNum s + N.of_nat (length tr)
  end.
Proof.
  intros Hs. unfold stub_getTransaction. destruct (N.ltb_spec epoch (stub_epoch s)) as [|Hge]; [done|].
  destruct (stub_loop_count (N.to_nat minSize) minSize ([], s)) as (H1 & H2 & H3); [cbn; lia|].
  destruct (stub_loop_length (N.to_nat minSize) minSize ([], s)) as [H4 H5]; [cbn; lia|].
  destruct (stub_loop _ _ _ _) as [tr s'] eqn:E. cbn [fst snd length] in *.
  specialize (H5 ltac:(lia)). split; [done|]. split; [done|].
  destruct (N.eqb_spec (epochTrSentNum s') EPOCH_MAX_TR_NUM) as [Em|Em]; cbn [epochTrSentNum stub_epoch].
  - split; [done|]. rewrite (proj2 (N.eqb_eq _ _)) by lia. by rewrite H3.
  - split; [lia|]. rewrite (proj2 (N.eqb_neq _ _)) by lia.
    split; [done|]. split; [|lia]. destruct (N.lt_ge_cases (N.of_nat (length tr)) minSize); [|lia]. tauto.
Qed.

End StubFacts.

(** ** The example of the paper

    The transactions of [MockComm] run through the executors of the block
    server: the results are those of the comments in the source.  The two
    transactions that abort in the first epoch run again in the second. *)
Module PaperExample.
#[local] Existing Instances MemLevelDB.mem_storage MemLevelDB.mem_table_storage.
#[local] Existing Instance TwoServerConfig.tree_yaml.
Local Notation store := (gmap string (gmap string string)).

Definition config : Node := TwoServerConfig.config "10.0.0.1" "true".
Definition cc : string → string → CC store Z :=
  InvokeChaincode UserRuns.ycsb_in (λ _, []) (λ _, "") (λ _, []) true true ORMTestChaincode.

Definition get_batch (epoch : N) (m : MockComm) : list N * MockComm :=
  match mock_getTransaction config UserRuns.ycsb_out 1 epoch m with
  | Ok (Batch l, m') => (l, m') | _ => ([], m) end.
Definition batch1 := get_batch 1 new_MockComm.
Definition batch2 := get_batch 2 batch1.2.

Definition run_epoch (l : list N) (st : exec_state store) : outcome (exec_state store) :=
  '(_, rt, st) ← executeList cc true l None st;
  '(_, st) ← commitList true l rt st; Ok st.
Definition results (l : list N) (st : exec_state store) : list (N * option TransactionResult) :=
  (λ p, (p, transactionResult <$> ex_heap st !! p)) <$> l.

Definition epoch1 : outcome (exec_state store) :=
  run_epoch batch1.1 (mkExec (mock_txMap batch1.2) (new_DatabaseImpl ∅) None).

Example first_epoch_results :
  results batch1.1 <$> epoch1 =
    Ok [(1, Some COMMIT); (2, Some COMMIT); (3, Some COMMIT); (4, Some ABORT); (5, Some ABORT);
        (6, Some COMMIT)].
Proof. vm_compute. reflexivity. Qed.

(** Aborted transactions are moved to the next epoch. *)
Definition retry (p : N) (h : gmap N Transaction) : gmap N Transaction :=
  alter (λ t, setEpoch 2 (resetTransaction t)) p h.

Definition epoch2 : outcome (exec_state store) :=
  st ← epoch1;
  let heap := retry 4 (retry 5 (ex_heap st)) ∪ mock_txMap batch2.2 in
  run_epoch ([4; 5] ++ batch2.1) (set_heap heap st).

Example second_epoch_results :
  results ([4; 5] ++ batch2.1) <$> epoch2 =
    Ok [(4, Some COMMIT); (5, Some COMMIT); (7, Some ABORT); (8, Some ABORT); (9, Some ABORT);
        (10, Some COMMIT)].
Proof. vm_compute. reflexivity. Qed.

End PaperExample.
