(* ===== verification/YcsbWorkload.v ===== *)
(** * The YCSB workload

    [include/common/random_generator.h], [ycsb_workload.h] and
    [ycsb_workload.cpp], and the closures of [ycsb_db.cpp]: generators of
    numbers, the keys and fields built from them, and the operations a client
    thread sends.

    The standard engines and distributions are parameters.  Where the code
    computes in floating point (the Zipfian formula and the choice of the
    operation) the result of the comparison or of the truncation is a parameter
    too. *)
From S2P Require Import Prelude DecimalString Random Msp Transaction TransactionCodec ConsensusControl ClientProxy.
From S2P Require Import Chaincode UserPayload.
From Stdlib Require Import ZArith NArith Lia.
From stdpp Require Import base list strings.

Local Open Scope N_scope.

(** [uz < 1.0], [uz < 1.0 + pow(0.5, theta)], or the truncated product
    [num_items * pow(eta * u - eta + 1, alpha)]. *)
Inductive zipf_draw := BelowOne | BelowTwo | Product (k : N).

Class Engines := {
  Engine : Type;
  (** [std::uniform_int_distribution<uint64_t>(min, max)], both inclusive. *)
  uniform_int : N → N → Engine → N * Engine;
  zipf_unit : N → Engine → zipf_draw * Engine }.

Class EnginesLaws `{Engines} : Prop := {
  uniform_range min max e : min ≤ max → min ≤ (uniform_int min max e).1 ≤ max;
  product_range n e k : 2 ≤ n → (zipf_unit n e).1 = Product k → k < n }.

Section Generators.
Context `{Engines}.

(** ** ZipfianGenerator *)
Record ZipfianGenerator := mkZipf {
  zf_numItems : N;
  zf_base : N;
  nForZeta : N;
  zf_engine : Engine }.

Definition kMaxNumItems : N := N.shiftr (2 ^ 64 - 1) 24.

Definition RaiseZeta (num : N) (z : ZipfianGenerator) : outcome ZipfianGenerator :=
  CHECK (nForZeta z <=? num);; Ok (mkZipf (zf_numItems z) (zf_base z) num (zf_engine z)).

Definition zipf_next_of (num_items : N) (z : ZipfianGenerator) : outcome (N * ZipfianGenerator) :=
  CHECK ((2 <=? num_items) && (num_items <? kMaxNumItems));;
  z ← (if nForZeta z <? num_items then RaiseZeta num_items z else Ok z);
  let '(d, e) := zipf_unit num_items (zf_engine z) in
  Ok (match d with BelowOne => 0 | BelowTwo => 1 | Product k => u64 (zf_base z + k) end,
      mkZipf (zf_numItems z) (zf_base z) (nForZeta z) e).

Definition zipf_next (z : ZipfianGenerator) : outcome (N * ZipfianGenerator) :=
  zipf_next_of (zf_numItems z) z.

Definition new_Zipfian (min max : N) (e : Engine) : outcome ZipfianGenerator :=
  let numItems := u64 (max + (2 ^ 64 - min) + 1) in
  CHECK ((2 <=? numItems) && (numItems <? kMaxNumItems));;
  z ← RaiseZeta numItems (mkZipf numItems min 0 e);
  '(_, z) ← zipf_next z; Ok z.

(** ** The other generators

    [CounterGenerator] is the number it returns next.  The basis of
    [SkewedLatestGenerator] is a counter that belongs to the workload:
    [gen_next] is given what its [last] returns. *)
Inductive Generator :=
  | UniformGenerator (min max : N) (e : Engine)
  | ConstGenerator (constant : N)
  | Zipfian (z : ZipfianGenerator)
  | ScrambledZipfian (baseVal numItems : N) (z : ZipfianGenerator)
  | SkewedLatest (z : ZipfianGenerator).

(** [n - 1] in a [uint64_t]. *)
Definition pred64 (n : N) : N := u64 (n + (2 ^ 64 - 1)).
Definition counter_next (counter : N) : N * N := (counter, u64 (counter + 1)).
Definition counter_last (counter : N) : N := pred64 counter.

Definition gen_next (basis_last : N) (g : Generator) : outcome (N * Generator) :=
  match g with
  | UniformGenerator min max e => let '(v, e) := uniform_int min max e in Ok (v, UniformGenerator min max e)
  | ConstGenerator c => Ok (c, g)
  | Zipfian z => '(v, z) ← zipf_next z; Ok (v, Zipfian z)
  | ScrambledZipfian baseVal numItems z =>
      '(v, z) ← zipf_next z;
      Ok (u64 (baseVal + FNVHash64 v mod numItems), ScrambledZipfian baseVal numItems z)
  | SkewedLatest z =>
      '(v, z) ← zipf_next_of basis_last z; Ok (u64 (basis_last + (2 ^ 64 - v)), SkewedLatest z)
  end.

Definition new_Scrambled (min max : N) (e : Engine) : outcome Generator :=
  z ← new_Zipfian min max e; Ok (ScrambledZipfian min (u64 (max + (2 ^ 64 - min) + 1)) z).

Definition new_SkewedLatest (counter : N) (e : Engine) : outcome Generator :=
  z ← new_Zipfian 0 (pred64 (counter_last counter)) e;
  '(_, g) ← gen_next (counter_last counter) (SkewedLatest z); Ok g.

(** ** YCSBWorkload *)
Record YCSBWorkload := mkWorkload {
  fieldCount : nat;
  readAllFields : bool;
  writeAllFields : bool;
  keyGenerator : N;
  fieldLenGenerator : Generator;
  keyChooser : Generator;
  fieldChooser : Generator;
  scanLenChooser : Generator;
  insertKeySequence : N;
  orderedInserts : bool;
  recordCount : N;
  randomHelper : N }.

Definition ycsb_table : string := "ycsb".

(** What the constructor reads from the configuration. *)
Record YcsbConfig := mkYcsbConfig {
  yc_field_count : nat;
  yc_field_length_distribution : string;
  yc_field_length : N;
  yc_record_count : N;
  yc_request_distribution : string;
  yc_new_keys : N;  (** [static_cast<int>(op_count * insert_proportion * 2)] *)
  yc_max_scan_len : N;
  yc_scan_len_distribution : string;
  yc_insert_start : N;
  yc_read_all : bool;
  yc_write_all : bool;
  yc_ordered : bool }.

Definition size_generator (dist : string) (max : N) (e : Engine) : outcome Generator :=
  if String.eqb dist "uniform" then Ok (UniformGenerator 1 max e)
  else if String.eqb dist "zipfian" then z ← new_Zipfian 1 max e; Ok (Zipfian z)
  else Fatal CheckFailed.

(** [latest] is the engine that the default seed [random()] gives: the
    generator of the latest records does not take the seed of the workload. *)
Definition key_chooser (c : YcsbConfig) (e latest : Engine) : outcome Generator :=
  let dist := yc_request_distribution c in
  if String.eqb dist "uniform" then Ok (UniformGenerator 0 (pred64 (yc_record_count c)) e)
  else if String.eqb dist "zipfian" then new_Scrambled 0 (pred64 (u64 (yc_record_count c + yc_new_keys c))) e
  else if String.eqb dist "latest" then new_SkewedLatest (yc_record_count c) latest
  else Fatal CheckFailed.

Definition new_YCSBWorkload (c : YcsbConfig) (e latest : Engine) (seed : N) : outcome YCSBWorkload :=
  fl ← (if String.eqb (yc_field_length_distribution c) "constant" then Ok (ConstGenerator (yc_field_length c))
        else size_generator (yc_field_length_distribution c) (yc_field_length c) e);
  kc ← key_chooser c e latest;
  sl ← size_generator (yc_scan_len_distribution c) (yc_max_scan_len c) e;
  Ok (mkWorkload (yc_field_count c) (yc_read_all c) (yc_write_all c) (yc_insert_start c) fl kc
        (UniformGenerator 0 (pred64 (N.of_nat (yc_field_count c))) e) sl (yc_record_count c) (yc_ordered c)
        (yc_record_count c) seed).

Definition buildKeyName (keyNum : N) (w : YCSBWorkload) : string :=
  String.append "user" (N_to_string (if orderedInserts w then keyNum else FNVHash64 keyNum)).

Definition set_keyGenerator (k : N) (w : YCSBWorkload) : YCSBWorkload :=
  mkWorkload (fieldCount w) (readAllFields w) (writeAllFields w) k (fieldLenGenerator w) (keyChooser w)
    (fieldChooser w) (scanLenChooser w) (insertKeySequence w) (orderedInserts w) (recordCount w) (randomHelper w).
Definition set_keyChooser (g : Generator) (w : YCSBWorkload) : YCSBWorkload :=
  mkWorkload (fieldCount w) (readAllFields w) (writeAllFields w) (keyGenerator w) (fieldLenGenerator w) g
    (fieldChooser w) (scanLenChooser w) (insertKeySequence w) (orderedInserts w) (recordCount w) (randomHelper w).
Definition set_fields (fl fc : Generator) (seed : N) (w : YCSBWorkload) : YCSBWorkload :=
  mkWorkload (fieldCount w) (readAllFields w) (writeAllFields w) (keyGenerator w) fl (keyChooser w)
    fc (scanLenChooser w) (insertKeySequence w) (orderedInserts w) (recordCount w) seed.
Definition set_scanLen (g : Generator) (w : YCSBWorkload) : YCSBWorkload :=
  mkWorkload (fieldCount w) (readAllFields w) (writeAllFields w) (keyGenerator w) (fieldLenGenerator w)
    (keyChooser w) (fieldChooser w) g (insertKeySequence w) (orderedInserts w) (recordCount w) (randomHelper w).

Definition next_num (g : Generator) (w : YCSBWorkload) : outcome (N * Generator) :=
  gen_next (counter_last (insertKeySequence w)) g.

Definition nextSequenceKey (w : YCSBWorkload) : string * YCSBWorkload :=
  let '(keyNum, k) := counter_next (keyGenerator w) in
  (buildKeyName keyNum w, set_keyGenerator k w).

(** The loop of [nextTransactionKey]: [None] when [fuel] draws were not enough. *)
Fixpoint choose_key (fuel : nat) (w : YCSBWorkload) : outcome (option N * YCSBWorkload) :=
  match fuel with
  | O => Ok (None, w)
  | S fuel' =>
      '(key_num, g) ← next_num (keyChooser w) w;
      let w := set_keyChooser g w in
      if counter_last (insertKeySequence w) <? key_num then choose_key fuel' w else Ok (Some key_num, w)
  end.

Definition nextTransactionKey (fuel : nat) (w : YCSBWorkload) : outcome (option string * YCSBWorkload) :=
  '(k, w) ← choose_key fuel w; Ok (option_map (λ n, buildKeyName n w) k, w).

Definition field_name (n : N) : string := String.append "field" (N_to_string n).

Definition nextFieldName (w : YCSBWorkload) : outcome (string * YCSBWorkload) :=
  '(n, g) ← next_num (fieldChooser w) w;
  Ok (field_name n, set_fields (fieldLenGenerator w) g (randomHelper w) w).

(** A field value; the order of the two arguments of [emplace_back] does not
    matter, they use different generators. *)
Definition random_value (lhs_first : bool) (w : YCSBWorkload) : outcome (string * YCSBWorkload) :=
  '(len, g) ← next_num (fieldLenGenerator w) w;
  '(s, seed) ← a_string lhs_first len len (randomHelper w);
  Ok (String.string_of_list_ascii s, set_fields g (fieldChooser w) seed w).

Fixpoint random_values (lhs_first : bool) (n i : nat) (w : YCSBWorkload)
    : outcome (list (string * string) * YCSBWorkload) :=
  match n with
  | O => Ok ([], w)
  | S n' =>
      '(v, w) ← random_value lhs_first w;
      '(vs, w) ← random_values lhs_first n' (S i) w;
      Ok ((field_name (N.of_nat i), v) :: vs, w)
  end.

Definition generateRandomValues (lhs_first : bool) (w : YCSBWorkload) :=
  random_values lhs_first (fieldCount w) 0 w.

Definition generateRandomUpdate (lhs_first : bool) (w : YCSBWorkload)
    : outcome (list (string * string) * YCSBWorkload) :=
  '(v, w) ← random_value lhs_first w;
  '(f, w) ← nextFieldName w; Ok ([(f, v)], w).

(** ** The client thread *)
Inductive Operation := INSERT | READ | UPDATE | SCAN | READ_MODIFY_WRITE.

(** What the five closures ask of the database. *)
Inductive ycsb_op :=
  | OpRead (key : string) (fields : list string)
  | OpUpdate (key : string) (values : list (string * string))
  | OpInsert (key : string) (values : list (string * string))
  | OpScan (key : string) (len : N) (fields : list string).

Definition read_fields (w : YCSBWorkload) : outcome (list string * YCSBWorkload) :=
  if negb (readAllFields w) then '(f, w) ← nextFieldName w; Ok ([f], w) else Ok ([], w).
Definition write_values (lhs_first : bool) (w : YCSBWorkload) :=
  if negb (writeAllFields w) then generateRandomUpdate lhs_first w else generateRandomValues lhs_first w.

(** Runs with at most [fuel] draws per key; [None] when a key needs more. *)
Definition with_key {A} (fuel : nat) (w : YCSBWorkload)
    (f : string → YCSBWorkload → outcome (option A * YCSBWorkload)) : outcome (option A * YCSBWorkload) :=
  '(k, w) ← nextTransactionKey fuel w;
  match k with None => Ok (None, w) | Some key => f key w end.

Definition client_ops (lhs_first : bool) (fuel : nat) (op : Operation) (w : YCSBWorkload)
    : outcome (option (list ycsb_op) * YCSBWorkload) :=
  match op with
  | INSERT =>
      '(values, w) ← generateRandomValues lhs_first w;
      let '(key, w) := nextSequenceKey w in Ok (Some [OpInsert key values], w)
  | READ =>
      '(fields, w) ← read_fields w;
      with_key fuel w (λ key w, Ok (Some [OpRead key fields], w))
  | UPDATE =>
      '(values, w) ← write_values lhs_first w;
      with_key fuel w (λ key w, Ok (Some [OpUpdate key values], w))
  | SCAN =>
      '(fields, w) ← read_fields w;
      with_key fuel w (λ key w,
        '(len, g) ← next_num (scanLenChooser w) w;
        Ok (Some [OpScan key len fields], set_scanLen g w))
  | READ_MODIFY_WRITE =>
      with_key fuel w (λ key w,
        '(fields, w) ← read_fields w;
        '(values, w) ← write_values lhs_first w;
        with_key fuel w (λ key' w, Ok (Some [OpRead key fields; OpUpdate key' values], w)))
  end.

(** The requests of the operations, in order; [random i] is what [random()]
    returns for the [i]th. *)
Context `{Yaml} `{Protobuf} (config : Node) (ycsb_Serialize : YCSB_PAYLOAD → string).
Context (user_sign : string → list N → list N) (serialize_record : YCSB_FOR_BLOCK_BENCH → string).

Definition run_op (random : N) (op : ycsb_op) (u : DBUserBase) : outcome DBUserBase :=
  '(r, u) ← match op with
            | OpRead key fields => db_Read config ycsb_Serialize user_sign serialize_record random ycsb_table key fields u
            | OpUpdate key values => db_Update config ycsb_Serialize user_sign serialize_record random ycsb_table key values u
            | OpInsert key values => db_Insert config ycsb_Serialize user_sign serialize_record random ycsb_table key values u
            | OpScan _ _ _ => db_Scan u
            end;
  Ok u.

Definition run_client (lhs_first : bool) (fuel : nat) (random : nat → N) (op : Operation) (w : YCSBWorkload)
    (u : DBUserBase) : outcome (YCSBWorkload * DBUserBase) :=
  '(ops, w) ← client_ops lhs_first fuel op w;
  u ← foldM (λ p, run_op (random p.1) p.2) (imap pair (default [] ops)) u;
  Ok (w, u).

End Generators.

Section Ranges.
Context `{EnginesLaws}.

Lemma pred64_pos n : 0 < n → n < 2 ^ 64 → pred64 n = n - 1.
Proof.
  intros Hp Hn. unfold pred64. replace (n + (2 ^ 64 - 1)) with (n - 1 + 1 * 2 ^ 64) by lia.
  unfold u64. rewrite N.Div0.mod_add. apply N.mod_small. lia.
Qed.

Lemma width64 max : max < 2 ^ 64 - 1 → u64 (max + (2 ^ 64 - 0) + 1) = max + 1.
Proof.
  intros Hm. replace (max + (2 ^ 64 - 0) + 1) with (max + 1 + 1 * 2 ^ 64) by lia.
  unfold u64. rewrite N.Div0.mod_add. apply N.mod_small. lia.
Qed.

Lemma sub64 a b : b ≤ a → a < 2 ^ 64 → u64 (a + (2 ^ 64 - b)) = a - b.
Proof.
  intros Hb Ha. replace (a + (2 ^ 64 - b)) with (a - b + 1 * 2 ^ 64) by lia.
  unfold u64. rewrite N.Div0.mod_add. apply N.mod_small. lia.
Qed.

Lemma zipf_bound n z v z' :
  zf_base z = 0 → n < 2 ^ 64 → zipf_next_of n z = Ok (v, z') →
  2 ≤ n ∧ v < n ∧ zf_base z' = 0 ∧ zf_numItems z' = zf_numItems z.
Proof.
  intros Hb Hn E. unfold zipf_next_of in E.
  destruct ((2 <=? n) && _) eqn:Ec; [|done]. apply andb_true_iff in Ec as [Ec%N.leb_le _].
  cbn [CHECK mbind outcome_bind] in E. unfold RaiseZeta in E.
  destruct (nForZeta z <? n); [destruct (nForZeta z <=? n); [|done]|]; cbn [CHECK mbind outcome_bind zf_engine zf_base] in E;
    (destruct (zipf_unit n (zf_engine z)) as [d e] eqn:Ed; injection E as <- <-; cbn [zf_base zf_numItems];
     rewrite Hb; split_and!; try done;
     destruct d as [| |k]; [lia|lia|];
     pose proof (product_range n (zf_engine z) k) as Hk; rewrite Ed in Hk; specialize (Hk Ec eq_refl);
     rewrite N.add_0_l, u64_small by lia; done).
Qed.

(** The choosers that the constructor builds: their numbers are below the
    number of records, or (Zipfian) below the larger key space. *)
Definition chooser_ok (records : N) (g : Generator) : Prop :=
  match g with
  | UniformGenerator min max _ => min = 0 ∧ max = records - 1
  | ScrambledZipfian base numItems z => base = 0 ∧ 0 < numItems < 2 ^ 64
  | SkewedLatest z => zf_base z = 0
  | _ => False
  end.

Definition direct (g : Generator) : Prop :=
  match g with UniformGenerator _ _ _ | SkewedLatest _ => True | _ => False end.

Lemma chooser_next records g v g' :
  0 < records → records < 2 ^ 64 → chooser_ok records g → gen_next (records - 1) g = Ok (v, g') →
  chooser_ok records g' ∧ (direct g ↔ direct g') ∧ (direct g → v < records).
Proof.
  intros Hp Hr Hg E. destruct g as [min max e| | |base n z|z]; cbn [chooser_ok] in Hg; try done;
    cbn [gen_next] in E.
  - destruct Hg as [-> ->]. pose proof (uniform_range 0 (records - 1) e ltac:(lia)) as Hu.
    destruct (uniform_int _ _ _) as [u e']. injection E as <- <-. cbn [fst] in Hu.
    split_and!; [done|done|]. intros _. lia.
  - inv_outcome. split_and!; [done|done|by intros []].
  - apply outcome_bind_Ok in E as ([u z'] & Ez & E). injection E as <- <-.
    destruct (zipf_bound (records - 1) z u z' Hg ltac:(lia) Ez) as (_ & Hu & Hb & _).
    split_and!; [done|done|]. intros _. rewrite sub64 by lia. lia.
Qed.

Lemma new_Zipfian_base max e z : max < 2 ^ 64 - 1 → new_Zipfian 0 max e = Ok z → zf_base z = 0.
Proof.
  intros Hm E. unfold new_Zipfian in E. rewrite width64 in E by done.
  destruct (_ && _); [|done]. cbn [CHECK mbind outcome_bind] in E.
  unfold RaiseZeta in E at 1. cbn [nForZeta] in E. rewrite (proj2 (N.leb_le 0 _)) in E by lia.
  cbn [CHECK mbind outcome_bind] in E. apply outcome_bind_Ok in E as ([v z'] & Ez & E). injection E as <-.
  unfold zipf_next in Ez. cbn [zf_numItems] in Ez.
  apply zipf_bound in Ez as (_ & _ & ? & _); [done|done|lia].
Qed.

Lemma key_chooser_ok c e e' g :
  0 < yc_record_count c → yc_record_count c + yc_new_keys c < 2 ^ 64 - 1 → key_chooser c e e' = Ok g →
  chooser_ok (yc_record_count c) g ∧ (yc_request_distribution c ≠ "zipfian" → direct g).
Proof.
  intros Hp Hm E. unfold key_chooser in E.
  destruct (String.eqb_spec (yc_request_distribution c) "uniform") as [|Hu].
  { injection E as <-. rewrite pred64_pos by lia. done. }
  destruct (String.eqb_spec (yc_request_distribution c) "zipfian") as [->|Hz].
  { rewrite u64_small, pred64_pos in E by lia. unfold new_Scrambled in E. inv_outcome.
    rewrite width64 by lia. split; [split; [done|lia]|done]. }
  destruct (String.eqb _ "latest"); [|done]. unfold new_SkewedLatest, counter_last in E.
  rewrite (pred64_pos (yc_record_count c)) in E by lia.
  apply outcome_bind_Ok in E as (z & Ez & E). apply outcome_bind_Ok in E as ([v g1] & Eg & E).
  injection E as <-.
  destruct (decide (yc_record_count c = 1)) as [E1|Hne].
  { rewrite E1 in Ez. unfold new_Zipfian in Ez. vm_compute in Ez. done. }
  rewrite pred64_pos in Ez by lia.
  assert (zf_base z = 0) as Hb by (eapply new_Zipfian_base, Ez; lia).
  destruct (chooser_next (yc_record_count c) (SkewedLatest z) v g1) as (Hg & Hd & _); [lia|lia|done|done|].
  split; [done|]. intros _. by apply Hd.
Qed.

(** *** Keys *)
Definition workload_ok (w : YCSBWorkload) : Prop :=
  0 < recordCount w < 2 ^ 64 ∧ insertKeySequence w = recordCount w ∧ chooser_ok (recordCount w) (keyChooser w).

Lemma new_workload_ok c e e' seed w :
  0 < yc_record_count c → yc_record_count c + yc_new_keys c < 2 ^ 64 - 1 →
  new_YCSBWorkload c e e' seed = Ok w →
  workload_ok w ∧ recordCount w = yc_record_count c ∧
  (yc_request_distribution c ≠ "zipfian" → direct (keyChooser w)).
Proof.
  intros Hp Hm E. unfold new_YCSBWorkload in E. apply outcome_bind_Ok in E as (fl & _ & E).
  apply outcome_bind_Ok in E as (kc & Ek & E). apply outcome_bind_Ok in E as (sl & _ & E).
  injection E as <-. destruct (key_chooser_ok c e e' kc Hp Hm Ek) as [Hc Hd]. split; [|done].
  split_and!; cbn; [lia..|done|done].
Qed.

Lemma choose_key_ok fuel w k w' :
  workload_ok w → choose_key fuel w = Ok (k, w') →
  workload_ok w' ∧ recordCount w' = recordCount w ∧ (direct (keyChooser w) ↔ direct (keyChooser w')) ∧
  (∀ n, k = Some n → n < recordCount w) ∧ (direct (keyChooser w) → fuel ≠ O → is_Some k).
Proof.
  revert w. induction fuel as [|fuel IH]; intros w Hw E; cbn [choose_key] in E.
  { injection E as <- <-. done. }
  destruct Hw as ((Hp & Hr) & Hi & Hc). unfold next_num, counter_last in E. rewrite Hi, pred64_pos in E by done.
  apply outcome_bind_Ok in E as ([n g] & Eg & E).
  destruct (chooser_next _ _ _ _ Hp Hr Hc Eg) as (Hg & Hd & Hn).
  assert (workload_ok (set_keyChooser g w)) as Hw' by done.
  change (insertKeySequence (set_keyChooser g w)) with (insertKeySequence w) in E.
  rewrite Hi, pred64_pos in E by done. destruct (N.ltb_spec (recordCount w - 1) n) as [Hlt|Hle].
  - destruct (IH _ Hw' E) as (H1 & H2 & H3 & H4 & _). cbn in *. split_and!; [done|done|tauto|done|].
    intros Hdir _. specialize (Hn Hdir). lia.
  - injection E as <- <-. cbn. split_and!; [done|done|done| |done]. intros m [= <-]. lia.
Qed.

(** Every key that a client reads or updates is that of a record: its number is
    below the number of records the database was loaded with, for each of the
    three distributions.  With the uniform and the latest distribution the first
    number drawn is taken, so a key is always found; with the Zipfian
    distribution numbers beyond the records are drawn again.  Inserts never
    change this: they count in a variable of their own. *)
Theorem transaction_keys_exist c e e' seed w fuel k w' :
  0 < yc_record_count c → yc_record_count c + yc_new_keys c < 2 ^ 64 - 1 →
  new_YCSBWorkload c e e' seed = Ok w → nextTransactionKey fuel w = Ok (k, w') →
  (∀ key, k = Some key → ∃ n, n < yc_record_count c ∧ key = buildKeyName n w) ∧
  (yc_request_distribution c ≠ "zipfian" → fuel ≠ O → is_Some k).
Proof.
  intros Hp Hm Ew E. destruct (new_workload_ok c e e' seed w Hp Hm Ew) as (Hw & Hrc & Hdir).
  unfold nextTransactionKey in E. apply outcome_bind_Ok in E as ([n w1] & E1 & E). injection E as <- <-.
  assert (orderedInserts w1 = orderedInserts w) as Ho.
  { clear -E1. revert w E1. induction fuel as [|fuel IH]; intros w E1; cbn in E1; [by injection E1 as <- <-|].
    apply outcome_bind_Ok in E1 as ([m g] & _ & E1). destruct (_ <? _); [by apply IH in E1|].
    by injection E1 as <- <-. }
  destruct (choose_key_ok fuel w n w1 Hw E1) as (_ & _ & _ & Hn & Hs). split.
  - intros key Ek. destruct n as [n|]; [|done]. injection Ek as <-. exists n. split.
    + rewrite <-Hrc. by apply Hn.
    + unfold buildKeyName. by rewrite Ho.
  - intros Hz Hf. destruct (Hs (Hdir Hz) Hf) as [m ->]. by eexists.
Qed.

End Ranges.

(** ** Concrete workloads *)
Module WorkloadRuns.

(** An engine is a stream of numbers that counts up. *)
#[local] Instance counting : Engines := {|
  Engine := N;
  uniform_int min max e := (min + e mod (max - min + 1), e + 1);
  zipf_unit n e := (if e mod 3 =? 0 then BelowOne else if e mod 3 =? 1 then BelowTwo else Product (e mod n), e + 1) |}.

#[local] Instance counting_laws : EnginesLaws.
Proof.
  split.
  - intros min max e Hm. cbn [uniform_int counting fst].
    pose proof (N.mod_lt e (max - min + 1) ltac:(lia)) as Hlt. revert Hlt.
    generalize (e mod (max - min + 1)). cbn. intros r Hr. lia.
  - intros n e k Hn. cbn [zipf_unit counting fst]. destruct (e mod 3 =? 0); [done|].
    destruct (e mod 3 =? 1); [done|]. intros [= <-]. apply N.mod_lt. lia.
Qed.

Definition engine (n : N) : Engine := n.

Definition conf (dist : string) : YcsbConfig :=
  mkYcsbConfig 2 "constant" 3 100 dist 10 5 "uniform" 100 false false true.
Definition get {A} (d : A) (o : outcome A) : A := match o with Ok a => a | Fatal _ => d end.
Definition w0 : YCSBWorkload :=
  get (mkWorkload 0 false false 0 (ConstGenerator 0) (ConstGenerator 0) (ConstGenerator 0) (ConstGenerator 0) 0 false 0 0)
    (new_YCSBWorkload (conf "uniform") (engine 7) (engine 5) 11).

Lemma transaction_keys_exist_witness :
  let k := (get (None, w0) (nextTransactionKey 1 w0)).1 in
  (∀ key, k = Some key → ∃ n, n < 100 ∧ key = buildKeyName n w0) ∧ ("uniform" ≠ "zipfian" → 1%nat ≠ O → is_Some k).
Proof.
  apply (transaction_keys_exist (conf "uniform") (engine 7) (engine 5) 11 w0 1 _ (get (None, w0) (nextTransactionKey 1 w0)).2);
    [done|done|reflexivity|reflexivity].
Defined.

(** A read-modify-write reads one record and updates another: the key is drawn
    again for the update. *)
Definition key_of (op : ycsb_op) : string :=
  match op with OpRead k _ | OpUpdate k _ | OpInsert k _ | OpScan k _ _ => k end.

Example rmw_two_records :
  ('(ops, _) ← client_ops true 1 READ_MODIFY_WRITE w0; Ok (option_map (map key_of) ops)) =
    Ok (Some ["user7"; "user8"]).
Proof. vm_compute. reflexivity. Qed.

(** A Zipfian generator for the numbers from 5 to 9 that returns 1. *)
Example zipfian_below_min :
  (z ← new_Zipfian 5 9 (engine 0); '(v, _) ← zipf_next z; Ok v) = Ok 1.
Proof. vm_compute. reflexivity. Qed.

End WorkloadRuns.
