(* ===== verification/Monitor.v ===== *)
(** * The user's monitor

    [src/user/block_bench/db_user_base.cpp]: the client threads queue the digest
    of every request before they send it; the monitor asks the query controller
    of the local block server for the tip, drains the queue into a map and then
    polls the blocks up to that tip, counting the digests it knows as committed
    or aborted.  Clients, server and monitor run concurrently: their
    composition is a step relation over the server's block generator.

    The modes of the query controller: with [early_return] the answers come
    from the partial blocks that the thread pool publishes, which hold results;
    without it they are the stored blocks, which hold whole transactions.  The
    theorem about the counts is for the first; [late_return_counts_nothing] shows what
    the monitor makes of the second. *)
From S2P Require Import Prelude DecimalString Sha256 LruCache Transaction TransactionCodec BlockStorage.
From S2P Require Import Storage Orm Database Executor BlockGenerator QueryController.
From Stdlib Require Import ZArith NArith Lia.
From stdpp Require Import base list gmap strings.

Local Open Scope N_scope.
#[local] Opaque sha256.

(** ** The user's side *)
Definition digest_of (t : Transaction) : string := pl_digest (transactionPayload t).

(** The entry of a block that the monitor sees: the digest, and whether the
    result is not [ABORT]; a transaction whose chaincode failed
    ([ABORT_NO_RETRY]) passes like a committed one. *)
Definition seen (t : Transaction) : string * bool :=
  (digest_of t, negb (bool_decide (transactionResult t = ABORT))).

Inductive monitor_pc :=
  | MReady  (** waits for the first block *)
  | MTip
  | MUpdate (tip : N) (tipStartTime : Z)
  | MPoll (tip : N) (tipStartTime : Z)
  | MDone.

Record Monitor := mkMonitor {
  txMap : gmap string Z;
  curBlockHeight : N;
  txCountCommit : N;
  txCountAbort : N;
  pendingTxSize : N;
  latency : N;
  mpc : monitor_pc }.

Definition new_Monitor (startBlockHeight : N) : Monitor :=
  mkMonitor ∅ startBlockHeight 0 0 0 0 MReady.

Definition with_pc (pc : monitor_pc) (m : Monitor) : Monitor :=
  mkMonitor (txMap m) (curBlockHeight m) (txCountCommit m) (txCountAbort m) (pendingTxSize m)
    (latency m) pc.

Section UserSide.
Context `{Protobuf} `{BlockProto} `{QueryProto}.
(** The user's signature, [Block::ParseFromString], and the query server. *)
Context (sign : list N → list N) (parse_block : list N → Block).
Context (ask : list N → outcome (list N)) (debug : bool).

Definition getUserQueryRequest (queryType : string) (payloadRaw : list N) : UserQueryRequest :=
  mkQuery queryType payloadRaw (sign payloadRaw).

Definition getTipBlockNumber : outcome N :=
  replyRaw ← ask (query_Serialize (getUserQueryRequest "tip_query" []));
  Ok (epoch_arg replyRaw).

(** One transaction object receives all entries; a read that fails leaves the
    fields of the entry before.  The result is kept as the number that was read,
    which need not be one of an enumerator. *)
Fixpoint poll_data (data : list (list N)) (t : Transaction) (result : N) : list (string * bool) :=
  match data with
  | [] => []
  | raw :: data =>
      let '(t, code) := result_fields raw t in
      let result := default result code in
      (digest_of t, negb (result =? result_code ABORT)) :: poll_data data t result
  end.

Definition pollTx (block_number : N) : outcome (list (string * bool)) :=
  CHECK (0 <? block_number);;
  replyRaw ← ask (query_Serialize (getUserQueryRequest "block_query"
                    (bytes_of (N_to_string block_number))));
  Ok (poll_data (b_data (parse_block replyRaw)) MockTransaction (result_code PENDING)).

(** The closure [updateTransactionMap] of [user.cpp], for one element:
    [unordered_map::insert] keeps a key that is there. *)
Definition update_map (t : string * Z) (map : gmap string Z) : outcome (gmap string Z) :=
  _ ← DCHECK debug (bool_decide (map !! t.1 = None));
  Ok (match map !! t.1 with Some _ => map | None => <[t.1 := t.2]> map end).

Definition count_tx (tipStartTime : Z) (m : Monitor) (tx : string * bool) : Monitor :=
  match txMap m !! tx.1 with
  | None => m
  | Some time =>
      let map := delete tx.1 (txMap m) in
      if tx.2 then
        mkMonitor map (curBlockHeight m) (u64 (txCountCommit m + 1)) (txCountAbort m)
          (pendingTxSize m) (Z.to_N ((Z.of_N (latency m) + (tipStartTime - time)) mod 2 ^ 64)) (mpc m)
      else
        mkMonitor map (curBlockHeight m) (txCountCommit m) (u64 (txCountAbort m + 1))
          (pendingTxSize m) (latency m) (mpc m)
  end.

(** One step of [StatusThread]: a query, a [try_dequeue] (its result is [deq])
    or a block; [now] is the clock and [finish] the value of [*finishSignal]. *)
Definition monitor_step (finish : bool) (now : Z) (deq : option (string * Z)) (m : Monitor)
    : outcome Monitor :=
  match mpc m with
  | MReady =>
      tip ← getTipBlockNumber; Ok (if tip =? 0 then m else with_pc MTip m)
  | MTip =>
      if finish then Ok (with_pc MDone m)
      else
        tip ← getTipBlockNumber;
        if (tip =? 0) || (tip <? curBlockHeight m) then Ok m
        else Ok (with_pc (MUpdate tip now) m)
  | MUpdate tip start =>
      match deq with
      | None => Ok (with_pc (MPoll tip start) m)
      | Some t =>
          map ← update_map t (txMap m);
          Ok (mkMonitor map (curBlockHeight m) (txCountCommit m) (txCountAbort m) (pendingTxSize m)
                (latency m) (mpc m))
      end
  | MPoll tip start =>
      if curBlockHeight m <=? tip then
        txs ← pollTx (curBlockHeight m);
        Ok (foldl (count_tx start)
              (mkMonitor (txMap m) (u64 (curBlockHeight m + 1)) (txCountCommit m) (txCountAbort m)
                 (N.of_nat (size (txMap m))) (latency m) (mpc m)) txs)
      else Ok (with_pc MTip m)
  | MDone => Ok m
  end.

End UserSide.

(** ** Counting one block

    [sent] are the digests the clients queued, [done] the entries counted so
    far: every digest sent is waiting in the queue, in the map, or counted. *)
Section Counting.
Context (sent : list string) (queue : list string).

Definition own (x : string * bool) : Prop := x.1 ∈ sent.
Definition own_passed (x : string * bool) : Prop := x.1 ∈ sent ∧ x.2 = true.
Definition own_aborted (x : string * bool) : Prop := x.1 ∈ sent ∧ x.2 = false.
#[global] Instance own_dec x : Decision (own x).
Proof. unfold own. apply _. Defined.
#[global] Instance own_passed_dec x : Decision (own_passed x).
Proof. unfold own_passed. apply _. Defined.
#[global] Instance own_aborted_dec x : Decision (own_aborted x).
Proof. unfold own_aborted. apply _. Defined.

Record tally (done : list (string * bool)) (m : Monitor) : Prop := {
  ta_where : sent ≡ₚ queue ++ (map_to_list (txMap m)).*1 ++ (filter own done).*1;
  ta_commit : txCountCommit m = u64 (N.of_nat (length (filter own_passed done)));
  ta_abort : txCountAbort m = u64 (N.of_nat (length (filter own_aborted done))) }.

Lemma u64_succ n : u64 (u64 n + 1) = u64 (n + 1).
Proof. unfold u64. by rewrite N.Div0.add_mod_idemp_l. Qed.

Lemma filter_snoc {A} (P : A → Prop) `{∀ x, Decision (P x)} l x :
  filter P (l ++ [x]) = if decide (P x) then filter P l ++ [x] else filter P l.
Proof. rewrite filter_app, filter_cons, filter_nil. case_decide; [done|]. by rewrite app_nil_r. Qed.

Lemma keys_delete {V} (m : gmap string V) d v :
  m !! d = Some v → (map_to_list m).*1 ≡ₚ d :: (map_to_list (delete d m)).*1.
Proof. intros E. by rewrite <-(map_to_list_delete m d v E). Qed.

Lemma keys_elem {V} (m : gmap string V) d : d ∈ (map_to_list m).*1 ↔ is_Some (m !! d).
Proof.
  rewrite list_elem_of_fmap. split.
  - intros ([d' v] & -> & Hin%elem_of_map_to_list). by exists v.
  - intros [v E]. exists (d, v). split; [done|]. by apply elem_of_map_to_list.
Qed.

Lemma count_one start done m d okay :
  tally done m → d ∉ done.*1 → d ∉ queue →
  tally (done ++ [(d, okay)]) (count_tx start m (d, okay)).
Proof.
  intros [Hw Hc Ha] Hd Hq.
  assert (d ∈ sent ↔ is_Some (txMap m !! d)) as Hown.
  { rewrite Hw, !elem_of_app, keys_elem. split; [|tauto]. intros [?|[?|Hf]]; [done|done|].
    contradict Hd. apply list_elem_of_fmap in Hf as (x & -> & Hx%list_elem_of_filter).
    apply list_elem_of_fmap. exists x. tauto. }
  unfold count_tx. cbn [fst snd]. destruct (txMap m !! d) as [time|] eqn:E.
  - assert (d ∈ sent) as Hin by (apply Hown; eauto).
    destruct okay; (split; cbn [txMap txCountCommit txCountAbort]);
      rewrite !filter_snoc; repeat case_decide; unfold own, own_passed, own_aborted in *;
      cbn [fst snd] in *; try tauto; try naive_solver;
      try (rewrite length_app, Nat2N.inj_add; cbn [length]; rewrite ?Hc, ?Ha; apply u64_succ).
    all: rewrite Hw at 1; rewrite (keys_delete _ _ _ E), fmap_app; cbn [fmap list_fmap fst];
      solve_Permutation.
  - assert (d ∉ sent) as Hni by (rewrite Hown; by intros []).
    split; rewrite !filter_snoc; repeat case_decide; unfold own, own_passed, own_aborted in *;
      cbn [fst snd] in *; tauto.
Qed.

Lemma count_txs start txs done m :
  tally done m → NoDup (done ++ txs).*1 → (∀ d, d ∈ txs.*1 → d ∉ queue) →
  tally (done ++ txs) (foldl (count_tx start) m txs).
Proof.
  revert done m. induction txs as [|[d okay] txs IH]; intros done m Hm Hnd Hq.
  { by rewrite app_nil_r. }
  rewrite cons_middle, app_assoc in Hnd |- *. cbn [foldl]. apply IH; [|done|].
  - apply count_one; [done| |apply Hq; by left].
    rewrite !fmap_app, <-app_assoc in Hnd. apply NoDup_app in Hnd as (_ & Hd & _).
    intros Hin. apply (Hd _ Hin). by left.
  - intros d' Hd'. apply Hq. by right.
Qed.

Lemma tally_pc pc done m : tally done m → tally done (with_pc pc m).
Proof. by intros []. Qed.

Lemma count_fields start txs m :
  curBlockHeight (foldl (count_tx start) m txs) = curBlockHeight m ∧
  mpc (foldl (count_tx start) m txs) = mpc m.
Proof.
  revert m. induction txs as [|tx txs IH]; intros m; [done|]. simpl.
  destruct (IH (count_tx start m tx)) as [-> ->]. unfold count_tx. by repeat case_match.
Qed.

End Counting.

Lemma filter_iff_in {A} (P Q : A → Prop) `{∀ x, Decision (P x)} `{∀ x, Decision (Q x)} (l : list A) :
  (∀ x, x ∈ l → P x ↔ Q x) → filter P l = filter Q l.
Proof.
  induction l as [|x l IH]; intros Hl; [done|]. rewrite !filter_cons, IH by set_solver.
  specialize (Hl x ltac:(left)). repeat case_decide; tauto.
Qed.

(** A client queues a digest that no block holds; the monitor takes one out. *)
Lemma tally_send sent queue done m d :
  tally sent queue done m → d ∉ done.*1 → tally (sent ++ [d]) (queue ++ [d]) done m.
Proof.
  intros [Hw Hc Ha] Hd.
  assert (∀ x, x ∈ done → x.1 ∈ sent ++ [d] ↔ x.1 ∈ sent) as Hx.
  { intros x Hx. rewrite elem_of_app, list_elem_of_singleton. split; [|tauto]. intros [?|E]; [done|].
    contradict Hd. rewrite <-E. by apply list_elem_of_fmap_2. }
  split.
  - rewrite (filter_iff_in _ (own sent)) by exact Hx. rewrite Hw at 1. solve_Permutation.
  - rewrite Hc. do 2 f_equal. f_equal. apply filter_iff_in. intros x Hin. unfold own_passed.
    by rewrite Hx.
  - rewrite Ha. do 2 f_equal. f_equal. apply filter_iff_in. intros x Hin. unfold own_aborted.
    by rewrite Hx.
Qed.

Lemma tally_dequeue sent queue (i : nat) (x : string * Z) done m :
  tally sent queue.*1 done m → NoDup sent → queue !! i = Some x →
  txMap m !! x.1 = None ∧
  tally sent (delete i queue).*1 done
    (mkMonitor (<[x.1 := x.2]> (txMap m)) (curBlockHeight m) (txCountCommit m) (txCountAbort m)
       (pendingTxSize m) (latency m) (mpc m)).
Proof.
  intros [Hw Hc Ha] Hnd Hi. rewrite (delete_Permutation _ _ _ Hi), fmap_cons in Hw.
  assert (txMap m !! x.1 = None) as Hn.
  { rewrite Hw in Hnd. apply NoDup_cons in Hnd as [Hni _]. apply eq_None_not_Some.
    rewrite <-keys_elem. contradict Hni. apply elem_of_app. right. apply elem_of_app. by left. }
  split; [done|]. split; [|done|done]. cbn [txMap]. rewrite map_to_list_insert by done.
  rewrite Hw at 1. cbn [fmap list_fmap fst]. solve_Permutation.
Qed.

(** ** Partial blocks

    Runs of the generator in which the thread pool finishes the bodies in the
    order of their epochs; [n] bodies are finished. *)
Section InOrder.
Context `{ProtobufLaws} `{BlockProtoLaws} {B : Type} `{BlockStorageLaws B}.
Context (debug : bool) (rsaEncrypt : list N → option (list N)).
Context (localDecrypt : list N → list N → bool) (rsaDecrypt : string → list N → list N → bool).

Inductive early_run (s : B) : list (list Transaction) → list Transaction → nat → BlockGenerator B → Prop :=
  | early_start : early_run s [] [] 0 (new_BlockGenerator s)
  | early_add t batches cur n g :
      early_run s batches cur n g → early_run s batches (cur ++ [t]) n (addCommittedTransaction t g)
  | early_generate batches cur n g :
      early_run s batches cur n g → early_run s (batches ++ [cur]) [] n (generateBlock g)
  | early_body batches cur n g g' :
      early_run s batches cur n g → tasks g ≠ [] → finish_task debug rsaEncrypt 0 g = Ok g' →
      early_run s batches cur (S n) g'
  | early_header batches cur n g g' :
      early_run s batches cur n g → run_round g = Some (Ok g') → early_run s batches cur n g'
  | early_verify batches cur n g g' epoch ip signature okay :
      early_run s batches cur n g →
      signatureVerifyCallback debug localDecrypt rsaDecrypt epoch ip signature g = Some (Ok (okay, g')) →
      early_run s batches cur n g'.

Lemma early_gen_run s batches cur n g :
  early_run s batches cur n g → gen_run debug rsaEncrypt localDecrypt rsaDecrypt s batches cur g.
Proof.
  induction 1 as [| | |? ? ? g g' _ IH Ht E|? ? ? g g' _ IH E|? ? ? g g' ? ? ? ? _ IH E].
  1-3: by constructor.
  - eapply run_internal; [exact IH|]. eapply (int_body _ _ _ _ _ _ 0); [|exact E].
    destruct (tasks g); [done|simpl; lia].
  - eapply run_internal; [exact IH|]. by apply int_header.
  - eapply run_internal; [exact IH|]. by eapply int_verify.
Qed.

(** The thread pool's queue in order, and the partial blocks of the last
    hundred epochs. *)
Definition task_at (batches : list (list Transaction)) (j : nat) : N * list Transaction :=
  (N.of_nat j + 1, queue_at batches j).
Definition partial_at (batches : list (list Transaction)) (j : nat) : Block :=
  mkBlock (N.of_nat j + 1) [] [] ((λ t, (serializeResultToString t).2) <$> queue_at batches j) [].

Record partial_ok (batches : list (list Transaction)) (n : nat) (g : BlockGenerator B) : Prop := {
  po_le : (n ≤ length batches)%nat;
  po_tasks : tasks g = task_at batches <$> seq n (length batches - n);
  po_tip : partialEpoch g = N.of_nat n;
  po_blocks j : (j < n ≤ j + 100)%nat →
    partialBlockBuffer g !! (N.of_nat j + 1) = Some (partial_at batches j) }.

Lemma partial_body batches n g g' :
  partial_ok batches n g → tasks g ≠ [] → finish_task debug rsaEncrypt 0 g = Ok g' →
  partial_ok batches (S n) g'.
Proof.
  intros [Hle Ht Htip Hb] Hne E. unfold finish_task in E. rewrite Ht in Hne, E.
  destruct (length batches - n)%nat as [|k] eqn:Ek; [done|].
  cbn [seq fmap list_fmap lookup list_lookup task_at] in E.
  unfold generateBlockBody, partial_block in E.
  rewrite (mapM_out_pure _ (λ t, (serializeResultToString t).2)) in E by (by apply Forall_true).
  cbn [mbind outcome_bind] in E. destruct (block_body _ _ _) as [b|]; [|done].
  cbn [mbind outcome_bind] in E. injection E as <-. split; cbn [partialEpoch tasks partialBlockBuffer].
  - lia.
  - rewrite Ht. cbn [seq fmap list_fmap delete list_delete]. by replace (length batches - S n)%nat with k by lia.
  - lia.
  - intros j Hj. unfold evict_partial.
    assert (<[N.of_nat n + 1 := partial_at batches n]> (partialBlockBuffer g) !! (N.of_nat j + 1) =
      Some (partial_at batches j)) as Hl.
    { destruct (decide (j = n)) as [->|Hnj]; [apply lookup_insert_eq|].
      rewrite lookup_insert_ne by lia. apply Hb. lia. }
    destruct (N.ltb_spec 100 (N.of_nat n + 1)); [|exact Hl]. rewrite lookup_delete_ne by lia. exact Hl.
Qed.

Lemma partial_at_app batches x j :
  (j < length batches)%nat →
  task_at (batches ++ x) j = task_at batches j ∧ partial_at (batches ++ x) j = partial_at batches j.
Proof. intros Hj. unfold task_at, partial_at. by rewrite queue_at_app. Qed.

Lemma partial_generate batches cur n k g :
  chain_ok rsaEncrypt batches cur k g → partial_ok batches n g →
  partial_ok (batches ++ [cur]) n (generateBlock g).
Proof.
  intros [] [Hle Ht Htip Hb].
  unfold generateBlock. cbn [getPendingTransactionQueue]. rewrite ch_latest, ch_epoch, ch_queue.
  split; cbn [tasks partialEpoch partialBlockBuffer length]; try done.
  - rewrite length_app. lia.
  - rewrite Ht, length_app. cbn [length].
    replace (length batches + 1 - n)%nat with (length batches - n + 1)%nat by lia.
    rewrite seq_app, fmap_app. replace (n + (length batches - n))%nat with (length batches) by lia.
    cbn [seq fmap list_fmap]. f_equal.
    + apply list_fmap_ext. intros i j Hj. apply lookup_seq in Hj as [-> Hi].
      symmetry. apply partial_at_app. lia.
    + unfold task_at, queue_at. by rewrite list_lookup_middle.
  - intros j Hj. rewrite Hb by done. f_equal. symmetry. apply partial_at_app. lia.
Qed.

Lemma partial_same batches n g g' :
  partial_ok batches n g → tasks g' = tasks g → partialEpoch g' = partialEpoch g →
  partialBlockBuffer g' = partialBlockBuffer g → partial_ok batches n g'.
Proof.
  intros [Hle Ht Htip Hb] E1 E2 E3. split; [done|by rewrite E1|by rewrite E2|].
  intros j Hj. rewrite E3. by apply Hb.
Qed.

Lemma header_fields b g okay b' g' :
  generateBlockHeader b g = Ok (okay, b', g') →
  tasks g' = tasks g ∧ partialEpoch g' = partialEpoch g ∧ partialBlockBuffer g' = partialBlockBuffer g.
Proof.
  unfold generateBlockHeader. intros E. inv_outcome. repeat case_match; inv_outcome; naive_solver.
Qed.

Lemma round_fields g g' :
  run_round g = Some (Ok g') →
  tasks g' = tasks g ∧ partialEpoch g' = partialEpoch g ∧ partialBlockBuffer g' = partialBlockBuffer g.
Proof.
  unfold run_round. destruct (blockBuffer g !! _) as [b|]; [|done]. intros [= E].
  apply outcome_bind_Ok in E as ([[okay b'] g1] & Eh & E).
  apply header_fields in Eh as (E1 & E2 & E3). cbn [tasks partialEpoch partialBlockBuffer] in *.
  inv_outcome. by cbn [tasks partialEpoch partialBlockBuffer].
Qed.

Lemma callback_fields epoch ip signature okay g g' :
  signatureVerifyCallback debug localDecrypt rsaDecrypt epoch ip signature g = Some (Ok (okay, g')) →
  tasks g' = tasks g ∧ partialEpoch g' = partialEpoch g ∧ partialBlockBuffer g' = partialBlockBuffer g.
Proof.
  unfold signatureVerifyCallback. destruct (_ <? _); [done|]. intros [= E].
  apply outcome_bind_Ok in E as (r & _ & E). apply outcome_bind_Ok in E as (bc & _ & E).
  apply outcome_bind_Ok in E as (v & _ & E). injection E as <- <-. done.
Qed.

Lemma early_partial s batches cur n g :
  store_ok s → getLatestSavedEpoch s = 0 → (∀ r, is_Some (rsaEncrypt r)) →
  early_run s batches cur n g → Forall batch_ok batches → N.of_nat (length batches) < 2 ^ 63 →
  partial_ok batches n g.
Proof.
  intros Hs Hz Hrsa Hrun.
  induction Hrun as [|t batches cur n g _ IH|batches cur n g Hrun IH|batches cur n g g' _ IH Ht E
                    |batches cur n g g' _ IH E|batches cur n g g' epoch ip signature okay _ IH E];
    intros Hb Hlt.
  - split; [done..|]. intros j Hj. lia.
  - by apply (partial_same batches n g); [apply IH|..].
  - apply Forall_app in Hb as [Hb _]. rewrite length_app in Hlt.
    destruct (chain_run debug rsaEncrypt localDecrypt rsaDecrypt s batches cur g) as [k Hk];
      [done|done|done|by eapply early_gen_run|done|lia|].
    apply (partial_generate _ _ _ k); [done|]. apply IH; [done|lia].
  - apply (partial_body _ _ g); [by apply IH|done|done].
  - apply round_fields in E as (? & ? & ?). apply (partial_same _ _ g); by auto.
  - apply callback_fields in E as (? & ? & ?). apply (partial_same _ _ g); by auto.
Qed.

End InOrder.

(** ** Clients, server and monitor *)
Record world (B : Type) := mkWorld {
  w_batches : list (list Transaction);
  w_cur : list Transaction;
  (** The number of bodies the pool has finished. *)
  w_done : nat;
  w_gen : BlockGenerator B;
  (** The queue of [user.cpp], and all digests ever put into it. *)
  w_queue : list (string * Z);
  w_sent : list string;
  w_mon : Monitor }.
Arguments mkWorld {_} _ _ _ _ _ _ _.
Arguments w_batches {_} _. Arguments w_cur {_} _. Arguments w_done {_} _. Arguments w_gen {_} _.
Arguments w_queue {_} _. Arguments w_sent {_} _. Arguments w_mon {_} _.

(** The digests of all transactions that reached the generator. *)
Definition w_digests {B} (w : world B) : list string := digest_of <$> concat (w_batches w) ++ w_cur w.

Section World.
Context `{Protobuf} `{BlockProto} `{QueryProto} {B : Type} `{BlockStorage B} {D : Type} `{DBStorage D}.
Context (debug : bool) (rsaEncrypt : list N → option (list N)).
Context (localDecrypt : list N → list N → bool) (rsaDecrypt : string → list N → list N → bool).
Context (parse_payload : list N → TransactionPayload) (invoke : string → string → CC D Z).
Context (p : N) (dbst : exec_state D).
Context (sign : list N → list N) (parse_block : list N → Block).

(** A query of the user and its answer, with [early_return]. *)
Definition ask_server (earlyReturn : bool) (g : BlockGenerator B) (request : list N) : outcome (list N) :=
  r ← query_round parse_payload invoke debug earlyReturn p request g dbst; Ok r.1.1.

Definition mon_step (g : BlockGenerator B) := monitor_step sign parse_block (ask_server true g) debug.

(** The clients send requests with digests of their own (the signature of a
    payload with a fresh nonce), queueing them first; a digest reaches the
    generator once.  The pool finishes the bodies in order and no more than a
    hundred blocks ahead of the monitor, the number of partial blocks that are
    kept.  The queue hands out its elements in any order, and [try_dequeue]
    fails when it is empty. *)
Inductive w_step (w : world B) : world B → Prop :=
  | w_send d time :
      d ∉ w_sent w → d ∉ w_digests w →
      w_step w (mkWorld (w_batches w) (w_cur w) (w_done w) (w_gen w) (w_queue w ++ [(d, time)])
                  (w_sent w ++ [d]) (w_mon w))
  | w_add t :
      digest_of t ∉ w_digests w →
      w_step w (mkWorld (w_batches w) (w_cur w ++ [t]) (w_done w) (addCommittedTransaction t (w_gen w))
                  (w_queue w) (w_sent w) (w_mon w))
  | w_generate :
      w_step w (mkWorld (w_batches w ++ [w_cur w]) [] (w_done w) (generateBlock (w_gen w))
                  (w_queue w) (w_sent w) (w_mon w))
  | w_body g' :
      tasks (w_gen w) ≠ [] → finish_task debug rsaEncrypt 0 (w_gen w) = Ok g' →
      N.of_nat (w_done w) + 1 < curBlockHeight (w_mon w) + 100 →
      w_step w (mkWorld (w_batches w) (w_cur w) (S (w_done w)) g' (w_queue w) (w_sent w) (w_mon w))
  | w_header g' :
      run_round (w_gen w) = Some (Ok g') →
      w_step w (mkWorld (w_batches w) (w_cur w) (w_done w) g' (w_queue w) (w_sent w) (w_mon w))
  | w_verify epoch ip signature okay g' :
      signatureVerifyCallback debug localDecrypt rsaDecrypt epoch ip signature (w_gen w) =
        Some (Ok (okay, g')) →
      w_step w (mkWorld (w_batches w) (w_cur w) (w_done w) g' (w_queue w) (w_sent w) (w_mon w))
  | w_dequeue finish now i x tip start m' :
      mpc (w_mon w) = MUpdate tip start → w_queue w !! i = Some x →
      mon_step (w_gen w) finish now (Some x) (w_mon w) = Ok m' →
      w_step w (mkWorld (w_batches w) (w_cur w) (w_done w) (w_gen w) (delete i (w_queue w))
                  (w_sent w) m')
  | w_monitor finish now m' :
      (∀ tip start, mpc (w_mon w) = MUpdate tip start → w_queue w = []) →
      mon_step (w_gen w) finish now None (w_mon w) = Ok m' →
      w_step w (mkWorld (w_batches w) (w_cur w) (w_done w) (w_gen w) (w_queue w) (w_sent w) m').

Definition world_start (s : B) : world B :=
  mkWorld [] [] 0 (new_BlockGenerator s) [] [] (new_Monitor 1).

(** What the first [h] blocks hold. *)
Definition polled (batches : list (list Transaction)) (h : nat) : list (string * bool) :=
  concat ((λ j, seen <$> queue_at batches j) <$> seq 0 h).

End World.

Section WorldProof.
Context `{ProtobufLaws} `{BlockProtoLaws} `{QueryProtoLaws} {B : Type} `{BlockStorageLaws B}.
Context {D : Type} `{DBStorage D}.
Context (debug : bool) (rsaEncrypt : list N → option (list N)).
Context (localDecrypt : list N → list N → bool) (rsaDecrypt : string → list N → list N → bool).
Context (parse_payload : list N → TransactionPayload) (invoke : string → string → CC D Z).
Context (p : N) (dbst : exec_state D).
Context (sign : list N → list N) (parse_block : list N → Block).
Context (parse_block_ok : ∀ b, parse_block (block_Serialize b) = b).

Local Notation ask := (ask_server debug parse_payload invoke p dbst).
Local Notation step := (w_step debug rsaEncrypt localDecrypt rsaDecrypt parse_payload invoke p dbst
                          sign parse_block).

Lemma poll_results q t0 r0 :
  Forall wire_ok q →
  poll_data ((λ t, (serializeResultToString t).2) <$> q) t0 r0 = seen <$> q.
Proof.
  intros Hq. revert t0 r0. induction Hq as [|t q Ht _ IH]; intros t0 r0; [done|].
  cbn [fmap list_fmap poll_data]. rewrite result_fields_ok by done. rewrite IH.
  cbn [default]. f_equal. unfold seen. by destruct (transactionResult t).
Qed.

Lemma epoch_arg_number n : n < 2 ^ 63 → epoch_arg (bytes_of (N_to_string n)) = n.
Proof.
  intros Hn. unfold epoch_arg. rewrite of_bytes_of, strtol_N_to_string. unfold clamp_long.
  rewrite Z.mod_small by lia. lia.
Qed.

Lemma ask_tip g n :
  partialEpoch g = n → n < 2 ^ 63 → getTipBlockNumber sign (ask true g) = Ok n.
Proof.
  intros Hg Hn. unfold getTipBlockNumber, ask_server, query_round. rewrite query_parse.
  unfold tip_query, getPartialConstructedLatestEpoch. cbn -[N_to_string epoch_arg]. rewrite Hg.
  by rewrite epoch_arg_number.
Qed.

Lemma ask_block batches n g j :
  partial_ok batches n g → (j < n ≤ j + 100)%nat → N.of_nat (length batches) < 2 ^ 63 →
  Forall wire_ok (queue_at batches j) →
  pollTx sign parse_block (ask true g) (N.of_nat j + 1) = Ok (seen <$> queue_at batches j).
Proof.
  intros [Hle _ _ Hb] Hj Hlt Hw. unfold pollTx, ask_server, query_round. rewrite query_parse.
  rewrite (proj2 (N.ltb_lt 0 _)) by lia. cbn -[N_to_string epoch_arg getPartialConstructedBlock N.add].
  rewrite epoch_arg_number by lia. unfold getPartialConstructedBlock. rewrite Hb by done.
  cbn -[N.add]. rewrite parse_block_ok. cbn -[N.add]. by rewrite poll_results.
Qed.

(** *** The invariant *)
Lemma polled_S batches h : polled batches (S h) = polled batches h ++ (seen <$> queue_at batches h).
Proof. unfold polled. by rewrite seq_S, fmap_app, concat_app; cbn; rewrite app_nil_r. Qed.

Lemma polled_app batches x h : (h ≤ length batches)%nat → polled (batches ++ x) h = polled batches h.
Proof.
  induction h as [|h IH]; intros Hh; [done|]. by rewrite !polled_S, IH, queue_at_app by lia.
Qed.

Lemma polled_digests batches h :
  (h ≤ length batches)%nat → (polled batches h).*1 ≡ₚ digest_of <$> concat (take h batches).
Proof.
  induction h as [|h IH]; intros Hh; [done|]. rewrite polled_S, fmap_app, IH by lia.
  destruct (lookup_lt_is_Some_2 batches h) as [b E]; [lia|]. rewrite (take_S_r _ _ _ E).
  rewrite concat_app, fmap_app. f_equiv. cbn. rewrite app_nil_r. unfold queue_at. rewrite E. cbn.
  rewrite <-list_fmap_compose. by rewrite pq_of_perm.
Qed.

Lemma world_split (w : world B) h :
  (h ≤ length (w_batches w))%nat →
  w_digests w ≡ₚ (polled (w_batches w) h).*1 ++
    (digest_of <$> concat (drop h (w_batches w)) ++ w_cur w).
Proof.
  intros Hh. unfold w_digests. rewrite polled_digests by done.
  rewrite <-fmap_app, app_assoc, <-concat_app. by rewrite take_drop.
Qed.

Definition tip_ok (w : world B) : Prop :=
  match mpc (w_mon w) with
  | MUpdate tip _ => tip ≤ N.of_nat (w_done w)
  | MPoll tip _ => tip ≤ N.of_nat (w_done w) ∧
      ∀ d, d ∈ (polled (w_batches w) (N.to_nat tip)).*1 → d ∉ (w_queue w).*1
  | _ => True
  end.

Record world_inv (s : B) (w : world B) (h : nat) : Prop := {
  wi_run : early_run debug rsaEncrypt localDecrypt rsaDecrypt s (w_batches w) (w_cur w) (w_done w) (w_gen w);
  wi_height : curBlockHeight (w_mon w) = N.of_nat h + 1;
  wi_lag : (h ≤ w_done w ≤ h + 100)%nat;
  wi_done : (w_done w ≤ length (w_batches w))%nat;
  wi_sent : NoDup (w_sent w);
  wi_digests : NoDup (w_digests w);
  wi_tally : tally (w_sent w) (w_queue w).*1 (polled (w_batches w) h) (w_mon w);
  wi_tip : tip_ok w }.

Lemma polled_in (w : world B) h d :
  (h ≤ length (w_batches w))%nat → d ∈ (polled (w_batches w) h).*1 → d ∈ w_digests w.
Proof. intros Hh Hd. rewrite (world_split w h Hh). apply elem_of_app. by left. Qed.

(** The steps of clients and server that leave the monitor alone. *)
Lemma inv_server s w h batches cur done g :
  world_inv s w h →
  early_run debug rsaEncrypt localDecrypt rsaDecrypt s batches cur done g →
  w_batches w `prefix_of` batches → (w_done w ≤ done ≤ h + 100)%nat → (done ≤ length batches)%nat →
  NoDup (digest_of <$> concat batches ++ cur) →
  world_inv s (mkWorld batches cur done g (w_queue w) (w_sent w) (w_mon w)) h.
Proof.
  intros [] Hrun [x ->] Hd Hl Hnd. rewrite length_app in Hl.
  split; cbn; try done; [lia|rewrite length_app; lia| |].
  - rewrite polled_app by lia. done.
  - unfold tip_ok in *. cbn. destruct (mpc (w_mon w)); try done; [lia|].
    destruct wi_tip0 as [Ht Hq]. split; [lia|]. intros d Hin. apply Hq.
    by rewrite polled_app in Hin by lia.
Qed.

Lemma inv_send s w h d time :
  world_inv s w h → d ∉ w_sent w → d ∉ w_digests w →
  world_inv s (mkWorld (w_batches w) (w_cur w) (w_done w) (w_gen w) (w_queue w ++ [(d, time)])
                  (w_sent w ++ [d]) (w_mon w)) h.
Proof.
  intros [] Hs Hd. split; cbn; try done.
  - by apply NoDup_snoc.
  - rewrite fmap_app. apply tally_send; [done|]. contradict Hd. eapply polled_in; [|done]. lia.
  - unfold tip_ok in *. cbn. destruct (mpc (w_mon w)); try done. destruct wi_tip0 as [Ht Hq].
    split; [done|]. intros e He. rewrite fmap_app, not_elem_of_app. split; [by apply Hq|].
    cbn. intros ->%list_elem_of_singleton. apply Hd. eapply polled_in; [|done]. lia.
Qed.

(** The limits of the code: the sizes of batches and messages, and the numbers
    of epochs that [strtol] can read. *)
Definition world_fits (w : world B) : Prop :=
  Forall batch_ok (w_batches w) ∧ Forall (Forall wire_ok) (w_batches w) ∧
  N.of_nat (length (w_batches w)) < 2 ^ 63.

Lemma queue_wire batches j : Forall (Forall wire_ok) batches → Forall wire_ok (queue_at batches j).
Proof.
  intros Hw. unfold queue_at. rewrite pq_of_perm. destruct (batches !! j) as [b|] eqn:E; [|constructor].
  by eapply Forall_lookup_1 in E.
Qed.

Lemma inv_partial s w h :
  store_ok s → getLatestSavedEpoch s = 0 → (∀ r, is_Some (rsaEncrypt r)) →
  world_inv s w h → world_fits w → partial_ok (w_batches w) (w_done w) (w_gen w).
Proof. intros Hs Hz Hrsa [] (Hb & _ & Hlt). by eapply early_partial. Qed.

(** A step of the monitor returns and keeps the invariant; [h'] is the number
    of blocks counted after it. *)
Lemma inv_dequeue s w h finish now i x tip start :
  world_inv s w h → mpc (w_mon w) = MUpdate tip start → w_queue w !! i = Some x →
  ∃ m', mon_step debug parse_payload invoke p dbst sign parse_block (w_gen w) finish now (Some x)
          (w_mon w) = Ok m' ∧
    world_inv s (mkWorld (w_batches w) (w_cur w) (w_done w) (w_gen w) (delete i (w_queue w))
                   (w_sent w) m') h.
Proof.
  intros [] Hpc Hi. destruct (tally_dequeue _ _ i x _ _ wi_tally0 wi_sent0 Hi) as [Hn Ht].
  unfold mon_step, monitor_step, update_map. rewrite Hpc, Hn, bool_decide_eq_true_2 by done.
  assert (DCHECK debug true = Ok tt) as -> by (by destruct debug). cbn [mbind outcome_bind].
  rewrite Hpc in Ht. eexists. split; [done|]. split; try done.
  unfold tip_ok in *. cbn. by rewrite Hpc in wi_tip0.
Qed.

Lemma inv_monitor s w h finish now :
  store_ok s → getLatestSavedEpoch s = 0 → (∀ r, is_Some (rsaEncrypt r)) →
  world_inv s w h → world_fits w →
  (∀ tip start, mpc (w_mon w) = MUpdate tip start → w_queue w = []) →
  ∃ m' h', mon_step debug parse_payload invoke p dbst sign parse_block (w_gen w) finish now None
          (w_mon w) = Ok m' ∧
    world_inv s (mkWorld (w_batches w) (w_cur w) (w_done w) (w_gen w) (w_queue w) (w_sent w) m') h'.
Proof.
  intros Hs Hz Hrsa Hw Hfit Hq. pose proof (inv_partial s w h Hs Hz Hrsa Hw Hfit) as Hp.
  destruct Hfit as (_ & Hwire & Hlt). pose proof Hw as [].
  assert (getTipBlockNumber sign (ask true (w_gen w)) = Ok (N.of_nat (w_done w))) as Htip.
  { apply ask_tip; [by apply (po_tip _ _ _ Hp)|lia]. }
  assert (∀ pc, tip_ok (mkWorld (w_batches w) (w_cur w) (w_done w) (w_gen w) (w_queue w) (w_sent w)
      (with_pc pc (w_mon w))) → world_inv s (mkWorld (w_batches w) (w_cur w) (w_done w) (w_gen w)
      (w_queue w) (w_sent w) (with_pc pc (w_mon w))) h) as Hpc.
  { intros pc Hpc. split; try done. by apply tally_pc. }
  assert (world_inv s (mkWorld (w_batches w) (w_cur w) (w_done w) (w_gen w) (w_queue w) (w_sent w)
      (w_mon w)) h) as Hsame by (by destruct w).
  unfold mon_step, monitor_step. destruct (mpc (w_mon w)) as [| |tip start|tip start|] eqn:Em.
  - rewrite Htip. cbn [mbind outcome_bind]. destruct (_ =? 0); eexists _, h; (split; [done|]); [done|].
    by apply Hpc.
  - destruct finish; [eexists _, h; split; [done|]; by apply Hpc|].
    rewrite Htip. cbn [mbind outcome_bind]. destruct (_ || _); eexists _, h; (split; [done|]); [done|].
    apply Hpc. unfold tip_ok. cbn. lia.
  - eexists _, h. split; [done|]. apply Hpc. unfold tip_ok in *. cbn in *. rewrite Em in wi_tip0.
    split; [done|]. rewrite (Hq tip start eq_refl). intros d _. apply not_elem_of_nil.
  - destruct (N.leb_spec (curBlockHeight (w_mon w)) tip) as [Hle|Hgt];
      [|eexists _, h; split; [done|]; by apply Hpc].
    unfold tip_ok in wi_tip0. rewrite Em in wi_tip0. destruct wi_tip0 as [Ht Hd].
    rewrite wi_height0 in *. rewrite (ask_block (w_batches w) (w_done w) (w_gen w) h);
      [|done|lia|done|by apply queue_wire].
    cbn [mbind outcome_bind]. eexists _, (S h). split; [done|].
    rewrite u64_small by lia.
    set (m0 := mkMonitor _ _ _ _ _ _ _).
    destruct (count_fields start (seen <$> queue_at (w_batches w) h) m0) as [Ec Epc].
    split; cbn [w_batches w_cur w_done w_gen w_queue w_sent w_mon]; try done; [rewrite Ec; cbn; lia|lia| |].
    + rewrite polled_S. apply count_txs; [by destruct wi_tally0| |].
      * rewrite <-polled_S. rewrite (world_split w (S h)) in wi_digests0 by lia.
        by apply NoDup_app in wi_digests0 as [? _].
      * intros d Hin. apply Hd. replace (N.to_nat tip) with (S h + (N.to_nat tip - S h))%nat by lia.
        unfold polled. rewrite seq_app, fmap_app, concat_app. fold (polled (w_batches w) (S h)).
        rewrite polled_S, !fmap_app, !elem_of_app. tauto.
    + unfold tip_ok. cbn [w_mon w_done w_batches w_queue]. by rewrite Epc.
  - eexists _, h. by split.
Qed.

Lemma step_batches w w' : step w w' → w_batches w `prefix_of` w_batches w'.
Proof. intros Hstep. by inversion_clear Hstep; cbn; try done; apply prefix_app_r. Qed.

Lemma fits_before w w' : step w w' → world_fits w' → world_fits w.
Proof.
  intros [x E]%step_batches (Hb & Hw & Hl). rewrite E in *. apply Forall_app in Hb as [? _].
  apply Forall_app in Hw as [? _]. rewrite length_app in Hl. split_and!; [done|done|lia].
Qed.

Lemma inv_step s w w' h :
  store_ok s → getLatestSavedEpoch s = 0 → (∀ r, is_Some (rsaEncrypt r)) →
  world_inv s w h → world_fits w → step w w' → ∃ h', world_inv s w' h'.
Proof.
  intros Hs Hz Hrsa Hw Hfit Hstep. pose proof Hw as [].
  destruct Hstep as [d time Hd1 Hd2|t Ht| |g' Ht E Hlag|g' E|epoch ip sg okay g' E
                    |finish now i x tip start m' Hpc Hi E|finish now m' Hq E].
  - exists h. by apply inv_send.
  - exists h. apply inv_server; try done; [by apply early_add|lia|].
    rewrite app_assoc, fmap_app. by apply NoDup_snoc.
  - exists h. apply inv_server; try done; [by apply early_generate|by apply prefix_app_r|lia| |].
    + rewrite length_app. lia.
    + rewrite concat_app. cbn. by rewrite !app_nil_r.
  - exists h. pose proof (inv_partial s w h Hs Hz Hrsa Hw Hfit) as [_ Htk _ _].
    assert (w_done w < length (w_batches w))%nat as Hlt.
    { rewrite Htk in Ht. destruct (length (w_batches w) - w_done w)%nat eqn:El; [done|lia]. }
    apply inv_server; try done; [by eapply early_body|lia].
  - exists h. apply inv_server; try done; [by eapply early_header|lia].
  - exists h. apply inv_server; try done; [by eapply early_verify|lia].
  - exists h. destruct (inv_dequeue s w h finish now i x tip start Hw Hpc Hi) as (m1 & E1 & Hm1). congruence.
  - destruct (inv_monitor s w h finish now Hs Hz Hrsa Hw Hfit Hq) as (m1 & h' & E1 & Hm1).
    exists h'. congruence.
Qed.

Lemma inv_reachable s w :
  store_ok s → getLatestSavedEpoch s = 0 → (∀ r, is_Some (rsaEncrypt r)) →
  rtc step (world_start s) w → world_fits w → ∃ h, world_inv s w h.
Proof.
  intros Hs Hz Hrsa. revert w.
  apply (rtc_ind_r (λ w, world_fits w → ∃ h, world_inv s w h)); [|intros w w' _ Hstep IH]; intros Hfit.
  - exists O. split; cbn; try done; [apply early_start|lia|apply NoDup_nil_2..].
  - destruct IH as [h Hw]; [by eapply fits_before|]. eapply inv_step; try done. by eapply fits_before.
Qed.

(** The transactions in the first [h] blocks, and those of the clients [sent] that
    have the result [r]. *)
Definition in_blocks (batches : list (list Transaction)) (h : nat) : list Transaction :=
  concat (queue_at batches <$> seq 0 h).
Definition own_with (sent : list string) (r : TransactionResult) (txns : list Transaction) : list Transaction :=
  filter (λ t, digest_of t ∈ sent ∧ transactionResult t = r) txns.

Lemma polled_in_blocks batches h : polled batches h = seen <$> in_blocks batches h.
Proof.
  unfold polled, in_blocks. induction (seq 0 h) as [|j l IH]; [done|]. cbn [fmap list_fmap concat].
  by rewrite fmap_app, <-IH.
Qed.

Lemma seen_own sent txns :
  (filter (own sent) (seen <$> txns)).*1 = digest_of <$> filter (λ t, digest_of t ∈ sent) txns.
Proof.
  induction txns as [|t txns IH]; [done|]. rewrite fmap_cons, !filter_cons.
  destruct (decide (own sent (seen t))) as [Hin|Hni], (decide (digest_of t ∈ sent)); try done.
  rewrite !fmap_cons. by f_equal.
Qed.

Lemma seen_counts sent txns :
  length (filter (own_passed sent) (seen <$> txns)) =
    (length (own_with sent COMMIT txns) + length (own_with sent ABORT_NO_RETRY txns) +
     length (own_with sent PENDING txns))%nat ∧
  length (filter (own_aborted sent) (seen <$> txns)) = length (own_with sent ABORT txns).
Proof.
  unfold own_with. induction txns as [|t txns [IH1 IH2]]; [done|]. rewrite fmap_cons, !filter_cons.
  assert (own_passed sent (seen t) ↔ digest_of t ∈ sent ∧ transactionResult t ≠ ABORT) as Hp.
  { unfold own_passed, seen. cbn [fst snd]. rewrite negb_true_iff, bool_decide_eq_false. done. }
  assert (own_aborted sent (seen t) ↔ digest_of t ∈ sent ∧ transactionResult t = ABORT) as Ha.
  { unfold own_aborted, seen. cbn [fst snd]. rewrite negb_false_iff, bool_decide_eq_true. done. }
  destruct (decide (digest_of t ∈ sent)) as [Hin|Hni].
  - rewrite (decide_ext (own_passed sent (seen t)) (transactionResult t ≠ ABORT)) by tauto.
    rewrite (decide_ext (own_aborted sent (seen t)) (transactionResult t = ABORT)) by tauto.
    repeat case_decide; destruct_and?; try congruence; cbn [length]; try (split; lia); try tauto.
    destruct (transactionResult t); tauto.
  - rewrite !decide_False by tauto. done.
Qed.

(** C18: the monitor's numbers are exact, with early return and while the pool
    finishes the blocks in order and at most a hundred ahead of the monitor.
    Whatever the interleaving of client threads, block generation and monitor
    within these bounds, the counter of aborted transactions is the number of
    transactions of this user's clients that the blocks below the monitor's
    height hold with the result [ABORT], and the other counter the number of
    those with any other result: the committed ones and the ones whose chaincode
    failed ([ABORT_NO_RETRY]), as the monitor prints it ([PENDING] is the result
    of a transaction that was not executed).  Each is counted once; every request
    that was sent and is not counted waits in the queue or in the map; and no
    step of the monitor faults.  Reading the tip before draining the queue is
    what makes this hold: no block up to that tip holds a request that is still
    queued. *)
Theorem monitor_counts_exact s w :
  store_ok s → getLatestSavedEpoch s = 0 → (∀ r, is_Some (rsaEncrypt r)) →
  rtc step (world_start s) w → world_fits w →
  let m := w_mon w in
  ∃ h, curBlockHeight m = N.of_nat h + 1 ∧ (h ≤ length (w_batches w))%nat ∧
    let txns := in_blocks (w_batches w) h in
    let number r := N.of_nat (length (own_with (w_sent w) r txns)) in
    txCountCommit m = u64 (number COMMIT + number ABORT_NO_RETRY + number PENDING) ∧
    txCountAbort m = u64 (number ABORT) ∧
    w_sent w ≡ₚ (w_queue w).*1 ++ (map_to_list (txMap m)).*1 ++
      (digest_of <$> filter (λ t, digest_of t ∈ w_sent w) txns) ∧
    NoDup (w_sent w) ∧
    ∀ finish now, (∀ tip start, mpc m = MUpdate tip start → w_queue w = []) →
      ∃ m', mon_step debug parse_payload invoke p dbst sign parse_block (w_gen w) finish now None m = Ok m'.
Proof.
  intros Hs Hz Hrsa Hrun Hfit m. destruct (inv_reachable s w Hs Hz Hrsa Hrun Hfit) as [h Hw].
  pose proof Hw as [? ? ? ? ? ? [Hwhere Hc Ha] ?]. exists h. cbn zeta.
  rewrite polled_in_blocks in Hwhere, Hc, Ha.
  destruct (seen_counts (w_sent w) (in_blocks (w_batches w) h)) as [E1 E2]. rewrite E1 in Hc. rewrite E2 in Ha.
  split_and!; try done; [lia|by rewrite <-!Nat2N.inj_add| |].
  { unfold m. rewrite Hwhere at 1. by rewrite seen_own. }
  intros finish now Hq. destruct (inv_monitor s w h finish now Hs Hz Hrsa Hw Hfit Hq) as (m' & _ & E & _).
  by exists m'.
Qed.

(** *** Without [early_return] *)
Lemma late_fields t t0 h :
  wire_ok t → readOnlyFlag t = false → digest_of (result_fields (serialize_body t ++ h) t0).1 = "".
Proof.
  intros [] Hro. unfold result_fields, serialize_body. rewrite Hro, <-!app_assoc.
  rewrite varint64_read by done. cbn [read_or]. rewrite varint64_read by done. cbn [read_or].
  rewrite varint32_read_64 by done. cbn [read_or].
  set (rest := WriteVarint64 _ ++ _). pose proof (string_read [] rest eq_refl) as E.
  change (size_arg 0) with (Z.of_nat (length (@nil N))). rewrite app_nil_l in E. rewrite E. cbn [read_or].
  by destruct (ReadVarint32 rest) as [[]|].
Qed.

Lemma late_poll q t0 r0 :
  Forall (λ t, wire_ok t ∧ readOnlyFlag t = false) q →
  Forall (λ x, x.1 = "") (poll_data (serialized q) t0 r0).
Proof.
  intros Hq. revert t0 r0. induction Hq as [|t q [Ht Hro] _ IH]; intros t0 r0; [constructor|].
  cbn [serialized fmap list_fmap poll_data].
  pose proof (late_fields t t0 (sha256 (serialize_body t)) Ht Hro) as Hd.
  destruct (result_fields _ _) as [t1 code]. cbn [fst] in Hd. constructor; [exact Hd|apply IH].
Qed.

Lemma count_unknown start m txs :
  Forall (λ x, x.1 = "") txs → txMap m !! "" = None → foldl (count_tx start) m txs = m.
Proof.
  intros Htx Hm. induction Htx as [|x txs Hx _ IH]; [done|]. cbn [foldl]. unfold count_tx at 2.
  by rewrite Hx, Hm.
Qed.

(** Without [early_return] the monitor counts nothing: a stored block holds
    whole transactions, the monitor reads them as results, takes the read-only
    flag for the length of the digest and so finds an empty digest, which no
    client ever sent. *)
Theorem late_return_counts_nothing s batches cur g n start m :
  store_ok s → getLatestSavedEpoch s = 0 → (∀ r, is_Some (rsaEncrypt r)) →
  gen_run debug rsaEncrypt localDecrypt rsaDecrypt s batches cur g →
  Forall batch_ok batches → N.of_nat (length batches) < 2 ^ 63 →
  Forall (Forall (λ t, wire_ok t ∧ readOnlyFlag t = false)) batches →
  1 ≤ n ≤ getLatestSavedEpoch (BlockGenerator.storage g) → txMap m !! "" = None →
  ∃ txs, pollTx sign parse_block (ask false g) n = Ok txs ∧
    length txs = length (default [] (batches !! N.to_nat (n - 1))) ∧
    foldl (count_tx start) m txs = m.
Proof.
  intros Hs Hz Hrsa Hrun Hb Hlt Hw Hn Hm.
  destruct (chain_run debug rsaEncrypt localDecrypt rsaDecrypt s batches cur g Hs Hz Hrsa Hrun Hb Hlt)
    as [k []]. rewrite ch_latest in Hn.
  set (j := N.to_nat (n - 1)). replace n with (N.of_nat j + 1) in * by (unfold j; lia).
  unfold pollTx, ask_server, query_round. rewrite query_parse, (proj2 (N.ltb_lt 0 _)) by lia.
  cbn -[N_to_string epoch_arg loadBlock_string N.add]. rewrite epoch_arg_number by lia.
  unfold loadBlock_string. rewrite (load_stored _ _ _ ch_store (ch_blocks j ltac:(unfold j; lia))).
  cbn -[N.add j]. rewrite parse_block_ok. eexists. split; [done|]. split.
  - cbn. assert (∀ d t0 r0, length (poll_data d t0 r0) = length d) as ->.
    { intros d. induction d as [|x d IH]; intros t0 r0; [done|]. cbn.
      destruct (result_fields x t0). cbn. by rewrite IH. }
    unfold serialized. rewrite length_fmap. unfold queue_at. by rewrite pq_of_perm.
  - apply count_unknown; [|done]. apply late_poll. unfold queue_at. rewrite pq_of_perm.
    destruct (batches !! j) as [b|] eqn:E; [|constructor]. by eapply Forall_lookup_1 in E.
Qed.

End WorldProof.
