(* ===== verification/ServerListener.v ===== *)
(** * Listening to the other servers

    [common/zmq/zmq_server_listener.h] and the addresses of
    [common/zmq/zmq_client.cpp]: one subscriber, with a thread of its own, for
    every other server of the configuration. *)
From S2P Require Import Prelude.
From stdpp Require Import base list gmap strings.

(** [clients] are the addresses that were connected to, each with the ip that is
    passed to its thread. *)
Record ServerListener := mkListener {
  sl_port : string; sl_localIP : string; remoteIPs : gset string; sl_clients : list (string * string) }.

Definition new_ServerListener (localIP port : string) : ServerListener := mkListener port localIP ∅ [].

(** The address that [ZMQClient] connects to and [ZMQServer] binds. *)
Definition zmq_address (ip port : string) : string :=
  String.append "tcp://" (String.append ip (String.append ":" port)).

Definition addServerListener (ip : string) (s : ServerListener) : bool * ServerListener :=
  if bool_decide (ip ∈ remoteIPs s) then (false, s)
  else (true, mkListener (sl_port s) (sl_localIP s) ({[ip]} ∪ remoteIPs s)
                (sl_clients s ++ [(ip, zmq_address ip (sl_port s))])).

Definition listen_all (ips : list string) (s : ServerListener) : ServerListener :=
  foldl (λ s ip, if String.eqb ip (sl_localIP s) then s else (addServerListener ip s).2) s ips.

Definition listener_ok (s : ServerListener) : Prop :=
  NoDup (sl_clients s).*1 ∧ (∀ ip, ip ∈ remoteIPs s ↔ ip ∈ (sl_clients s).*1) ∧
  Forall (λ c, c.2 = zmq_address c.1 (sl_port s)) (sl_clients s).

Lemma addServerListener_ok ip s :
  listener_ok s → let s' := (addServerListener ip s).2 in
  listener_ok s' ∧ sl_localIP s' = sl_localIP s ∧ sl_port s' = sl_port s ∧
  ∀ x, x ∈ (sl_clients s').*1 ↔ x = ip ∨ x ∈ (sl_clients s).*1.
Proof.
  intros (Hnd & Hin & Ha). unfold addServerListener. case_bool_decide as Hip; simpl.
  - split_and!; [done..|]. intros x. apply Hin in Hip. naive_solver.
  - assert (∀ x, x ∈ (sl_clients s ++ [(ip, zmq_address ip (sl_port s))]).*1 ↔ x = ip ∨ x ∈ (sl_clients s).*1) as Hx.
    { intros x. rewrite fmap_app, elem_of_app. cbn. rewrite list_elem_of_singleton. tauto. }
    split_and!; [|done|done|done]. split_and!; simpl.
    + rewrite fmap_app. apply NoDup_app. split_and!; [done| |by apply NoDup_singleton].
      cbn. intros x Hx' ->%list_elem_of_singleton. by apply Hip, Hin.
    + intros x. rewrite Hx, <-Hin. set_solver.
    + apply Forall_app. split; [done|by constructor].
Qed.

(** There is exactly one subscriber for every other server, however often the
    configuration names it. *)
Lemma listens_to_others localIP port ips :
  let s := listen_all ips (new_ServerListener localIP port) in
  NoDup (sl_clients s).*1 ∧
  ∀ ip a, (ip, a) ∈ sl_clients s ↔ ip ∈ ips ∧ ip ≠ localIP ∧ a = zmq_address ip port.
Proof.
  assert (∀ s, listener_ok s → let s' := listen_all ips s in
    listener_ok s' ∧ sl_port s' = sl_port s ∧
    ∀ x, x ∈ (sl_clients s').*1 ↔ (x ∈ ips ∧ x ≠ sl_localIP s) ∨ x ∈ (sl_clients s).*1) as Hall.
  { induction ips as [|ip ips IH]; intros s Hs.
    { split_and!; [done..|]. intros x. simpl. rewrite elem_of_nil. tauto. }
    unfold listen_all. cbn [foldl]. fold (listen_all ips). destruct (String.eqb_spec ip (sl_localIP s)) as [->|Hne].
    - destruct (IH s Hs) as (H1 & H2 & H3). split_and!; [done..|]. intros x. rewrite H3, elem_of_cons. naive_solver.
    - destruct (addServerListener_ok ip s Hs) as (H1 & El & Ep & H4). destruct (IH _ H1) as (H5 & H6 & H7).
      split_and!; [exact H5|exact (eq_trans H6 Ep)|]. intros x. rewrite H7, H4, El, elem_of_cons. naive_solver. }
  destruct (Hall (new_ServerListener localIP port)) as ((Hnd & _ & Ha) & Hp & Hx).
  { split_and!; [by constructor|set_solver|by constructor]. }
  split; [done|]. intros ip a. rewrite Forall_forall in Ha. simpl in *. rewrite Hp in Ha. split.
  - intros Hin. assert (ip ∈ (sl_clients (listen_all ips (new_ServerListener localIP port))).*1) as Hi
      by (apply list_elem_of_fmap; by exists (ip, a)).
    apply Hx in Hi as [[? ?]|?%not_elem_of_nil]; [|done]. split_and!; [done..|]. by apply (Ha (ip, a)).
  - intros (Hi & Hne & ->). assert (ip ∈ (sl_clients (listen_all ips (new_ServerListener localIP port))).*1) as Hf by (apply Hx; auto).
    apply list_elem_of_fmap in Hf as ([ip' a] & -> & Hin). specialize (Ha _ Hin). simpl in *. by subst.
Qed.
