(* ===== verification/BlockExchange.v ===== *)
(** * Exchange of block signatures

    [block_broadcaster.cpp]: every block server publishes the signature of each
    block it stored, and checks the signatures of the other servers against its
    own block with the callback of the block generator; a signature that does
    not verify stops the process.

    The servers of a cluster run concurrently: a step relation over one block
    generator per server, its table of validated blocks and the messages on
    their way to it.  Messages of one sender need not arrive in order. *)
From S2P Require Import Prelude Sha256 MerkleTree LruCache Transaction TransactionCodec BlockStorage BlockGenerator.
From Stdlib Require Import ZArith NArith Lia.
From stdpp Require Import base list gmap sorting strings relations.

Local Open Scope N_scope.
#[local] Opaque sha256 mroot.

Record SignatureExchange := mkExchange {
  se_signature : list N;
  se_ip : string;
  se_epoch : N }.

Record BlockBroadcaster (B : Type) := mkBroadcaster {
  bb_gen : BlockGenerator B;
  validatedBlockNumber : list bool }.
Arguments mkBroadcaster {_} _ _. Arguments bb_gen {_} _. Arguments validatedBlockNumber {_} _.

Definition validated_size : nat := N.to_nat 10000.

Definition set_verifyBuffer {B} (l : list Block) (g : BlockGenerator B) : BlockGenerator B :=
  mkGen (storage g) (pendingTransactionQueue g) (currentBlockEpoch g) (tasks g) (blockBuffer g)
    (partialBlockBuffer g) (partialEpoch g) (headerEpoch g) (previousDataHash g) (blockCache g) l.

Section Broadcaster.
Context `{Protobuf} `{BlockProto} {B : Type} `{BlockStorage B}.
Context (debug : bool) (localDecrypt : list N → list N → bool).
Context (rsaDecrypt : string → list N → list N → bool).

Definition new_BlockBroadcaster (g : BlockGenerator B) : BlockBroadcaster B :=
  mkBroadcaster g (replicate validated_size false).

(** One round of [blockVerifier]: the message that is published, or none when
    the wait for a block timed out. *)
Definition exchange_of (localIP : string) (b : Block) : outcome SignatureExchange :=
  CHECK (3 <=? length (b_metadata b))%nat;;
  signature ← metadata b 2;
  Ok (mkExchange signature localIP (b_number b)).

Definition blockVerifier_round (localIP : string) (s : BlockBroadcaster B)
    : outcome (option SignatureExchange * BlockBroadcaster B) :=
  match verifyBuffer (bb_gen s) with
  | [] => Ok (None, s)
  | b :: rest =>
      m ← exchange_of localIP b;
      Ok (Some m, mkBroadcaster (set_verifyBuffer rest (bb_gen s)) (validatedBlockNumber s))
  end.

(** One round of [getSignatureFromOtherServer]; [None] while the callback waits
    for the block.  [operator[]] of [std::vector] beyond the end is a fault. *)
Definition getSignature_round (m : SignatureExchange) (s : BlockBroadcaster B)
    : option (outcome (BlockBroadcaster B)) :=
  match signatureVerifyCallback debug localDecrypt rsaDecrypt (se_epoch m) (se_ip m) (se_signature m)
          (bb_gen s) with
  | None => None
  | Some r => Some (
      '(okay, g) ← r;
      CHECK okay;;
      v ← at_index (validatedBlockNumber s) (N.to_nat (se_epoch m));
      Ok (mkBroadcaster g (if v : bool then validatedBlockNumber s
                           else <[N.to_nat (se_epoch m) := true]> (validatedBlockNumber s))))
  end.

End Broadcaster.

(** ** A cluster *)
Record exchanger (B : Type) := mkExchanger {
  ex_batches : list (list Transaction);
  ex_cur : list Transaction;
  ex_server : BlockBroadcaster B;
  (** What the other servers sent and the listener has not read. *)
  ex_inbox : list SignatureExchange }.
Arguments mkExchanger {_} _ _ _ _. Arguments ex_batches {_} _. Arguments ex_cur {_} _.
Arguments ex_server {_} _. Arguments ex_inbox {_} _.

Definition set_gen {B} (g : BlockGenerator B) (s : BlockBroadcaster B) : BlockBroadcaster B :=
  mkBroadcaster g (validatedBlockNumber s).
Definition deliver {B} (m : SignatureExchange) (e : exchanger B) : exchanger B :=
  mkExchanger (ex_batches e) (ex_cur e) (ex_server e) (ex_inbox e ++ [m]).
(** A publisher reaches every server but itself. *)
Definition broadcast {B} (i : nat) (m : SignatureExchange) (es : list (exchanger B)) : list (exchanger B) :=
  imap (λ j e, if decide (j = i) then e else deliver m e) es.

Section Cluster.
Context `{ProtobufLaws} `{BlockProtoLaws} {B : Type} `{BlockStorageLaws B}.
Context (debug : bool) (localDecrypt : list N → list N → bool).
(** The key of each server: its address, its signature and everybody's check. *)
Context (ip_of : nat → string) (rsaEncrypt : nat → list N → option (list N)).
Context (rsaDecrypt : string → list N → list N → bool).
(** The batches that the epochs gave to all servers. *)
Context (log : list (list Transaction)).

(** What one server does on its own, and with a message from another one. *)
Inductive local_step (i : nat) (e : exchanger B) : exchanger B → Prop :=
  | ls_add t :
      local_step i e (mkExchanger (ex_batches e) (ex_cur e ++ [t])
        (set_gen (addCommittedTransaction t (bb_gen (ex_server e))) (ex_server e)) (ex_inbox e))
  | ls_generate batch :
      log !! length (ex_batches e) = Some batch → ex_cur e ≡ₚ batch →
      local_step i e (mkExchanger (ex_batches e ++ [ex_cur e]) []
        (set_gen (generateBlock (bb_gen (ex_server e))) (ex_server e)) (ex_inbox e))
  | ls_body n g' :
      (n < length (tasks (bb_gen (ex_server e))))%nat →
      finish_task debug (rsaEncrypt i) n (bb_gen (ex_server e)) = Ok g' →
      local_step i e (mkExchanger (ex_batches e) (ex_cur e) (set_gen g' (ex_server e)) (ex_inbox e))
  | ls_header g' :
      run_round (bb_gen (ex_server e)) = Some (Ok g') →
      local_step i e (mkExchanger (ex_batches e) (ex_cur e) (set_gen g' (ex_server e)) (ex_inbox e))
  | ls_receive n m s' :
      ex_inbox e !! n = Some m →
      getSignature_round debug localDecrypt rsaDecrypt m (ex_server e) = Some (Ok s') →
      local_step i e (mkExchanger (ex_batches e) (ex_cur e) s' (delete n (ex_inbox e))).

Inductive x_step (es : list (exchanger B)) : list (exchanger B) → Prop :=
  | x_local i e e' : es !! i = Some e → local_step i e e' → x_step es (<[i := e']> es)
  | x_publish i e m s' :
      es !! i = Some e → blockVerifier_round (ip_of i) (ex_server e) = Ok (Some m, s') →
      x_step es (broadcast i m (<[i := mkExchanger (ex_batches e) (ex_cur e) s' (ex_inbox e)]> es)).

Definition x_start (ss : list B) : list (exchanger B) :=
  (λ s, mkExchanger [] [] (new_BlockBroadcaster (new_BlockGenerator s)) []) <$> ss.

(** ** The invariant *)
Definition log_ok : Prop :=
  Forall batch_ok log ∧ Forall (λ b, NoDup (tr_tid <$> b)) log ∧ N.of_nat (length log) < 2 ^ 63.

(** A message is the signature of the sender under the root of a batch. *)
Definition genuine (m : SignatureExchange) : Prop :=
  ∃ i j, se_ip m = ip_of i ∧ se_epoch m = N.of_nat j + 1 ∧ (j < length log)%nat ∧
    rsaEncrypt i (root_of (queue_at log j)) = Some (se_signature m).

Definition follows_log (batches : list (list Transaction)) : Prop :=
  ∀ j b, batches !! j = Some b → ∃ b', log !! j = Some b' ∧ b ≡ₚ b'.

Record exchanger_ok (i : nat) (e : exchanger B) : Prop := {
  eo_log : follows_log (ex_batches e);
  eo_chain : ∃ k, chain_ok (rsaEncrypt i) (ex_batches e) (ex_cur e) k (bb_gen (ex_server e)) ∧
    (∀ b, b ∈ verifyBuffer (bb_gen (ex_server e)) →
       ∃ j, (j < k)%nat ∧ b = block_at (rsaEncrypt i) (ex_batches e) j) ∧
    ∀ n, validatedBlockNumber (ex_server e) !! n = Some true → (1 ≤ n ≤ k)%nat;
  eo_size : length (validatedBlockNumber (ex_server e)) = validated_size;
  eo_inbox : Forall genuine (ex_inbox e) }.

Lemma follows_length batches : follows_log batches → (length batches ≤ length log)%nat.
Proof.
  intros Hf. destruct batches as [|b batches] using rev_ind; [simpl; lia|].
  destruct (Hf (length batches) b) as (b' & E & _); [by rewrite list_lookup_middle|].
  apply lookup_lt_Some in E. rewrite length_app. simpl. lia.
Qed.

Lemma batch_ok_perm b b' : b ≡ₚ b' → batch_ok b' → batch_ok b.
Proof.
  intros Hp (Hne & Hl & Hf). split_and!; [|by rewrite Hp|by rewrite Hp].
  intros ->. by apply Permutation_nil_l in Hp.
Qed.

Lemma follows_ok batches :
  log_ok → follows_log batches → Forall batch_ok batches ∧ N.of_nat (length batches) < 2 ^ 63.
Proof.
  intros (Hb & _ & Hl) Hf. split.
  - apply Forall_lookup_2. intros j b (b' & E & Hp)%Hf. apply (batch_ok_perm b b'); [done|].
    by eapply Forall_lookup_1.
  - pose proof (follows_length batches Hf). lia.
Qed.

Lemma pq_of_perm_unique b b' : b ≡ₚ b' → NoDup (tr_tid <$> b') → pq_of b = pq_of b'.
Proof.
  intros Hp Hnd. apply (StronglySorted_unique_strong newest_first);
    [|apply pq_of_sorted|apply pq_of_sorted|by rewrite !pq_of_perm].
  intros t1 t2 Ht1 Ht2 H12 H21. rewrite pq_of_perm, Hp in Ht1. rewrite pq_of_perm in Ht2.
  unfold newest_first in *. apply list_elem_of_lookup in Ht1 as [i1 E1].
  apply list_elem_of_lookup in Ht2 as [i2 E2].
  assert (i1 = i2) as ->; [|congruence].
  apply (NoDup_lookup (tr_tid <$> b') i1 i2 (tr_tid t1)); [done| |]; rewrite list_lookup_fmap.
  - by rewrite E1.
  - rewrite E2. simpl. f_equal. lia.
Qed.

(** Servers that follow the log agree on the order of every block. *)
Lemma follows_queue batches j :
  log_ok → follows_log batches → (j < length batches)%nat → queue_at batches j = queue_at log j.
Proof.
  intros (_ & Hnd & _) Hf Hj. destruct (lookup_lt_is_Some_2 _ _ Hj) as [b E].
  destruct (Hf j b E) as (b' & E' & Hp). unfold queue_at. rewrite E, E'. cbn.
  apply pq_of_perm_unique; [done|]. exact (Forall_lookup_1 _ _ _ _ Hnd E').
Qed.

Lemma follows_snoc batches cur batch :
  follows_log batches → log !! length batches = Some batch → cur ≡ₚ batch →
  follows_log (batches ++ [cur]).
Proof.
  intros Hf E Hp j b [Hj|[Hj Ej]]%lookup_app_Some; [by apply Hf|].
  apply list_lookup_singleton_Some in Ej as [Ej <-]. exists batch. split; [|done].
  by replace j with (length batches) by lia.
Qed.

(** The keys: every server can sign, and the others accept what it signed. *)
Definition keys_ok : Prop :=
  ∀ i root, ∃ sg, rsaEncrypt i root = Some sg ∧ rsaDecrypt (ip_of i) root sg = true.

Lemma keys_total i : keys_ok → ∀ r, is_Some (rsaEncrypt i r).
Proof. intros Hk r. destruct (Hk i r) as (sg & -> & _). by eexists. Qed.

Lemma body_verifyBuffer i n (g g' : BlockGenerator B) :
  finish_task debug (rsaEncrypt i) n g = Ok g' → verifyBuffer g' = verifyBuffer g.
Proof.
  unfold finish_task, generateBlockBody. destruct (tasks g !! n) as [[e q]|]; [|by intros [= <-]].
  intros E. inv_outcome. done.
Qed.

(** The message of a stored block is genuine. *)
Lemma exchange_genuine i batches j :
  log_ok → keys_ok → follows_log batches → (j < length batches)%nat →
  ∃ m, exchange_of (ip_of i) (block_at (rsaEncrypt i) batches j) = Ok m ∧ genuine m.
Proof.
  intros Hlog Hkeys Hf Hj. eexists. split; [reflexivity|]. exists i, j. cbn [se_ip se_epoch se_signature].
  split_and!; [done|done|pose proof (follows_length _ Hf); lia|].
  rewrite (follows_queue batches j) by done. destruct (Hkeys i (root_of (queue_at log j))) as (sg & -> & _).
  done.
Qed.

(** The callback on a genuine message: it waits, or accepts. *)
Lemma genuine_accepted i e m :
  log_ok → keys_ok → exchanger_ok i e → genuine m → se_epoch m < 10000 →
  getLatestSavedEpoch (storage (bb_gen (ex_server e))) < se_epoch m ∧
    getSignature_round debug localDecrypt rsaDecrypt m (ex_server e) = None ∨
  ∃ s', getSignature_round debug localDecrypt rsaDecrypt m (ex_server e) = Some (Ok s') ∧
    validatedBlockNumber s' !! N.to_nat (se_epoch m) = Some true ∧
    exchanger_ok i (mkExchanger (ex_batches e) (ex_cur e) s' (ex_inbox e)).
Proof.
  intros Hlog Hkeys [Hf (k & Hk & Hv & Hval) Hsz Hin] (i' & j & Hip & Hep & Hj & Hsg) Hmax.
  pose proof (ch_latest _ _ _ _ _ Hk) as Hlat. unfold getSignature_round. rewrite Hep in *.
  destruct (decide (j < k)%nat) as [Hjk|Hjk]; [right|left; split; [lia|]].
  2: { unfold signatureVerifyCallback. by rewrite Hlat, (proj2 (N.ltb_lt _ _)) by lia. }
  pose proof (ch_le _ _ _ _ _ Hk) as Hkl.
  destruct (callback_ok debug (rsaEncrypt i) localDecrypt rsaDecrypt _ _ _ _ j (se_ip m) (se_signature m) Hk Hjk)
    as (c & Hc & Hcs & ->).
  destruct (Hkeys i' (root_of (queue_at log j))) as (sg & Es & Hd).
  assert (sg = se_signature m) as -> by congruence.
  rewrite (follows_queue (ex_batches e) j), Hip, Hd by (done || lia). cbn [mbind outcome_bind CHECK].
  set (n := N.to_nat (N.of_nat j + 1)).
  assert (n < length (validatedBlockNumber (ex_server e)))%nat as Hn.
  { rewrite Hsz. unfold n, validated_size. lia. }
  destruct (lookup_lt_is_Some_2 _ _ Hn) as [v Ev]. unfold at_index. rewrite Ev. cbn [mbind outcome_bind].
  eexists. split; [done|]. cbn [validatedBlockNumber]. split.
  { destruct v; [done|]. by rewrite list_lookup_insert_eq. }
  split; [done| | |done]; cbn [ex_server validatedBlockNumber bb_gen ex_batches ex_cur].
  - exists k. split_and!; [by destruct Hk; split|done|]. intros n' Hn'. destruct v; [by apply Hval|].
    apply list_lookup_insert_Some in Hn' as [(<- & _ & _)|[_ Hn']]; [unfold n; lia|by apply Hval].
  - destruct v; [done|]. by rewrite length_insert.
Qed.

Definition x_inv (es : list (exchanger B)) : Prop := ∀ i e, es !! i = Some e → exchanger_ok i e.

(** A step of the generator that leaves the messages alone. *)
Lemma gen_keeps i e batches cur k g :
  exchanger_ok i e → follows_log batches →
  (∀ k0 j, chain_ok (rsaEncrypt i) (ex_batches e) (ex_cur e) k0 (bb_gen (ex_server e)) → (j < k0)%nat →
     (j < k)%nat ∧ block_at (rsaEncrypt i) batches j = block_at (rsaEncrypt i) (ex_batches e) j) →
  chain_ok (rsaEncrypt i) batches cur k g →
  (∀ b, b ∈ verifyBuffer g → b ∈ verifyBuffer (bb_gen (ex_server e)) ∨
     ∃ j, (j < k)%nat ∧ b = block_at (rsaEncrypt i) batches j) →
  exchanger_ok i (mkExchanger batches cur (set_gen g (ex_server e)) (ex_inbox e)).
Proof.
  intros [Hf (k0 & Hk0 & Hv & Hval) Hsz Hin] Hf' Hmono Hk Hvb.
  split; cbn [ex_batches ex_server ex_inbox ex_cur set_gen validatedBlockNumber bb_gen]; try done.
  exists k. split_and!; [done| |].
  - intros b [Hb|Hb]%Hvb; [|done]. destruct (Hv b Hb) as (j & Hj & ->).
    destruct (Hmono k0 j Hk0 Hj) as [? E]. exists j. by rewrite E.
  - intros n Hn. pose proof (Hval n Hn). destruct (Hmono k0 (n - 1)%nat Hk0) as [? _]; lia.
Qed.

Lemma local_keeps i e e' :
  log_ok → keys_ok → N.of_nat (length log) < 10000 → exchanger_ok i e → local_step i e e' →
  exchanger_ok i e'.
Proof.
  intros Hlog Hkeys Hlen He Hstep. pose proof He as [Hf (k & Hk & Hv & Hval) Hsz Hin].
  destruct (follows_ok _ Hlog Hf) as [Hb Hl].
  assert (∀ k0, chain_ok (rsaEncrypt i) (ex_batches e) (ex_cur e) k0 (bb_gen (ex_server e)) → k0 = k) as Hun.
  { intros k0 Hk0. pose proof (ch_latest _ _ _ _ _ Hk0) as E. rewrite (ch_latest _ _ _ _ _ Hk) in E. lia. }
  destruct Hstep as [t|batch E Hp|n g' Hn E|g' E|n m s' Hm E].
  - apply (gen_keeps i e _ _ k); [done|done| |by apply chain_add|by left].
    by intros k0 j ->%Hun.
  - apply (gen_keeps i e _ _ k); [done|by eapply follows_snoc| |by apply chain_generate|by left].
    intros k0 j ->%Hun Hj. split; [done|]. apply block_at_app.
    pose proof (ch_le _ _ _ _ _ Hk). lia.
  - destruct (finish_task_ok debug (rsaEncrypt i) _ _ _ _ n (keys_total i Hkeys) Hb Hk Hn) as (g1 & E1 & Hg1).
    assert (g1 = g') as -> by congruence.
    apply (gen_keeps i e _ _ k); [done|done| |done|]; [by intros k0 j ->%Hun|].
    intros b. rewrite (body_verifyBuffer _ _ _ _ E). by left.
  - destruct (run_round_ok (rsaEncrypt i) _ _ _ _ Hb Hl Hk) as (g1 & E1 & Hg1 & Ev).
    { unfold run_round in E. rewrite (ch_header _ _ _ _ _ Hk) in E. by destruct (blockBuffer _ !! _). }
    assert (g1 = g') as -> by congruence.
    apply (gen_keeps i e _ _ (S k)); [done|done| |done|].
    + intros k0 j ->%Hun Hj. split; [lia|done].
    + intros b. rewrite Ev, elem_of_app, list_elem_of_singleton. intros [?| ->]; [by left|right].
      exists k. split; [lia|done].
  - assert (genuine m) as Hg by (eapply Forall_lookup_1; eauto).
    assert (se_epoch m < 10000) as Hmax by (destruct Hg as (? & j & _ & -> & ? & _); lia).
    destruct (genuine_accepted i e m Hlog Hkeys He Hg Hmax) as [[_ E']|(s1 & E1 & _ & [])]; [congruence|].
    assert (s1 = s') as -> by congruence. split; try done. by apply Forall_delete.
Qed.

Lemma publish_keeps i e m s' :
  log_ok → keys_ok → exchanger_ok i e → blockVerifier_round (ip_of i) (ex_server e) = Ok (Some m, s') →
  genuine m ∧ exchanger_ok i (mkExchanger (ex_batches e) (ex_cur e) s' (ex_inbox e)).
Proof.
  intros Hlog Hkeys [Hf (k & Hk & Hv & Hval) Hsz Hin] E. unfold blockVerifier_round in E.
  destruct (verifyBuffer (bb_gen (ex_server e))) as [|b rest] eqn:Eb; [done|].
  destruct (Hv b ltac:(left)) as (j & Hj & ->). pose proof (ch_le _ _ _ _ _ Hk).
  destruct (exchange_genuine i (ex_batches e) j Hlog Hkeys Hf) as (m1 & E1 & Hm1); [lia|].
  rewrite E1 in E. cbn [mbind outcome_bind] in E. injection E as <- <-. split; [done|].
  split; [done| |done|done]. exists k. split_and!; [by destruct Hk; split| |done].
  intros b Hb. apply Hv. by right.
Qed.

Lemma x_step_keeps es es' :
  log_ok → keys_ok → N.of_nat (length log) < 10000 → x_inv es → x_step es es' → x_inv es'.
Proof.
  intros Hlog Hkeys Hlen Hes Hstep. destruct Hstep as [i e e' Hi Hs|i e m s' Hi E]; intros j ej Hj.
  - apply list_lookup_insert_Some in Hj as [(<- & <- & _)|[_ Hj]]; [|by apply Hes].
    apply (local_keeps i e); [done..|by apply Hes|done].
  - destruct (publish_keeps i e m s' Hlog Hkeys (Hes i e Hi) E) as [Hm He].
    unfold broadcast in Hj. rewrite list_lookup_imap in Hj.
    apply fmap_Some in Hj as (e0 & Hj & ->).
    assert (exchanger_ok j e0) as [].
    { apply list_lookup_insert_Some in Hj as [(<- & <- & _)|[_ Hj]]; [done|by apply Hes]. }
    destruct (decide (j = i)); [by split|]. split; try done.
    apply Forall_app. split; [done|]. by repeat constructor.
Qed.

Lemma x_start_ok ss : Forall (λ s, store_ok s ∧ getLatestSavedEpoch s = 0) ss → x_inv (x_start ss).
Proof.
  intros Hss i e Hi. unfold x_start in Hi. rewrite list_lookup_fmap in Hi.
  apply fmap_Some in Hi as (s & Hs & ->). destruct (Forall_lookup_1 _ _ _ _ Hss Hs) as [Hs1 Hs2].
  split; cbn [ex_batches ex_server ex_inbox ex_cur bb_gen validatedBlockNumber new_BlockBroadcaster].
  - intros j b. by rewrite lookup_nil.
  - exists O. split_and!; [by apply chain_start| |].
    + by intros b ?%not_elem_of_nil.
    + intros n Hn. by apply lookup_replicate in Hn as [? _].
  - apply length_replicate.
  - constructor.
Qed.

(** C16: the servers of a cluster accept each other's blocks.  Servers that commit
    the same batches, each in an order of its own, end up with blocks of the
    same Merkle root; so, whatever the interleaving of block building and of the
    messages, no server is stopped by a signature of another one: a signature it
    receives either waits for the block to be stored or verifies and marks the
    block as validated, and only stored blocks are ever marked.  A signature
    that does not verify under the root of the stored block stops the server.
    The bound is the size of the table [validatedBlockNumber]. *)
Theorem signatures_accepted ss es i e :
  log_ok → keys_ok → N.of_nat (length log) < 10000 →
  Forall (λ s, store_ok s ∧ getLatestSavedEpoch s = 0) ss →
  rtc x_step (x_start ss) es → es !! i = Some e →
  let latest := getLatestSavedEpoch (storage (bb_gen (ex_server e))) in
  let receive m := getSignature_round debug localDecrypt rsaDecrypt m (ex_server e) in
  (∃ r, blockVerifier_round (ip_of i) (ex_server e) = Ok r) ∧
  (∀ m, m ∈ ex_inbox e →
     latest < se_epoch m ∧ receive m = None ∨
     se_epoch m ≤ latest ∧ ∃ s', receive m = Some (Ok s') ∧
       validatedBlockNumber s' !! N.to_nat (se_epoch m) = Some true) ∧
  (∀ n, validatedBlockNumber (ex_server e) !! n = Some true → 1 ≤ N.of_nat n ≤ latest) ∧
  ∀ m, 1 ≤ se_epoch m ≤ latest →
    rsaDecrypt (se_ip m) (root_of (queue_at log (N.to_nat (se_epoch m - 1)))) (se_signature m) = false →
    receive m = Some (Fatal CheckFailed).
Proof.
  intros Hlog Hkeys Hlen Hss Hrun Hi latest receive.
  assert (x_inv es) as Hes.
  { apply (rtc_invariant x_step x_inv (x_start ss)); [|by apply x_start_ok|done].
    intros es1 es2. by apply x_step_keeps. }
  pose proof (Hes i e Hi) as He. pose proof He as [Hf (k & Hk & Hv & Hval) Hsz Hin].
  assert (latest = N.of_nat k) as Hlat by apply (ch_latest _ _ _ _ _ Hk).
  pose proof (ch_le _ _ _ _ _ Hk) as Hkl. split_and!.
  - unfold blockVerifier_round. destruct (verifyBuffer _) as [|b rest] eqn:Eb; [by eexists|].
    destruct (Hv b ltac:(left)) as (j & Hj & ->).
    destruct (exchange_genuine i (ex_batches e) j Hlog Hkeys Hf) as (m & -> & _); [lia|]. by eexists.
  - intros m Hm. assert (genuine m) as Hg by (eapply Forall_forall; eauto).
    assert (se_epoch m < 10000) as Hmax by (destruct Hg as (? & j & _ & -> & ? & _); lia).
    destruct (genuine_accepted i e m Hlog Hkeys He Hg Hmax) as [[? ?]|(s' & E & Hs & _)]; [by left|right].
    split; [|by exists s']. destruct (N.lt_ge_cases latest (se_epoch m)) as [Hlt|?]; [|done].
    unfold getSignature_round, signatureVerifyCallback in E. fold latest in E.
    by rewrite (proj2 (N.ltb_lt _ _)) in E.
  - intros n Hn%Hval. lia.
  - intros m Hm Hd. set (j := N.to_nat (se_epoch m - 1)) in Hd.
    unfold receive, getSignature_round.
    destruct (callback_ok debug (rsaEncrypt i) localDecrypt rsaDecrypt _ _ _ _ j (se_ip m) (se_signature m) Hk)
      as (c & _ & _ & E); [unfold j; lia|].
    replace (N.of_nat j + 1) with (se_epoch m) in E by (unfold j; lia).
    rewrite E, (follows_queue (ex_batches e) j), Hd by (done || (unfold j; lia)). done.
Qed.

(** A block whose number is not below the size of the table ends the server,
    although the signature verifies. *)
Lemma validated_overflow (m : SignatureExchange) (s : BlockBroadcaster B) g :
  signatureVerifyCallback debug localDecrypt rsaDecrypt (se_epoch m) (se_ip m) (se_signature m) (bb_gen s) =
    Some (Ok (true, g)) →
  length (validatedBlockNumber s) = validated_size → 10000 ≤ se_epoch m →
  getSignature_round debug localDecrypt rsaDecrypt m s = Some (Fatal OutOfRange).
Proof.
  intros E Hs Hm. unfold getSignature_round. rewrite E. cbn [mbind outcome_bind CHECK]. unfold at_index.
  rewrite lookup_ge_None_2; [done|]. rewrite Hs. unfold validated_size. lia.
Qed.

End Cluster.

(** ** A concrete exchange

    Two servers commit two transactions in opposite orders; the first publishes
    its signature, the second checks it. *)
Module ExchangeRuns.

#[local] Existing Instances Varint.varint_protobuf Varint.varint_laws.
#[local] Existing Instances BlockBits.bits_proto BlockBits.bits_laws.

Definition get {A} (d : A) (o : outcome A) : A := match o with Ok a => a | Fatal _ => d end.
Definition ip_of (i : nat) : string := Nat.iter i (String.append "x") "".
Definition sign (i : nat) (root : list N) : option (list N) := Some (N.of_nat i :: take 4 root).
Definition check (ip : string) (root signature : list N) : bool :=
  bool_decide (N.of_nat (String.length ip) :: take 4 root = signature).
Definition check_local : list N → list N → bool := check "".

Definition txn (tid : N) : Transaction := setTransactionResult COMMIT (setTransactionID tid MockTransaction).
Definition log : list (list Transaction) := [[txn 3; txn 5]].

Lemma keys : keys_ok ip_of sign check.
Proof.
  intros i root. eexists. split; [done|]. apply bool_decide_eq_true. do 2 f_equal.
  induction i as [|i IH]; [done|]. exact (f_equal S IH).
Qed.

Lemma log_is_ok : log_ok log.
Proof.
  split_and!; [| |reflexivity].
  - constructor; [|constructor]. split_and!; [done| |repeat constructor; vm_compute; reflexivity].
    apply Nat.le_trans with (2 ^ 1)%nat; [reflexivity|]. apply Nat.pow_le_mono_r; lia.
  - constructor; [|constructor]. by apply (bool_decide_unpack _).
Qed.

Lemma exchange_start_ok : store_ok mem_start.
Proof.
  intros n raw. change (mem_db mem_start) with (∅ : gmap N (list N)). by rewrite lookup_empty.
Qed.

Lemma starts_ok : Forall (λ s, store_ok s ∧ getLatestSavedEpoch s = 0) [mem_start; mem_start].
Proof. by do 2 (apply Forall_cons; split; [split; [apply exchange_start_ok|done]|]). Qed.

Local Notation lstep := (local_step (B := BlockStorageToDB) false check_local sign check log).
Local Notation xstep := (x_step (B := BlockStorageToDB) false check_local ip_of sign check log).

(** One server builds its block. *)
Lemma build i s a b (g1 g2 : BlockGenerator BlockStorageToDB) inbox :
  [a; b] ≡ₚ [txn 3; txn 5] →
  let g := generateBlock (addCommittedTransaction b (addCommittedTransaction a (bb_gen s))) in
  (0 < length (tasks g))%nat → finish_task false (sign i) 0 g = Ok g1 → run_round g1 = Some (Ok g2) →
  rtc (lstep i) (mkExchanger [] [] s inbox) (mkExchanger [[a; b]] [] (set_gen g2 s) inbox).
Proof.
  intros Hp g Hlen E1 E2.
  apply (rtc_l _ _ (mkExchanger [] [a] (set_gen (addCommittedTransaction a (bb_gen s)) s) inbox)).
  { apply (ls_add false check_local sign check log i (mkExchanger [] [] s inbox) a). }
  eapply rtc_l; [apply (ls_add _ _ _ _ _ _ _ b)|]. cbn [ex_batches ex_cur ex_server ex_inbox set_gen bb_gen app].
  eapply rtc_l; [by eapply ls_generate|]. cbn [ex_batches ex_cur ex_server ex_inbox set_gen bb_gen app].
  eapply rtc_l; [by eapply ls_body|]. cbn [ex_batches ex_cur ex_server ex_inbox set_gen bb_gen app].
  apply rtc_once. by eapply ls_header.
Qed.

Lemma lift_local i e e' es : es !! i = Some e → rtc (lstep i) e e' → rtc xstep es (<[i := e']> es).
Proof.
  intros Hi Hrun. revert es Hi. induction Hrun as [e|e e1 e2 Hs _ IH]; intros es Hi.
  - by rewrite list_insert_id.
  - pose proof (lookup_lt_Some _ _ _ Hi). eapply rtc_l; [by eapply x_local|].
    rewrite <-(list_insert_insert_eq es i e2 e1). apply IH. by apply list_lookup_insert_eq.
Qed.

Definition begun (a b : Transaction) : BlockGenerator BlockStorageToDB :=
  generateBlock (addCommittedTransaction b (addCommittedTransaction a (new_BlockGenerator mem_start))).
Definition built (i : nat) (a b : Transaction) : BlockGenerator BlockStorageToDB :=
  let g1 := get (begun a b) (finish_task false (sign i) 0 (begun a b)) in
  get g1 (default (Ok g1) (run_round g1)).

Lemma built_ok i a b :
  let g1 := get (begun a b) (finish_task false (sign i) 0 (begun a b)) in
  i = 0%nat ∧ a = txn 3 ∧ b = txn 5 ∨ i = 1%nat ∧ a = txn 5 ∧ b = txn 3 →
  (0 < length (tasks (begun a b)))%nat ∧ finish_task false (sign i) 0 (begun a b) = Ok g1 ∧
  run_round g1 = Some (Ok (built i a b)).
Proof.
  cbn zeta. intros [(-> & -> & ->)|(-> & -> & ->)];
    (split; [vm_compute; lia|split; vm_compute; reflexivity]).
Qed.

Definition s0 := new_BlockBroadcaster (new_BlockGenerator mem_start).
Definition msg : SignatureExchange :=
  match blockVerifier_round (ip_of 0) (set_gen (built 0 (txn 3) (txn 5)) s0) with
  | Ok (Some m, _) => m | _ => mkExchange [] "" 0 end.
Definition e0 : exchanger BlockStorageToDB :=
  mkExchanger [[txn 3; txn 5]] [] (set_gen (set_verifyBuffer [] (built 0 (txn 3) (txn 5))) s0) [].
Definition e1 : exchanger BlockStorageToDB :=
  mkExchanger [[txn 5; txn 3]] [] (set_gen (built 1 (txn 5) (txn 3)) s0) [msg].

Lemma published :
  blockVerifier_round (ip_of 0) (set_gen (built 0 (txn 3) (txn 5)) s0) =
    Ok (Some msg, set_gen (set_verifyBuffer [] (built 0 (txn 3) (txn 5))) s0).
Proof. vm_compute. reflexivity. Qed.

Lemma publish_two ba bb sa sb m s' :
  blockVerifier_round (ip_of 0) sa = Ok (Some m, s') →
  xstep [mkExchanger ba [] sa []; mkExchanger bb [] sb []]
    [mkExchanger ba [] s' []; mkExchanger bb [] sb [m]].
Proof.
  intros E. exact (x_publish false check_local ip_of sign check log
    [mkExchanger ba [] sa []; mkExchanger bb [] sb []] 0 (mkExchanger ba [] sa []) m s' eq_refl E).
Qed.

Lemma run_exchange : rtc xstep (x_start [mem_start; mem_start]) [e0; e1].
Proof.
  pose proof (built_ok 0 (txn 3) (txn 5) (or_introl (conj eq_refl (conj eq_refl eq_refl)))) as (L0 & B0 & H0).
  pose proof (built_ok 1 (txn 5) (txn 3) (or_intror (conj eq_refl (conj eq_refl eq_refl)))) as (L1 & B1 & H1).
  etrans; [apply (lift_local 0 (mkExchanger [] [] s0 []))|]; [reflexivity| |].
  { exact (build 0 s0 (txn 3) (txn 5) _ _ [] (reflexivity _) L0 B0 H0). }
  etrans; [apply (lift_local 1 (mkExchanger [] [] s0 []))|]; [reflexivity| |].
  { exact (build 1 s0 (txn 5) (txn 3) _ _ [] (perm_swap _ _ _) L1 B1 H1). }
  apply rtc_once. exact (publish_two _ _ _ _ _ _ published).
Qed.

Lemma signatures_accepted_witness :
  let latest := getLatestSavedEpoch (storage (bb_gen (ex_server e1))) in
  let receive m := getSignature_round false check_local check m (ex_server e1) in
  (∃ r, blockVerifier_round (ip_of 1) (ex_server e1) = Ok r) ∧
  (∀ m, m ∈ ex_inbox e1 →
     latest < se_epoch m ∧ receive m = None ∨
     se_epoch m ≤ latest ∧ ∃ s', receive m = Some (Ok s') ∧
       validatedBlockNumber s' !! N.to_nat (se_epoch m) = Some true) ∧
  (∀ n, validatedBlockNumber (ex_server e1) !! n = Some true → 1 ≤ N.of_nat n ≤ latest) ∧
  ∀ m, 1 ≤ se_epoch m ≤ latest →
    check (se_ip m) (root_of (queue_at log (N.to_nat (se_epoch m - 1)))) (se_signature m) = false →
    receive m = Some (Fatal CheckFailed).
Proof.
  exact (signatures_accepted false check_local ip_of sign check log [mem_start; mem_start] [e0; e1] 1 e1
    log_is_ok keys eq_refl starts_ok run_exchange eq_refl).
Defined.

End ExchangeRuns.
