(* ===== verification/RaftGlue.v ===== *)
(** * The glue between the epoch servers and raft

    [raft/consensus_manager.h], [raft/chain.cpp], [raft/chain_client.cpp] and
    [raft/chain_closure.h].  A manager queues the requests of its server;
    [send_to_raft] cuts the queue into batches and hands each to a pool of five
    threads, which push the batch to the leader until it answers with success;
    the leader appends the batch to the log, and on every server [on_apply]
    puts the requests of the batch in the queue that [receiver_from_raft]
    reads.

    Raft itself is outside the repository: an entry that is applied is appended
    to one log, which every node applies in order; an apply that is rejected
    ends without the required field of the response, so the call fails.  A
    request is kept parsed, as the epoch it asks for. *)
From S2P Require Import Prelude DecimalString Sha256 MerkleTree Transaction TransactionCodec ConsensusControl ClientProxy EpochServer.
From Stdlib Require Import ZArith NArith Lia.
From stdpp Require Import base list gmap strings sorting.

(** ** Parameters *)
Record consensus_param := mkParam {
  initial_conf : string; raft_ip : string; duration : option Z; cp_batch_size : Z;
  raft_port : Z; cp_group_id : Z; request_receiver_port : Z }.

(** The loops that append one entry for each server. *)
Definition conf_entry (raft_port group_id : Z) (ip : string) : string :=
  String.append ip (String.append ":" (String.append (to_string raft_port)
    (String.append ":" (to_string group_id)))).
Definition conf_entries (raft_port group_id : Z) (ips : list string) : string :=
  foldl (λ acc ip, String.append acc (String.append (conf_entry raft_port group_id ip) ",")) ""%string ips.

(** [std::string::pop_back]; on an empty string its behaviour is undefined. *)
Fixpoint pop_back (s : string) : outcome string :=
  match s with
  | EmptyString => Fatal OutOfRange
  | String _ EmptyString => Ok ""%string
  | String a s' => r ← pop_back s'; Ok (String a r)
  end.

(** [duration] is a floating-point number that is passed on; [None] is -1. *)
Definition GenerateEpochServerConsensusParam (epochServerIPs : list string) (ip : string) (port batch_size dur receiver group_id : Z)
    : outcome consensus_param :=
  conf ← pop_back (conf_entries port 0 epochServerIPs);
  Ok (mkParam conf ip (Some dur) batch_size port group_id receiver).
Definition GenerateBlockServerConsensusParam (blockServerIPs : list string) (ip : string) (port group_id : Z)
    : outcome consensus_param :=
  conf ← pop_back (conf_entries port group_id blockServerIPs);
  Ok (mkParam conf ip None 1 port group_id (-1)).

Lemma string_app_assoc a b c : String.append a (String.append b c) = String.append (String.append a b) c.
Proof. induction a as [|x a IH]; [done|]. exact (f_equal (String x) IH). Qed.

Lemma pop_back_snoc s c : pop_back (String.append s (String c "")) = Ok s.
Proof.
  induction s as [|x s IH]; [done|]. change (String.append (String x s) (String c "")) with (String x (String.append s (String c ""))).
  cbn [pop_back]. rewrite IH. by destruct s.
Qed.

Lemma conf_entries_from acc port g ip ips :
  foldl (λ acc ip, String.append acc (String.append (conf_entry port g ip) ",")) acc (ip :: ips) =
  String.append acc (String.append (String.concat "," (conf_entry port g <$> ip :: ips)) ",").
Proof.
  revert acc ip. induction ips as [|ip' ips IH]; intros acc ip; [done|].
  change (foldl ?f acc (ip :: ip' :: ips)) with (foldl f (f acc ip) (ip' :: ips)). rewrite IH, !fmap_cons. simpl.
  by rewrite <-!string_app_assoc.
Qed.

(** The configuration lists the servers, separated by commas. *)
Lemma initial_conf_lists port g ip ips :
  pop_back (conf_entries port g (ip :: ips)) = Ok (String.concat "," (conf_entry port g <$> ip :: ips)).
Proof. unfold conf_entries. rewrite conf_entries_from. simpl String.append at 1. apply pop_back_snoc. Qed.

(** ** The chain *)
Record Chain := mkChain { node_count : nat; leader_group_id : Z; user_request_handler : bool }.

Definition new_Chain : Chain := mkChain 0 (-1) false.
Definition setLeaderGroupId (g : Z) (c : Chain) : Chain := mkChain (node_count c) g (user_request_handler c).
Definition set_handler (c : Chain) : Chain := mkChain (node_count c) (leader_group_id c) true.

(** [started] is what the raft node answers to its configuration. *)
Definition add_chain_instance (started : bool) (group_id : Z) (c : Chain) : outcome (bool * Chain) :=
  if negb started then Ok (false, c)
  else
    CHECK (Z.of_nat (node_count c) =? group_id)%Z;;
    Ok (true, mkChain (S (node_count c)) (leader_group_id c) (user_request_handler c)).

(** The constructor of [ConsensusManager] up to the threads. *)
Definition start_chain (started : bool) (group_id : Z) : outcome Chain :=
  r ← add_chain_instance started group_id (setLeaderGroupId group_id new_Chain);
  CHECK r.1;; Ok r.2.

(** What becomes of a task given to [braft::Node::apply]: it is committed and
    answered, it is committed and the answer is lost, or it is rejected. *)
Inductive verdict := Committed | Unanswered | Rejected.

(** What the client sees of a call. *)
Inductive rpc := InitFailed | CallFailed | Replied (success : bool).

(** [Chain::push] and, for a task that is applied here, the part of [on_apply]
    and [ChainClosure::Run] that answers: the entry to append and the reply. *)
Definition chain_push (v : verdict) (id : Z) (batch : list N) (c : Chain) : outcome (option (list N) * rpc) :=
  if negb (id =? leader_group_id c)%Z then Ok (None, Replied false)
  else if (0 <=? leader_group_id c)%Z && (leader_group_id c <? Z.of_nat (node_count c))%Z then
    Ok match v with
       | Committed => (Some batch, Replied true)
       | Unanswered => (Some batch, CallFailed)
       | Rejected => (None, CallFailed)
       end
  else Fatal OutOfRange.

(** One entry of [on_apply]: the handler is called for every request; a handler
    that is not set yet cannot be called. *)
Definition on_apply (batch : list N) (c : Chain) (consensus_request_queue : list N) : outcome (list N) :=
  if user_request_handler c || bool_decide (batch = []) then Ok (consensus_request_queue ++ batch) else Fatal NullDeref.

(** ** The client *)

(** [push_user_request]: its result and [response->success()] afterwards. *)
Definition push_user_request (r : rpc) (success : bool) : bool * bool :=
  match r with
  | InitFailed => (false, success)
  | CallFailed => (true, success)
  | Replied b => (b, b)
  end.
Definition process_response (success : bool) : bool := success.

(** A task of the pool: its batch, the leader it sends to, the response. *)
Record task := mkTask { tk_batch : list N; tk_leader : nat; tk_success : bool }.

(** One call of the loops of a task; [refresh] is what [get_leader_by_rpc]
    returns.  [None] when the task is done. *)
Definition task_call (r : rpc) (refresh : nat) (t : task) : option task :=
  let '(sent, success) := push_user_request r (tk_success t) in
  if sent then
    if process_response success then None else Some (mkTask (tk_batch t) (tk_leader t) success)
  else Some (mkTask (tk_batch t) refresh success).

(** ** The managers *)
Record node := mkNode {
  nd_server : EpochServer;
  nd_chain : Chain;
  request_queue : list N;
  nd_tasks : list task;
  consensus_request_queue : list N;
  (** Entries applied; ghost: requests consumed, asked for, and responses. *)
  nd_applied : nat;
  nd_consumed : nat;
  nd_asked : list N;
  nd_responses : list EpochResponse }.

Record cluster := mkCluster { nodes : list node; entries : list (list N) }.

Section Managers.
Context (rsaEncrypt : list N → list N) (batch_size : nat).

Definition new_node (c : Chain) : node := mkNode new_EpochServer c [] [] [] 0 0 [] [].

(** A server answers a request and may ask for the next epoch. *)
Definition serve (expired : bool) (rq : EpochRequest) (n : node) : node :=
  let '(response, ask, s) := receiver_from_user rsaEncrypt expired rq (nd_server n) in
  mkNode s (nd_chain n) (request_queue n ++ option_list ask) (nd_tasks n) (consensus_request_queue n)
    (nd_applied n) (nd_consumed n) (nd_asked n ++ option_list ask) (nd_responses n ++ [response]).

(** A round of [send_to_raft]: a batch of [count] requests for a task. *)
Definition cut_batch (count leader : nat) (n : node) : node :=
  mkNode (nd_server n) (nd_chain n) (drop count (request_queue n))
    (nd_tasks n ++ [mkTask (take count (request_queue n)) leader false]) (consensus_request_queue n)
    (nd_applied n) (nd_consumed n) (nd_asked n) (nd_responses n).

Definition update_task (k : nat) (t : option task) (n : node) : node :=
  mkNode (nd_server n) (nd_chain n) (request_queue n)
    (match t with Some t => <[k := t]> (nd_tasks n) | None => delete k (nd_tasks n) end)
    (consensus_request_queue n) (nd_applied n) (nd_consumed n) (nd_asked n) (nd_responses n).

Definition apply_entry (queue : list N) (n : node) : node :=
  mkNode (nd_server n) (nd_chain n) (request_queue n) (nd_tasks n) queue
    (S (nd_applied n)) (nd_consumed n) (nd_asked n) (nd_responses n).

Definition consume (e : N) (rest : list N) (n : node) : node :=
  mkNode (receiver_from_raft e (nd_server n)) (nd_chain n) (request_queue n) (nd_tasks n) rest
    (nd_applied n) (S (nd_consumed n)) (nd_asked n) (nd_responses n).

Definition install_handler (n : node) : node :=
  mkNode (nd_server n) (set_handler (nd_chain n)) (request_queue n) (nd_tasks n) (consensus_request_queue n)
    (nd_applied n) (nd_consumed n) (nd_asked n) (nd_responses n).

Definition set_node (i : nat) (n : node) (c : cluster) : cluster := mkCluster (<[i := n]> (nodes c)) (entries c).

(** The steps of the cluster.  The pool works on the five oldest tasks. *)
Inductive r_step (c : cluster) : cluster → Prop :=
  | r_handler i n : nodes c !! i = Some n → r_step c (set_node i (install_handler n) c)
  | r_serve i n expired rq : nodes c !! i = Some n → r_step c (set_node i (serve expired rq n) c)
  | r_batch i n count leader :
      nodes c !! i = Some n → (1 ≤ count ≤ batch_size)%nat → (count ≤ length (request_queue n))%nat →
      r_step c (set_node i (cut_batch count leader n) c)
  | r_init_failed i n k t refresh :
      nodes c !! i = Some n → nd_tasks n !! k = Some t → (k < 5)%nat →
      r_step c (set_node i (update_task k (task_call InitFailed refresh t) n) c)
  | r_unreachable i n k t refresh :
      nodes c !! i = Some n → nd_tasks n !! k = Some t → (k < 5)%nat →
      r_step c (set_node i (update_task k (task_call CallFailed refresh t) n) c)
  | r_call i n k t j nj v entry r refresh :
      nodes c !! i = Some n → nd_tasks n !! k = Some t → (k < 5)%nat →
      tk_leader t = j → nodes c !! j = Some nj →
      chain_push v (leader_group_id (nd_chain n)) (tk_batch t) (nd_chain nj) = Ok (entry, r) →
      r_step c (mkCluster (<[i := update_task k (task_call r refresh t) n]> (nodes c)) (entries c ++ option_list entry))
  | r_apply i n batch queue :
      nodes c !! i = Some n → entries c !! nd_applied n = Some batch →
      on_apply batch (nd_chain n) (consensus_request_queue n) = Ok queue →
      r_step c (set_node i (apply_entry queue n) c)
  | r_receive i n e rest :
      nodes c !! i = Some n → consensus_request_queue n = e :: rest →
      r_step c (set_node i (consume e rest n) c).

Definition new_cluster (chains : list Chain) : cluster := mkCluster (new_node <$> chains) [].

(** ** What the epoch servers see *)
Definition abs_node (n : node) : member := mkMember (nd_server n) (nd_consumed n) (nd_asked n) (nd_responses n).
Definition abs (c : cluster) : group := mkGroup (abs_node <$> nodes c) (concat (entries c)).

(** Where an epoch that was asked for is. *)
Definition accounted (c : cluster) (n : node) (e : N) : Prop :=
  e ∈ request_queue n ∨ (∃ t, t ∈ nd_tasks n ∧ e ∈ tk_batch t) ∨ e ∈ concat (entries c).

Record node_ok (c : cluster) (n : node) : Prop := {
  no_applied : (nd_applied n ≤ length (entries c))%nat;
  no_queue : concat (take (nd_applied n) (entries c)) = take (nd_consumed n) (concat (entries c)) ++ consensus_request_queue n;
  no_consumed : (nd_consumed n ≤ length (concat (entries c)))%nat;
  no_asked e : e ∈ nd_asked n → accounted c n e;
  no_requests e : e ∈ request_queue n → e ∈ nd_asked n;
  no_tasks t e : t ∈ nd_tasks n → e ∈ tk_batch t → e ∈ nd_asked n;
  no_fresh t : t ∈ nd_tasks n → tk_success t = false }.

Definition cluster_ok (c : cluster) : Prop := ∀ i n, nodes c !! i = Some n → node_ok c n.

(** *** Calls *)
Lemma task_call_some r refresh t t' :
  tk_success t = false → task_call r refresh t = Some t' → tk_batch t' = tk_batch t ∧ tk_success t' = false.
Proof.
  intros Ht. unfold task_call, process_response. destruct r as [| |[]]; simpl; rewrite ?Ht; intros E; by simplify_eq/=.
Qed.

Lemma task_call_none r refresh t :
  tk_success t = false → task_call r refresh t = None → r = Replied true.
Proof. intros Ht. unfold task_call, process_response. by destruct r as [| |[]]; simpl; rewrite ?Ht. Qed.

Lemma chain_push_some v id batch ch entry r :
  chain_push v id batch ch = Ok (entry, r) → entry = None ∨ entry = Some batch.
Proof. unfold chain_push. intros E. repeat case_match; simplify_eq/=; auto. Qed.

Lemma chain_push_replied v id batch ch entry : chain_push v id batch ch = Ok (entry, Replied true) → entry = Some batch.
Proof. unfold chain_push. intros E. repeat case_match; by simplify_eq/=. Qed.

(** *** The log grows *)
Lemma take_le_app {A} n (l k : list A) : (n ≤ length l)%nat → take n (l ++ k) = take n l.
Proof. apply take_app_le. Qed.

Lemma node_ok_grow c c' n x :
  node_ok c n → entries c' = entries c ++ x → node_ok c' n.
Proof.
  intros [] E. assert (concat (entries c') = concat (entries c) ++ concat x) as Ec by (by rewrite E, concat_app).
  split; try done.
  - rewrite E, length_app. lia.
  - by rewrite E, concat_app, !take_le_app by done.
  - rewrite Ec, length_app. lia.
  - intros e He. destruct (no_asked0 e He) as [?|[?|?]]; [by left|right; by left|right; right].
    rewrite Ec, elem_of_app. by left.
Qed.

Lemma cluster_ok_set c c' i n' :
  cluster_ok c → nodes c' = <[i := n']> (nodes c) → (∃ x, entries c' = entries c ++ x) → node_ok c' n' → cluster_ok c'.
Proof.
  intros Hc En [x Ex] Hn j n Hj. rewrite En in Hj. destruct (decide (j = i)) as [->|Hne].
  - pose proof (lookup_lt_Some _ _ _ Hj) as Hlt. rewrite length_insert in Hlt.
    rewrite list_lookup_insert_eq in Hj by done. by simplify_eq.
  - rewrite list_lookup_insert_ne in Hj by done. by eapply node_ok_grow; [eapply Hc|].
Qed.

(** A task that was called. *)
Lemma update_task_ok c c' n k t r refresh v id ch entry :
  node_ok c n → nd_tasks n !! k = Some t → entries c' = entries c ++ option_list entry →
  chain_push v id (tk_batch t) ch = Ok (entry, r) ∨ (entry = None ∧ r ≠ Replied true) →
  node_ok c' (update_task k (task_call r refresh t) n).
Proof.
  intros Hn Hk Ee Hr. pose proof (list_elem_of_lookup_2 _ _ _ Hk) as Hin.
  pose proof (no_fresh _ _ Hn t Hin) as Hf. pose proof (node_ok_grow _ c' _ _ Hn Ee) as [].
  destruct (task_call r refresh t) as [t'|] eqn:Et; (split; simpl; [done|done|done| |done| |]).
  - destruct (task_call_some _ _ _ _ Hf Et) as [Eb _].
    intros e He. destruct (no_asked0 e He) as [?|[(u & Hu & He')|?]]; [by left| |by right; right].
    right. left. apply list_elem_of_lookup in Hu as [j Hj]. destruct (decide (j = k)) as [->|Hne].
    + simplify_eq. exists t'. rewrite Eb. split; [|done]. apply list_elem_of_insert. by eapply lookup_lt_Some.
    + exists u. split; [|done]. apply list_elem_of_lookup. exists j. simpl. by rewrite list_lookup_insert_ne.
  - destruct (task_call_some _ _ _ _ Hf Et) as [Eb _].
    intros u e [->|Hu]%list_insert_elem; [rewrite Eb|]; by eauto.
  - destruct (task_call_some _ _ _ _ Hf Et) as [_ Es]. intros u [->|Hu]%list_insert_elem; eauto.
  - pose proof (task_call_none _ _ _ Hf Et) as ->. destruct Hr as [Hr%chain_push_replied|[_ ?]]; [|done]. subst entry.
    intros e He. destruct (no_asked0 e He) as [?|[(u & Hu & He')|?]]; [by left| |by right; right].
    apply list_elem_of_lookup in Hu as [j Hj]. destruct (decide (j = k)) as [->|Hne].
    + simplify_eq. right. right. rewrite Ee, concat_app, elem_of_app. right. simpl. by rewrite app_nil_r.
    + right. left. exists u. split; [|done]. by eapply list_delete_elem.
  - intros u e Hu. apply no_tasks0. by eapply list_elem_of_delete_inv.
  - intros u Hu. apply no_fresh0. by eapply list_elem_of_delete_inv.
Qed.

Lemma step_cluster_ok c c' : cluster_ok c → r_step c c' → cluster_ok c'.
Proof.
  intros Hc [i n Hi|i n expired rq Hi|i n count leader Hi Hcount Hlen|i n k t refresh Hi Hk H5|i n k t refresh Hi Hk H5
    |i n k t j nj v entry r refresh Hi Hk H5 Hl Hj Hp|i n batch queue Hi Hb Ha|i n e rest Hi Hq];
    pose proof (Hc i n Hi) as Hn; (eapply cluster_ok_set; [exact Hc|done| |]);
    try (exists []; by rewrite app_nil_r).
  - by destruct Hn.
  - unfold serve. destruct (receiver_from_user _ _ _ _) as [[response ask] s]. destruct Hn. split; simpl; try done.
    + intros e [He|He]%elem_of_app; [|left; apply elem_of_app; by right].
      destruct (no_asked0 e He) as [?|?]; [left; apply elem_of_app; by left|by right].
    + intros e [He|He]%elem_of_app; apply elem_of_app; [left; by apply no_requests0|by right].
    + intros t e Ht He. apply elem_of_app. left. by eapply no_tasks0.
  - destruct Hn. split; simpl; try done.
    + intros e He. destruct (no_asked0 e He) as [Hr|[(t & Ht & He')|?]]; [| |by right; right].
      * rewrite <-(take_drop count (request_queue n)), elem_of_app in Hr. destruct Hr as [Hr|?]; [|by left].
        right. left. eexists. split; [apply elem_of_app; right; by left|done].
      * right. left. exists t. split; [apply elem_of_app; by left|done].
    + intros e He. apply no_requests0. eapply subseteq_drop; exact He.
    + intros t e [Ht|Ht%list_elem_of_singleton]%elem_of_app; [by apply no_tasks0|]. subst t. simpl.
      intros He. apply no_requests0. eapply subseteq_take; exact He.
    + intros t [Ht|Ht%list_elem_of_singleton]%elem_of_app; [by apply no_fresh0|]. by subst t.
  - eapply (update_task_ok c _ n k t InitFailed refresh Committed 0 new_Chain None); try done; [by rewrite app_nil_r|by right].
  - eapply (update_task_ok c _ n k t CallFailed refresh Committed 0 new_Chain None); try done; [by rewrite app_nil_r|by right].
  - by eexists.
  - eapply (update_task_ok c _ n k t r refresh v _ _ entry); try done. by left.
  - unfold on_apply in Ha. destruct (_ || _); [|done]. injection Ha as <-. destruct Hn. split; simpl; try done.
    + apply lookup_lt_Some in Hb. lia.
    + rewrite (take_S_r _ _ _ Hb), concat_app, no_queue0. simpl. by rewrite app_nil_r, (assoc_L (++)).
  - destruct Hn. rewrite Hq in no_queue0.
    assert (concat (entries c) !! nd_consumed n = Some e) as He.
    { rewrite <-(take_drop (nd_applied n) (entries c)), concat_app, no_queue0, <-(assoc_L (++)).
      rewrite lookup_app_r by (rewrite length_take; lia). rewrite length_take, Nat.min_l by lia.
      by rewrite Nat.sub_diag. }
    split; simpl; try done.
    + rewrite no_queue0, (take_S_r _ _ _ He), <-(assoc_L (++)). done.
    + apply lookup_lt_Some in He. lia.
Qed.

Lemma new_cluster_ok chains : cluster_ok (new_cluster chains).
Proof.
  intros i n Hi. simpl in Hi. apply list_lookup_fmap_Some in Hi as (ch & -> & _).
  split; simpl; try done; try (by intros ? ?%not_elem_of_nil); by intros ? ? ?%not_elem_of_nil.
Qed.

(** *** Simulation *)
Lemma appends_run g i m es :
  members g !! i = Some m → (∀ e, e ∈ es → e ∈ mb_asked m) →
  rtc (g_step rsaEncrypt) g (mkGroup (members g) (raft_log g ++ es)).
Proof.
  revert g. induction es as [|e es IH]; intros g Hi He; [rewrite app_nil_r; by destruct g|].
  eapply rtc_l; [eapply g_append; [exact Hi|apply He; by left]|].
  rewrite (cons_middle e (raft_log g) es), (assoc_L (++)).
  apply (IH (mkGroup (members g) (raft_log g ++ [e]))); [done|]. intros e' Hin. apply He. by right.
Qed.

Lemma abs_node_at c i n : nodes c !! i = Some n → members (abs c) !! i = Some (abs_node n).
Proof. intros Hi. simpl. by rewrite list_lookup_fmap, Hi. Qed.

(** A step that changes nothing the servers see. *)
Lemma abs_same c c' i n n' :
  nodes c !! i = Some n → nodes c' = <[i := n']> (nodes c) → abs_node n' = abs_node n →
  abs_node <$> nodes c' = abs_node <$> nodes c.
Proof.
  intros Hi -> E. rewrite list_fmap_insert, E, <-list_fmap_insert. f_equal. by apply list_insert_id.
Qed.

Lemma r_step_simulated c c' : cluster_ok c → r_step c c' → rtc (g_step rsaEncrypt) (abs c) (abs c').
Proof.
  intros Hc Hs. destruct Hs as [i n Hi|i n expired rq Hi|i n count leader Hi Hcount Hlen|i n k t refresh Hi Hk H5
    |i n k t refresh Hi Hk H5|i n k t j nj v entry r refresh Hi Hk H5 Hl Hj Hp|i n batch queue Hi Hb Ha|i n e rest Hi Hq];
    pose proof (abs_node_at _ _ _ Hi) as Ha'; unfold abs at 2;
    try (erewrite (abs_same c _ i n) by done; apply rtc_refl).
  - apply rtc_once. unfold serve. destruct (receiver_from_user _ _ _ _) as [[response ask] s] eqn:E. simpl.
    rewrite list_fmap_insert. by eapply (g_request _ (abs c) i (abs_node n)).
  - erewrite (abs_same c _ i n) by done. simpl. rewrite concat_app.
    eapply (appends_run (abs c) i); [exact Ha'|]. simpl.
    intros e He. destruct (chain_push_some _ _ _ _ _ _ Hp) as [->| ->]; simpl in He; [by apply not_elem_of_nil in He|].
    rewrite app_nil_r in He. eapply (no_tasks _ _ (Hc i n Hi)); [by eapply list_elem_of_lookup_2|done].
  - apply rtc_once. simpl. rewrite list_fmap_insert. eapply (g_deliver _ (abs c) i (abs_node n) e); [done|]. simpl.
    destruct (Hc i n Hi). rewrite Hq in no_queue0.
    rewrite <-(take_drop (nd_applied n) (entries c)), concat_app, no_queue0, <-(assoc_L (++)).
    rewrite lookup_app_r by (rewrite length_take; lia). rewrite length_take, Nat.min_l by lia.
    by rewrite Nat.sub_diag.
Qed.

Lemma abs_new chains : abs (new_cluster chains) = new_group (length chains).
Proof.
  unfold abs, new_cluster, new_group. simpl. f_equal. rewrite <-list_fmap_compose.
  induction chains as [|ch chains IH]; [done|]. simpl. by f_equal.
Qed.

Lemma reachable_simulated chains c :
  rtc r_step (new_cluster chains) c → cluster_ok c ∧ g_run rsaEncrypt (length chains) (abs c).
Proof.
  apply (rtc_invariant r_step (λ c, cluster_ok c ∧ g_run rsaEncrypt (length chains) (abs c))).
  - intros x y [Hx Hg] Hxy. split; [by eapply step_cluster_ok|].
    unfold g_run in *. etrans; [exact Hg|]. by eapply r_step_simulated.
  - split; [apply new_cluster_ok|]. unfold g_run. by rewrite abs_new.
Qed.

(** C25: The managers implement the group of epoch servers.  Every run of the
    managers, their tasks, calls that fail or whose answer is lost and batches
    that are committed more than once included, is a run of the group in which
    a request is appended only if some server asked for it; no request of a
    server is lost: it is still queued, in a task that goes on sending it, or in
    the log; and what a server has received is, in order, a prefix of the log. *)
Theorem raft_glue_refines chains c :
  rtc r_step (new_cluster chains) c →
  g_run rsaEncrypt (length chains) (abs c) ∧
  ∀ i n, nodes c !! i = Some n →
    (∀ e, e ∈ nd_asked n → accounted c n e) ∧
    take (nd_consumed n) (concat (entries c)) ++ consensus_request_queue n `prefix_of` concat (entries c).
Proof.
  intros Hr. destruct (reachable_simulated chains c Hr) as [Hc Hg]. split; [done|].
  intros i n Hi. destruct (Hc i n Hi). split; [done|]. rewrite <-no_queue0.
  exists (concat (drop (nd_applied n) (entries c))). by rewrite <-concat_app, take_drop.
Qed.

End Managers.

(** A task whose calls fail sends to the same server for ever: only a refused
    request makes it look for the leader.  A server that lost the leadership
    rejects the task, and the call fails. *)
Lemma stale_leader_kept t refreshes :
  tk_success t = false →
  foldl (λ o r, t ← o; task_call CallFailed r t) (Some t) refreshes = Some t.
Proof.
  intros Ht. induction refreshes as [|r l IH]; [done|]. simpl. unfold task_call at 2. simpl. rewrite Ht. simpl.
  replace (mkTask (tk_batch t) (tk_leader t) false) with t; [done|]. destruct t. simpl in *. by subst.
Qed.

(** An entry that arrives before [send_to_raft] has set the handler. *)
Example apply_before_handler : (c ← start_chain true 0; on_apply [2%N] c []) = Fatal NullDeref.
Proof. reflexivity. Qed.

(** ** Two managers *)
Module TwoManagers.

Inductive raction :=
  | Handler (i : nat) | Serve (i : nat) (expired : bool) (rq : EpochRequest) | Batch (i count leader : nat)
  | Call (i k : nat) (v : verdict) (refresh : nat) | Apply (i : nat) | Receive (i : nat).

Definition ract (a : raction) (c : cluster) : option cluster :=
  match a with
  | Handler i => n ← nodes c !! i; Some (set_node i (install_handler n) c)
  | Serve i expired rq => n ← nodes c !! i; Some (set_node i (serve TwoEpochServers.rsa expired rq n) c)
  | Batch i count leader =>
      n ← nodes c !! i;
      if decide ((1 ≤ count ≤ 2)%nat ∧ (count ≤ length (request_queue n))%nat)
      then Some (set_node i (cut_batch count leader n) c) else None
  | Call i k v refresh =>
      n ← nodes c !! i; t ← nd_tasks n !! k; nj ← nodes c !! tk_leader t;
      if decide (k < 5)%nat then
        match chain_push v (leader_group_id (nd_chain n)) (tk_batch t) (nd_chain nj) with
        | Ok (entry, r) =>
            Some (mkCluster (<[i := update_task k (task_call r refresh t) n]> (nodes c)) (entries c ++ option_list entry))
        | Fatal _ => None
        end
      else None
  | Apply i =>
      n ← nodes c !! i; b ← entries c !! nd_applied n;
      match on_apply b (nd_chain n) (consensus_request_queue n) with
      | Ok q => Some (set_node i (apply_entry q n) c)
      | Fatal _ => None
      end
  | Receive i =>
      n ← nodes c !! i;
      match consensus_request_queue n with e :: rest => Some (set_node i (consume e rest n) c) | [] => None end
  end.

Lemma ract_step a c c' : ract a c = Some c' → r_step TwoEpochServers.rsa 2 c c'.
Proof.
  destruct a as [i|i expired rq|i count leader|i k v refresh|i|i]; simpl; destruct (nodes c !! i) as [n|] eqn:Hi; try done; simpl.
  - intros [= <-]. by eapply r_handler.
  - intros [= <-]. by eapply r_serve.
  - case_decide as Hd; [|done]. intros [= <-]. destruct Hd. by eapply r_batch.
  - destruct (nd_tasks n !! k) as [t|] eqn:Hk; [|done]. simpl. destruct (nodes c !! tk_leader t) as [nj|] eqn:Hj; [|done].
    simpl. case_decide; [|done]. destruct (chain_push _ _ _ _) as [[entry r]|] eqn:E; [|done]. intros [= <-]. by eapply r_call.
  - destruct (entries c !! nd_applied n) as [b|] eqn:Hb; [|done]. simpl.
    destruct (on_apply _ _ _) as [q|] eqn:E; [|done]. intros [= <-]. by eapply r_apply.
  - destruct (consensus_request_queue n) eqn:E; [done|]. intros [= <-]. by eapply r_receive.
Qed.

Definition chain0 : Chain := match start_chain true 0 with Ok c => c | Fatal _ => new_Chain end.
Definition racts (l : list raction) : cluster := foldl (λ c a, default c (ract a c)) (new_cluster [chain0; chain0]) l.

Lemma racts_run l : rtc (r_step TwoEpochServers.rsa 2) (new_cluster [chain0; chain0]) (racts l).
Proof.
  unfold racts. generalize (new_cluster [chain0; chain0]). induction l as [|a l IH]; intros c; simpl; [done|].
  destruct (ract a c) as [c'|] eqn:E; simpl; [|apply IH]. eapply rtc_l; [by eapply ract_step|apply IH].
Qed.

(** The first answer is lost, so the request is in the log twice. *)
Definition rmoves : list raction :=
  [Handler 0; Handler 1; Serve 0 false (mkRequest 3 [1; 2]%N); Serve 0 true (mkRequest 2 [3]%N); Batch 0 1 1;
   Call 0 0 Rejected 0; Call 0 0 Unanswered 0; Apply 0; Call 0 0 Committed 0; Apply 1; Receive 1; Apply 0; Receive 0; Receive 0].

Lemma raft_glue_refines_witness :
  match nodes (racts rmoves) !! 0%nat with
  | Some n => current_epoch (nd_server n) = 2%N ∧ entries (racts rmoves) = [[2]; [2]]%N ∧
      (∀ e, e ∈ nd_asked n → accounted (racts rmoves) n e)
  | None => False
  end.
Proof.
  destruct (nodes (racts rmoves) !! 0%nat) as [n|] eqn:E; [|vm_compute in E; discriminate E].
  pose proof (raft_glue_refines TwoEpochServers.rsa 2 _ _ (racts_run rmoves)) as [_ Hn]. destruct (Hn 0%nat n E) as [Ha _].
  split_and!; [|by vm_compute|exact Ha]. vm_compute in E. injection E as <-. reflexivity.
Defined.

End TwoManagers.
