(* ===== verification/MultiRaft.v ===== *)
(** * The raft groups of the block servers

    [consensus_control_block.h]: every block server leads a raft group of its
    own, in which it publishes its messages, and is a member of the groups of
    all others.  One chain with one node per group receives the entries of all
    groups and queues them for the thread that gives them to the control block.
    A group has one order of its entries; between the groups there is none, so
    two servers can see the same messages in different orders.

    A message handed to the leader of a group is sent by a task that repeats the
    call until it is answered ([RaftGlue]), and five tasks run at a time: the
    entries of a group are messages of its leader, in any order and possibly
    more than once. *)
From S2P Require Import Prelude EpochQueues RaftGlue ConsensusControl.
From Stdlib Require Import ZArith NArith Lia.
From stdpp Require Import base list gmap strings relations.

Local Open Scope N_scope.

(** ** Start *)

(** The position of the local address; the number of servers if it is not
    there. *)
Fixpoint localID (localIP : string) (ips : list string) : nat :=
  match ips with
  | [] => 0
  | ip :: ips => if String.eqb ip localIP then 0 else S (localID localIP ips)
  end.

Record BatchAtomicBroadcaster := mkBAB { bab_group : nat; isLeader : bool }.

(** The constructor of the control block: the chain of all groups with its
    handler, and the leader of the local group.  [started i] is what the raft
    node of group [i] answers to its configuration. *)
Definition start_groups (localIP : string) (ips : list string) (started : nat → bool)
    : outcome (Chain * BatchAtomicBroadcaster) :=
  let id := localID localIP ips in
  let chain := setLeaderGroupId (Z.of_nat id) new_Chain in
  let all_raft_instance := (λ i, mkBAB i (bool_decide (id = i))) <$> seq 0 (length ips) in
  let chain := match ips with [] => chain | _ => set_handler chain end in
  local_leader ← at_index all_raft_instance id;
  chain ← foldM (λ i c, r ← add_chain_instance (started i) (Z.of_nat i) c; CHECK r.1;; Ok r.2)
            (seq 0 (length ips)) chain;
  Ok (chain, local_leader).

(** [sendEpochFinishSignal] and [sendViewChangeVote]. *)
Definition bab_send (m : TransactionsWithProof) (b : BatchAtomicBroadcaster) (c : ConsensusControlBlock)
    : outcome ConsensusControlBlock :=
  CHECK (isLeader b);; Ok (send m c).

Lemma localID_lookup localIP ips : localIP ∈ ips → ips !! localID localIP ips = Some localIP.
Proof.
  induction ips as [|ip ips IH]; [by intros ?%not_elem_of_nil|]. simpl.
  destruct (String.eqb_spec ip localIP) as [->|Hne]; [done|]. intros [->|Hin]%elem_of_cons; [done|].
  by apply IH.
Qed.

Lemma add_groups k n c started :
  (∀ i, (i < k + n)%nat → started i = true) → node_count c = k →
  foldM (λ i c, r ← add_chain_instance (started i) (Z.of_nat i) c; CHECK r.1;; Ok r.2) (seq k n) c =
    Ok (mkChain (k + n) (leader_group_id c) (user_request_handler c)).
Proof.
  revert k c. induction n as [|n IH]; intros k c Hs Hc; cbn [seq foldM].
  { rewrite Nat.add_0_r. destruct c. simpl in *. by subst. }
  assert (add_chain_instance (started k) (Z.of_nat k) c =
    Ok (true, mkChain (S k) (leader_group_id c) (user_request_handler c))) as ->.
  { unfold add_chain_instance. by rewrite Hs, Hc, Z.eqb_refl by lia. }
  cbn [mbind outcome_bind fst snd CHECK].
  rewrite IH; simpl; [|intros i Hi; apply Hs; lia|done]. do 2 f_equal. lia.
Qed.

(** A server that is in the list starts: it leads the group of its position, it
    has a node in every group and a handler before the first entry can arrive,
    and what it sends passes the check. *)
Lemma groups_start localIP ips started :
  localIP ∈ ips → (∀ i, (i < length ips)%nat → started i = true) →
  ∃ ch b, start_groups localIP ips started = Ok (ch, b) ∧
    ips !! bab_group b = Some localIP ∧ leader_group_id ch = Z.of_nat (bab_group b) ∧
    node_count ch = length ips ∧
    (∀ m c, bab_send m b c = Ok (send m c)) ∧
    (∀ batch q, on_apply batch ch q = Ok (q ++ batch)).
Proof.
  intros Hin Hs. pose proof (localID_lookup _ _ Hin) as Hl. pose proof (lookup_lt_Some _ _ _ Hl) as Hlt.
  unfold start_groups, at_index. rewrite list_lookup_fmap, lookup_seq_lt by done. simpl.
  destruct ips as [|ip0 ips']; [simpl in Hlt; lia|]. set (ips := ip0 :: ips') in *.
  rewrite add_groups; [|done|done]. simpl. eexists _, _. split; [done|]. split_and!; simpl; try done.
  intros m c. unfold bab_send. simpl. by rewrite bool_decide_true.
Qed.

(** A server that is not in the list stops at its start. *)
Lemma groups_unlisted localIP ips started :
  localIP ∉ ips → start_groups localIP ips started = Fatal OutOfRange.
Proof.
  intros Hn. assert (localID localIP ips = length ips) as E.
  { induction ips as [|ip ips IH]; [done|]. simpl. destruct (String.eqb_spec ip localIP) as [->|Hne].
    - destruct Hn. by left.
    - f_equal. apply IH. intros ?. apply Hn. by right. }
  unfold start_groups, at_index. rewrite E, list_lookup_fmap, lookup_seq_ge by lia. done.
Qed.

(** ** Verdicts that do not depend on the order *)
Definition says_finished (ms : list TransactionsWithProof) (ip : string) (e : N) : Prop :=
  ∃ m, m ∈ ms ∧ ps_type m = CON ∧ ps_ip m = ip ∧ ps_epoch m = e.

(** While nobody is excluded, every message counts. *)
Record unanimous (total : Z) (ms : list TransactionsWithProof) (v : verdicts) : Prop := {
  un_confirmed ip e : (ip, e) ∈ confirmed v ↔ says_finished ms ip e;
  un_accusers t e o : o ∈ accusers t e v ↔ ∃ m, m ∈ ms ∧ accusation t e o m;
  un_below t e : (Z.of_nat (size (accusers t e v)) < quorum total)%Z }.

Lemma excluded_before total m v : excluded (judge total m v) = ∅ → excluded v = ∅.
Proof.
  intros E. apply map_empty. intros t. destruct (excluded v !! t) as [e|] eqn:Et; [|done].
  destruct (excluded_forever total [m] v t e 0 Et) as [H1 _]. simpl in H1. by rewrite E, lookup_empty in H1.
Qed.

Lemma exists_snoc {A} (P : A → Prop) l x : (∃ y, y ∈ l ++ [x] ∧ P y) ↔ (∃ y, y ∈ l ∧ P y) ∨ P x.
Proof.
  split.
  - intros (y & [Hy|Hy]%elem_of_app & HP); [left; by exists y|]. apply list_elem_of_singleton in Hy as ->. by right.
  - intros [(y & Hy & HP)|HP]; [exists y|exists x]; (split; [apply elem_of_app|done]); [by left|right; by left].
Qed.

Lemma unanimous_skip total ms m v :
  ps_type m ≠ CON → ps_type m ≠ MALICIOUS → unanimous total ms v → unanimous total (ms ++ [m]) v.
Proof.
  intros Hc Hm []. split; [intros ip e; unfold says_finished|intros t e o|done]; rewrite exists_snoc.
  - rewrite un_confirmed0. split; [by left|]. by intros [?|(? & _)].
  - rewrite un_accusers0. split; [by left|]. by intros [?|(? & _)].
Qed.

Lemma unanimous_confirm total ms m v :
  ps_type m = CON → unanimous total ms v →
  unanimous total (ms ++ [m]) (mkVerdicts ({[(ps_ip m, ps_epoch m)]} ∪ confirmed v) (accused v) (excluded v)).
Proof.
  intros Hc []. split; [intros ip e; unfold says_finished|intros t e o|done]; rewrite exists_snoc; simpl.
  - rewrite elem_of_union, elem_of_singleton, un_confirmed0. split.
    + intros [[= -> ->]|?]; [by right|by left].
    + intros [?|(_ & <- & <-)]; [by right|by left].
  - etransitivity; [apply un_accusers0|]. split; [by left|]. intros [?|(E & _)]; [done|congruence].
Qed.

Lemma unanimous_accuse total ms m v ex :
  ps_type m = MALICIOUS → unanimous total ms v →
  let voters := {[ps_ip m]} ∪ accusers (ps_proof m) (ps_epoch m) v in
  (Z.of_nat (size voters) < quorum total)%Z →
  unanimous total (ms ++ [m]) (mkVerdicts (confirmed v) (<[(ps_proof m, ps_epoch m) := voters]> (accused v)) ex).
Proof.
  intros Hm [] voters Hq.
  assert (∀ t e, accusers t e (mkVerdicts (confirmed v) (<[(ps_proof m, ps_epoch m) := voters]> (accused v)) ex) =
    if decide (t = ps_proof m ∧ e = ps_epoch m) then voters else accusers t e v) as Hacc.
  { intros t e. unfold accusers. simpl. destruct (decide _) as [[-> ->]|Hne]; [by rewrite lookup_insert_eq|].
    rewrite lookup_insert_ne; [done|]. intros [= E1 E2]. by apply Hne. }
  split; [intros ip e; unfold says_finished|intros t e o|intros t e]; rewrite ?exists_snoc, ?Hacc; simpl.
  - rewrite un_confirmed0. split; [by left|]. intros [?|(E & _)]; [done|congruence].
  - destruct (decide _) as [[-> ->]|Hne].
    + unfold voters. rewrite elem_of_union, elem_of_singleton, un_accusers0. split.
      * intros [->|?]; [right; by split_and!|by left].
      * intros [?|(_ & <- & _)]; [by right|by left].
    + rewrite un_accusers0. split; [by left|]. intros [?|(_ & _ & <- & <-)]; [done|by destruct Hne].
  - destruct (decide _); [done|apply un_below0].
Qed.

Lemma judge_unanimous total ms m v :
  unanimous total ms v → excluded (judge total m v) = ∅ → unanimous total (ms ++ [m]) (judge total m v).
Proof.
  intros Hun E. pose proof (excluded_before _ _ _ E) as Ev. revert E. unfold judge. rewrite Ev, !lookup_empty.
  destruct (ps_type m) eqn:Ety; intros E.
  - by apply unanimous_skip; rewrite ?Ety.
  - rewrite <-Ev. by apply unanimous_confirm.
  - by apply unanimous_skip; rewrite ?Ety.
  - apply unanimous_accuse; [done|done|]. cbn [excluded] in E.
    destruct (Z.leb_spec (quorum total) (Z.of_nat (size ({[ps_ip m]} ∪ accusers (ps_proof m) (ps_epoch m) v))));
      [|done].
    apply (f_equal (lookup (ps_proof m))) in E. by rewrite lookup_insert_eq, lookup_empty in E.
Qed.

Lemma judge_all_unanimous total ms :
  (0 ≤ total)%Z → excluded (judge_all total ms) = ∅ → unanimous total ms (judge_all total ms).
Proof.
  intros Ht. induction ms as [|m ms IH] using rev_ind; intros E.
  - split; simpl.
    + intros ip e. split; [set_solver|]. by intros (m & ?%not_elem_of_nil & _).
    + intros t e o. unfold accusers. simpl. rewrite lookup_empty. split; [set_solver|].
      by intros (m & ?%not_elem_of_nil & _).
    + intros t e. unfold accusers. simpl. rewrite lookup_empty. cbn. rewrite size_empty. unfold quorum.
      destruct (decide (total = 0))%Z as [->|]; [done|].
      assert (0 ≤ Z.quot (total - 1) 3)%Z by (apply Z.quot_pos; lia). lia.
  - unfold judge_all in *. rewrite foldl_app in *. apply judge_unanimous; [|done]. apply IH.
    by eapply excluded_before.
Qed.

(** Whether anybody is excluded does not depend on the order of the messages,
    nor on what else could still come. *)
Lemma no_exclusion_subset total ms ms' :
  (0 ≤ total)%Z → ms' ⊆ ms → excluded (judge_all total ms) = ∅ → excluded (judge_all total ms') = ∅.
Proof.
  intros Ht Hsub E. destruct (judge_all_unanimous total ms Ht E).
  apply map_empty. intros t. destruct (excluded _ !! t) as [e|] eqn:Et; [|done].
  destruct (judge_all_grounded total ms') as [Hq Ha _ _].
  specialize (Hq t e Et). assert (accusers t e (judge_all total ms') ⊆ accusers t e (judge_all total ms)) as Hs.
  { intros o (m & Hm & Ho)%Ha. apply un_accusers0. exists m. split; [by apply Hsub|done]. }
  apply subseteq_size in Hs. specialize (un_below0 t e). lia.
Qed.

(** ** The groups *)
Section Groups.
Context (serialize : TransactionsWithProof → list N) (parse : list N → option TransactionsWithProof).
Context (ips : list string).

Record mserver := mkMS {
  ms_ccb : ConsensusControlBlock;
  (** How many entries of each group the chain has applied. *)
  ms_applied : list nat;
  multi_raft_receiver : list (list N);
  (** The messages given to the control block, with the time. *)
  ms_seen : list (Z * TransactionsWithProof) }.

Record mcluster := mkMC { mc_servers : list mserver; mc_groups : list (list (list N)) }.

Definition new_mserver : mserver := mkMS (started ips) (replicate (length ips) O) [] [].
Definition m_start : mcluster := mkMC (replicate (length ips) new_mserver) (replicate (length ips) []).

Definition set_server (i : nat) (s : mserver) (c : mcluster) : mcluster :=
  mkMC (<[i := s]> (mc_servers c)) (mc_groups c).
Definition set_ccb (b : ConsensusControlBlock) (s : mserver) : mserver :=
  mkMS b (ms_applied s) (multi_raft_receiver s) (ms_seen s).

(** One round of [receiver_from_multi_raft_instance] at a message. *)
Definition receive_one (now : Z) (raw : list N) (rest : list (list N)) (s : mserver) : outcome mserver :=
  match parse raw with
  | None => Ok (mkMS (ms_ccb s) (ms_applied s) rest (ms_seen s))
  | Some m =>
      b ← recvProofSet now m (ms_ccb s);
      Ok (mkMS b (ms_applied s) rest (ms_seen s ++ [(now, m)]))
  end.

(** The client proxies of a server and its timer send messages; a message that
    was sent is committed in the group of its sender, at least once; an entry is
    applied by the chain of every server; the receiving thread takes it out. *)
Inductive m_step (c : mcluster) : mcluster → Prop :=
  | m_send i s m :
      mc_servers c !! i = Some s → m_step c (set_server i (set_ccb (send m (ms_ccb s)) s) c)
  | m_spin i s ip now :
      mc_servers c !! i = Some s → ips !! i = Some ip →
      m_step c (set_server i (set_ccb (spinCheckTimeout ip now (ms_ccb s)) s) c)
  | m_commit i s m log :
      mc_servers c !! i = Some s → m ∈ outbox (ms_ccb s) → mc_groups c !! i = Some log →
      m_step c (mkMC (mc_servers c) (<[i := log ++ [serialize m]]> (mc_groups c)))
  | m_apply i s g log k raw :
      mc_servers c !! i = Some s → mc_groups c !! g = Some log → ms_applied s !! g = Some k →
      log !! k = Some raw →
      m_step c (set_server i (mkMS (ms_ccb s) (<[g := S k]> (ms_applied s))
                  (multi_raft_receiver s ++ [raw]) (ms_seen s)) c)
  | m_receive i s now raw rest s' :
      mc_servers c !! i = Some s → multi_raft_receiver s = raw :: rest →
      receive_one now raw rest s = Ok s' →
      m_step c (set_server i s' c).

(** What a server has applied of each group. *)
Definition applied_entries (groups : list (list (list N))) (applied : list nat) : list (list N) :=
  concat (zip_with take applied groups).

Definition caught_up (c : mcluster) (s : mserver) : Prop :=
  multi_raft_receiver s = [] ∧ ms_applied s = length <$> mc_groups c.

(** The entries are messages between the configured servers, for epochs that the
    vectors have. *)
Definition entries_fit (c : mcluster) : Prop :=
  Forall (Forall (λ raw, ∀ m, parse raw = Some m → from_servers ips (0%Z, m))) (mc_groups c).

(** *** The invariant *)
Lemma agrees_send total v c m : agrees total v c → agrees total v (send m c).
Proof. intros []. by split. Qed.

Lemma agrees_spin total v c ip now : agrees total v c → agrees total v (spinCheckTimeout ip now c).
Proof.
  intros Hc. unfold spinCheckTimeout. apply agrees_send. generalize (map_to_list (proxiesTimeout c)). intros l.
  revert c Hc. induction l as [|p l IH]; intros c Hc; [done|]. simpl. apply IH.
  destruct (_ && _); [|done]. by apply agrees_send.
Qed.

Record server_ok (groups : list (list (list N))) (s : mserver) : Prop := {
  so_agrees : agrees (Z.of_nat (length ips)) (judge_all (Z.of_nat (length ips)) (ms_seen s).*2) (ms_ccb s);
  so_applied : Forall2 (λ k log, (k ≤ length log)%nat) (ms_applied s) groups;
  so_entries : (ms_seen s).*2 ++ omap parse (multi_raft_receiver s) ≡ₚ
               omap parse (applied_entries groups (ms_applied s)) }.

Lemma concat_insert_snoc {A} (l : list (list A)) i x r :
  l !! i = Some x → concat (<[i := x ++ [r]]> l) ≡ₚ concat l ++ [r].
Proof.
  revert i. induction l as [|y l IH]; intros [|i] Hi; simpl in *; [done|done| |].
  - injection Hi as ->. rewrite <-!(assoc_L (++)). apply Permutation_app_head, Permutation_app_comm.
  - by rewrite IH, (assoc_L (++)).
Qed.

Lemma apply_entry_ok groups applied g log k raw :
  groups !! g = Some log → applied !! g = Some k → log !! k = Some raw →
  applied_entries groups (<[g := S k]> applied) ≡ₚ applied_entries groups applied ++ [raw].
Proof.
  intros Hg Ha Hl. unfold applied_entries. rewrite <-(list_insert_id groups g log) at 1 by done.
  rewrite <-insert_zip_with, (take_S_r _ _ _ Hl). apply concat_insert_snoc.
  by rewrite lookup_zip_with, Ha, Hg.
Qed.

Lemma commit_entry_ok groups applied i log raw :
  groups !! i = Some log → Forall2 (λ k log, (k ≤ length log)%nat) applied groups →
  applied_entries (<[i := log ++ [raw]]> groups) applied = applied_entries groups applied.
Proof.
  intros Hi Ha. unfold applied_entries. f_equal. revert i Hi.
  induction Ha as [|k y applied groups Hk _ IH]; intros [|i] Hi; simpl in *; [done|done| |].
  - injection Hi as ->. by rewrite take_app_le.
  - by rewrite IH.
Qed.

Lemma applied_subset groups applied : applied_entries groups applied ⊆ concat groups.
Proof.
  unfold applied_entries. revert applied. induction groups as [|log groups IH]; intros [|k applied]; simpl.
  1-3: set_solver.
  intros x [Hx|Hx]%elem_of_app; apply elem_of_app; [left|right; by eapply IH].
  by eapply subseteq_take.
Qed.

Definition cluster_inv (c : mcluster) : Prop :=
  length (mc_groups c) = length ips ∧ ∀ i s, mc_servers c !! i = Some s → server_ok (mc_groups c) s.

Lemma cluster_inv_set i s s' c :
  cluster_inv c → mc_servers c !! i = Some s → server_ok (mc_groups c) s' → cluster_inv (set_server i s' c).
Proof.
  intros [Hl Hc] Hi Hs. split; [done|]. intros j t. simpl. rewrite list_lookup_insert_Some.
  intros [(_ & <- & _)|[_ Hj]]; [done|by eapply Hc].
Qed.

Lemma m_start_inv : cluster_inv m_start.
Proof.
  split; [apply length_replicate|]. simpl. intros i s [-> _]%lookup_replicate. split; simpl.
  - apply started_agrees.
  - induction (length ips); simpl; [constructor|by constructor].
  - unfold applied_entries. induction (length ips); [done|]. simpl. exact IHn.
Qed.

(** An entry that waits in the queue of a server fits. *)
Lemma queued_fits c s raw m :
  entries_fit c → server_ok (mc_groups c) s → raw ∈ multi_raft_receiver s → parse raw = Some m →
  ps_epoch m < MAX_EPOCH.
Proof.
  intros Hf [_ _ He] Hr Hp.
  assert (m ∈ omap parse (applied_entries (mc_groups c) (ms_applied s))) as Hm.
  { rewrite <-He. apply elem_of_app. right. apply list_elem_of_omap. by exists raw. }
  apply list_elem_of_omap in Hm as (r & Hr'%applied_subset & Hpr).
  apply list_elem_of_In, in_concat in Hr' as (log & Hlog%list_elem_of_In & Hin%list_elem_of_In).
  unfold entries_fit in Hf. rewrite Forall_forall in Hf. specialize (Hf log Hlog).
  rewrite Forall_forall in Hf. by destruct (Hf r Hin m Hpr).
Qed.

Lemma mc_receive_ok c s now raw rest :
  entries_fit c → server_ok (mc_groups c) s → multi_raft_receiver s = raw :: rest →
  ∃ s', receive_one now raw rest s = Ok s' ∧ server_ok (mc_groups c) s'.
Proof.
  intros Hf Hs Hr. unfold receive_one. pose proof Hs as [Hag Ha He]. rewrite Hr in He.
  destruct (parse raw) as [m|] eqn:Ep; cbn [omap list_omap] in He; rewrite Ep in He.
  - assert (ps_epoch m < MAX_EPOCH) as Hm.
    { eapply queued_fits; [done|done| |done]. rewrite Hr. by left. }
    destruct (recv_ok _ _ _ now m Hag Hm) as (b & -> & Hb). eexists. split; [done|]. split; [|done|].
    + cbn [ms_seen ms_ccb]. rewrite fmap_app. unfold judge_all. rewrite foldl_app. exact Hb.
    + cbn [ms_seen multi_raft_receiver ms_applied]. rewrite fmap_app, <-(assoc_L (++)). exact He.
  - eexists. split; [done|]. by split.
Qed.

Lemma m_step_inv c c' : cluster_inv c → entries_fit c → m_step c c' → cluster_inv c'.
Proof.
  intros Hc Hf [i s m Hi|i s ip now Hi Hip|i s m log Hi Hm Hg|i s g log k raw Hi Hg Ha Hl|i s now raw rest s' Hi Hr E].
  - pose proof (proj2 Hc i s Hi) as []. eapply cluster_inv_set; [done|done|]. split; [|done|done]. by apply agrees_send.
  - pose proof (proj2 Hc i s Hi) as []. eapply cluster_inv_set; [done|done|]. split; [|done|done]. by apply agrees_spin.
  - destruct Hc as [Hl Hc]. split; [by simpl; rewrite length_insert|]. simpl. intros j t Hj.
    destruct (Hc j t Hj) as [Hag Hap He]. split; [done| |by rewrite commit_entry_ok].
    apply Forall2_same_length_lookup. rewrite length_insert. split; [by eapply Forall2_length|].
    intros n k lg Hk. rewrite list_lookup_insert_Some.
    intros [(<- & <- & _)|[_ Hlg]]; [|by eapply Forall2_lookup_lr in Hap].
    eapply Forall2_lookup_lr in Hap; [|done|exact Hg]. rewrite length_app. lia.
  - pose proof (proj2 Hc i s Hi) as [Hag Hap He]. eapply cluster_inv_set; [done|done|]. split; simpl; [done| |].
    + apply lookup_lt_Some in Hl. rewrite <-(list_insert_id _ _ _ Hg). by apply Forall2_insert.
    + rewrite (apply_entry_ok _ _ _ _ _ _ Hg Ha Hl), !omap_app, (assoc_L (++)). by apply Permutation_app_tail.
  - destruct (mc_receive_ok c s now raw rest Hf (proj2 Hc i s Hi) Hr) as (s1 & E1 & Hs1).
    rewrite E in E1. injection E1 as <-. by eapply cluster_inv_set.
Qed.

Lemma fit_before c c' : m_step c c' → entries_fit c' → entries_fit c.
Proof.
  intros [| |i s m log Hi Hm Hg| |]; try done. unfold entries_fit. simpl. intros Hf. rewrite Forall_lookup in *.
  intros j lg Hj. destruct (decide (j = i)) as [->|Hne].
  - rewrite Hg in Hj. injection Hj as <-. specialize (Hf i (log ++ [serialize m])).
    rewrite list_lookup_insert_eq in Hf by (by eapply lookup_lt_Some). by apply Forall_app in Hf as [? _].
  - apply (Hf j). by rewrite list_lookup_insert_ne.
Qed.

Lemma mc_reachable_inv c : rtc m_step m_start c → entries_fit c → cluster_inv c.
Proof.
  revert c. apply (rtc_ind_r (λ c, entries_fit c → cluster_inv c)); [by intros _; apply m_start_inv|].
  intros c c' _ Hst IH Hf. pose proof (fit_before _ _ Hst Hf). eapply m_step_inv; [by apply IH|done|done].
Qed.

(** *** Agreement *)
Definition published (c : mcluster) (ip : string) (e : N) : Prop :=
  says_finished (omap parse (concat (mc_groups c))) ip e.

Definition nobody_excluded (s : mserver) : Prop := ∀ ip, pb_isValid (proxy ip (ms_ccb s)) = true.

Notation total := (Z.of_nat (length ips)).

Lemma nobody_verdicts c s :
  server_ok (mc_groups c) s → (nobody_excluded s ↔ excluded (judge_all total (ms_seen s).*2) = ∅).
Proof.
  intros [[] _ _]. split.
  - intros Hn. apply map_empty. intros ip. by rewrite ag_valid, Hn.
  - intros E ip. specialize (ag_valid ip). rewrite E, lookup_empty in ag_valid. by destruct (pb_isValid _).
Qed.

Lemma seen_published c s : server_ok (mc_groups c) s → (ms_seen s).*2 ⊆ omap parse (concat (mc_groups c)).
Proof.
  intros [_ _ He] m Hm. assert (m ∈ omap parse (applied_entries (mc_groups c) (ms_applied s))) as Hin.
  { rewrite <-He. apply elem_of_app. by left. }
  apply list_elem_of_omap in Hin as (raw & Hr & Hp). apply list_elem_of_omap. exists raw.
  split; [by eapply applied_subset|done].
Qed.

Lemma seen_fits c s : entries_fit c → server_ok (mc_groups c) s → Forall (from_servers ips) (ms_seen s).
Proof.
  intros Hf Hs. apply Forall_forall. intros [now m] Hm.
  assert (m ∈ (ms_seen s).*2) as (raw & Hr & Hp)%(seen_published c s Hs)%list_elem_of_omap.
  { apply list_elem_of_fmap. by exists (now, m). }
  apply list_elem_of_In, in_concat in Hr as (log & Hlog%list_elem_of_In & Hin%list_elem_of_In).
  unfold entries_fit in Hf. rewrite Forall_forall in Hf. specialize (Hf log Hlog).
  rewrite Forall_forall in Hf. exact (Hf raw Hin m Hp).
Qed.

Lemma seen_caught_up c s :
  server_ok (mc_groups c) s → caught_up c s → (ms_seen s).*2 ≡ₚ omap parse (concat (mc_groups c)).
Proof.
  intros [_ _ He] [Hr Ha]. rewrite Hr, app_nil_r, Ha in He. rewrite He. clear. unfold applied_entries.
  induction (mc_groups c) as [|log groups IH]; [done|]. simpl. rewrite firstn_all, !omap_app.
  by apply Permutation_app_head.
Qed.

(** C27: the control blocks agree while nobody is excluded.  Whatever the order in
    which the raft groups commit and deliver the messages, the thread that
    receives them never faults.  If a server that has received all entries
    excludes nobody, then no server does, however far it has come; and its
    coordinator may go on with an epoch exactly when each server has published,
    in some group, that it finished the epoch, an answer that depends on the
    groups alone and so is the same on all servers that have caught up. *)
Theorem multi_raft_agree c i a :
  NoDup ips → rtc m_step m_start c → entries_fit c → mc_servers c !! i = Some a →
  (∀ now raw rest, multi_raft_receiver a = raw :: rest → ∃ a', receive_one now raw rest a = Ok a') ∧
  (caught_up c a → nobody_excluded a →
     (∀ j b, mc_servers c !! j = Some b → nobody_excluded b) ∧
     ∀ e, e < MAX_EPOCH →
       needReReserve e (ms_ccb a) = Ok false ∧
       ∃ go, waitForEpochFinish e (ms_ccb a) = Ok go ∧ (go = true ↔ ∀ ip, ip ∈ ips → published c ip e)).
Proof.
  intros Hnd Hr Hf Hi. destruct (mc_reachable_inv c Hr Hf) as [_ Hinv]. pose proof (Hinv i a Hi) as Ha. split.
  { intros now raw rest Hq. destruct (mc_receive_ok c a now raw rest Hf Ha Hq) as (a' & ? & _). by exists a'. }
  intros Hcu Hno. pose proof (seen_caught_up c a Ha Hcu) as Hseen.
  pose proof (proj1 (nobody_verdicts c a Ha) Hno) as Hex. split.
  - intros j b Hj. pose proof (Hinv j b Hj) as Hb. apply (nobody_verdicts c b Hb).
    eapply no_exclusion_subset, Hex; [lia|]. intros m Hm. rewrite Hseen. by eapply seen_published.
  - intros e He. pose proof (so_agrees _ _ Ha) as Hag. split.
    + destruct (lookup_lt_is_Some_2 (epochStaleBit (ms_ccb a)) (N.to_nat e)) as [b Hb].
      { rewrite (ag_stale_len _ _ _ Hag). lia. }
      unfold needReReserve, at_index. rewrite Hb. destruct b; [exfalso|done].
      destruct (proj1 (ag_stale _ _ _ Hag _ _ Hb) eq_refl) as [t Ht]. by rewrite Hex, lookup_empty in Ht.
    + destruct (wait_exact ips (ms_seen a) (ms_ccb a) e Hnd (seen_fits c a Hf Ha) He Hag) as (go & Hgo & Hiff).
      exists go. split; [done|]. rewrite Hiff.
      destruct (judge_all_unanimous total (ms_seen a).*2) as [Hcon _ _]; [lia|done|].
      assert (∀ ip, settled (judge_all total (ms_seen a).*2) ip e ↔ published c ip e) as Hset.
      { intros ip. unfold settled. rewrite Hcon, Hex. unfold published, says_finished.
        setoid_rewrite Hseen. split; [|by left]. intros [?|(e' & E & _)]; [done|by rewrite lookup_empty in E]. }
      by setoid_rewrite Hset.
Qed.

End Groups.

(** ** Four servers *)
Module FourGroups.

Definition type_code (t : proof_type) : N := match t with TX => 0 | CON => 1 | HEARTBEAT => 2 | MALICIOUS => 3 end.
Definition code_type (n : N) : option proof_type :=
  match n with 0 => Some TX | 1 => Some CON | 2 => Some HEARTBEAT | 3 => Some MALICIOUS | _ => None end.
Definition serialize (m : TransactionsWithProof) : list N :=
  type_code (ps_type m) :: ps_epoch m :: N.of_nat (length (bytes_of (ps_ip m))) ::
  bytes_of (ps_ip m) ++ bytes_of (ps_proof m).
Definition parse (raw : list N) : option TransactionsWithProof :=
  match raw with
  | ty :: e :: n :: rest =>
      t ← code_type ty;
      Some (mkProof e t (of_bytes (drop (N.to_nat n) rest)) (of_bytes (take (N.to_nat n) rest)) [])
  | _ => None
  end.

Inductive maction :=
  | Send (i : nat) (m : TransactionsWithProof)
  | Commit (i k : nat)
  | Apply (i g : nat)
  | Receive (i : nat) (now : Z).

Definition mact (ips : list string) (a : maction) (c : mcluster) : option mcluster :=
  match a with
  | Send i m => s ← mc_servers c !! i; Some (set_server i (set_ccb (send m (ms_ccb s)) s) c)
  | Commit i k =>
      s ← mc_servers c !! i; m ← outbox (ms_ccb s) !! k; log ← mc_groups c !! i;
      Some (mkMC (mc_servers c) (<[i := log ++ [serialize m]]> (mc_groups c)))
  | Apply i g =>
      s ← mc_servers c !! i; log ← mc_groups c !! g; k ← ms_applied s !! g; raw ← log !! k;
      Some (set_server i (mkMS (ms_ccb s) (<[g := S k]> (ms_applied s)) (multi_raft_receiver s ++ [raw]) (ms_seen s)) c)
  | Receive i now =>
      s ← mc_servers c !! i;
      match multi_raft_receiver s with
      | [] => None
      | raw :: rest => match receive_one parse now raw rest s with Ok s' => Some (set_server i s' c) | Fatal _ => None end
      end
  end.

Lemma mact_sound ips a c c' : mact ips a c = Some c' → m_step serialize parse ips c c'.
Proof.
  destruct a as [i m|i k|i g|i now]; simpl; destruct (mc_servers c !! i) as [s|] eqn:Es; try done; simpl.
  - intros [= <-]. by constructor.
  - destruct (outbox _ !! k) as [m|] eqn:Em; [|done]. destruct (mc_groups c !! i) as [log|] eqn:El; [|done]. simpl.
    intros [= <-]. eapply m_commit; [done| |done]. by eapply list_elem_of_lookup_2.
  - destruct (mc_groups c !! g) as [log|] eqn:El; [|done]. simpl.
    destruct (ms_applied s !! g) as [k|] eqn:Ek; [|done]. simpl.
    destruct (log !! k) as [raw|] eqn:Er; [|done]. simpl. intros [= <-]. by eapply m_apply.
  - destruct (multi_raft_receiver s) as [|raw rest] eqn:Er; [done|].
    destruct (receive_one parse now raw rest s) as [s'|] eqn:E; [|done]. intros [= <-]. by eapply m_receive.
Qed.

Definition mrun (ips : list string) (l : list maction) : mcluster :=
  foldl (λ c a, default c (mact ips a c)) (m_start ips) l.

Lemma mrun_reachable ips l : rtc (m_step serialize parse ips) (m_start ips) (mrun ips l).
Proof.
  unfold mrun. induction l as [|a l IH] using rev_ind; [done|]. rewrite foldl_app. simpl.
  destruct (mact ips a _) as [c'|] eqn:E; [|done]. simpl. eapply rtc_r; [exact IH|by eapply mact_sound].
Qed.

Definition four : list string := ["a"; "b"; "c"; "d"].
Definition finished (ip : string) (e : N) : TransactionsWithProof := mkProof e CON "" ip [].
Definition accuses (ip t : string) (e : N) : TransactionsWithProof := mkProof e MALICIOUS t ip [].

(** Server [i] takes the entries of the groups [gs] in this order. *)
Definition takes (i : nat) (gs : list nat) : list maction := (Apply i <$> gs) ++ (Receive i <$> (Z.of_nat <$> gs)).

Definition finish_all : list maction :=
  [Send 0 (finished "a" 1); Send 1 (finished "b" 1); Send 2 (finished "c" 1); Send 3 (finished "d" 1);
   Commit 0 0; Commit 1 0; Commit 1 0; Commit 2 0; Commit 3 0] ++
  takes 0 [0; 1; 1; 2; 3]%nat ++ takes 1 [3; 2; 1]%nat.

Definition entries_fit_b (c : mcluster) : bool :=
  forallb (forallb (λ raw, match parse raw with
    | None => true
    | Some m => (ps_epoch m <? MAX_EPOCH) && bool_decide (ps_ip m ∈ four) &&
                (match ps_type m with MALICIOUS => bool_decide (ps_proof m ∈ four) | _ => true end)
    end)) (mc_groups c).

Lemma entries_fit_by c : entries_fit_b c = true → entries_fit parse four c.
Proof.
  unfold entries_fit_b, entries_fit. rewrite forallb_forall, Forall_forall. intros Hc log Hlog%list_elem_of_In.
  specialize (Hc log Hlog). rewrite forallb_forall in Hc. apply Forall_forall. intros raw Hr%list_elem_of_In m Hp.
  specialize (Hc raw Hr). rewrite Hp in Hc. apply andb_true_iff in Hc as [[H1 H2]%andb_true_iff H3].
  split_and!; simpl; [by apply N.ltb_lt|by eapply bool_decide_eq_true_1|].
  intros E. rewrite E in H3. by eapply bool_decide_eq_true_1.
Qed.

Lemma all_finished ip : ip ∈ four → published parse (mrun four finish_all) ip 1.
Proof.
  unfold published. assert (omap parse (concat (mc_groups (mrun four finish_all))) =
    [finished "a" 1; finished "b" 1; finished "b" 1; finished "c" 1; finished "d" 1]) as -> by (vm_compute; reflexivity).
  intros Hip. exists (finished ip 1). split; [|by split_and!]. unfold four in Hip.
  repeat (apply elem_of_cons in Hip as [->|Hip]; [repeat constructor|]). by apply not_elem_of_nil in Hip.
Qed.

(** One group commits its message twice; server "a" has received everything, the
    others only part of it. *)
Lemma multi_raft_agree_witness :
  ∃ a, mc_servers (mrun four finish_all) !! 0%nat = Some a ∧
    waitForEpochFinish 1 (ms_ccb a) = Ok true ∧
    ∀ j b, mc_servers (mrun four finish_all) !! j = Some b → nobody_excluded b.
Proof.
  set (c := mrun four finish_all).
  assert (entries_fit parse four c) as Hf by (apply entries_fit_by; vm_compute; reflexivity).
  pose proof (mrun_reachable four finish_all) as Hr. fold c in Hr.
  destruct (lookup_lt_is_Some_2 (mc_servers c) 0) as [a Ha].
  { apply Nat.ltb_lt. vm_compute. reflexivity. }
  assert (caught_up c a ∧ excluded (judge_all 4 (ms_seen a).*2) = ∅) as [Hcu Hex].
  { replace a with (default (new_mserver four) (mc_servers c !! 0%nat)) by (by rewrite Ha). clear.
    split; [split|]; vm_compute; reflexivity. }
  pose proof (mc_reachable_inv serialize parse four c Hr Hf) as [_ Hinv].
  destruct (multi_raft_agree serialize parse four c 0 a FourServers.servers_nodup Hr Hf Ha) as [_ [Hno H1]].
  { exact Hcu. }
  { apply (nobody_verdicts parse four c a (Hinv _ _ Ha)). exact Hex. }
  destruct (H1 1) as [_ (go & Hgo & Hiff)]; [reflexivity|]. exists a. split_and!; [done| |done].
  rewrite Hgo. f_equal. apply Hiff. exact all_finished.
Defined.

(** Exclusion depends on the order.  "b" accuses "a" of epoch 5 and, after one
    more confirmation of "a", of epoch 6; "d" only of 5 and "c" only of 6.  Both
    servers receive all messages, in the order of every group, and exclude "a"
    since different epochs. *)
Definition accuse_all : list maction :=
  [Send 1 (accuses "b" "a" 5); Send 1 (accuses "b" "a" 6); Send 2 (accuses "c" "a" 6); Send 3 (accuses "d" "a" 5);
   Commit 1 0; Commit 1 1; Commit 2 0; Commit 3 0] ++
  takes 1 [1; 3; 1; 2]%nat ++ takes 2 [1; 1; 2; 3]%nat.

Definition exclusion (i : nat) (c : mcluster) : option (list (list N) * list nat * (bool * N)) :=
  s ← mc_servers c !! i;
  let p := proxy "a" (ms_ccb s) in
  Some (multi_raft_receiver s, ms_applied s, (pb_isValid p, firstInvalidEpoch p)).

Example exclusion_disagrees :
  (exclusion 1 (mrun four accuse_all), exclusion 2 (mrun four accuse_all)) =
    (Some ([], [0; 2; 1; 1]%nat, (false, 5)), Some ([], [0; 2; 1; 1]%nat, (false, 6))).
Proof. vm_compute. reflexivity. Qed.

End FourGroups.
