(* ===== verification/Leadership.v ===== *)
(** * The leaders of the raft groups

    The part of [raft/chain.h], [raft/chain.cpp], [raft/chain_client.cpp] and
    [raft/consensus_manager.h] that deals with leadership.  Every block server
    has a raft group of its own and sends its messages to itself
    ([get_leader_by_rpc]), so it has to lead its group; at its start it hands the
    groups it happens to lead over to their servers ([refreshLeader]).  One
    [Chain] is the state machine of all groups of a server, and keeps in
    [_leader_term] whether the server leads its own.

    Raft is outside the repository: that a node leads, what its calls answer and
    when its callbacks run are arguments or steps.  braft runs the callbacks of a
    node one after the other, later than the change that they report. *)
From S2P Require Import Prelude DecimalString RaftGlue.
From Stdlib Require Import ZArith NArith Lia.
From stdpp Require Import base list gmap strings relations.

Local Open Scope Z_scope.

(** ** Handing leadership over *)

(** [braft::PeerId]: the end point and the index. *)
Definition peer : Type := string * Z.
Definition end_point (ip : string) (port : Z) : string := String.append ip (String.append ":" (to_string port)).

(** [transfer_leadership_to] until it answers 0; [None] when the answers end
    before. *)
Fixpoint transfer_loop (answers : list Z) : option (list Z) :=
  match answers with
  | [] => None
  | a :: answers => if a =? 0 then Some answers else transfer_loop answers
  end.

(** The peer that a group was handed over to, if the node leads it. *)
Definition transferLeader (is_leader : bool) (ip : string) (port group_id : Z) (answers : list Z) : option (option peer) :=
  if negb is_leader then Some None
  else _ ← transfer_loop answers; Some (Some (end_point ip port, group_id)).

(** The loop of [refreshLeader] from group [i] on; [None] while a transfer is
    refused.  [n] counts the groups that are left. *)
Fixpoint refresh_from (ips : list string) (own : Z) (leads : nat → bool) (answers : nat → list Z) (i n : nat)
    : option (outcome (list (nat * peer))) :=
  match n with
  | O => Some (Ok [])
  | S n =>
      if Z.of_nat i =? own then refresh_from ips own leads answers (S i) n
      else
        match at_index ips i with
        | Fatal f => Some (Fatal f)
        | Ok ip =>
            p ← transferLeader (leads i) ip 18100 (Z.of_nat i) (answers i);
            rest ← refresh_from ips own leads answers (S i) n;
            Some (match rest with Ok l => Ok (match p with Some p => (i, p) :: l | None => l end) | Fatal f => Fatal f end)
        end
  end.
Definition refreshLeader (ips : list string) (leads : nat → bool) (answers : nat → list Z) (c : Chain)
    : option (outcome (list (nat * peer))) :=
  refresh_from ips (leader_group_id c) leads answers 0 (node_count c).

(** [get_leader_by_rpc]: a block server addresses itself; an epoch server asks its
    node until the answer is a peer ([None] while it is not). *)
Definition get_leader_block (ips : list string) (own : Z) : outcome peer :=
  if own <? 0 then Fatal OutOfRange else ip ← at_index ips (Z.to_nat own); Ok (end_point ip 18100, own).
Fixpoint get_leader_epoch (answers : list (string * Z * Z)) : option (string * Z * Z) :=
  match answers with
  | [] => None
  | (ip, port, idx) :: answers => if String.eqb ip "0.0.0.0" then get_leader_epoch answers else Some (ip, port, idx)
  end.

(** [get_leader_from_route_table]: the result and [leader]. *)
Definition get_leader_from_route_table (selected : option peer) (refreshed : bool) (leader : peer) : bool * peer :=
  match selected with
  | Some p => (true, p)
  | None => (refreshed, leader)
  end.

(** ** The callbacks of the state machine *)
Record ChainLeader := mkCL { cl_chain : Chain; leader_term_ : Z }.
Definition new_ChainLeader (c : Chain) : ChainLeader := mkCL c (-1).

Definition node_at (g : Z) (c : Chain) : outcome nat :=
  if (0 <=? g) && (g <? Z.of_nat (node_count c)) then Ok (Z.to_nat g) else Fatal OutOfRange.

Definition on_leader_start (leads : nat → bool) (term : Z) (s : ChainLeader) : outcome ChainLeader :=
  g ← node_at (leader_group_id (cl_chain s)) (cl_chain s);
  Ok (if leads g then mkCL (cl_chain s) term else s).
Definition on_leader_stop (leads : nat → bool) (s : ChainLeader) : outcome ChainLeader :=
  g ← node_at (leader_group_id (cl_chain s)) (cl_chain s);
  Ok (if leads g then s else mkCL (cl_chain s) (-1)).

(** Snapshots are empty. *)
Definition on_snapshot_load (s : ChainLeader) : outcome Z := CHECK (leader_term_ s =? -1);; Ok 0.
Definition save_snapshot (added : Z) (path : string) (fs : gmap string (list N)) : outcome (gmap string (list N)) :=
  let fs := <[String.append path "/data" := []]> fs in
  CHECK (added =? 0);; Ok fs.

(** ** Every server leads its group *)
Section Cluster.
Context (ips : list string).

(** The leader of each group; a transfer that is accepted makes the peer the
    leader. *)
Definition leaders := nat → option nat.
Definition leads_of (ls : leaders) (s g : nat) : bool := bool_decide (ls g = Some s).
Definition elect (ls : leaders) (t : nat * peer) : leaders := λ g,
  if decide (g = t.1) then list_find (λ ip, end_point ip 18100 = t.2.1) ips ≫= λ x, Some x.1 else ls g.

(** Server [s] runs [refreshLeader]. *)
Definition refresh_server (s : nat) (ls ls' : leaders) : Prop :=
  ∃ answers ts h, refreshLeader ips (leads_of ls s) answers (mkChain (length ips) (Z.of_nat s) h) = Some (Ok ts) ∧
    ls' = foldl elect ls ts.

Inductive refresh_all : list nat → leaders → leaders → Prop :=
  | ra_nil ls : refresh_all [] ls ls
  | ra_cons s order ls ls1 ls2 : refresh_server s ls ls1 → refresh_all order ls1 ls2 → refresh_all (s :: order) ls ls2.

Lemma refresh_from_spec own leads answers i n ts :
  refresh_from ips own leads answers i n = Some (Ok ts) → (i + n ≤ length ips)%nat →
  ∀ g p, (g, p) ∈ ts ↔ (i ≤ g < i + n)%nat ∧ Z.of_nat g ≠ own ∧ leads g = true ∧
    ∃ ip, ips !! g = Some ip ∧ p = (end_point ip 18100, Z.of_nat g).
Proof.
  revert i ts. induction n as [|n IH]; intros i ts E Hn g p; simpl in E.
  { injection E as <-. split; [by intros ?%not_elem_of_nil|lia]. }
  destruct (Z.eqb_spec (Z.of_nat i) own) as [Ho|Ho].
  { rewrite (IH (S i) ts E) by lia. split; intros (Hg & Hne & Hr); (split; [|by split]); [lia|].
    destruct (decide (g = i)) as [->|]; [done|lia]. }
  unfold at_index in E. destruct (ips !! i) as [ip|] eqn:Ei; [|apply lookup_ge_None in Ei; lia].
  unfold transferLeader in E. destruct (leads i) eqn:El; simpl in E.
  - destruct (transfer_loop (answers i)) as [a|]; [|done]. simpl in E.
    destruct (refresh_from _ _ _ _ (S i) n) as [[l|]|] eqn:Er; simplify_eq/=. rewrite elem_of_cons, (IH (S i) l Er) by lia. split.
    + intros [[= -> ->]|(Hg & Hne & Hr)]; [|split; [lia|by split]]. split; [lia|]. split_and!; [done|done|by exists ip].
    + intros (Hg & Hne & Hl & ip' & Hip & ->). destruct (decide (g = i)) as [->|]; [left; rewrite Ei in Hip; by injection Hip as ->|right].
      split; [lia|]. split_and!; [done|done|by exists ip'].
  - destruct (refresh_from _ _ _ _ (S i) n) as [[l|]|] eqn:Er; simplify_eq/=. rewrite (IH (S i) _ Er) by lia.
    split; intros (Hg & Hne & Hl & Hr); (split; [|by split]); [lia|]. destruct (decide (g = i)) as [->|]; [congruence|lia].
Qed.

(** It returns once every transfer is accepted. *)
Lemma transfer_loop_ends answers : 0 ∈ answers → is_Some (transfer_loop answers).
Proof.
  induction answers as [|a l IH]; [by intros ?%not_elem_of_nil|]. simpl. destruct (Z.eqb_spec a 0); [done|].
  intros [?|?]%elem_of_cons; [congruence|auto].
Qed.
Lemma refresh_from_returns own leads answers i n :
  (i + n ≤ length ips)%nat → (∀ g, 0 ∈ answers g) → ∃ ts, refresh_from ips own leads answers i n = Some (Ok ts).
Proof.
  intros Hn Ha. revert i Hn. induction n as [|n IH]; intros i Hn; simpl; [by eexists|].
  destruct (IH (S i) ltac:(lia)) as [ts Ets]. destruct (_ =? own); [eauto|].
  unfold at_index. destruct (ips !! i) as [ip|] eqn:Ei; [|apply lookup_ge_None in Ei; lia].
  unfold transferLeader. destruct (leads i); simpl; [|rewrite Ets; by eexists].
  destruct (transfer_loop_ends (answers i) (Ha i)) as [? ->]. simpl. rewrite Ets. by eexists.
Qed.

Lemma append_inj_r s t u : String.append s u = String.append t u → s = t.
Proof.
  assert (∀ a b, String.length (String.append a b) = (String.length a + String.length b)%nat) as Hl
    by (intros a b; induction a as [|x a IHa]; [done|exact (f_equal S IHa)]).
  revert t. induction s as [|c s IH]; intros [|d t] E; [done| | |].
  - apply (f_equal String.length) in E. rewrite !Hl in E. simpl in E. lia.
  - apply (f_equal String.length) in E. rewrite !Hl in E. simpl in E. lia.
  - change (String c (String.append s u) = String d (String.append t u)) in E. injection E as -> E. f_equal. by apply IH.
Qed.

Lemma find_server g ip :
  NoDup ips → ips !! g = Some ip → list_find (λ ip', end_point ip' 18100 = end_point ip 18100) ips = Some (g, ip).
Proof.
  intros Hnd Hg. apply list_find_Some. split_and!; [done..|]. intros j y Hj Hlt E%append_inj_r. subst y.
  pose proof (NoDup_lookup _ _ _ _ Hnd Hg Hj). lia.
Qed.

Lemma elect_fold ls ts g :
  NoDup ips → (∀ g p, (g, p) ∈ ts → ∃ ip, ips !! g = Some ip ∧ p = (end_point ip 18100, Z.of_nat g)) →
  foldl elect ls ts g = if decide (g ∈ ts.*1) then Some g else ls g.
Proof.
  intros Hnd. revert ls. induction ts as [|[g' p] ts IH]; intros ls Hp; [done|]. cbn [foldl].
  rewrite IH by (intros ???; apply Hp; by right). simpl.
  destruct (Hp g' p ltac:(by left)) as (ip & Hip & ->).
  destruct (decide (g ∈ ts.*1)) as [Hin|Hin].
  { rewrite decide_True; [done|by right]. }
  unfold elect. simpl. destruct (decide (g = g')) as [->|Hne].
  - rewrite (find_server g' ip) by done. rewrite decide_True; [done|by left].
  - rewrite decide_False; [done|]. by intros [?|?]%elem_of_cons.
Qed.

Lemma refresh_server_spec s ls ls' g :
  NoDup ips → (g < length ips)%nat → refresh_server s ls ls' →
  ls' g = if decide (g ≠ s ∧ ls g = Some s) then Some g else ls g.
Proof.
  intros Hnd Hg (answers & ts & h & E & ->). pose proof (refresh_from_spec _ _ _ _ _ _ E (le_n _)) as Hts.
  rewrite elect_fold; [|done|by intros ?? (_ & _ & _ & ?)%Hts].
  apply decide_ext. rewrite list_elem_of_fmap. unfold leads_of in Hts. split.
  - intros ([g' p] & -> & (_ & Hne & Hl & _)%Hts). apply bool_decide_eq_true in Hl. split; [|done]. simpl in *. intros ->. done.
  - intros [Hne Hl]. destruct (lookup_lt_is_Some_2 ips g Hg) as [ip Hip]. exists (g, (end_point ip 18100, Z.of_nat g)).
    split; [done|]. apply Hts. split; [simpl; lia|]. split_and!; [simpl; lia|by apply bool_decide_eq_true|by exists ip].
Qed.

Lemma refresh_all_spec order ls ls' g :
  NoDup ips → (g < length ips)%nat → refresh_all order ls ls' →
  ls' g = (s ← ls g; Some (if decide (s ∈ order) then g else s)).
Proof.
  intros Hnd Hg Hr. induction Hr as [ls|s order ls ls1 ls2 Hs _ IH].
  { by destruct (ls g). }
  rewrite IH, (refresh_server_spec s ls ls1 g Hnd Hg Hs).
  destruct (decide (g ≠ s ∧ ls g = Some s)) as [[Hne El]|Hno].
  - rewrite El. simpl. rewrite (decide_True (P := s ∈ s :: order)) by (by left). by destruct (decide _).
  - destruct (ls g) as [s'|] eqn:El; [simpl|done]. f_equal. destruct (decide (s' = s)) as [->|Hne].
    + rewrite (decide_True (P := s ∈ s :: order)) by (by left). destruct (decide (g = s)) as [->|]; [by destruct (decide _)|].
      by destruct Hno.
    + apply decide_ext. rewrite elem_of_cons. naive_solver.
Qed.

(** When every server has refreshed, in any order, and no election has come in
    between, each group that has a leader is led by its own server, and that is
    the peer the server sends its messages to. *)
Theorem leaders_settle order ls ls' :
  NoDup ips → (∀ g s, ls g = Some s → s ∈ order) → refresh_all order ls ls' →
  ∀ g, (g < length ips)%nat →
    ls' g = (_ ← ls g; Some g) ∧
    ∃ ip, ips !! g = Some ip ∧ get_leader_block ips (Z.of_nat g) = Ok (end_point ip 18100, Z.of_nat g).
Proof.
  intros Hnd Hall Hr g Hg. split.
  - rewrite (refresh_all_spec order ls ls' g Hnd Hg Hr). destruct (ls g) as [s|] eqn:El; simpl; [|done].
    by rewrite decide_True by (by eapply Hall).
  - destruct (lookup_lt_is_Some_2 ips g Hg) as [ip Hip]. exists ip. split; [done|].
    unfold get_leader_block. rewrite (proj2 (Z.ltb_ge _ 0)) by lia. unfold at_index. by rewrite Nat2Z.id, Hip.
Qed.
End Cluster.

(** ** The term of the chain *)
Section Term.

Inductive callback := LeaderStart (term : Z) | LeaderStop.

(** A server: its chain, which groups it leads, and the callbacks that its nodes
    have still to run. *)
Record role_state := mkRole { ro_chain : ChainLeader; ro_leads : nat → bool; ro_pending : nat → list callback }.

Definition upd {A} (f : nat → A) (g : nat) (x : A) : nat → A := λ g', if decide (g' = g) then x else f g'.
Definition run_callback (leads : nat → bool) (c : callback) (s : ChainLeader) : outcome ChainLeader :=
  match c with LeaderStart term => on_leader_start leads term s | LeaderStop => on_leader_stop leads s end.

Inductive role_step (s : role_state) : role_state → Prop :=
  | ro_elected g term : 0 ≤ term →
      role_step s (mkRole (ro_chain s) (upd (ro_leads s) g true) (upd (ro_pending s) g (ro_pending s g ++ [LeaderStart term])))
  | ro_stepped_down g :
      role_step s (mkRole (ro_chain s) (upd (ro_leads s) g false) (upd (ro_pending s) g (ro_pending s g ++ [LeaderStop])))
  | ro_callback g c rest ch :
      ro_pending s g = c :: rest → run_callback (ro_leads s) c (ro_chain s) = Ok ch →
      role_step s (mkRole ch (ro_leads s) (upd (ro_pending s) g rest)).

Definition new_role (c : Chain) : role_state := mkRole (new_ChainLeader c) (λ _, false) (λ _, []).

Definition starts (c : callback) : bool := match c with LeaderStart _ => true | LeaderStop => false end.
Definition term_ok (c : callback) : Prop := match c with LeaderStart t => 0 ≤ t | LeaderStop => True end.

Context (c : Chain) (own : nat) (Hown : node_at (leader_group_id c) c = Ok own).

Record role_ok (s : role_state) : Prop := {
  rk_chain : cl_chain (ro_chain s) = c;
  rk_terms g : Forall term_ok (ro_pending s g);
  rk_last : ro_pending s own ≠ [] → starts <$> last (ro_pending s own) = Some (ro_leads s own);
  rk_term : ro_pending s own = [] → (leader_term_ (ro_chain s) = -1 ∧ ro_leads s own = false) ∨
    (0 ≤ leader_term_ (ro_chain s) ∧ ro_leads s own = true) }.

Lemma change_ok s g b cb :
  role_ok s → term_ok cb → starts cb = b →
  role_ok (mkRole (ro_chain s) (upd (ro_leads s) g b) (upd (ro_pending s) g (ro_pending s g ++ [cb]))).
Proof.
  intros [H1 H2 H3 H4] Ht Hb. split; simpl; [done| | |]; unfold upd.
  - intros g'. destruct (decide (g' = g)); [|done]. apply Forall_app. split; [done|by constructor].
  - destruct (decide (own = g)); [|done]. by rewrite last_snoc, <-Hb.
  - destruct (decide (own = g)); [|done]. intros E. by destruct (ro_pending s g).
Qed.

Lemma role_callback_ok s g cb rest ch :
  role_ok s → ro_pending s g = cb :: rest → run_callback (ro_leads s) cb (ro_chain s) = Ok ch →
  role_ok (mkRole ch (ro_leads s) (upd (ro_pending s) g rest)).
Proof.
  intros [H1 H2 H3 H4] Hp Hr. pose proof (H2 g) as Hterms. rewrite Hp in Hterms. apply Forall_cons in Hterms as [Hcb Hrest].
  assert (cl_chain ch = c ∧
    leader_term_ ch = match cb with
      | LeaderStart t => if ro_leads s own then t else leader_term_ (ro_chain s)
      | LeaderStop => if ro_leads s own then leader_term_ (ro_chain s) else -1 end) as [Hc Ht].
  { destruct cb; simpl in Hr; unfold on_leader_start, on_leader_stop in Hr; rewrite H1, Hown in Hr; simpl in Hr;
      destruct (ro_leads s own); injection Hr as <-; done. }
  split; simpl; [done| | |].
  - intros g'. unfold upd. by destruct (decide (g' = g)).
  - unfold upd. destruct (decide (own = g)) as [<-|]; [|done]. intros Hne. rewrite <-H3 by (by rewrite Hp).
    rewrite Hp. by destruct rest.
  - rewrite Ht. unfold upd. destruct (decide (own = g)) as [<-|].
    + intros ->. specialize (H3 ltac:(by rewrite Hp)). rewrite Hp in H3. simpl in H3.
      destruct cb; simpl in *; injection H3 as <-; auto.
    + intros E. destruct (H4 E) as [[E1 E2]|[E1 E2]]; rewrite E2; [left|right]; destruct cb; simpl in *; auto.
Qed.

(** Though the callbacks of all groups end in one chain, and run late, the term
    tells whether the server leads its own group once the callbacks of that
    group have run.  So a snapshot, of whatever group, is loaded if the server
    does not lead its own group, and stops the process if it does. *)
Theorem leader_term_exact s :
  rtc role_step (new_role c) s → ro_pending s own = [] →
  (leader_term_ (ro_chain s) ≠ -1 ↔ ro_leads s own = true) ∧
  on_snapshot_load (ro_chain s) = (if ro_leads s own then Fatal CheckFailed else Ok 0).
Proof.
  intros Hr He. assert (role_ok s) as Hok.
  { eapply (rtc_invariant role_step); [| |exact Hr].
    - intros s1 s2 Hok Hst. destruct Hst; [by apply change_ok..|by eapply role_callback_ok].
    - split; simpl; try done; auto. }
  unfold on_snapshot_load. destruct (rk_term s Hok He) as [[-> ->]|[Ht ->]]; [done|].
  split; [split; [done|lia]|]. by rewrite (proj2 (Z.eqb_neq _ _)) by lia.
Qed.
End Term.

(** The server with id 2 starts its groups in order; if the first group has
    elected a leader before the third is there, the callback reads beyond the
    list of nodes. *)
Example early_election :
  on_leader_start (λ _, true) 1 (new_ChainLeader (mkChain 1 2 true)) = Fatal OutOfRange.
Proof. reflexivity. Qed.

(** A leader that the route table found by asking is not returned. *)
Example refreshed_leader_lost p : get_leader_from_route_table None true p = (true, p).
Proof. reflexivity. Qed.

(** Three servers, of which the first leads all groups. *)
Example first_hands_over :
  refreshLeader ["10.0.0.1"; "10.0.0.2"; "10.0.0.3"] (λ _, true) (λ _, [22; 0]) (mkChain 3 0 true) =
  Some (Ok [(1%nat, ("10.0.0.2:18100", 1)); (2%nat, ("10.0.0.3:18100", 2))]).
Proof. reflexivity. Qed.
