(* ===== verification/EpochInput.v ===== *)
(** * The input of an epoch

    The client proxies and the epoch buffers together: every block server has a
    proxy per server, and the calls a proxy makes on its buffer follow the calls
    of the server's own proxy ([ClientProxy]).  This file follows these calls
    through the buffers of [EpochBuffer]: whatever the schedules of their
    threads, two block servers hand the same transactions of an epoch to their
    communication controllers.

    A replica names its transactions by pointers of its own; what replicas share
    is the content of a transaction: id, epoch and payload. *)
From S2P Require Import Prelude Database EpochQueues Transaction TransactionCodec EpochBuffer ClientProxy.
From Stdlib Require Import NArith Lia.
From stdpp Require Import base list gmap strings sorting.

Local Open Scope N_scope.

Definition content (t : Transaction) : N * N * TransactionPayload :=
  (tr_tid t, tr_epoch t, transactionPayload t).

(** A call of a proxy on its buffer, by content. *)
Definition bcall : Type := N * N * TransactionPayload + N.
Definition content_of (c : buffer_call) : bcall :=
  match c with Push t => inl (content t) | Finish e => inr e end.

Lemma content_of_copy ip c : content_of (copy ip c) = content_of c.
Proof. by destruct c. Qed.

(** ** Call lists
    The calls of a proxy that is in epoch [e]: transactions of its epoch, and
    the end of its epoch.  The result is the epoch it has reached. *)
Fixpoint follow (e : N) (cs : list bcall) : option N :=
  match cs with
  | [] => Some e
  | inl c :: cs => if c.1.2 =? e then follow e cs else None
  | inr e' :: cs => if e' =? e then follow (e + 1) cs else None
  end.

Lemma follow_app e cs1 cs2 : follow e (cs1 ++ cs2) = follow e cs1 ≫= λ e1, follow e1 cs2.
Proof.
  revert e. induction cs1 as [|[c|e'] cs1 IH]; intros e; simpl; [done| |].
  - destruct (_ =? _); [apply IH|done].
  - destruct (_ =? _); [apply IH|done].
Qed.

(** The transactions of epoch [e] in a call list. *)
Definition at_epoch (e : N) (cs : list bcall) : list (N * N * TransactionPayload) :=
  omap (λ c, match c with inl c => if c.1.2 =? e then Some c else None | inr _ => None end) cs.

Lemma at_epoch_app e cs1 cs2 : at_epoch e (cs1 ++ cs2) = at_epoch e cs1 ++ at_epoch e cs2.
Proof. unfold at_epoch. by rewrite omap_app. Qed.

(** A proxy beyond an epoch makes no more calls for it. *)
Lemma follow_past e e1 cs : is_Some (follow e1 cs) → e < e1 → at_epoch e cs = [].
Proof.
  revert e1. induction cs as [|[c|e'] cs IH]; intros e1 Hf Hlt; simpl in *; [done| |].
  - destruct (N.eqb_spec c.1.2 e1) as [Hc|]; [|by destruct Hf].
    rewrite (proj2 (N.eqb_neq _ _)) by lia. by apply (IH e1).
  - destruct (N.eqb_spec e' e1); [|by destruct Hf]. apply (IH (e1 + 1)); [done|lia].
Qed.

(** What a remote proxy accepts is such a list. *)
Lemma clean_follow `{Protobuf} rsa ip e e' cs : clean rsa ip e e' cs → follow e (content_of <$> cs) = Some e'.
Proof.
  induction 1 as [|e' cs t _ IH Ht _ _|e' cs _ IH]; [done| |]; rewrite fmap_app, follow_app, IH; simpl.
  - by rewrite Ht, N.eqb_refl.
  - by rewrite N.eqb_refl.
Qed.

(** ** One replica *)
Section Replica.
Context (n : nat) (obj : txn_ptr → Transaction).

Definition epoch_of_ptr (t : txn_ptr) : N := tr_epoch (obj t).

Inductive pcall := PPush (t : txn_ptr) | PFinish (e : N).
Definition pcontent (c : pcall) : bcall :=
  match c with PPush t => inl (content (obj t)) | PFinish e => inr e end.

Local Notation step := (eb_step false n epoch_of_ptr).

(** A run of the buffers with the calls of the producers, in order. *)
Inductive traced (start : N) : list (nat * pcall) → EpochBuffers → Prop :=
  | tr_start : traced start [] (new_buffers n start)
  | tr_push tr s i p t s' :
      traced start tr s → proxies s !! i = Some p → pr_handing p = None → epoch_of_ptr t = pr_epoch p →
      t ∉ pushed s → pushTransactionToBuffer false n epoch_of_ptr i p t s = Ok s' →
      traced start (tr ++ [(i, PPush t)]) s'
  | tr_finish tr s i p :
      traced start tr s → proxies s !! i = Some p → pr_handing p = None →
      traced start (tr ++ [(i, PFinish (pr_epoch p))]) (asyncEmptyBuffer i p s)
  | tr_other tr s s' :
      traced start tr s → step s s' → pushed s' = pushed s → pr_epoch <$> proxies s' = pr_epoch <$> proxies s →
      traced start tr s'.

Definition calls_of (i : nat) (tr : list (nat * pcall)) : list pcall :=
  omap (λ c, if (c.1 =? i)%nat then Some c.2 else None) tr.
Definition pushes_of (tr : list (nat * pcall)) : list txn_ptr :=
  omap (λ c, match c.2 with PPush t => Some t | PFinish _ => None end) tr.

Lemma traced_run start tr s : traced start tr s → eb_run false n epoch_of_ptr start s.
Proof.
  induction 1 as [|tr s i p t s' _ IH Hi Hh Ht Hn E|tr s i p _ IH Hi Hh|tr s s' _ IH Hs _ _].
  - apply eb_start.
  - eapply eb_next; [exact IH|]. by eapply st_push.
  - eapply eb_next; [exact IH|]. by eapply st_epoch.
  - by eapply eb_next.
Qed.

(** Only a producer's own calls change its epoch or what is pushed. *)
Lemma epochs_set_pr (i : nat) p q (l : list Proxy) : l !! i = Some p → pr_epoch q = pr_epoch p → pr_epoch <$> <[i := q]> l = pr_epoch <$> l.
Proof.
  intros Hi Hq. rewrite list_fmap_insert, Hq. apply list_insert_id. by rewrite list_lookup_fmap, Hi.
Qed.

Lemma epochs_wake (l : list Proxy) : pr_epoch <$> (wake <$> l) = pr_epoch <$> l.
Proof. rewrite <-list_fmap_compose. apply list_fmap_ext. intros i p _. simpl. unfold wake. by destruct (pr_worker p). Qed.

Lemma empty_one_same i p e s s' :
  proxies s !! i = Some p → empty_one epoch_of_ptr i p e s = Some (Ok s') →
  pushed s' = pushed s ∧ pr_epoch <$> proxies s' = pr_epoch <$> proxies s.
Proof.
  intros Hi E. unfold empty_one in E. destruct (in_range e); [|done].
  destruct (queue e (buffer p)) as [|t ts]; [done|]. injection E as E.
  apply outcome_bind_Ok in E as (? & _ & E). injection E as <-. split; [done|]. by eapply epochs_set_pr.
Qed.

(** Every run has its calls. *)
Lemma run_traced start s : eb_run false n epoch_of_ptr start s → ∃ tr, traced start tr s.
Proof.
  induction 1 as [|s s' _ [tr Htr] Hstep]; [exists []; constructor|].
  pose proof Hstep as Hstep'.
  destruct Hstep as [i p t s' Hi Hh Ht Hn E|i p t s' Hi Hh E|i p t Hi Hh Hq|i p Hi Hh
    |i p e es Hi Hw Hwl|i p e s' Hi Hw Hl E|i p e Hi Hw Hq].
  - exists (tr ++ [(i, PPush t)]). by eapply tr_push.
  - exists tr. destruct (empty_one_same i p _ s s' Hi E). by eapply tr_other.
  - exists tr. eapply tr_other; [done|exact Hstep'|done|]. by eapply epochs_set_pr.
  - exists (tr ++ [(i, PFinish (pr_epoch p))]). by eapply tr_finish.
  - exists tr. eapply tr_other; [done|exact Hstep'| |].
    + unfold await. by destruct (_ <=? _)%nat.
    + unfold await. destruct (_ <=? _)%nat; simpl.
      * rewrite (epochs_set_pr i (wake p)); [apply epochs_wake|by rewrite list_lookup_fmap, Hi|].
        unfold wake. by destruct (pr_worker p).
      * by rewrite (epochs_set_pr i p).
  - exists tr. destruct (empty_one_same i p _ s s' Hi E). by eapply tr_other.
  - exists tr. eapply tr_other; [done|exact Hstep'|done|]. by eapply epochs_set_pr.
Qed.

Lemma calls_of_snoc j tr i c :
  calls_of j (tr ++ [(i, c)]) = calls_of j tr ++ (if (i =? j)%nat then [c] else []).
Proof. unfold calls_of. rewrite omap_app. simpl. by destruct (i =? j)%nat. Qed.

Record trace_ok (start : N) (tr : list (nat * pcall)) (s : EpochBuffers) : Prop := {
  to_len : length (proxies s) = n;
  to_index : Forall (λ c, (c.1 < n)%nat) tr;
  to_pushed : pushed s = pushes_of tr;
  to_follow i p : proxies s !! i = Some p → follow start (pcontent <$> calls_of i tr) = Some (pr_epoch p) }.

(** A call of producer [i] that moves it from [p] to [q]. *)
Lemma call_ok start tr s i p q c s' :
  trace_ok start tr s → proxies s !! i = Some p → proxies s' = <[i := q]> (proxies s) →
  pushed s' = pushed s ++ pushes_of [(i, c)] → follow (pr_epoch p) [pcontent c] = Some (pr_epoch q) →
  trace_ok start (tr ++ [(i, c)]) s'.
Proof.
  intros [] Hi Hp Hpush Hf. pose proof (lookup_lt_Some _ _ _ Hi) as Hlt. split.
  - by rewrite Hp, length_insert.
  - apply Forall_app. split; [done|]. constructor; [|done]. simpl. lia.
  - rewrite Hpush, to_pushed0. unfold pushes_of. by rewrite omap_app.
  - intros j p' Hj. rewrite calls_of_snoc, fmap_app, follow_app. rewrite Hp in Hj.
    destruct (Nat.eqb_spec i j) as [<-|Hne].
    + rewrite list_lookup_insert_eq in Hj by done. injection Hj as <-. by rewrite (to_follow0 i p Hi).
    + rewrite list_lookup_insert_ne in Hj by done. by rewrite (to_follow0 j p' Hj).
Qed.

Lemma traced_ok start tr s : traced start tr s → trace_ok start tr s.
Proof.
  induction 1 as [|tr s i p t s' _ IH Hi Hh Ht Hn E|tr s i p _ IH Hi Hh|tr s s' _ IH Hs Hpush Hep].
  - split; [apply length_replicate|done|done|]. intros i p Hi. simpl in Hi. by apply lookup_replicate in Hi as [-> _].
  - unfold pushTransactionToBuffer in E. apply outcome_bind_Ok in E as (? & _ & E). injection E as <-.
    eapply (call_ok start tr s i p); [done|done|reflexivity|done|]. simpl.
    unfold epoch_of_ptr in Ht. by rewrite Ht, N.eqb_refl.
  - eapply (call_ok start tr s i p); [done|done|reflexivity| |].
    + simpl. by rewrite app_nil_r.
    + simpl. by rewrite N.eqb_refl.
  - destruct IH. split; [|done|congruence|].
    + rewrite <-(length_fmap pr_epoch), Hep. by rewrite length_fmap.
    + intros i p' Hi. assert ((pr_epoch <$> proxies s) !! i = Some (pr_epoch p')) as Hi'
        by (by rewrite <-Hep, list_lookup_fmap, Hi).
      rewrite list_lookup_fmap in Hi'. destruct (proxies s !! i) as [p|] eqn:Hp; [|done].
      injection Hi' as <-. by apply to_follow0.
Qed.

(** *** What is handed over *)
Definition closed (e : N) (s : EpochBuffers) : Prop :=
  e + 1 < globalProcessingEpoch s ∨ (e < globalProcessingEpoch s ∧ currentEpochPushedToQueueCnt s = n).

Lemma handed_epoch start tr s e :
  (0 < n)%nat → traced start tr s → closed e s →
  filter (λ t, epoch_of_ptr t = e) (handed s) ≡ₚ filter (λ t, epoch_of_ptr t = e) (pushed s).
Proof.
  intros Hn Htr Hcl. pose proof (run_ok false n epoch_of_ptr start s Hn (traced_run start tr s Htr)) as Hs.
  rewrite (eo_pushed _ _ _ _ Hs), filter_app. rewrite (filter_keeps_none _ (gather held (proxies s))); [by rewrite app_nil_r|].
  intros t (i & p & Hi & Ht)%gather_inv He. apply (nothing_held false n epoch_of_ptr s i p t); [done..|]. by rewrite He.
Qed.

Lemma pushes_at_epoch e tr :
  (λ t, content (obj t)) <$> filter (λ t, epoch_of_ptr t = e) (pushes_of tr) = at_epoch e (pcontent <$> tr.*2).
Proof.
  induction tr as [|[i [t|e']] tr IH]; simpl; [done| |done]. unfold pushes_of. simpl. rewrite filter_cons.
  change (at_epoch e (inl (content (obj t)) :: (pcontent <$> tr.*2)))
    with (match (if tr_epoch (obj t) =? e then Some (content (obj t)) else None) with
          | Some c => c :: at_epoch e (pcontent <$> tr.*2) | None => at_epoch e (pcontent <$> tr.*2) end).
  unfold epoch_of_ptr at 1. destruct (N.eqb_spec (tr_epoch (obj t)) e).
  - rewrite decide_True by done. simpl. f_equal. apply IH.
  - rewrite decide_False by done. apply IH.
Qed.

(** The calls of all producers, producer by producer. *)
Lemma by_producer e tr :
  Forall (λ c, (c.1 < n)%nat) tr →
  at_epoch e (pcontent <$> tr.*2) ≡ₚ concat ((λ i, at_epoch e (pcontent <$> calls_of i tr)) <$> seq 0 n).
Proof.
  induction tr as [|[i c] tr IH] using rev_ind; intros Hlt.
  { clear. induction (seq 0 n); simpl; [done|]. done. }
  apply Forall_app in Hlt as [Htr Hi]. apply Forall_cons in Hi as [Hi _]. simpl in Hi.
  rewrite !fmap_app, at_epoch_app, IH by done. simpl.
  assert (seq 0 n = seq 0 i ++ i :: seq (S i) (n - S i)) as Eseq.
  { change (i :: seq (S i) (n - S i)) with (seq (0 + i) (S (n - S i))). rewrite <-seq_app. f_equal. lia. }
  rewrite Eseq, !fmap_app, !concat_app. simpl. rewrite calls_of_snoc, Nat.eqb_refl, fmap_app, at_epoch_app. simpl.
  assert (∀ l : list nat, i ∉ l → (λ j, at_epoch e (pcontent <$> calls_of j (tr ++ [(i, c)]))) <$> l =
    (λ j, at_epoch e (pcontent <$> calls_of j tr)) <$> l) as Hrest.
  { intros l Hl. apply list_fmap_ext. intros k j Hj. rewrite calls_of_snoc.
    rewrite (proj2 (Nat.eqb_neq i j)); [by rewrite app_nil_r|]. intros <-. by apply Hl, (list_elem_of_lookup_2 _ k). }
  rewrite !Hrest by (rewrite elem_of_seq; lia). rewrite <-!app_assoc. apply Permutation_app_head, Permutation_app_head.
  apply Permutation_app_comm.
Qed.

(** The transactions of epoch [e] a replica hands over are those of the call
    lists its producers follow. *)
Lemma epoch_input start tr s e (L : nat → list bcall) :
  (0 < n)%nat → traced start tr s → closed e s →
  (∀ i, (i < n)%nat → pcontent <$> calls_of i tr `prefix_of` L i ∧ is_Some (follow start (L i))) →
  (λ t, content (obj t)) <$> filter (λ t, epoch_of_ptr t = e) (handed s) ≡ₚ
  concat ((λ i, at_epoch e (L i)) <$> seq 0 n).
Proof.
  intros Hn Htr Hcl HL. destruct (traced_ok start tr s Htr).
  rewrite (handed_epoch start tr s e) by done. rewrite to_pushed0, pushes_at_epoch, by_producer by done.
  match goal with |- ?a ≡ₚ ?b => enough (a = b) as -> by done end.
  f_equal. apply list_fmap_ext. intros k i [-> Hi]%lookup_seq. simpl in *.
  destruct (HL k Hi) as [[rest HLk] Hf]. rewrite HLk, at_epoch_app.
  destruct (lookup_lt_is_Some_2 (proxies s) k) as [p Hp]; [lia|].
  rewrite HLk, follow_app, (to_follow0 k p Hp) in Hf. simpl in Hf.
  rewrite (follow_past e (pr_epoch p) rest Hf), app_nil_r; [done|].
  pose proof (run_ok false n epoch_of_ptr start s Hn (traced_run start tr s Htr)) as Hs.
  pose proof (worker_le _ _ (px_worker _ _ _ _ (eo_proxy _ _ _ _ Hs k p Hp))). destruct Hcl as [?|[? _]]; lia.
Qed.

End Replica.

(** C23: all block servers execute the same input, without early execution (the
    setting of [4_servers_example.yaml]; with [early_execution: true], as in
    [config_template_local.yaml], the buffers lose transactions,
    [eager_buffer_loses]).  Two servers whose proxies follow the same calls (by content: as the proxies of [ClientProxy] do, up to
    the mark of the sender) and that have closed epoch [e] have handed over the
    same transactions of [e], whatever the schedules of their threads, how far
    the proxies have got beyond [e], and where they keep the transactions. *)
Theorem replicas_same_input n start e (L : nat → list bcall) obj1 tr1 s1 obj2 tr2 s2 :
  (0 < n)%nat → (∀ i, (i < n)%nat → is_Some (follow start (L i))) →
  traced n obj1 start tr1 s1 → (∀ i, (i < n)%nat → pcontent obj1 <$> calls_of i tr1 `prefix_of` L i) → closed n e s1 →
  traced n obj2 start tr2 s2 → (∀ i, (i < n)%nat → pcontent obj2 <$> calls_of i tr2 `prefix_of` L i) → closed n e s2 →
  (λ t, content (obj1 t)) <$> filter (λ t, tr_epoch (obj1 t) = e) (handed s1) ≡ₚ
  (λ t, content (obj2 t)) <$> filter (λ t, tr_epoch (obj2 t) = e) (handed s2).
Proof.
  intros Hn HL H1 P1 C1 H2 P2 C2.
  pose proof (epoch_input n obj1 start tr1 s1 e L Hn H1 C1) as E1.
  pose proof (epoch_input n obj2 start tr2 s2 e L Hn H2 C2) as E2.
  unfold epoch_of_ptr in E1, E2. rewrite E1, E2; [done|auto..].
Qed.

(** ** Two replicas *)
Section Execute.
Context (n : nat) (obj : txn_ptr → Transaction).

Definition trace_exec (a : eb_action) (ts : list (nat * pcall) * EpochBuffers)
    : option (list (nat * pcall) * EpochBuffers) :=
  let '(tr, s) := ts in
  s' ← eb_exec false n (epoch_of_ptr obj) a s;
  match a with
  | APush i t => Some (tr ++ [(i, PPush t)], s')
  | AEpoch i => p ← proxies s !! i; Some (tr ++ [(i, PFinish (pr_epoch p))], s')
  | _ => if bool_decide (pushed s' = pushed s ∧ pr_epoch <$> proxies s' = pr_epoch <$> proxies s)
         then Some (tr, s') else None
  end.

Lemma trace_exec_sound start a tr s tr' s' :
  traced n obj start tr s → trace_exec a (tr, s) = Some (tr', s') → traced n obj start tr' s'.
Proof.
  intros Htr E. unfold trace_exec in E. destruct (eb_exec false n (epoch_of_ptr obj) a s) as [s1|] eqn:Ex; [|done].
  pose proof (eb_exec_sound _ _ _ _ _ _ Ex) as Hstep. simpl in E.
  destruct a as [i t|i|i|i|i|i]; simpl in E;
    try (case_bool_decide as Hq; [|done]; simplify_eq; destruct Hq; by eapply tr_other).
  - simplify_eq. simpl in Ex. destruct (proxies s !! i) as [p|] eqn:Hi; [|done]. simpl in Ex.
    case_bool_decide as Hp; [|done]. destruct Hp as (? & ? & ?). apply ok_some_inv in Ex. by eapply tr_push.
  - simpl in Ex. destruct (proxies s !! i) as [p|] eqn:Hi; [|done]. simpl in E, Ex. simplify_eq.
    destruct (pr_handing p) eqn:Hh; [done|]. simplify_eq. by eapply tr_finish.
Qed.

Definition trace_all (start : N) (l : list eb_action) : list (nat * pcall) * EpochBuffers :=
  foldl (λ ts a, default ts (trace_exec a ts)) ([], new_buffers n start) l.

Lemma trace_all_sound start l : traced n obj start (trace_all start l).1 (trace_all start l).2.
Proof.
  unfold trace_all. assert (∀ ts, traced n obj start ts.1 ts.2 →
    let ts' := foldl (λ ts a, default ts (trace_exec a ts)) ts l in traced n obj start ts'.1 ts'.2) as Hl;
    [|apply Hl, tr_start].
  induction l as [|a l IH]; intros [tr s] Hts; [done|]. apply IH.
  destruct (trace_exec a (tr, s)) as [[tr' s']|] eqn:E; [|done]. by eapply (trace_exec_sound start a tr s).
Qed.

End Execute.

Module TwoReplicas.

Definition txn (i : N) : Transaction := setTransactionID i (setEpoch (i / 10) MockTransaction).
(** The second replica keeps transaction [i] at address [1000 - i]. *)
Definition obj1 (t : txn_ptr) : Transaction := txn t.
Definition obj2 (t : txn_ptr) : Transaction := txn (1000 - t).

(** Two proxies: transactions 10, 20 and 11. *)
Definition L (i : nat) : list bcall :=
  match i with
  | O => [inl (content (txn 10)); inr 1; inl (content (txn 20)); inr 2]
  | _ => [inl (content (txn 11)); inr 1; inr 2]
  end.

Definition acts1 : list eb_action :=
  [APush 0 10; APush 1 11; AEpoch 1; ATask 1; AEpoch 0; APush 0 20; ATask 0; AEmpty 1; AEmpty 0; ASignal 0; ASignal 1].
Definition acts2 : list eb_action :=
  [APush 1 989; AEpoch 1; ATask 1; APush 0 990; AEpoch 0; ATask 0; AEmpty 0; ASignal 0; AEmpty 1; ASignal 1].

Lemma replicas_same_input_witness :
  handed (trace_all 2 obj1 1 acts1).2 = [11; 10] ∧ handed (trace_all 2 obj2 1 acts2).2 = [990; 989] ∧
  ((λ t, content (obj1 t)) <$> filter (λ t, tr_epoch (obj1 t) = 1) (handed (trace_all 2 obj1 1 acts1).2)) ≡ₚ
  ((λ t, content (obj2 t)) <$> filter (λ t, tr_epoch (obj2 t) = 1) (handed (trace_all 2 obj2 1 acts2).2)).
Proof.
  split; [vm_compute; reflexivity|]. split; [vm_compute; reflexivity|].
  apply (replicas_same_input 2 1 1 L obj1 (trace_all 2 obj1 1 acts1).1 (trace_all 2 obj1 1 acts1).2
    obj2 (trace_all 2 obj2 1 acts2).1 (trace_all 2 obj2 1 acts2).2); [lia| | | | | | |].
  - intros [|[|i]] Hi; [by eexists; vm_compute|by eexists; vm_compute|lia].
  - apply trace_all_sound.
  - intros [|[|i]] Hi; [|by eexists; vm_compute|lia]. by eexists; vm_compute.
  - right. vm_compute. done.
  - apply trace_all_sound.
  - intros [|[|i]] Hi; [|by eexists; vm_compute|lia]. by eexists; vm_compute.
  - right. vm_compute. done.
Defined.

End TwoReplicas.
