(* ===== verification/System.v ===== *)
(** * Coordinator, workers and executors together

    The protocol of [Protocol] decides when a worker calls [executeList] and
    [commitList]; this file runs the calls of a finished epoch, in the order in
    which they happened, on the shared state of [Executor], and concludes with
    the theorems of [Aria]. *)
From S2P Require Import Prelude Transaction Storage Orm Database ReserveTable Executor Aria.
From S2P Require Import Coordinator Protocol.
From stdpp Require Import base list gmap strings.

Section System.
Context {S : Type} `{TableStorage S}.
Context (invoke : string → string → CC S Z).
Context (debug : bool).

(** The executors' pointers to the reserve table, by worker, and the shared
    state. *)
Definition run_event (ev : event) (s : gmap nat (option N) * exec_state S)
    : outcome (gmap nat (option N) * exec_state S) :=
  match ev with
  | EvExec i l =>
      '(_, rt, st) ← executeList invoke debug l (default None (s.1 !! i)) s.2;
      Ok (<[i := rt]> s.1, st)
  | EvCommit i l =>
      '(_, st) ← commitList debug l (default None (s.1 !! i)) s.2; Ok (s.1, st)
  end.

Definition run_log (log : list event) (s : gmap nat (option N) * exec_state S)
    : outcome (gmap nat (option N) * exec_state S) := foldM run_event log s.

Context {HL : ∀ h p, Local (invoke h p)}.
Context (e : N) (loads : list (list N)) (st0 : exec_state S).
Local Notation ps := (concat loads).
Context (Hready : epoch_ready invoke e ps st0).

(** The pointers after the executions of [xs]. *)
Definition pointers_ok (xs : list (nat * list N)) (rts : gmap nat (option N)) : Prop :=
  ∀ i l, (i, l) ∈ xs → l ≠ [] → rts !! i = Some (Some e).

Lemma concat_snd_snoc (dn : list (nat * list N)) i l :
  concat (dn ++ [(i, l)]).*2 = concat dn.*2 ++ l.
Proof. rewrite fmap_app, concat_app. simpl. by rewrite app_nil_r. Qed.

Lemma run_executions xs dn rts st :
  Aria.between invoke e st0 (concat dn.*2) st → pointers_ok dn rts →
  NoDup (dn ++ xs).*1 → NoDup (concat (dn ++ xs).*2) → (∀ p, p ∈ concat (dn ++ xs).*2 → p ∈ ps) →
  ∃ rts' st', run_log ((λ p, EvExec p.1 p.2) <$> xs) (rts, st) = Ok (rts', st') ∧
    Aria.between invoke e st0 (concat (dn ++ xs).*2) st' ∧ pointers_ok (dn ++ xs) rts'.
Proof.
  revert dn rts st. induction xs as [|[i l] xs IH]; intros dn rts st Hb Hp Hn1 Hn2 Hin.
  { exists rts, st. by rewrite app_nil_r. }
  rewrite (assoc_L (++) dn [(i, l)] xs : dn ++ (i, l) :: xs = (dn ++ [(i, l)]) ++ xs) in *.
  pose proof Hn2 as Hn2'. pose proof Hin as Hin'.
  rewrite fmap_app, concat_app in Hn2', Hin'. rewrite concat_snd_snoc in Hn2', Hin'.
  destruct (executeList_between invoke debug e ps st0 Hready l (default None (rts !! i))
    (concat dn.*2) st Hb) as (b & rt & st1 & E1 & Hb1 & Hrt).
  { by apply NoDup_app in Hn2' as (? & _ & _). }
  { intros p Hpl. apply Hin', elem_of_app. by left. }
  destruct (IH (dn ++ [(i, l)]) (<[i := rt]> rts) st1) as (rts' & st' & E2 & Hb2 & Hp2).
  - by rewrite concat_snd_snoc.
  - intros j k Hj Hk. apply elem_of_app in Hj as [Hj|Hj%list_elem_of_singleton].
    + rewrite lookup_insert_ne; [by eapply Hp|]. intros <-.
      rewrite fmap_app in Hn1. apply NoDup_app in Hn1 as (Hn1 & _ & _).
      rewrite fmap_app in Hn1. apply NoDup_app in Hn1 as (_ & Hd & _).
      apply (Hd i); [|by left]. apply list_elem_of_fmap. by exists (i, k).
    + simplify_eq. rewrite lookup_insert_eq. f_equal. by apply Hrt.
  - done.
  - done.
  - done.
  - exists rts', st'. split_and!; [|done|done]. unfold run_log in *. simpl. rewrite E1. done.
Qed.

Lemma run_commits ex ys dn rts st :
  commit_inv invoke e ps st0 ex (concat dn.*2) st →
  pointers_ok ys rts → NoDup (concat (dn ++ ys).*2) → (∀ p, p ∈ concat ys.*2 → p ∈ ps) →
  ∃ st', run_log ((λ p, EvCommit p.1 p.2) <$> ys) (rts, st) = Ok (rts, st') ∧
    commit_inv invoke e ps st0 ex (concat (dn ++ ys).*2) st'.
Proof.
  revert dn st. induction ys as [|[i l] ys IH]; intros dn st Hci Hp Hnd Hin.
  { exists st. by rewrite app_nil_r. }
  rewrite (assoc_L (++) dn [(i, l)] ys : dn ++ (i, l) :: ys = (dn ++ [(i, l)]) ++ ys) in *.
  pose proof Hnd as Hnd'. rewrite fmap_app, concat_app, concat_snd_snoc in Hnd'.
  destruct (commitList_inv invoke debug e ps st0 Hready ex l (default None (rts !! i))
    (concat dn.*2) st Hci) as (st1 & E1 & Hci1).
  { intros Hl. rewrite (Hp i l); [done|by left|done]. }
  { by apply NoDup_app in Hnd' as (? & _ & _). }
  { intros p Hpl. apply Hin. rewrite fmap_cons. simpl. apply elem_of_app. by left. }
  destruct (IH (dn ++ [(i, l)]) st1) as (st' & E2 & Hci2).
  - by rewrite concat_snd_snoc.
  - intros j k Hj. apply Hp. by right.
  - done.
  - intros p Hpl. apply Hin. rewrite fmap_cons. simpl. apply elem_of_app. by right.
  - exists st'. split; [|done]. unfold run_log in *. simpl. rewrite E1. done.
Qed.

(** Running the log of a finished epoch. *)
Lemma run_epoch_log log rts :
  ps ≠ [] → epoch_log_ok (loads, log) →
  ∃ rts' st, run_log log (rts, st0) = Ok (rts', st) ∧ epoch_result invoke e ps st0 st ∧
    mrt_epoch <$> ex_table st = Some e.
Proof.
  intros Hne (xs & ys & Elog & Hn1 & Hyx & Hxl). simpl in *.
  assert (concat xs.*2 ≡ₚ ps) as Hx by (by rewrite Hxl).
  assert (concat ys.*2 ≡ₚ ps) as Hy by (by rewrite Hyx).
  pose proof (er_nodup _ _ _ _ Hready) as Hnd.
  destruct (run_executions xs [] rts st0) as (rts1 & st1 & E1 & Hb & Hp); simpl.
  { by left. }
  { intros i l Hi. by apply not_elem_of_nil in Hi. }
  { done. }
  { by rewrite Hx. }
  { intros p. by rewrite Hx. }
  simpl in Hb, Hp. destruct Hb as [[Hnil _]|Hinv].
  { rewrite Hnil in Hx. by apply Permutation_nil_l in Hx. }
  pose proof (read_commit_inv invoke e ps st0 (concat xs.*2) Hx st1 Hinv) as Hci.
  destruct (run_commits (concat xs.*2) ys [] rts1 st1 Hci) as (st2 & E2 & Hci2); simpl.
  { intros i l Hi. apply Hp. by rewrite <-Hyx. }
  { by rewrite Hy. }
  { intros p. by rewrite Hy. }
  exists rts1, st2. split.
  - rewrite Elog. unfold log_of, run_log in *. rewrite foldM_app, E1. simpl. done.
  - split; [by eapply (commit_inv_result invoke e ps st0 Hready (concat xs.*2) (concat ys.*2) st2)|].
    destruct (ci_table _ _ _ _ _ _ _ Hci2) as (tb & -> & Htb & _). simpl. by rewrite Htb, reserve_all_epoch.
Qed.

End System.

Section EndToEnd.
Context {S : Type} `{TableStorage S}.
Context (invoke : string → string → CC S Z) {HL : ∀ h p, Local (invoke h p)}.
Context (debug : bool).

(** C2: end to end.  In any reachable state of the coordinator and its workers,
    take a finished epoch and run the calls its workers made, in the order in
    which they happened, on a state ready for the epoch's transactions: no call
    stops the process, the committed transactions are those of a serial
    execution in [serial_order], and the storage holds what that serial
    execution leaves. *)
Theorem system_epoch_serializable loads0 s loads log e (st0 : exec_state S) rts :
  rtc step (cinit loads0) s → (loads, log) ∈ c_history s →
  concat loads ≠ [] → epoch_ready invoke e (concat loads) st0 →
  ∃ rts' st s', run_log invoke debug log (rts, st0) = Ok (rts', st) ∧
    serial_exec invoke st0 (serial_order invoke e (concat loads) st0) (storage (ex_db st0)) =
      Ok (recorded invoke st0 <$> serial_order invoke e (concat loads) st0, s') ∧
    (∀ c, view (storage (ex_db st)) c = view s' c) ∧
    (∀ p, p ∈ concat loads → ∃ t, ex_heap st !! p = Some t ∧
       kvRWSet t = (recorded invoke st0 p).2 ∧
       (transactionResult t = COMMIT ↔ p ∈ serial_order invoke e (concat loads) st0)).
Proof.
  intros Hr Hin Hne Hready. apply reachable_inv in Hr.
  pose proof (iv_hist _ Hr) as Hh. rewrite Forall_forall in Hh. specialize (Hh _ Hin).
  destruct (run_epoch_log invoke debug e loads st0 Hready log rts Hne Hh) as (rts' & st & E & Hres & _).
  destruct (result_serializable invoke e (concat loads) st0 Hready st Hres) as (s' & ? & ? & ?).
  by exists rts', st, s'.
Qed.

End EndToEnd.
