(* ===== verification/AriaRuns.v ===== *)
(** * Concrete epochs

    An epoch of SmallBank transactions over the in-memory storage: the
    hypotheses of the theorems of [Aria] hold of it, and its results are
    evaluated. *)
From S2P Require Import Prelude Transaction Storage Orm Database ReserveTable Chaincode SmallBank.
From S2P Require Import ChaincodeManager Executor Aria Coordinator Protocol System.
From stdpp Require Import base list gmap strings.

Module AriaRuns.
#[local] Existing Instances MemLevelDB.mem_storage MemLevelDB.mem_table_storage.
Local Notation store := (gmap string (gmap string string)).

(** A stand-in for the protobuf parser: the arguments separated by commas. *)
Fixpoint split_commas (s acc : string) : list string :=
  match s with
  | EmptyString => [acc]
  | String c s' =>
      if Ascii.eqb c (Ascii.ascii_of_nat 44) then acc :: split_commas s' ""
      else split_commas s' (String.append acc (String c EmptyString))
  end.
Definition parse0 (s : string) : YCSB_PAYLOAD := mkYcsbPayload (split_commas s "") [] "".

Definition cc : string → string → CC store Z :=
  InvokeChaincode parse0 (λ _, []) (λ _, "") (λ _, []) true true SmallBankChaincode.

#[local] Instance cc_local h p : Local (cc h p).
Proof. apply InvokeChaincode_local. Qed.

Definition request (tid : N) (header args : string) : Transaction :=
  mkTransaction 5 tid false empty_rwset PENDING (mkPayload header args tid "") None.

(** 1 pays 2, 2 pays 3 (reads what 11 writes and writes what 11 reads), an
    unrelated deposit, and a payment to oneself, which the chaincode refuses. *)
Definition heap0 : gmap N Transaction :=
  {[101%N := request 11 "sendPayment" "alice,bob,30";
    102%N := request 12 "sendPayment" "bob,carol,10";
    103%N := request 13 "updateSaving" "dave,5";
    104%N := request 14 "getBalance" "dave";
    105%N := request 15 "sendPayment" "erin,erin,1"]}.
Definition ps0 : list N := [101; 102; 103; 104; 105]%N.
Definition state0 : exec_state store :=
  mkExec heap0 (new_DatabaseImpl ∅) (Some (new_MockReserveTable 4)).

(** A decision procedure for [runs_ok] and [fresh_txn]. *)
Definition runs_ok_b (s : store) (t : Transaction) : bool :=
  match run_of cc s t with
  | Ok (_, c) => forallb (λ tb, Nat.eqb (fieldSize tb) 2) (cc_tables c)
  | Fatal _ => false
  end.

Lemma runs_ok_b_sound s t : runs_ok_b s t = true → runs_ok cc s t.
Proof.
  unfold runs_ok_b, runs_ok. destruct (run_of cc s t) as [[r c]|]; [|done].
  intros Hb. exists r, c. split; [done|]. apply Forall_forall. intros tb Htb.
  rewrite forallb_forall in Hb. apply Nat.eqb_eq, Hb. by apply list_elem_of_In.
Qed.

Definition txn_ready_b (e : N) (s : store) (t : Transaction) : bool :=
  bool_decide (tr_epoch t = e ∧ kvRWSet t = empty_rwset ∧ transactionResult t = PENDING ∧
    readOnlyFlag t = false ∧ tr_tid t ≠ 0%N) && runs_ok_b s t.

Definition epoch_ready_b (e : N) (ps : list N) (st : exec_state store) : bool :=
  bool_decide (NoDup ps) &&
  bool_decide (NoDup (omap (λ p, tr_tid <$> ex_heap st !! p) ps)) &&
  forallb (λ p, match ex_heap st !! p with
                | Some t => txn_ready_b e (storage (ex_db st)) t | None => false end) ps &&
  match ex_table st with Some tb => negb (N.eqb (mrt_epoch tb) e) | None => true end.

Lemma NoDup_omap_inj {A B} (f : A → option B) l x y b :
  NoDup (omap f l) → x ∈ l → y ∈ l → f x = Some b → f y = Some b → x = y.
Proof.
  induction l as [|z l IH]; simpl; intros Hnd Hx Hy Ex Ey; [by apply not_elem_of_nil in Hx|].
  assert (∀ w, w ∈ l → f w = Some b → b ∈ omap f l) as Hin
    by (intros w Hw Ew; apply list_elem_of_omap; by exists w).
  apply elem_of_cons in Hx as [->|Hx], Hy as [->|Hy]; try done.
  - rewrite Ex in Hnd. apply NoDup_cons in Hnd as [Hn _]. destruct Hn. eauto.
  - rewrite Ey in Hnd. apply NoDup_cons in Hnd as [Hn _]. destruct Hn. eauto.
  - apply IH; try done. destruct (f z); [by apply NoDup_cons in Hnd as [_ ?]|done].
Qed.

Lemma epoch_ready_b_sound e ps st : epoch_ready_b e ps st = true → epoch_ready cc e ps st.
Proof.
  unfold epoch_ready_b. rewrite !andb_true_iff, !bool_decide_eq_true.
  intros [[[H1 H2] H3] H4]. rewrite forallb_forall in H3.
  assert (∀ p, p ∈ ps → ∃ t, ex_heap st !! p = Some t ∧
    txn_ready_b e (storage (ex_db st)) t = true) as Ht.
  { intros p Hp%list_elem_of_In. specialize (H3 p Hp).
    destruct (ex_heap st !! p) as [t|]; [by exists t|done]. }
  unfold txn_ready_b in Ht. setoid_rewrite andb_true_iff in Ht.
  setoid_rewrite bool_decide_eq_true in Ht. split; [done| | | |].
  - intros p Hp. destruct (Ht p Hp) as (t & Et & (? & ? & ? & ? & ?) & _). by exists t.
  - intros p q t u Hp Hq Et Eu E.
    apply (NoDup_omap_inj (λ p, tr_tid <$> ex_heap st !! p) ps p q (tr_tid t));
      [exact H2|done|done|by rewrite Et|]. rewrite Eu. simpl. by rewrite E.
  - intros tb E. rewrite E in H4. apply negb_true_iff, N.eqb_neq in H4. done.
  - intros p t Hp Et. destruct (Ht p Hp) as (t' & Et' & _ & Hr). simplify_eq.
    by apply runs_ok_b_sound.
Qed.

Lemma ready0 : epoch_ready cc 5 ps0 state0.
Proof. apply epoch_ready_b_sound. vm_compute. reflexivity. Qed.

(** The outcome: the results in the order of [ps0]. *)
Example epoch0_results :
  match aria_epoch cc true [[101; 104]; [102]; [103; 105]]%N reverse state0 with
  | Ok st => (λ p, transactionResult <$> ex_heap st !! p) <$> ps0
  | Fatal _ => []
  end = [Some COMMIT; Some ABORT; Some COMMIT; Some COMMIT; Some ABORT_NO_RETRY].
Proof. vm_compute. reflexivity. Qed.

Lemma reverse_perm {A} (l : list A) : reverse l ≡ₚ l.
Proof. apply reverse_Permutation. Qed.

Lemma aria_serializable_witness :
  ∃ st s', aria_epoch cc true [[101; 104]; [102]; [103; 105]]%N reverse state0 = Ok st ∧
    serial_exec cc state0 (serial_order cc 5 ps0 state0) (storage (ex_db state0)) =
      Ok (recorded cc state0 <$> serial_order cc 5 ps0 state0, s') ∧
    (∀ c, view (storage (ex_db st)) c = view s' c) ∧
    (∀ p, p ∈ ps0 → ∃ t, ex_heap st !! p = Some t ∧ kvRWSet t = (recorded cc state0 p).2 ∧
       (transactionResult t = COMMIT ↔ p ∈ serial_order cc 5 ps0 state0)).
Proof.
  apply (aria_serializable cc true 5 ps0 state0 ready0).
  - discriminate.
  - apply (bool_decide_unpack _). vm_compute. exact I.
  - intros l. apply reverse_perm.
Defined.

(** Two transactions depend on the deposit of 13 only through reads. *)
Example serial_order0 : serial_order cc 5 ps0 state0 = [104; 101; 103]%N.
Proof. vm_compute. reflexivity. Qed.

Lemma aria_deterministic_witness :
  ∃ st1 st2, aria_epoch cc true [[101; 104]; [102]; [103; 105]]%N reverse state0 = Ok st1 ∧
    aria_epoch cc true [[105; 103; 102; 104; 101]]%N id state0 = Ok st2 ∧
    (∀ p, ex_heap st1 !! p = ex_heap st2 !! p) ∧
    ∀ c, view (storage (ex_db st1)) c = view (storage (ex_db st2)) c.
Proof.
  apply (aria_deterministic cc true 5 ps0 state0 ready0).
  - discriminate.
  - apply (bool_decide_unpack _). vm_compute. exact I.
  - apply (bool_decide_unpack _). vm_compute. exact I.
  - intros l. apply reverse_perm.
  - intros l. reflexivity.
Defined.

Lemma aria_commit_rule_witness :
  ∃ st, aria_epoch cc true [[101; 104]; [102]; [103; 105]]%N reverse state0 = Ok st ∧
    ∀ p t, p ∈ ps0 → ex_heap state0 !! p = Some t → ∃ t', ex_heap st !! p = Some t' ∧
      (transactionResult t' = COMMIT ↔
        sim_ret cc (storage (ex_db state0)) t ≠ 0%Z ∧
        ¬ conflict write_cells write_cells
            (reserved cc (storage (ex_db state0)) (ex_heap state0) ps0)
            (sim_rw cc (storage (ex_db state0)) t) (tr_tid t) ∧
        ¬ (conflict read_cells write_cells
             (reserved cc (storage (ex_db state0)) (ex_heap state0) ps0)
             (sim_rw cc (storage (ex_db state0)) t) (tr_tid t) ∧
           conflict write_cells read_cells
             (reserved cc (storage (ex_db state0)) (ex_heap state0) ps0)
             (sim_rw cc (storage (ex_db state0)) t) (tr_tid t))) ∧
      (transactionResult t' = ABORT_NO_RETRY ↔ sim_ret cc (storage (ex_db state0)) t = 0%Z).
Proof.
  apply (aria_commit_rule cc true 5 ps0 state0 ready0).
  - discriminate.
  - apply (bool_decide_unpack _). vm_compute. exact I.
  - intros l. apply reverse_perm.
Defined.

Lemma first_commits (p : N) t :
  p ∈ ps0 → ex_heap state0 !! p = Some t → (11 ≤ tr_tid t)%N.
Proof.
  intros Hp Ht. assert (Forall (λ p, match ex_heap state0 !! p with
    | Some t => (11 <=? tr_tid t)%N = true | None => True end) ps0) as Hall.
  { repeat (constructor; [vm_compute; reflexivity|]). constructor. }
  rewrite Forall_forall in Hall. specialize (Hall p Hp). rewrite Ht in Hall.
  by apply N.leb_le.
Qed.

Lemma aria_progress_witness :
  ∃ st t', aria_epoch cc true [[101; 104]; [102]; [103; 105]]%N reverse state0 = Ok st ∧
    ex_heap st !! 101%N = Some t' ∧ transactionResult t' = COMMIT.
Proof.
  apply (aria_progress cc true 5 ps0 state0 ready0 [[101; 104]; [102]; [103; 105]]%N reverse 101%N
           (request 11 "sendPayment" "alice,bob,30")).
  - discriminate.
  - apply (bool_decide_unpack _). vm_compute. exact I.
  - intros l. apply reverse_perm.
  - by left.
  - vm_compute. reflexivity.
  - vm_compute. discriminate.
  - intros q u Hq Hu _. exact (first_commits q u Hq Hu).
Defined.

Lemma system_epoch_serializable_witness :
  ∃ rts' st s',
    run_log cc true [EvExec 0 ps0; EvCommit 0 ps0] (∅, state0) = Ok (rts', st) ∧
    serial_exec cc state0 (serial_order cc 5 ps0 state0) (storage (ex_db state0)) =
      Ok (recorded cc state0 <$> serial_order cc 5 ps0 state0, s') ∧
    (∀ c, view (storage (ex_db st)) c = view s' c) ∧
    (∀ p, p ∈ ps0 → ∃ t, ex_heap st !! p = Some t ∧ kvRWSet t = (recorded cc state0 p).2 ∧
       (transactionResult t = COMMIT ↔ p ∈ serial_order cc 5 ps0 state0)).
Proof.
  apply (system_epoch_serializable cc true [ps0] (worked ps0) [ps0]
           [EvExec 0 ps0; EvCommit 0 ps0] 5 state0 ∅).
  - exact (run_one_epoch ps0).
  - by left.
  - discriminate.
  - exact ready0.
Defined.

End AriaRuns.
