(* ===== verification/AggregationRuns.v ===== *)
(** * A concrete epoch with aggregation

    Two block servers share the SmallBank epoch of [AriaRuns]; the second keeps
    the transactions at other addresses and in another order. *)
From S2P Require Import Prelude Transaction TransactionCodec Storage Orm Database ReserveTable SmallBank.
From S2P Require Import ChaincodeManager Executor Aria Aggregation AggregatedEpoch AriaRuns.
From S2P Require Import Coordinator Protocol AggregationProtocol AggregationSystem.
From stdpp Require Import base list gmap strings.

Module AggregationRuns.
Import AriaRuns.
#[local] Existing Instances MemLevelDB.mem_storage MemLevelDB.mem_table_storage.
#[local] Existing Instances Varint.varint_protobuf Varint.varint_laws.
#[local] Existing Instance cc_local.

Definition servers : list string := ["10.0.0.1"; "10.0.0.2"]%string.

Definition heap2 : gmap N Transaction :=
  {[201%N := request 11 "sendPayment" "alice,bob,30";
    202%N := request 12 "sendPayment" "bob,carol,10";
    203%N := request 13 "updateSaving" "dave,5";
    204%N := request 14 "getBalance" "dave";
    205%N := request 15 "sendPayment" "erin,erin,1"]}.
Definition ps2 : list N := [205; 203; 204; 201; 202]%N.
Definition state2 : exec_state (gmap string (gmap string string)) :=
  mkExec heap2 (new_DatabaseImpl ∅) None.

Definition start (ip : string) : AggregationBroadcaster :=
  mkAB 4 (N.of_nat (rank ip servers)) (N.of_nat (length servers)) ∅ ∅.
Definition registered (ip : string) (h : txn_heap) (ptrs : list txn_ptr) : AggregationBroadcaster :=
  match foldM (register true h) ptrs (start ip) with Ok b => b | Fatal _ => start ip end.

(** The first server executes the even ids, the second the odd ones. *)
Definition peer1 := mkPeer (registered "10.0.0.1" heap0 ps0) state0 ps0 [[102]; [104]]%N [[101; 103]; [105]]%N.
Definition peer2 := mkPeer (registered "10.0.0.2" heap2 ps2) state2 ps2 [[201; 205]; [203]]%N [[204; 202]]%N.
Definition peers (ip : string) := if decide (ip = "10.0.0.1"%string) then peer1 else peer2.

(** The requests of an epoch, read off a server. *)
Definition entries (h : gmap N Transaction) (ps : list N) : list (N * TransactionPayload) :=
  omap (λ p, t ← h !! p; Some (tr_tid t, transactionPayload t)) ps.
Definition requests : gmap N TransactionPayload := list_to_map (entries heap0 ps0).

Lemma entries_spec h ps tid payload :
  NoDup (entries h ps).*1 →
  (list_to_map (entries h ps) : gmap N TransactionPayload) !! tid = Some payload ↔
  ∃ p t, p ∈ ps ∧ h !! p = Some t ∧ tr_tid t = tid ∧ transactionPayload t = payload.
Proof.
  intros Hnd. rewrite <-elem_of_list_to_map by done. unfold entries. rewrite list_elem_of_omap. split.
  - intros (p & Hp & E). destruct (h !! p) as [t|] eqn:Et; [|done]. injection E as <- <-. by exists p, t.
  - intros (p & t & Hp & Et & <- & <-). exists p. by rewrite Et.
Qed.

Lemma no_tables s (h : gmap N Transaction) (ps : list N) :
  forallb (λ p, match h !! p with
    | Some t => match sim_tables cc s t with [] => true | _ => false end | None => true end) ps = true →
  ∀ p t, p ∈ ps → h !! p = Some t → sim_tables cc s t = [].
Proof.
  rewrite forallb_forall. intros Hall p t Hp%list_elem_of_In Et. specialize (Hall p Hp). rewrite Et in Hall.
  by destruct (sim_tables cc s t).
Qed.

Lemma sets_fit s (h : gmap N Transaction) (ps : list N) :
  forallb (λ p, match h !! p with
    | Some t => rwset_utf8 (kvRWSet (executed cc s t)) &&
        (N.of_nat (length (rwset_SerializeAsString (kvRWSet (executed cc s t)))) <? 2 ^ 31)%N
    | None => true end) ps = true →
  ∀ p t, p ∈ ps → h !! p = Some t → rwset_wire (kvRWSet (executed cc s t)).
Proof.
  rewrite forallb_forall. intros Hall p t Hp%list_elem_of_In Et. specialize (Hall p Hp). rewrite Et in Hall.
  apply andb_true_iff in Hall as [Hu Hl%N.ltb_lt]. by split.
Qed.

Lemma peers_ready k : k ∈ servers → peer_ready cc true servers 5 requests peers k.
Proof.
  intros [->|[->|[]%not_elem_of_nil]%elem_of_cons]%elem_of_cons.
  - split.
    + exact ready0.
    + intros tid payload. apply (entries_spec heap0 ps0). apply (bool_decide_unpack _). by vm_compute.
    + exists (start "10.0.0.1"). split_and!; by vm_compute.
    + apply (bool_decide_unpack _). by vm_compute.
    + apply (bool_decide_unpack _). by vm_compute.
    + intros k' c _. unfold peers. by destruct (decide (k' = _)).
    + apply no_tables. by vm_compute.
    + apply sets_fit. by vm_compute.
  - split.
    + apply epoch_ready_b_sound. by vm_compute.
    + intros tid payload. assert (requests = list_to_map (entries heap2 ps2)) as -> by (by vm_compute).
      apply (entries_spec heap2 ps2). apply (bool_decide_unpack _). by vm_compute.
    + exists (start "10.0.0.2"). split_and!; by vm_compute.
    + apply (bool_decide_unpack _). by vm_compute.
    + apply (bool_decide_unpack _). by vm_compute.
    + intros k' c _. unfold peers. by destruct (decide (k' = _)).
    + apply no_tables. by vm_compute.
    + apply sets_fit. by vm_compute.
Qed.

Lemma aggregation_equivalent_witness :
  ∃ msg, (∀ k, k ∈ servers →
      sent cc true 5 (pr_local (peers k)) (pr_b (peers k)) (pr_st (peers k)) = Ok (msg k)) ∧
    ∃ st st', aggregated_epoch cc true 5 (pr_local peer2) (pr_remote peer2) reverse [msg "10.0.0.1"%string] (pr_b peer2) state2
        = Ok st ∧ aria_epoch cc true [ps2] id state2 = Ok st' ∧
      (∀ p, ex_heap st !! p = ex_heap st' !! p) ∧
      ∀ c, view (storage (ex_db st)) c = view (storage (ex_db st')) c.
Proof.
  destruct (aggregation_equivalent cc true servers) with (e := 5%N) (T := requests) (P := peers) as (msg & Hm & H).
  - apply (bool_decide_unpack _). by vm_compute.
  - exact peers_ready.
  - exists msg. split; [exact Hm|]. apply (H "10.0.0.2"%string [msg "10.0.0.1"%string] reverse [ps2] id).
    + right. by left.
    + discriminate.
    + reflexivity.
    + intros l. apply reverse_perm.
    + reflexivity.
    + reflexivity.
Defined.

(** The servers with one workload of each kind, run by the protocol. *)
Definition merged (k : string) :=
  mkPeer (pr_b (peers k)) (pr_st (peers k)) (pr_txns (peers k)) [concat (pr_local (peers k))] [concat (pr_remote (peers k))].

Lemma merged_ready k : k ∈ servers → peer_ready cc true servers 5 requests merged k.
Proof. intros Hk. destruct (peers_ready k Hk). split; simpl; rewrite ?app_nil_r; done. Qed.

Definition merged_worked (k : string) := agg_worked (concat (pr_local (peers k))) (concat (pr_remote (peers k))).
Definition merged_epoch (k : string) := default ([], []) (head (ac_history (merged_worked k))).

Lemma merged_ran k : k ∈ servers → ran merged (λ k, (merged_epoch k).2) (λ k, (merged_epoch k).1) k.
Proof.
  intros Hk. split.
  - eexists _, (merged_worked k). split; [apply agg_run_one_epoch|]. by left.
  - simpl. apply perm_swap.
  - apply elem_of_cons in Hk as [->|[->|Hk%not_elem_of_nil]%elem_of_cons]; [..|done]; by repeat constructor.
Qed.

Lemma aggregation_system_witness :
  ∃ msg, ∃ s st', run_agg_log cc true 5 [msg "10.0.0.1"%string] (merged_epoch "10.0.0.2").2
        (mkRun ∅ (pr_b (peers "10.0.0.2")) state2 None) = Ok s ∧
      ar_sent s = Some (msg "10.0.0.2"%string) ∧
      aria_epoch cc true [ps2] id state2 = Ok st' ∧
      (∀ p, ex_heap (ar_st s) !! p = ex_heap st' !! p) ∧
      ∀ c, view (storage (ex_db (ar_st s))) c = view (storage (ex_db st')) c.
Proof.
  destruct (aggregation_system cc true servers) with (e := 5%N) (T := requests) (P := merged)
    (lg := λ k, (merged_epoch k).2) (ld := λ k, (merged_epoch k).1) as (msg & H).
  - apply (bool_decide_unpack _). by vm_compute.
  - exact merged_ready.
  - exact merged_ran.
  - exists msg. apply (H "10.0.0.2"%string [msg "10.0.0.1"%string] ∅ [ps2] id).
    + right. by left.
    + discriminate.
    + reflexivity.
    + reflexivity.
    + reflexivity.
Defined.

(** The results on the second server, in the order of [ps0]. *)
Example second_server_results :
  (msg ← sent cc true 5 (pr_local peer1) (pr_b peer1) state0;
   st ← aggregated_epoch cc true 5 (pr_local peer2) (pr_remote peer2) id [msg] (pr_b peer2) state2;
   Ok ((λ p, transactionResult <$> ex_heap st !! p) <$> [201; 202; 203; 204; 205]%N))
  = Ok [Some COMMIT; Some ABORT; Some COMMIT; Some COMMIT; Some ABORT_NO_RETRY].
Proof. vm_compute. reflexivity. Qed.

End AggregationRuns.
