(* ===== verification/MonitorRuns.v ===== *)
(** * Concrete runs of the user's monitor

    A server that finishes its bodies in order, with a monitor that counts one
    committed and one aborted request; the same requests on a server whose pool
    finishes the second body first; and a key query on a small table. *)
From S2P Require Import Prelude Sha256 LruCache Transaction TransactionCodec BlockStorage.
From S2P Require Import Storage Orm Database Chaincode Executor BlockGenerator QueryController Monitor.
From Stdlib Require Import ZArith NArith Lia.
From stdpp Require Import base list gmap strings countable.

Local Open Scope N_scope.

Module MonitorRuns.

#[local] Existing Instance Varint.varint_protobuf.
#[local] Existing Instance Varint.varint_laws.
#[local] Existing Instance BlockBits.bits_proto.
#[local] Existing Instance BlockBits.bits_laws.
#[local] Existing Instances MemLevelDB.mem_storage MemLevelDB.mem_table_storage.

#[local] Instance KVRead_countable : Countable KVRead.
Proof.
  refine (inj_countable' (λ r, (rd_table r, rd_key r, rd_value r)) (λ '(a, b, c), mkRead a b c) _).
  by intros [].
Defined.
#[local] Instance UserQueryRequest_eq_dec : EqDecision UserQueryRequest.
Proof. solve_decision. Defined.
#[local] Instance UserQueryRequest_countable : Countable UserQueryRequest.
Proof.
  refine (inj_countable' (λ q, (uq_type q, uq_payload q, uq_digest q)) (λ '(a, b, c), mkQuery a b c) _).
  by intros [].
Defined.

#[local] Instance query_bits : QueryProto := {|
  query_Serialize q := Varint.bits_of (encode q);
  query_Parse l := decode (Varint.of_bits l);
  reads_Serialize r := Varint.bits_of (encode r);
  reads_Parse l := decode (Varint.of_bits l) |}.
#[local] Instance query_bits_laws : QueryProtoLaws.
Proof. split; [intros q|intros r _]; simpl; rewrite Varint.of_bits_of; apply decode_encode. Qed.

Definition get {A} (d : A) (o : outcome A) : A := match o with Ok a => a | Fatal _ => d end.
Definition sign_block (root : list N) : option (list N) := Some (take 4 root).
Definition check (root signature : list N) : bool := bool_decide (take 4 root = signature).
Definition check_ip (_ : string) := check.
Definition sign (l : list N) : list N := take 2 l.
Definition parse_block (l : list N) : Block := default empty_block (block_Parse l).
Definition parse_txn (l : list N) : TransactionPayload := default empty_payload (payload_ParseFromString l).

#[local] Notation partitions := (gmap string (gmap string string)).

Definition cc (_ key : string) : CC partitions Z := _ ← query_default "tab" "none" key; mret 1%Z.
Definition database : exec_state partitions := mkExec ∅ (new_DatabaseImpl {["tab" := {["k" := "v"]}]}) None.

Definition txn (tid : N) (digest : string) (r : TransactionResult) : Transaction :=
  set_digest digest (setReadOnly false (setTransactionResult r (setTransactionID tid MockTransaction))).
Definition t1 := txn 3 "aa" COMMIT.
Definition t2 := txn 5 "zz" COMMIT.
Definition t3 := txn 4 "bb" ABORT.

Lemma parse_block_ok b : parse_block (block_Serialize b) = b.
Proof. unfold parse_block. by rewrite block_parse. Qed.

Lemma mon_start_ok : store_ok mem_start.
Proof.
  intros n raw. change (mem_db mem_start) with (∅ : gmap N (list N)). by rewrite lookup_empty.
Qed.

Lemma mon_sign_total r : is_Some (sign_block r).
Proof. by eexists. Qed.

(** ** In order *)
Definition g0 : BlockGenerator BlockStorageToDB := new_BlockGenerator mem_start.
Definition g1 := generateBlock (addCommittedTransaction t2 (addCommittedTransaction t1 g0)).
Definition g2 := generateBlock (addCommittedTransaction t3 g1).
Definition g3 := get g2 (finish_task false sign_block 0 g2).
Definition g4 := get g3 (finish_task false sign_block 0 g3).
Definition mstep g deq m := get m (mon_step false parse_txn cc 7 database sign parse_block g false 50 deq m).

Definition m1 := mstep g4 None (mstep g4 None (new_Monitor 1)).
Definition m2 := mstep g4 (Some ("bb", 20%Z)) (mstep g4 (Some ("aa", 10%Z)) m1).
Definition m3 := mstep g4 None (mstep g4 None (mstep g4 None m2)).

Example monitor_run :
  mpc m1 = MUpdate 2 50 ∧ mpc m2 = mpc m1 ∧ txMap m3 = ∅ ∧
  (curBlockHeight m3, txCountCommit m3, txCountAbort m3, latency m3) = (3, 1, 1, 40).
Proof. split_and!; vm_compute; reflexivity. Qed.

Definition world_end : world BlockStorageToDB :=
  mkWorld [[t1; t2]; [t3]] [] 2 g4 [] ["aa"; "bb"] m3.

Lemma body1 : tasks g2 ≠ [] ∧ finish_task false sign_block 0 g2 = Ok g3.
Proof. split; [vm_compute; discriminate|vm_compute; reflexivity]. Qed.
Lemma body2 : tasks g3 ≠ [] ∧ finish_task false sign_block 0 g3 = Ok g4.
Proof. split; [vm_compute; discriminate|vm_compute; reflexivity]. Qed.

Local Notation step :=
  (w_step false sign_block check check_ip parse_txn cc 7 database sign parse_block).

Ltac next_world tac :=
  eapply rtc_l; [tac|]; cbn [w_batches w_cur w_done w_gen w_queue w_sent w_mon app world_start].
Ltac fresh_digest := apply (bool_decide_unpack _); vm_compute; exact I.

(** The two clients send, the server builds two blocks, the monitor counts. *)
Lemma sent_then_built :
  rtc step (world_start mem_start)
    (mkWorld [[t1; t2]; [t3]] [] 2 g4 [("aa", 10%Z); ("bb", 20%Z)] ["aa"; "bb"] (new_Monitor 1)).
Proof.
  next_world ltac:(apply (w_send _ _ _ _ _ _ _ _ _ _ _ "aa" 10); fresh_digest).
  next_world ltac:(apply (w_add _ _ _ _ _ _ _ _ _ _ _ t1); fresh_digest).
  next_world ltac:(apply (w_send _ _ _ _ _ _ _ _ _ _ _ "bb" 20); fresh_digest).
  next_world ltac:(apply (w_add _ _ _ _ _ _ _ _ _ _ _ t2); fresh_digest).
  next_world ltac:(apply w_generate).
  next_world ltac:(apply (w_add _ _ _ _ _ _ _ _ _ _ _ t3); fresh_digest).
  next_world ltac:(apply w_generate).
  next_world ltac:(apply (w_body _ _ _ _ _ _ _ _ _ _ _ g3); [exact (proj1 body1)|exact (proj2 body1)|reflexivity]).
  next_world ltac:(apply (w_body _ _ _ _ _ _ _ _ _ _ _ g4); [exact (proj1 body2)|exact (proj2 body2)|reflexivity]).
  apply rtc_refl.
Qed.

(** Two queries of the tip, two elements of the queue, two blocks. *)
Lemma monitor_path bs n g sent x y tip start ma mb mc md me mf mg mh :
  let w q m := mkWorld bs [] n g q sent m in
  let run := mon_step false parse_txn cc 7 database sign parse_block g false 50 in
  run None ma = Ok mb ∧ run None mb = Ok mc ∧ run (Some x) mc = Ok md ∧ run (Some y) md = Ok me ∧
    run None me = Ok mf ∧ run None mf = Ok mg ∧ run None mg = Ok mh →
  mpc ma = MReady ∧ mpc mb = MTip ∧ mpc mc = MUpdate tip start ∧ mpc md = MUpdate tip start →
  rtc step (w [x; y] ma) (w [] mh).
Proof.
  intros w run (E1 & E2 & E3 & E4 & E5 & E6 & E7) (P1 & P2 & P3 & P4).
  apply (rtc_l _ _ (w [x; y] mb)). { apply (w_monitor _ _ _ _ _ _ _ _ _ _ (w [x; y] ma) false 50); cbn; [by rewrite P1|done]. }
  apply (rtc_l _ _ (w [x; y] mc)). { apply (w_monitor _ _ _ _ _ _ _ _ _ _ (w [x; y] mb) false 50); cbn; [by rewrite P2|done]. }
  apply (rtc_l _ _ (w [y] md)). { by apply (w_dequeue _ _ _ _ _ _ _ _ _ _ (w [x; y] mc) false 50 0 x tip start). }
  apply (rtc_l _ _ (w [] me)). { by apply (w_dequeue _ _ _ _ _ _ _ _ _ _ (w [y] md) false 50 0 y tip start). }
  apply (rtc_l _ _ (w [] mf)). { by apply (w_monitor _ _ _ _ _ _ _ _ _ _ (w [] me) false 50). }
  apply (rtc_l _ _ (w [] mg)). { by apply (w_monitor _ _ _ _ _ _ _ _ _ _ (w [] mf) false 50). }
  apply rtc_once. by apply (w_monitor _ _ _ _ _ _ _ _ _ _ (w [] mg) false 50).
Qed.

Local Notation run_monitor := (mon_step false parse_txn cc 7 database sign parse_block g4 false 50).

Lemma monitor_moves :
  run_monitor None (new_Monitor 1) = Ok (mstep g4 None (new_Monitor 1)) ∧
  run_monitor None (mstep g4 None (new_Monitor 1)) = Ok m1 ∧
  run_monitor (Some ("aa", 10%Z)) m1 = Ok (mstep g4 (Some ("aa", 10%Z)) m1) ∧
  run_monitor (Some ("bb", 20%Z)) (mstep g4 (Some ("aa", 10%Z)) m1) = Ok m2 ∧
  run_monitor None m2 = Ok (mstep g4 None m2) ∧
  run_monitor None (mstep g4 None m2) = Ok (mstep g4 None (mstep g4 None m2)) ∧
  run_monitor None (mstep g4 None (mstep g4 None m2)) = Ok m3.
Proof. split_and!; vm_compute; reflexivity. Qed.

Lemma monitor_pcs :
  mpc (new_Monitor 1) = MReady ∧ mpc (mstep g4 None (new_Monitor 1)) = MTip ∧
  mpc m1 = MUpdate 2 50 ∧ mpc (mstep g4 (Some ("aa", 10%Z)) m1) = MUpdate 2 50.
Proof. split_and!; vm_compute; reflexivity. Qed.

Lemma run_end : rtc step (world_start mem_start) world_end.
Proof.
  etrans; [apply sent_then_built|].
  exact (monitor_path _ _ _ _ _ _ _ _ _ _ _ _ _ _ _ _ monitor_moves monitor_pcs).
Qed.

Lemma txn_wire tid digest r :
  tid = 3 ∨ tid = 4 ∨ tid = 5 → digest = "aa" ∨ digest = "bb" ∨ digest = "zz" →
  wire_ok (txn tid digest r) ∧ txn_fits (txn tid digest r).
Proof.
  intros [->|[->| ->]] [->|[->| ->]]; destruct r;
    (split; [split|unfold txn_fits]; vm_compute; reflexivity).
Qed.

Lemma small_batch l : l ≠ [] → (length l ≤ 2)%nat → Forall txn_fits l → batch_ok l.
Proof.
  intros Hne Hl Hf. split_and!; [done| |done]. etrans; [exact Hl|].
  change 2%nat with (2 ^ 1)%nat at 1. apply Nat.pow_le_mono_r; lia.
Qed.

Lemma end_fits : world_fits world_end.
Proof.
  split_and!; [| |vm_compute; reflexivity].
  - constructor; [|constructor; [|constructor]]; apply small_batch; try done; cbn; try lia;
      repeat constructor; apply txn_wire; auto.
  - repeat constructor; apply txn_wire; auto.
Qed.

Lemma monitor_counts_exact_witness :
  let w := world_end in
  let m := w_mon w in
  ∃ h, curBlockHeight m = N.of_nat h + 1 ∧ (h ≤ length (w_batches w))%nat ∧
    let txns := in_blocks (w_batches w) h in
    let number r := N.of_nat (length (own_with (w_sent w) r txns)) in
    txCountCommit m = u64 (number COMMIT + number ABORT_NO_RETRY + number PENDING) ∧
    txCountAbort m = u64 (number ABORT) ∧
    w_sent w ≡ₚ (w_queue w).*1 ++ (map_to_list (txMap m)).*1 ++
      (digest_of <$> filter (λ t, digest_of t ∈ w_sent w) txns) ∧
    NoDup (w_sent w) ∧
    ∀ finish now, (∀ tip start, mpc m = MUpdate tip start → w_queue w = []) →
      ∃ m', mon_step false parse_txn cc 7 database sign parse_block (w_gen w) finish now None m = Ok m'.
Proof.
  exact (monitor_counts_exact false sign_block check check_ip parse_txn cc 7 database sign parse_block
    parse_block_ok mem_start world_end mon_start_ok eq_refl mon_sign_total run_end end_fits).
Defined.

(** ** Whole transactions *)
Definition g5 := get g4 (default (Ok g4) (run_round g4)).

Lemma run5 : gen_run false sign_block check check_ip mem_start [[t1; t2]; [t3]] [] g5.
Proof.
  apply (run_internal false sign_block check check_ip mem_start _ [] g4 g5);
    [|apply int_header; vm_compute; reflexivity].
  apply (run_internal false sign_block check check_ip mem_start _ [] g3 g4);
    [|apply (int_body _ _ _ _ _ _ 0); [vm_compute; lia|exact (proj2 body2)]].
  apply (run_internal false sign_block check check_ip mem_start _ [] g2 g3);
    [|apply (int_body _ _ _ _ _ _ 0); [vm_compute; lia|exact (proj2 body1)]].
  change [[t1; t2]; [t3]] with ([[t1; t2]] ++ [[] ++ [t3]]). apply run_generate, run_add.
  change [[t1; t2]] with ([] ++ [([] ++ [t1]) ++ [t2]]). apply run_generate. do 2 apply run_add.
  apply run_start.
Qed.

Lemma late_return_counts_nothing_witness :
  ∃ txs, pollTx sign parse_block (ask_server false parse_txn cc 7 database false g5) 1 = Ok txs ∧
    length txs = 2%nat ∧ foldl (count_tx 50) m2 txs = m2.
Proof.
  apply (late_return_counts_nothing false sign_block check check_ip parse_txn cc 7 database sign
    parse_block parse_block_ok mem_start [[t1; t2]; [t3]] [] g5 1 50 m2 mon_start_ok eq_refl mon_sign_total run5).
  - apply end_fits.
  - vm_compute. reflexivity.
  - repeat constructor; try apply txn_wire; auto.
  - split; vm_compute; discriminate.
  - vm_compute. reflexivity.
Defined.

(** ** Out of order

    The pool finishes the body of block 2 first and publishes tip 2; block 1 is
    answered with an empty string; when its body is there the monitor has gone
    on, and the request it holds is never counted. *)
Definition o1 := get g2 (finish_task false sign_block 1 g2).
Definition o2 := get o1 (finish_task false sign_block 0 o1).
Definition n1 := mstep o1 None (mstep o1 None (new_Monitor 1)).
Definition n2 := mstep o1 (Some ("bb", 20%Z)) (mstep o1 (Some ("aa", 10%Z)) n1).
Definition n3 := mstep o1 None (mstep o1 None (mstep o1 None n2)).

Example out_of_order_lost :
  mpc n1 = MUpdate 2 50 ∧ partialBlockBuffer o1 !! 1 = None ∧ is_Some (partialBlockBuffer o2 !! 1) ∧
  getPartialConstructedLatestEpoch o2 = 1 ∧ txMap n3 = {["aa" := 10%Z]} ∧
  (curBlockHeight n3, txCountCommit n3, txCountAbort n3) = (3, 0, 1).
Proof. split_and!; try (vm_compute; reflexivity). eexists. vm_compute. reflexivity. Qed.

(** ** A key *)
Example key_query_run :
  key_query parse_txn cc false 7 (payload_SerializeAsString (mkPayload "f" "k" 0 "")) [] database =
    Ok (reads_Serialize [mkRead "tab" "k" "v"], database).
Proof. vm_compute. reflexivity. Qed.

End MonitorRuns.
