(* ===== verification/Server.v ===== *)
(** * A block server

    [include/block_server/server.h]: [initServer] creates the transaction
    manager with its block generator and the coordinator, and connects them: the
    manager hands batches to [addTransaction], the coordinator reports a
    finished epoch to [epochFinishedCallback].  Here the two threads that
    [startServer] starts run together with the workers and the block generator,
    each with the functions of its own file, on one heap of transactions.

    The model is of a server that does not reuse aborted transactions and does
    not share the execution of its epochs.  A step of the coordinator is a
    workload that it creates, the end of the assignment, the execution of the
    epoch (the calls of its workers in an order that the protocol allows), and
    each half of the callback; between them the manager receives batches and the
    block generator works. *)
From S2P Require Import Prelude EpochQueues Transaction TransactionCodec Storage Orm Database ReserveTable Executor Aria.
From S2P Require Import LruCache MerkleTree BlockStorage BlockGenerator TransactionManager WorkloadSize Coordinator Protocol System.
From Stdlib Require Import NArith Lia Sorted.
From stdpp Require Import base list gmap strings relations sorting.

Local Open Scope N_scope.

Inductive coordinator_pc :=
  | Assigning (ws : list Workload)
  | Assigned (ws : list Workload)
  | Executed (ws : list Workload)
  | Reported.

Record Server (SB SD : Type) := mkServer {
  sv_tm : TransactionManager SB;
  (** The database, the reserve table and the executors' pointers to it. *)
  sv_db : DatabaseImpl SD;
  sv_table : option MockReserveTable;
  sv_pointers : gmap nat (option N);
  sv_adapter : WorkloadSizeAdapter;
  sv_queue : TransactionQueueWrapper;
  (** The epoch and the phase of the coordinator. *)
  sv_epoch : N;
  sv_pc : coordinator_pc }.
Arguments mkServer {_ _} _ _ _ _ _ _ _ _.
Arguments sv_tm {_ _} _. Arguments sv_db {_ _} _. Arguments sv_table {_ _} _. Arguments sv_pointers {_ _} _.
Arguments sv_adapter {_ _} _. Arguments sv_queue {_ _} _. Arguments sv_epoch {_ _} _. Arguments sv_pc {_ _} _.

Section Server.
Context `{Protobuf} `{BlockProto} {SB : Type} `{BlockStorage SB} {SD : Type} `{TableStorage SD}.
Context (invoke : string → string → CC SD Z).
Context (debug categorize async : bool).
Context (rsaEncrypt : list N → option (list N)) (localDecrypt : list N → list N → bool)
  (rsaDecrypt : string → list N → list N → bool).
Local Notation server := (Server SB SD).

(** [processors] is the number of processors, [db] the database that was
    opened. *)
Definition initServer (processors : N) (s : SB) (db : DatabaseImpl SD) : server :=
  let m := setBlockGenerator (new_BlockGenerator s) ∅ in
  let startupEpoch := processingEpoch m in
  mkServer m db None ∅ (new_WorkloadSizeAdapter processors 1) empty_TQ startupEpoch (Assigning []).

Definition set_tm (m : TransactionManager SB) (sv : server) : server :=
  mkServer m (sv_db sv) (sv_table sv) (sv_pointers sv) (sv_adapter sv) (sv_queue sv) (sv_epoch sv) (sv_pc sv).
Definition set_pc (pc : coordinator_pc) (sv : server) : server :=
  mkServer (sv_tm sv) (sv_db sv) (sv_table sv) (sv_pointers sv) (sv_adapter sv) (sv_queue sv) (sv_epoch sv) pc.

(** A batch that the manager takes from the communication module, and
    [sendTransactionHandle]. *)
Definition server_receive (batch : list (txn_ptr * Transaction)) (sv : server) : outcome server :=
  '(a, q) ← add_batch ((λ x, (x.1, tr_epoch x.2)) <$> batch) (sv_adapter sv, sv_queue sv);
  Ok (mkServer (run_receive batch (sv_tm sv)) (sv_db sv) (sv_table sv) (sv_pointers sv) a q (sv_epoch sv) (sv_pc sv)).

(** [assignWorkloadPhase]; [None] while the queue is empty. *)
Definition server_assign (ws : list Workload) (sv : server) : option (outcome server) :=
  match createWorkload debug (sv_epoch sv) (minTxCount (sv_adapter sv)) (maxTxCount (sv_adapter sv)) (sv_queue sv) with
  | None => None
  | Some (Fatal f) => Some (Fatal f)
  | Some (Ok (w, q)) =>
      let pc := match w with Some w => Assigning (ws ++ [w]) | None => Assigned ws end in
      Some (Ok (mkServer (sv_tm sv) (sv_db sv) (sv_table sv) (sv_pointers sv) (sv_adapter sv) q (sv_epoch sv) pc))
  end.

(** The read phase and the commit phase: the calls of the workers. *)
Definition exec_of (sv : server) : exec_state SD := mkExec (tm_heap (sv_tm sv)) (sv_db sv) (sv_table sv).
Definition server_execute (ws : list Workload) (log : list event) (sv : server) : outcome server :=
  '(rts, st) ← run_log invoke debug log (sv_pointers sv, exec_of sv);
  Ok (mkServer (set_tm_heap (ex_heap st) (sv_tm sv)) (ex_db st) (ex_table st) rts (sv_adapter sv) (sv_queue sv)
        (sv_epoch sv) (Executed ws)).

(** [epochTransactionFinishSignal], and the next epoch. *)
Definition server_report (sv : server) : outcome server :=
  m ← callback_begin debug categorize false (sv_epoch sv) (sv_tm sv); Ok (set_pc Reported (set_tm m sv)).
Definition server_next (sv : server) : server :=
  mkServer (callback_end (sv_epoch sv) (sv_tm sv)) (sv_db sv) (sv_table sv) (sv_pointers sv) (sv_adapter sv) (sv_queue sv)
    (sv_epoch sv + 1) (Assigning []).

(** An epoch that was executed: its transactions and the states around it. *)
Record epoch_done := mkDone { ed_ps : list txn_ptr; ed_before : exec_state SD; ed_after : exec_state SD }.

Definition loads_of (ws : list Workload) : list (list N) := transactionList <$> ws.

(** What the communication module delivers: new objects of the epoch it is asked
    for, ids that are different within the epoch; and an epoch is closed when it
    had a transaction.  The last conditions are the limits of the counters. *)
Definition delivers (received : list txn_ptr) (batch : list (txn_ptr * Transaction)) (m : TransactionManager SB) : Prop :=
  batch ≠ [] ∧ NoDup batch.*1 ∧ (∀ p, p ∈ batch.*1 → tm_heap m !! p = None) ∧
  Forall (fresh_txn (currentEpoch m)) batch.*2 ∧ NoDup (tr_tid <$> batch.*2) ∧
  (∀ p t, p ∈ queue (currentEpoch m) (epochTxBuffer m) → tm_heap m !! p = Some t → tr_tid t ∉ tr_tid <$> batch.*2) ∧
  3000 + N.of_nat (length received + length batch) < 2 ^ 50 ∧ currentEpoch m < 2 ^ 63.

(** The chaincodes that the epoch calls return. *)
Definition chaincodes_return (ws : list Workload) (sv : server) : Prop :=
  ∀ p t, p ∈ concat (loads_of ws) → tm_heap (sv_tm sv) !! p = Some t → runs_ok invoke (Database.storage (sv_db sv)) t.

(** The pointers received, and the epochs executed so far. *)
Inductive server_run (processors : N) (s : SB) (db : DatabaseImpl SD)
    : list txn_ptr → list epoch_done → server → Prop :=
  | sr_init : server_run processors s db [] [] (initServer processors s db)
  | sr_receive batch received hist sv sv' :
      server_run processors s db received hist sv → delivers received batch (sv_tm sv) →
      server_receive batch sv = Ok sv' → server_run processors s db (received ++ batch.*1) hist sv'
  | sr_epoch received hist sv :
      server_run processors s db received hist sv → queue (currentEpoch (sv_tm sv)) (epochTxBuffer (sv_tm sv)) ≠ [] →
      server_run processors s db received hist (set_tm (run_next false (sv_tm sv)) sv)
  | sr_assign ws received hist sv sv' :
      server_run processors s db received hist sv → sv_pc sv = Assigning ws → server_assign ws sv = Some (Ok sv') →
      server_run processors s db received hist sv'
  | sr_execute ws log received hist sv sv' :
      server_run processors s db received hist sv → sv_pc sv = Assigned ws → epoch_log_ok (loads_of ws, log) →
      chaincodes_return ws sv → server_execute ws log sv = Ok sv' →
      server_run processors s db received (hist ++ [mkDone (concat (loads_of ws)) (exec_of sv) (exec_of sv')]) sv'
  | sr_report ws received hist sv sv' :
      server_run processors s db received hist sv → sv_pc sv = Executed ws → server_report sv = Ok sv' →
      server_run processors s db received hist sv'
  | sr_next received hist sv :
      server_run processors s db received hist sv → sv_pc sv = Reported →
      callback_ready async (sv_epoch sv) (sv_tm sv) = true → server_run processors s db received hist (server_next sv)
  | sr_generator g received hist sv :
      server_run processors s db received hist sv →
      gen_internal debug rsaEncrypt localDecrypt rsaDecrypt (blockGenerator (sv_tm sv)) g →
      server_run processors s db received hist (set_tm (set_generator g (sv_tm sv)) sv).

(** ** The invariant *)
Context {HL : ∀ h p, Local (invoke h p)}.

Definition assigned (pc : coordinator_pc) : list txn_ptr :=
  match pc with Assigning ws | Assigned ws | Executed ws => concat (loads_of ws) | Reported => [] end.
(** The first epoch that the queue of the coordinator can hold. *)
Definition low (sv : server) : N := match sv_pc sv with Assigning _ => sv_epoch sv | _ => sv_epoch sv + 1 end.
(** The entries of an epoch. *)
Definition of_epoch (e : N) (l : list (N * N)) : list txn_ptr := (filter (λ x, x.2 = e) l).*1.
Definition is_executed (pc : coordinator_pc) : Prop := match pc with Executed _ => True | _ => False end.

Definition batch_of (ed : epoch_done) : list Transaction := objects (ex_heap (ed_after ed)) (ed_ps ed).

(** The epoch that was executed and is not reported yet. *)
Definition unreported (sv : server) (tail : list epoch_done) : Prop :=
  match sv_pc sv with
  | Executed ws => ∃ ed, tail = [ed] ∧ ed_ps ed = concat (loads_of ws) ∧
      ∀ p, p ∈ ed_ps ed → tm_heap (sv_tm sv) !! p = ex_heap (ed_after ed) !! p ∧
        ∃ t, tm_heap (sv_tm sv) !! p = Some t ∧ transactionResult t ≠ PENDING
  | _ => tail = []
  end.

(** The database goes from epoch to epoch. *)
Fixpoint chained (db : DatabaseImpl SD) (hist : list epoch_done) (db' : DatabaseImpl SD) : Prop :=
  match hist with
  | [] => db' = db
  | ed :: hist => ex_db (ed_before ed) = db ∧ chained (ex_db (ed_after ed)) hist db'
  end.

Lemma chained_snoc db hist ed db' :
  chained db hist (ex_db (ed_before ed)) → db' = ex_db (ed_after ed) → chained db (hist ++ [ed]) db'.
Proof. revert db. induction hist as [|e hist IH]; intros db; simpl; [done|]. intros [? ?] ?. eauto. Qed.

Definition executed_ok (e : N) (ed : epoch_done) : Prop :=
  ed_ps ed ≠ [] ∧ epoch_ready invoke e (ed_ps ed) (ed_before ed) ∧
  epoch_result invoke e (ed_ps ed) (ed_before ed) (ed_after ed).

Record server_inv (s : SB) (db : DatabaseImpl SD) (received : list txn_ptr) (hist : list epoch_done) (sv : server) : Prop := {
  si_tm : ∃ reported tail, hist = reported ++ tail ∧ unreported sv tail ∧
    tm_ok debug false rsaEncrypt localDecrypt rsaDecrypt s received (ed_ps <$> reported) (batch_of <$> reported) (sv_tm sv);
  si_epoch : sv_epoch sv = processingEpoch (sv_tm sv);
  si_finishing : finishing (sv_tm sv) = match sv_pc sv with Reported => Some (sv_epoch sv) | _ => None end;
  si_queue e : queue e (epochTxBuffer (sv_tm sv)) =
    (if decide (e = sv_epoch sv) then assigned (sv_pc sv) else []) ++ of_epoch e (tq_contents (sv_queue sv));
  si_sorted : StronglySorted (λ x y, x.2 ≤ y.2) (tq_contents (sv_queue sv));
  si_range : Forall (λ x, low sv ≤ x.2 ≤ currentEpoch (sv_tm sv)) (tq_contents (sv_queue sv));
  si_more : low sv ≠ sv_epoch sv → tq_contents (sv_queue sv) ≠ [];
  si_full e : sv_epoch sv ≤ e < currentEpoch (sv_tm sv) → (sv_pc sv = Reported → e ≠ sv_epoch sv) →
    queue e (epochTxBuffer (sv_tm sv)) ≠ [];
  si_fresh e p : p ∈ queue e (epochTxBuffer (sv_tm sv)) → e ≠ sv_epoch sv ∨ ¬ is_executed (sv_pc sv) →
    ∃ t, tm_heap (sv_tm sv) !! p = Some t ∧ fresh_txn e t;
  si_tids e p q t u : p ∈ queue e (epochTxBuffer (sv_tm sv)) → q ∈ queue e (epochTxBuffer (sv_tm sv)) →
    tm_heap (sv_tm sv) !! p = Some t → tm_heap (sv_tm sv) !! q = Some u → tr_tid t = tr_tid u → p = q;
  si_adapter : wsa_ok (N.of_nat (length received)) (sv_adapter sv);
  si_cache : cacheEpoch (sv_adapter sv) ≤ currentEpoch (sv_tm sv) ≤ cacheEpoch (sv_adapter sv) + 1;
  si_cached : queue (currentEpoch (sv_tm sv)) (epochTxBuffer (sv_tm sv)) ≠ [] →
    cacheEpoch (sv_adapter sv) = currentEpoch (sv_tm sv);
  si_table tb : sv_table sv = Some tb →
    mrt_epoch tb < match sv_pc sv with Executed _ | Reported => sv_epoch sv + 1 | _ => sv_epoch sv end;
  si_chain : chained db hist (sv_db sv);
  si_hist i ed : hist !! i = Some ed → executed_ok (getLatestSavedEpoch s + 1 + N.of_nat i) ed }.

Lemma init_inv processors s db :
  getLatestSavedEpoch s = 0 → plausible 1 (processors / 2 + 1) → server_inv s db [] [] (initServer processors s db).
Proof.
  intros Hs Hp. assert (∀ e, queue e ∅ = []) as Hq by done.
  split; simpl; try done.
  - exists [], []. split_and!; [done..|]. apply start_tm_ok.
  - intros e. rewrite Hq. by destruct (decide _).
  - constructor.
  - intros e He. lia.
  - by intros e p ?%not_elem_of_nil.
  - by apply new_wsa_ok.
  - rewrite Hs. lia.
Qed.

(** *** The manager receives *)
Lemma receive_fields batch (m : TransactionManager SB) :
  tm_heap (run_receive batch m) = list_to_map batch ∪ tm_heap m ∧
  epochTxBuffer (run_receive batch m) = enq_all (currentEpoch m) batch.*1 (epochTxBuffer m) ∧
  currentEpoch (run_receive batch m) = currentEpoch m ∧ processingEpoch (run_receive batch m) = processingEpoch m ∧
  finishing (run_receive batch m) = finishing m.
Proof. unfold run_receive. by rewrite receive_buffer. Qed.

Lemma push_contents b q : tq_contents (tq_push_bulk b q) = tq_contents q ++ b.
Proof. unfold tq_contents, tq_push_bulk. simpl. by destruct (tq_front q). Qed.

Lemma of_epoch_app e l l' : of_epoch e (l ++ l') = of_epoch e l ++ of_epoch e l'.
Proof. unfold of_epoch. by rewrite filter_app, fmap_app. Qed.
Lemma of_epoch_same e l : Forall (λ x, x.2 = e) l → of_epoch e l = l.*1.
Proof. intros Hl. unfold of_epoch. rewrite filter_keeps_all; [done|]. by apply Forall_forall. Qed.
Lemma of_epoch_other e e' l : Forall (λ x, x.2 = e) l → e ≠ e' → of_epoch e' l = [].
Proof.
  intros Hl Hne. unfold of_epoch. rewrite filter_keeps_none; [done|].
  intros x Hx E. rewrite Forall_forall in Hl. specialize (Hl x Hx). congruence.
Qed.
Lemma of_epoch_below e l : Forall (λ x, e < x.2) l → of_epoch e l = [].
Proof.
  intros Hl. unfold of_epoch. rewrite filter_keeps_none; [done|].
  intros x Hx E. rewrite Forall_forall in Hl. specialize (Hl x Hx). simpl in Hl. lia.
Qed.

Definition entries (batch : list (txn_ptr * Transaction)) : list (N * N) := (λ x, (x.1, tr_epoch x.2)) <$> batch.

Lemma entries_epoch e batch : Forall (fresh_txn e) batch.*2 → Forall (λ x, x.2 = e) (entries batch).
Proof.
  intros Hb. apply Forall_fmap. rewrite Forall_fmap in Hb. eapply Forall_impl; [exact Hb|]. by intros x [].
Qed.
Lemma entries_ptrs batch : (entries batch).*1 = batch.*1.
Proof. unfold entries. rewrite <-list_fmap_compose. by apply list_fmap_ext. Qed.

Lemma sorted_log_snoc (l l' : list (N * N)) e :
  StronglySorted (λ x y, x.2 ≤ y.2) l → Forall (λ x, x.2 ≤ e) l → Forall (λ x, x.2 = e) l' →
  StronglySorted (λ x y, x.2 ≤ y.2) (l ++ l').
Proof.
  intros Hs Hl Hl'. induction Hs as [|x l Hs IH Hx]; simpl.
  - clear Hl. induction Hl' as [|x l' Hx Hl' IH]; constructor; [done|].
    eapply Forall_impl; [exact Hl'|]. simpl. intros y Hy. lia.
  - apply Forall_cons in Hl as [Hxe Hl]. constructor; [by apply IH|]. apply Forall_app. split; [done|].
    eapply Forall_impl; [exact Hl'|]. simpl. intros y Hy. lia.
Qed.

(** A batch can always be added. *)
Lemma receive_total s db received hist sv batch :
  server_inv s db received hist sv → delivers received batch (sv_tm sv) →
  ∃ a, server_receive batch sv = Ok (mkServer (run_receive batch (sv_tm sv)) (sv_db sv) (sv_table sv) (sv_pointers sv) a
         (tq_push_bulk (entries batch) (sv_queue sv)) (sv_epoch sv) (sv_pc sv)) ∧
    wsa_ok (N.of_nat (length (received ++ batch.*1))) a ∧ cacheEpoch a = currentEpoch (sv_tm sv).
Proof.
  intros [] (Hne & _ & _ & Hf & _ & _ & Hlim & Hep). unfold server_receive. fold (entries batch).
  assert (entries batch ≠ []) as Hne' by (by destruct batch).
  assert (batch_epoch (entries batch) = currentEpoch (sv_tm sv)) as Hbe.
  { apply entries_epoch in Hf. destruct (entries batch) as [|x l]; [done|]. by apply Forall_cons in Hf as [Hx _]. }
  pose proof (add_batch_ok _ (entries batch) (sv_adapter sv) (sv_queue sv) Hne' si_adapter0) as Ha.
  assert (length (entries batch) = length batch) as Hlen by apply length_fmap.
  rewrite Hbe, Hlen in Ha. specialize (Ha ltac:(lia) ltac:(lia)).
  destruct ((_ =? _) || (_ =? _)) eqn:E.
  - destruct Ha as (a & -> & Hok & Hc & _). exists a. split_and!; [done| |done].
    rewrite length_app, length_fmap, Nat2N.inj_add. done.
  - exfalso. apply orb_false_iff in E as [E1%N.eqb_neq E2%N.eqb_neq]. lia.
Qed.

(** The heap after a batch. *)
Lemma batch_heap batch (h : txn_heap) :
  NoDup batch.*1 → (∀ p, p ∈ batch.*1 → h !! p = None) →
  (∀ p t, (p, t) ∈ batch → (list_to_map batch ∪ h) !! p = Some t) ∧
  (∀ p, is_Some (h !! p) → (list_to_map batch ∪ h) !! p = h !! p).
Proof.
  intros Hnd Hfr. split.
  - intros p t Hin. apply lookup_union_Some_l. by apply elem_of_list_to_map_1.
  - intros p [t Ht]. rewrite Ht. apply lookup_union_Some_raw. right. split; [|done].
    apply not_elem_of_list_to_map_1. intros Hin. by rewrite Hfr in Ht.
Qed.

Lemma queue_heap s received ptrs batches m e p :
  tm_ok debug false rsaEncrypt localDecrypt rsaDecrypt s received ptrs batches m →
  p ∈ queue e (epochTxBuffer m) → is_Some (tm_heap m !! p).
Proof. intros Hm Hp. apply (ok_queue _ _ _ _ _ _ _ _ _ _ Hm) in Hp as [(t & -> & _) _]. by eexists. Qed.

(** A pointer that is queued after a batch was received is old or of the batch. *)
Definition came (batch : list (txn_ptr * Transaction)) (m : TransactionManager SB) (e : N) (p : txn_ptr) : Prop :=
  (p ∈ queue e (epochTxBuffer m) ∧ tm_heap (run_receive batch m) !! p = tm_heap m !! p) ∨
  (e = currentEpoch m ∧ ∃ t, (p, t) ∈ batch ∧ tm_heap (run_receive batch m) !! p = Some t).

Lemma receive_came batch (m : TransactionManager SB) e p :
  NoDup batch.*1 → (∀ p, p ∈ batch.*1 → tm_heap m !! p = None) →
  (∀ e p, p ∈ queue e (epochTxBuffer m) → is_Some (tm_heap m !! p)) →
  p ∈ queue e (epochTxBuffer (run_receive batch m)) → came batch m e p.
Proof.
  intros Hnd Hfr Hq. destruct (batch_heap batch (tm_heap m) Hnd Hfr) as [Hnew Hold].
  destruct (receive_fields batch m) as (Eh & Eb & _). unfold came. rewrite Eb, Eh, queue_enq_all. intros Hp.
  assert (p ∈ queue e (epochTxBuffer m) → (list_to_map batch ∪ tm_heap m) !! p = tm_heap m !! p) as Ho by eauto.
  destruct (decide _) as [<-|]; [|auto]. apply elem_of_app in Hp as [Hp|Hp]; [auto|]. right. split; [done|].
  apply list_elem_of_fmap in Hp as ([p' t] & -> & Hp). exists t. auto.
Qed.

(** The ids of an epoch stay different. *)
Lemma receive_tids batch (m : TransactionManager SB) e p q t u :
  NoDup (tr_tid <$> batch.*2) →
  (∀ p t, p ∈ queue (currentEpoch m) (epochTxBuffer m) → tm_heap m !! p = Some t → tr_tid t ∉ tr_tid <$> batch.*2) →
  (∀ p q t u, p ∈ queue e (epochTxBuffer m) → q ∈ queue e (epochTxBuffer m) →
     tm_heap m !! p = Some t → tm_heap m !! q = Some u → tr_tid t = tr_tid u → p = q) →
  came batch m e p → came batch m e q →
  tm_heap (run_receive batch m) !! p = Some t → tm_heap (run_receive batch m) !! q = Some u → tr_tid t = tr_tid u → p = q.
Proof.
  intros Htid Hdis Hids Hp Hq Et Eu Etid. assert (∀ p t, (p, t) ∈ batch → tr_tid t ∈ tr_tid <$> batch.*2) as Hmem.
  { intros p' t' Hin. apply list_elem_of_fmap. exists t'. split; [done|]. apply list_elem_of_fmap. by exists (p', t'). }
  destruct Hp as [[Hp Ep]|(Ee & t' & Hin & Ep)], Hq as [[Hq Eq]|(Ee' & u' & Hin' & Eq)];
    rewrite Ep in Et; rewrite Eq in Eu.
  - by eapply Hids.
  - subst e. injection Eu as <-. destruct (Hdis p t Hp Et). rewrite Etid. eauto.
  - subst e. injection Et as <-. destruct (Hdis q u Hq Eu). rewrite <-Etid. eauto.
  - injection Et as <-. injection Eu as <-. apply list_elem_of_lookup in Hin as [i Hi], Hin' as [j Hj].
    assert (i = j) as ->; [|congruence].
    apply (NoDup_lookup (tr_tid <$> batch.*2) i j (tr_tid t')); [done| |]; rewrite !list_lookup_fmap, ?Hi, ?Hj; simpl; congruence.
Qed.

Lemma receive_inv s db received hist sv sv' batch :
  server_inv s db received hist sv → delivers received batch (sv_tm sv) → server_receive batch sv = Ok sv' →
  server_inv s db (received ++ batch.*1) hist sv'.
Proof.
  intros Hi Hd E. destruct (receive_total _ _ _ _ _ _ Hi Hd) as (a & E' & Ha & Hca).
  rewrite E' in E. injection E as <-. clear E'. destruct Hd as (Hne & Hnd & Hfr & Hf & Htid & Hdis & _).
  destruct Hi. destruct si_tm0 as (reported & tail & -> & Hun & Htm).
  pose proof (entries_epoch _ _ Hf) as Hent. pose proof (entries_ptrs batch) as Hptr.
  destruct (batch_heap batch (tm_heap (sv_tm sv)) Hnd Hfr) as [Hnew Hold].
  pose proof (ok_queue _ _ _ _ _ _ _ _ _ _ Htm) as Hq. pose proof (ok_current _ _ _ _ _ _ _ _ _ _ Htm) as Hcur.
  destruct (receive_fields batch (sv_tm sv)) as (Eh & Eb & Ec & Ep & Ef).
  pose proof (λ e p, receive_came batch (sv_tm sv) e p Hnd Hfr (λ e p, queue_heap s received _ _ _ e p Htm)) as Hcase.
  split; cbn [sv_tm sv_pc sv_epoch sv_queue sv_adapter sv_table sv_db]; unfold low in *; cbn [sv_tm sv_pc sv_epoch sv_queue].
  - exists reported, tail. split_and!; [done| |by apply receive_ok; [..|eapply Forall_impl; [exact Hf|by intros ? []]]].
    unfold unreported in *. cbn [sv_pc sv_tm]. destruct (sv_pc sv) as [| |ws|]; try done.
    destruct Hun as (ed & -> & Eps & Hps). exists ed. split_and!; [done|done|]. intros p Hp.
    destruct (Hps p Hp) as (Hh & t & Ht & Hr). rewrite Eh, Hold by (by eexists). split; [done|by exists t].
  - by rewrite Ep.
  - by rewrite Ef.
  - intros e. rewrite Eb, queue_enq_all, push_contents, of_epoch_app, (assoc_L (++)), <-!si_queue0.
    destruct (decide (currentEpoch (sv_tm sv) = e)) as [<-|Hne'].
    + by rewrite (of_epoch_same _ _ Hent), Hptr.
    + by rewrite (of_epoch_other _ _ _ Hent Hne'), app_nil_r.
  - rewrite push_contents. apply (sorted_log_snoc _ _ (currentEpoch (sv_tm sv))); [done| |done].
    eapply Forall_impl; [exact si_range0|]. simpl. lia.
  - rewrite push_contents, Ec. apply Forall_app. split; [done|]. eapply Forall_impl; [exact Hent|]. simpl. intros x ->.
    split; [|lia]. destruct (sv_pc sv); [lia|..]; (destruct (tq_contents (sv_queue sv)) as [|y l]; [by destruct si_more0; [lia|]|]);
      apply Forall_cons in si_range0 as [Hy _]; lia.
  - intros Hl. rewrite push_contents. intros [Hnil _]%app_eq_nil. by apply si_more0.
  - intros e. rewrite Eb, Ec, queue_enq_all. intros He Hr. destruct (decide _); [lia|]. by apply si_full0.
  - intros e p Hp He. destruct (Hcase e p Hp) as [[Hp' ->]|(-> & t & Hin & ->)]; [by apply si_fresh0|].
    exists t. split; [done|]. rewrite Forall_forall in Hf. apply Hf. apply list_elem_of_fmap. by exists (p, t).
  - intros e p q t u Hp Hq' Et Eu Etid. apply (receive_tids batch (sv_tm sv) e p q t u); auto. by intros; eapply si_tids0.
  - done.
  - rewrite Ec, Hca. lia.
  - intros _. by rewrite Ec.
  - done.
  - done.
  - done.
Qed.

Lemma epoch_inv s db received hist sv :
  server_inv s db received hist sv → queue (currentEpoch (sv_tm sv)) (epochTxBuffer (sv_tm sv)) ≠ [] →
  server_inv s db received hist (set_tm (run_next false (sv_tm sv)) sv).
Proof.
  intros [] Hne. destruct si_tm0 as (reported & tail & -> & Hun & Htm).
  pose proof (si_cached0 Hne) as Hc. pose proof (ok_queue _ _ _ _ _ _ _ _ _ _ Htm) as Hq.
  split; simpl; try done; unfold low in *; simpl in *.
  - exists reported, tail. split_and!; [done..|]. destruct Htm. split; simpl; try done; try lia.
    + intros e p Hp. destruct (Hq e p Hp). split; [done|lia].
    + intros e He. destruct (ok_finishing e He) as (? & ? & ?). split_and!; [done|done|lia].
  - eapply Forall_impl; [exact si_range0|]. simpl. lia.
  - intros e He Hr. destruct (decide (e = currentEpoch (sv_tm sv))) as [->|Hne']; [done|]. apply si_full0; [lia|done].
  - lia.
  - intros Hn. exfalso. apply Hn. destruct (queue (currentEpoch (sv_tm sv) + 1) _) as [|p l] eqn:El; [done|].
    destruct (Hq (currentEpoch (sv_tm sv) + 1) p) as [_ ?]; [rewrite El; by left|lia].
Qed.

(** *** The coordinator assigns *)
Lemma sorted_front (y : N * N) l e :
  StronglySorted (λ x y, x.2 ≤ y.2) (y :: l) → e < y.2 → Forall (λ x, e < x.2) (y :: l).
Proof.
  intros Hs He. apply StronglySorted_inv in Hs as [_ Hl]. constructor; [done|].
  eapply Forall_impl; [exact Hl|]. simpl. lia.
Qed.

Lemma assign_cases s db received hist sv ws r :
  server_inv s db received hist sv → sv_pc sv = Assigning ws → server_assign ws sv = Some r →
  (∃ q, r = Ok (mkServer (sv_tm sv) (sv_db sv) (sv_table sv) (sv_pointers sv) (sv_adapter sv) q (sv_epoch sv) (Assigned ws)) ∧
     tq_contents q = tq_contents (sv_queue sv) ∧ tq_contents q ≠ [] ∧ Forall (λ x, sv_epoch sv < x.2) (tq_contents q)) ∨
  (∃ l q, r = Ok (mkServer (sv_tm sv) (sv_db sv) (sv_table sv) (sv_pointers sv) (sv_adapter sv) q (sv_epoch sv)
       (Assigning (ws ++ [mkWorkload (sv_epoch sv) l.*1 false]))) ∧
     tq_contents (sv_queue sv) = l ++ tq_contents q ∧ Forall (λ z, z.2 = sv_epoch sv) l).
Proof.
  intros [] Hpc E. unfold server_assign in E. destruct (createWorkload _ _ _ _ _) as [o|] eqn:Ew; [|done].
  destruct (createWorkload_inv debug (sv_epoch sv) (minTxCount (sv_adapter sv)) (maxTxCount (sv_adapter sv)) (sv_queue sv) o)
    as [(y & l & q & -> & Hc & Hc' & Hy)|(l & q & -> & _ & Hc & Hl)]; [|done|..].
  - eapply Forall_impl; [exact si_range0|]. unfold low. rewrite Hpc. simpl. lia.
  - left. injection E as <-. exists q. rewrite Hc', <-Hc. split_and!; [done|done|by rewrite Hc|].
    rewrite Hc in si_sorted0 |- *. by apply sorted_front.
  - right. injection E as <-. by exists l, q.
Qed.

Lemma loads_snoc ws w : concat (loads_of (ws ++ [w])) = concat (loads_of ws) ++ transactionList w.
Proof. unfold loads_of. rewrite fmap_app, concat_app. simpl. by rewrite app_nil_r. Qed.

Lemma assign_inv s db received hist sv ws sv' :
  server_inv s db received hist sv → sv_pc sv = Assigning ws → server_assign ws sv = Some (Ok sv') →
  server_inv s db received hist sv'.
Proof.
  intros Hi Hpc E. pose proof (assign_cases _ _ _ _ _ _ _ Hi Hpc E) as Hc. destruct Hi.
  destruct si_tm0 as (reported & tail & -> & Hun & Htm). unfold unreported, low in *.
  rewrite Hpc in *. destruct Hc as [(q & [= ->] & Hc & Hne & Hy)|(l & q & [= ->] & Hc & Hl)];
    split; simpl; try done; unfold low; simpl.
  - by exists reported, tail.
  - intros e. by rewrite Hc.
  - by rewrite Hc.
  - rewrite Hc in *. apply Forall_forall. intros x Hx. rewrite Forall_forall in si_range0, Hy.
    specialize (si_range0 x Hx). specialize (Hy x Hx). simpl in *. lia.
  - intros e He _. by apply si_full0.
  - by exists reported, tail.
  - intros e. rewrite si_queue0, Hc, of_epoch_app, loads_snoc. simpl transactionList. destruct (decide _) as [->|Hne].
    + by rewrite (of_epoch_same _ _ Hl), (assoc_L (++)).
    + by rewrite (of_epoch_other (sv_epoch sv) e l) by done.
  - rewrite Hc in si_sorted0. by apply StronglySorted_app_1_r in si_sorted0.
  - rewrite Hc in si_range0. by apply Forall_app in si_range0 as [_ ?].
  - intros e He _. by apply si_full0.
Qed.

(** *** The epoch is executed *)
Lemma assigned_queue s db received hist sv :
  server_inv s db received hist sv → low sv ≠ sv_epoch sv →
  queue (sv_epoch sv) (epochTxBuffer (sv_tm sv)) = assigned (sv_pc sv) ∧ sv_epoch sv < currentEpoch (sv_tm sv).
Proof.
  intros [] Hl. assert (low sv = sv_epoch sv + 1) as El by (unfold low in *; by destruct (sv_pc sv)). rewrite El in *.
  rewrite si_queue0, decide_True by done. rewrite of_epoch_below.
  - rewrite app_nil_r. split; [done|]. destruct (tq_contents (sv_queue sv)) as [|x l]; [by destruct (si_more0 Hl)|].
    apply Forall_cons in si_range0 as [Hx _]. lia.
  - eapply Forall_impl; [exact si_range0|]. simpl. lia.
Qed.

Lemma queue_nodup s received ptrs batches m e :
  tm_ok debug false rsaEncrypt localDecrypt rsaDecrypt s received ptrs batches m → NoDup (queue e (epochTxBuffer m)).
Proof.
  intros Hm. pose proof (ok_nodup _ _ _ _ _ _ _ _ _ _ Hm) as Hnd.
  rewrite (ok_received _ _ _ _ _ _ _ _ _ _ Hm), (buffered_split e) in Hnd.
  apply NoDup_app in Hnd as (_ & _ & Hb). by apply NoDup_app in Hb as (Hb & _).
Qed.

Lemma server_ready s db received hist sv ws :
  server_inv s db received hist sv → sv_pc sv = Assigned ws → chaincodes_return ws sv →
  concat (loads_of ws) ≠ [] ∧ epoch_ready invoke (sv_epoch sv) (concat (loads_of ws)) (exec_of sv).
Proof.
  intros Hi Hpc Hrun. destruct (assigned_queue _ _ _ _ _ Hi) as [Hq Hlt]; [unfold low; rewrite Hpc; lia|].
  rewrite Hpc in Hq. simpl in Hq. destruct Hi. destruct si_tm0 as (reported & tail & -> & _ & Htm).
  unfold chaincodes_return in Hrun. rewrite <-Hq in *. split; [apply si_full0; [lia|by rewrite Hpc]|].
  split; simpl.
  - by eapply queue_nodup.
  - intros p Hp. apply si_fresh0; [done|]. right. rewrite Hpc. by intros [].
  - intros p q t u. apply si_tids0.
  - intros tb Htb. apply si_table0 in Htb. rewrite Hpc in Htb. lia.
  - exact Hrun.
Qed.

Lemma final_txn_ident e ps st t :
  ident (final_txn invoke e ps st t) = ident t ∧ transactionResult (final_txn invoke e ps st t) ≠ PENDING.
Proof.
  unfold final_txn, dec, decision, executed, ident. destruct (sim_ret _ _ _ =? 0)%Z; [done|]. split; [done|]. simpl.
  destruct (waw _); [done|]. by destruct (negb _ || negb _).
Qed.

Lemma execute_total s db received hist sv ws log :
  server_inv s db received hist sv → sv_pc sv = Assigned ws → epoch_log_ok (loads_of ws, log) → chaincodes_return ws sv →
  ∃ sv', server_execute ws log sv = Ok sv' ∧
    epoch_result invoke (sv_epoch sv) (concat (loads_of ws)) (exec_of sv) (exec_of sv') ∧
    mrt_epoch <$> sv_table sv' = Some (sv_epoch sv) ∧ sv_tm sv' = set_tm_heap (tm_heap (sv_tm sv')) (sv_tm sv) ∧
    sv_adapter sv' = sv_adapter sv ∧ sv_queue sv' = sv_queue sv ∧ sv_epoch sv' = sv_epoch sv ∧ sv_pc sv' = Executed ws.
Proof.
  intros Hi Hpc Hlog Hrun. destruct (server_ready _ _ _ _ _ _ Hi Hpc Hrun) as [Hne Hr].
  destruct (run_epoch_log invoke debug (sv_epoch sv) (loads_of ws) (exec_of sv) Hr log (sv_pointers sv) Hne Hlog)
    as (rts & st & E & Hres & Htb).
  unfold server_execute. rewrite E. simpl. eexists. split_and!; [done| |done..]. by destruct st.
Qed.


(** What an execution leaves as it was. *)
Lemma result_heap e ps st st' p :
  epoch_result invoke e ps st st' →
  (p ∉ ps → ex_heap st' !! p = ex_heap st !! p) ∧ ident <$> ex_heap st' !! p = ident <$> ex_heap st !! p ∧
  (p ∈ ps → ∀ t, ex_heap st' !! p = Some t → transactionResult t ≠ PENDING).
Proof.
  intros [Hh _]. rewrite Hh. destruct (decide (p ∈ ps)) as [Hp|Hp]; split_and!; try done.
  - destruct (ex_heap st !! p) as [t|]; [|done]. simpl. f_equal. apply final_txn_ident.
  - intros _ t Ht. destruct (ex_heap st !! p) as [u|]; [|done]. injection Ht as <-. apply final_txn_ident.
Qed.

Lemma execute_inv s db received hist sv ws log sv' :
  server_inv s db received hist sv → sv_pc sv = Assigned ws → epoch_log_ok (loads_of ws, log) →
  chaincodes_return ws sv → server_execute ws log sv = Ok sv' →
  server_inv s db received (hist ++ [mkDone (concat (loads_of ws)) (exec_of sv) (exec_of sv')]) sv'.
Proof.
  intros Hi Hpc Hlog Hrun E. destruct (execute_total _ _ _ _ _ _ _ Hi Hpc Hlog Hrun) as (sv1 & E1 & Hres & Htb & Em & Ea & Eq & Ee & Epc).
  rewrite E in E1. injection E1 as <-. destruct (server_ready _ _ _ _ _ _ Hi Hpc Hrun) as [Hne Hr].
  destruct (assigned_queue _ _ _ _ _ Hi) as [Hq Hlt]; [unfold low; rewrite Hpc; lia|]. rewrite Hpc in Hq. simpl in Hq.
  destruct Hi. destruct si_tm0 as (reported & tail & -> & Hun & Htm). unfold unreported, low in *. rewrite Hpc in *. subst tail.
  rewrite app_nil_r in *. set (h := tm_heap (sv_tm sv')) in *.
  assert (∀ p, (p ∉ concat (loads_of ws) → h !! p = tm_heap (sv_tm sv) !! p) ∧ ident <$> h !! p = ident <$> tm_heap (sv_tm sv) !! p ∧
    (p ∈ concat (loads_of ws) → ∀ t, h !! p = Some t → transactionResult t ≠ PENDING)) as Hheap
    by (intros p; by apply (result_heap _ _ _ _ p Hres)).
  assert (∀ e p, e ≠ sv_epoch sv → p ∈ queue e (epochTxBuffer (sv_tm sv)) → p ∉ concat (loads_of ws)) as Hother.
  { intros e p He Hp Hin. rewrite <-Hq in Hin. apply (ok_queue _ _ _ _ _ _ _ _ _ _ Htm) in Hp as [(t & Et & <-) _].
    apply (ok_queue _ _ _ _ _ _ _ _ _ _ Htm) in Hin as [(u & Eu & Hu) _]. congruence. }
  split; unfold low; rewrite ?Em, ?Ea, ?Eq, ?Ee, ?Epc; simpl; try done.
  - eexists reported, [_]. split_and!; [done| |].
    + unfold unreported. rewrite Epc. eexists. split_and!; [done|done|]. simpl. intros p Hp.
      split; [by rewrite Em|]. rewrite Em. simpl. pose proof Hp as Hp'. rewrite <-Hq in Hp'.
      destruct (queue_heap _ _ _ _ _ _ _ Htm Hp') as [t Ht]. destruct (Hheap p) as (_ & Hid & Hres'). rewrite Ht in Hid.
      destruct (h !! p) as [u|] eqn:Eu; [|done]. exists u. split; [done|]. by apply Hres'.
    + apply execute_ok; [done|]. intros p. apply Hheap.
  - intros e He _. by apply si_full0.
  - intros e p Hp [He|[]]; [|done]. destruct (Hheap p) as [Hsame _]. rewrite Hsame by (by eapply Hother).
    apply si_fresh0; [done|by left].
  - intros e p q t u Hp Hq' Et Eu Etid. destruct (Hheap p) as (_ & Hip & _), (Hheap q) as (_ & Hiq & _).
    rewrite Et in Hip. rewrite Eu in Hiq.
    destruct (tm_heap (sv_tm sv) !! p) as [t0|] eqn:Et0; [|done]. destruct (tm_heap (sv_tm sv) !! q) as [u0|] eqn:Eu0; [|done].
    injection Hip as Ht _. injection Hiq as Hu _. apply (si_tids0 e p q t0 u0); try done. congruence.
  - intros tb Ht. rewrite Ht in Htb. injection Htb as ->. lia.
  - by apply chained_snoc.
  - intros i ed. rewrite lookup_snoc_Some. intros [[_ Hl]|[-> <-]]; [by apply si_hist0|].
    pose proof (ok_epoch _ _ _ _ _ _ _ _ _ _ Htm) as Hep. rewrite si_finishing0, <-si_epoch0, length_fmap in Hep.
    replace (getLatestSavedEpoch s + 1 + N.of_nat (length reported)) with (sv_epoch sv) by lia. done.
Qed.

(** *** The epoch is reported *)
Lemma report_total s db received hist sv ws :
  server_inv s db received hist sv → sv_pc sv = Executed ws →
  all_decided (sv_epoch sv) (sv_tm sv) ∧
  ∃ w, server_report sv = Ok (set_pc Reported (set_tm (epoch_closed false (sv_epoch sv) w (sv_tm sv)) sv)).
Proof.
  intros Hi Hpc. destruct (assigned_queue _ _ _ _ _ Hi) as [Hq _]; [unfold low; rewrite Hpc; lia|]. rewrite Hpc in Hq. simpl in Hq.
  destruct Hi. destruct si_tm0 as (reported & tail & -> & Hun & Htm). unfold unreported in Hun. rewrite Hpc in Hun.
  destruct Hun as (ed & -> & Eps & Hps).
  assert (all_decided (sv_epoch sv) (sv_tm sv)) as Hdec.
  { intros p t Hp Et. rewrite Hq, <-Eps in Hp. destruct (Hps p Hp) as (_ & u & Eu & Hu). congruence. }
  split; [done|]. unfold server_report. destruct (begin_eq debug categorize false (sv_epoch sv) (sv_tm sv)) as [w ->].
  - by eapply queue_nodup.
  - intros p Hp. by apply (ok_queue _ _ _ _ _ _ _ _ _ _ Htm).
  - done.
  - by exists w.
Qed.

Lemma closed_fields e w (m : TransactionManager SB) :
  tm_heap (epoch_closed false e w m) = tm_heap m ∧
  epochTxBuffer (epoch_closed false e w m) = <[e := []]> (epochTxBuffer m) ∧
  currentEpoch (epoch_closed false e w m) = currentEpoch m ∧ processingEpoch (epoch_closed false e w m) = processingEpoch m ∧
  finishing (epoch_closed false e w m) = Some e.
Proof.
  unfold epoch_closed, with_results. cbn [tm_heap set_buffer].
  by rewrite (ptrs_where_none _ (reuses false)) by (by intros t).
Qed.

Lemma report_inv s db received hist sv ws sv' :
  server_inv s db received hist sv → sv_pc sv = Executed ws → server_report sv = Ok sv' → server_inv s db received hist sv'.
Proof.
  intros Hi Hpc E. destruct (report_total _ _ _ _ _ _ Hi Hpc) as (Hdec & w & E').
  rewrite E' in E. injection E as <-. clear E'.
  destruct (assigned_queue _ _ _ _ _ Hi) as [Hq Hlt]; [unfold low; rewrite Hpc; lia|]. rewrite Hpc in Hq. simpl in Hq.
  destruct Hi. destruct si_tm0 as (reported & tail & -> & Hun & Htm). unfold unreported, low in *. rewrite Hpc in *.
  destruct Hun as (ed & -> & Eps & Hps).
  destruct (closed_fields (sv_epoch sv) w (sv_tm sv)) as (Eh & Eb & Ec & Ep & Ef).
  assert (∀ e p, p ∈ queue e (<[sv_epoch sv := []]> (epochTxBuffer (sv_tm sv))) →
    e ≠ sv_epoch sv ∧ p ∈ queue e (epochTxBuffer (sv_tm sv))) as Hsub.
  { intros e p. rewrite queue_insert. destruct (decide _) as [<-|]; [by intros ?%not_elem_of_nil|done]. }
  split; cbn [set_pc set_tm sv_tm sv_pc sv_epoch sv_queue sv_adapter sv_table sv_db]; unfold low, unreported;
    cbn [set_pc set_tm sv_pc sv_epoch]; rewrite ?Eh, ?Eb, ?Ec, ?Ep, ?Ef; try done.
  - exists (reported ++ [ed]), []. split_and!; [by rewrite app_nil_r|done|].
    pose proof (closed_ok debug false rsaEncrypt localDecrypt rsaDecrypt s received _ _ (sv_tm sv) (sv_epoch sv) w Htm
      si_finishing0 si_epoch0 Hlt Hdec) as Hclosed. cbv zeta in Hclosed.
    assert (ptrs_where (tm_heap (sv_tm sv)) (keeps false true) (queue (sv_epoch sv) (epochTxBuffer (sv_tm sv))) = ed_ps ed) as Ek.
    { rewrite Hq, <-Eps. apply ptrs_where_all. intros p Hp. destruct (Hps p Hp) as (_ & t & Et & Ht). exists t.
      split; [done|]. unfold keeps. by destruct (transactionResult t). }
    rewrite Ek in Hclosed. rewrite !fmap_app. simpl. unfold batch_of at 2.
    rewrite <-(objects_ext (tm_heap (sv_tm sv)) (ex_heap (ed_after ed))); [done|]. intros p Hp. by apply Hps.
  - intros e. rewrite queue_insert, si_queue0. destruct (decide (sv_epoch sv = e)) as [<-|Hne].
    + rewrite of_epoch_below; [by destruct (decide _)|]. eapply Forall_impl; [exact si_range0|]. simpl. lia.
    + by rewrite !decide_False by congruence.
  - intros e He Hne. rewrite queue_insert. destruct (decide _) as [<-|]; [by destruct Hne|]. by apply si_full0.
  - intros e p Hp _. apply Hsub in Hp as [Hne Hp]. apply si_fresh0; [done|by left].
  - intros e p q t u Hp Hq'. apply Hsub in Hp as [_ Hp], Hq' as [_ Hq']. by apply (si_tids0 e).
  - rewrite queue_insert. destruct (decide _); [lia|done].
Qed.

Lemma next_inv s db received hist sv :
  server_inv s db received hist sv → sv_pc sv = Reported → server_inv s db received hist (server_next sv).
Proof.
  intros Hi Hpc. destruct (assigned_queue _ _ _ _ _ Hi) as [Hq Hlt]; [unfold low; rewrite Hpc; lia|]. rewrite Hpc in Hq. simpl in Hq.
  destruct Hi. destruct si_tm0 as (reported & tail & -> & Hun & Htm). unfold unreported, low in *. rewrite Hpc in *.
  assert (∀ e, queue e (delete (sv_epoch sv) (epochTxBuffer (sv_tm sv))) = queue e (epochTxBuffer (sv_tm sv))) as Hqd.
  { intros e. rewrite queue_delete. by destruct (decide _) as [<-|]. }
  unfold server_next. split; simpl; unfold low, unreported; simpl; try done.
  - exists reported, tail. split_and!; [done|done|]. by apply end_ok.
  - intros e. rewrite Hqd, si_queue0. simpl. by destruct (decide _), (decide _).
  - intros e He _. rewrite Hqd. apply si_full0; [lia|intros _; lia].
  - intros e p. rewrite Hqd. intros Hp _. apply si_fresh0; [done|]. right. by intros [].
  - intros e p q t u. rewrite Hqd. apply (si_tids0 e).
  - by rewrite Hqd.
Qed.

Lemma server_run_inv processors s db received hist sv :
  getLatestSavedEpoch s = 0 → plausible 1 (processors / 2 + 1) →
  server_run processors s db received hist sv → server_inv s db received hist sv.
Proof.
  intros Hs Hp. induction 1 as [|batch received hist sv sv' _ IH Hd E|received hist sv _ IH Hne|ws received hist sv sv' _ IH Hpc E
    |ws log received hist sv sv' _ IH Hpc Hl Hrun E|ws received hist sv sv' _ IH Hpc E|received hist sv _ IH Hpc _|g received hist sv _ IH Hg].
  - by apply init_inv.
  - by eapply receive_inv.
  - by apply epoch_inv.
  - by eapply assign_inv.
  - by eapply execute_inv.
  - by eapply report_inv.
  - by apply next_inv.
  - destruct IH. destruct si_tm0 as (reported & tail & -> & Hun & Htm). split; simpl; try done.
    exists reported, tail. split_and!; [done|done|]. destruct Htm. split; simpl; try done. by eapply run_internal.
Qed.

(** ** Every transaction is somewhere *)

(** Assigned and not executed, or in the queue of the coordinator. *)
Definition waiting (sv : server) : list txn_ptr :=
  match sv_pc sv with Assigning ws | Assigned ws => concat (loads_of ws) | _ => [] end ++ (tq_contents (sv_queue sv)).*1.

Lemma buffered_entries (L : list (N * N)) b : (∀ e, queue e b = of_epoch e L) → buffered b ≡ₚ L.*1.
Proof.
  revert b. induction L as [|[p e] L IH]; intros b Hb; simpl.
  - destruct (buffered b) as [|p l] eqn:E; [done|]. destruct (elem_buffered_inv p b) as [e He]; [rewrite E; by left|].
    rewrite Hb in He. by apply not_elem_of_nil in He.
  - rewrite (buffered_split e b), (Hb e), <-(IH (<[e := of_epoch e L]> b)).
    + rewrite buffered_insert. unfold of_epoch at 1. rewrite filter_cons_True by done. done.
    + intros e'. rewrite queue_insert, (Hb e'). destruct (decide (e = e')) as [<-|Hne]; [done|].
      unfold of_epoch at 1. by rewrite filter_cons_False.
Qed.

Lemma received_split s db received hist sv :
  server_inv s db received hist sv → received ≡ₚ concat (ed_ps <$> hist) ++ waiting sv.
Proof.
  intros []. destruct si_tm0 as (reported & tail & -> & Hun & Htm).
  rewrite (ok_received _ _ _ _ _ _ _ _ _ _ Htm), fmap_app, concat_app, <-(assoc_L (++)). f_equiv.
  rewrite (buffered_entries (((λ p, (p, sv_epoch sv)) <$> assigned (sv_pc sv)) ++ tq_contents (sv_queue sv))).
  - rewrite fmap_app, <-list_fmap_compose. change (fst ∘ _) with (@id txn_ptr). rewrite list_fmap_id.
    unfold unreported, waiting in *. destruct (sv_pc sv); simpl; try (by subst tail).
    destruct Hun as (ed & -> & E & _). simpl. by rewrite E, app_nil_r.
  - intros e. rewrite si_queue0, of_epoch_app. f_equal. destruct (decide (e = sv_epoch sv)) as [->|Hne].
    + rewrite of_epoch_same by (by apply Forall_fmap, Forall_true). rewrite <-list_fmap_compose. symmetry. apply list_fmap_id.
    + symmetry. apply (of_epoch_other (sv_epoch sv)); [by apply Forall_fmap, Forall_true|done].
Qed.

End Server.

(** ** The server is correct *)
Section Correct.
Context `{ProtobufLaws} `{BlockProtoLaws} {SB : Type} `{BlockStorageLaws SB} {SD : Type} `{TableStorage SD}.
Context (invoke : string → string → CC SD Z) {HL : ∀ h p, Local (invoke h p)}.
Context (debug categorize async : bool).
Context (rsaEncrypt : list N → option (list N)) (localDecrypt : list N → list N → bool)
  (rsaDecrypt : string → list N → list N → bool).
Local Notation server := (Server SB SD).
Local Notation server_run := (server_run invoke debug categorize async rsaEncrypt localDecrypt rsaDecrypt).

(** The executed epoch is that of a serial execution. *)
Definition serial_epoch (e : N) (ed : epoch_done (SD := SD)) : Prop :=
  let order := serial_order invoke e (ed_ps ed) (ed_before ed) in
  (∃ s', serial_exec invoke (ed_before ed) order (Database.storage (ex_db (ed_before ed))) =
           Ok (recorded invoke (ed_before ed) <$> order, s') ∧
         ∀ c, view (Database.storage (ex_db (ed_after ed))) c = view s' c) ∧
  ∀ p, p ∈ ed_ps ed → ∃ t, ex_heap (ed_after ed) !! p = Some t ∧ tr_epoch t = e ∧
    kvRWSet t = (recorded invoke (ed_before ed) p).2 ∧ (transactionResult t = COMMIT ↔ p ∈ order).

(** The next call of each thread returns. *)
Definition no_stop (received : list txn_ptr) (sv : server) : Prop :=
  (∀ batch, delivers received batch (sv_tm sv) → ∃ sv', server_receive batch sv = Ok sv') ∧
  match sv_pc sv with
  | Assigning ws => (∀ o, server_assign debug ws sv = Some o → ∃ sv', o = Ok sv') ∧
      (Exists (λ x, sv_epoch sv < x.2) (tq_contents (sv_queue sv)) → is_Some (server_assign debug ws sv))
  | Assigned ws => ∀ log, epoch_log_ok (loads_of ws, log) → chaincodes_return invoke ws sv →
      ∃ sv', server_execute invoke debug ws log sv = Ok sv'
  | Executed _ => ∃ sv', server_report debug categorize sv = Ok sv'
  | Reported => True
  end.

(** The threads of the block generator: a task of the pool and a round of the
    header thread return; the callback for a signature of another server waits
    for the block, accepts a signature that verifies against the Merkle root of
    the stored block, and stops the process only at one that does not. *)
Definition generator_no_stop (g : BlockGenerator SB) : Prop :=
  (∀ i, (i < length (tasks g))%nat → ∃ g', finish_task debug rsaEncrypt i g = Ok g') ∧
  (∀ o, run_round g = Some o → ∃ g', o = Ok g') ∧
  ∀ n ip signature, n ≠ 0 →
    match signatureVerifyCallback debug localDecrypt rsaDecrypt n ip signature g with
    | None => getLatestSavedEpoch (BlockGenerator.storage g) < n
    | Some o => ∃ b root, loadBlock n (BlockGenerator.storage g) = Ok (Some b) ∧ b_metadata b !! 1%nat = Some root ∧
        if rsaDecrypt ip root signature then ∃ g', o = Ok (true, g') else o = Fatal CheckFailed
    end.

Lemma chain_no_stop batches cur k g :
  (∀ r, is_Some (rsaEncrypt r)) → Forall batch_ok batches → N.of_nat (length batches) < 2 ^ 63 →
  chain_ok rsaEncrypt batches cur k g → generator_no_stop g.
Proof.
  intros Hrsa Hb Hlt Hk. pose proof Hk as []. split_and!.
  - intros i Hi. destruct (finish_task_ok debug rsaEncrypt batches cur k g i Hrsa Hb Hk Hi) as (g' & ? & _). eauto.
  - intros o Ho. destruct (run_round_ok rsaEncrypt batches cur k g Hb Hlt Hk) as (g' & E & _);
      [|rewrite E in Ho; injection Ho as <-; eauto].
    unfold run_round in Ho. rewrite ch_header in Ho. by destruct (blockBuffer g !! _).
  - intros n ip signature Hn. destruct (decide (getLatestSavedEpoch (BlockGenerator.storage g) < n)) as [Hlt'|Hge].
    { unfold signatureVerifyCallback. by rewrite (proj2 (N.ltb_lt _ _) Hlt'). }
    set (j := N.to_nat (n - 1)). assert (j < k)%nat as Hj by (unfold j; rewrite ch_latest in Hge; lia).
    replace n with (N.of_nat j + 1) by (unfold j; lia).
    destruct (callback_ok debug rsaEncrypt localDecrypt rsaDecrypt batches cur k g j ip signature Hk Hj) as (c & _ & _ & ->).
    exists (block_at rsaEncrypt batches j), (root_of (queue_at batches j)).
    split_and!; [by apply load_stored, ch_blocks|done|]. destruct (rsaDecrypt _ _ _); eauto.
Qed.

Lemma executed_serial e ed : executed_ok invoke e ed → serial_epoch e ed.
Proof.
  intros (_ & Hr & Hres).
  destruct (result_serializable invoke e (ed_ps ed) (ed_before ed) Hr (ed_after ed) Hres) as (s' & Hs1 & Hs2 & Hs3).
  split; [by exists s'|]. intros p Hp. destruct (Hs3 p Hp) as (t & Et & Hrw & Hc). exists t. split_and!; try done.
  destruct (er_txn _ _ _ _ Hr p Hp) as (u & Eu & Hu). destruct (result_heap invoke e _ _ _ p Hres) as (_ & Hid & _).
  rewrite Et, Eu in Hid. injection Hid as _ ->. apply Hu.
Qed.

(** The first entry of a later epoch. *)
Lemma later_entry (e : N) (l : list (N * N)) :
  Forall (λ x, e ≤ x.2) l → Exists (λ x, e < x.2) l →
  ∃ l1 y l2, l = l1 ++ y :: l2 ∧ Forall (λ x, x.2 = e) l1 ∧ e < y.2.
Proof.
  induction 1 as [|x l Hx Hl IH]; intros Hex; [by inversion Hex|]. destruct (decide (e < x.2)) as [Hlt|Hge].
  - by exists [], x, l.
  - apply Exists_cons in Hex as [|Hex]; [done|]. destruct (IH Hex) as (l1 & y & l2 & -> & Hl1 & Hy).
    exists (x :: l1), y, l2. split_and!; [done| |done]. constructor; [lia|done].
Qed.

Lemma inv_no_stop s db received hist sv :
  server_inv invoke debug rsaEncrypt localDecrypt rsaDecrypt s db received hist sv → no_stop received sv.
Proof.
  intros Hi. split.
  { intros batch Hd. destruct (receive_total _ _ _ _ _ _ _ _ _ _ _ Hi Hd) as (a & -> & _). by eexists. }
  destruct (sv_pc sv) as [ws|ws|ws|] eqn:Hpc; [| | |done].
  - split.
    + intros o Ho. destruct (assign_cases _ _ _ _ _ _ _ _ _ _ _ _ Hi Hpc Ho) as [(q & -> & _)|(l & q & -> & _)]; by eexists.
    + intros Hex. pose proof (si_range _ _ _ _ _ _ _ _ _ _ Hi) as Hrange. unfold low in Hrange. rewrite Hpc in Hrange.
      destruct (later_entry (sv_epoch sv) (tq_contents (sv_queue sv))) as (l1 & y & l2 & Hc & Hl1 & Hy); [|done|].
      { eapply Forall_impl; [exact Hrange|]. simpl. lia. }
      unfold server_assign. destruct l1 as [|x l1].
      * destruct (createWorkload_none debug (sv_epoch sv) (minTxCount (sv_adapter sv)) (maxTxCount (sv_adapter sv)) y l2 (sv_queue sv) Hc Hy)
          as (q & -> & _). by eexists.
      * pose proof (wo_min _ _ (si_adapter _ _ _ _ _ _ _ _ _ _ Hi)) as Hmin. unfold minTxThreadHold in Hmin.
        destruct (createWorkload_spec debug (sv_epoch sv) (minTxCount (sv_adapter sv)) (maxTxCount (sv_adapter sv)) x l1 y l2
          (sv_queue sv) Hc Hl1 Hy ltac:(lia)) as (k & q & -> & _). by eexists.
  - intros log Hlog Hrun. destruct (execute_total _ _ _ _ _ _ _ _ _ _ _ _ Hi Hpc Hlog Hrun) as (sv' & -> & _). by eexists.
  - destruct (report_total _ _ categorize _ _ _ _ _ _ _ _ _ Hi Hpc) as (_ & w & ->). by eexists.
Qed.
Lemma seals_app l l' st n : (1 ≤ n)%nat → seals rsaEncrypt l st n → seals rsaEncrypt (l ++ l') st n.
Proof.
  intros Hn (batch & q & b & Hb & Hrest). exists batch, q, b. split; [|done]. by apply lookup_app_l_Some.
Qed.

(** C3: the whole server.  Start a server on an empty chain, without aggregation
    and without reuse of aborted transactions; let its communication module
    deliver new transactions epoch by epoch, none of them empty, and let its
    threads run in any order.  Then every transaction received was executed in
    exactly one epoch or waits for the coordinator; the epochs executed are
    numbered from 1, each is equivalent to a serial execution of its committed
    transactions on the database that the epoch before left, and marks the
    others as aborted; the blocks stored so far are a valid chain, block [n] with
    the transactions and results of epoch [n]; the sizes of workloads stay in
    their bounds.  No call of the manager, the coordinator and the workers stops
    the process: a batch can be added, a workload is created whenever a later
    epoch has arrived, the epoch can be executed if its chaincodes return, and
    reported.  Nor do the thread pool and the header thread of the block
    generator, while a signature of another server stops it exactly when it does
    not verify against the stored block.  The epochs are in the limits of the
    block generator ([batch_ok]: one to 2^18 transactions, each below 4 GiB) and
    signing does not fail. *)
Theorem server_correct processors s (db : DatabaseImpl SD) received hist (sv : server) :
  store_ok s → getLatestSavedEpoch s = 0 → plausible 1 (processors / 2 + 1) → (∀ r, is_Some (rsaEncrypt r)) →
  server_run processors s db received hist sv →
  Forall (λ ed, batch_ok (batch_of ed)) hist → N.of_nat (length hist) < 2 ^ 63 →
  NoDup received ∧ received ≡ₚ concat (ed_ps <$> hist) ++ waiting sv ∧
  chained db hist (sv_db sv) ∧
  (∀ i ed, hist !! i = Some ed → serial_epoch (N.of_nat i + 1) ed) ∧
  (∃ k, (k ≤ length hist)%nat ∧
     getLatestSavedEpoch (BlockGenerator.storage (blockGenerator (sv_tm sv))) = N.of_nat k ∧
     ∀ n, (1 ≤ n ≤ k)%nat → seals rsaEncrypt (batch_of <$> hist) (BlockGenerator.storage (blockGenerator (sv_tm sv))) n) ∧
  (5 ≤ minTxCount (sv_adapter sv) ≤ maxTxCount (sv_adapter sv)) ∧
  no_stop received sv ∧ generator_no_stop (blockGenerator (sv_tm sv)).
Proof.
  intros Hs Hz Hp Hrsa Hrun Hb Hlen. pose proof (server_run_inv _ _ _ _ _ _ _ _ _ _ _ _ _ Hz Hp Hrun) as Hi.
  pose proof Hi as Hi'. destruct Hi as [(reported & tail & Eh & _ & Htm)].
  assert (Forall batch_ok (batch_of <$> reported)) as Hb'.
  { apply Forall_fmap. rewrite Eh in Hb. by apply Forall_app in Hb as [Hb _]. }
  assert (N.of_nat (length (batch_of <$> reported)) < 2 ^ 63) as Hlen'.
  { rewrite Eh, length_app in Hlen. rewrite length_fmap. lia. }
  assert (∃ k, chain_ok rsaEncrypt (batch_of <$> reported) [] k (blockGenerator (sv_tm sv))) as [k Hk].
  { apply (chain_run debug rsaEncrypt localDecrypt rsaDecrypt s); [done..|by apply (ok_gen _ _ _ _ _ _ _ _ _ _ Htm)|done|done]. }
  split_and!.
  - by apply (ok_nodup _ _ _ _ _ _ _ _ _ _ Htm).
  - by eapply received_split.
  - done.
  - intros i ed Hed. apply executed_serial. replace (N.of_nat i + 1) with (getLatestSavedEpoch s + 1 + N.of_nat i) by (rewrite Hz; lia).
    eauto.
  - exists k. pose proof Hk as []. rewrite length_fmap in *. rewrite Eh, length_app. split_and!; [lia|done|].
    intros n Hn. rewrite fmap_app. apply seals_app; [lia|]. by apply (chain_seals rsaEncrypt _ [] k).
  - apply (wo_min _ _ (si_adapter _ _ _ _ _ _ _ _ _ _ Hi')).
  - apply (wo_min _ _ (si_adapter _ _ _ _ _ _ _ _ _ _ Hi')).
  - by eapply inv_no_stop.
  - by eapply chain_no_stop.
Qed.
End Correct.
