(* ===== verification/ServerRuns.v ===== *)
(** * A run of a block server

    Two epochs of SmallBank transactions arrive; the first one is executed
    and reported, the second one waits. *)
From S2P Require Import Prelude EpochQueues Transaction TransactionCodec Storage Orm Database ReserveTable Executor Aria.
From S2P Require Import Chaincode SmallBank ChaincodeManager AriaRuns.
From S2P Require Import LruCache MerkleTree BlockStorage BlockGenerator TransactionManager WorkloadSize Coordinator Protocol System Server.
From Stdlib Require Import NArith Lia.
From stdpp Require Import base list gmap strings.

Local Open Scope N_scope.

Module ServerRuns.

#[local] Existing Instances MemLevelDB.mem_storage MemLevelDB.mem_table_storage.
#[local] Existing Instances Varint.varint_protobuf Varint.varint_laws BlockBits.bits_proto BlockBits.bits_laws.
Import GeneratorRuns.
Local Notation server := (Server BlockStorageToDB (gmap string (gmap string string))).

#[local] Instance cc_local h p : Local (AriaRuns.cc h p).
Proof. apply InvokeChaincode_local. Qed.

Definition request (e tid : N) (header args : string) : Transaction :=
  mkTransaction e tid false empty_rwset PENDING (mkPayload header args tid "") None.
Definition batch1 : list (txn_ptr * Transaction) :=
  [(101, request 1 11 "sendPayment" "alice,bob,30"); (102, request 1 12 "sendPayment" "bob,carol,10")].
Definition batch2 : list (txn_ptr * Transaction) := [(103, request 2 13 "getBalance" "dave")].

Definition get_option (d : server) (o : option (outcome server)) : server := get d (default (Ok d) o).

(** With 8 processors. *)
Definition s0 : server := initServer 8 mem_start (new_DatabaseImpl ∅).
Definition s1 := get s0 (server_receive batch1 s0).
Definition s2 := set_tm (run_next false (sv_tm s1)) s1.
Definition s3 := get s2 (server_receive batch2 s2).
Definition w1 : Workload := mkWorkload 1 [101; 102] false.
Definition s4 := get_option s3 (server_assign false [] s3).
Definition s5 := get_option s4 (server_assign false [w1] s4).
Definition log1 : list event := [EvExec 0 [101; 102]; EvCommit 0 [101; 102]].
Definition s6 := get s5 (server_execute AriaRuns.cc false [w1] log1 s5).
Definition s7 := get s6 (server_report false true s6).
Definition s8 := server_next s7.
Definition epoch1 : epoch_done := mkDone [101; 102] (exec_of s5) (exec_of s6).

Local Notation run := (server_run AriaRuns.cc false true true sign check check_ip 8 mem_start (new_DatabaseImpl ∅)).

Lemma delivers_batch received batch (m : TransactionManager BlockStorageToDB) :
  bool_decide (batch ≠ []) && bool_decide (NoDup batch.*1) && bool_decide (Forall (λ p, tm_heap m !! p = None) batch.*1) &&
  forallb (λ t, bool_decide (tr_epoch t = currentEpoch m ∧ kvRWSet t = empty_rwset ∧ transactionResult t = PENDING ∧
    readOnlyFlag t = false ∧ tr_tid t ≠ 0)) batch.*2 && bool_decide (NoDup (tr_tid <$> batch.*2)) &&
  bool_decide (queue (currentEpoch m) (epochTxBuffer m) = []) &&
  (3000 + N.of_nat (length received + length batch) <? 2 ^ 50) && (currentEpoch m <? 2 ^ 63) = true →
  delivers received batch m.
Proof.
  rewrite !andb_true_iff, !bool_decide_eq_true. intros (((((((H1 & H2) & H3) & H4) & H5) & H6) & H7%N.ltb_lt) & H8%N.ltb_lt).
  split_and!; try done.
  - by apply Forall_forall.
  - rewrite forallb_forall in H4. apply Forall_forall. intros t Ht%list_elem_of_In. specialize (H4 t Ht).
    apply bool_decide_eq_true in H4 as (? & ? & ? & ? & ?). by split.
  - intros p t. rewrite H6. by intros ?%not_elem_of_nil.
Qed.

Lemma run_to_3 : run [101; 102; 103] [] s3.
Proof.
  apply (sr_receive _ _ _ _ _ _ _ _ _ _ batch2 [101; 102] [] s2 s3); [|apply delivers_batch; vm_compute; reflexivity|vm_compute; reflexivity].
  apply (sr_epoch _ _ _ _ _ _ _ _ _ _ [101; 102] [] s1); [|vm_compute; discriminate].
  apply (sr_receive _ _ _ _ _ _ _ _ _ _ batch1 [] [] s0 s1); [apply sr_init|apply delivers_batch; vm_compute; reflexivity|vm_compute; reflexivity].
Qed.

Lemma runs_1 : chaincodes_return AriaRuns.cc [w1] s5.
Proof.
  intros p t Hp Et. apply AriaRuns.runs_ok_b_sound.
  assert (forallb (λ p, match tm_heap (sv_tm s5) !! p with
    | Some t => AriaRuns.runs_ok_b (Database.storage (sv_db s5)) t | None => false end) (concat (loads_of [w1])) = true) as Hall
    by (vm_compute; reflexivity).
  rewrite forallb_forall in Hall. specialize (Hall p ltac:(by apply list_elem_of_In)). by rewrite Et in Hall.
Qed.

Lemma log_1 : epoch_log_ok (loads_of [w1], log1).
Proof. exists [(0%nat, [101; 102])], [(0%nat, [101; 102])]. split_and!; [done| |done..]. apply NoDup_singleton. Qed.

Lemma run_to_6 : run [101; 102; 103] [epoch1] s6.
Proof.
  apply (sr_execute _ _ _ _ _ _ _ _ _ _ [w1] log1 [101; 102; 103] [] s5 s6);
    [|vm_compute; reflexivity|exact log_1|exact runs_1|vm_compute; reflexivity].
  apply (sr_assign _ _ _ _ _ _ _ _ _ _ [w1] [101; 102; 103] [] s4 s5); [|vm_compute; reflexivity..].
  apply (sr_assign _ _ _ _ _ _ _ _ _ _ [] [101; 102; 103] [] s3 s4); [exact run_to_3|vm_compute; reflexivity..].
Qed.

Lemma report_6 : server_report false true s6 = Ok s7.
Proof. vm_compute. reflexivity. Qed.
Lemma run_to_8 : run [101; 102; 103] [epoch1] s8.
Proof.
  exact (sr_next _ _ _ _ _ _ _ _ _ _ _ _ s7 (sr_report _ _ _ _ _ _ _ _ _ _ [w1] _ _ s6 s7 run_to_6 eq_refl report_6) eq_refl eq_refl).
Qed.

Lemma processors_8 : plausible 1 (8 / 2 + 1).
Proof. split; split; vm_compute; first [reflexivity|discriminate]. Qed.

Lemma batch_1 : Forall (λ ed, batch_ok (batch_of ed)) [epoch1].
Proof.
  constructor; [|constructor]. split_and!; [vm_compute; discriminate| |].
  - apply Nat.le_trans with (2 ^ 2)%nat; [vm_compute; lia|]. apply Nat.pow_le_mono_r; lia.
  - assert (forallb (λ t, N.of_nat (length (serialize_body t)) <? 2 ^ 32 - 32) (batch_of epoch1) = true) as Hb
      by (vm_compute; reflexivity).
    rewrite forallb_forall in Hb. apply Forall_forall. intros t Ht%list_elem_of_In. by apply N.ltb_lt, Hb.
Qed.

(** 12 read what 11 wrote and is aborted. *)
Example results_1 : transactionResult <$> batch_of epoch1 = [COMMIT; ABORT].
Proof. vm_compute. reflexivity. Qed.

Lemma server_correct_witness :
  [101; 102; 103] ≡ₚ concat (ed_ps <$> [epoch1]) ++ waiting s8 ∧ chained (new_DatabaseImpl ∅) [epoch1] (sv_db s8) ∧
  (∀ i ed, [epoch1] !! i = Some ed → serial_epoch AriaRuns.cc (N.of_nat i + 1) ed) ∧
  no_stop AriaRuns.cc false true [101; 102; 103] s8 ∧ generator_no_stop false sign check check_ip (blockGenerator (sv_tm s8)).
Proof.
  destruct (server_correct AriaRuns.cc false true true sign check check_ip 8 mem_start (new_DatabaseImpl ∅) _ _ s8 start_ok eq_refl
    processors_8 sign_total run_to_8 batch_1 eq_refl) as (_ & H1 & H2 & H3 & _ & _ & H4).
  exact (conj H1 (conj H2 (conj H3 H4))).
Defined.

End ServerRuns.
